(* ===== verification/_CoqProject ===== *)
-Q . S2P
Prelude.v
RingBuffer.v
Interleaving.v
Executor.v
Doorbell.v
Setup.v
HttpsClientAsync.v
HttpsProtocol.v
Timer.v
SecureWebSocketClient.v
WriteQueue.v
WebSocketSafety.v
WebSocketProperties.v
WebSocketAttempts.v
WebSocketConnect.v
ReconnectingClient.v
ReconnectingSafety.v
ReconnectingLiveness.v
SlotTyping.v
WebSocketProtocol.v
HttpsMultiplexClient.v
HeaderLines.v
MultiplexInvariant.v
MultiplexSafety.v
MultiplexProperties.v
MultiplexDestructor.v
