(* ===== verification/Prelude.v ===== *)
(** * A verification of cpp-components

    The library has five components for C++ network programs: a bounded ring
    buffer, an executor (one thread that runs an Asio [io_context]), a timer,
    two HTTPS clients and a WebSocket client with a reconnecting derived class.
    Every client lives on an executor: an API call posts a lambda, the executor
    thread runs it, and the lambda starts asynchronous operations whose
    completions run on the same thread.  The WebSocket client keeps its unsent
    messages in the ring buffer and its deadlines in timers.

    ** The model

    A member function is a computation in the state monad [M] of this file, on a
    [World] that holds the object's fields and what is outside of it: the
    lambdas posted to the executor, the operations in flight, and a trace of the
    library calls and callbacks made.  What must not happen in C++ (a failed
    [assert], a null or dangling pointer, [shared_from_this()] without an owner,
    signed overflow, a loop that does not end) is a [Fault].  [wp m Q w] says
    that [m] ends without one and establishes [Q]; [wlp m Q w] that it
    establishes [Q] if it does, and [moves P m Q] is that from every state in
    [P].  The executor is an adversary: an action runs any
    posted lambda, or completes any operation in flight with any result, or lets
    user code call the API, and [run] performs a list of actions.  User callbacks
    may call the API again; what they call is an arbitrary function of the trace.

    Asio, Beast and OpenSSL appear as the trace's library calls; what a call
    returns is an argument of the completion or of the action's environment.
    libcurl, which calls back from inside the client's calls, is the class
    [Curl]: arbitrary functions of the history that choose the callbacks and the
    return values, restrained only by [CurlLaws].

    ** The files

    - [Prelude]: record updates, machine integers, the monad with [wp], [wlp] and
      [moves], runs, error codes, counting in lists, automation.
    - [RingBuffer]: [fixed_ring_buffer.h]; [FifoQueue], [FifoQueueLaws] and
      [FifoQueueSlots] are the interface its client uses, discharged by
      [ring_queue_laws] and [ring_queue_slots].
    - [Interleaving]: operations as sequences of atomic accesses, run alone or
      concurrently, with a rely-guarantee rule.
    - [Executor]: [executor.cpp], life cycle and thread control; every operation
      is such a sequence, and [System] interleaves those of its owner with those
      of other threads.
    - [Doorbell]: [executor.cpp], the doorbell between producers, executor
      thread and kernel, one shared access per step ([doorbell_step]).
    - [Setup]: the constructors' TLS contexts, [set_ca_certificate], and the
      global initialisation of libcurl.
    - [HttpsClientAsync]: [https_client_async.cpp], one request at a time;
      [HttpsProtocol]: what it does with each stream, against a script.
    - [Timer]: [timer.cpp], over an Asio timer given as a record of operations.
    - [SecureWebSocketClient]: [secure_websocket_client.cpp].  A derived class is
      the parameters [Extension], [User] and [Virtual].  [WriteQueue] has the
      invariants of its queue, [WebSocketSafety] the invariant of the whole
      client, [WebSocketProperties] its theorems and the class on its own,
      [WebSocketAttempts] the attempts to connect that it confuses, and
      [WebSocketConnect] how an attempt ends that is left alone.
    - [ReconnectingClient]: [reconnecting_secure_websocket_client.cpp], as
      instances of those parameters; [ReconnectingSafety]: how its state machine
      and its base class's stay in step; [ReconnectingLiveness]: the rounds of
      attempts that follow a lost connection.
    - [SlotTyping] and [WebSocketProtocol], on both classes: the arrays of the
      write queue's slots, and what is done with each stream.
    - [HttpsMultiplexClient]: [https_multiplex_client.cpp], many requests at a
      time on libcurl, with the stores its raw pointers point into.
      [HeaderLines] is about its header parser; [MultiplexInvariant],
      [MultiplexSafety] and [MultiplexProperties] are its invariant, the proof
      that every handler keeps it, and the theorems; [MultiplexDestructor] is
      about the end of its life.

    Definitions have the names of the functions they translate, and appear in
    the order in which the code composes them.

    ** What is shown

    - The ring buffer is a bounded list: [ring_refines_fifo] for any program of
      operations, from positions about to wrap included, with assertions failing
      exactly where the list refuses; elements stay in their cell.  It is also
      the textbook ring with unbounded positions, up to 64 bits
      ([wrapping_ring_is_equivalent]).
    - The executor creates and joins at most one thread, which its destructor
      never leaves joinable; in no interleaving with the thread control of other
      threads is the thread's handle used before it is assigned
      ([executor_lifecycle_invariant]).  The doorbell loses no wake-up in any interleaving,
      its counter stays bounded, and [stop] ends it for good.
    - The one-request client never faults, answers every request once, ends each
      request within five completions, and refines a stage-by-stage
      specification; what cancelling and destroying do, exactly.  Every stream
      serves one request, by its script, and is then left alone
      ([each_stream_serves_one_request]), and a request whose operations succeed
      runs all of it ([successful_request_runs_its_script]).  What was
      in flight when a request was cancelled goes unnoticed ever after
      ([cancel_answers_and_silences]).
    - The WebSocket client never faults, puts what it accepted on the wire in
      order, has one write outstanding, answers every write once, drains its
      queue, and ends every close; the outcome of each handler with a deadline.
      No copy runs over the array of a slot ([slots_keep_their_type]); when
      attempts do not overlap, nothing is read or written on a stream before its
      handshakes ([handshakes_before_data]).  An attempt to connect ends with the
      first of its failures, or with the whole script of a connection
      ([attempt_ends_as_its_stages_do]).
    - The reconnecting client inherits all of it; its delays double up to the
      maximum, a lost connection is always retried, and a closed client stays
      closed.  After any number of failing attempts, at any stage, each of which
      is told and waited for, the first that meets no failure connects it again
      ([lost_connection_comes_back]).
    - A timer answers every wait once, in order, with the error of what ended it
      ([every_wait_is_answered_once]).
    - The multiplexing client uses no dangling pointer and leaks no easy handle
      whatever libcurl does within its documentation; requests are answered
      once, with exactly what was received; cancelling and finished transfers
      answer all, and the destructor releases all unless it throws.  A header
      line is read back iff it was printed as one.
    - A client's TLS context verifies its peers unless the constructor said it
      could not be told to ([tls_context_verifies_peers]); libcurl is initialised
      once ([curl_is_initialised_once]).
    - Where the code falls short there is a theorem for that too:
      [joined_thread_is_controlled],
      [only_cancel_destroys_a_stream_in_use], [stale_failure_ends_the_attempt],
      [stale_handshake_connects_any_stream], [sent_without_tls],
      [refused_connect_changes_the_verified_name],
      [connect_handler_is_lost], [restarted_client_gets_stuck],
      [delay_after_success_ignores_max], [second_ready_call_disowns_the_connection],
      [two_way_watches_double], [stale_descriptor_closes_another_socket],
      [destructor_throws].

    ** Bounds and fuel

    The generations and the ring's positions are [uint64_t]s; they wrap in the
    model ([u64_succ]).  The theorems about generations take runs of fewer than
    2^64 events, so that no old generation is met again; the ring's theorems have
    no such bound.  Clock arithmetic does not overflow for time-outs of at most
    10^9 seconds, a clock below 2^62 ns and reconnect delays of at most 2^61 ns
    ([sane_seconds], [sane_time], [sane_delay]).  The only loop that is not over
    a list, that of [fail_pending_writes], has one unit of fuel more than the
    queue has slots, and [close_answers_everything] shows it ends.  The number of
    libcurl's callbacks in one call is chosen by the oracle, and finite.  The
    theorems about the reconnecting client's state take OpenSSL to report the
    error of a call that fails ([reports_errors]); a failure reported as 0 would
    be passed on as a success.

    ** What is not modelled

    The constant options of libcurl's multi handle, which keep no state of the
    library's own; logging, but for what the constructors print;
    [Executor::dispatch] and [get_context], which forward to Asio ([post] is the
    clients' [executor_post]); copy and move, which are deleted.
    But for the executor's, API calls from other threads are atomic steps: the
    data race on [host],
    [port] and [resource] that [SecureWebSocketClient::connect] allows is
    outside of the model.  Tests and benchmarks are not part of the library.

    Not shown: that a transfer makes progress when its sockets are ready, which
    needs more of libcurl than is assumed here; how much time passes between an
    event and its deadline, as the trace has no clock (the deadlines themselves
    are exact).  Several clients on one executor share nothing but its queue,
    and each is modelled alone, the others' handlers being events in between. *)

From Stdlib Require Export ZArith Lia Bool.
From stdpp Require Export base tactics list strings gmap relations.

#[global] Open Scope Z_scope.

(** * Record updates

    [r <| f := v |>] is the record [r] with field [f] replaced by [v];
    [r <| f ::= g |>] applies [g] to the field.  A record type becomes
    updatable by giving its eta-expansion as an instance of [Settable]. *)

Class Settable (R : Type) := settable_eta : R → R.
Class Setter {R E : Type} (getter : R → E) := setter : (E → E) → R → R.
#[global] Hint Mode Settable ! : typeclass_instances.
Arguments setter {R E} getter {_} _ _ /.

Ltac build_setter R E getter :=
  let eta := constr:(_ : Settable R) in
  exact (fun (upd : E → E) (r : R) =>
    ltac:(let b := eval hnf in (eta r) in
          match b with
          | context C [getter r] =>
              let b' := context C [upd (getter r)] in exact b'
          end)).

#[global] Hint Extern 1 (@Setter ?R ?E ?getter) => build_setter R E getter : typeclass_instances.

Declare Scope record_scope.
Delimit Scope record_scope with rcd.
#[global] Open Scope record_scope.
Notation "r <| f := v |>" := (setter f (λ _, v) r)
  (at level 1, left associativity, f at level 9) : record_scope.
Notation "r <| f ::= g |>" := (setter f g r)
  (at level 1, left associativity, f at level 9) : record_scope.

(** * Machine integers *)

Definition two64 : Z := 2 ^ 64.

(** The value of a [uint64_t] expression: arithmetic modulo 2^64. *)
Definition u64 (z : Z) : Z := z mod two64.

(** [++x] on a [uint64_t]. *)
Definition u64_succ (z : Z) : Z := u64 (z + 1).

(** The values of a signed 64-bit integer ([int64_t], a [std::chrono] count). *)
Definition in_int64 (z : Z) : bool := (- 2 ^ 63 <=? z) && (z <? 2 ^ 63).

(** * Faults and the state monad

    A computation reads and writes a state [S] and returns a value, or stops
    with a fault: an [assert] that fails, a null or dangling pointer that is dereferenced,
    [shared_from_this()] on an object whose last reference is gone, a signed
    overflow. *)

Inductive fault :=
  | AssertFailed
  | NullDeref
  | BadWeakPtr
  | UseAfterFree
  | SignedOverflow
  | OutOfFuel.    (* not a behaviour of the code: a loop was given too little fuel *)

Inductive result (A : Type) :=
  | Ok (a : A)
  | Fault (f : fault).
Arguments Ok {A} a.
Arguments Fault {A} f.

Definition M (S A : Type) : Type := S → result (A * S).

Section monad.
Context {S : Type}.

Definition ret {A} (a : A) : M S A := λ s, Ok (a, s).
Definition bind {A B} (m : M S A) (k : A → M S B) : M S B := λ s,
  match m s with
  | Ok (a, s') => k a s'
  | Fault f => Fault f
  end.
Definition get : M S S := λ s, Ok (s, s).
Definition gets {A} (f : S → A) : M S A := λ s, Ok (f s, s).
Definition modify (f : S → S) : M S unit := λ s, Ok (tt, f s).
Definition throw {A} (f : fault) : M S A := λ _, Fault f.

(** A value that must be there: the fault [f] otherwise. *)
Definition require {A} (f : fault) (o : option A) : M S A :=
  match o with
  | Some a => ret a
  | None => throw f
  end.

(** [if (b) { m }] *)
Definition when (b : bool) (m : M S unit) : M S unit := if b then m else ret tt.

(** [for (x : xs) { f(x) }] *)
Fixpoint for_each {A} (f : A → M S unit) (xs : list A) : M S unit :=
  match xs with
  | [] => ret tt
  | x :: xs' => bind (f x) (λ _, for_each f xs')
  end.
End monad.

Declare Scope comp_scope.
Delimit Scope comp_scope with comp.
#[global] Open Scope comp_scope.
Notation "'let!' x := m 'in' k" := (bind m (λ x, k))
  (at level 10, x binder, m at level 200, k at level 200,
   format "'[v' 'let!'  x  :=  m  'in' '/' k ']'") : comp_scope.
Notation "m ;;; k" := (bind m (λ _, k))
  (at level 100, k at level 200, right associativity,
   format "'[v' m ;;; '/' k ']'") : comp_scope.

(** * Weakest preconditions

    [wp m Q s]: run from [s], [m] returns without a fault and its value and
    final state satisfy [Q]. *)

Definition wp {S A} (m : M S A) (Q : A → S → Prop) (s : S) : Prop :=
  match m s with
  | Ok (a, s') => Q a s'
  | Fault _ => False
  end.

Section wp.
Context {S : Type}.

Lemma wp_ret {A} (a : A) Q (s : S) : wp (ret a) Q s ↔ Q a s.
Proof. done. Qed.

Lemma wp_bind {A B} (m : M S A) (k : A → M S B) Q s :
  wp (bind m k) Q s ↔ wp m (λ a, wp (k a) Q) s.
Proof. unfold wp, bind. by destruct (m s) as [[a s']|]. Qed.

Lemma wp_get Q (s : S) : wp get Q s ↔ Q s s.
Proof. done. Qed.

Lemma wp_gets {A} (f : S → A) Q (s : S) : wp (gets f) Q s ↔ Q (f s) s.
Proof. done. Qed.

Lemma wp_modify f Q (s : S) : wp (modify f) Q s ↔ Q tt (f s).
Proof. done. Qed.

Lemma wp_require {A} f (o : option A) Q (s : S) :
  wp (require f o) Q s ↔ ∃ a, o = Some a ∧ Q a s.
Proof.
  destruct o as [a|]; unfold wp; simpl; split; [by eauto| |done|].
  - by intros (a' & [= <-] & HQ).
  - by intros (a' & ? & _).
Qed.

Lemma wp_when b (m : M S unit) Q s :
  wp (when b m) Q s ↔ if b then wp m Q s else Q tt s.
Proof. by destruct b. Qed.

Lemma wp_mono {A} (m : M S A) (Q Q' : A → S → Prop) s :
  wp m Q s → (∀ a s', Q a s' → Q' a s') → wp m Q' s.
Proof. unfold wp. destruct (m s) as [[a s']|]; auto. Qed.

Lemma wp_and {A} (m : M S A) (Q Q' : A → S → Prop) s :
  wp m Q s → wp m Q' s → wp m (λ a s', Q a s' ∧ Q' a s') s.
Proof. unfold wp. destruct (m s) as [[a s']|]; auto. Qed.

Lemma wp_and_if {A} (P : Prop) (m : M S A) (Q Q' : A → S → Prop) s :
  wp m Q s → (P → wp m Q' s) → wp m (λ a s', Q a s' ∧ (P → Q' a s')) s.
Proof. unfold wp. destruct (m s) as [[a s']|]; auto. Qed.

Lemma wp_result {A} (m : M S A) Q s a s' : wp m Q s → m s = Ok (a, s') → Q a s'.
Proof. unfold wp. intros H Hm. by rewrite Hm in H. Qed.

Lemma wp_ok {A} (m : M S A) Q s : wp m Q s → ∃ a s', m s = Ok (a, s') ∧ Q a s'.
Proof. unfold wp. destruct (m s) as [[a s']|]; naive_solver. Qed.

(** A loop over a list keeps what its body keeps. *)
Lemma wp_for_each {A} (I : S → Prop) (f : A → M S unit) (xs : list A) s :
  I s → (∀ x s', x ∈ xs → I s' → wp (f x) (λ _, I) s') → wp (for_each f xs) (λ _, I) s.
Proof.
  revert s. induction xs as [|x xs IH]; intros s Hs Hf; simpl; [done|].
  apply wp_bind. eapply wp_mono; [apply Hf; [apply list_elem_of_here|done]|].
  intros [] s' Hs'. apply IH; [done|]. intros y s'' Hy. apply Hf. by apply list_elem_of_further.
Qed.

#[export] Instance wp_proper {A} (m : M S A) :
  Proper (pointwise_relation A (pointwise_relation S impl) ==> pointwise_relation S impl)
    (wp m).
Proof. intros Q Q' HQ s H. eapply wp_mono; [exact H|]. intros; by apply HQ. Qed.
End wp.

(** * Partial correctness

    [wlp m Q s]: if [m] returns without a fault from [s], its value and final
    state satisfy [Q].  Together with a [wp] it gives a [wp] ([wp_wlp]), so what
    an operation does is stated apart from why it does not fault. *)

Definition wlp {S A} (m : M S A) (Q : A → S → Prop) (s : S) : Prop :=
  match m s with
  | Ok (a, s') => Q a s'
  | Fault _ => True
  end.

Section wlp.
Context {S : Type}.

Lemma wlp_bind {A B} (m : M S A) (k : A → M S B) Q s :
  wlp (bind m k) Q s ↔ wlp m (λ a, wlp (k a) Q) s.
Proof. unfold wlp, bind. by destruct (m s) as [[a s']|]. Qed.

Lemma wlp_ret {A} (a : A) Q (s : S) : wlp (ret a) Q s ↔ Q a s.
Proof. done. Qed.

Lemma wlp_gets {A} (f : S → A) Q (s : S) : wlp (gets f) Q s ↔ Q (f s) s.
Proof. done. Qed.

Lemma wlp_modify f Q (s : S) : wlp (modify f) Q s ↔ Q tt (f s).
Proof. done. Qed.

Lemma wlp_mono {A} (m : M S A) (Q Q' : A → S → Prop) s :
  wlp m Q s → (∀ a s', Q a s' → Q' a s') → wlp m Q' s.
Proof. unfold wlp. destruct (m s) as [[a s']|]; auto. Qed.

Lemma wp_wlp {A} (m : M S A) (Q Q' : A → S → Prop) s :
  wp m Q s → wlp m Q' s → wp m (λ a s', Q a s' ∧ Q' a s') s.
Proof. unfold wp, wlp. destruct (m s) as [[a s']|]; auto. Qed.

Lemma wlp_for_each {A} (I : S → Prop) (f : A → M S unit) (xs : list A) s :
  I s → (∀ x s', x ∈ xs → I s' → wlp (f x) (λ _, I) s') → wlp (for_each f xs) (λ _, I) s.
Proof.
  revert s. induction xs as [|x xs IH]; intros s Hs Hf; simpl; [done|].
  apply wlp_bind. eapply wlp_mono; [apply Hf; [apply list_elem_of_here|done]|].
  intros [] s' Hs'. apply IH; [done|]. intros y s'' Hy. apply Hf. by apply list_elem_of_further.
Qed.
End wlp.

(** ** Computations that keep a predicate

    [moves P m Q]: whenever [m] returns from a state in [P], it does so in one in
    [Q].  [keep] proves [moves P m P] for a computation whose parts are known to
    the database [keeps] to keep [P]; a component adds a step for the changes of
    its own state. *)

Definition moves {S A} (P : S → Prop) (m : M S A) (Q : S → Prop) : Prop :=
  ∀ s, P s → wlp m (λ _, Q) s.

Section moves.
Context {S : Type}.
Implicit Types P Q R : S → Prop.

Lemma moves_bind {A B} P R Q (m : M S A) (k : A → M S B) :
  moves P m R → (∀ a, moves R (k a) Q) → moves P (bind m k) Q.
Proof.
  intros Hm Hk s Hs. apply wlp_bind. eapply wlp_mono; [by apply Hm|]. intros a s' Hs'. by apply Hk.
Qed.

Lemma moves_weaken {A} P P' Q Q' (m : M S A) :
  moves P m Q → (∀ s, P' s → P s) → (∀ s, Q s → Q' s) → moves P' m Q'.
Proof. intros Hm HP HQ s Hs. eapply wlp_mono; [by apply Hm, HP|]. intros a s' Hs'. by apply HQ. Qed.

Lemma moves_ret {A} P (a : A) : moves P (ret a) P.
Proof. by intros s Hs. Qed.

Lemma moves_throw {A} P Q f : moves P (throw f : M S A) Q.
Proof. intros s Hs. exact I. Qed.

Lemma moves_gets {A} P (f : S → A) : moves P (gets f) P.
Proof. by intros s Hs. Qed.

Lemma moves_require {A} P f (o : option A) : moves P (require f o) P.
Proof. destruct o; [apply moves_ret|apply moves_throw]. Qed.

Lemma moves_modify P Q f : (∀ s, P s → Q (f s)) → moves P (modify f) Q.
Proof. intros Hf s Hs. by apply wlp_modify, Hf. Qed.

Lemma moves_for_each {A} P (f : A → M S unit) xs :
  (∀ x, x ∈ xs → moves P (f x) P) → moves P (for_each f xs) P.
Proof. intros Hf s Hs. apply wlp_for_each; [done|]. intros x s' Hx. by apply Hf. Qed.

Lemma moves_when P b (m : M S unit) : moves P m P → moves P (when b m) P.
Proof. intros Hm. destruct b; [done|apply moves_ret]. Qed.
End moves.

Create HintDb keeps.
#[export] Hint Resolve moves_ret moves_throw moves_gets moves_require : keeps.

(** A known computation, a sequence, or a choice. *)
Ltac keep_step :=
  match goal with
  | |- moves _ _ _ => solve [eauto 2 with keeps typeclass_instances]
  | |- moves ?P (bind _ _) ?P => apply (moves_bind P P P); [|intros ?]
  | |- moves _ (when _ _) _ => apply moves_when
  | |- moves _ (match ?x with _ => _ end) _ => destruct x
  end.

(** Computations that agree on every state are equivalent; [bind] respects it,
    and the monad laws hold up to it. *)
#[export] Instance M_equiv S A : Equiv (M S A) := λ m m', ∀ s, m s = m' s.

#[export] Instance M_equivalence S A : Equivalence (≡@{M S A}).
Proof.
  split.
  - by intros m s.
  - intros m m' H s. by rewrite (H s).
  - intros m1 m2 m3 H H' s. by rewrite (H s), (H' s).
Qed.

#[export] Instance bind_proper S A B :
  Proper ((≡@{M S A}) ==> pointwise_relation A (≡@{M S B}) ==> (≡)) bind.
Proof.
  intros m m' Hm k k' Hk s. unfold bind. rewrite (Hm s).
  destruct (m' s) as [[a s']|]; [apply Hk|done].
Qed.

#[export] Instance wp_equiv_proper S A :
  Proper ((≡@{M S A}) ==> eq ==> eq ==> iff) wp.
Proof. intros m m' Hm Q ? <- s ? <-. unfold wp. by rewrite (Hm s). Qed.

Lemma bind_ret_l {S A B} (a : A) (k : A → M S B) : bind (ret a) k ≡ k a.
Proof. done. Qed.

Lemma bind_ret_r {S A} (m : M S A) : bind m ret ≡ m.
Proof. intros s. unfold bind. by destruct (m s) as [[]|]. Qed.

Lemma bind_assoc {S A B C} (m : M S A) (k : A → M S B) (h : B → M S C) :
  bind (bind m k) h ≡ bind m (λ a, bind (k a) h).
Proof. intros s. unfold bind. by destruct (m s) as [[]|]. Qed.

(** * Runs

    A component's world is driven by actions; [run step acts] performs them in
    order.  An invariant indexed by the number of actions performed (so that it
    can say that a 64-bit counter has not wrapped) holds after every run. *)

Section run.
Context {W A : Type} (step : A → M W unit).

Definition run (acts : list A) : M W unit := for_each step acts.

Lemma run_app acts acts' : run (acts ++ acts') ≡ (run acts ;;; run acts').
Proof.
  unfold run. induction acts as [|a acts IH]; intros s; simpl; [done|].
  unfold bind at 1 2 3. destruct (step a s) as [[[] s']|]; [|done]. apply IH.
Qed.

Lemma run_invariant_on (P : A → Prop) (I : nat → W → Prop) (bound : nat) n acts s :
  (∀ n s a, (n < bound)%nat → P a → I n s → wp (step a) (λ _, I (S n)) s) →
  Forall P acts → I n s → (n + length acts ≤ bound)%nat →
  wp (run acts) (λ _, I (n + length acts)%nat) s.
Proof.
  intros Hstep Hacts. revert n s. induction Hacts as [|a acts Ha _ IH]; intros n s Hs Hlen; simpl in *.
  - unfold run, wp; simpl. by rewrite Nat.add_0_r.
  - unfold run; simpl. apply wp_bind. eapply wp_mono; [apply (Hstep n); [lia|done..]|].
    intros [] s' Hs'. replace (n + S (length acts))%nat
      with (S n + length acts)%nat by lia.
    apply IH; [done|lia].
Qed.

Lemma run_invariant (I : nat → W → Prop) (bound : nat) n acts s :
  (∀ n s a, (n < bound)%nat → I n s → wp (step a) (λ _, I (S n)) s) →
  I n s → (n + length acts ≤ bound)%nat →
  wp (run acts) (λ _, I (n + length acts)%nat) s.
Proof. intros Hstep. apply (run_invariant_on (λ _, True)); [auto|by apply Forall_true]. Qed.
End run.

(** * Error codes

    [std::error_code] is a value and a category; a code with value 0 is no
    error.  [std::make_error_code(std::errc::e)] is the POSIX number of [e] in
    the generic category. *)

Inductive errc :=
  | operation_not_permitted
  | io_error
  | resource_unavailable_try_again
  | invalid_argument
  | message_size
  | no_buffer_space
  | already_connected
  | not_connected
  | timed_out
  | connection_refused
  | host_unreachable
  | operation_in_progress
  | operation_canceled.

Definition errc_value (e : errc) : Z :=
  match e with
  | operation_not_permitted => 1
  | io_error => 5
  | resource_unavailable_try_again => 11
  | invalid_argument => 22
  | message_size => 90
  | no_buffer_space => 105
  | already_connected => 106
  | not_connected => 107
  | timed_out => 110
  | connection_refused => 111
  | host_unreachable => 113
  | operation_in_progress => 115
  | operation_canceled => 125
  end.

Inductive category :=
  | generic_category
  | system_category
  | ssl_category
  | other_category (n : Z).

Record error_code := ErrorCode { ec_value : Z; ec_category : category }.

#[export] Instance category_eq_dec : EqDecision category.
Proof. solve_decision. Defined.
#[export] Instance error_code_eq_dec : EqDecision error_code.
Proof. solve_decision. Defined.

Definition no_error : error_code := ErrorCode 0 system_category.
Definition make_error_code (e : errc) : error_code := ErrorCode (errc_value e) generic_category.

(** [if (ec)] *)
Definition is_error (ec : error_code) : bool := negb (ec_value ec =? 0).

Lemma is_error_make e : is_error (make_error_code e) = true.
Proof. by destruct e. Qed.

(** * Lists *)

(** Occurrences of the elements that satisfy [P]. *)
Definition count {A} (P : A → bool) (l : list A) : nat := length (filter (λ x, P x = true) l).

Section count.
Context {A : Type} (P : A → bool).

Lemma count_nil : count P [] = 0%nat.
Proof. done. Qed.

Lemma count_cons x l : count P (x :: l) = ((if P x then 1 else 0) + count P l)%nat.
Proof. unfold count. rewrite filter_cons. by destruct (P x). Qed.

Lemma count_app l1 l2 : count P (l1 ++ l2) = (count P l1 + count P l2)%nat.
Proof. unfold count. by rewrite filter_app, length_app. Qed.

Lemma count_delete l i x : l !! i = Some x →
  count P l = ((if P x then 1 else 0) + count P (delete i l))%nat.
Proof.
  intros Hi. rewrite <- (take_drop_middle l i x Hi) at 1.
  rewrite delete_take_drop, !count_app, count_cons. lia.
Qed.

Lemma count_insert l i x y : l !! i = Some x →
  (count P (<[i := y]> l) + (if P x then 1 else 0) = count P l + (if P y then 1 else 0))%nat.
Proof.
  intros Hi. pose proof (lookup_lt_Some _ _ _ Hi).
  rewrite <- (take_drop_middle l i x Hi) at 2.
  rewrite insert_take_drop by done. rewrite !count_app, !count_cons. lia.
Qed.

Lemma count_length l : (count P l ≤ length l)%nat.
Proof. induction l as [|x l IH]; [done|]. rewrite count_cons. simpl. destruct (P x); lia. Qed.

Lemma count_zero l : (∀ x, x ∈ l → P x = false) → count P l = 0%nat.
Proof.
  induction l as [|x l IH]; intros H; [done|]. rewrite count_cons, IH.
  - by rewrite (H x) by apply list_elem_of_here.
  - intros y Hy. apply H. by apply list_elem_of_further.
Qed.
Lemma count_ext (Q : A → bool) l : (∀ x, P x = Q x) → count P l = count Q l.
Proof. intros H. induction l as [|x l IH]; [done|]. unfold count in *. rewrite !filter_cons, (H x). destruct (Q x); simpl; congruence. Qed.
End count.

Lemma elem_of_delete {A} (x : A) (i : nat) (l : list A) : x ∈ delete i l → x ∈ l.
Proof. intros H. eapply elem_of_submseteq; [done|]. apply sublist_submseteq, sublist_delete. Qed.

(** * Automation *)

Create HintDb model.
Create Rewrite HintDb wpdb.
Create Rewrite HintDb model_rw.
#[export] Hint Rewrite @wp_ret @wp_bind @wp_get @wp_gets @wp_modify @wp_when : wpdb.
#[export] Hint Rewrite @count_nil @count_cons @count_app : model_rw.

(** Step through a computation under [wp]. *)
Ltac wp_simpl := autorewrite with wpdb; simpl.

(** Case analysis on the conditions of the goal, innermost first, simplifying
    after each. *)
Ltac split_ifs :=
  repeat (match goal with
    | |- context [match ?b with true => _ | false => _ end] =>
        lazymatch b with context [match _ with _ => _ end] => fail | _ => idtac end;
        destruct b eqn:?
    end; simpl).
