(* ===== verification/RingBuffer.v ===== *)
(** The bounded queue of [cpp_components/fixed_ring_buffer/fixed_ring_buffer.h].

    [FixedRingBuffer] is the class template over an element type [T]; the
    template parameter [capacity] is a section variable with the template's
    [requires] clause as a hypothesis.  An [assert] that fails is [None], so a
    theorem that an operation returns [Some] also says its assertion holds.
    A reference to an element ([get_back_slot], [get_front]) is read by the
    [get_] operation and written through by the matching [set_] operation.
    [FifoQueue] is what the ring promises to its clients. *)

From S2P Require Import Prelude.

(** * What a bounded queue of reusable slots promises

    [contents] is the queued elements, oldest first; [is_valid] the invariant
    of the implementation. *)

Class FifoQueue (T Q : Type) := {
  fq_capacity : Z;
  fq_empty : Q;
  fq_is_empty : Q → bool;
  fq_is_full : Q → bool;
  fq_get_back_slot : Q → option T;
  fq_set_back_slot : T → Q → Q;
  fq_push_back : Q → option Q;
  fq_get_front : Q → option T;
  fq_set_front : T → Q → Q;
  fq_pop_front : Q → option Q;
  fq_contents : Q → list T;
  fq_valid : Q → Prop;
}.

Class FifoQueueLaws (T Q : Type) `{FifoQueue T Q} := {
  fq_valid_empty : fq_valid fq_empty;
  fq_contents_empty : fq_contents fq_empty = [];
  fq_is_empty_spec q : fq_valid q → fq_is_empty q = true ↔ fq_contents q = [];
  fq_is_full_spec q :
    fq_valid q → fq_is_full q = true ↔ Z.of_nat (length (fq_contents q)) = fq_capacity;
  fq_bounded q : fq_valid q → Z.of_nat (length (fq_contents q)) ≤ fq_capacity;
  fq_back_slot q : fq_valid q → fq_is_full q = false → is_Some (fq_get_back_slot q);
  fq_push q t : fq_valid q → fq_is_full q = false →
    ∃ q', fq_push_back (fq_set_back_slot t q) = Some q' ∧ fq_valid q' ∧
          fq_contents q' = fq_contents q ++ [t];
  fq_front q t l : fq_valid q → fq_contents q = t :: l → fq_get_front q = Some t;
  fq_write_front q t t' l : fq_valid q → fq_contents q = t :: l →
    fq_valid (fq_set_front t' q) ∧ fq_contents (fq_set_front t' q) = t' :: l;
  fq_pop q t l : fq_valid q → fq_contents q = t :: l →
    ∃ q', fq_pop_front q = Some q' ∧ fq_valid q' ∧ fq_contents q' = l;
}.

(** The slots that the queue owns, queued or free: [fq_all P q] is that they all
    satisfy [P].  A slot is written only by the client, and a queue starts with
    the slots [fq_blank]. *)
Class FifoQueueSlots (T Q : Type) `{FifoQueue T Q} := {
  fq_blank : T;
  fq_all : (T → Prop) → Q → Prop;
  fq_all_empty P : P fq_blank → fq_all P fq_empty;
  fq_all_get_back P q t : fq_all P q → fq_get_back_slot q = Some t → P t;
  fq_all_set_back P q t : fq_all P q → P t → fq_all P (fq_set_back_slot t q);
  fq_all_push P q q' : fq_all P q → fq_push_back q = Some q' → fq_all P q';
  fq_all_get_front P q t : fq_all P q → fq_get_front q = Some t → P t;
  fq_all_set_front P q t : fq_all P q → P t → fq_all P (fq_set_front t q);
  fq_all_pop P q q' : fq_all P q → fq_pop_front q = Some q' → fq_all P q';
}.

(** * The ring *)

(** [std::has_single_bit] on a [size_t]. *)
Definition has_single_bit (n : Z) : bool := (0 <? n) && (Z.land n (n - 1) =? 0).

(** The template's [requires] clause, for a capacity that fits a [size_t]. *)
Class RingCapacity (capacity : Z) : Prop := {
  rc_single_bit : has_single_bit capacity = true;
  rc_fits : capacity < two64;
}.

Record FixedRingBuffer (T : Type) := Ring {
  buffer : list T;
  head : Z;   (* oldest element index *)
  tail : Z;   (* next free element index *)
}.
Arguments Ring {T} buffer head tail.
Arguments buffer {T} _.
Arguments head {T} _.
Arguments tail {T} _.

#[export] Instance ring_settable T : Settable (FixedRingBuffer T) :=
  λ r, Ring (buffer r) (head r) (tail r).

Section ring.
Context {T : Type} (capacity : Z).

Definition get_capacity : Z := capacity.

Definition get_index (pos : Z) : nat := Z.to_nat (Z.land pos (capacity - 1)).

(** [buffer {}]: every element is value-initialised to [d]. *)
Definition ring_init (d : T) : FixedRingBuffer T := Ring (replicate (Z.to_nat capacity) d) 0 0.

Definition get_size (r : FixedRingBuffer T) : Z := u64 (tail r - head r).

Definition is_empty (r : FixedRingBuffer T) : bool := head r =? tail r.

Definition is_full (r : FixedRingBuffer T) : bool := get_size r =? capacity.

Definition get_back_slot (r : FixedRingBuffer T) : option T :=
  if is_full r then None else buffer r !! get_index (tail r).

Definition set_back_slot (t : T) (r : FixedRingBuffer T) : FixedRingBuffer T :=
  r <| buffer ::= <[get_index (tail r) := t]> |>.

(** [push_back()]: queue the element already filled in place. *)
Definition push_back (r : FixedRingBuffer T) : option (FixedRingBuffer T) :=
  if is_full r then None else Some (r <| tail ::= u64_succ |>).

(** [push_back(const T &)] and [push_back(T &&)]. *)
Definition push_back_value (t : T) (r : FixedRingBuffer T) : option (FixedRingBuffer T) :=
  if is_full r then None
  else Some (r <| buffer ::= <[get_index (tail r) := t]> |> <| tail ::= u64_succ |>).

Definition get_front (r : FixedRingBuffer T) : option T :=
  if is_empty r then None else buffer r !! get_index (head r).

Definition set_front (t : T) (r : FixedRingBuffer T) : FixedRingBuffer T :=
  r <| buffer ::= <[get_index (head r) := t]> |>.

Definition pop_front (r : FixedRingBuffer T) : option (FixedRingBuffer T) :=
  if is_empty r then None else Some (r <| head ::= u64_succ |>).
End ring.

(** * The abstract queue

    The queued elements, oldest first: what remains of the program's sequence
    of pushes after its pops.  Positions are natural 64-bit counters that wrap,
    so the mapping goes through a rotation of the buffer. *)

Section contents.
Context {T : Type} (capacity : Z).

Definition contents (r : FixedRingBuffer T) : list T :=
  take (Z.to_nat (get_size r)) (rotate (get_index capacity (head r)) (buffer r)).

Record ring_wf (r : FixedRingBuffer T) : Prop := {
  wf_length : Z.of_nat (length (buffer r)) = capacity;
  wf_head : 0 ≤ head r < two64;
  wf_tail : 0 ≤ tail r < two64;
  wf_size : get_size r ≤ capacity;
}.

(** The buffer cell of the [i]-th queued element. *)
Definition cell (r : FixedRingBuffer T) (i : nat) : nat :=
  get_index capacity (u64 (head r + Z.of_nat i)).
End contents.

(** * Programs over the queue *)

Inductive ring_op (T : Type) :=
  | Op_push_back (t : T)
  | Op_fill_back_slot (t : T)
  | Op_pop_front
  | Op_get_front
  | Op_get_size
  | Op_is_empty
  | Op_is_full.
Arguments Op_push_back {T} t.
Arguments Op_fill_back_slot {T} t.
Arguments Op_pop_front {T}.
Arguments Op_get_front {T}.
Arguments Op_get_size {T}.
Arguments Op_is_empty {T}.
Arguments Op_is_full {T}.

Inductive ring_obs (T : Type) :=
  | Obs_unit
  | Obs_value (t : T)
  | Obs_size (n : Z)
  | Obs_bool (b : bool).
Arguments Obs_unit {T}.
Arguments Obs_value {T} t.
Arguments Obs_size {T} n.
Arguments Obs_bool {T} b.

Section programs.
Context {T : Type} (capacity : Z).

(** One operation of the ring; [None] is a failed assertion. *)
Definition ring_step (o : ring_op T) (r : FixedRingBuffer T)
    : option (ring_obs T * FixedRingBuffer T) :=
  match o with
  | Op_push_back t => r' ← push_back_value capacity t r; Some (Obs_unit, r')
  | Op_fill_back_slot t =>
      _ ← get_back_slot capacity r;
      r' ← push_back capacity (set_back_slot capacity t r);
      Some (Obs_unit, r')
  | Op_pop_front => r' ← pop_front r; Some (Obs_unit, r')
  | Op_get_front => t ← get_front capacity r; Some (Obs_value t, r)
  | Op_get_size => Some (Obs_size (get_size r), r)
  | Op_is_empty => Some (Obs_bool (is_empty r), r)
  | Op_is_full => Some (Obs_bool (is_full capacity r), r)
  end.

(** The same operation of a list that holds at most [capacity] elements. *)
Definition fifo_step (o : ring_op T) (q : list T) : option (ring_obs T * list T) :=
  let full := Z.of_nat (length q) =? capacity in
  match o with
  | Op_push_back t | Op_fill_back_slot t =>
      if full then None else Some (Obs_unit, q ++ [t])
  | Op_pop_front => match q with [] => None | _ :: q' => Some (Obs_unit, q') end
  | Op_get_front => match q with [] => None | t :: _ => Some (Obs_value t, q) end
  | Op_get_size => Some (Obs_size (Z.of_nat (length q)), q)
  | Op_is_empty => Some (Obs_bool (match q with [] => true | _ => false end), q)
  | Op_is_full => Some (Obs_bool full, q)
  end.

(** A whole program: its observations and the final state. *)
Fixpoint run_ops {S} (step : ring_op T → S → option (ring_obs T * S))
    (os : list (ring_op T)) (s : S) : option (list (ring_obs T) * S) :=
  match os with
  | [] => Some ([], s)
  | o :: os' =>
      '(b, s') ← step o s;
      '(bs, s'') ← run_ops step os' s';
      Some (b :: bs, s'')
  end.

(** The number of pops in a program. *)
Definition pops (os : list (ring_op T)) : nat :=
  count (λ o, match o with Op_pop_front => true | _ => false end) os.
End programs.

(** * The textbook ring

    The same buffer with positions that only grow and are reduced modulo the
    capacity by a division; [plain_wrapped] is the ring that keeps 64 bits of
    each position. *)

Record PlainRing (T : Type) := Plain { plain_buffer : list T; plain_head : Z; plain_tail : Z }.
Arguments Plain {T} plain_buffer plain_head plain_tail.
Arguments plain_buffer {T} _.
Arguments plain_head {T} _.
Arguments plain_tail {T} _.

Section plain.
Context {T : Type} (capacity : Z).

Definition plain_size (p : PlainRing T) : Z := plain_tail p - plain_head p.
Definition plain_index (pos : Z) : nat := Z.to_nat (pos mod capacity).

Definition plain_push (t : T) (p : PlainRing T) : PlainRing T :=
  Plain (<[plain_index (plain_tail p) := t]> (plain_buffer p)) (plain_head p) (plain_tail p + 1).

Definition plain_step (o : ring_op T) (p : PlainRing T) : option (ring_obs T * PlainRing T) :=
  let full := plain_size p =? capacity in
  let empty := plain_size p =? 0 in
  match o with
  | Op_push_back t => if full then None else Some (Obs_unit, plain_push t p)
  | Op_fill_back_slot t =>
      if full then None else
      _ ← plain_buffer p !! plain_index (plain_tail p); Some (Obs_unit, plain_push t p)
  | Op_pop_front =>
      if empty then None
      else Some (Obs_unit, Plain (plain_buffer p) (plain_head p + 1) (plain_tail p))
  | Op_get_front =>
      if empty then None else
      t ← plain_buffer p !! plain_index (plain_head p); Some (Obs_value t, p)
  | Op_get_size => Some (Obs_size (plain_size p), p)
  | Op_is_empty => Some (Obs_bool empty, p)
  | Op_is_full => Some (Obs_bool full, p)
  end.

Definition plain_wrapped (p : PlainRing T) : FixedRingBuffer T :=
  Ring (plain_buffer p) (u64 (plain_head p)) (u64 (plain_tail p)).

Definition plain_ok (p : PlainRing T) : Prop := 0 ≤ plain_size p ≤ capacity.
End plain.

(** * Arithmetic of the positions *)

Lemma has_single_bit_pow2 n : has_single_bit n = true → ∃ k, 0 ≤ k ∧ n = 2 ^ k.
Proof.
  unfold has_single_bit. intros [Hn Hland]%andb_true_iff.
  apply Z.ltb_lt in Hn. apply Z.eqb_eq in Hland.
  exists (Z.log2 n). split; [apply Z.log2_nonneg|].
  destruct (Z.log2_spec n Hn) as [Hlo Hhi].
  destruct (decide (n = 2 ^ Z.log2 n)) as [|Hne]; [done|exfalso].
  assert (Hb : Z.testbit (Z.land n (n - 1)) (Z.log2 n) = true).
  { rewrite Z.land_spec, Z.bit_log2 by lia. simpl.
    assert (Hone : n ≠ 1) by (intros ->; by apply Hne).
    replace (Z.log2 n) with (Z.log2 (n - 1)); [apply Z.bit_log2; lia|].
    apply Z.log2_unique; [apply Z.log2_nonneg|]. lia. }
  by rewrite Hland, Z.bits_0 in Hb.
Qed.

Section index.
Context (capacity : Z) `{!RingCapacity capacity}.

Lemma capacity_pos : 0 < capacity.
Proof. destruct RingCapacity0 as [Hcap _]. by apply andb_true_iff in Hcap as [?%Z.ltb_lt _]. Qed.

Lemma two64_multiple : ∃ m, 0 < m ∧ two64 = m * capacity.
Proof.
  pose proof rc_fits as Hmax. destruct (has_single_bit_pow2 capacity rc_single_bit) as (k & Hk & E).
  rewrite E in *. clear E. unfold two64 in *.
  assert (k < 64) by (apply (Z.pow_lt_mono_r_iff 2); lia).
  exists (2 ^ (64 - k)). rewrite <- Z.pow_add_r by lia.
  split; [lia|]. f_equal. lia.
Qed.

Lemma get_index_mod p : get_index capacity p = Z.to_nat (p mod capacity).
Proof.
  destruct (has_single_bit_pow2 capacity rc_single_bit) as (k & Hk & ->).
  unfold get_index. rewrite <- Z.land_ones by done. by rewrite Z.ones_equiv, <- Z.sub_1_r.
Qed.

Lemma u64_mod_capacity z : u64 z mod capacity = z mod capacity.
Proof.
  destruct two64_multiple as (m & Hm & E). pose proof capacity_pos.
  unfold u64. rewrite E, Z.mul_comm.
  rewrite Z.rem_mul_r by lia.
  rewrite Z.mul_comm, Z.mod_add by lia. by rewrite Z.mod_mod by lia.
Qed.

Lemma get_index_lt p : (get_index capacity p < Z.to_nat capacity)%nat.
Proof.
  rewrite get_index_mod. pose proof capacity_pos.
  pose proof (Z.mod_pos_bound p capacity). lia.
Qed.

Lemma mod_inj_window p i j :
  0 ≤ i < capacity → 0 ≤ j < capacity → (p + i) mod capacity = (p + j) mod capacity → i = j.
Proof.
  intros Hi Hj E. pose proof capacity_pos.
  assert (E' : ((p + i) - (p + j)) mod capacity = 0) by (rewrite Zminus_mod, E, Z.sub_diag; done).
  apply Z.mod_divide in E' as [q E']; [|lia].
  destruct (Z.lt_trichotomy q 0) as [?|[->|?]]; nia.
Qed.
End index.

(** * The ring implements the bounded queue *)

Section ring_laws.
Context {T : Type} (capacity : Z) `{!RingCapacity capacity}.
Implicit Types r : FixedRingBuffer T.

Lemma get_size_bounds r : 0 ≤ get_size r < two64.
Proof. unfold get_size, u64. by apply Z.mod_pos_bound. Qed.

Lemma contents_length r : ring_wf capacity r →
  Z.of_nat (length (contents capacity r)) = get_size r.
Proof.
  intros [Hlen _ _ Hsize]. unfold contents.
  rewrite length_take, length_rotate. pose proof (get_size_bounds r). lia.
Qed.

(** The [i]-th queued element is in its cell. *)
Lemma contents_lookup r i : ring_wf capacity r → Z.of_nat i < get_size r →
  contents capacity r !! i = buffer r !! cell capacity r i.
Proof.
  intros [Hlen Hh Ht Hsize] Hi. pose proof (capacity_pos capacity) as Hpos.
  unfold contents. rewrite lookup_take_lt by lia.
  rewrite lookup_rotate_r by lia. f_equal. unfold cell, rotate_nat_add.
  rewrite !get_index_mod, u64_mod_capacity, Hlen by done.
  rewrite Z2Nat.id by (apply Z.mod_pos_bound; lia). by rewrite Zplus_mod_idemp_l.
Qed.

Lemma cell_lt r i : ring_wf capacity r → (cell capacity r i < length (buffer r))%nat.
Proof. intros [Hlen _ _ _]. pose proof (get_index_lt capacity (u64 (head r + Z.of_nat i))). unfold cell. lia. Qed.

Lemma cell_inj r i j : Z.of_nat i < capacity → Z.of_nat j < capacity →
  cell capacity r i = cell capacity r j → i = j.
Proof.
  intros Hi Hj. pose proof (capacity_pos capacity). unfold cell.
  rewrite !get_index_mod, !u64_mod_capacity by done. intros E%Z2Nat.inj.
  - apply mod_inj_window in E; [lia|done..|lia|lia].
  - by apply Z.mod_pos_bound.
  - by apply Z.mod_pos_bound.
Qed.

Lemma tail_position r : ring_wf capacity r → tail r = u64 (head r + get_size r).
Proof.
  intros [_ Hh Ht _]. unfold get_size, u64.
  rewrite Zplus_mod_idemp_r, Z.mod_small; lia.
Qed.

Lemma back_cell r : ring_wf capacity r →
  get_index capacity (tail r) = cell capacity r (Z.to_nat (get_size r)).
Proof.
  intros Hwf. unfold cell. pose proof (get_size_bounds r).
  by rewrite Z2Nat.id, <- tail_position by (done || lia).
Qed.

Lemma front_cell r : ring_wf capacity r → get_index capacity (head r) = cell capacity r 0.
Proof.
  intros [_ Hh _ _]. unfold cell. rewrite Z.add_0_r. unfold u64. by rewrite Z.mod_small.
Qed.

Lemma is_empty_size r : ring_wf capacity r → is_empty r = (get_size r =? 0).
Proof.
  intros [_ Hh Ht _]. unfold is_empty, get_size, u64.
  destruct (Z.eqb_spec (head r) (tail r)) as [->|Hne].
  - by rewrite Z.sub_diag.
  - symmetry. apply Z.eqb_neq. intros E. apply Hne.
    apply Z.mod_divide in E as [q E]; [|done]. unfold two64 in *.
    assert (q = 0) as -> by lia. lia.
Qed.

(** Sizes after [++tail] and [++head]. *)
Lemma size_push r : ring_wf capacity r → get_size r < capacity →
  get_size (r <| tail ::= u64_succ |>) = get_size r + 1.
Proof.
  intros _ Hlt. pose proof (get_size_bounds r). pose proof rc_fits. revert Hlt.
  unfold get_size, u64_succ, u64; simpl. rewrite Zminus_mod_idemp_l.
  replace (tail r + 1 - head r) with (tail r - head r + 1) by lia.
  intros Hlt. rewrite <- Zplus_mod_idemp_l, (Z.mod_small (_ + _)); [done|].
  pose proof (Z.mod_pos_bound (tail r - head r) two64). lia.
Qed.

Lemma size_pop r : ring_wf capacity r → 0 < get_size r →
  get_size (r <| head ::= u64_succ |>) = get_size r - 1.
Proof.
  intros _. pose proof (get_size_bounds r). revert H.
  unfold get_size, u64_succ, u64; simpl. rewrite Zminus_mod_idemp_r.
  replace (tail r - (head r + 1)) with (tail r - head r - 1) by lia.
  intros H Hlt. rewrite <- Zminus_mod_idemp_l, (Z.mod_small (_ - _)); lia.
Qed.

Lemma u64_succ_range z : 0 ≤ u64_succ z < two64.
Proof. by apply Z.mod_pos_bound. Qed.

(** Writing any cell keeps the invariant. *)
Lemma wf_write r k t : ring_wf capacity r → ring_wf capacity (r <| buffer ::= <[k := t]> |>).
Proof. intros []. split; simpl; [by rewrite length_insert|done..]. Qed.

Lemma wf_push r : ring_wf capacity r → get_size r < capacity →
  ring_wf capacity (r <| tail ::= u64_succ |>).
Proof.
  intros Hwf Hlt. split; [by apply Hwf|apply Hwf|apply u64_succ_range|].
  rewrite size_push by done. lia.
Qed.

Lemma wf_pop r : ring_wf capacity r → 0 < get_size r →
  ring_wf capacity (r <| head ::= u64_succ |>).
Proof.
  intros Hwf Hlt. split; [by apply Hwf|apply u64_succ_range|apply Hwf|].
  rewrite size_pop by done. destruct Hwf. lia.
Qed.

Lemma cell_pop r i : ring_wf capacity r →
  cell capacity (r <| head ::= u64_succ |>) i = cell capacity r (S i).
Proof.
  intros _. unfold cell; simpl. f_equal. unfold u64_succ, u64.
  rewrite Zplus_mod_idemp_l. f_equal. lia.
Qed.

(** A list with the right elements at the cells is the contents. *)
Lemma contents_intro r l : ring_wf capacity r → Z.of_nat (length l) = get_size r →
  (∀ i, (i < length l)%nat → l !! i = buffer r !! cell capacity r i) → contents capacity r = l.
Proof.
  intros Hwf Hlen Hl. apply list_eq_same_length with (length l); [done|..].
  - apply (inj Z.of_nat). by rewrite contents_length.
  - intros i x y Hi Hx Hy. rewrite contents_lookup in Hx by (done || lia).
    rewrite Hl in Hy by done. congruence.
Qed.

Lemma contents_write_free r t : ring_wf capacity r → get_size r < capacity →
  contents capacity (set_back_slot capacity t r) = contents capacity r.
Proof.
  intros Hwf Hlt. pose proof (get_size_bounds r). unfold set_back_slot.
  pose proof (contents_length r Hwf) as Hlen.
  apply contents_intro; [by apply wf_write|done|].
  intros i Hi. rewrite contents_lookup by (done || lia). simpl.
  rewrite back_cell by done. rewrite list_lookup_insert_ne; [done|].
  intros E. apply (cell_inj r _ i) in E; lia.
Qed.

Lemma contents_push r : ring_wf capacity r → get_size r < capacity →
  ∃ t, buffer r !! get_index capacity (tail r) = Some t ∧
    contents capacity (r <| tail ::= u64_succ |>) = contents capacity r ++ [t].
Proof.
  intros Hwf Hlt. pose proof (get_size_bounds r) as Hb.
  pose proof (contents_length r Hwf) as Hlen.
  rewrite back_cell by done.
  destruct (lookup_lt_is_Some_2 (buffer r) (cell capacity r (Z.to_nat (get_size r))))
    as [t Ht]; [by apply cell_lt|].
  exists t. split; [done|]. apply contents_intro; [by apply wf_push|..].
  - rewrite size_push, length_app by done. simpl. lia.
  - rewrite length_app. simpl. intros i Hi.
    destruct (decide (i = length (contents capacity r))) as [->|Hne].
    + rewrite lookup_app_r, Nat.sub_diag by lia. simpl. rewrite <- Ht. do 2 f_equal. lia.
    + rewrite lookup_app_l, contents_lookup by (done || lia). done.
Qed.

Lemma contents_pop r t l : ring_wf capacity r → contents capacity r = t :: l →
  contents capacity (r <| head ::= u64_succ |>) = l.
Proof.
  intros Hwf Hc. pose proof (contents_length r Hwf) as Hlen. rewrite Hc in Hlen. simpl in Hlen.
  apply contents_intro; [apply wf_pop; [done|lia]|..].
  - rewrite size_pop by (done || lia). lia.
  - intros i Hi. rewrite cell_pop by done. simpl.
    rewrite <- contents_lookup by (done || lia). by rewrite Hc.
Qed.

Lemma contents_write_front r t t' l : ring_wf capacity r → contents capacity r = t :: l →
  contents capacity (set_front capacity t' r) = t' :: l.
Proof.
  intros Hwf Hc. pose proof (contents_length r Hwf) as Hlen. rewrite Hc in Hlen. simpl in Hlen.
  pose proof (wf_size _ _ Hwf). unfold set_front.
  apply contents_intro; [by apply wf_write|done|].
  intros i Hi. simpl in *. rewrite front_cell by done.
  destruct i as [|i].
  - by rewrite list_lookup_insert_eq by by apply cell_lt.
  - rewrite list_lookup_insert_ne by (intros E; apply (cell_inj r 0 (S i)) in E; lia).
    transitivity (contents capacity r !! S i); [by rewrite Hc|].
    by rewrite contents_lookup by (done || lia).
Qed.
End ring_laws.

Section queue.
Context {T : Type} (capacity : Z) `{!RingCapacity capacity}.
Implicit Types r : FixedRingBuffer T.

Lemma wf_init (d : T) : ring_wf capacity (ring_init capacity d).
Proof.
  pose proof (capacity_pos capacity). split; simpl; [rewrite length_replicate; lia|done..|].
  unfold get_size, u64; simpl. rewrite Z.mod_0_l; [lia|done].
Qed.

Lemma contents_init (d : T) : contents capacity (ring_init capacity d) = [].
Proof. unfold contents, get_size. simpl. done. Qed.

Lemma is_empty_contents r : ring_wf capacity r → is_empty r = true ↔ contents capacity r = [].
Proof.
  intros Hwf. rewrite (is_empty_size capacity), Z.eqb_eq by done.
  rewrite <- (contents_length capacity r) by done.
  destruct (contents capacity r); simpl; split; (done || lia).
Qed.

Lemma is_full_contents r : ring_wf capacity r →
  is_full capacity r = (Z.of_nat (length (contents capacity r)) =? capacity).
Proof. intros Hwf. unfold is_full. by rewrite contents_length. Qed.

Lemma not_full_size r : ring_wf capacity r → is_full capacity r = false → get_size r < capacity.
Proof. unfold is_full. intros [_ _ _ ?] ?%Z.eqb_neq. lia. Qed.

Lemma fill_then_push t r :
  push_back capacity (set_back_slot capacity t r) = push_back_value capacity t r.
Proof. done. Qed.

Lemma back_slot_available r : ring_wf capacity r → is_full capacity r = false →
  is_Some (get_back_slot capacity r).
Proof.
  intros Hwf Hfull. unfold get_back_slot. rewrite Hfull, back_cell by done.
  by apply lookup_lt_is_Some_2, cell_lt.
Qed.

Lemma push_back_value_spec t r : ring_wf capacity r → is_full capacity r = false →
  ∃ r', push_back_value capacity t r = Some r' ∧ ring_wf capacity r' ∧
    contents capacity r' = contents capacity r ++ [t].
Proof.
  intros Hwf Hfull. pose proof (not_full_size r Hwf Hfull) as Hlt.
  unfold push_back_value. rewrite Hfull. eexists; split; [done|].
  set (r1 := set_back_slot capacity t r).
  assert (Hwf1 : ring_wf capacity r1) by by apply wf_write.
  change (ring_wf capacity (r1 <| tail ::= u64_succ |>) ∧
    contents capacity (r1 <| tail ::= u64_succ |>) = contents capacity r ++ [t]).
  split; [by apply wf_push|].
  destruct (contents_push capacity r1) as (t' & Ht' & ->); [done..|].
  unfold r1 in Ht' |- *. rewrite contents_write_free by done.
  unfold set_back_slot in Ht'. simpl in Ht'.
  rewrite list_lookup_insert_eq in Ht' by (rewrite back_cell by done; by apply cell_lt).
  congruence.
Qed.

Lemma get_front_spec r t l : ring_wf capacity r → contents capacity r = t :: l →
  get_front capacity r = Some t.
Proof.
  intros Hwf Hc. unfold get_front.
  destruct (is_empty r) eqn:He; [apply is_empty_contents in He; congruence|].
  pose proof (contents_length capacity r Hwf) as Hlen. rewrite Hc in Hlen. simpl in Hlen.
  rewrite front_cell, <- contents_lookup by (done || lia). by rewrite Hc.
Qed.

Lemma pop_front_spec r t l : ring_wf capacity r → contents capacity r = t :: l →
  ∃ r', pop_front r = Some r' ∧ ring_wf capacity r' ∧ contents capacity r' = l.
Proof.
  intros Hwf Hc. unfold pop_front.
  destruct (is_empty r) eqn:He; [apply is_empty_contents in He; congruence|].
  pose proof (contents_length capacity r Hwf) as Hlen. rewrite Hc in Hlen. simpl in Hlen.
  eexists; split; [done|]. split; [apply wf_pop; (done || lia)|by eapply contents_pop].
Qed.
End queue.

(** * The interface, implemented *)

#[export] Instance ring_queue {T} (capacity : Z) (d : T) : FifoQueue T (FixedRingBuffer T) := {|
  fq_capacity := get_capacity capacity;
  fq_empty := ring_init capacity d;
  fq_is_empty := is_empty;
  fq_is_full := is_full capacity;
  fq_get_back_slot := get_back_slot capacity;
  fq_set_back_slot := set_back_slot capacity;
  fq_push_back := push_back capacity;
  fq_get_front := get_front capacity;
  fq_set_front := set_front capacity;
  fq_pop_front := pop_front;
  fq_contents := contents capacity;
  fq_valid := ring_wf capacity;
|}.

#[export] Instance ring_queue_laws {T} (capacity : Z) (d : T) `{!RingCapacity capacity} :
  @FifoQueueLaws T (FixedRingBuffer T) (ring_queue capacity d).
Proof.
  split; simpl.
  - by apply wf_init.
  - apply contents_init.
  - by apply is_empty_contents.
  - intros r Hwf. rewrite is_full_contents by done. apply Z.eqb_eq.
  - intros r Hwf. rewrite contents_length by done. apply Hwf.
  - by apply back_slot_available.
  - intros r t Hwf Hfull. rewrite fill_then_push. by apply push_back_value_spec.
  - by apply get_front_spec.
  - intros r t t' l Hwf Hc. split; [by apply wf_write|by eapply contents_write_front].
  - by apply pop_front_spec.
Qed.

(** The ring owns the elements of its array. *)
#[export] Program Instance ring_queue_slots {T} (capacity : Z) (d : T) :
    @FifoQueueSlots T (FixedRingBuffer T) (ring_queue capacity d) := {|
  fq_blank := d;
  fq_all P r := Forall P (buffer r);
|}.
Next Obligation. intros T capacity d P Hd. by apply Forall_replicate. Qed.
Next Obligation.
  intros T capacity d P r t Hr. simpl. unfold get_back_slot. destruct (is_full _ r); [done|].
  by apply Forall_lookup_1.
Qed.
Next Obligation. intros T capacity d P r t Hr Ht. by apply Forall_insert. Qed.
Next Obligation.
  intros T capacity d P r r' Hr. simpl. unfold push_back. destruct (is_full _ r); [done|].
  by intros [= <-].
Qed.
Next Obligation.
  intros T capacity d P r t Hr. simpl. unfold get_front. destruct (is_empty r); [done|].
  by apply Forall_lookup_1.
Qed.
Next Obligation. intros T capacity d P r t Hr Ht. by apply Forall_insert. Qed.
Next Obligation.
  intros T capacity d P r r' Hr. simpl. unfold pop_front. destruct (is_empty r); [done|].
  by intros [= <-].
Qed.

(** * Programs *)

Section program_lemmas.
Context {T : Type} (capacity : Z) `{!RingCapacity capacity}.
Implicit Types r : FixedRingBuffer T.

(** One operation: the ring and the list refuse together, or agree. *)
Lemma ring_step_refines o r : ring_wf capacity r →
  match ring_step capacity o r, fifo_step capacity o (contents capacity r) with
  | Some (b, r'), Some (b', q') => b = b' ∧ ring_wf capacity r' ∧ contents capacity r' = q'
  | None, None => True
  | _, _ => False
  end.
Proof.
  intros Hwf. pose proof (is_full_contents capacity r Hwf) as Hfull.
  pose proof (is_empty_contents capacity r Hwf) as Hempty.
  destruct o as [t|t| | | | |]; simpl; rewrite <- ?Hfull.
  - destruct (is_full capacity r) eqn:E.
    + unfold push_back_value. by rewrite E.
    + destruct (push_back_value_spec capacity t r Hwf E) as (r' & -> & ? & Hr'); simpl; auto.
  - destruct (is_full capacity r) eqn:E.
    + unfold get_back_slot. by rewrite E.
    + destruct (back_slot_available capacity r Hwf E) as [t0 ->]. simpl.
      rewrite fill_then_push.
      destruct (push_back_value_spec capacity t r Hwf E) as (r' & -> & ? & Hr'); simpl; auto.
  - destruct (contents capacity r) as [|t l] eqn:Hc.
    + unfold pop_front. by rewrite (proj2 Hempty eq_refl).
    + destruct (pop_front_spec capacity r t l Hwf Hc) as (r' & -> & ? & Hr'); simpl; auto.
  - destruct (contents capacity r) as [|t l] eqn:Hc.
    + unfold get_front. by rewrite (proj2 Hempty eq_refl).
    + rewrite (get_front_spec capacity r t l) by done. simpl. auto.
  - by rewrite contents_length.
  - destruct (is_empty r), (contents capacity r); intuition congruence.
  - done.
Qed.

(** A cell written by a push is not one of a queued element; a pop moves the
    front by one cell. *)
Lemma ring_step_cells o r b r' i : ring_wf capacity r → Z.of_nat i < get_size r →
  ring_step capacity o r = Some (b, r') → (pops [o] ≤ i)%nat →
  ring_wf capacity r' ∧ Z.of_nat (i - pops [o]) < get_size r' ∧
  cell capacity r' (i - pops [o]) = cell capacity r i ∧
  buffer r' !! cell capacity r i = buffer r !! cell capacity r i.
Proof.
  intros Hwf Hi Hstep Hpops. pose proof (get_size_bounds r) as Hb.
  assert (Hpush : ∀ t, push_back_value capacity t r = Some r' →
    ring_wf capacity r' ∧ Z.of_nat (i - 0) < get_size r' ∧
    cell capacity r' (i - 0) = cell capacity r i ∧
    buffer r' !! cell capacity r i = buffer r !! cell capacity r i).
  { intros t Hp. destruct (is_full capacity r) eqn:E; unfold push_back_value in Hp;
      rewrite E in Hp; [done|].
    pose proof (not_full_size capacity r Hwf E) as Hlt.
    set (r1 := set_back_slot capacity t r).
    assert (Hr' : r' = r1 <| tail ::= u64_succ |>) by (by injection Hp as <-).
    assert (Hwf1 : ring_wf capacity r1) by by apply wf_write. rewrite Hr'.
    split; [by apply wf_push|]. rewrite (size_push capacity), Nat.sub_0_r by done.
    change (get_size r1) with (get_size r). split; [lia|]. split; [done|].
    simpl. rewrite back_cell by done. rewrite list_lookup_insert_ne; [done|].
    intros E'. apply (cell_inj capacity r (Z.to_nat (get_size r)) i) in E'; lia. }
  destruct o as [t|t| | | | |]; cbn [ring_step] in Hstep; simpl in *; simplify_option_eq;
    try (rewrite Nat.sub_0_r; by auto); try by eapply Hpush.
  change (pops [Op_pop_front]) with 1%nat in *.
  unfold pop_front in *. destruct (is_empty r); [done|]. simplify_eq.
  assert (1 ≤ i)%nat by done. split; [apply wf_pop; (done || lia)|].
  rewrite (size_pop capacity) by (done || lia). split; [lia|].
  rewrite cell_pop by done. split; [f_equal; lia|done].
Qed.

Lemma run_ops_cells os r bs r' i : ring_wf capacity r → Z.of_nat i < get_size r →
  run_ops (ring_step capacity) os r = Some (bs, r') → (pops os ≤ i)%nat →
  ring_wf capacity r' ∧ Z.of_nat (i - pops os) < get_size r' ∧
  cell capacity r' (i - pops os) = cell capacity r i ∧
  buffer r' !! cell capacity r i = buffer r !! cell capacity r i.
Proof.
  revert r bs i. induction os as [|o os IH]; intros r bs i Hwf Hi Hrun Hp; simpl in *.
  { injection Hrun as _ <-. change (pops []) with 0%nat. by rewrite Nat.sub_0_r. }
  destruct (ring_step capacity o r) as [[b r1]|] eqn:Hs; simpl in Hrun; [|done].
  destruct (run_ops _ os r1) as [[bs1 r2]|] eqn:Hr; simpl in Hrun; [|done].
  injection Hrun as _ ->.
  assert (Hpops : pops (o :: os) = (pops [o] + pops os)%nat) by exact (count_app _ [o] os).
  rewrite Hpops in Hp |- *.
  destruct (ring_step_cells o r b r1 i) as (Hwf1 & Hi1 & Hc1 & Hb1); [done|done|done|lia|].
  destruct (IH r1 bs1 (i - pops [o])%nat Hwf1 Hi1 Hr) as (Hwf2 & Hi2 & Hc2 & Hb2); [lia|].
  rewrite Nat.sub_add_distr. rewrite Hc1 in Hc2, Hb2.
  split_and!; [done|done|done|]. by rewrite Hb2.
Qed.
End program_lemmas.

(** One operation of the ring that wraps and of the one that does not. *)
Section plain_lemmas.
Context {T : Type} (capacity : Z) `{!RingCapacity capacity}.
Implicit Types p : PlainRing T.

Lemma wrapped_size p : plain_ok capacity p → get_size (plain_wrapped p) = plain_size p.
Proof.
  unfold plain_ok, plain_size. intros Hp. pose proof (rc_fits (capacity := capacity)).
  unfold get_size, u64. simpl. unfold u64. rewrite <- Zminus_mod. apply Z.mod_small. lia.
Qed.

Lemma wrapped_index pos : get_index capacity (u64 pos) = plain_index capacity pos.
Proof. unfold plain_index. by rewrite get_index_mod, u64_mod_capacity. Qed.

Lemma wrapped_succ pos : u64_succ (u64 pos) = u64 (pos + 1).
Proof. unfold u64_succ, u64. by rewrite Zplus_mod_idemp_l. Qed.

Lemma wrapped_full p : plain_ok capacity p → is_full capacity (plain_wrapped p) = (plain_size p =? capacity).
Proof. intros Hp. unfold is_full. by rewrite wrapped_size. Qed.

Lemma wrapped_empty p : plain_ok capacity p → is_empty (plain_wrapped p) = (plain_size p =? 0).
Proof.
  intros Hp. rewrite <- wrapped_size by done. unfold is_empty.
  destruct (Z.eqb_spec (head (plain_wrapped p)) (tail (plain_wrapped p))) as [E|Hne].
  - unfold get_size. by rewrite E, Z.sub_diag.
  - symmetry. apply Z.eqb_neq. rewrite wrapped_size by done. intros E. apply Hne.
    unfold plain_size in E. simpl. f_equal. lia.
Qed.

Lemma wrapped_push t p : plain_ok capacity p →
  push_back_value capacity t (plain_wrapped p) =
    if plain_size p =? capacity then None else Some (plain_wrapped (plain_push capacity t p)).
Proof.
  intros Hp. unfold push_back_value. rewrite wrapped_full by done.
  destruct (_ =? _); [done|]. unfold plain_wrapped, plain_push. simpl.
  by rewrite wrapped_index, <- wrapped_succ.
Qed.

Lemma wrapped_step o p : plain_ok capacity p →
  ring_step capacity o (plain_wrapped p) =
    prod_map id plain_wrapped <$> plain_step capacity o p.
Proof.
  intros Hp. destruct o as [t|t| | | | |]; simpl; rewrite ?wrapped_full, ?wrapped_empty, ?wrapped_size by done.
  - rewrite wrapped_push by done. by destruct (_ =? _).
  - unfold get_back_slot. rewrite wrapped_full by done. destruct (_ =? _) eqn:E; [done|].
    simpl. rewrite wrapped_index. destruct (plain_buffer p !! _); [|done]. simpl.
    rewrite fill_then_push, wrapped_push, E by done. done.
  - unfold pop_front. rewrite wrapped_empty by done. destruct (_ =? _); [done|].
    simpl. unfold plain_wrapped. simpl. by rewrite wrapped_succ.
  - unfold get_front. rewrite wrapped_empty by done. destruct (_ =? _); [done|].
    simpl. rewrite wrapped_index. by destruct (plain_buffer p !! _).
  - done.
  - done.
  - done.
Qed.

Lemma plain_step_ok o p b p' : plain_ok capacity p → plain_step capacity o p = Some (b, p') →
  plain_ok capacity p'.
Proof.
  unfold plain_ok, plain_size. intros Hp Hstep.
  destruct o; simpl in Hstep; unfold plain_size in Hstep;
    repeat case_match; simplify_option_eq; rewrite ?Z.eqb_eq, ?Z.eqb_neq in *; simpl; lia.
Qed.
End plain_lemmas.

(** * Properties *)

Section properties.
Context {T : Type} (capacity : Z) `{!RingCapacity capacity}.
Implicit Types r : FixedRingBuffer T.

(** C2: A program of queue operations run on the ring, from any state that
    satisfies the invariant (its 64-bit positions may be about to wrap),
    makes the same observations as on a list of at most [capacity] elements,
    oldest first, and leaves the ring holding that list.  An assertion of the
    ring fails exactly when the list operation is refused: a push on a full
    queue, a front or a pop on an empty one. *)
Theorem ring_refines_fifo os r : ring_wf capacity r →
  match run_ops (ring_step capacity) os r,
        run_ops (fifo_step capacity) os (contents capacity r) with
  | Some (bs, r'), Some (bs', q') => bs = bs' ∧ ring_wf capacity r' ∧ contents capacity r' = q'
  | None, None => True
  | _, _ => False
  end.
Proof.
  revert r. induction os as [|o os IH]; intros r Hwf; simpl; [done|].
  pose proof (ring_step_refines capacity o r Hwf) as Hstep.
  destruct (ring_step capacity o r) as [[b r']|],
    (fifo_step capacity o (contents capacity r)) as [[b' q']|]; simpl; try done.
  destruct Hstep as (<- & Hwf' & <-). specialize (IH r' Hwf').
  destruct (run_ops _ os r') as [[bs r'']|], (run_ops _ os (contents capacity r')) as [[bs' q'']|];
    simpl; try done.
  by destruct IH as (-> & ? & ?).
Qed.

(** C23: Elements do not move while queued: through any program that has not
    yet popped the [i]-th queued element, its buffer cell stays the same,
    keeps its value, and is still the cell of that element, now [pops]
    places nearer the front. *)
Theorem queued_element_stays_in_place os r bs r' i : ring_wf capacity r →
  Z.of_nat i < get_size r → run_ops (ring_step capacity) os r = Some (bs, r') →
  (pops os ≤ i)%nat →
  buffer r' !! cell capacity r i = buffer r !! cell capacity r i ∧
  cell capacity r' (i - pops os) = cell capacity r i ∧
  contents capacity r' !! (i - pops os)%nat = contents capacity r !! i.
Proof.
  intros Hwf Hi Hrun Hp. destruct (run_ops_cells capacity os r bs r' i) as (Hwf' & Hi' & Hc & Hb); [done..|].
  split_and!; [done|done|]. rewrite !contents_lookup by done. by rewrite Hc, Hb.
Qed.

(** C13: The ring whose indices are masked and whose positions wrap at 64 bits
    is equivalent to the textbook ring, whose positions grow for ever and are
    reduced by a division: any program, from any positions, makes the same
    observations, fails an assertion at the same place, and leaves the same
    buffer, the positions being the others' last 64 bits. *)
Theorem wrapping_ring_is_equivalent os (p : PlainRing T) : plain_ok capacity p →
  run_ops (ring_step capacity) os (plain_wrapped p) =
    prod_map id plain_wrapped <$> run_ops (plain_step capacity) os p.
Proof.
  revert p. induction os as [|o os IH]; intros p Hp; simpl; [done|].
  rewrite wrapped_step by done. destruct (plain_step capacity o p) as [[b p']|] eqn:Hs; simpl; [|done].
  rewrite IH by by eapply plain_step_ok. by destruct (run_ops _ os p') as [[bs p'']|].
Qed.
End properties.

#[export] Instance ring_capacity_4 : RingCapacity 4.
Proof. by split. Qed.

(** A ring of capacity 4 whose positions are one push away from wrapping. *)
Definition ring_near_wrap : FixedRingBuffer Z := Ring [10; 20; 30; 40] (two64 - 2) (two64 - 1).

Definition sample_program : list (ring_op Z) :=
  [Op_push_back 1; Op_get_front; Op_fill_back_slot 2; Op_pop_front; Op_push_back 3; Op_get_size;
   Op_push_back 4; Op_is_full; Op_get_front].

Lemma ring_refines_fifo_witness :
  ∃ bs r', run_ops (ring_step 4) sample_program ring_near_wrap = Some (bs, r') ∧
    bs = [Obs_unit; Obs_value 30; Obs_unit; Obs_unit; Obs_unit; Obs_size 3; Obs_unit;
          Obs_bool true; Obs_value 1] ∧
    ring_wf 4 r' ∧ contents 4 r' = [1; 2; 3; 4] ∧ head r' = two64 - 1 ∧ tail r' = 3.
Proof.
  assert (Hwf : ring_wf 4 ring_near_wrap) by (split; vm_compute; intuition congruence).
  pose proof (ring_refines_fifo 4 sample_program ring_near_wrap Hwf) as H.
  destruct (run_ops (ring_step 4) sample_program ring_near_wrap) as [[bs r']|] eqn:E;
    [|vm_compute in E; discriminate].
  exists bs, r'. vm_compute in E. injection E as <- <-.
  split; [reflexivity|]. split; [reflexivity|].
  split; [apply H|]. split; [vm_compute; reflexivity|]. by split.
Defined.

Lemma queued_element_stays_in_place_witness :
  ring_wf 4 ring_near_wrap ∧
  buffer ring_near_wrap !! cell 4 ring_near_wrap 0 = Some 30 ∧
  ∃ bs r', run_ops (ring_step 4) [Op_push_back 1; Op_push_back 2; Op_push_back 3] ring_near_wrap
             = Some (bs, r') ∧
    buffer r' !! cell 4 ring_near_wrap 0 = buffer ring_near_wrap !! cell 4 ring_near_wrap 0.
Proof.
  assert (Hwf : ring_wf 4 ring_near_wrap) by (split; vm_compute; intuition congruence).
  split; [exact Hwf|]. split; [vm_compute; reflexivity|].
  eexists _, _. split; [vm_compute; reflexivity|].
  eapply (queued_element_stays_in_place 4 [Op_push_back 1; Op_push_back 2; Op_push_back 3]
            ring_near_wrap _ _ 0 Hwf); [vm_compute; reflexivity|vm_compute; reflexivity|].
  vm_compute; lia.
Defined.

(** Positions past the 64th bit. *)
Lemma wrapping_ring_is_equivalent_witness :
  let p := Plain [10; 20; 30; 40] (5 * two64 - 2) (5 * two64 - 1) in
  plain_wrapped p = ring_near_wrap ∧
  run_ops (ring_step 4) sample_program ring_near_wrap =
    prod_map id plain_wrapped <$> run_ops (plain_step 4) sample_program p.
Proof.
  intros p. split; [vm_compute; reflexivity|].
  change ring_near_wrap with (plain_wrapped p).
  apply (wrapping_ring_is_equivalent 4). split; vm_compute; intuition congruence.
Defined.
