(* ===== verification/Interleaving.v ===== *)
(** Operations that run concurrently.

    An operation that other threads may interrupt is a [prog]: a sequence of
    atomic accesses to the shared state (a load or a store of an atomic, a call
    of a library), each a computation of [Prelude].  [atomically] runs it
    without interruption; [advance] makes its next access.

    [safe R G Q p s] is rely-guarantee: started in [s], and with the other
    threads making any changes in [R] before each access, [p] does not fault,
    each of its accesses makes a change in [G], and its result satisfies [Q]. *)

From S2P Require Import Prelude.

Inductive prog (S A : Type) :=
  | Ret (a : A)
  | Access {B : Type} (m : M S B) (k : B → prog S A).
Arguments Ret {S A} a.
Arguments Access {S A B} m k.

Fixpoint and_then {S A B} (p : prog S A) (k : A → prog S B) : prog S B :=
  match p with
  | Ret a => k a
  | Access m k' => Access m (λ b, and_then (k' b) k)
  end.

Declare Scope prog_scope.
Delimit Scope prog_scope with prog.
#[global] Open Scope prog_scope.
Notation "'access!' x := m 'in' k" := (Access m (λ x, k))
  (at level 10, x binder, m at level 200, k at level 200,
   format "'[v' 'access!'  x  :=  m  'in' '/' k ']'") : prog_scope.
Notation "'then!' x := p 'in' k" := (and_then p (λ x, k))
  (at level 10, x binder, p at level 200, k at level 200,
   format "'[v' 'then!'  x  :=  p  'in' '/' k ']'") : prog_scope.
Notation "m ;>> k" := (Access m (λ _, k))
  (at level 100, k at level 200, right associativity,
   format "'[v' m  ;>> '/' k ']'") : prog_scope.

Fixpoint atomically {S A} (p : prog S A) : M S A :=
  match p with
  | Ret a => ret a
  | Access m k => let! b := m in atomically (k b)
  end.

Definition advance {S A} (p : prog S A) : M S (prog S A) :=
  match p with
  | Ret a => ret (Ret a)
  | Access m k => let! b := m in ret (k b)
  end.

Lemma atomically_and_then {S A B} (p : prog S A) (k : A → prog S B) s :
  atomically (and_then p k) s = bind (atomically p) (λ a, atomically (k a)) s.
Proof.
  revert s. induction p as [a|C m k' IH]; intros s; [done|]. simpl. unfold bind.
  destruct (m s) as [[c s']|]; [apply IH|done].
Qed.

Fixpoint safe {S A} (R G : relation S) (Q : A → S → Prop) (p : prog S A) (s : S) : Prop :=
  match p with
  | Ret a => ∀ s', R s s' → Q a s'
  | Access m k => ∀ s1, R s s1 → wp m (λ b s2, G s1 s2 ∧ safe R G Q (k b) s2) s1
  end.

Section safe.
Context {S : Type} (R G : relation S) `{!PreOrder R}.

(** What the others do does not matter. *)
Lemma safe_stable {A} (Q : A → S → Prop) p s s' : R s s' → safe R G Q p s → safe R G Q p s'.
Proof.
  intros Hs. destruct p as [a|B m k]; simpl; intros H s1 H1; apply H; by trans s'.
Qed.

(** An access of a thread is a change in its guarantee, and leaves it safe. *)
Lemma safe_advance {A} (Q : A → S → Prop) p s : PreOrder G → safe R G Q p s →
  wp (advance p) (λ p' s', G s s' ∧ safe R G Q p' s') s.
Proof.
  intros HG. destruct p as [a|B m k]; simpl; intros H; [by split|].
  apply wp_bind. exact (H s (reflexivity _)).
Qed.

Lemma safe_mono {A} (Q Q' : A → S → Prop) p s :
  (∀ a s', Q a s' → Q' a s') → safe R G Q p s → safe R G Q' p s.
Proof.
  intros HQ. revert s. induction p as [a|B m k IH]; intros s; simpl; [by auto|].
  intros H s1 H1. eapply wp_mono; [by apply H|]. intros b s2 [? ?]. auto.
Qed.

Lemma safe_and_then {A B} (Q : B → S → Prop) (p : prog S A) (k : A → prog S B) s :
  safe R G (λ a, safe R G Q (k a)) p s → safe R G Q (and_then p k) s.
Proof.
  revert s. induction p as [a|C m k' IH]; intros s; simpl.
  - intros H. by apply H.
  - intros H s1 H1. eapply wp_mono; [by apply H|]. intros c s2 [? ?]. auto.
Qed.

(** An access whose result, and whose effect as far as the others can tell, are
    those it would have had in [s]. *)
Lemma safe_access {A B} (Q : A → S → Prop) (m : M S B) (k : B → prog S A) b s s' :
  (∀ s1, R s s1 → wp m (λ b' s2, b' = b ∧ G s1 s2 ∧ R s' s2) s1) →
  safe R G Q (k b) s' → safe R G Q (Access m k) s.
Proof.
  intros Hm Hk s1 H1. eapply wp_mono; [by apply Hm|]. intros b' s2 (-> & HG & H2).
  split; [done|]. by eapply safe_stable.
Qed.

(** An access that changes nothing as far as the others can tell. *)
Lemma safe_quiet {A B} (Q : A → S → Prop) (m : M S B) (k : B → prog S A) s :
  (∀ s1, R s s1 → wp m (λ _ s2, G s1 s2 ∧ R s1 s2) s1) →
  (∀ b, safe R G Q (k b) s) → safe R G Q (Access m k) s.
Proof.
  intros Hm Hk s1 H1. eapply wp_mono; [by apply Hm|]. intros b s2 [HG H2].
  split; [done|]. eapply safe_stable; [|by apply Hk]. by trans s1.
Qed.

(** Running without interruption is one of the interleavings. *)
Lemma safe_atomically {A} (Q : A → S → Prop) p s : safe R G Q p s → wp (atomically p) Q s.
Proof.
  revert s. induction p as [a|B m k IH]; intros s; simpl; intros H; [by apply H|].
  apply wp_bind. eapply wp_mono; [by apply H|]. intros b s2 [_ ?]. auto.
Qed.
End safe.

(** The rely and the guarantee may be narrowed and widened. *)
Lemma safe_weaken {S A} (R R' G G' : relation S) (Q : A → S → Prop) p s :
  (∀ x y, R' x y → R x y) → (∀ x y, G x y → G' x y) → safe R G Q p s → safe R' G' Q p s.
Proof.
  intros HR HG. revert s. induction p as [a|B m k IH]; intros s; simpl; [by auto|].
  intros H s1 H1. eapply wp_mono; [by apply H, HR|]. intros b s2 [? ?]. auto.
Qed.
