(* ===== verification/Executor.v ===== *)
(** The life cycle and the thread control of
    [cpp_components/executor/executor.cpp].

    The state is the class's fields; [calls] records, oldest first, what the
    executor asks of its libraries and of the kernel (Asio, [std::thread],
    eventfd, pthread).  What those return is an argument of the operation that
    asks.  An operation is a [prog], one access of shared state after the other:
    [exec_steps] runs operations to their end, and [system_steps] interleaves the
    accesses of the owner's operations with those of other threads.  The
    doorbell's concurrent protocol is in [Doorbell]. *)

From S2P Require Import Prelude Interleaving.

Inductive sched_policy := SCHED_OTHER | SCHED_RR.

Inductive exec_call :=
  | Call_eventfd
  | Call_doorbell_assign (fd : Z)
  | Call_close (fd : Z)
  | Call_async_read_doorbell
  | Call_create_thread
  | Call_post_cancel
  | Call_io_context_stop
  | Call_thread_join
  | Call_doorbell_cancel
  | Call_setschedparam (policy : sched_policy) (priority : Z)
  | Call_getschedparam
  | Call_setaffinity (cpu_id : Z).

Record Executor := {
  doorbell_handler : bool;     (* the std::function is not empty *)
  doorbell_fd : Z;
  thread_handle : bool;        (* assigned *)
  thread_joinable : bool;      (* thread.joinable() *)
  work : bool;                 (* the unique_ptr is not null *)
  is_start_called : bool;
  is_started : bool;
  is_stopping : bool;
  doorbell_armed : bool;
  calls : list exec_call;
}.

#[export] Instance executor_settable : Settable Executor := λ e,
  Build_Executor (doorbell_handler e) (doorbell_fd e) (thread_handle e) (thread_joinable e)
    (work e) (is_start_called e) (is_started e) (is_stopping e) (doorbell_armed e) (calls e).

(** The constructors: [Executor()] passes an empty handler. *)
Definition Executor_init (has_handler : bool) : Executor := {|
  doorbell_handler := has_handler; doorbell_fd := -1; thread_handle := false;
  thread_joinable := false; work := true; is_start_called := false; is_started := false;
  is_stopping := false; doorbell_armed := false; calls := [];
|}.

Definition call (c : exec_call) : M Executor unit := modify (λ e, e <| calls ::= λ l, l ++ [c] |>).

(** What [start()] gets back: [eventfd()]'s result and [errno], the error of
    [doorbell.assign], and the [std::system_error] of [std::thread], if any. *)
Record start_env := {
  eventfd_ret : Z;
  eventfd_errno : Z;
  assign_ec : error_code;
  thread_error : option error_code;
}.

Definition start_doorbell_wait : M Executor unit := call Call_async_read_doorbell.

Definition setup_doorbell (env : start_env) : prog Executor error_code :=
  call Call_eventfd ;>>
  let fd := eventfd_ret env in
  if fd <? 0 then Ret (ErrorCode (eventfd_errno env) generic_category) else
  call (Call_doorbell_assign fd) ;>>
  if is_error (assign_ec env) then
    call (Call_close fd) ;>>
    Ret (assign_ec env)
  else
    modify (λ e, e <| doorbell_fd := fd |>) ;>>
    modify (λ e, e <| doorbell_armed := true |>) ;>>
    start_doorbell_wait ;>>
    Ret no_error.

(** [thread = std::thread(...)]: the thread is joinable unless it throws. *)
Definition create_thread (env : start_env) : M Executor unit :=
  call Call_create_thread ;;;
  when (bool_decide (thread_error env = None)) (modify (λ e, e <| thread_joinable := true |>)).

(** The end of [start()], once the doorbell is set up. *)
Definition start_thread (env : start_env) : prog Executor error_code :=
  create_thread env ;>>
  match thread_error env with
  | Some ec => Ret ec
  | None =>
      modify (λ e, e <| thread_handle := true |>) ;>>
      modify (λ e, e <| is_started := true |>) ;>>
      Ret no_error
  end.

(** [is_start_called.exchange(true)] *)
Definition exchange_start_called : M Executor bool :=
  let! called := gets is_start_called in
  modify (λ e, e <| is_start_called := true |>) ;;;
  ret called.

Definition start (env : start_env) : prog Executor error_code :=
  access! stopping := gets is_stopping in
  if stopping then Ret (make_error_code invalid_argument) else
  access! called := exchange_start_called in
  if called then Ret (make_error_code invalid_argument) else
  access! has_handler := gets doorbell_handler in
  if has_handler then
    then! ec := setup_doorbell env in
    if is_error ec then Ret ec else start_thread env
  else start_thread env.

(** [run()]: what [io_context.run] ends with decides between returning from the
    thread (with or without a message) and [std::abort]; nothing escapes. *)
Inductive io_run_result :=
  | Io_returned (ec : error_code)
  | Io_threw_std_exception (what : string)
  | Io_threw_other.

Inductive thread_end :=
  | Thread_returned
  | Thread_aborted.

Definition exec_run (r : io_run_result) (message : error_code → string) : list string * thread_end :=
  match r with
  | Io_returned ec =>
      ((if is_error ec then ["Executor: " +:+ message ec] else []), Thread_returned)
  | Io_threw_std_exception what =>
      (["Executor: unhandled exception in a callback: " +:+ what], Thread_aborted)
  | Io_threw_other =>
      (["Executor: unhandled unknown exception in a callback"], Thread_aborted)
  end.

(** [thread.join()] *)
Definition join_thread : M Executor unit :=
  call Call_thread_join ;;;
  modify (λ e, e <| thread_joinable := false |>).

Definition stop (is_force_stop on_executor_thread : bool) : prog Executor unit :=
  modify (λ e, e <| is_stopping := true |>) ;>>
  access! joinable := gets thread_joinable in
  if negb joinable then Ret tt else
  access! fd := gets doorbell_fd in
  when (0 <=? fd) (call Call_post_cancel) ;>>
  modify (λ e, e <| work := false |>) ;>>
  when is_force_stop (call Call_io_context_stop) ;>>
  if on_executor_thread then Ret tt else
  join_thread ;>>
  Ret tt.

(** The handler that [stop()] posts. *)
Definition stop_cancel_handler : prog Executor unit :=
  modify (λ e, e <| doorbell_armed := false |>) ;>>
  call Call_doorbell_cancel ;>>
  Ret tt.

(** [~Executor()] *)
Definition destroy (on_executor_thread : bool) : prog Executor unit := stop true on_executor_thread.

(** The guard shared by the thread-control operations. *)
Definition thread_controllable : prog Executor bool :=
  access! started := gets is_started in
  if negb started then Ret false else
  access! stopping := gets is_stopping in
  Ret (negb stopping).

(** A call of pthread on [thread_handle], which is null until it is assigned. *)
Definition pthread_call (c : exec_call) : M Executor unit :=
  let! assigned := gets thread_handle in
  if negb assigned then throw NullDeref else call c.

Definition pthread_code (r : Z) : error_code :=
  if r =? 0 then no_error else ErrorCode r generic_category.

Definition get_max_priority (sched_get_priority_max : sched_policy → Z) : Z :=
  sched_get_priority_max SCHED_RR.

Definition set_priority (sched_get_priority_max : sched_policy → Z) (pthread_ret priority : Z) :
    prog Executor error_code :=
  if (priority <? 0) || (get_max_priority sched_get_priority_max <? priority)
  then Ret (make_error_code invalid_argument) else
  then! ok := thread_controllable in
  if negb ok then Ret (make_error_code invalid_argument) else
  pthread_call (Call_setschedparam (if priority =? 0 then SCHED_OTHER else SCHED_RR) priority) ;>>
  Ret (pthread_code pthread_ret).

(** Also returns the new value of the reference parameter, when it is assigned. *)
Definition get_priority (pthread_ret sched_priority : Z) : prog Executor (error_code * option Z) :=
  then! ok := thread_controllable in
  if negb ok then Ret (make_error_code invalid_argument, None) else
  pthread_call Call_getschedparam ;>>
  if pthread_ret =? 0 then Ret (no_error, Some sched_priority)
  else Ret (ErrorCode pthread_ret generic_category, None).

Definition CPU_SETSIZE : Z := 1024.

Definition set_cpu_affinity (pthread_ret : Z) (cpu_id : Z) : prog Executor error_code :=
  if CPU_SETSIZE <=? cpu_id then Ret (make_error_code invalid_argument) else
  then! ok := thread_controllable in
  if negb ok then Ret (make_error_code invalid_argument) else
  pthread_call (Call_setaffinity cpu_id) ;>>
  Ret (pthread_code pthread_ret).

(** * Runs of the public operations *)

(** What threads other than the executor's owner run: the thread control, and
    on the executor thread the handler that [stop()] posts. *)
Inductive control_action :=
  | Act_stop_cancel
  | Act_set_priority (sched_get_priority_max : sched_policy → Z) (pthread_ret priority : Z)
  | Act_get_priority (pthread_ret sched_priority : Z)
  | Act_set_cpu_affinity (pthread_ret cpu_id : Z).

(** The owner starts and stops it, too. *)
Inductive exec_action :=
  | Act_start (env : start_env)
  | Act_stop (is_force_stop on_executor_thread : bool)
  | Act_control (a : control_action).

(** The operations; their result is the code they return. *)
Definition control_op (a : control_action) : prog Executor error_code :=
  match a with
  | Act_stop_cancel => then! _ := stop_cancel_handler in Ret no_error
  | Act_set_priority mx r p => set_priority mx r p
  | Act_get_priority r p => then! x := get_priority r p in Ret (fst x)
  | Act_set_cpu_affinity r c => set_cpu_affinity r c
  end.
Definition exec_op (a : exec_action) : prog Executor error_code :=
  match a with
  | Act_start env => start env
  | Act_stop force here => then! _ := stop force here in Ret no_error
  | Act_control a => control_op a
  end.

(** One operation after the other. *)
Definition exec_step (a : exec_action) : M Executor error_code := atomically (exec_op a).
Definition exec_steps : list exec_action → M Executor unit := run (λ a, exec_step a ;;; ret tt).

(** ** Concurrent operations *)

(** The owner has at most one operation in progress ([start()] must not be
    called concurrently with [stop()]); other threads any number. *)
Record System := {
  executor : Executor;
  owner : option (prog Executor error_code);
  others : list (prog Executor error_code);
}.
#[export] Instance system_settable : Settable System := λ s,
  Build_System (executor s) (owner s) (others s).

Definition System_init (has_handler : bool) : System :=
  {| executor := Executor_init has_handler; owner := None; others := [] |}.

(** A thread calls an operation, or makes the next access of the one that it is
    in; what cannot happen changes nothing. *)
Inductive system_action :=
  | Owner_calls (a : exec_action)
  | Owner_moves
  | Other_calls (a : control_action)
  | Other_moves (i : nat).

Definition on_executor {A} (m : M Executor A) : M System A := λ s,
  match m (executor s) with
  | Ok (a, e) => Ok (a, s <| executor := e |>)
  | Fault f => Fault f
  end.

Definition system_step (a : system_action) : M System unit :=
  match a with
  | Owner_calls a =>
      let! o := gets owner in
      match o with
      | None => modify (λ s, s <| owner := Some (exec_op a) |>)
      | Some _ => ret tt
      end
  | Owner_moves =>
      let! o := gets owner in
      match o with
      | None => ret tt
      | Some (Ret _) => modify (λ s, s <| owner := None |>)
      | Some p =>
          let! p' := on_executor (advance p) in
          modify (λ s, s <| owner := Some p' |>)
      end
  | Other_calls a => modify (λ s, s <| others ::= λ l, l ++ [control_op a] |>)
  | Other_moves i =>
      let! l := gets others in
      match l !! i with
      | None => ret tt
      | Some p =>
          let! p' := on_executor (advance p) in
          modify (λ s, s <| others ::= <[i := p']> |>)
      end
  end.

Definition system_steps : list system_action → M System unit := run system_step.

(** * Invariants *)

Definition is_create (c : exec_call) : bool := match c with Call_create_thread => true | _ => false end.
Definition is_join (c : exec_call) : bool := match c with Call_thread_join => true | _ => false end.

(** Between two operations of the owner. *)
Record exec_inv (e : Executor) : Prop := {
  inv_create : (count is_create (calls e) ≤ if is_start_called e then 1 else 0)%nat;
  inv_started : is_started e = true →
    thread_handle e = true ∧ is_start_called e = true ∧ count is_create (calls e) = 1%nat;
  inv_joinable : thread_joinable e = true → is_started e = true;
  inv_join : (count is_join (calls e) + (if thread_joinable e then 1 else 0)
              = if is_started e then 1 else 0)%nat;
  inv_work : work e = false → is_stopping e = true;
  inv_released : is_started e = true → thread_joinable e = true ∨ work e = false;
}.

(** At every access. *)
Record access_inv (e : Executor) : Prop := {
  acc_create : (count is_create (calls e) ≤ if is_start_called e then 1 else 0)%nat;
  acc_started : is_started e = true → thread_handle e = true ∧ is_start_called e = true;
  acc_join : (count is_join (calls e) + (if thread_joinable e then 1 else 0) ≤ count is_create (calls e))%nat;
  acc_work : work e = false → is_stopping e = true;
}.

Lemma exec_access_inv e : exec_inv e → access_inv e.
Proof.
  intros [Hc Hs Hj Hn Hw Hr]. split; [done| |  |done].
  - intros H. by destruct (Hs H) as (? & ? & _).
  - destruct (is_started e); [destruct Hs as (_ & _ & ?); [done|]|]; lia.
Qed.

(** ** What the threads guarantee each other *)

(** The other threads neither create the thread nor join it, and leave all but
    the doorbell alone. *)
Record others_change (e e' : Executor) : Prop := {
  oc_handle : thread_handle e' = thread_handle e;
  oc_joinable : thread_joinable e' = thread_joinable e;
  oc_work : work e' = work e;
  oc_called : is_start_called e' = is_start_called e;
  oc_started : is_started e' = is_started e;
  oc_stopping : is_stopping e' = is_stopping e;
  oc_create : count is_create (calls e') = count is_create (calls e);
  oc_join : count is_join (calls e') = count is_join (calls e);
}.

(** The owner keeps the invariant, and what is published stays. *)
Definition owner_change (e e' : Executor) : Prop := access_inv e → access_inv e' ∧
  (is_started e = true → is_started e' = true).

#[export] Instance others_change_preorder : PreOrder others_change.
Proof. split; [by split|]. intros e1 e2 e3 [] []. split; congruence. Qed.

#[export] Instance owner_change_preorder : PreOrder owner_change.
Proof.
  split; [by split|]. intros e1 e2 e3 H12 H23 H1. destruct (H12 H1) as [H2 ?].
  destruct (H23 H2). auto.
Qed.

Lemma access_inv_stable e e' : others_change e e' → access_inv e → access_inv e'.
Proof.
  intros [Eh Ej Ew Ec Es Ep Er En] []. by split; rewrite ?Er, ?En, ?Ec, ?Es, ?Eh, ?Ej, ?Ew, ?Ep.
Qed.

Lemma exec_inv_stable e e' : others_change e e' → exec_inv e → exec_inv e'.
Proof.
  intros [Eh Ej Ew Ec Es Ep Er En] []. by split; rewrite ?Er, ?En, ?Ec, ?Es, ?Eh, ?Ej, ?Ew, ?Ep.
Qed.

Lemma others_owner_change e e' : others_change e e' → owner_change e e'.
Proof.
  intros H He. split; [by eapply access_inv_stable|]. by rewrite (oc_started _ _ H).
Qed.

(** ** Every operation is safe among the others *)

Definition other_call (c : exec_call) : bool := negb (is_create c) && negb (is_join c).

Lemma call_quiet c e : other_call c = true → wp (call c) (λ _ e', others_change e e') e.
Proof.
  intros Hc. unfold call. apply wp_modify. split; try done; simpl; rewrite count_app, count_cons, count_nil;
    destruct c; try done; simpl; lia.
Qed.

Lemma when_call_quiet b c e : other_call c = true → wp (when b (call c)) (λ _ e', others_change e e') e.
Proof. intros Hc. apply wp_when. destruct b; [by apply call_quiet|done]. Qed.

Section controls.
Context (R : relation Executor) `{!PreOrder R} (P : Executor → Prop).
Context (HR : ∀ e e', others_change e e' → R e e').
Context (Hstable : ∀ e e', R e e' → P e → P e' ∧ (is_started e = true → is_started e' = true)).
Context (Hinv : ∀ e, P e → access_inv e).
Notation Safe := (safe R others_change).

Lemma quiet_safe {A B} (Q : A → Executor → Prop) (m : M Executor B) (k : B → prog Executor A) e :
  (∀ e1, wp m (λ _ e2, others_change e1 e2) e1) → (∀ b, Safe Q (k b) e) → Safe Q (Access m k) e.
Proof.
  intros Hm. apply safe_quiet; [done|]. intros e1 _. eapply wp_mono; [apply Hm|]. auto.
Qed.

Lemma ret_safe {A} (a : A) e : P e → Safe (λ _, P) (Ret a) e.
Proof. intros He e' H'. by eapply Hstable. Qed.

(** The guard, and a call of pthread behind it. *)
Lemma controlled_safe {A} (a : A) c (k : unit → prog Executor A) e :
  P e → other_call c = true → (∀ e', P e' → Safe (λ _, P) (k tt) e') →
  Safe (λ _, P) (then! ok := thread_controllable in
    if negb ok then Ret a else Access (pthread_call c) k) e.
Proof.
  intros He Hc Hk. cbn [thread_controllable and_then]. intros e1 H1. apply wp_gets. split; [done|].
  destruct (Hstable _ _ H1 He) as [He1 _]. destruct (is_started e1) eqn:Hs; [|by apply ret_safe].
  apply quiet_safe; [done|]. intros stopping. simpl. destruct stopping; [by apply ret_safe|].
  intros e2 H2. destruct (Hstable _ _ H2 He1) as [He2 Hs2].
  destruct (acc_started _ (Hinv _ He2) (Hs2 Hs)) as [Hh _].
  unfold pthread_call. apply wp_bind, wp_gets. rewrite Hh. simpl.
  eapply wp_mono; [by apply call_quiet|]. intros [] e3 H3. split; [done|]. apply Hk.
  by eapply Hstable, He2; apply HR.
Qed.

Lemma control_safe a e : P e → Safe (λ _, P) (control_op a) e.
Proof.
  intros He. destruct a as [|mx r p|r p|r c]; cbn [control_op].
  - apply quiet_safe; [intros; by apply wp_modify|]. intros _. apply quiet_safe; [|by intros; apply ret_safe].
    intros. by apply call_quiet.
  - unfold set_priority. destruct (_ || _); [by apply ret_safe|].
    apply controlled_safe; [done..|]. intros e' He'. by apply ret_safe.
  - unfold get_priority. apply safe_and_then; [done|]. eapply safe_mono.
    2: { apply controlled_safe; [exact He|done|]. intros e' He'.
         destruct (r =? 0); by apply ret_safe. }
    intros [c o] e' He'. by apply ret_safe.
  - unfold set_cpu_affinity. destruct (_ <=? _); [by apply ret_safe|].
    apply controlled_safe; [done..|]. intros e' He'. by apply ret_safe.
Qed.
End controls.

Lemma others_safe a e : access_inv e → safe owner_change others_change (λ _, access_inv) (control_op a) e.
Proof. apply control_safe; [apply _|apply others_owner_change|by intros; auto|done]. Qed.

Notation OwnerSafe := (safe others_change owner_change (λ _ : error_code, exec_inv)).

Lemma owner_quiet {A} (m : M Executor A) (k : A → prog Executor error_code) e :
  (∀ e1, wp m (λ _ e2, others_change e1 e2) e1) → (∀ b, OwnerSafe (k b) e) → OwnerSafe (Access m k) e.
Proof.
  intros Hm. apply safe_quiet; [apply _|]. intros e1 _. eapply wp_mono; [apply Hm|].
  intros b e2 H. split; [by apply others_owner_change|done].
Qed.

Lemma owner_ret ec e : exec_inv e → OwnerSafe (Ret ec) e.
Proof. intros He e' H'. by eapply exec_inv_stable. Qed.

(** An access that brings [e] to [e']. *)
Lemma owner_access {A} (m : M Executor A) (k : A → prog Executor error_code) b e e' :
  (∀ e1, others_change e e1 → wp m (λ b' e2, b' = b ∧ others_change e' e2) e1) →
  (access_inv e → access_inv e') → (is_started e = true → is_started e' = true) →
  OwnerSafe (k b) e' → OwnerSafe (Access m k) e.
Proof.
  intros Hm Hi Hs. apply safe_access; [apply _|]. intros e1 H1. eapply wp_mono; [by apply Hm|].
  intros b' e2 [-> H2]. split; [done|]. split; [|done]. intros He1. split.
  - eapply access_inv_stable; [exact H2|]. apply Hi. eapply access_inv_stable; [|exact He1].
    destruct H1; by split.
  - rewrite (oc_started _ _ H1), (oc_started _ _ H2). exact Hs.
Qed.

(** [owner_access] to a given state; the invariants of the new state follow from
    those of the old one. *)
Ltac solve_counts :=
  simpl in *; rewrite ?count_app, ?count_cons, ?count_nil in *; simpl in *;
  try done; try lia; intuition (try congruence; lia).
Ltac solve_inv := intros; (split || idtac); solve_counts.
Ltac owner_effect :=
  intros [] []; simpl in *; subst;
  unfold exchange_start_called, create_thread, join_thread, call, wp, when, bind, gets, modify, ret; simpl;
  split; [done|split; solve_counts].
Tactic Notation "owner_to" uconstr(b) uconstr(e) :=
  apply (owner_access _ _ b _ e); [owner_effect|intros []; split; solve_counts|simpl; auto|].

Lemma start_thread_safe env e :
  exec_inv e → is_start_called e = true → is_started e = false → count is_create (calls e) = 0%nat →
  OwnerSafe (start_thread env) e.
Proof.
  destruct e as [h fd th j w sc st sp ar cs]. intros [Hc _ Hj Hn Hw _] ? ? H0. simpl in *. subst sc st.
  assert (j = false) as -> by (destruct j; [by discriminate Hj|done]).
  unfold start_thread. destruct (thread_error env) as [ec|] eqn:Hte.
  - apply (owner_access _ _ tt _ (Build_Executor h fd th false w true false sp ar (cs ++ [Call_create_thread])));
      [unfold create_thread; rewrite Hte; owner_effect|intros []; split; solve_counts|done|].
    apply owner_ret. split; solve_counts.
  - apply (owner_access _ _ tt _ (Build_Executor h fd th true w true false sp ar (cs ++ [Call_create_thread])));
      [unfold create_thread; rewrite Hte; owner_effect|intros []; split; solve_counts|done|].
    owner_to tt (Build_Executor h fd true true w true false sp ar (cs ++ [Call_create_thread])).
    owner_to tt (Build_Executor h fd true true w true true sp ar (cs ++ [Call_create_thread])).
    apply owner_ret. split; solve_counts.
Qed.

Lemma setup_doorbell_safe env (k : error_code → prog Executor error_code) e :
  (∀ ec, OwnerSafe (k ec) e) → OwnerSafe (and_then (setup_doorbell env) k) e.
Proof.
  intros Hk. unfold setup_doorbell. cbn [and_then].
  apply owner_quiet; [intros; by apply call_quiet|]. intros _.
  destruct (_ <? 0); [apply Hk|]. cbn [and_then].
  apply owner_quiet; [intros; by apply call_quiet|]. intros _.
  destruct (is_error _); cbn [and_then]; repeat (apply owner_quiet; [|intros _]); try apply Hk; intros;
    by apply call_quiet || by apply wp_modify.
Qed.

Lemma start_safe env e : exec_inv e → OwnerSafe (start env) e.
Proof.
  intros He. unfold start. apply owner_quiet; [done|]. intros [|]; [by apply owner_ret|].
  destruct (is_start_called e) eqn:Hsc.
  - apply (owner_access _ _ true _ e); [|done|done|by apply owner_ret].
    intros e1 H1. unfold exchange_start_called. apply wp_bind, wp_gets, wp_bind, wp_modify, wp_ret.
    rewrite (oc_called _ _ H1). split; [done|]. by destruct H1.
  - destruct He as [Hc Hs Hj Hn Hw Hr]. destruct e as [h fd th j w sc st sp ar cs]. simpl in *. subst sc.
    assert (st = false) as -> by (destruct st; [destruct Hs as (_ & ? & _); done|done]).
    owner_to false (Build_Executor h fd th j w true false sp ar cs).
    assert (exec_inv (Build_Executor h fd th j w true false sp ar cs)) as He by (split; solve_counts).
    apply owner_quiet; [done|]. intros [|].
    + apply setup_doorbell_safe. intros ec. destruct (is_error ec); [by apply owner_ret|].
      apply start_thread_safe; try done. simpl. lia.
    + apply start_thread_safe; try done. simpl. lia.
Qed.

Lemma stop_safe force here e :
  exec_inv e → OwnerSafe (then! _ := stop force here in Ret no_error) e.
Proof.
  destruct e as [h fd th j w sc st sp ar cs]. intros He. unfold stop. cbn [and_then].
  owner_to tt (Build_Executor h fd th j w sc st true ar cs).
  assert (exec_inv (Build_Executor h fd th j w sc st true ar cs)) as [Hc Hs Hj Hn Hw Hr]
    by (destruct He; by split). simpl in *.
  owner_to j (Build_Executor h fd th j w sc st true ar cs).
  destruct j; [|by apply owner_ret]. cbn [negb and_then].
  rewrite (Hj eq_refl) in *. destruct (Hs eq_refl) as (-> & -> & H1).
  apply owner_quiet; [done|]. intros fd'. apply owner_quiet; [intros; by apply when_call_quiet|]. intros _.
  owner_to tt (Build_Executor h fd true true false true true true ar cs).
  apply owner_quiet; [intros; by apply when_call_quiet|]. intros _.
  destruct here; [apply owner_ret; split; solve_counts|]. cbn [and_then].
  owner_to tt (Build_Executor h fd true false false true true true ar (cs ++ [Call_thread_join])).
  apply owner_ret. split; solve_counts.
Qed.

Lemma owner_safe a e : exec_inv e → OwnerSafe (exec_op a) e.
Proof.
  intros He. destruct a as [env|force here|a]; [by apply start_safe|by apply stop_safe|].
  eapply safe_weaken; [| |apply (control_safe others_change exec_inv)].
  - done.
  - apply others_owner_change.
  - done.
  - intros e1 e2 H He1. split; [by eapply exec_inv_stable|]. by rewrite (oc_started _ _ H).
  - apply exec_access_inv.
  - done.
Qed.

(** ** Runs *)

Lemma exec_init_inv h : exec_inv (Executor_init h).
Proof. by split. Qed.

Lemma exec_step_inv a e : exec_inv e → wp (exec_step a) (λ _ e', exec_inv e') e.
Proof. intros He. by apply (safe_atomically others_change owner_change), owner_safe. Qed.

(** The threads of a system are safe. *)
Record system_inv (s : System) : Prop := {
  sys_access : access_inv (executor s);
  sys_owner : match owner s with
    | None => exec_inv (executor s)
    | Some p => OwnerSafe p (executor s)
    end;
  sys_others : Forall (λ p, safe owner_change others_change (λ _, access_inv) p (executor s)) (others s);
}.

Lemma system_init_inv h : system_inv (System_init h).
Proof. split; [apply exec_access_inv, exec_init_inv|apply exec_init_inv|constructor]. Qed.

(** The others stay safe under a change of the owner, or of one of them. *)
Lemma others_stay_safe e e' (l : list (prog Executor error_code)) : owner_change e e' →
  Forall (λ p, safe owner_change others_change (λ _, access_inv) p e) l →
  Forall (λ p, safe owner_change others_change (λ _, access_inv) p e') l.
Proof. intros H Hl. eapply Forall_impl; [exact Hl|]. intros p. by apply safe_stable; [apply _|]. Qed.

Lemma wp_on_executor {A} (m : M Executor A) Q s :
  wp m (λ a e, Q a (s <| executor := e |>)) (executor s) → wp (on_executor m) Q s.
Proof. unfold wp, on_executor. by destruct (m (executor s)) as [[a e]|]. Qed.

Lemma owner_moves_inv p s : system_inv s → owner s = Some p →
  wp (let! p' := on_executor (advance p) in modify (λ s, s <| owner := Some p' |>)) (λ _, system_inv) s.
Proof.
  intros [Ha Ho Hl] Hp. rewrite Hp in Ho. apply wp_bind, wp_on_executor.
  eapply wp_mono; [eapply (safe_advance others_change owner_change); [apply _|exact Ho]|].
  intros p' e [HG Hp']. apply wp_modify.
  split; [by apply HG|done|]. by eapply others_stay_safe.
Qed.

Lemma other_moves_inv i p s : system_inv s → others s !! i = Some p →
  wp (let! p' := on_executor (advance p) in modify (λ s, s <| others ::= <[i := p']> |>))
    (λ _, system_inv) s.
Proof.
  intros [Ha Ho Hl] Hp. apply wp_bind, wp_on_executor.
  eapply wp_mono.
  { eapply (safe_advance owner_change others_change); [apply _|exact (Forall_lookup_1 _ _ _ _ Hl Hp)]. }
  intros p' e [HG Hp']. apply wp_modify. simpl. split; simpl.
  - by eapply access_inv_stable.
  - destruct (owner s) as [q|]; [by eapply safe_stable; [apply _|exact HG|]|by eapply exec_inv_stable].
  - apply Forall_insert; [|done]. eapply others_stay_safe; [|exact Hl]. by apply others_owner_change.
Qed.

Lemma system_step_inv a s : system_inv s → wp (system_step a) (λ _, system_inv) s.
Proof.
  intros Hs. assert (Hs' := Hs). destruct Hs' as [Ha Ho Hl].
  destruct a as [a| |a|i]; simpl; apply wp_bind || apply wp_modify; try apply wp_gets.
  - destruct (owner s) as [p|]; [done|]. apply wp_modify. split; [done|by apply owner_safe|done].
  - destruct (owner s) as [[r|B m k]|] eqn:Hp; [|by apply owner_moves_inv|done].
    apply wp_modify. split; [done|by apply (Ho (executor s))|done].
  - split; [done|done|]. apply Forall_app. split; [done|]. apply Forall_singleton. by apply others_safe.
  - destruct (others s !! i) as [p|] eqn:Hp; [by apply other_moves_inv|done].
Qed.

Lemma system_steps_inv acts s : system_inv s → wp (system_steps acts) (λ _, system_inv) s.
Proof. intros Hs. apply wp_for_each; [done|]. intros a s' _. apply system_step_inv. Qed.

(** What one operation, run by itself, may do to the life cycle: flags only rise,
    and once the executor is stopping the thread is neither created nor
    configured. *)
Definition is_pthread (c : exec_call) : bool :=
  match c with
  | Call_setschedparam _ _ | Call_getschedparam | Call_setaffinity _ => true
  | _ => false
  end.

Record exec_progress (e e' : Executor) : Prop := {
  prog_start_called : is_start_called e = true → is_start_called e' = true;
  prog_started : is_started e = true → is_started e' = true;
  prog_stopping : is_stopping e = true → is_stopping e' = true;
  prog_stopped_calls : is_stopping e = true →
    count is_pthread (calls e') = count is_pthread (calls e) ∧
    count is_create (calls e') = count is_create (calls e);
}.

#[export] Instance exec_progress_preorder : PreOrder exec_progress.
Proof.
  split.
  - by split.
  - intros e1 e2 e3 [? ? ? H12] [? ? ? H23]. split; auto.
    intros Hs. destruct (H12 Hs) as [<- <-]. auto.
Qed.

(** Evaluate an operation on a state, splitting on the conditions it tests. *)
Ltac exec_unfold :=
  unfold exec_step, exec_op, control_op, start, exchange_start_called, setup_doorbell, start_doorbell_wait,
    start_thread, create_thread, stop, join_thread, stop_cancel_handler, destroy, set_priority,
    get_priority, set_cpu_affinity, thread_controllable, pthread_call, call, wp, wlp, when, bind, gets,
    modify, ret, throw in *.
Ltac exec_eval :=
  do 2 (exec_unfold; simpl in *); repeat (case_match; do 2 (exec_unfold; simpl in *); simplify_eq/=).

Lemma exec_step_progress a e : wlp (exec_step a) (λ _ e', exec_progress e e') e.
Proof.
  destruct e as [h fd th j w sc st sp ar cs].
  destruct a as [| |[]]; exec_eval; split; simpl; rewrite ?count_app; unfold count; simpl; auto; try done;
    intros; simplify_eq/=; split; lia.
Qed.

Lemma exec_steps_inv acts e : exec_inv e → wp (exec_steps acts) (λ _, exec_inv) e.
Proof.
  intros He. apply wp_for_each; [done|]. intros a e' _ He'. wp_simpl.
  by eapply wp_mono; [by apply exec_step_inv|].
Qed.

Lemma exec_steps_progress acts e : wlp (exec_steps acts) (λ _, exec_progress e) e.
Proof.
  apply (wlp_for_each (exec_progress e)); [done|]. intros a e' _ He'. apply wlp_bind.
  eapply wlp_mono; [apply exec_step_progress|]. intros r e'' He''. apply wlp_ret. by trans e'.
Qed.

Lemma exec_steps_app acts acts' e e' e'' :
  exec_steps acts e = Ok (tt, e') → exec_steps acts' e' = Ok (tt, e'') →
  exec_steps (acts ++ acts') e = Ok (tt, e'').
Proof. intros H H'. etrans; [apply (run_app _ acts acts' e)|]. unfold bind.
  change (run _ acts e) with (exec_steps acts e). by rewrite H. Qed.

(** Operations run to their end from a state between two of them. *)
Lemma exec_steps_result acts e : exec_inv e →
  ∃ e', exec_steps acts e = Ok (tt, e') ∧ exec_inv e' ∧ exec_progress e e'.
Proof.
  intros He. destruct (wp_ok _ _ _ (wp_wlp _ _ _ _ (exec_steps_inv acts e He) (exec_steps_progress acts e)))
    as ([] & e' & ? & ? & ?). eauto.
Qed.

(** * Properties *)

(** C22: However one thread's calls of [start], [stop] and the thread control
    interleave, access by access, with any number of thread-control operations
    on other threads: none faults, so pthread is never called on a
    [thread_handle] that is not assigned; at every moment at most one thread
    was created and it was joined at most once, [is_started] is not seen before
    [thread_handle] is assigned, and the [work] object that keeps
    [io_context.run()] from returning is released only under [stop]; between
    the owner's calls, only an executor that is started has a thread to join. *)
Theorem executor_lifecycle_invariant has_handler acts :
  wp (system_steps acts) (λ _ s, let e := executor s in
    (count is_create (calls e) ≤ 1)%nat ∧
    (count is_join (calls e) ≤ count is_create (calls e))%nat ∧
    (is_started e = true → thread_handle e = true ∧ is_start_called e = true) ∧
    (owner s = None → thread_joinable e = true → is_started e = true) ∧
    (work e = false → is_stopping e = true)) (System_init has_handler).
Proof.
  eapply wp_mono; [apply system_steps_inv, system_init_inv|].
  intros _ s [[Hc Hs Hj Hw] Ho _]. split_and!; [| |done| |done].
  - destruct (is_start_called _); lia.
  - lia.
  - intros Hn. rewrite Hn in Ho. apply Ho.
Qed.

(** [start()] works at most once: once it has been called, whatever it
    returned, or once [stop()] has been called, every later [start()] returns
    [invalid_argument] and asks nothing of the kernel or of [std::thread]. *)
Theorem start_is_not_retried acts acts' env env' force here e e' : exec_inv e →
  exec_steps acts e = Ok (tt, e') →
  Act_start env ∈ acts ∨ Act_stop force here ∈ acts →
  ∃ e'', exec_steps acts' e' = Ok (tt, e'') ∧
  ∃ e3, atomically (start env') e'' = Ok (make_error_code invalid_argument, e3) ∧
    calls e3 = calls e'' ∧ is_started e3 = is_started e'' ∧ thread_joinable e3 = thread_joinable e''.
Proof.
  intros He Hrun Hin.
  assert (exec_inv e' ∧ (is_stopping e' = true ∨ is_start_called e' = true)) as [Hi' He'].
  { revert e He Hrun Hin. induction acts as [|a acts IH]; intros e He Hrun Hin; [by destruct Hin as [[]%elem_of_nil|[]%elem_of_nil]|].
    unfold exec_steps, run in Hrun; cbn [for_each] in Hrun. unfold bind, ret in Hrun.
    assert (Hstep := exec_step_inv a e He). unfold wp in Hstep.
    destruct (exec_step a e) as [[r e1]|] eqn:Ha; [|done].
    change (exec_steps acts e1 = Ok (tt, e')) in Hrun.
    rewrite !elem_of_cons in Hin.
    assert (Hcase : (Act_start env = a ∨ Act_stop force here = a) ∨
                    (Act_start env ∈ acts ∨ Act_stop force here ∈ acts)) by tauto.
    clear Hin. destruct Hcase as [Hnow|Hlater]; [|by eapply IH].
    destruct (exec_steps_result acts e1 Hstep) as (e2 & H2 & Hi & [Hsc _ Hsp _]).
    rewrite H2 in Hrun. injection Hrun as ->. split; [done|].
    enough (is_stopping e1 = true ∨ is_start_called e1 = true) by tauto.
    clear -Ha Hnow. destruct e as [h fd th j w sc st sp ar cs].
    destruct Hnow as [<-|<-]; revert Ha; exec_eval; intros; simplify_eq/=; auto. }
  destruct (exec_steps_result acts' e' Hi') as (e'' & Hrun' & _ & [Hsc _ Hsp _]). exists e''. split; [done|].
  assert (He'' : is_stopping e'' = true ∨ is_start_called e'' = true) by tauto.
  unfold start, exchange_start_called, atomically, bind, gets, modify, ret.
  destruct (is_stopping e''); [by eexists|]. destruct He'' as [?| ->]; [done|by eexists].
Qed.

(** Once [stop()] has been called (from any thread), no operation called later,
    in any number and with any arguments, calls pthread on the thread or
    creates a thread. *)
Theorem stopped_executor_is_not_controlled acts force here acts' e : exec_inv e →
  ∃ e' e'', exec_steps (acts ++ [Act_stop force here]) e = Ok (tt, e') ∧
    exec_steps acts' e' = Ok (tt, e'') ∧ is_stopping e'' = true ∧
    count is_pthread (calls e'') = count is_pthread (calls e') ∧
    count is_create (calls e'') = count is_create (calls e').
Proof.
  intros He. destruct (exec_steps_result acts e He) as (e0 & H0 & He0 & _).
  destruct (exec_steps_result [Act_stop force here] e0 He0) as (e' & H' & He' & _).
  destruct (exec_steps_result acts' e' He') as (e'' & H'' & _ & [_ _ Hp Hcalls]).
  exists e', e''. split; [by eapply exec_steps_app|]. split; [done|].
  assert (is_stopping e' = true).
  { destruct e0 as [h fd th j w sc st sp ar cs]. revert H'. clear.
    unfold exec_steps, run; cbn [for_each]; exec_eval; intros; by simplify_eq/=. }
  split; [auto|]. by apply Hcalls.
Qed.

(** C24: Destroying an executor from another thread is safe in every state its
    operations reach: [~Executor()] returns without a fault and leaves no
    joinable [std::thread] (whose destructor would terminate the program), the
    [work] object is gone whenever a thread ran, and a thread that was never
    joined is joined, after [io_context.stop()]. *)
Theorem destroy_leaves_no_joinable_thread has_handler acts e :
  exec_steps acts (Executor_init has_handler) = Ok (tt, e) →
  ∃ e', atomically (destroy false) e = Ok (tt, e') ∧ thread_joinable e' = false ∧ is_stopping e' = true ∧
    (is_started e' = true → count is_join (calls e') = 1%nat ∧ work e' = false) ∧
    (thread_joinable e = true →
      ∃ pre, calls e' = calls e ++ pre ++ [Call_io_context_stop; Call_thread_join]).
Proof.
  intros Hrun.
  pose proof (wp_result _ _ _ _ _ (exec_steps_inv acts _ (exec_init_inv has_handler)) Hrun)
    as [Hc Hs Hj Hjn Hw Hr].
  destruct e as [h fd th j w sc st sp ar cs]. simpl in *.
  destruct j; simplify_eq/=.
  - rewrite (Hj eq_refl) in *. simpl in *. clear Hrun. do 2 (exec_unfold; simpl).
    destruct (0 <=? fd) eqn:Hfd; simpl; (eexists; split; [done|]); simpl;
      autorewrite with model_rw; simpl; (split_and!; [done|done|intros _; split; [lia|done]|]); intros _.
    + exists [Call_post_cancel]. by rewrite <- !(assoc_L (++)).
    + exists []. by rewrite <- !(assoc_L (++)).
  - clear Hrun. do 2 (exec_unfold; simpl). eexists; split; [done|]. simpl.
    split_and!; [done|done| |done]. intros ->. destruct Hr as [?| ->]; [done..|]. split; [lia|done].
Qed.

Definition good_env : start_env :=
  {| eventfd_ret := 7; eventfd_errno := 0; assign_ec := no_error; thread_error := None |}.
Definition failing_env : start_env :=
  {| eventfd_ret := -1; eventfd_errno := 24; assign_ec := no_error; thread_error := None |}.

Lemma start_is_not_retried_witness :
  ∃ e', exec_steps [Act_start failing_env] (Executor_init true) = Ok (tt, e') ∧
  ∃ e'', exec_steps [Act_control (Act_set_priority (λ _, 99) 0 5)] e' = Ok (tt, e'') ∧
  ∃ e3, atomically (start good_env) e'' = Ok (make_error_code invalid_argument, e3) ∧
    calls e3 = calls e'' ∧ is_started e3 = is_started e'' ∧ thread_joinable e3 = thread_joinable e''.
Proof.
  eexists. split; [vm_compute; reflexivity|].
  eapply (start_is_not_retried [Act_start failing_env] _ failing_env good_env false false
            (Executor_init true)); [apply exec_init_inv|vm_compute; reflexivity|].
  left. apply list_elem_of_here.
Defined.

Lemma destroy_leaves_no_joinable_thread_witness :
  ∃ e, exec_steps [Act_start good_env; Act_stop false true] (Executor_init true) = Ok (tt, e) ∧
    thread_joinable e = true ∧
  ∃ e', atomically (destroy false) e = Ok (tt, e') ∧ thread_joinable e' = false.
Proof.
  eexists. split; [vm_compute; reflexivity|]. split; [reflexivity|].
  edestruct (destroy_leaves_no_joinable_thread true [Act_start good_env; Act_stop false true])
    as (e' & Hd & Hj & _); [vm_compute; reflexivity|]. by exists e'.
Defined.

(** The guard of the thread control is not atomic with the call behind it: a
    [set_priority] that passed it before [stop] calls pthread on a thread that
    has been joined in the meantime. *)
Definition control_races_with_stop : list system_action :=
  [Owner_calls (Act_start good_env)] ++ replicate 13 Owner_moves ++
  [Other_calls (Act_set_priority (λ _, 99) 0 5); Other_moves 0; Other_moves 0;
   Owner_calls (Act_stop false false)] ++ replicate 8 Owner_moves ++ [Other_moves 0].

Theorem joined_thread_is_controlled :
  ∃ s pre, system_steps control_races_with_stop (System_init true) = Ok (tt, s) ∧
    owner s = None ∧
    calls (executor s) = pre ++ [Call_thread_join; Call_setschedparam SCHED_RR 5].
Proof. eexists _, [_; _; _; _; _]. vm_compute. done. Qed.
