(* ===== verification/Doorbell.v ===== *)
(** The executor's doorbell ([cpp_components/executor/executor.cpp]: [ring],
    [handle_doorbell], [run_doorbell_handler], [write_doorbell], the cancel
    handler of [stop]) under interleaving.

    Any number of producer threads push an item and ring; the executor thread
    waits on an eventfd, arms the doorbell and drains.  One action is one access
    to shared memory, to the eventfd or to the wait, so every interleaving of
    the threads is a list of actions.  The atomics are sequentially consistent
    here: all the accesses whose order matters are read-modify-writes of
    [doorbell_armed], which are totally ordered.  The state is the one
    [setup_doorbell] leaves; the handler is the client's code, bound only by
    its contract: it returns [false] only when it sees no item left. *)

From S2P Require Import Prelude.

(** * The eventfd

    eventfd(2), for a descriptor opened with [EFD_NONBLOCK] and not
    [EFD_SEMAPHORE]: a counter; [write] of 1 adds one, or fails when the
    counter would pass 2^64 - 2; a read completes when the counter is not zero
    and resets it. *)

Definition eventfd_max : Z := two64 - 2.

Class EventFd (F : Type) := {
  efd_init : F;
  efd_write_one : F → option F;
  efd_read : F → F;
  efd_value : F → Z;
}.

Class EventFdLaws (F : Type) `{EventFd F} := {
  efd_value_init : efd_value efd_init = 0;
  efd_value_nonneg f : 0 ≤ efd_value f;
  efd_value_read f : efd_value (efd_read f) = 0;
  efd_write_ok f : efd_value f < eventfd_max →
    ∃ f', efd_write_one f = Some f' ∧ efd_value f' = efd_value f + 1;
  efd_write_full f : eventfd_max ≤ efd_value f → efd_write_one f = None;
}.

Definition efd_readable {F} `{EventFd F} (f : F) : bool := 0 <? efd_value f.

(** A counter is an eventfd. *)
#[export] Instance counter_eventfd : EventFd N := {|
  efd_init := 0%N;
  efd_write_one c := if Z.of_N c <? eventfd_max then Some (c + 1)%N else None;
  efd_read _ := 0%N;
  efd_value := Z.of_N;
|}.

#[export] Instance counter_eventfd_laws : EventFdLaws N.
Proof.
  split; simpl; [done|lia|done|..].
  - intros f Hf%Z.ltb_lt. rewrite Hf. eexists; split; [done|lia].
  - intros f Hf%Z.ltb_ge. by rewrite Hf.
Qed.

(** * State *)

(** A producer: [ring()] is the exchange and, when it read true, the write. *)
Inductive producer_pc :=
  | Producer_idle
  | Producer_pushed        (* an item is in the queue; ring() is next *)
  | Producer_must_write.   (* the exchange read true; write_doorbell() is next *)

(** The executor thread, by the access it is about to make. *)
Inductive exec_pc :=
  | Outside                        (* not in the doorbell's code *)
  | Handle_entry (ec : error_code) (* handle_doorbell(ec): looks at ec, loads is_stopping *)
  | Handle_store_false             (* stopping: stores doorbell_armed = false, returns *)
  | Handler_arm                    (* run_doorbell_handler: doorbell_armed.exchange(true) *)
  | Handler_running                (* inside doorbell_handler() *)
  | Handler_disarm                 (* it returned true: stores doorbell_armed = false *)
  | Handler_write                  (* write_doorbell() *)
  | Handle_recheck                 (* loads is_stopping, waits again if it is not set *)
  | Cancel_store                   (* stop()'s handler: stores doorbell_armed = false *)
  | Cancel_cancel.                 (* doorbell.cancel() *)

(** The asynchronous read of the eventfd. *)
Inductive wait_state :=
  | No_wait
  | Waiting (cancelled : bool)
  | Completed (ec : error_code).   (* its handler is queued *)

Record Doorbell (F : Type) := {
  armed : bool;                    (* doorbell_armed *)
  efd : F;                         (* doorbell_fd's eventfd *)
  stopping : bool;                 (* is_stopping *)
  items : nat;                     (* pushed and not yet drained *)
  wait : wait_state;
  exec : exec_pc;
  producers : list producer_pc;
  stoppers : nat;                  (* threads in stop() that have set is_stopping *)
  cancel_tasks : nat;              (* cancel handlers posted and not yet run *)
  cancelled_once : bool;           (* a cancel handler has run to its end *)
  io_failed : bool;                (* a read failed for a reason other than a cancel *)
}.
Arguments Build_Doorbell {F}.
Arguments armed {F} _.
Arguments efd {F} _.
Arguments stopping {F} _.
Arguments items {F} _.
Arguments wait {F} _.
Arguments exec {F} _.
Arguments producers {F} _.
Arguments stoppers {F} _.
Arguments cancel_tasks {F} _.
Arguments cancelled_once {F} _.
Arguments io_failed {F} _.

#[export] Instance doorbell_settable F : Settable (Doorbell F) := λ s,
  Build_Doorbell (armed s) (efd s) (stopping s) (items s) (wait s) (exec s) (producers s)
    (stoppers s) (cancel_tasks s) (cancelled_once s) (io_failed s).

Inductive doorbell_action :=
  | A_push (i : nat)               (* producer i pushes an item *)
  | A_ring_exchange (i : nat)      (* producer i: the exchange of ring() *)
  | A_ring_write (i : nat)         (* producer i: write_doorbell() of ring() *)
  | A_kernel_read                  (* the kernel completes the read *)
  | A_kernel_cancelled             (* the kernel completes a cancelled read *)
  | A_kernel_error (ec : error_code)
  | A_run_completion               (* the executor runs the read's handler *)
  | A_run_cancel                   (* the executor runs a posted cancel handler *)
  | A_exec                         (* the executor's next access *)
  | A_drain                        (* the handler takes an item *)
  | A_handler_returns (more : bool)
  | A_stop_flag                    (* some thread (the executor's too) enters stop() *)
  | A_stop_post.                   (* stop() posts its cancel handler *)

Definition operation_aborted : error_code := make_error_code operation_canceled.

Section doorbell.
Context {F : Type} `{EventFd F}.
Implicit Types s : Doorbell F.

(** The state after [setup_doorbell()] with [n] producer threads. *)
Definition doorbell_init (n : nat) : Doorbell F := {|
  armed := true; efd := efd_init; stopping := false; items := 0; wait := Waiting false;
  exec := Outside; producers := replicate n Producer_idle; stoppers := 0; cancel_tasks := 0;
  cancelled_once := false; io_failed := false;
|}.

Definition set_producer (i : nat) (p : producer_pc) s : Doorbell F :=
  s <| producers ::= <[i := p]> |>.

(** A failed write is ignored. *)
Definition write_doorbell s : Doorbell F :=
  match efd_write_one (efd s) with
  | Some f => s <| efd := f |>
  | None => s
  end.

(** [doorbell_armed.exchange(false)] in [ring()]. *)
Definition ring_exchange (i : nat) s : Doorbell F :=
  if armed s then set_producer i Producer_must_write (s <| armed := false |>)
  else set_producer i Producer_idle s.

Definition ring_write (i : nat) s : Doorbell F :=
  set_producer i Producer_idle (write_doorbell s).

Definition start_wait s : Doorbell F := s <| wait := Waiting false |>.

(** The executor thread's next access in [handle_doorbell],
    [run_doorbell_handler] and the cancel handler. *)
Definition exec_advance s : option (Doorbell F) :=
  match exec s with
  | Handle_entry ec =>
      Some (if is_error ec then s <| armed := false |> <| exec := Outside |>
            else if stopping s then s <| exec := Handle_store_false |>
            else s <| exec := Handler_arm |>)
  | Handle_store_false => Some (s <| armed := false |> <| exec := Outside |>)
  | Handler_arm => Some (s <| armed := true |> <| exec := Handler_running |>)
  | Handler_disarm => Some (s <| armed := false |> <| exec := Handler_write |>)
  | Handler_write => Some ((write_doorbell s) <| exec := Handle_recheck |>)
  | Handle_recheck =>
      Some ((if stopping s then s else start_wait s) <| exec := Outside |>)
  | Cancel_store => Some (s <| armed := false |> <| exec := Cancel_cancel |>)
  | Cancel_cancel =>
      Some (s <| wait ::= λ w, match w with Waiting _ => Waiting true | _ => w end |>
              <| exec := Outside |> <| cancelled_once := true |>)
  | Outside | Handler_running => None
  end.

(** One action; [None] when it is not enabled. *)
Definition doorbell_step (a : doorbell_action) s : option (Doorbell F) :=
  match a with
  | A_push i =>
      match producers s !! i with
      | Some Producer_idle => Some (set_producer i Producer_pushed (s <| items ::= S |>))
      | _ => None
      end
  | A_ring_exchange i =>
      match producers s !! i with
      | Some Producer_pushed => Some (ring_exchange i s)
      | _ => None
      end
  | A_ring_write i =>
      match producers s !! i with
      | Some Producer_must_write => Some (ring_write i s)
      | _ => None
      end
  | A_kernel_read =>
      match wait s with
      | Waiting _ =>
          if efd_readable (efd s)
          then Some (s <| efd ::= efd_read |> <| wait := Completed no_error |>) else None
      | _ => None
      end
  | A_kernel_cancelled =>
      match wait s with
      | Waiting true => Some (s <| wait := Completed operation_aborted |>)
      | _ => None
      end
  | A_kernel_error ec =>
      match wait s with
      | Waiting _ =>
          if is_error ec
          then Some (s <| wait := Completed ec |> <| io_failed := true |>) else None
      | _ => None
      end
  | A_run_completion =>
      match exec s, wait s with
      | Outside, Completed ec => Some (s <| wait := No_wait |> <| exec := Handle_entry ec |>)
      | _, _ => None
      end
  | A_run_cancel =>
      match exec s, cancel_tasks s with
      | Outside, S n => Some (s <| cancel_tasks := n |> <| exec := Cancel_store |>)
      | _, _ => None
      end
  | A_exec => exec_advance s
  | A_drain =>
      match exec s, items s with
      | Handler_running, S n => Some (s <| items := n |>)
      | _, _ => None
      end
  | A_handler_returns more =>
      match exec s with
      | Handler_running =>
          if more then Some (s <| exec := Handler_disarm |>)
          else if (items s =? 0)%nat then Some (s <| exec := Handle_recheck |>) else None
      | _ => None
      end
  | A_stop_flag => Some (s <| stopping := true |> <| stoppers ::= S |>)
  | A_stop_post =>
      match stoppers s with
      | S n => Some (s <| stoppers := n |> <| cancel_tasks ::= S |>)
      | O => None
      end
  end.

Fixpoint doorbell_run (acts : list doorbell_action) s : option (Doorbell F) :=
  match acts with
  | [] => Some s
  | a :: acts' => s' ← doorbell_step a s; doorbell_run acts' s'
  end.
End doorbell.

(** Actions of the executor thread and of the kernel on its behalf. *)
Definition executor_side (a : doorbell_action) : bool :=
  match a with
  | A_kernel_read | A_kernel_cancelled | A_run_completion | A_run_cancel | A_exec | A_drain
  | A_handler_returns _ => true
  | _ => false
  end.

(** * Invariant *)

Definition is_must_write (p : producer_pc) : bool :=
  match p with Producer_must_write => true | _ => false end.
Definition is_pushed (p : producer_pc) : bool :=
  match p with Producer_pushed => true | _ => false end.

Section invariant.
Context {F : Type} `{EventFd F}.
Implicit Types s : Doorbell F.

Definition in_flight s : nat := count is_must_write (producers s).
Definition about_to_ring s : nat := count is_pushed (producers s).

(** Something will bring the executor to the handler's arming exchange. *)
Definition signalled s : Prop :=
  (0 < in_flight s)%nat ∨ 0 < efd_value (efd s) ∨ wait s = Completed no_error ∨
  exec s = Handle_entry no_error ∨ exec s = Handler_arm ∨ exec s = Handler_write.

(** ... or the handler has still to see the queue. *)
Definition attended s : Prop :=
  signalled s ∨ exec s = Handler_running ∨ exec s = Handler_disarm ∨ (0 < about_to_ring s)%nat.

Definition armed_weight s : Z := if armed s then 1 else 0.

(** Pending wake-ups: counted in the eventfd, about to be written, or armed. *)
Definition wakeups s : Z := efd_value (efd s) + Z.of_nat (in_flight s) + armed_weight s.

(** How many there can be, by where the executor is. *)
Definition wakeups_bound s : Z :=
  Z.of_nat (length (producers s)) +
  match exec s with
  | Handle_entry ec => if is_error ec then 3 else 1
  | Handle_store_false | Handler_arm => 1
  | Handler_running | Handler_disarm | Handler_write => 2
  | Handle_recheck => 3
  | Outside | Cancel_store | Cancel_cancel =>
      match wait s with Completed ec => if is_error ec then 3 else 1 | _ => 3 end
  end.

Definition exec_in_handle (p : exec_pc) : bool :=
  match p with Outside | Cancel_store | Cancel_cancel => false | _ => true end.

(** Which waits and tasks exist where. *)
Record doorbell_shape s : Prop := {
  di_wait : exec_in_handle (exec s) = true → wait s = No_wait;
  di_waiting : stopping s = false → io_failed s = false → exec_in_handle (exec s) = false →
    exec s = Outside ∧ (wait s = Waiting false ∨ wait s = Completed no_error);
  di_entry ec : exec s = Handle_entry ec → is_error ec = false → ec = no_error;
  di_entry_live ec : stopping s = false → io_failed s = false →
    exec s = Handle_entry ec → ec = no_error;
  di_completed ec : wait s = Completed ec → is_error ec = false → ec = no_error;
  di_store_false : exec s = Handle_store_false → stopping s = true;
  di_cancel : exec s = Cancel_store ∨ exec s = Cancel_cancel → stopping s = true;
  di_quiet : stopping s = false →
    stoppers s = 0%nat ∧ cancel_tasks s = 0%nat ∧ cancelled_once s = false;
  di_cancelled : cancelled_once s = true → wait s ≠ Waiting false;
}.

(** As long as the executor is not stopping and its reads work. *)
Definition live s : Prop := stopping s = false ∧ io_failed s = false.

Record doorbell_inv s : Prop := {
  di_shape : doorbell_shape s;
  di_armed : live s → armed s = true ∨ signalled s;
  di_attended : live s → (0 < items s)%nat → attended s;
  di_bound : wakeups s ≤ wakeups_bound s;
}.
End invariant.

(** * Lemmas *)

Section lemmas.
Context {F : Type} `{EventFdLaws F}.
Implicit Types s : Doorbell F.

Lemma write_doorbell_value s :
  efd_value (efd (write_doorbell s)) =
  Z.max (efd_value (efd s)) (Z.min (efd_value (efd s) + 1) eventfd_max) ∧
  0 < efd_value (efd (write_doorbell s)).
Proof.
  unfold write_doorbell. pose proof (efd_value_nonneg (efd s)).
  destruct (Z.lt_ge_cases (efd_value (efd s)) eventfd_max) as [Hlt|Hge].
  - destruct (efd_write_ok _ Hlt) as (f' & -> & Hv). simpl. lia.
  - rewrite efd_write_full by done. unfold eventfd_max, two64 in *. lia.
Qed.

Lemma write_doorbell_frame s :
  armed (write_doorbell s) = armed s ∧ stopping (write_doorbell s) = stopping s ∧
  items (write_doorbell s) = items s ∧ wait (write_doorbell s) = wait s ∧
  exec (write_doorbell s) = exec s ∧ producers (write_doorbell s) = producers s ∧
  stoppers (write_doorbell s) = stoppers s ∧ cancel_tasks (write_doorbell s) = cancel_tasks s ∧
  cancelled_once (write_doorbell s) = cancelled_once s ∧
  io_failed (write_doorbell s) = io_failed s.
Proof. unfold write_doorbell. by destruct (efd_write_one (efd s)). Qed.

Lemma in_flight_bound s : Z.of_nat (in_flight s) ≤ Z.of_nat (length (producers s)).
Proof. unfold in_flight. pose proof (count_length is_must_write (producers s)). lia. Qed.

(** The write either adds one or finds the counter at its maximum. *)
Lemma write_doorbell_cases s :
  ∃ f, write_doorbell s = s <| efd := f |> ∧ 0 < efd_value f ∧
    efd_value (efd s) ≤ efd_value f ≤ efd_value (efd s) + 1.
Proof.
  unfold write_doorbell. pose proof (efd_value_nonneg (efd s)).
  destruct (Z.lt_ge_cases (efd_value (efd s)) eventfd_max) as [Hlt|Hge].
  - destruct (efd_write_ok _ Hlt) as (f & -> & Hv). exists f. split; [done|lia].
  - rewrite efd_write_full by done. exists (efd s). unfold eventfd_max, two64 in *.
    split; [by destruct s|lia].
Qed.

Lemma doorbell_init_inv n : doorbell_inv (doorbell_init (F := F) n).
Proof.
  assert (Hp : ∀ P, P Producer_idle = false → count P (replicate n Producer_idle) = 0%nat).
  { intros P HP. apply count_zero. intros x [-> _]%elem_of_replicate. done. }
  split; simpl; auto.
  - split; simpl; try done; auto. by intros [].
  - intros _ ?. lia.
  - unfold wakeups, wakeups_bound, in_flight, armed_weight; simpl.
    rewrite Hp, efd_value_init, length_replicate by done. lia.
Qed.

(** Every step, with the fields of the state as variables and the guards of
    the action used. *)
Ltac open_step s a Hstep :=
  let f := fresh "f" in let Hf := fresh "Hf" in let Hw := fresh "Hw" in
  destruct (write_doorbell_cases s) as (f & Hw & Hf); simpl in Hf;
  destruct s as [ar ef st it wt ex pr sp ct co io];
  destruct a; simpl in Hstep;
  unfold exec_advance, ring_exchange, ring_write, set_producer, start_wait in Hstep;
  rewrite ?Hw in Hstep; simpl in *;
  repeat case_match; simplify_eq/=; clear Hw.

(** Use the hypotheses whose premises are there. *)
Ltac use_hyps :=
  repeat match goal with
  | H : ?P → _, H' : ?P |- _ => specialize (H H')
  | H : true = true → _ |- _ => specialize (H eq_refl)
  | H : false = false → _ |- _ => specialize (H eq_refl)
  | H : ?x = ?x → _ |- _ => specialize (H eq_refl)
  | H : _ ∧ _ |- _ => destruct H
  end.

Lemma doorbell_step_shape a s s' :
  doorbell_shape s → doorbell_step a s = Some s' → doorbell_shape s'.
Proof.
  intros [D1 D2 D3 D4 D5 D6 D6' D7 D8] Hstep. open_step s a Hstep.
  all: split; simpl; intros; simplify_eq/=; use_hyps; try done; try (by auto);
    try (by destruct_or!); try (by eauto); try congruence;
    try (by destruct st; use_hyps; destruct_and?; destruct_or?).
  all: naive_solver.
Qed.

Lemma doorbell_step_live a s s' : doorbell_step a s = Some s' → live s' → live s.
Proof. intros Hstep [Hst Hio]. open_step s a Hstep; by split. Qed.

(** How an action changes the counts of pending producers. *)
Lemma producer_counts i p q s : producers s !! i = Some p →
  (in_flight (set_producer i q s) + (if is_must_write p then 1 else 0) =
   in_flight s + (if is_must_write q then 1 else 0))%nat ∧
  (about_to_ring (set_producer i q s) + (if is_pushed p then 1 else 0) =
   about_to_ring s + (if is_pushed q then 1 else 0))%nat.
Proof. intros Hi. split; by apply (count_insert _ _ _ _ _ Hi). Qed.

Ltac counts :=
  match goal with
  | Hi : ?pr !! ?i = Some ?p |- context [<[?i := ?q]> ?pr] =>
      pose proof (count_insert is_must_write _ _ _ q Hi);
      pose proof (count_insert is_pushed _ _ _ q Hi); simpl in *
  | _ => idtac
  end.

Ltac signal_unfold :=
  unfold attended, signalled, wakeups, wakeups_bound, in_flight, about_to_ring,
    armed_weight in *; simpl in *.

Lemma doorbell_step_armed a s s' :
  doorbell_shape s → (live s → armed s = true ∨ signalled s) →
  doorbell_step a s = Some s' → live s' → armed s' = true ∨ signalled s'.
Proof.
  intros Hsh Harm Hstep Hlive. specialize (Harm (doorbell_step_live _ _ _ Hstep Hlive)).
  destruct Hlive as [Hst Hio]. destruct Hsh as [D1 _ _ D4 D5 D6 D6' _ _].
  open_step s a Hstep; signal_unfold; counts; use_hyps; subst;
    try (by auto); try (by eauto);
    try (by destruct_or?; simplify_eq/=; auto 10);
    try (destruct_or?; simplify_eq/=; auto 10; lia).
  all: first [by specialize (D6 eq_refl) | by specialize (D6' (or_introl eq_refl))
            | by specialize (D4 _ eq_refl eq_refl eq_refl) as ->].
Qed.

Lemma doorbell_step_attended a s s' :
  doorbell_shape s → (live s → armed s = true ∨ signalled s) →
  (live s → (0 < items s)%nat → attended s) →
  doorbell_step a s = Some s' → live s' → (0 < items s')%nat → attended s'.
Proof.
  intros Hsh Harm Hatt Hstep Hlive Hit.
  pose proof (doorbell_step_live _ _ _ Hstep Hlive) as Hlive0.
  specialize (Harm Hlive0). specialize (Hatt Hlive0).
  destruct Hlive as [Hst Hio]. destruct Hsh as [D1 _ _ D4 D5 D6 D6' _ _]. clear Hlive0.
  open_step s a Hstep; signal_unfold; counts; use_hyps; subst;
    try (by auto); try (by eauto); try (by auto 10); try lia;
    try (by destruct_or?; simplify_eq/=; auto 10).
  - left. destruct Harm as [?|[?|Harm]]; [done|left; lia|by right].
  - match goal with H : (_ =? 0)%nat = true |- _ => apply Nat.eqb_eq in H; lia end.
Qed.

Lemma doorbell_step_bound a s s' :
  doorbell_shape s → wakeups s ≤ wakeups_bound s →
  doorbell_step a s = Some s' → wakeups s' ≤ wakeups_bound s'.
Proof.
  intros Hsh Hb Hstep. pose proof (in_flight_bound s) as Hk.
  pose proof (efd_value_nonneg (efd s)) as Hv.
  pose proof (efd_value_read (efd s)) as Hr. destruct Hsh as [D1 _ D3 _ D5 _ _ _ _].
  destruct (armed s) eqn:Har.
  all: open_step s a Hstep; signal_unfold; counts; rewrite ?length_insert in *; use_hyps; subst;
    simpl in *; try (by auto); try lia.
  all: repeat case_match; simplify_eq/=; try discriminate (D1 eq_refl); lia.
Qed.

Lemma doorbell_step_inv a s s' :
  doorbell_inv s → doorbell_step a s = Some s' → doorbell_inv s'.
Proof.
  intros [Hsh Harm Hatt Hb] Hstep. split.
  - by eapply doorbell_step_shape.
  - by eapply doorbell_step_armed.
  - by eapply doorbell_step_attended.
  - by eapply doorbell_step_bound.
Qed.

Lemma doorbell_run_inv acts s s' :
  doorbell_inv s → doorbell_run acts s = Some s' → doorbell_inv s'.
Proof.
  revert s. induction acts as [|a acts IH]; intros s Hinv Hrun; simpl in Hrun; [by simplify_eq|].
  destruct (doorbell_step a s) as [s1|] eqn:Hstep; [|done]. simpl in Hrun.
  eapply IH; [by eapply doorbell_step_inv|done].
Qed.

Lemma doorbell_reach_inv n acts s : doorbell_run acts (doorbell_init n) = Some s → doorbell_inv s.
Proof. apply doorbell_run_inv, doorbell_init_inv. Qed.

Lemma doorbell_step_producers a s s' :
  doorbell_step a s = Some s' → length (producers s') = length (producers s).
Proof. intros Hstep. open_step s a Hstep; by rewrite ?length_insert. Qed.

Lemma doorbell_run_producers acts s s' :
  doorbell_run acts s = Some s' → length (producers s') = length (producers s).
Proof.
  revert s. induction acts as [|a acts IH]; intros s Hrun; simpl in Hrun; [by simplify_eq|].
  destruct (doorbell_step a s) as [s1|] eqn:Hstep; [|done]. simpl in Hrun.
  rewrite (IH s1) by done. by eapply doorbell_step_producers.
Qed.
End lemmas.

(** Where the handler may still run. *)
Definition in_handler (p : exec_pc) : bool :=
  match p with Handler_arm | Handler_running | Handler_disarm | Handler_write => true | _ => false end.

Section paths.
Context {F : Type} `{EventFdLaws F}.
Implicit Types s : Doorbell F.

(** [s] can get to a state that satisfies [P] by actions of the executor
    thread and of the kernel on its behalf alone. *)
Definition executor_reaches s (P : Doorbell F → Prop) : Prop :=
  ∃ acts s', Forall (λ a, executor_side a = true) acts ∧ doorbell_run acts s = Some s' ∧ P s'.

Lemma executor_reaches_here s (P : Doorbell F → Prop) : P s → executor_reaches s P.
Proof. intros HP. by exists [], s. Qed.

Lemma executor_reaches_step a s s' (P : Doorbell F → Prop) :
  executor_side a = true → doorbell_step a s = Some s' →
  executor_reaches s' P → executor_reaches s P.
Proof.
  intros Ha Hstep (acts & s2 & Hall & Hrun & HP). exists (a :: acts), s2.
  split; [by constructor|]. split; [simpl; by rewrite Hstep|done].
Qed.

(** From a wait whose eventfd is readable, the executor arms and runs the handler. *)
Lemma reaches_from_arm s (P : Doorbell F → Prop) :
  exec s = Handler_arm → P (s <| armed := true |> <| exec := Handler_running |>) →
  executor_reaches s P.
Proof.
  intros He HP. eapply (executor_reaches_step A_exec); [done|simpl; unfold exec_advance; by rewrite He|].
  by apply executor_reaches_here.
Qed.

Lemma reaches_from_entry s (P : Doorbell F → Prop) :
  exec s = Handle_entry no_error → stopping s = false →
  P (s <| exec := Handler_arm |> <| armed := true |> <| exec := Handler_running |>) →
  executor_reaches s P.
Proof.
  intros He Hst HP. eapply (executor_reaches_step A_exec); [done| |].
  - simpl; unfold exec_advance; rewrite He, Hst; simpl. reflexivity.
  - by apply reaches_from_arm.
Qed.

Lemma reaches_from_completed s (P : Doorbell F → Prop) :
  exec s = Outside → wait s = Completed no_error → stopping s = false →
  P (s <| wait := No_wait |> <| exec := Handler_arm |> <| armed := true |>
       <| exec := Handler_running |>) → executor_reaches s P.
Proof.
  intros He Hw Hst HP. eapply (executor_reaches_step A_run_completion); [done| |].
  - simpl. rewrite He, Hw. reflexivity.
  - by apply reaches_from_entry.
Qed.

Lemma reaches_from_wait s n :
  exec s = Outside → wait s = Waiting false → stopping s = false → 0 < efd_value (efd s) →
  items s = n → executor_reaches s (λ s', exec s' = Handler_running ∧ items s' = n).
Proof.
  intros He Hw Hst Hv Hn. eapply (executor_reaches_step A_kernel_read); [done| |].
  - simpl. rewrite Hw. unfold efd_readable. apply Z.ltb_lt in Hv. rewrite Hv. reflexivity.
  - by apply reaches_from_completed.
Qed.

Lemma reaches_from_recheck s n :
  exec s = Handle_recheck → stopping s = false → 0 < efd_value (efd s) → items s = n →
  executor_reaches s (λ s', exec s' = Handler_running ∧ items s' = n).
Proof.
  intros He Hst Hv Hn. eapply (executor_reaches_step A_exec); [done| |].
  - simpl; unfold exec_advance; rewrite He, Hst; reflexivity.
  - by apply reaches_from_wait.
Qed.

Lemma reaches_from_write s n :
  exec s = Handler_write → stopping s = false → items s = n →
  executor_reaches s (λ s', exec s' = Handler_running ∧ items s' = n).
Proof.
  intros He Hst Hn. destruct (write_doorbell_cases s) as (f & Hw & Hf & _).
  eapply (executor_reaches_step A_exec); [done| |].
  - simpl; unfold exec_advance; rewrite He, Hw; reflexivity.
  - by apply reaches_from_recheck.
Qed.

(** Stopping, with no outstanding wait. *)
Definition at_rest s : Prop := exec s = Outside ∧ wait s = No_wait ∧ stopping s = true.

Ltac exec_once :=
  eapply (executor_reaches_step A_exec);
  [done|simpl; unfold exec_advance; match goal with H : exec _ = _ |- _ => rewrite H end; reflexivity|].

Lemma at_rest_here s : exec s = Outside → wait s = No_wait → stopping s = true →
  executor_reaches s at_rest.
Proof. intros. by apply executor_reaches_here. Qed.

Lemma at_rest_from_entry s ec : exec s = Handle_entry ec → wait s = No_wait →
  stopping s = true → executor_reaches s at_rest.
Proof.
  intros He Hw Hst. destruct (is_error ec) eqn:Hec.
  - exec_once. by rewrite Hec; apply at_rest_here.
  - exec_once. rewrite Hec, Hst. eapply (executor_reaches_step A_exec); [done|reflexivity|].
    by apply at_rest_here.
Qed.

Lemma at_rest_from_completed s ec : exec s = Outside → wait s = Completed ec →
  stopping s = true → executor_reaches s at_rest.
Proof.
  intros He Hw Hst. eapply (executor_reaches_step A_run_completion); [done| |].
  - simpl. rewrite He, Hw. reflexivity.
  - by eapply at_rest_from_entry.
Qed.

Lemma at_rest_from_outside s : exec s = Outside → wait s ≠ Waiting false →
  stopping s = true → executor_reaches s at_rest.
Proof.
  intros He Hw Hst. destruct (wait s) as [|[]|ec] eqn:Hws; [by apply at_rest_here| |done|].
  - eapply (executor_reaches_step A_kernel_cancelled); [done|simpl; rewrite Hws; reflexivity|].
    by eapply at_rest_from_completed.
  - by eapply at_rest_from_completed.
Qed.

Lemma at_rest_from_write s : exec s = Handler_write → wait s = No_wait →
  stopping s = true → executor_reaches s at_rest.
Proof.
  intros He Hw Hst. destruct (write_doorbell_cases s) as (f & Hwd & _).
  eapply (executor_reaches_step A_exec); [done|simpl; unfold exec_advance; rewrite He, Hwd;
    reflexivity|].
  eapply (executor_reaches_step A_exec); [done|reflexivity|]. simpl. rewrite Hst.
  by apply at_rest_here.
Qed.

Lemma at_rest_from_running s : exec s = Handler_running → wait s = No_wait →
  stopping s = true → executor_reaches s at_rest.
Proof.
  intros He Hw Hst.
  eapply (executor_reaches_step (A_handler_returns true)); [done|simpl; rewrite He; reflexivity|].
  eapply (executor_reaches_step A_exec); [done|reflexivity|]. by apply at_rest_from_write.
Qed.

Lemma at_rest_from_cancel s : exec s = Cancel_cancel → stopping s = true →
  executor_reaches s at_rest.
Proof.
  intros He Hst. exec_once. apply at_rest_from_outside; [done| |done].
  simpl. by destruct (wait s) as [|[]|].
Qed.

Lemma at_rest_reached s : doorbell_shape s → stopping s = true → cancelled_once s = true →
  executor_reaches s at_rest.
Proof.
  intros [D1 _ _ _ _ _ _ _ D8] Hst Hc. specialize (D8 Hc).
  destruct (exec s) eqn:He; try specialize (D1 eq_refl).
  - by apply at_rest_from_outside.
  - by eapply at_rest_from_entry.
  - exec_once. by apply at_rest_here.
  - exec_once. by apply at_rest_from_running.
  - by apply at_rest_from_running.
  - exec_once. by apply at_rest_from_write.
  - by apply at_rest_from_write.
  - exec_once. rewrite Hst. by apply at_rest_here.
  - exec_once. by apply at_rest_from_cancel.
  - by apply at_rest_from_cancel.
Qed.

Lemma executor_reaches_inv s (P : Doorbell F → Prop) :
  doorbell_inv s → executor_reaches s P → executor_reaches s (λ s', P s' ∧ doorbell_inv s').
Proof.
  intros Hinv (acts & s' & Hall & Hrun & HP). exists acts, s'. split_and!; try done.
  by eapply doorbell_run_inv.
Qed.

Lemma executor_reaches_mono s (P Q : Doorbell F → Prop) :
  executor_reaches s P → (∀ s', P s' → Q s') → executor_reaches s Q.
Proof. intros (acts & s' & ? & ? & ?) HPQ. exists acts, s'. auto. Qed.

Lemma stopped_step a s s' : doorbell_shape s →
  stopping s = true → in_handler (exec s) = false → doorbell_step a s = Some s' →
  stopping s' = true ∧ in_handler (exec s') = false ∧ (items s ≤ items s')%nat ∧
  (wait s = No_wait → wait s' = No_wait).
Proof.
  intros Hsh Hst Hq Hstep. destruct (write_doorbell_cases s) as (f & Hw & Hf).
  destruct s as [ar ef st it wt ex pr sp ct co io]. simpl in *.
  destruct a; simpl in Hstep;
    unfold exec_advance, ring_exchange, ring_write, set_producer, start_wait in Hstep;
    rewrite ?Hw in Hstep; simpl in *; repeat case_match; simplify_eq/=;
    try done; repeat split; simpl; auto; lia.
Qed.

Lemma stopped_run acts s s' : doorbell_inv s →
  stopping s = true → in_handler (exec s) = false → doorbell_run acts s = Some s' →
  in_handler (exec s') = false ∧ (items s ≤ items s')%nat ∧
  (wait s = No_wait → wait s' = No_wait).
Proof.
  revert s. induction acts as [|a acts IH]; intros s Hinv Hst Hq Hrun; simpl in Hrun.
  { by simplify_eq. }
  destruct (doorbell_step a s) as [s1|] eqn:Hstep; [|done]. simpl in Hrun.
  destruct (stopped_step a s s1) as (Hst1 & Hq1 & Hi1 & Hw1); [apply Hinv|done..|].
  destruct (IH s1) as (? & ? & ?); [by eapply doorbell_step_inv|done..|].
  split; [done|]. split; [lia|auto].
Qed.
End paths.

(** * Properties *)

Section properties.
Context {F : Type} `{EventFdLaws F}.

(** C8: No wake-up is lost.  In every state reached by any interleaving of
    producers, the executor and the kernel, while the executor is not
    stopping and its reads have worked, if items are queued and no producer
    is still inside [ring()], then the executor alone, with no further ring,
    gets to run the handler with all those items still queued (it is never
    asleep on an eventfd that stays unreadable). *)
Theorem no_lost_wakeup n acts (s : Doorbell F) :
  doorbell_run acts (doorbell_init n) = Some s →
  stopping s = false → io_failed s = false →
  (0 < items s)%nat → in_flight s = 0%nat → about_to_ring s = 0%nat →
  executor_reaches s (λ s', exec s' = Handler_running ∧ items s' = items s).
Proof.
  intros Hrun Hst Hio Hit Hfl Hring.
  destruct (doorbell_reach_inv _ _ _ Hrun) as [[D1 D2 _ D4 _ D6 D6' _ _] _ Hatt _].
  assert (Hlive : live s) by done. specialize (Hatt Hlive Hit).
  destruct (exec s) eqn:He.
  - destruct D2 as [_ [Hw|Hw]]; [done..| |].
    + apply reaches_from_wait; auto. unfold attended, signalled in Hatt.
      rewrite He, Hw in Hatt. destruct_or!; simplify_eq; lia.
    + by apply reaches_from_completed.
  - rewrite (D4 ec) in He by done. by apply reaches_from_entry.
  - by rewrite D6 in Hst.
  - by apply reaches_from_arm.
  - by apply executor_reaches_here.
  - eapply (executor_reaches_step A_exec); [done| |].
    + simpl; unfold exec_advance; rewrite He; reflexivity.
    + by apply reaches_from_write.
  - by apply reaches_from_write.
  - apply reaches_from_recheck; auto. unfold attended, signalled in Hatt.
    rewrite He, D1 in Hatt by done. destruct_or!; simplify_eq; lia.
  - by rewrite D6' in Hst by auto.
  - by rewrite D6' in Hst by auto.
Qed.

(** C21: The eventfd's counter never exceeds the number of producer threads
    plus three, so with fewer than 2^64 - 5 threads no [write_doorbell()],
    whose failure the code ignores, ever fails. *)
Theorem eventfd_counter_bounded n acts (s : Doorbell F) :
  doorbell_run acts (doorbell_init n) = Some s →
  efd_value (efd s) ≤ Z.of_nat n + 3 ∧
  (Z.of_nat n + 3 < eventfd_max → is_Some (efd_write_one (efd s))).
Proof.
  intros Hrun. destruct (doorbell_reach_inv _ _ _ Hrun) as [_ _ _ Hb].
  apply doorbell_run_producers in Hrun. simpl in Hrun. rewrite length_replicate in Hrun.
  unfold wakeups, wakeups_bound, armed_weight in Hb. rewrite Hrun in Hb.
  assert (Hv : efd_value (efd s) ≤ Z.of_nat n + 3).
  { repeat case_match; lia. }
  split; [done|]. intros Hn. destruct (efd_write_ok (efd s)) as (f & -> & _); [lia|]. by eexists.
Qed.

(** C20: Once [stop()] has set [is_stopping] outside of a running handler, no
    interleaving runs the doorbell handler again: items still queued, and
    items pushed later, are not taken. *)
Theorem handler_does_not_run_after_stop n acts acts' (s s' : Doorbell F) :
  doorbell_run acts (doorbell_init n) = Some s →
  stopping s = true → in_handler (exec s) = false →
  doorbell_run acts' s = Some s' →
  in_handler (exec s') = false ∧ (items s ≤ items s')%nat.
Proof.
  intros Hrun Hst Hq Hrun'.
  by destruct (stopped_run acts' s s') as (? & ? & _); [by eapply doorbell_reach_inv|done..].
Qed.

(** C19: A graceful stop does not hang on the doorbell.  Once the cancel
    handler posted by [stop()] has run, then whatever the doorbell was doing
    (about to wait again, a completion already queued, even inside the
    handler) the executor gets, by its own actions, to a state with no
    outstanding wait, and after that no interleaving starts one again, so
    [io_context.run()] can return. *)
Theorem stop_releases_the_wait n acts (s : Doorbell F) :
  doorbell_run acts (doorbell_init n) = Some s → cancelled_once s = true →
  executor_reaches s (λ s', exec s' = Outside ∧ wait s' = No_wait ∧
    ∀ acts' s'', doorbell_run acts' s' = Some s'' → wait s'' = No_wait).
Proof.
  intros Hrun Hc. pose proof (doorbell_reach_inv _ _ _ Hrun) as Hinv.
  assert (Hst : stopping s = true).
  { destruct Hinv as [[_ _ _ _ _ _ _ D7 _] _ _ _].
    destruct (stopping s); [done|]. by destruct D7 as (_ & _ & ?); [|congruence]. }
  eapply executor_reaches_mono; [apply (executor_reaches_inv s at_rest Hinv)|].
  - apply at_rest_reached; [apply Hinv|done..].
  - intros s' [(He' & Hw' & Hst') Hinv']. split_and!; [done|done|]. intros acts' s'' Hrun'.
    destruct (stopped_run acts' s' s'') as (_ & _ & Hw''); [done|done|by rewrite He'|done|auto].
Qed.
End properties.

(** Two producers; the first rings while the executor waits, the second pushes
    while the handler runs and rings into an armed doorbell. *)
Definition race_to_idle : list doorbell_action :=
  [A_push 0; A_ring_exchange 0; A_ring_write 0; A_kernel_read; A_run_completion; A_exec; A_exec;
   A_drain; A_handler_returns false; A_push 1; A_ring_exchange 1; A_exec; A_ring_write 1].

Lemma no_lost_wakeup_witness :
  ∃ s : Doorbell N, doorbell_run race_to_idle (doorbell_init 2) = Some s ∧ items s = 1%nat ∧
    exec s = Outside ∧
    executor_reaches s (λ s', exec s' = Handler_running ∧ items s' = items s).
Proof.
  eexists. split; [vm_compute; reflexivity|]. split; [reflexivity|]. split; [reflexivity|].
  apply (no_lost_wakeup 2 race_to_idle); vm_compute; first [reflexivity|lia].
Defined.

Lemma eventfd_counter_bounded_witness :
  ∃ s : Doorbell N, doorbell_run race_to_idle (doorbell_init 2) = Some s ∧ efd s = 1%N ∧
    efd_value (efd s) ≤ Z.of_nat 2 + 3.
Proof.
  eexists. split; [vm_compute; reflexivity|]. split; [reflexivity|].
  apply (eventfd_counter_bounded 2 race_to_idle). vm_compute. reflexivity.
Defined.

(** [stop()] while the wait's completion is already queued. *)
Definition stop_after_ring : list doorbell_action :=
  [A_push 0; A_ring_exchange 0; A_ring_write 0; A_kernel_read; A_stop_flag; A_stop_post].

Lemma handler_does_not_run_after_stop_witness :
  ∃ s s' : Doorbell N, doorbell_run stop_after_ring (doorbell_init 2) = Some s ∧
    doorbell_run [A_run_completion; A_exec; A_push 1; A_exec] s = Some s' ∧
    in_handler (exec s') = false ∧ (items s ≤ items s')%nat.
Proof.
  eexists _, _. split; [vm_compute; reflexivity|]. split; [vm_compute; reflexivity|].
  eapply (handler_does_not_run_after_stop 2 stop_after_ring
            [A_run_completion; A_exec; A_push 1; A_exec]); vm_compute; reflexivity.
Defined.

Lemma stop_releases_the_wait_witness :
  ∃ s : Doorbell N,
    doorbell_run (stop_after_ring ++ [A_run_cancel; A_exec; A_exec]) (doorbell_init 2) = Some s ∧
    wait s = Completed no_error ∧
    executor_reaches s (λ s', exec s' = Outside ∧ wait s' = No_wait ∧
      ∀ acts' s'', doorbell_run acts' s' = Some s'' → wait s'' = No_wait).
Proof.
  eexists. split; [vm_compute; reflexivity|]. split; [reflexivity|].
  eapply (stop_releases_the_wait 2 (stop_after_ring ++ [A_run_cancel; A_exec; A_exec]));
    vm_compute; reflexivity.
Defined.
