(* ===== verification/Setup.v ===== *)
(** What the constructors set up in libraries: the TLS context of the two Asio
    clients, with [set_ca_certificate], and the global state of libcurl.

    Asio's [ssl::context] is the parameter [SslContext]; [SslContextLaws] is what
    its documentation says of the verification mode and of the trusted
    certificates.  An [error_code] that a constructor ignores is a line on
    [std::cerr]. *)

From S2P Require Import Prelude.

(** * TLS contexts *)

Inductive verify_mode := verify_none | verify_peer.

#[export] Instance verify_mode_eq_dec : EqDecision verify_mode.
Proof. solve_decision. Defined.

Class SslContext := {
  ssl_context : Type;
  tlsv12_client : ssl_context;                       (* ssl::context(tlsv12_client) *)
  set_default_verify_paths : ssl_context → error_code * ssl_context;
  set_verify_mode : verify_mode → ssl_context → error_code * ssl_context;
  load_verify_file : string → ssl_context → error_code * ssl_context;
  error_message : error_code → string;
}.

(** The mode changes only when it is set; certificates are added, or nothing is. *)
Class SslContextLaws `{SslContext} := {
  mode_of : ssl_context → verify_mode;
  trusted_files : ssl_context → list string;
  mode_default_paths c : mode_of (set_default_verify_paths c).2 = mode_of c;
  mode_set m c : is_error (set_verify_mode m c).1 = false → mode_of (set_verify_mode m c).2 = m;
  mode_load f c : mode_of (load_verify_file f c).2 = mode_of c;
  trusted_initially : trusted_files tlsv12_client = [];
  trusted_default_paths c : trusted_files (set_default_verify_paths c).2 = trusted_files c;
  trusted_set_mode m c : trusted_files (set_verify_mode m c).2 = trusted_files c;
  trusted_load f c : trusted_files (load_verify_file f c).2 =
    trusted_files c ++ (if is_error (load_verify_file f c).1 then [] else [f]);
}.

Section tls.
Context `{SslContext}.

(** The context and the lines written by the constructor of the class [name]. *)
Definition complain (name what : string) (ec : error_code) : list string :=
  if is_error ec then [name +:+ ": failed to " +:+ what +:+ ": " +:+ error_message ec] else [].

Definition construct_context (name : string) : ssl_context * list string :=
  let '(ec, c) := set_default_verify_paths tlsv12_client in
  let log := complain name "load default CA paths" ec in
  let '(ec, c) := set_verify_mode verify_peer c in
  (c, log ++ complain name "set verify mode" ec).

Definition HttpsClientAsync_context : ssl_context * list string := construct_context "HttpsClientAsync".
Definition SecureWebSocketClient_context : ssl_context * list string :=
  construct_context "SecureWebSocketClient".

Definition set_ca_certificate (ca_certificate_file : string) (c : ssl_context) : error_code * ssl_context :=
  if bool_decide (ca_certificate_file = "") then (no_error, c)
  else load_verify_file ca_certificate_file c.

(** The two classes have the same code. *)
Definition SecureWebSocketClient_set_ca_certificate (ca_certificate_file : string) (c : ssl_context) :
    error_code * ssl_context := set_ca_certificate ca_certificate_file c.

(** Calls of [set_ca_certificate], with what they return. *)
Fixpoint set_ca_certificates (files : list string) (c : ssl_context) : list error_code * ssl_context :=
  match files with
  | [] => ([], c)
  | f :: files =>
      let '(ec, c) := set_ca_certificate f c in
      let '(ecs, c) := set_ca_certificates files c in (ec :: ecs, c)
  end.

Context `{!SslContextLaws}.

Lemma set_ca_certificate_mode f c : mode_of (set_ca_certificate f c).2 = mode_of c.
Proof. unfold set_ca_certificate. case_bool_decide; [done|apply mode_load]. Qed.

Lemma set_ca_certificates_mode files c : mode_of (set_ca_certificates files c).2 = mode_of c.
Proof.
  revert c. induction files as [|f files IH]; intros c; [done|]. simpl.
  assert (Hm := set_ca_certificate_mode f c). destruct (set_ca_certificate f c) as [ec c1].
  specialize (IH c1). destruct (set_ca_certificates files c1). simpl in *. congruence.
Qed.

(** The files that were named and loaded, by what the calls returned. *)
Definition loaded (files : list string) (ecs : list error_code) : list string :=
  omap (λ fe : string * error_code,
    if bool_decide (fe.1 = "") || is_error fe.2 then None else Some fe.1) (zip files ecs).

Lemma set_ca_certificates_trusted files c :
  trusted_files (set_ca_certificates files c).2 =
    trusted_files c ++ loaded files (set_ca_certificates files c).1.
Proof.
  revert c. induction files as [|f files IH]; intros c; [by rewrite app_nil_r|]. simpl.
  assert (trusted_files (set_ca_certificate f c).2 =
    trusted_files c ++ loaded [f] [(set_ca_certificate f c).1]) as Hf.
  { unfold set_ca_certificate, loaded. simpl. case_bool_decide; simpl; [by rewrite app_nil_r|].
    rewrite trusted_load. by destruct (is_error _). }
  destruct (set_ca_certificate f c) as [ec c1]. specialize (IH c1).
  destruct (set_ca_certificates files c1) as [ecs c2]. simpl in *. rewrite IH, Hf, <- app_assoc. f_equal.
  unfold loaded. simpl. by destruct (_ || _).
Qed.

(** A client's context verifies its peers, unless the constructor said that it
    could not be told to: no CA file changes that.  The files it trusts are
    those for which [set_ca_certificate] returned no error; an empty name is
    ignored. *)
Theorem tls_context_verifies_peers name files :
  let '(c, log) := construct_context name in
  let '(ecs, c') := set_ca_certificates files c in
  (mode_of c' = verify_peer ∨ ∃ ec, is_error ec = true ∧
     name +:+ ": failed to " +:+ "set verify mode" +:+ ": " +:+ error_message ec ∈ log) ∧
  trusted_files c' = loaded files ecs.
Proof.
  unfold construct_context. assert (Ht := trusted_default_paths tlsv12_client).
  destruct (set_default_verify_paths tlsv12_client) as [ec0 c0]. simpl in Ht.
  assert (Hm := mode_set verify_peer c0). assert (Ht1 := trusted_set_mode verify_peer c0).
  destruct (set_verify_mode verify_peer c0) as [ec1 c1]. simpl in *.
  assert (Hms := set_ca_certificates_mode files c1). assert (Hts := set_ca_certificates_trusted files c1).
  destruct (set_ca_certificates files c1) as [ecs c2]. simpl in *. split.
  - destruct (is_error ec1) eqn:E; [right|left; rewrite Hms; auto]. exists ec1. split; [done|].
    unfold complain. rewrite E. apply elem_of_app. right. by apply list_elem_of_singleton.
  - by rewrite Hts, Ht1, Ht, trusted_initially.
Qed.
End tls.

(** A context that trusts any file but one that is missing. *)
Module TlsDemo.
#[export] Instance context : SslContext := {|
  ssl_context := verify_mode * list string;
  tlsv12_client := (verify_none, []);
  set_default_verify_paths c := (no_error, c);
  set_verify_mode m c := (no_error, (m, c.2));
  load_verify_file f c :=
    if bool_decide (f = "missing.pem") then (make_error_code invalid_argument, c)
    else (no_error, (c.1, c.2 ++ [f]));
  error_message _ := "";
|}.

#[export] Instance context_laws : SslContextLaws.
Proof.
  refine {| mode_of := fst; trusted_files := snd |}; try done.
  - intros f c. simpl. by case_bool_decide.
  - intros f c. simpl. case_bool_decide; simpl; [by rewrite app_nil_r|done].
Defined.

Example tls_demo : set_ca_certificates ["ca.pem"; ""; "missing.pem"] HttpsClientAsync_context.1 =
  ([no_error; no_error; make_error_code invalid_argument], (verify_peer, ["ca.pem"])).
Proof. reflexivity. Qed.
End TlsDemo.

(** * libcurl *)

Inductive curl_global_call := Curl_global_init | Curl_multi_init | Curl_global_cleanup.

(** The process: the [once_flag], whether the static [cleanup] was constructed,
    and the calls made. *)
Record Process := { once : bool; cleanup : bool; curl_calls : list curl_global_call }.

#[export] Instance process_settable : Settable Process := λ p, Build_Process (once p) (cleanup p) (curl_calls p).

Definition Process_init : Process := {| once := false; cleanup := false; curl_calls := [] |}.

Definition curl_call (c : curl_global_call) : M Process unit :=
  modify (λ p, p <| curl_calls ::= λ l, l ++ [c] |>).

Definition ensure_curl_global_init : M Process unit :=
  let! done := gets once in
  if (done : bool) then ret tt else
  modify (λ p, p <| once := true |>) ;;;
  curl_call Curl_global_init ;;;
  modify (λ p, p <| cleanup := true |>).

(** The start of [HttpsMultiplexClient]'s constructor. *)
Definition construct_multi : M Process unit := ensure_curl_global_init ;;; curl_call Curl_multi_init.

(** The static objects are destroyed. *)
Definition exit_process : M Process unit :=
  let! registered := gets cleanup in
  when registered (curl_call Curl_global_cleanup).

(** However many clients are made, libcurl is initialised once, before the
    first multi handle, and cleaned up once, at the end; a process without
    clients does not touch it. *)
Theorem curl_is_initialised_once n :
  wp (for_each (λ _, construct_multi) (seq 0 n) ;;; exit_process) (λ _ p,
    curl_calls p = match n with
      | O => []
      | _ => [Curl_global_init] ++ replicate n Curl_multi_init ++ [Curl_global_cleanup]
      end) Process_init.
Proof.
  assert (∀ m k l, wp (for_each (λ _, construct_multi) (seq k m)) (λ _ p,
    p = {| once := true; cleanup := true; curl_calls := l ++ replicate m Curl_multi_init |})
    {| once := true; cleanup := true; curl_calls := l |}) as Hmore.
  { induction m as [|m IH]; intros k l; simpl; [unfold wp; simpl; by rewrite app_nil_r|].
    apply wp_bind. unfold wp at 1. simpl. eapply wp_mono; [apply IH|]. intros [] p ->. by rewrite <- app_assoc. }
  apply wp_bind. destruct n as [|n]; [done|]. simpl. apply wp_bind. unfold wp at 1. simpl.
  eapply wp_mono; [apply Hmore|]. intros [] p ->. reflexivity.
Qed.
