(* ===== verification/HttpsClientAsync.v ===== *)
(** The one-request-at-a-time HTTPS client of
    [cpp_components/https_client_async/https_client_async.cpp].

    Every member function is a computation on the [World]: the client's fields,
    the tasks posted to the executor, the asynchronous operations whose
    completion has not been delivered, and the trace of what the client asks of
    Asio, Beast and OpenSSL and of the callbacks it makes.  Beast's message
    types are the parameter [BeastHttp]; what a library call returns is an
    argument.  The executor may run the posted tasks, and the libraries may
    complete the pending operations, in any order and with any error; a pending
    operation completes at most once.  A callback of the user may call the
    client again: [react] is an arbitrary function of everything that happened. *)

From S2P Require Import Prelude.

(** * Data *)

(** [HttpMethod]; an enumeration object can hold a value with no enumerator. *)
Module HttpMethod.
Inductive t :=
  | get | head | post | put | del | patch
  | other (n : Z).
End HttpMethod.

Record HttpHeader := { name : string; value : string }.

Record HttpResponse := {
  status_code : Z;
  body : string;
  headers : list HttpHeader;
}.

Definition empty_response : HttpResponse := {| status_code := 0; body := ""; headers := [] |}.

Module RequestState.
Inductive t := idle | in_progress | cancelling.
End RequestState.

#[export] Instance request_state_eq_dec : EqDecision RequestState.t.
Proof. solve_decision. Defined.

(** Beast's request and response messages, as the client uses them. *)
Class BeastHttp := {
  verb : Type;
  verb_get : verb; verb_head : verb; verb_post : verb;
  verb_put : verb; verb_delete : verb; verb_patch : verb;
  request : Type;
  request_empty : request;
  request_version : Z → request → request;
  request_method : verb → request → request;
  request_target : string → request → request;
  request_set : string → string → request → request;
  request_body : string → request → request;
  request_prepare_payload : request → request;
  response : Type;
  response_empty : response;
  response_result_int : response → Z;
  response_body : response → string;
  response_fields : response → list (string * string);
}.

(** A user callback; an empty [std::function] is [None]. *)
Definition handler := nat.

(** The stages of a request, by the operation that is pending. *)
Inductive stage := Resolve | Connect | Handshake | Write | Read.

#[export] Instance stage_eq_dec : EqDecision stage.
Proof. solve_decision. Defined.

(** A pending operation: its stage, the generation that its handler captured and
    the stream object it runs on (none for the resolver's). *)
Record operation := { op_stage : stage; op_generation : Z; op_stream : option nat }.

Section data.
Context `{BeastHttp}.

Record Client := {
  stream : option nat;              (* which stream object the unique_ptr owns *)
  read_buffer : string;
  http_request : request;
  http_response : response;
  response_handler : option handler;
  host : string;
  timeout : Z;
  state : RequestState.t;
  request_generation : Z;
}.

Record request_args := {
  ra_method : HttpMethod.t;
  ra_host : string;
  ra_port : string;
  ra_target : string;
  ra_body : string;
  ra_headers : list HttpHeader;
  ra_timeout : Z;
  ra_handler : option handler;
}.

(** The lambdas that [request] and [cancel] post. *)
Inductive task :=
  | Task_request (args : request_args)
  | Task_cancel.

Inductive event :=
  | Ev_request (h : option handler)     (* request() posted its task *)
  | Ev_cancel                           (* cancel() posted its task *)
  | Ev_callback (h : handler) (ec : error_code) (r : HttpResponse)
  | Ev_async_resolve (host port : string)
  | Ev_async_connect (s : nat)
  | Ev_async_handshake (s : nat)
  | Ev_async_write (s : nat) (r : request)
  | Ev_async_read (s : nat)
  | Ev_resolver_cancel
  | Ev_stream_cancel (s : nat)
  | Ev_socket_close (s : nat)
  | Ev_expires_after (s : nat) (timeout : Z)
  | Ev_expires_never (s : nat)
  | Ev_set_sni (s : nat) (host : string)
  | Ev_set_verify (s : nat) (host : string).

Record World := {
  client : Client;
  expired : bool;                       (* no shared_ptr owns the client *)
  next_stream : nat;
  posted : list task;
  pending : list operation;
  trace : list event;
}.

End data.

#[export] Instance client_settable `{BeastHttp} : Settable Client := λ c,
  Build_Client (stream c) (read_buffer c) (http_request c) (http_response c) (response_handler c)
    (host c) (timeout c) (state c) (request_generation c).
#[export] Instance world_settable `{BeastHttp} : Settable World := λ w,
  Build_World (client w) (expired w) (next_stream w) (posted w) (pending w) (trace w).

(** What the synchronous library calls of one handler return. *)
Record sync_env := {
  sni_ok : bool;                        (* SSL_set_tlsext_host_name *)
  sni_error : Z;                        (* ERR_get_error *)
  verify_ec : error_code;               (* set_verify_callback *)
}.

(** How a pending operation completes: its error, and for a read the message
    and the buffered bytes that Beast leaves in the client. *)
Record completion `{BeastHttp} := {
  c_ec : error_code;
  c_response : response;
  c_buffer : string;
  c_env : sync_env;
}.

(** The API calls that a user, or a user's callback, makes. *)
Inductive api_call :=
  | Api_request (args : request_args)
  | Api_get (host port target : string) (timeout : Z) (h : option handler)
  | Api_post (host port target body : string) (timeout : Z) (h : option handler)
  | Api_cancel.

(** * The client *)

Definition to_beast_verb `{BeastHttp} (m : HttpMethod.t) : verb :=
  match m with
  | HttpMethod.get => verb_get
  | HttpMethod.head => verb_head
  | HttpMethod.post => verb_post
  | HttpMethod.put => verb_put
  | HttpMethod.del => verb_delete
  | HttpMethod.patch => verb_patch
  | HttpMethod.other _ => verb_get
  end.

(** What Beast documents of its messages, as far as the header fields go:
    [set] replaces the fields of a name (compared without case), the other
    setters leave the fields alone, and [prepare_payload] sets those that frame
    the body. *)
Class BeastHttpLaws `{BeastHttp} := {
  field_name_eq : string → string → bool;
  framing : string → bool;
  request_field : request → string → option string;
  field_empty m : request_field request_empty m = None;
  field_version n r m : request_field (request_version n r) m = request_field r m;
  field_method v r m : request_field (request_method v r) m = request_field r m;
  field_target t r m : request_field (request_target t r) m = request_field r m;
  field_body b r m : request_field (request_body b r) m = request_field r m;
  field_set n v r m : request_field (request_set n v r) m =
    if field_name_eq n m then Some v else request_field r m;
  field_prepare_payload r m :
    framing m = false → request_field (request_prepare_payload r) m = request_field r m;
}.

Section client.
Context `{BeastHttp}.
Context (react : list event → handler → error_code → HttpResponse → list api_call).

Definition Client_init : Client := {|
  stream := None; read_buffer := ""; http_request := request_empty;
  http_response := response_empty; response_handler := None; host := ""; timeout := 0;
  state := RequestState.idle; request_generation := 0;
|}.

Definition World_init : World := {|
  client := Client_init; expired := false; next_stream := 0; posted := []; pending := [];
  trace := [];
|}.

Definition log (e : event) : M World unit := modify (λ w, w <| trace ::= λ l, l ++ [e] |>).
Definition getc {A} (f : Client → A) : M World A := gets (λ w, f (client w)).
Definition modc (f : Client → Client) : M World unit := modify (λ w, w <| client ::= f |>).

Definition shared_from_this : M World unit :=
  let! gone := gets expired in
  if (gone : bool) then throw BadWeakPtr else ret tt.

Definition executor_post (t : task) : M World unit := modify (λ w, w <| posted ::= λ l, l ++ [t] |>).

(** Initiate an asynchronous operation whose handler captures [generation]. *)
Definition start_operation (st : stage) (generation : Z) (s : option nat) : M World unit :=
  modify (λ w, w <| pending ::= λ l,
    l ++ [{| op_stage := st; op_generation := generation; op_stream := s |}] |>).

(** [*stream] *)
Definition deref_stream : M World nat :=
  let! s := getc stream in
  require NullDeref s.

(** ** The API, callable from any thread *)

Definition request_ (args : request_args) : M World unit :=
  shared_from_this ;;;
  log (Ev_request (ra_handler args)) ;;;
  executor_post (Task_request args).

Definition get (host port target : string) (timeout : Z) (h : option handler) : M World unit :=
  request_ {| ra_method := HttpMethod.get; ra_host := host; ra_port := port; ra_target := target;
             ra_body := ""; ra_headers := []; ra_timeout := timeout; ra_handler := h |}.

Definition post (host port target body : string) (timeout : Z) (h : option handler) : M World unit :=
  request_ {| ra_method := HttpMethod.post; ra_host := host; ra_port := port; ra_target := target;
             ra_body := body; ra_headers := []; ra_timeout := timeout; ra_handler := h |}.

Definition cancel : M World unit :=
  shared_from_this ;;;
  log Ev_cancel ;;;
  executor_post Task_cancel.

Definition is_busy (w : World) : bool := bool_decide (state (client w) ≠ RequestState.idle).

Definition run_api (a : api_call) : M World unit :=
  match a with
  | Api_request args => request_ args
  | Api_get host port target timeout h => get host port target timeout h
  | Api_post host port target body timeout h => post host port target body timeout h
  | Api_cancel => cancel
  end.

(** [if (handler) handler(ec, response)] *)
Definition invoke (h : option handler) (ec : error_code) (r : HttpResponse) : M World unit :=
  match h with
  | None => ret tt
  | Some h =>
      log (Ev_callback h ec r) ;;;
      let! t := gets trace in
      for_each run_api (react t h ec r)
  end.

(** ** Helpers *)

Definition set_state (new_state : RequestState.t) : M World unit :=
  modc (λ c, c <| state := new_state |>).

Definition is_current_request (generation : Z) : M World bool :=
  let! st := getc state in
  let! g := getc request_generation in
  ret (bool_decide (st = RequestState.in_progress) && (generation =? g)).

Definition destroy_stream : M World unit := modc (λ c, c <| stream := None |>).

Definition create_stream : M World unit :=
  destroy_stream ;;;
  modc (λ c, c <| read_buffer := "" |>) ;;;
  let! s := gets next_stream in
  modify (λ w, w <| next_stream := S s |>) ;;;
  modc (λ c, c <| stream := Some s |>).

Definition cancel_pending_operations : M World unit :=
  log Ev_resolver_cancel ;;;
  let! s := getc stream in
  match s with
  | Some s => log (Ev_stream_cancel s)
  | None => ret tt
  end.

Definition close_socket : M World unit :=
  let! s := getc stream in
  match s with
  | Some s => log (Ev_socket_close s)
  | None => ret tt
  end.

Definition apply_timeout : M World unit :=
  let! s := getc stream in
  let! t := getc timeout in
  match s with
  | Some s => if t <=? 0 then ret tt else log (Ev_expires_after s t)
  | None => ret tt
  end.

Definition complete_request (ec : error_code) (r : HttpResponse) : M World unit :=
  let! h := getc response_handler in
  modc (λ c, c <| response_handler := None |>) ;;;
  modc (λ c, c <| host := "" |>) ;;;
  modc (λ c, c <| timeout := 0 |>) ;;;
  modc (λ c, c <| http_request := request_empty |>) ;;;
  modc (λ c, c <| http_response := response_empty |>) ;;;
  set_state RequestState.idle ;;;
  invoke h ec r.

Definition fail_request (ec : error_code) : M World unit :=
  cancel_pending_operations ;;;
  close_socket ;;;
  destroy_stream ;;;
  complete_request ec empty_response.

(** The message that [do_request] builds. *)
Definition build_request (args : request_args) : request :=
  let r := request_version 11 request_empty in
  let r := request_method (to_beast_verb (ra_method args)) r in
  let r := request_target (ra_target args) r in
  let r := request_set "Host" (ra_host args) r in
  let r := request_set "User-Agent" "https-client" r in
  let r := fold_left (λ r h, request_set (name h) (value h) r) (ra_headers args) r in
  request_prepare_payload (request_body (ra_body args) r).

Definition do_request (args : request_args) : M World unit :=
  let! st := getc state in
  if negb (bool_decide (st = RequestState.idle)) then
    invoke (ra_handler args) (make_error_code operation_in_progress) empty_response
  else
    set_state RequestState.in_progress ;;;
    modc (λ c, c <| request_generation ::= u64_succ |>) ;;;
    let! generation := getc request_generation in
    modc (λ c, c <| host := ra_host args |>) ;;;
    modc (λ c, c <| timeout := ra_timeout args |>) ;;;
    modc (λ c, c <| response_handler := ra_handler args |>) ;;;
    modc (λ c, c <| http_request := build_request args |>) ;;;
    modc (λ c, c <| http_response := response_empty |>) ;;;
    create_stream ;;;
    shared_from_this ;;;
    let! host := getc host in
    log (Ev_async_resolve host (ra_port args)) ;;;
    start_operation Resolve generation None.

Definition do_cancel : M World unit :=
  let! st := getc state in
  if bool_decide (st = RequestState.idle) || bool_decide (st = RequestState.cancelling) then ret tt
  else
    set_state RequestState.cancelling ;;;
    modc (λ c, c <| request_generation ::= u64_succ |>) ;;;
    cancel_pending_operations ;;;
    close_socket ;;;
    destroy_stream ;;;
    complete_request (make_error_code operation_canceled) empty_response.

(** The guard at the head of every completion handler. *)
Definition stale (generation : Z) : M World bool :=
  let! current := is_current_request generation in
  let! s := getc stream in
  ret (negb current || bool_decide (s = None)).

Definition handle_resolve (generation : Z) (ec : error_code) : M World unit :=
  let! skip := stale generation in
  if (skip : bool) then ret tt else
  if is_error ec then fail_request ec else
  apply_timeout ;;;
  shared_from_this ;;;
  let! s := deref_stream in
  log (Ev_async_connect s) ;;;
  start_operation Connect generation (Some s).

Definition handle_connect (env : sync_env) (generation : Z) (ec : error_code) : M World unit :=
  let! skip := stale generation in
  if (skip : bool) then ret tt else
  if is_error ec then fail_request ec else
  apply_timeout ;;;
  let! s := deref_stream in
  let! host := getc host in
  log (Ev_set_sni s host) ;;;
  if negb (sni_ok env) then fail_request (ErrorCode (sni_error env) ssl_category) else
  log (Ev_set_verify s host) ;;;
  if is_error (verify_ec env) then fail_request (verify_ec env) else
  shared_from_this ;;;
  log (Ev_async_handshake s) ;;;
  start_operation Handshake generation (Some s).

Definition handle_ssl_handshake (generation : Z) (ec : error_code) : M World unit :=
  let! skip := stale generation in
  if (skip : bool) then ret tt else
  if is_error ec then fail_request ec else
  apply_timeout ;;;
  shared_from_this ;;;
  let! s := deref_stream in
  let! r := getc http_request in
  log (Ev_async_write s r) ;;;
  start_operation Write generation (Some s).

Definition handle_write (generation : Z) (ec : error_code) : M World unit :=
  let! skip := stale generation in
  if (skip : bool) then ret tt else
  if is_error ec then fail_request ec else
  apply_timeout ;;;
  shared_from_this ;;;
  let! s := deref_stream in
  log (Ev_async_read s) ;;;
  start_operation Read generation (Some s).

(** The [HttpResponse] that [handle_read] makes of Beast's message. *)
Definition make_response (r : response) : HttpResponse := {|
  status_code := response_result_int r;
  body := response_body r;
  headers := map (λ f, {| name := fst f; value := snd f |}) (response_fields r);
|}.

Definition handle_read (generation : Z) (ec : error_code) : M World unit :=
  let! skip := stale generation in
  if (skip : bool) then ret tt else
  if is_error ec then fail_request ec else
  let! m := getc http_response in
  let! s := deref_stream in
  log (Ev_expires_never s) ;;;
  close_socket ;;;
  destroy_stream ;;;
  complete_request no_error (make_response m).

(** [~HttpsClientAsync()]: the last [shared_ptr] is gone. *)
Definition destroy : M World unit :=
  modify (λ w, w <| expired := true |>) ;;;
  do_cancel.

(** ** Events of the executor *)

Definition run_task (t : task) : M World unit :=
  match t with
  | Task_request args => do_request args
  | Task_cancel => do_cancel
  end.

(** The libraries complete [op]: a read first leaves the message in the client. *)
Definition complete_operation (op : operation) (c : completion) : M World unit :=
  match op_stage op with
  | Resolve => handle_resolve (op_generation op) (c_ec c)
  | Connect => handle_connect (c_env c) (op_generation op) (c_ec c)
  | Handshake => handle_ssl_handshake (op_generation op) (c_ec c)
  | Write => handle_write (op_generation op) (c_ec c)
  | Read =>
      modc (λ cl, cl <| http_response := c_response c |> <| read_buffer := c_buffer c |>) ;;;
      handle_read (op_generation op) (c_ec c)
  end.

Inductive action :=
  | Act_api (a : api_call)                       (* some thread calls the client *)
  | Act_task (i : nat)                           (* the executor runs a posted task *)
  | Act_complete (i : nat) (c : completion).     (* a pending operation completes *)

Definition step (a : action) : M World unit :=
  match a with
  | Act_api a => run_api a
  | Act_task i =>
      let! ts := gets posted in
      match ts !! i with
      | None => ret tt
      | Some t => modify (λ w, w <| posted ::= delete i |>) ;;; run_task t
      end
  | Act_complete i c =>
      let! ops := gets pending in
      match ops !! i with
      | None => ret tt
      | Some op => modify (λ w, w <| pending ::= delete i |>) ;;; complete_operation op c
      end
  end.

Definition steps : list action → M World unit := run step.


(** * Specification

    What one completion does to a request, in one place: fail it, go on to the
    next stage, or finish it. *)

Inductive outcome :=
  | Out_fail (ec : error_code)
  | Out_next (st : stage)
  | Out_done (r : HttpResponse).

Definition stage_outcome (st : stage) (c : completion) : outcome :=
  if is_error (c_ec c) then Out_fail (c_ec c) else
  match st with
  | Resolve => Out_next Connect
  | Connect =>
      if negb (sni_ok (c_env c)) then Out_fail (ErrorCode (sni_error (c_env c)) ssl_category)
      else if is_error (verify_ec (c_env c)) then Out_fail (verify_ec (c_env c))
      else Out_next Handshake
  | Handshake => Out_next Write
  | Write => Out_next Read
  | Read => Out_done (make_response (c_response c))
  end.

Definition timeout_events (c : Client) (s : nat) : list event :=
  if timeout c <=? 0 then [] else [Ev_expires_after s (timeout c)].

Definition teardown_events (s : nat) : list event :=
  [Ev_resolver_cancel; Ev_stream_cancel s; Ev_socket_close s].

(** What a stage asks of the libraries before its outcome. *)
Definition stage_events (st : stage) (c : completion) (cl : Client) (s : nat) : list event :=
  if is_error (c_ec c) then [] else
  match st with
  | Resolve => timeout_events cl s ++ [Ev_async_connect s]
  | Connect =>
      timeout_events cl s ++ [Ev_set_sni s (host cl)] ++
      (if negb (sni_ok (c_env c)) then []
       else [Ev_set_verify s (host cl)] ++
         (if is_error (verify_ec (c_env c)) then [] else [Ev_async_handshake s]))
  | Handshake => timeout_events cl s ++ [Ev_async_write s (http_request cl)]
  | Write => timeout_events cl s ++ [Ev_async_read s]
  | Read => [Ev_expires_never s; Ev_socket_close s]
  end.

Definition logs (es : list event) (w : World) : World := w <| trace ::= λ t, t ++ es |>.

Definition api_args (a : api_call) : option request_args :=
  match a with
  | Api_request args => Some args
  | Api_get host port target timeout h =>
      Some {| ra_method := HttpMethod.get; ra_host := host; ra_port := port; ra_target := target;
              ra_body := ""; ra_headers := []; ra_timeout := timeout; ra_handler := h |}
  | Api_post host port target body timeout h =>
      Some {| ra_method := HttpMethod.post; ra_host := host; ra_port := port; ra_target := target;
              ra_body := body; ra_headers := []; ra_timeout := timeout; ra_handler := h |}
  | Api_cancel => None
  end.

Definition api_task (a : api_call) : task :=
  match api_args a with Some args => Task_request args | None => Task_cancel end.

Definition api_event (a : api_call) : event :=
  match api_args a with Some args => Ev_request (ra_handler args) | None => Ev_cancel end.

(** The world after a user made the calls [l]. *)
Definition called (l : list api_call) (w : World) : World :=
  (logs (map api_event l) w) <| posted ::= λ ts, ts ++ map api_task l |>.

(** The world after a callback. *)
Definition invoked (h : option handler) (ec : error_code) (r : HttpResponse) (w : World) : World :=
  match h with
  | None => w
  | Some h =>
      let w := logs [Ev_callback h ec r] w in
      called (react (trace w) h ec r) w
  end.

Definition reset_client (c : Client) : Client :=
  c <| response_handler := None |> <| host := "" |> <| timeout := 0 |>
    <| http_request := request_empty |> <| http_response := response_empty |>
    <| state := RequestState.idle |>.

(** The world after the request ended with [ec] and [r]. *)
Definition completed (ec : error_code) (r : HttpResponse) (w : World) : World :=
  invoked (response_handler (client w)) ec r (w <| client ::= reset_client |>).

(** A read leaves its message in the client. *)
Definition delivered (op : operation) (c : completion) (w : World) : World :=
  if decide (op_stage op = Read) then
    w <| client ::= λ cl, cl <| http_response := c_response c |> <| read_buffer := c_buffer c |> |>
  else w.

Definition stage_result (op : operation) (c : completion) (s : nat) (w : World) : World :=
  let w := logs (stage_events (op_stage op) c (client w) s) (delivered op c w) in
  match stage_outcome (op_stage op) c with
  | Out_next st =>
      w <| pending ::= λ l,
        l ++ [{| op_stage := st; op_generation := op_generation op; op_stream := Some s |}] |>
  | Out_fail ec =>
      completed ec empty_response
        ((logs (teardown_events s) w) <| client ::= λ c, c <| stream := None |> |>)
  | Out_done r => completed no_error r (w <| client ::= λ c, c <| stream := None |> |>)
  end.

(** The world after an accepted request was started. *)
Definition started (args : request_args) (w : World) : World :=
  let g := u64_succ (request_generation (client w)) in
  (logs [Ev_async_resolve (ra_host args) (ra_port args)] w)
    <| client ::= λ c, c <| state := RequestState.in_progress |> <| request_generation := g |>
         <| host := ra_host args |> <| timeout := ra_timeout args |>
         <| response_handler := ra_handler args |> <| http_request := build_request args |>
         <| http_response := response_empty |> <| read_buffer := "" |>
         <| stream := Some (next_stream w) |> |>
    <| next_stream ::= S |>
    <| pending ::= λ l, l ++ [{| op_stage := Resolve; op_generation := g; op_stream := None |}] |>.

(** The world after a request was cancelled. *)
Definition cancelled (s : nat) (w : World) : World :=
  completed (make_error_code operation_canceled) empty_response
    ((logs (teardown_events s) w)
      <| client ::= λ c, c <| stream := None |> <| request_generation ::= u64_succ |> |>).

Definition is_current (c : Client) (op : operation) : bool :=
  bool_decide (state c = RequestState.in_progress) && (op_generation op =? request_generation c).

(** ** Every operation computes its specification *)

Lemma logs_logs es es' w : logs es' (logs es w) = logs (es ++ es') w.
Proof. destruct w. unfold logs. simpl. by rewrite <- app_assoc. Qed.

Lemma run_api_eq a w : expired w = false → run_api a w = Ok (tt, called [a] w).
Proof. destruct w; simpl; intros ->. by destruct a. Qed.

Lemma called_app l l' w : called l' (called l w) = called (l ++ l') w.
Proof.
  destruct w. unfold called, logs. simpl. by rewrite !map_app, <- !app_assoc.
Qed.

Lemma run_apis_eq l w : expired w = false → for_each run_api l w = Ok (tt, called l w).
Proof.
  revert w. induction l as [|a l IH]; intros w Hw; simpl.
  - destruct w. unfold called, logs, ret. simpl. by rewrite !app_nil_r.
  - unfold bind. rewrite run_api_eq, IH by (by destruct w). by rewrite called_app.
Qed.

Lemma invoke_eq h ec r w : expired w = false → invoke h ec r w = Ok (tt, invoked h ec r w).
Proof.
  intros Hw. destruct h as [h|]; [|done]. unfold invoke, invoked, bind, log, modify, gets.
  by rewrite run_apis_eq by (by destruct w).
Qed.

Lemma complete_request_eq ec r w :
  expired w = false → complete_request ec r w = Ok (tt, completed ec r w).
Proof.
  intros Hw. destruct w as [[] ? ? ? ? ?]. simpl in *. subst.
  unfold complete_request, bind, set_state. simpl. by rewrite invoke_eq by done.
Qed.

Lemma fail_request_eq ec s w :
  expired w = false → stream (client w) = Some s →
  fail_request ec w = Ok (tt, completed ec empty_response
    ((logs (teardown_events s) w) <| client ::= λ c, c <| stream := None |> |>)).
Proof.
  intros Hw Hs. destruct w as [[] ? ? ? ? ?]. simpl in *. subst.
  unfold fail_request, bind. simpl.
  unfold logs, teardown_events. simpl.
  rewrite complete_request_eq by done. by rewrite <- !app_assoc.
Qed.

(** Compare two worlds field by field. *)
Ltac same_world :=
  unfold logs; simpl; rewrite <- ?app_assoc; simpl; rewrite ?app_nil_r; reflexivity.

Lemma do_request_busy args w :
  expired w = false → state (client w) ≠ RequestState.idle →
  do_request args w =
    Ok (tt, invoked (ra_handler args) (make_error_code operation_in_progress) empty_response w).
Proof.
  intros Hw Hs. unfold do_request, bind, getc, gets.
  rewrite bool_decide_false by done. simpl. by apply invoke_eq.
Qed.

Lemma do_request_idle args w :
  expired w = false → state (client w) = RequestState.idle →
  do_request args w = Ok (tt, started args w).
Proof.
  intros Hw Hs. destruct w as [[] ? ? ? ? ?]. simpl in *. subst. reflexivity.
Qed.

Lemma do_cancel_idle w :
  state (client w) = RequestState.idle → do_cancel w = Ok (tt, w).
Proof.
  intros Hs. destruct w as [[] ? ? ? ? ?]. simpl in *. by subst.
Qed.

Lemma do_cancel_in_progress s w :
  expired w = false → state (client w) = RequestState.in_progress → stream (client w) = Some s →
  do_cancel w = Ok (tt, cancelled s w).
Proof.
  intros Hw Hst Hs. destruct w as [[] ? ? ? ? ?]. simpl in *. subst.
  unfold do_cancel, bind. simpl. rewrite complete_request_eq by done.
  unfold cancelled, completed, logs, teardown_events, reset_client. simpl.
  by rewrite <- !app_assoc.
Qed.

(** A completion that is not for the current request does nothing, except that
    a read has left its bytes in the client. *)
Lemma complete_stale op c w :
  is_current (client w) op = false →
  complete_operation op c w = Ok (tt, delivered op c w).
Proof.
  unfold is_current. intros Hc. destruct w as [[] ? ? ? ? ?], op as [[] g os];
    unfold complete_operation, handle_resolve, handle_connect, handle_ssl_handshake, handle_write,
      handle_read, stale, is_current_request, bind, delivered;
    simpl in *; by rewrite Hc.
Qed.

(** A completion of the current request has the outcome of its stage. *)
Lemma complete_current op c s w :
  expired w = false → stream (client w) = Some s → is_current (client w) op = true →
  complete_operation op c w = Ok (tt, stage_result op c s w).
Proof.
  unfold is_current. intros Hw Hs Hc. destruct w as [[] ? ? ? ? ?], op as [st g os], c as [ec resp buf env].
  simpl in *. subst.
  destruct st;
    unfold complete_operation, handle_resolve, handle_connect, handle_ssl_handshake, handle_write,
      handle_read, stale, is_current_request, bind, apply_timeout, stage_result, stage_outcome,
      stage_events, timeout_events, delivered, bind; simpl; rewrite Hc; simpl;
    split_ifs; rewrite ?(fail_request_eq _ s), ?complete_request_eq by done; try same_world.
Qed.

(** * Invariant *)

Definition is_request_of (h : handler) (e : event) : bool :=
  match e with Ev_request (Some h') => bool_decide (h = h') | _ => false end.
Definition is_callback_of (h : handler) (e : event) : bool :=
  match e with Ev_callback h' _ _ => bool_decide (h = h') | _ => false end.
Definition is_task_of (h : handler) (t : task) : bool :=
  match t with
  | Task_request args => bool_decide (ra_handler args = Some h)
  | Task_cancel => false
  end.

(** Requests made with, callbacks made to, and requests not yet started with [h]. *)
Definition requests (h : handler) (w : World) : nat := count (is_request_of h) (trace w).
Definition callbacks (h : handler) (w : World) : nat := count (is_callback_of h) (trace w).
Definition queued (h : handler) (w : World) : nat := count (is_task_of h) (posted w).
Definition outstanding (h : handler) (w : World) : nat :=
  if bool_decide (response_handler (client w) = Some h) then 1 else 0.

Definition stream_of_stage (st : stage) (s : nat) : option nat :=
  match st with Resolve => None | _ => Some s end.

(** What holds between two events of the executor, after [n] of them. *)
Record Core (n : nat) (w : World) : Prop := {
  core_alive : expired w = false;
  core_generation : 0 ≤ request_generation (client w) ≤ Z.of_nat n;
  core_pending : ∀ op, op ∈ pending w → op_generation op ≤ request_generation (client w);
  core_state :
    match state (client w) with
    | RequestState.idle => response_handler (client w) = None ∧ stream (client w) = None
    | RequestState.in_progress => is_Some (stream (client w))
    | RequestState.cancelling => False
    end;
  core_one : count (is_current (client w)) (pending w) =
    match state (client w) with RequestState.in_progress => 1%nat | _ => 0%nat end;
  core_stream : ∀ op, op ∈ pending w → is_current (client w) op = true →
    ∃ s, stream (client w) = Some s ∧ op_stream op = stream_of_stage (op_stage op) s;
  core_next : ∀ s, stream (client w) = Some s → (s < next_stream w)%nat;
  core_own : ∀ op s, op ∈ pending w → op_stream op = Some s →
    (s < next_stream w)%nat ∧ (stream (client w) = Some s → is_current (client w) op = true);
}.

(** Every request is queued, outstanding or answered, but for the [owed] ones. *)
Definition Accounts (owed : option handler) (w : World) : Prop := ∀ h,
  requests h w = (queued h w + outstanding h w + callbacks h w +
                  if bool_decide (owed = Some h) then 1 else 0)%nat.

Definition Inv (n : nat) (w : World) : Prop := Core n w ∧ Accounts None w.

Lemma Inv_init : Inv 0 World_init.
Proof. by split; [split; simpl; try (intros; set_solver); try lia|]. Qed.

Lemma Core_mono n n' w : (n ≤ n')%nat → Core n w → Core n' w.
Proof. intros ? []. split; auto. lia. Qed.

(** [Core] is about the client and the pending operations only. *)
Lemma Core_same n w w' :
  expired w' = expired w → client w' = client w → pending w' = pending w →
  next_stream w' = next_stream w → Core n w → Core n w'.
Proof. intros He Hc Hp Hn []. by split; rewrite ?He, ?Hc, ?Hp, ?Hn. Qed.

Lemma u64_succ_small z n : 0 ≤ z ≤ Z.of_nat n → Z.of_nat n < two64 - 1 → u64_succ z = z + 1.
Proof. intros. unfold u64_succ, u64. apply Z.mod_small. unfold two64 in *. lia. Qed.

(** Posting and logging calls keeps the accounts. *)
Lemma requests_of_calls h l :
  count (is_request_of h) (map api_event l) = count (is_task_of h) (map api_task l).
Proof.
  induction l as [|a l IH]; [done|]. simpl. autorewrite with model_rw. rewrite IH. f_equal.
  destruct a as [[? ? ? ? ? ? ? []]|? ? ? ? []|? ? ? ? ? []|]; simpl; try done;
    repeat case_bool_decide; congruence.
Qed.

Lemma callbacks_of_calls h l : count (is_callback_of h) (map api_event l) = 0%nat.
Proof.
  apply count_zero. intros e (a & -> & _)%list_elem_of_fmap. by destruct a.
Qed.

(** The events of the libraries are neither requests nor callbacks. *)
Definition silent (es : list event) : Prop :=
  ∀ h, count (is_request_of h) es = 0%nat ∧ count (is_callback_of h) es = 0%nat.

Lemma silent_stage st c cl s : silent (stage_events st c cl s).
Proof.
  intros h. unfold stage_events, timeout_events. destruct st; split_ifs; done.
Qed.

Lemma silent_teardown s : silent (teardown_events s).
Proof. by intros h. Qed.

Lemma Accounts_called owed l w : Accounts owed w → Accounts owed (called l w).
Proof.
  intros Ha h. specialize (Ha h). revert Ha.
  unfold requests, queued, outstanding, callbacks, called, logs. simpl.
  autorewrite with model_rw. rewrite requests_of_calls, callbacks_of_calls. lia.
Qed.

Lemma Accounts_silent owed es w : silent es → Accounts owed w → Accounts owed (logs es w).
Proof.
  intros Hes Ha h. specialize (Ha h). revert Ha.
  unfold requests, queued, outstanding, callbacks, logs. simpl.
  autorewrite with model_rw. destruct (Hes h) as [-> ->]. lia.
Qed.

(** The accounts do not depend on the rest of the world. *)
Lemma Accounts_same owed w w' :
  response_handler (client w') = response_handler (client w) →
  posted w' = posted w → trace w' = trace w → Accounts owed w → Accounts owed w'.
Proof.
  intros Hh Hp Ht Ha h. specialize (Ha h). revert Ha.
  unfold requests, queued, outstanding, callbacks. by rewrite Hh, Hp, Ht.
Qed.

(** A callback pays the request that is owed. *)
Lemma Accounts_invoked h ec r w : Accounts h w → Accounts None (invoked h ec r w).
Proof.
  intros Ha. destruct h as [h|]; simpl; [|done]. apply Accounts_called.
  intros h'. specialize (Ha h'). revert Ha.
  unfold requests, queued, outstanding, callbacks, logs. simpl. autorewrite with model_rw. simpl.
  repeat case_bool_decide; simplify_eq; lia.
Qed.

Lemma Accounts_completed ec r w : Accounts None w → Accounts None (completed ec r w).
Proof.
  intros Ha. apply Accounts_invoked. intros h. specialize (Ha h). revert Ha.
  unfold requests, queued, outstanding, callbacks. simpl. lia.
Qed.

Lemma Core_invoked n h ec r w : Core n w → Core n (invoked h ec r w).
Proof. destruct h; [|done]. by apply Core_same. Qed.

(** No operation is for the current request of an idle client. *)
Lemma not_current_idle c op : state c ≠ RequestState.in_progress → is_current c op = false.
Proof. intros. unfold is_current. by rewrite bool_decide_false. Qed.

(** Ending a request keeps the invariant, whatever the generation now is. *)
Lemma Inv_completed n ec r w :
  expired w = false → 0 ≤ request_generation (client w) ≤ Z.of_nat n →
  (∀ op, op ∈ pending w → op_generation op ≤ request_generation (client w)) →
  (∀ op s, op ∈ pending w → op_stream op = Some s → (s < next_stream w)%nat) →
  stream (client w) = None → Accounts None w →
  Inv n (completed ec r w).
Proof.
  intros He Hg Hp Hn Hs Ha. split; [|by apply Accounts_completed]. apply Core_invoked.
  destruct w as [[] ? ? ? ? ?]. simpl in *. split; simpl; auto.
  - apply count_zero. intros. by apply not_current_idle.
  - intros op _ Hc. by rewrite not_current_idle in Hc.
  - by subst.
  - intros op s Hop Hs'. split; [by eapply Hn|]. by subst.
Qed.

Lemma Inv_started n args w :
  Z.of_nat n < two64 - 1 → Core n w → Accounts (ra_handler args) w →
  state (client w) = RequestState.idle → Inv (S n) (started args w).
Proof.
  intros Hn [He Hg Hp Hst _ _ _ Hown] Ha Hidle. rewrite Hidle in Hst. destruct Hst as [Hh Hs].
  assert (Hsucc := u64_succ_small _ _ Hg Hn).
  assert (∀ op, op ∈ pending w → is_current (client (started args w)) op = false) as Hstale.
  { intros op Hop%Hp. unfold is_current. simpl. rewrite Hsucc.
    apply Z.eqb_neq. lia. }
  split; [split; simpl|].
  - done.
  - rewrite Hsucc. lia.
  - rewrite Hsucc. intros op [Hop%Hp| ->%list_elem_of_singleton]%elem_of_app; simpl; lia.
  - eauto.
  - autorewrite with model_rw. rewrite (count_zero _ (pending w)) by done.
    unfold is_current. simpl. by rewrite Z.eqb_refl.
  - intros op [Hop| ->%list_elem_of_singleton]%elem_of_app Hc; simpl; [|by eauto].
    apply Hstale in Hop. simpl in *. congruence.
  - intros s [= <-]. lia.
  - intros op s [Hop| ->%list_elem_of_singleton]%elem_of_app Hs'; [|done].
    destruct (Hown _ _ Hop Hs'). split; [lia|]. intros [= <-]. lia.
  - intros h. specialize (Ha h). revert Ha. unfold requests, queued, outstanding, callbacks.
    simpl. autorewrite with model_rw. rewrite Hh. simpl. lia.
Qed.

Lemma Inv_cancelled n s w :
  Z.of_nat n < two64 - 1 → Inv n w → Inv (S n) (cancelled s w).
Proof.
  intros Hn [[He Hg Hp _ _ _ _ Hown] Ha]. assert (Hsucc := u64_succ_small _ _ Hg Hn).
  apply Inv_completed; simpl; rewrite ?Hsucc; auto with lia.
  - intros op Hop%Hp. lia.
  - intros op s' Hop Hs'. by eapply Hown.
  - by apply Accounts_silent.
Qed.

(** Taking an operation out of the pending ones. *)
Lemma pending_delete n w i op :
  Core n w → pending w !! i = Some op →
  let w' := w <| pending ::= delete i |> in
  if is_current (client w) op then
    state (client w) = RequestState.in_progress ∧
    (∀ op', op' ∈ pending w' → is_current (client w) op' = false)
  else Core n w'.
Proof.
  intros [He Hg Hp Hst Hone Hs Hn Hown] Hi. assert (Hc := count_delete (is_current (client w)) _ _ _ Hi).
  assert (∀ op', op' ∈ delete i (pending w) → op' ∈ pending w) as Hsub
    by (intros op'; apply elem_of_delete).
  destruct (is_current (client w) op) eqn:Hcur; simpl.
  - assert (state (client w) = RequestState.in_progress) as Hip.
    { unfold is_current in Hcur. by case_bool_decide. }
    split; [done|]. rewrite Hip in Hone. intros op' Hop.
    destruct (is_current (client w) op') eqn:Hcur'; [|done]. exfalso.
    apply list_elem_of_lookup in Hop as (j & Hj).
    assert (Hc' := count_delete (is_current (client w)) _ _ _ Hj). rewrite Hcur' in Hc'. lia.
  - split; simpl; auto. lia.
Qed.

(** One more operation for the current request, when there is none. *)
Lemma Core_next n w g st s :
  g = request_generation (client w) →
  expired w = false → 0 ≤ request_generation (client w) ≤ Z.of_nat n →
  (∀ op, op ∈ pending w → op_generation op ≤ request_generation (client w)) →
  (∀ op, op ∈ pending w → is_current (client w) op = false) →
  (∀ op s, op ∈ pending w → op_stream op = Some s → (s < next_stream w)%nat ∧
    stream (client w) ≠ Some s) → (s < next_stream w)%nat →
  state (client w) = RequestState.in_progress → stream (client w) = Some s → st ≠ Resolve →
  Core n (w <| pending ::= λ l, l ++
    [{| op_stage := st; op_generation := g; op_stream := Some s |}] |>).
Proof.
  intros -> He Hg Hp Hnone Hown Hn Hip Hs Hst. split; simpl; auto.
  - intros op [Hop%Hp| ->%list_elem_of_singleton]%elem_of_app; simpl; lia.
  - rewrite Hip. eauto.
  - autorewrite with model_rw. rewrite count_zero by done.
    unfold is_current. rewrite Hip. simpl. by rewrite Z.eqb_refl.
  - intros op [Hop%Hnone| ->%list_elem_of_singleton]%elem_of_app Hc; simpl; [congruence|].
    exists s. by destruct st.
  - intros s'. rewrite Hs. by intros [= <-].
  - intros op s' [Hop| ->%list_elem_of_singleton]%elem_of_app Hs'.
    + destruct (Hown _ _ Hop Hs'). split; [done|]. congruence.
    + simpl in Hs'. injection Hs' as <-. split; [done|]. intros _.
      unfold is_current. rewrite Hip. simpl. apply Z.eqb_refl.
Qed.

Lemma client_delivered op c w :
  response_handler (client (delivered op c w)) = response_handler (client w) ∧
  stream (client (delivered op c w)) = stream (client w) ∧
  state (client (delivered op c w)) = state (client w) ∧
  request_generation (client (delivered op c w)) = request_generation (client w) ∧
  expired (delivered op c w) = expired w ∧ posted (delivered op c w) = posted w ∧
  pending (delivered op c w) = pending w ∧ trace (delivered op c w) = trace w ∧
  next_stream (delivered op c w) = next_stream w.
Proof. unfold delivered. by case_decide. Qed.

Lemma Inv_delivered n op c w : Inv n w → Inv n (delivered op c w).
Proof.
  intros [[He Hg Hp Hst Hone Hs Hn Hown] Ha].
  destruct (client_delivered op c w) as (Eh & Es & Est & Eg & Ee & Ep & Epp & Et & En).
  assert (∀ op', is_current (client (delivered op c w)) op' = is_current (client w) op') as Ec.
  { intros op'. unfold is_current. by rewrite Est, Eg. }
  split; [|by eapply Accounts_same]. split; rewrite ?Ee, ?Eg, ?Epp, ?Est, ?Eh, ?Es, ?En; auto.
  - by rewrite (count_ext _ (is_current (client w))).
  - intros op'. rewrite Ec. auto.
  - intros op' s'. rewrite Ec. auto.
Qed.

(** The completion of the current operation keeps the invariant. *)
Lemma Inv_stage_result n w i op c s :
  Inv n w → pending w !! i = Some op → is_current (client w) op = true →
  stream (client w) = Some s →
  Inv n (stage_result op c s (w <| pending ::= delete i |>)).
Proof.
  intros [Hcore Ha] Hi Hcur Hs. assert (Hdel := pending_delete _ _ _ _ Hcore Hi).
  rewrite Hcur in Hdel. destruct Hdel as [Hip Hnone].
  destruct Hcore as [He Hg Hp _ _ _ Hn Hown].
  assert (op_generation op = request_generation (client w)) as Hgen.
  { unfold is_current in Hcur. rewrite Hip in Hcur. simpl in Hcur. by apply Z.eqb_eq. }
  assert (∀ op', op' ∈ delete i (pending w) → op_generation op' ≤ request_generation (client w)) as Hp'.
  { intros op' Hop. eapply Hp, elem_of_delete, Hop. }
  assert (∀ op' s', op' ∈ delete i (pending w) → op_stream op' = Some s' →
    (s' < next_stream w)%nat ∧ stream (client w) ≠ Some s') as Hown'.
  { intros op' s' Hop Hs'. destruct (Hown op' s' (elem_of_delete _ _ _ Hop) Hs') as [? Hc].
    split; [done|]. intros E%Hc. specialize (Hnone _ Hop). simpl in Hnone. congruence. }
  set (w1 := w <| pending ::= delete i |>) in *.
  destruct (client_delivered op c w1) as (Eh & Es & Est & Eg & Ee & Ep & Epp & Et & En).
  assert (Accounts None (logs (stage_events (op_stage op) c (client w1) s)
    (delivered op c w1))) as Ha'.
  { apply Accounts_silent; [apply silent_stage|]. by eapply Accounts_same. }
  assert (∀ op', is_current (client (delivered op c w1)) op' = is_current (client w) op') as Ec.
  { intros op'. unfold is_current. by rewrite Est, Eg. }
  unfold stage_result. destruct (stage_outcome (op_stage op) c) as [ec|st|r] eqn:Hout.
  - apply Inv_completed;
      [..|eapply Accounts_same; [| | |exact (Accounts_silent _ _ _ (silent_teardown s) Ha')]; done];
      simpl; rewrite ?Ee, ?Eg, ?Epp, ?En; auto. intros op' s' ??. by eapply Hown'.
  - split; [|by eapply Accounts_same; [..|exact Ha']].
    apply Core_next; simpl; rewrite ?Ee, ?Eg, ?Epp, ?Est, ?Es, ?En; auto.
    + intros op'. rewrite Ec. auto.
    + intros ->. revert Hout. unfold stage_outcome. destruct (op_stage op); split_ifs; done.
  - apply Inv_completed; [..|by eapply Accounts_same; [..|exact Ha']];
      simpl; rewrite ?Ee, ?Eg, ?Epp, ?En; auto. intros op' s' ??. by eapply Hown'.
Qed.

Lemma Inv_complete n w i op c :
  Inv n w → pending w !! i = Some op →
  wp (complete_operation op c) (λ _, Inv n) (w <| pending ::= delete i |>).
Proof.
  intros HI Hi. assert (HI' := HI). destruct HI' as [Hcore Ha]. unfold wp.
  destruct (is_current (client w) op) eqn:Hcur.
  - assert (Hdel := pending_delete _ _ _ _ Hcore Hi). rewrite Hcur in Hdel.
    destruct Hdel as [Hip _]. assert (Hst := core_state _ _ Hcore). rewrite Hip in Hst.
    destruct Hst as [s Hs]. rewrite (complete_current _ _ s) by (done || apply Hcore).
    by apply Inv_stage_result.
  - rewrite complete_stale by done. apply Inv_delivered. split.
    + assert (Hdel := pending_delete _ _ _ _ Hcore Hi). by rewrite Hcur in Hdel.
    + by eapply Accounts_same.
Qed.

Lemma Accounts_taken i t w :
  Accounts None w → posted w !! i = Some t →
  Accounts (match t with Task_request args => ra_handler args | Task_cancel => None end)
    (w <| posted ::= delete i |>).
Proof.
  intros Ha Hi h. specialize (Ha h). revert Ha.
  unfold requests, queued, outstanding, callbacks. simpl.
  rewrite (count_delete (is_task_of h) _ _ _ Hi).
  destruct t as [args|]; simpl; repeat case_bool_decide; simplify_eq; lia.
Qed.

Lemma Inv_step n a w :
  (n < Z.to_nat two64 - 1)%nat → Inv n w → wp (step a) (λ _, Inv (S n)) w.
Proof.
  intros Hn HI. assert (Z.of_nat n < two64 - 1) by lia. assert (HI' := HI).
  destruct HI' as [Hcore Ha]. unfold step. destruct a as [a|i|i c]; wp_simpl.
  - unfold wp. rewrite run_api_eq by apply Hcore. split; [|by apply Accounts_called].
    apply (Core_same _ w); try done. eapply Core_mono; [|done]. lia.
  - destruct (posted w !! i) as [t|] eqn:Hi; wp_simpl;
      [|split; [eapply Core_mono; [|done]; lia|done]].
    assert (Ht := Accounts_taken _ _ _ Ha Hi). set (w1 := w <| posted ::= delete i |>) in *.
    assert (Core n w1) as Hc1 by by apply (Core_same _ w).
    assert (Core (S n) w1) as Hc1' by (eapply Core_mono; [|done]; lia).
    assert (Hst := core_state _ _ Hc1).
    change (wp (run_task t) (λ _, Inv (S n)) w1). clearbody w1. unfold wp, run_task.
    destruct t as [args|]; destruct (state (client w1)) eqn:Hstate; try done.
    + rewrite do_request_idle by (done || apply Hc1). by apply Inv_started.
    + rewrite do_request_busy by (by rewrite ?Hstate || apply Hc1).
      split; [by apply Core_invoked|by apply Accounts_invoked].
    + rewrite do_cancel_idle by done. done.
    + destruct Hst as [s Hs]. rewrite (do_cancel_in_progress s) by (done || apply Hc1).
      by apply Inv_cancelled.
  - destruct (pending w !! i) as [op|] eqn:Hi; wp_simpl.
    + eapply wp_mono; [by apply (Inv_complete n)|]. intros [] s' [??].
      split; [eapply Core_mono; [|done]; lia|done].
    + split; [eapply Core_mono; [|done]; lia|done].
Qed.

Lemma Inv_steps acts :
  Z.of_nat (length acts) < two64 → wp (steps acts) (λ _, Inv (length acts)) World_init.
Proof.
  intros Hlen. apply (run_invariant step Inv (Z.to_nat two64 - 1) 0); [|apply Inv_init|lia].
  intros. by apply Inv_step.
Qed.

(** ** Progress *)

(** Completions that a stage still needs, at most. *)
Definition rank (st : stage) : nat :=
  match st with Resolve => 5 | Connect => 4 | Handshake => 3 | Write => 2 | Read => 1 end.

Lemma outcome_rank st c st' : stage_outcome st c = Out_next st' → (rank st' < rank st)%nat.
Proof. unfold stage_outcome. destruct st; split_ifs; intros [= <-]; simpl; lia. Qed.

(** The current request has one pending operation. *)
Lemma current_operation n w :
  Core n w → state (client w) = RequestState.in_progress →
  ∃ i op, pending w !! i = Some op ∧ is_current (client w) op = true.
Proof.
  intros [_ _ _ _ Hone _ _ _] Hip. rewrite Hip in Hone. unfold count in Hone.
  destruct (filter _ (pending w)) as [|op l] eqn:Hf; [done|].
  assert (op ∈ filter (λ x, is_current (client w) x = true) (pending w)) as Hop
    by (rewrite Hf; apply list_elem_of_here).
  apply list_elem_of_filter in Hop as [Hcur [i Hi]%list_elem_of_lookup]. eauto.
Qed.

(** The callbacks of a completed request. *)
Lemma callbacks_completed ec r w h :
  callbacks h (completed ec r w) = (callbacks h w + outstanding h w)%nat.
Proof.
  unfold completed, callbacks, outstanding. destruct (response_handler (client w)) as [h'|] eqn:Hh;
    unfold invoked, called, logs; simpl; autorewrite with model_rw;
    rewrite ?callbacks_of_calls; simpl; [|lia].
  repeat case_bool_decide; simplify_eq; simpl; lia.
Qed.

Lemma client_completed ec r w : client (completed ec r w) = reset_client (client w).
Proof. unfold completed, invoked. by destruct (response_handler (client w)). Qed.

(** [w'] is one completion of [op] further than [w]: the request has ended, or
    its pending operation needs fewer completions. *)
Definition advanced (op : operation) (w w' : World) : Prop :=
  (state (client w') = RequestState.idle ∧
    ∀ h, callbacks h w' = (callbacks h w + outstanding h w)%nat) ∨
  (state (client w') = RequestState.in_progress ∧
    response_handler (client w') = response_handler (client w) ∧
    (∀ h, callbacks h w' = callbacks h w) ∧
    ∃ op', op' ∈ pending w' ∧ is_current (client w') op' = true ∧
      (rank (op_stage op') < rank (op_stage op))%nat).

Lemma advanced_from op w w1 w' :
  client w = client w1 → trace w = trace w1 → advanced op w w' → advanced op w1 w'.
Proof. unfold advanced, callbacks, outstanding. by intros -> ->. Qed.

Lemma callbacks_logs h es w : silent es → callbacks h (logs es w) = callbacks h w.
Proof.
  intros Hes. unfold callbacks, logs. simpl. autorewrite with model_rw.
  destruct (Hes h) as [_ ->]. lia.
Qed.

Lemma callbacks_delivered h op c w : callbacks h (delivered op c w) = callbacks h w.
Proof. unfold callbacks. by destruct (client_delivered op c w) as (_&_&_&_&_&_&_&->&_). Qed.

Lemma pending_completed ec r w : pending (completed ec r w) = pending w.
Proof. unfold completed, invoked. by destruct (response_handler (client w)). Qed.

Lemma pending_ended op c s w :
  stream (client w) = Some s → stream (client (stage_result op c s w)) = None →
  pending (stage_result op c s w) = pending w.
Proof.
  destruct (client_delivered op c w) as (_ & Es & _ & _ & _ & _ & Epp & _).
  intros Hs. unfold stage_result. destruct (stage_outcome (op_stage op) c); simpl.
  - by rewrite pending_completed.
  - rewrite Es, Hs. done.
  - by rewrite pending_completed.
Qed.

Lemma stage_result_advances op c s w :
  is_current (client w) op = true → advanced op w (stage_result op c s w).
Proof.
  intros Hcur. destruct (client_delivered op c w) as (Eh & _ & Est & Eg & _).
  set (w1 := logs (stage_events (op_stage op) c (client w) s) (delivered op c w)).
  assert (∀ h, callbacks h w1 = callbacks h w) as Hcb.
  { intros h. unfold w1. by rewrite callbacks_logs, callbacks_delivered by apply silent_stage. }
  assert (∀ h, outstanding h w1 = outstanding h w) as Hout.
  { intros h. unfold outstanding. simpl. by rewrite Eh. }
  unfold stage_result. fold w1. destruct (stage_outcome (op_stage op) c) as [ec|st|r] eqn:Ho.
  - left. rewrite client_completed. split; [done|]. intros h.
    rewrite callbacks_completed, <- Hcb, <- Hout. f_equal.
    by rewrite <- (callbacks_logs h (teardown_events s) w1) by apply silent_teardown.
  - right. simpl. rewrite Est, Eh. split; [|split; [done|split; [done|]]].
    { unfold is_current in Hcur. by case_bool_decide. }
    eexists. split; [apply elem_of_app; right; by apply list_elem_of_singleton|].
    split; [|by eapply outcome_rank].
    unfold is_current in *. simpl. by rewrite Est, Eg.
  - left. rewrite client_completed. split; [done|]. intros h.
    by rewrite callbacks_completed, <- Hcb, <- Hout.
Qed.

Lemma step_current n w i op c :
  Inv n w → pending w !! i = Some op → is_current (client w) op = true →
  wp (step (Act_complete i c)) (λ _ w', Inv n w' ∧ advanced op w w') w.
Proof.
  intros HI Hi Hcur. assert (HI' := HI). destruct HI' as [Hcore Ha].
  unfold step. wp_simpl. rewrite Hi. wp_simpl.
  apply wp_and; [by apply Inv_complete|].
  assert (Hdel := pending_delete _ _ _ _ Hcore Hi). rewrite Hcur in Hdel.
  destruct Hdel as [Hip _]. assert (Hst := core_state _ _ Hcore). rewrite Hip in Hst.
  destruct Hst as [s Hs]. unfold wp. rewrite (complete_current _ _ s) by (done || apply Hcore).
  apply (advanced_from op (w <| pending ::= delete i |>)); [done|done|].
  apply stage_result_advances. exact Hcur.
Qed.

(** Completing the current operation [rank] times, with whatever outcomes,
    ends the request. *)
Lemma complete_until_idle k cs n w i op :
  Inv n w → pending w !! i = Some op → is_current (client w) op = true →
  (rank (op_stage op) ≤ k)%nat → length cs = k →
  ∃ js, (length js ≤ k)%nat ∧
    wp (steps (zip_with Act_complete js cs)) (λ _ w', Inv n w' ∧
      state (client w') = RequestState.idle ∧
      ∀ h, callbacks h w' = (callbacks h w + outstanding h w)%nat) w.
Proof.
  revert cs w i op. induction k as [|k IH]; intros [|c cs] w i op HI Hi Hcur Hk Hlen; try done.
  { by destruct (op_stage op); simpl in Hk; lia. }
  destruct (wp_ok _ _ _ (step_current _ _ _ _ c HI Hi Hcur)) as ([] & w1 & Hw1 & HI1 & Hadv).
  destruct Hadv as [[Hidle Hcb]|(Hip & Hh & Hcb & op' & Hop' & Hcur' & Hrank)].
  - exists [i]. split; [simpl; lia|]. unfold steps, run. cbn [zip_with for_each].
    apply wp_bind. unfold wp at 1. rewrite Hw1. by apply wp_ret.
  - apply list_elem_of_lookup in Hop' as [j Hj].
    destruct (IH cs w1 j op' HI1 Hj Hcur') as (js & Hjs & Hwp); [lia|by injection Hlen|].
    exists (i :: js). split; [simpl; lia|]. unfold steps, run in *.
    cbn [zip_with for_each]. apply wp_bind. unfold wp at 1. rewrite Hw1. eapply wp_mono; [exact Hwp|].
    intros [] w' (HI' & Hidle & Hcb'). split; [done|]. split; [done|]. intros h.
    rewrite Hcb', Hcb. unfold outstanding. by rewrite Hh.
Qed.

(** * Properties *)

(** Whatever the users, the executor and the libraries do (fewer than 2^64
    events), the client never faults and its invariant holds: it is never left
    cancelling, an idle client holds no handler and no stream, a busy one has a
    stream and exactly one pending operation of its generation, on that stream. *)
Theorem runs_never_fault acts :
  Z.of_nat (length acts) < two64 →
  wp (steps acts) (λ _ w, Core (length acts) w) World_init.
Proof.
  intros Hlen. eapply wp_mono; [by apply Inv_steps|]. by intros [] w [? _].
Qed.

(** C7: every request made with a handler is answered at most once, and exactly
    once as soon as the client is idle with no request of that handler queued:
    requests refused as busy, failed, cancelled and answered alike. *)
Theorem requests_are_answered_once acts h :
  Z.of_nat (length acts) < two64 →
  wp (steps acts) (λ _ w,
    (callbacks h w ≤ requests h w)%nat ∧
    (is_busy w = false → queued h w = 0%nat → callbacks h w = requests h w)) World_init.
Proof.
  intros Hlen. eapply wp_mono; [by apply Inv_steps|]. intros [] w [Hcore Ha].
  specialize (Ha h). simpl in Ha. split; [lia|]. intros Hbusy Hq.
  assert (Hst := core_state _ _ Hcore). unfold is_busy in Hbusy.
  apply bool_decide_eq_false, dec_stable in Hbusy. rewrite Hbusy in Hst.
  unfold outstanding in Ha. rewrite (proj1 Hst) in Ha. simpl in Ha. lia.
Qed.

(** C15: a completion of the current request has exactly the effect that its
    stage prescribes ([stage_result]: fail with the error, go on to the next
    stage under a new timeout, or answer with the response); any other
    completion leaves everything but the read buffers as it was. *)
Theorem completion_has_its_stage_effect n w i op c :
  Inv n w → pending w !! i = Some op →
  let w' := w <| pending ::= delete i |> in
  if is_current (client w) op then
    ∃ s, stream (client w) = Some s ∧
      step (Act_complete i c) w = Ok (tt, stage_result op c s w')
  else step (Act_complete i c) w = Ok (tt, delivered op c w').
Proof.
  intros [Hcore Ha] Hi. unfold step, bind, gets. rewrite Hi. unfold modify. simpl.
  destruct (is_current (client w) op) eqn:Hcur; [|by rewrite complete_stale].
  assert (Hdel := pending_delete _ _ _ _ Hcore Hi). rewrite Hcur in Hdel.
  destruct Hdel as [Hip _]. assert (Hst := core_state _ _ Hcore). rewrite Hip in Hst.
  destruct Hst as [s Hs]. exists s. split; [done|].
  by rewrite (complete_current _ _ s) by (done || apply Hcore).
Qed.

(** C17: from every reachable state with a request in progress, completing its
    pending operation at most five times, with any errors and in whatever way,
    makes the client idle and answers the request: once, if it has a handler,
    and no other handler is called. *)
Theorem every_request_terminates n w c1 c2 c3 c4 c5 :
  Inv n w → is_busy w = true →
  ∃ js, (length js ≤ 5)%nat ∧
    wp (steps (zip_with Act_complete js [c1; c2; c3; c4; c5])) (λ _ w',
      is_busy w' = false ∧
      ∀ h, callbacks h w' = (callbacks h w + outstanding h w)%nat) w.
Proof.
  intros [Hcore Ha] Hbusy. unfold is_busy in Hbusy. apply bool_decide_eq_true in Hbusy.
  assert (Hst := core_state _ _ Hcore).
  assert (state (client w) = RequestState.in_progress) as Hip by by destruct (state (client w)).
  destruct (current_operation _ _ Hcore Hip) as (i & op & Hi & Hcur).
  destruct (complete_until_idle 5 [c1; c2; c3; c4; c5] n w i op) as (js & Hjs & Hwp); try done.
  { destruct (op_stage op); simpl; lia. }
  exists js. split; [done|]. eapply wp_mono; [exact Hwp|]. intros [] w' (_ & Hidle & Hcb).
  unfold is_busy. by rewrite Hidle.
Qed.

(** The generation only grows. *)
Lemma generation_completed ec r w :
  request_generation (client (completed ec r w)) = request_generation (client w).
Proof. rewrite client_completed. by destruct w as [[]]. Qed.

Lemma generation_stage_result op c s w :
  request_generation (client (stage_result op c s w)) = request_generation (client w).
Proof.
  destruct (client_delivered op c w) as (_ & _ & _ & Eg & _). unfold stage_result.
  destruct (stage_outcome (op_stage op) c); rewrite ?generation_completed; exact Eg.
Qed.

Lemma generation_task n t w : Z.of_nat n < two64 - 1 → Core n w →
  wlp (run_task t) (λ _ w', request_generation (client w) ≤ request_generation (client w')) w.
Proof.
  intros Hn Hcore. assert (Hsucc := u64_succ_small _ _ (core_generation _ _ Hcore) Hn).
  assert (Hst := core_state _ _ Hcore). unfold wlp, run_task.
  destruct t as [args|]; destruct (state (client w)) eqn:Hstate; try done.
  - rewrite do_request_idle by (done || apply Hcore). simpl. rewrite Hsucc. lia.
  - rewrite do_request_busy by (by rewrite ?Hstate || apply Hcore). by destruct (ra_handler args).
  - by rewrite do_cancel_idle by done.
  - destruct Hst as [s Hs]. rewrite (do_cancel_in_progress s) by (done || apply Hcore).
    unfold cancelled. rewrite generation_completed. simpl. rewrite Hsucc. lia.
Qed.

Lemma generation_step n a w : Z.of_nat n < two64 - 1 → Inv n w →
  wlp (step a) (λ _ w', request_generation (client w) ≤ request_generation (client w')) w.
Proof.
  intros Hn [Hcore Ha]. destruct a as [a|i|i c]; unfold step.
  - unfold wlp. by rewrite run_api_eq by apply Hcore.
  - apply wlp_bind, wlp_gets. destruct (posted w !! i) as [t|]; [|by apply wlp_ret].
    apply wlp_bind, wlp_modify. eapply wlp_mono; [by apply (generation_task n); [|by apply (Core_same n w)]|done].
  - apply wlp_bind, wlp_gets. destruct (pending w !! i) as [op|] eqn:Hi; [|by apply wlp_ret].
    apply wlp_bind, wlp_modify. unfold wlp. destruct (is_current (client w) op) eqn:Hcur.
    + assert (Hdel := pending_delete _ _ _ _ Hcore Hi). rewrite Hcur in Hdel.
      assert (Hst := core_state _ _ Hcore). rewrite (proj1 Hdel) in Hst. destruct Hst as [s Hs].
      rewrite (complete_current _ _ s) by (done || apply Hcore). by rewrite generation_stage_result.
    + rewrite complete_stale by done.
      by destruct (client_delivered op c (w <| pending ::= delete i |>)) as (_ & _ & _ & -> & _).
Qed.

(** A generation that is over stays over. *)
Lemma generation_over g n acts w :
  Z.of_nat (n + length acts) < two64 → Inv n w → g < request_generation (client w) →
  wp (steps acts) (λ _ w', Inv (n + length acts) w' ∧ g < request_generation (client w')) w.
Proof.
  intros Hn HI Hg.
  apply (run_invariant step (λ n w, Inv n w ∧ g < request_generation (client w)) (Z.to_nat two64 - 1));
    [|done|lia].
  intros m a w1 Hm [HI1 Hg1]. eapply wp_mono.
  { apply wp_wlp; [by apply (Inv_step m)|by apply (generation_step m); [lia|]]. }
  intros [] w2 [? ?]. split; [done|lia].
Qed.

(** C25: [do_cancel] on a busy client answers its handler at once with
    [operation_canceled]; and whatever happens from then on (new requests, whose
    operations may be in flight, more cancellations, any completions), an
    operation that was pending when the request was cancelled completes without
    a trace: whenever and with whatever result it does, no handler is called,
    nothing is asked of a stream, started or posted, and the request that is
    then in progress goes on untouched (at most, what was read is left in the
    buffers, [delivered]). *)
Theorem cancel_answers_and_silences n w acts :
  Inv n w → is_busy w = true → Z.of_nat (S n + length acts) < two64 →
  wp do_cancel (λ _ w',
    is_busy w' = false ∧
    (∀ h, callbacks h w' = (callbacks h w + outstanding h w)%nat) ∧
    wp (steps acts) (λ _ w'', ∀ i op c, op ∈ pending w → pending w'' !! i = Some op →
      step (Act_complete i c) w'' = Ok (tt, delivered op c (w'' <| pending ::= delete i |>))) w') w.
Proof.
  intros HI Hbusy Hn. assert (HI' := HI). destruct HI' as [Hcore Ha].
  unfold is_busy in Hbusy. apply bool_decide_eq_true in Hbusy.
  assert (Hst := core_state _ _ Hcore).
  assert (state (client w) = RequestState.in_progress) as Hip by by destruct (state (client w)).
  rewrite Hip in Hst. destruct Hst as [s Hs]. unfold wp at 1.
  rewrite (do_cancel_in_progress s) by (done || apply Hcore).
  split; [|split].
  - unfold is_busy, cancelled. by rewrite client_completed.
  - intros h. unfold cancelled. rewrite callbacks_completed. f_equal.
    by rewrite <- (callbacks_logs h (teardown_events s) w) by apply silent_teardown.
  - eapply wp_mono.
    { apply (generation_over (request_generation (client w)) (S n)); [done|apply Inv_cancelled; [lia|done]|].
      unfold cancelled. rewrite generation_completed. simpl.
      rewrite (u64_succ_small _ n) by (apply Hcore || lia). lia. }
    intros [] w'' [_ Hg] i op c Hop Hi. apply (core_pending _ _ Hcore) in Hop.
    unfold step, bind, gets. rewrite Hi. unfold modify. simpl. apply complete_stale. simpl.
    unfold is_current. rewrite (proj2 (Z.eqb_neq _ _)) by lia. apply andb_false_r.
Qed.

(** When a completion ends a request, no pending operation runs on the
    stream that is destroyed; when [do_cancel] ends one beyond the resolve stage,
    the operation that is in flight still runs on the destroyed stream, which
    Asio's documentation of [ssl::stream] forbids. *)
Theorem only_cancel_destroys_a_stream_in_use n w i op c s :
  Inv n w → pending w !! i = Some op → is_current (client w) op = true →
  stream (client w) = Some s →
  wp (step (Act_complete i c)) (λ _ w', stream (client w') = None →
    ∀ op', op' ∈ pending w' → op_stream op' ≠ Some s) w ∧
  wp do_cancel (λ _ w', stream (client w') = None ∧
    (op_stage op ≠ Resolve → ∃ op', op' ∈ pending w' ∧ op_stream op' = Some s)) w.
Proof.
  intros [Hcore Ha] Hi Hcur Hs. assert (Hdel := pending_delete _ _ _ _ Hcore Hi).
  rewrite Hcur in Hdel. destruct Hdel as [Hip Hnone]. split.
  - unfold step. wp_simpl. rewrite Hi. wp_simpl. unfold wp.
    rewrite (complete_current _ _ s) by (done || apply Hcore).
    intros Hnone' op' Hop Hst. rewrite pending_ended in Hop by done. simpl in Hop.
    destruct (core_own _ _ Hcore op' s (elem_of_delete _ _ _ Hop) Hst) as [_ Hc].
    specialize (Hnone _ Hop). rewrite Hc in Hnone; done.
  - unfold wp. rewrite (do_cancel_in_progress s) by (done || apply Hcore).
    unfold cancelled. rewrite client_completed. split; [by destruct w as [[]]|]. intros Hst.
    exists op. split.
    + rewrite pending_completed. by eapply list_elem_of_lookup_2.
    + destruct (core_stream _ _ Hcore op) as (s' & Hs' & ->); [by eapply list_elem_of_lookup_2|done|].
      rewrite Hs in Hs'. injection Hs' as ->. by destruct (op_stage op).
Qed.

(** [do_request] on an idle client makes it busy with a new generation, a
    new stream and the message built from the arguments, and resolves the host;
    on a busy one it answers [operation_in_progress] and touches nothing else. *)
Theorem request_starts_or_is_refused n args w :
  Inv n w →
  wp (do_request args) (λ _ w',
    if is_busy w then
      client w' = client w ∧ pending w' = pending w ∧
      match ra_handler args with
      | None => trace w' = trace w
      | Some h => ∃ es, trace w' = trace w ++
          Ev_callback h (make_error_code operation_in_progress) empty_response :: es
      end
    else w' = started args w) w.
Proof.
  intros [Hcore _]. unfold is_busy, wp.
  destruct (decide (state (client w) = RequestState.idle)) as [Hs|Hs].
  - rewrite do_request_idle by (done || apply Hcore). by rewrite bool_decide_false by auto.
  - rewrite do_request_busy by (done || apply Hcore). rewrite bool_decide_true by done.
    destruct (ra_handler args) as [h|]; [|done]. split; [done|split; [done|]].
    eexists. unfold invoked, called, logs. simpl. by rewrite <- app_assoc.
Qed.

(** C26: destroying the client answers the outstanding handler with
    [operation_canceled], and nothing faults, provided that handler does not
    call the client; if it does, [shared_from_this()] throws. *)
Theorem destroy_answers_the_outstanding_handler n w :
  Inv n w →
  match response_handler (client w) with
  | Some h =>
      ∃ s, stream (client w) = Some s ∧
      let tr' := trace w ++ teardown_events s ++
        [Ev_callback h (make_error_code operation_canceled) empty_response] in
      if decide (react tr' h (make_error_code operation_canceled) empty_response = [])
      then wp destroy (λ _ w', is_busy w' = false ∧ trace w' = tr') w
      else destroy w = Fault BadWeakPtr
  | None => wp destroy (λ _ w', is_busy w' = false ∧
      ∀ h, callbacks h w' = callbacks h w) w
  end.
Proof.
  intros [Hcore _]. destruct Hcore as [He _ _ Hst _ _ _ _].
  destruct w as [[st ? ? ? hd ? ? state ?] ? ? ? ? tr]. simpl in *. subst.
  destruct state; [destruct Hst as [-> ->]; done| |done]. destruct Hst as [s ->].
  unfold destroy, do_cancel, complete_request, bind, is_busy. destruct hd as [h|]; simpl.
  - exists s. split; [done|].
    destruct (react _ _ _ _) as [|a l] eqn:Hr; simpl.
    + unfold wp, invoke, bind. simpl. rewrite <- ?app_assoc. simpl. by rewrite Hr.
    + unfold invoke, bind. simpl. rewrite <- ?app_assoc. simpl. rewrite Hr. by destruct a.
  - unfold wp, callbacks. simpl. split; [done|]. intros h. autorewrite with model_rw. simpl. lia.
Qed.

(** The last of the headers called [m]. *)
Definition last_header `{!BeastHttpLaws} (m : string) (hs : list HttpHeader) : option string :=
  value <$> last (filter (λ h, field_name_eq (name h) m = true) hs).

Lemma field_of_headers `{!BeastHttpLaws} m hs r :
  request_field (fold_left (λ r h, request_set (name h) (value h) r) hs r) m =
    match last_header m hs with Some v => Some v | None => request_field r m end.
Proof.
  induction hs as [|h hs IH] using rev_ind; [done|].
  rewrite fold_left_app. simpl. rewrite field_set, IH. unfold last_header.
  rewrite filter_app, filter_cons, filter_nil. case_decide as Hm.
  - by rewrite Hm, last_snoc.
  - rewrite app_nil_r. destruct (field_name_eq (name h) m); [done|reflexivity].
Qed.

(** Every header field of the message that [do_request] builds, but those
    that frame the body, is the last one of that name that the caller passed;
    failing that, Host is the host and User-Agent is [https-client], and there
    is no other field. *)
Theorem request_fields `{!BeastHttpLaws} args m :
  framing m = false →
  request_field (build_request args) m =
    match last_header m (ra_headers args) with
    | Some v => Some v
    | None =>
        if field_name_eq "User-Agent" m then Some "https-client"
        else if field_name_eq "Host" m then Some (ra_host args) else None
    end.
Proof.
  intros Hm. unfold build_request.
  rewrite field_prepare_payload, field_body, field_of_headers by done.
  by rewrite !field_set, field_target, field_method, field_version, field_empty.
Qed.

End client.

(** * Witnesses *)

(** A small instance: the fields of a request are an association list, names
    are compared as they are, and framing is Content-Length. *)
Module Demo.
#[export] Instance beast : BeastHttp := {|
  verb := nat;
  verb_get := 0%nat; verb_head := 1%nat; verb_post := 2%nat;
  verb_put := 3%nat; verb_delete := 4%nat; verb_patch := 5%nat;
  request := list (string * string);
  request_empty := [];
  request_version := λ _ r, r;
  request_method := λ _ r, r;
  request_target := λ _ r, r;
  request_set := λ n v r, (n, v) :: r;
  request_body := λ _ r, r;
  request_prepare_payload := λ r, ("Content-Length", "0") :: r;
  response := HttpResponse;
  response_empty := empty_response;
  response_result_int := status_code;
  response_body := body;
  response_fields := λ r, map (λ h, (name h, value h)) (headers r);
|}.

Definition field (r : list (string * string)) (m : string) : option string :=
  snd <$> head (filter (λ f, String.eqb (fst f) m = true) r).

Lemma field_cons f r m : field (f :: r) m = if String.eqb (fst f) m then Some (snd f) else field r m.
Proof. unfold field. rewrite filter_cons. by destruct (String.eqb (fst f) m). Qed.

#[export] Instance beast_laws : BeastHttpLaws.
Proof.
  refine {| field_name_eq := String.eqb; framing := String.eqb "Content-Length";
            request_field := field |}; try reflexivity.
  - intros n v r m. exact (field_cons (n, v) r m).
  - intros r m Hm. refine (eq_trans (field_cons ("Content-Length", "0") r m) _).
    unfold fst. by rewrite Hm.
Defined.

Definition args : request_args := {|
  ra_method := HttpMethod.get; ra_host := "example.com"; ra_port := "443"; ra_target := "/";
  ra_body := ""; ra_headers := [{| name := "User-Agent"; value := "mine" |}]; ra_timeout := 500;
  ra_handler := Some 7%nat |}.

(** A user whose callbacks do nothing, and one that asks again from a callback. *)
Definition quiet (_ : list event) (_ : handler) (_ : error_code) (_ : HttpResponse) : list api_call := [].
Definition eager (_ : list event) (_ : handler) (_ : error_code) (_ : HttpResponse) : list api_call :=
  [Api_request args].

Definition ok : completion := {|
  c_ec := no_error; c_response := {| status_code := 200; body := "hi"; headers := [] |};
  c_buffer := ""; c_env := {| sni_ok := true; sni_error := 0; verify_ec := no_error |} |}.
Definition reset : completion := {|
  c_ec := make_error_code connection_refused; c_response := empty_response; c_buffer := "";
  c_env := {| sni_ok := true; sni_error := 0; verify_ec := no_error |} |}.

(** A client that waits for its TLS handshake, with a second request queued. *)
Definition handshaking : list action :=
  [Act_api (Api_request args); Act_api (Api_request args); Act_task 0;
   Act_complete 0 ok; Act_complete 0 ok].

Definition world (acts : list action) : World :=
  match steps quiet acts World_init with Ok (_, w) => w | Fault _ => World_init end.

Lemma world_Inv acts : Z.of_nat (length acts) < two64 → Inv (length acts) (world acts).
Proof.
  intros Hlen. destruct (wp_ok _ _ _ (Inv_steps quiet acts Hlen)) as ([] & w & Hw & HI).
  unfold world. by rewrite Hw.
Qed.
End Demo.
#[local] Existing Instances Demo.beast Demo.beast_laws.

Lemma runs_never_fault_witness :
  wp (steps Demo.eager Demo.handshaking) (λ _ w, Core 5 w) World_init.
Proof. apply (runs_never_fault Demo.eager Demo.handshaking). reflexivity. Defined.

Lemma requests_are_answered_once_witness :
  wp (steps Demo.eager (Demo.handshaking ++ [Act_complete 0 Demo.reset; Act_task 0; Act_task 0]))
    (λ _ w, (callbacks 7%nat w ≤ requests 7%nat w)%nat ∧
      (is_busy w = false → queued 7%nat w = 0%nat → callbacks 7%nat w = requests 7%nat w)) World_init.
Proof.
  apply (requests_are_answered_once Demo.eager
    (Demo.handshaking ++ [Act_complete 0 Demo.reset; Act_task 0; Act_task 0]) 7%nat). reflexivity.
Defined.

Lemma completion_has_its_stage_effect_witness :
  let w := Demo.world Demo.handshaking in
  let op := {| op_stage := Handshake; op_generation := 1; op_stream := Some 0%nat |} in
  is_current (client w) op = true ∧
  ∃ s, stream (client w) = Some s ∧ step Demo.quiet (Act_complete 0 Demo.ok) w =
    Ok (tt, stage_result Demo.quiet op Demo.ok s (w <| pending ::= delete 0%nat |>)).
Proof.
  intros w op. split; [reflexivity|].
  apply (completion_has_its_stage_effect Demo.quiet 5 w 0 op Demo.ok);
    [exact (Demo.world_Inv Demo.handshaking eq_refl)|reflexivity].
Defined.

Lemma every_request_terminates_witness :
  is_busy (Demo.world Demo.handshaking) = true ∧
  ∃ js, (length js ≤ 5)%nat ∧
    wp (steps Demo.quiet (zip_with Act_complete js
        [Demo.ok; Demo.ok; Demo.reset; Demo.ok; Demo.ok])) (λ _ w',
      is_busy w' = false ∧
      ∀ h, callbacks h w' = (callbacks h (Demo.world Demo.handshaking)
        + outstanding h (Demo.world Demo.handshaking))%nat) (Demo.world Demo.handshaking).
Proof.
  split; [reflexivity|].
  apply (every_request_terminates Demo.quiet 5); [exact (Demo.world_Inv Demo.handshaking eq_refl)|reflexivity].
Defined.

(** The handshake of the cancelled request completes when the next one resolves. *)
Definition again : list action :=
  [Act_api (Api_request Demo.args); Act_task 0].

Lemma cancel_answers_and_silences_witness :
  let w := Demo.world Demo.handshaking in
  outstanding 7%nat w = 1%nat ∧ length (pending w) = 1%nat ∧
  wp (do_cancel Demo.quiet) (λ _ w',
    is_busy w' = false ∧ (∀ h, callbacks h w' = (callbacks h w + outstanding h w)%nat) ∧
    wp (steps Demo.quiet again) (λ _ w'', ∀ i op c, op ∈ pending w → pending w'' !! i = Some op →
      step Demo.quiet (Act_complete i c) w'' =
        Ok (tt, delivered op c (w'' <| pending ::= delete i |>))) w') w.
Proof.
  intros w. split; [reflexivity|]. split; [reflexivity|].
  apply (cancel_answers_and_silences Demo.quiet 5 w again);
    [exact (Demo.world_Inv Demo.handshaking eq_refl)|reflexivity|reflexivity].
Defined.

Lemma request_starts_or_is_refused_witness :
  let w := Demo.world Demo.handshaking in
  wp (do_request Demo.quiet Demo.args) (λ _ w',
    if is_busy w then
      client w' = client w ∧ pending w' = pending w ∧
      match ra_handler Demo.args with
      | None => trace w' = trace w
      | Some h => ∃ es, trace w' = trace w ++
          Ev_callback h (make_error_code operation_in_progress) empty_response :: es
      end
    else w' = started Demo.args w) w.
Proof.
  intros w. apply (request_starts_or_is_refused Demo.quiet 5). exact (Demo.world_Inv Demo.handshaking eq_refl).
Defined.

Lemma destroy_answers_the_outstanding_handler_witness :
  let w := Demo.world Demo.handshaking in
  match response_handler (client w) with
  | Some h =>
      ∃ s, stream (client w) = Some s ∧
      let tr' := trace w ++ teardown_events s ++
        [Ev_callback h (make_error_code operation_canceled) empty_response] in
      if decide (Demo.quiet tr' h (make_error_code operation_canceled) empty_response = [])
      then wp (destroy Demo.quiet) (λ _ w', is_busy w' = false ∧ trace w' = tr') w
      else destroy Demo.quiet w = Fault BadWeakPtr
  | None => wp (destroy Demo.quiet) (λ _ w', is_busy w' = false ∧
      ∀ h, callbacks h w' = callbacks h w) w
  end.
Proof.
  intros w. apply (destroy_answers_the_outstanding_handler Demo.quiet 5). exact (Demo.world_Inv Demo.handshaking eq_refl).
Defined.

Lemma request_fields_witness :
  request_field (build_request Demo.args) "User-Agent" =
    match last_header "User-Agent" (ra_headers Demo.args) with
    | Some v => Some v
    | None =>
        if field_name_eq "User-Agent" "User-Agent" then Some "https-client"
        else if field_name_eq "Host" "User-Agent" then Some (ra_host Demo.args) else None
    end ∧
  request_field (build_request Demo.args) "User-Agent" = Some "mine".
Proof. split; [apply (request_fields Demo.args); reflexivity|reflexivity]. Defined.

Lemma only_cancel_destroys_a_stream_in_use_witness :
  let w := Demo.world Demo.handshaking in
  stream (client w) = Some 0%nat ∧
  wp (step Demo.quiet (Act_complete 0 Demo.reset)) (λ _ w', stream (client w') = None →
    ∀ op', op' ∈ pending w' → op_stream op' ≠ Some 0%nat) w ∧
  wp (do_cancel Demo.quiet) (λ _ w', stream (client w') = None ∧
    (Handshake ≠ Resolve → ∃ op', op' ∈ pending w' ∧ op_stream op' = Some 0%nat)) w.
Proof.
  intros w. split; [reflexivity|].
  apply (only_cancel_destroys_a_stream_in_use Demo.quiet 5 w 0
    {| op_stage := Handshake; op_generation := 1; op_stream := Some 0%nat |} Demo.reset 0%nat);
    [exact (Demo.world_Inv Demo.handshaking eq_refl)|reflexivity..].
Defined.
