(* ===== verification/HttpsProtocol.v ===== *)
(** What the HTTPS client does with a stream, from its creation to its end.

    [transcript s t] is everything that the trace [t] asks of the stream [s].
    [script args s] is what a request should ask of its stream: connect, name
    the host and verify it, the TLS handshake, the request, the response, the
    end, each stage under its time-out.  The theorem is that a transcript is
    always a prefix of the script of one request, to whose host the resolver was
    sent, and then at most the tear-down.  So nothing is sent before the stream
    is secured for the host that was asked for, requests do not mix, and a
    stream is not touched again once it is torn down. *)

From S2P Require Import Prelude HttpsClientAsync.

Section protocol.
Context `{BeastHttp}.
Context (react : list event → handler → error_code → HttpResponse → list api_call).

(** * Transcripts and scripts *)

Definition stream_of (e : event) : option nat :=
  match e with
  | Ev_async_connect s | Ev_async_handshake s | Ev_async_write s _ | Ev_async_read s
  | Ev_stream_cancel s | Ev_socket_close s | Ev_expires_after s _ | Ev_expires_never s
  | Ev_set_sni s _ | Ev_set_verify s _ => Some s
  | _ => None
  end.

Definition transcript (s : nat) (t : list event) : list event := filter (λ e, stream_of e = Some s) t.

(** What was resolved; stream [s] is created with the [s]-th resolution. *)
Definition resolved (t : list event) : list (string * string) :=
  omap (λ e, match e with Ev_async_resolve host port => Some (host, port) | _ => None end) t.

(** The time-out of a stage. *)
Definition deadline (args : request_args) (s : nat) : list event :=
  if ra_timeout args <=? 0 then [] else [Ev_expires_after s (ra_timeout args)].

(** The script up to the operation of a stage. *)
Definition script_to (st : stage) (args : request_args) (s : nat) : list event :=
  let connect := deadline args s ++ [Ev_async_connect s] in
  let handshake := connect ++ deadline args s ++
    [Ev_set_sni s (ra_host args); Ev_set_verify s (ra_host args); Ev_async_handshake s] in
  let write := handshake ++ deadline args s ++ [Ev_async_write s (build_request args)] in
  match st with
  | Resolve => []
  | Connect => connect
  | Handshake => handshake
  | Write => write
  | Read => write ++ deadline args s ++ [Ev_async_read s]
  end.

Definition script (args : request_args) (s : nat) : list event :=
  script_to Read args s ++ [Ev_expires_never s; Ev_socket_close s].

Definition conforms (args : request_args) (s : nat) (l : list event) : Prop :=
  ∃ p, p `prefix_of` script args s ∧ (l = p ∨ l = p ++ [Ev_stream_cancel s; Ev_socket_close s]).

Lemma transcript_app s t t' : transcript s (t ++ t') = transcript s t ++ transcript s t'.
Proof. apply filter_app. Qed.

Lemma resolved_app t t' : resolved (t ++ t') = resolved t ++ resolved t'.
Proof. apply omap_app. Qed.

(** The script of each stage is a prefix of the next one's. *)
Definition next_stage (st : stage) : option stage :=
  match st with
  | Resolve => Some Connect | Connect => Some Handshake | Handshake => Some Write
  | Write => Some Read | Read => None
  end.

Lemma script_next st st' args s : next_stage st = Some st' →
  script_to st args s `prefix_of` script_to st' args s.
Proof. destruct st; simpl; intros [= <-]; [apply prefix_nil|..]; by apply prefix_app_r. Qed.

Lemma script_to_prefix st args s : script_to st args s `prefix_of` script args s.
Proof.
  transitivity (script_to Read args s); [|by apply prefix_app_r].
  destruct st; repeat (etrans; [by eapply script_next|]); done.
Qed.

Lemma conforms_prefix args s p : p `prefix_of` script args s → conforms args s p.
Proof. intros Hp. exists p. auto. Qed.

(** * The invariant *)

(** The requests that are made: those that the users' calls ask for. *)
Context (asked : request_args → Prop).
Definition asks (a : api_call) : Prop := from_option asked True (api_args a).

(** Events that concern no stream. *)
Definition off_stream (e : event) : bool :=
  match e with Ev_async_resolve _ _ => false | _ => bool_decide (stream_of e = None) end.

Lemma off_stream_transcript s es : Forall (λ e, off_stream e = true) es → transcript s es = [].
Proof.
  induction 1 as [|e es He _ IH]; [done|]. unfold transcript in *. rewrite filter_cons, IH.
  destruct e; simpl in *; (rewrite decide_False by done; done) || done.
Qed.

Lemma off_stream_resolved es : Forall (λ e, off_stream e = true) es → resolved es = [].
Proof. induction 1 as [|e es He _ IH]; [done|]. by destruct e. Qed.

(** The parts that depend on the trace only. *)
Definition Scripts (n : nat) (t : list event) : Prop :=
  length (resolved t) = n ∧
  (∀ s, (n ≤ s)%nat → transcript s t = []) ∧
  (∀ s host port, resolved t !! s = Some (host, port) → ∃ args, asked args ∧
    ra_host args = host ∧ ra_port args = port ∧ conforms args s (transcript s t)).

Lemma scripts_off_stream n t es : Forall (λ e, off_stream e = true) es → Scripts n t → Scripts n (t ++ es).
Proof.
  intros Hes (Hl & Hu & Hc). unfold Scripts. rewrite resolved_app, (off_stream_resolved es), app_nil_r by done.
  split; [done|]. split.
  - intros s Hs. by rewrite transcript_app, Hu, (off_stream_transcript s es) by done.
  - intros s. rewrite transcript_app, (off_stream_transcript s es), app_nil_r by done. apply Hc.
Qed.

(** More events of the stream [s0], which then still conforms. *)
Lemma scripts_on_stream n t es s0 args :
  Forall (λ e, stream_of e = Some s0 ∨ off_stream e = true) es → (s0 < n)%nat →
  resolved t !! s0 = Some (ra_host args, ra_port args) → asked args →
  conforms args s0 (transcript s0 t ++ transcript s0 es) →
  Scripts n t → Scripts n (t ++ es).
Proof.
  intros Hes Hs0 Hr Hargs Hconf (Hl & Hu & Hc).
  assert (resolved es = []) as Hres.
  { clear -Hes. induction Hes as [|e es He _ IH]; [done|]. by destruct e, He. }
  assert (∀ s, s ≠ s0 → transcript s es = []) as Hother.
  { intros s Hne. clear -Hes Hne. induction Hes as [|e es He _ IH]; [done|]. unfold transcript in *.
    rewrite filter_cons, IH. destruct (decide (stream_of e = Some s)) as [Hs|]; [|done].
    destruct He as [He|He]; [congruence|]. by destruct e. }
  unfold Scripts. rewrite resolved_app, Hres, app_nil_r. split; [done|]. split.
  - intros s Hs. by rewrite transcript_app, Hu, Hother by lia.
  - intros s host port Hs. rewrite transcript_app. destruct (decide (s = s0)) as [->|Hne].
    + exists args. rewrite Hr in Hs. by injection Hs as <- <-.
    + rewrite Hother, app_nil_r by done. by apply Hc.
Qed.

(** A new stream. *)
Lemma scripts_resolve n t args : asked args → Scripts n t →
  Scripts (S n) (t ++ [Ev_async_resolve (ra_host args) (ra_port args)]).
Proof.
  intros Hargs (Hl & Hu & Hc). unfold Scripts. rewrite resolved_app. simpl.
  assert (∀ s, transcript s (t ++ [Ev_async_resolve (ra_host args) (ra_port args)]) = transcript s t) as Ht.
  { intros s. rewrite transcript_app. apply app_nil_r. }
  split; [rewrite length_app; simpl; lia|]. split.
  - intros s Hs. rewrite Ht. apply Hu. lia.
  - intros s host port. rewrite Ht, lookup_app_Some. intros [Hs|[Hlen Hs]]; [by apply Hc|].
    apply list_lookup_singleton_Some in Hs as [Hs [= <- <-]]. exists args.
    assert (s = n) as -> by lia. rewrite Hu by done.
    split; [done|]. split; [done|]. split; [done|]. apply conforms_prefix, prefix_nil.
Qed.

(** Between two events: the streams so far conform, and the current stream is
    exactly where the pending operation of its request is. *)
Definition tasks_asked (w : World) : Prop := ∀ args, Task_request args ∈ posted w → asked args.

Definition follows (w : World) (args : request_args) (st : stage) (s : nat) : Prop :=
  asked args ∧ resolved (trace w) !! s = Some (ra_host args, ra_port args) ∧
  host (client w) = ra_host args ∧ timeout (client w) = ra_timeout args ∧
  http_request (client w) = build_request args ∧
  transcript s (trace w) = script_to st args s.

Record Protocol (w : World) : Prop := {
  pr_scripts : Scripts (next_stream w) (trace w);
  pr_current op s : op ∈ pending w → is_current (client w) op = true → stream (client w) = Some s →
    ∃ args, follows w args (op_stage op) s;
  pr_posted : tasks_asked w;
}.

Lemma Protocol_init : Protocol World_init.
Proof.
  split; [split; [done|]; split; [done|]|..].
  - intros s host port Hs. by destruct s.
  - intros op s Hop. by apply not_elem_of_nil in Hop.
  - intros args Ht. by apply not_elem_of_nil in Ht.
Qed.

(** A client with no request in progress. *)
Lemma Protocol_idle (w : World) :
  state (client w) ≠ RequestState.in_progress → Scripts (next_stream w) (trace w) →
  tasks_asked w → Protocol w.
Proof. intros Hs ? ?. split; [done| |done]. intros op s _ Hc. by rewrite not_current_idle in Hc. Qed.

Definition same_request (c c' : Client) : Prop :=
  state c' = state c ∧ request_generation c' = request_generation c ∧ stream c' = stream c ∧
  host c' = host c ∧ timeout c' = timeout c ∧ http_request c' = http_request c.

(** More events of no stream. *)
Lemma Protocol_more (w w' : World) es :
  next_stream w' = next_stream w → same_request (client w) (client w') →
  trace w' = trace w ++ es → Forall (λ e, off_stream e = true) es →
  (∀ op, op ∈ pending w' → op ∈ pending w) → tasks_asked w' → Protocol w → Protocol w'.
Proof.
  intros Hn (Es & Eg & Est & Eh & Eto & Er) Ht Hes Hp Hposted [Hsc Hcur _]. split.
  - rewrite Hn, Ht. by apply scripts_off_stream.
  - intros op s Hop Hc Hs. rewrite Est in Hs.
    assert (is_current (client w) op = true) as Hc' by (revert Hc; unfold is_current; by rewrite Es, Eg).
    destruct (Hcur op s (Hp _ Hop) Hc' Hs) as (args & Ha & Hr & Hf). exists args.
    unfold follows. rewrite Eh, Eto, Er, Ht, resolved_app, transcript_app, (off_stream_resolved es),
      (off_stream_transcript s es), !app_nil_r by done. done.
  - done.
Qed.

Lemma same_request_refl c : same_request c c.
Proof. done. Qed.

Lemma Protocol_called l (w : World) : Forall asks l → Protocol w → Protocol (called l w).
Proof.
  intros Hl HP. apply (Protocol_more w _ (map api_event l)); try done.
  - apply Forall_forall. intros e (a & -> & _)%list_elem_of_fmap. by destruct a.
  - intros args. unfold called, logs. simpl. intros [Ht|Ht]%elem_of_app; [by apply (pr_posted _ HP)|].
    apply list_elem_of_fmap in Ht as (a & Heq & Ha). rewrite Forall_forall in Hl.
    specialize (Hl _ Ha). revert Heq Hl. unfold api_task, asks.
    destruct (api_args a); [|done]. by intros [= ->].
Qed.

(** The users' callbacks make requests of the same kind. *)
Context (Hreact : ∀ t h ec r, Forall asks (react t h ec r)).

Lemma Protocol_invoked h ec r (w : World) : Protocol w → Protocol (invoked react h ec r w).
Proof.
  intros HP. destruct h as [h|]; [|done]. apply Protocol_called; [apply Hreact|].
  apply (Protocol_more w _ [Ev_callback h ec r]); try done; [by repeat constructor|apply HP].
Qed.

Lemma Protocol_completed ec r (w : World) :
  Scripts (next_stream w) (trace w) → tasks_asked w → Protocol (completed react ec r w).
Proof. intros. by apply Protocol_invoked, Protocol_idle. Qed.

(** * Every step *)

(** The events of a stage are the next part of the script. *)
Lemma stage_follows_script st c cl args s :
  host cl = ra_host args → timeout cl = ra_timeout args → http_request cl = build_request args →
  let l := script_to st args s ++ stage_events st c cl s in
  match stage_outcome st c with
  | Out_next st' => l = script_to st' args s
  | Out_done _ => l = script args s
  | Out_fail _ => l `prefix_of` script args s
  end.
Proof.
  intros Eh Et Er. unfold stage_outcome, stage_events, timeout_events. rewrite Eh, Et, Er.
  destruct (is_error (c_ec c)).
  { rewrite app_nil_r. apply script_to_prefix. }
  fold (deadline args s). destruct st; try reflexivity; try (simpl; rewrite <- ?app_assoc; reflexivity).
  destruct (sni_ok _); simpl; [destruct (is_error (verify_ec _)); simpl|].
  - trans (script_to Handshake args s); [|apply script_to_prefix].
    exists [Ev_async_handshake s]. simpl. by rewrite <- !app_assoc.
  - by rewrite <- !app_assoc.
  - trans (script_to Handshake args s); [|apply script_to_prefix].
    exists [Ev_set_verify s (ra_host args); Ev_async_handshake s]. simpl. by rewrite <- !app_assoc.
Qed.

Lemma stage_events_stream st c cl s :
  Forall (λ e, stream_of e = Some s ∨ off_stream e = true) (stage_events st c cl s) ∧
  transcript s (stage_events st c cl s) = stage_events st c cl s.
Proof.
  assert (Forall (λ e, stream_of e = Some s) (stage_events st c cl s)) as Hall.
  { unfold stage_events, timeout_events.
    destruct (is_error _), st; split_ifs; simpl; repeat constructor. }
  split; [eapply Forall_impl; [exact Hall|auto]|]. unfold transcript.
  generalize dependent (stage_events st c cl s). intros l Hall.
  induction Hall as [|e l He _ IH]; [done|]. by rewrite filter_cons, decide_True, IH.
Qed.

(** The end of a stream, after the events [es] of its request. *)
Lemma scripts_teardown n t s0 args es :
  Forall (λ e, stream_of e = Some s0 ∨ off_stream e = true) es → (s0 < n)%nat →
  resolved t !! s0 = Some (ra_host args, ra_port args) → asked args →
  transcript s0 t ++ transcript s0 es `prefix_of` script args s0 →
  Scripts n t → Scripts n (t ++ es ++ teardown_events s0).
Proof.
  intros Hes Hs0 Hr Hargs Hp. apply (scripts_on_stream _ _ _ s0 args); try done.
  - apply Forall_app. split; [done|]. unfold teardown_events. rewrite !Forall_cons, Forall_nil. simpl. auto 10.
  - exists (transcript s0 t ++ transcript s0 es). split; [done|]. right.
    rewrite transcript_app, app_assoc. f_equal.
    unfold transcript, teardown_events. rewrite !filter_cons, filter_nil. simpl.
    by repeat case_decide.
Qed.

Lemma started_follows args (w : World) : asked args → Scripts (next_stream w) (trace w) →
  follows (started args w) args Resolve (next_stream w).
Proof.
  intros Hargs (Hl & Hu & _). unfold follows. simpl.
  split; [done|]. split; [|split; [done|split; [done|split; [done|]]]].
  - rewrite resolved_app, lookup_app_r by lia. by rewrite Hl, Nat.sub_diag.
  - rewrite transcript_app, Hu by done. reflexivity.
Qed.

Lemma Protocol_started n args (w : World) :
  Z.of_nat n < two64 - 1 → Core n w → asked args → Protocol w → Protocol (started args w).
Proof.
  intros Hn Hcore Hargs [Hsc _ Hposted]. assert (Hsucc := u64_succ_small _ _ (core_generation _ _ Hcore) Hn).
  split; simpl.
  - by apply scripts_resolve.
  - intros op s [Hop| ->%list_elem_of_singleton]%elem_of_app Hc [= <-].
    + exfalso. apply (core_pending _ _ Hcore) in Hop. unfold is_current in Hc. simpl in Hc.
      rewrite Hsucc in Hc. apply Z.eqb_eq in Hc. lia.
    + exists args. by apply started_follows.
  - done.
Qed.

(** The current operation, and where its stream is in the script. *)
Lemma current_follows n s (w : World) : Core n w → Protocol w →
  state (client w) = RequestState.in_progress → stream (client w) = Some s →
  (s < next_stream w)%nat ∧ ∃ args st, follows w args st s.
Proof.
  intros Hcore HP Hip Hs. split; [by apply (core_next _ _ Hcore)|].
  destruct (current_operation _ _ Hcore Hip) as (i & op & Hi & Hc).
  destruct (pr_current _ HP op s) as (args & Hf); [by eapply list_elem_of_lookup_2|done|done|].
  by exists args, (op_stage op).
Qed.

Lemma Protocol_cancelled n s (w : World) : Core n w → Protocol w →
  state (client w) = RequestState.in_progress → stream (client w) = Some s →
  Protocol (cancelled react s w).
Proof.
  intros Hcore HP Hip Hs.
  destruct (current_follows n s w Hcore HP Hip Hs) as (Hlt & args & st & Ha & Hr & _ & _ & _ & Ht).
  apply Protocol_completed; [|by apply HP].
  apply (scripts_teardown _ _ s args []); try done; [|by apply HP].
  rewrite app_nil_r, Ht. apply script_to_prefix.
Qed.

Lemma same_request_delivered op c (w : World) : same_request (client w) (client (delivered op c w)).
Proof. unfold delivered. by case_decide. Qed.

Lemma Protocol_delivered op c (w : World) : Protocol w → Protocol (delivered op c w).
Proof.
  intros HP. destruct (client_delivered op c w) as (_ & _ & _ & _ & _ & Ep & Epp & Et & En).
  apply (Protocol_more w _ []); rewrite ?app_nil_r, ?Epp; try done; [apply same_request_delivered|].
  unfold tasks_asked. rewrite Ep. apply HP.
Qed.

Lemma stage_script_prefix st c cl args s :
  host cl = ra_host args → timeout cl = ra_timeout args → http_request cl = build_request args →
  script_to st args s ++ stage_events st c cl s `prefix_of` script args s.
Proof.
  intros Eh Et Er. assert (Hf := stage_follows_script st c cl args s Eh Et Er). simpl in Hf.
  destruct (stage_outcome st c) as [ec|st'|r]; [done| |by rewrite Hf].
  rewrite Hf. apply script_to_prefix.
Qed.

Lemma Protocol_stage_result n i op c s (w : World) :
  Core n w → Protocol w → pending w !! i = Some op → is_current (client w) op = true →
  stream (client w) = Some s → Protocol (stage_result react op c s (w <| pending ::= delete i |>)).
Proof.
  intros Hcore HP Hi Hcur Hs. assert (Hlt := core_next _ _ Hcore _ Hs).
  assert (Hdel := pending_delete _ _ _ _ Hcore Hi). rewrite Hcur in Hdel. destruct Hdel as [_ Hnone].
  destruct (pr_current _ HP op s) as (args & Ha & Hr & Eh & Eto & Er & Ht);
    [by eapply list_elem_of_lookup_2|done|done|].
  set (w1 := w <| pending ::= delete i |>) in *.
  destruct (client_delivered op c w1) as (_ & Es & Est & Eg & _ & Ep & Epp & Et & En).
  destruct (same_request_delivered op c w1) as (_ & _ & _ & Eh' & Eto' & Er').
  assert (Hscript := stage_follows_script (op_stage op) c (client w1) args s Eh Eto Er).
  assert (Hprefix := stage_script_prefix (op_stage op) c (client w1) args s Eh Eto Er).
  destruct (stage_events_stream (op_stage op) c (client w1) s) as [Hon Hall].
  unfold stage_result. set (es := stage_events (op_stage op) c (client w1) s) in *.
  rewrite <- Ht, <- Hall in Hprefix.
  destruct (stage_outcome (op_stage op) c) as [ec|st|r].
  - apply Protocol_completed; unfold tasks_asked; simpl; rewrite ?En, ?Et, ?Ep; [|apply HP].
    rewrite <- app_assoc. apply (scripts_teardown _ _ s args); try done. apply HP.
  - assert (Scripts (next_stream w) (trace w ++ stage_events (op_stage op) c (client w1) s)) as Hsc.
    { apply (scripts_on_stream _ _ _ s args); try done; [by apply conforms_prefix|apply HP]. }
    split; unfold tasks_asked; simpl; rewrite ?En, ?Et, ?Ep, ?Epp; [done| |apply HP].
    intros op' s' [Hop| ->%list_elem_of_singleton]%elem_of_app Hc.
    + exfalso. apply Hnone in Hop. revert Hc Hop. unfold is_current. rewrite Est, Eg. simpl. congruence.
    + rewrite Es. intros Hs'. change (stream (client w) = Some s') in Hs'. rewrite Hs in Hs'.
      injection Hs' as <-. exists args. unfold follows. simpl.
      rewrite Eh', Eto', Er', resolved_app, transcript_app, Hall, Ht. split; [done|]. split; [by apply lookup_app_l_Some|]. done.
  - apply Protocol_completed; unfold tasks_asked; simpl; rewrite ?En, ?Et, ?Ep; [|apply HP].
    apply (scripts_on_stream _ _ _ s args); try done; [by apply conforms_prefix|apply HP].
Qed.

Lemma Protocol_complete n i op c (w : World) : Core n w → Protocol w → pending w !! i = Some op →
  wp (complete_operation react op c) (λ _, Protocol) (w <| pending ::= delete i |>).
Proof.
  intros Hcore HP Hi. unfold wp. destruct (is_current (client w) op) eqn:Hcur.
  - assert (Hdel := pending_delete _ _ _ _ Hcore Hi). rewrite Hcur in Hdel.
    destruct Hdel as [Hip _]. assert (Hst := core_state _ _ Hcore). rewrite Hip in Hst.
    destruct Hst as [s Hs]. rewrite (complete_current _ _ _ s) by (done || apply Hcore).
    by apply (Protocol_stage_result n).
  - rewrite complete_stale by done. apply Protocol_delivered.
    apply (Protocol_more w _ []); rewrite ?app_nil_r; try done; [|apply HP].
    intros op'. simpl. apply elem_of_delete.
Qed.

Lemma Protocol_task n t (w : World) : Z.of_nat n < two64 - 1 → Core n w → Protocol w →
  (∀ args, t = Task_request args → asked args) → wp (run_task react t) (λ _, Protocol) w.
Proof.
  intros Hn Hcore HP Ht. assert (Hst := core_state _ _ Hcore). unfold wp, run_task.
  destruct t as [args|]; destruct (state (client w)) eqn:Hstate; try done.
  - rewrite do_request_idle by (done || apply Hcore). apply (Protocol_started n); auto.
  - rewrite do_request_busy by (by rewrite ?Hstate || apply Hcore). by apply Protocol_invoked.
  - by rewrite do_cancel_idle.
  - destruct Hst as [s Hs]. rewrite (do_cancel_in_progress _ s) by (done || apply Hcore).
    by apply (Protocol_cancelled n).
Qed.

Lemma Protocol_step n a (w : World) : (n < Z.to_nat two64 - 1)%nat → Core n w → Protocol w →
  (∀ call, a = Act_api call → asks call) → wp (step react a) (λ _, Protocol) w.
Proof.
  intros Hn Hcore HP Ha. assert (Z.of_nat n < two64 - 1) by lia. unfold step.
  destruct a as [a|i|i c]; wp_simpl.
  - unfold wp. rewrite run_api_eq by apply Hcore. apply Protocol_called; [|done].
    by repeat constructor; apply Ha.
  - destruct (posted w !! i) as [t|] eqn:Hi; wp_simpl; [|done].
    apply (Protocol_task n); try done; [by apply (Core_same _ w)| |].
    + apply (Protocol_more w _ []); rewrite ?app_nil_r; try done.
      intros args Hin. apply (pr_posted _ HP). simpl in Hin. by eapply elem_of_delete.
    + intros args ->. apply (pr_posted _ HP). by eapply list_elem_of_lookup_2.
  - destruct (pending w !! i) as [op|] eqn:Hi; wp_simpl; [|done]. by apply (Protocol_complete n).
Qed.
(** The calls made from outside ask for requests of that kind too. *)
Definition asked_action (a : action) : Prop := match a with Act_api call => asks call | _ => True end.

Lemma Protocol_steps acts : Z.of_nat (length acts) < two64 → Forall asked_action acts →
  wp (steps react acts) (λ _, Protocol) World_init.
Proof.
  intros Hlen Hacts. eapply wp_mono;
    [apply (run_invariant_on (step react) asked_action (λ n w, Inv n w ∧ Protocol w)
      (Z.to_nat two64 - 1) 0 acts)|].
  - intros n w a Hn Ha [HI HP]. apply wp_and; [by apply Inv_step|].
    apply (Protocol_step n); [done|apply HI|done|]. by intros call ->.
  - done.
  - split; [apply Inv_init|apply Protocol_init].
  - lia.
  - by intros [] w [_ ?].
Qed.

(** C3: whatever the users, the executor and the libraries do, everything that
    is asked of a stream is a prefix of the script of one request that a user
    asked for, to the host and port that were resolved for that stream, followed
    by nothing or by the tear-down alone: every stage is under the request's
    time-out, the host is named and set up for verification before the TLS
    handshake, nothing is sent before the handshake, the message sent is the one
    that was asked for, requests do not mix, and an ended stream is left alone.
    No stream is used that was not resolved for. *)
Theorem each_stream_serves_one_request acts :
  Z.of_nat (length acts) < two64 → Forall asked_action acts →
  wp (steps react acts) (λ _ w,
    (∀ s host port, resolved (trace w) !! s = Some (host, port) →
      ∃ args, asked args ∧ ra_host args = host ∧ ra_port args = port ∧
        conforms args s (transcript s (trace w))) ∧
    (∀ s, (length (resolved (trace w)) ≤ s)%nat → transcript s (trace w) = [])) World_init.
Proof.
  intros Hlen Hacts. eapply wp_mono; [by apply Protocol_steps|].
  intros [] w [(Hl & Hu & Hc) _ _]. split; [done|]. intros s. rewrite Hl. apply Hu.
Qed.
(** * Success *)

(** Everything in the completion succeeds. *)
Definition succeeds (c : completion) : Prop :=
  is_error (c_ec c) = false ∧ sni_ok (c_env c) = true ∧ is_error (verify_ec (c_env c)) = false.

Lemma success_outcome st c : succeeds c →
  stage_outcome st c =
    match next_stage st with Some st' => Out_next st' | None => Out_done (make_response (c_response c)) end.
Proof.
  intros (Hec & Hsni & Hver). unfold stage_outcome. rewrite Hec, Hsni, Hver. by destruct st.
Qed.

(** The current request is at the stage [st] of its script on the stream [s]. *)
Definition working (args : request_args) (st : stage) (s : nat) (i : nat) (w : World) : Prop :=
  ∃ op, pending w !! i = Some op ∧ op_stage op = st ∧ is_current (client w) op = true ∧
    stream (client w) = Some s ∧ follows w args st s.

(** The request is over: its stream has seen the whole script, and its handler
    was called last with the response [r], before what it then called. *)
Definition served (args : request_args) (s : nat) (h : option handler) (r : HttpResponse) (w : World) : Prop :=
  state (client w) = RequestState.idle ∧ transcript s (trace w) = script args s ∧
  match h with
  | Some h => ∃ l l', trace w = l ++ Ev_callback h no_error r :: map api_event l'
  | None => True
  end.

Lemma transcript_calls s l : transcript s (map api_event l) = [].
Proof.
  apply off_stream_transcript, Forall_forall. intros e (a & -> & _)%list_elem_of_fmap. by destruct a.
Qed.

Lemma served_completed args s r (w : World) : transcript s (trace w) = script args s →
  served args s (response_handler (client w)) r (completed react no_error r w).
Proof.
  intros Ht. unfold served. rewrite client_completed. split; [done|]. unfold completed.
  destruct (response_handler (client w)) as [h|]; [|done]. unfold invoked, called, logs. simpl. split.
  - rewrite !transcript_app, transcript_calls, app_nil_r, Ht. apply app_nil_r.
  - eexists (trace w), _. by rewrite <- app_assoc.
Qed.

Lemma served_ended args s r (w : World) : transcript s (trace w) = script args s →
  served args s (response_handler (client w)) r
    (completed react no_error r (w <| client ::= λ c, c <| stream := None |> |>)).
Proof.
  intros Ht. set (w2 := w <| client ::= _ |>).
  change (response_handler (client w)) with (response_handler (client w2)).
  assert (transcript s (trace w2) = script args s) as Ht2 by exact Ht. by apply served_completed.
Qed.

(** One more success: the next stage, or the end. *)
Lemma success_step n args st s i c (w : World) :
  Inv n w → Protocol w → working args st s i w → succeeds c →
  wp (step react (Act_complete i c)) (λ _ w', Inv n w' ∧ Protocol w' ∧
    match next_stage st with
    | Some st' => response_handler (client w') = response_handler (client w) ∧ ∃ j, working args st' s j w'
    | None => served args s (response_handler (client w)) (make_response (c_response c)) w'
    end) w.
Proof.
  intros HI HP (op & Hi & <- & Hcur & Hs & Ha & Hr & Eh & Eto & Er & Ht) Hc.
  assert (HI' := HI). destruct HI' as [Hcore _].
  unfold step. wp_simpl. rewrite Hi. wp_simpl. set (w1 := w <| pending ::= delete i |>).
  apply wp_and; [exact (Inv_complete react n w i op c HI Hi)|].
  apply wp_and; [exact (Protocol_complete n i op c w Hcore HP Hi)|].
  change (wp (complete_operation react op c) (λ _ w', match next_stage (op_stage op) with
    | Some st' => response_handler (client w') = response_handler (client w) ∧ ∃ j, working args st' s j w'
    | None => served args s (response_handler (client w)) (make_response (c_response c)) w'
    end) w1). unfold wp. rewrite (complete_current react op c s w1 (core_alive _ _ Hcore) Hs Hcur).
  destruct (client_delivered op c w1) as (Ehd & Es & Est & Eg & _ & Ep & Epp & Et & _).
  destruct (same_request_delivered op c w1) as (_ & _ & _ & Eh' & Eto' & Er').
  assert (Hscript := stage_follows_script (op_stage op) c (client w1) args s Eh Eto Er).
  destruct (stage_events_stream (op_stage op) c (client w1) s) as [Hon Hall].
  unfold stage_result. set (es := stage_events (op_stage op) c (client w1) s) in *.
  rewrite (success_outcome (op_stage op) c Hc) in *. destruct (next_stage (op_stage op)) as [st'|].
  - split; [exact Ehd|]. exists (length (pending w1)).
    exists {| op_stage := st'; op_generation := op_generation op; op_stream := Some s |}.
    split; [simpl; rewrite Epp; by apply list_lookup_middle|].
    split; [done|]. split; [revert Hcur; unfold is_current; simpl; by rewrite Est, Eg|].
    split; [simpl; by rewrite Es|].
    unfold follows. simpl. rewrite Eh', Eto', Er', Et, resolved_app, transcript_app, Hall.
    split; [done|]. split; [by apply lookup_app_l_Some|]. split; [done|]. split; [done|]. split; [done|].
    rewrite <- Hscript. f_equal. exact Ht.
  - change (response_handler (client w1)) with (response_handler (client w)) in Ehd.
    rewrite <- Ehd. apply (served_ended args s _ (logs es (delivered op c w1))).
    simpl. rewrite Et, transcript_app, Hall, <- Hscript. f_equal. exact Ht.
Qed.

(** Successes, one for each stage that is left. *)
Lemma successes_serve n args s cs : ∀ st i (w : World) c,
  Inv n w → Protocol w → working args st s i w → rank st = S (length cs) →
  Forall succeeds (cs ++ [c]) →
  ∃ js, length js = rank st ∧ wp (steps react (zip_with Act_complete js (cs ++ [c]))) (λ _ w',
    served args s (response_handler (client w)) (make_response (c_response c)) w') w.
Proof.
  induction cs as [|c1 cs IH]; intros st i w c HI HP Hw Hrank Hcs.
  - simpl in Hcs. apply Forall_cons in Hcs as [Hc _]. exists [i]. split; [done|]. unfold steps, run. cbn [zip_with app for_each].
    apply wp_bind. eapply wp_mono; [exact (success_step n args st s i c w HI HP Hw Hc)|].
    intros [] w' (_ & _ & Hsv).
    destruct st; simpl in Hrank; try lia. by apply wp_ret.
  - apply Forall_cons in Hcs as [Hc1 Hcs].
    destruct (wp_ok _ _ _ (success_step n args st s i c1 w HI HP Hw Hc1))
      as ([] & w1 & Hw1 & HI1 & HP1 & Hnext).
    assert (∃ st', next_stage st = Some st' ∧ rank st' = S (length cs)) as (st' & Hst' & Hr').
    { destruct st; simpl in Hrank; try lia; (eexists; split; [done|]); simpl; lia. }
    rewrite Hst' in Hnext. destruct Hnext as [Hh [j Hj]].
    destruct (IH st' j w1 c HI1 HP1 Hj Hr' Hcs) as (js & Hjs & Hwp).
    exists (i :: js). split; [simpl; rewrite Hjs, Hr', Hrank; done|].
    unfold steps, run in *. cbn [zip_with app for_each]. apply wp_bind. unfold wp at 1.
    rewrite Hw1. by rewrite <- Hh.
Qed.

(** C14: in every reachable state, a request that is taken up by an idle client
    and whose five operations all succeed runs its whole script on its own
    stream, and its handler is called with the response that was read. *)
Theorem successful_request_runs_its_script n i args (w : World) c1 c2 c3 c4 c5 :
  Z.of_nat n < two64 - 1 → Inv n w → Protocol w → is_busy w = false →
  posted w !! i = Some (Task_request args) → Forall succeeds [c1; c2; c3; c4; c5] →
  ∃ js, length js = 5%nat ∧
    wp (steps react (Act_task i :: zip_with Act_complete js [c1; c2; c3; c4; c5]))
      (λ _, served args (next_stream w) (ra_handler args) (make_response (c_response c5))) w.
Proof.
  intros Hn HI HP Hbusy Hi Hcs. unfold is_busy in Hbusy. apply bool_decide_eq_false, dec_stable in Hbusy.
  set (w1 := w <| posted ::= delete i |>). set (w2 := started args w1).
  assert (asked args) as Hargs by (apply (pr_posted _ HP); by eapply list_elem_of_lookup_2).
  assert (step react (Act_task i) w = Ok (tt, w2)) as Hstep.
  { unfold step, bind, gets. rewrite Hi. unfold modify. simpl. by apply (do_request_idle react args w1 (core_alive _ _ (proj1 HI))). }
  assert (Inv (S n) w2) as HI2.
  { exact (wp_result _ _ _ _ _ (Inv_step react n (Act_task i) w ltac:(lia) HI) Hstep). }
  assert (Protocol w2) as HP2.
  { apply (wp_result _ _ _ _ _ (Protocol_step n (Act_task i) w ltac:(lia) (proj1 HI) HP ltac:(done)) Hstep). }
  assert (working args Resolve (next_stream w) (length (pending w)) w2) as Hw2.
  { exists {| op_stage := Resolve; op_generation := u64_succ (request_generation (client w)); op_stream := None |}.
    split; [by apply list_lookup_middle|]. split; [done|]. split; [|split; [done|]].
    - unfold is_current. simpl. by rewrite Z.eqb_refl.
    - apply (started_follows args w1 Hargs). apply HP. }
  destruct (successes_serve (S n) args (next_stream w) [c1; c2; c3; c4] Resolve _ w2 c5 HI2 HP2 Hw2 eq_refl Hcs)
    as (js & Hjs & Hwp).
  exists js. split; [exact Hjs|]. unfold steps, run in *. cbn [for_each]. apply wp_bind. unfold wp at 1.
  rewrite Hstep. exact Hwp.
Qed.
End protocol.

(** Two users' requests and a third one from a callback: the first one fails in
    its TLS handshake, the others are left at various stages. *)
#[local] Existing Instances Demo.beast.

Definition demo_run : list action :=
  Demo.handshaking ++ [Act_complete 0 Demo.reset; Act_task 0; Act_complete 0 Demo.ok].

Lemma each_stream_serves_one_request_witness :
  transcript 0 (trace (Demo.world demo_run)) =
    script_to Handshake Demo.args 0 ++ [Ev_stream_cancel 0; Ev_socket_close 0] ∧
  wp (steps Demo.eager demo_run) (λ _ w,
    (∀ s host port, resolved (trace w) !! s = Some (host, port) →
      ∃ args, args = Demo.args ∧ ra_host args = host ∧ ra_port args = port ∧
        conforms args s (transcript s (trace w))) ∧
    (∀ s, (length (resolved (trace w)) ≤ s)%nat → transcript s (trace w) = [])) World_init.
Proof.
  split; [reflexivity|].
  apply (each_stream_serves_one_request Demo.eager (λ args, args = Demo.args));
    [intros; repeat constructor|reflexivity|repeat constructor].
Defined.

Definition all_args (args : request_args) : Prop := True.

Lemma all_asked t h ec r : Forall (asks all_args) (Demo.quiet t h ec r).
Proof. constructor. Qed.

Definition waiting_request : list action := [Act_api (Api_request Demo.args)].

Lemma successful_request_runs_its_script_witness :
  let w := Demo.world waiting_request in
  is_busy w = false ∧
  ∃ js, length js = 5%nat ∧
    wp (steps Demo.quiet (Act_task 0 :: zip_with Act_complete js [Demo.ok; Demo.ok; Demo.ok; Demo.ok; Demo.ok]))
      (λ _, served Demo.args 0 (Some 7%nat) (make_response (c_response Demo.ok))) w.
Proof.
  intros w. split; [reflexivity|].
  assert (Protocol all_args w) as HP.
  { assert (Hs : wp (steps Demo.quiet waiting_request) (λ _, Protocol all_args) World_init).
    { apply (Protocol_steps Demo.quiet all_args all_asked); [reflexivity|].
      apply Forall_cons. split; [exact I|constructor]. }
    exact Hs. }
  apply (successful_request_runs_its_script Demo.quiet all_args all_asked 1 0 Demo.args w
    Demo.ok Demo.ok Demo.ok Demo.ok Demo.ok);
    [reflexivity|exact (Demo.world_Inv waiting_request eq_refl)|exact HP|reflexivity|reflexivity|].
  assert (succeeds Demo.ok) by (split; [reflexivity|split; reflexivity]). by repeat constructor.
Defined.
