(* ===== verification/Timer.v ===== *)
(** The timer of [cpp_components/timer/timer.cpp], a wrapper of Asio's
    [steady_timer].

    [SteadyTimer] is the wrapped object: the calls the wrapper makes on it, as
    computations on a world [W].  What Asio keeps of a wait is the lambda that
    [Timer::async_wait] builds, a [wait_lambda] around the caller's handler,
    which may be empty; [run_wait] is that lambda's body.  The clients of the
    timer (the WebSocket clients) give the instances.  What Asio documents of a
    timer is [SteadyTimerLaws]; from it, any sequence of the owner's calls and
    of expiries answers every wait once ([every_wait_is_answered_once]). *)

From S2P Require Import Prelude.

(** The lambda of [async_wait], with its captured [std::function]. *)
Record wait_lambda (H : Type) := Wait { wait_handler : option H }.
Arguments Wait {H} wait_handler.
Arguments wait_handler {H} _.

(** Asio's [steady_timer]: durations and time points are counts of the steady
    clock's period. *)
Record SteadyTimer (W H : Type) := {
  steady_expires_after : Z → M W unit;
  steady_expires_at : Z → M W unit;
  steady_async_wait : wait_lambda H → M W unit;
  steady_cancel : M W error_code;
}.
Arguments steady_expires_after {W H} _ _.
Arguments steady_expires_at {W H} _ _.
Arguments steady_async_wait {W H} _ _.
Arguments steady_cancel {W H} _.

Section timer.
Context {W H : Type} (timer : SteadyTimer W H).

Definition expires_after (duration : Z) : M W unit := steady_expires_after timer duration.

Definition expires_at (time_point : Z) : M W unit := steady_expires_at timer time_point.

(** The expiry is Asio's: [steady_expiry] is what it reports. *)
Definition expiry (steady_expiry : M W Z) : M W Z := steady_expiry.

Definition async_wait (handler : option H) : M W unit := steady_async_wait timer (Wait handler).

(** The body of the lambda: an empty handler is not called. *)
Definition run_wait (call : H → error_code → M W unit) (l : wait_lambda H) (ec : error_code) : M W unit :=
  match wait_handler l with
  | None => ret tt
  | Some handler => call handler ec
  end.

Definition cancel : M W unit :=
  let! ec := steady_cancel timer in
  ret tt.

(** [~Timer()] *)
Definition destroy : M W unit :=
  let! ec := steady_cancel timer in
  ret tt.
End timer.

(** What Asio documents of [steady_timer]: the waits that have not completed,
    and the completions that are due, in order; cancelling, and giving a new
    expiry, completes every outstanding wait with [operation_aborted].
    [elapse] is what the clock does when it reaches the expiry: it completes them
    without an error. *)
Class SteadyTimerLaws {W H : Type} (timer : SteadyTimer W H) := {
  outstanding_waits : W → list (wait_lambda H);
  due : W → list (wait_lambda H * error_code);
  steady_expiry : M W Z;
  elapse : M W unit;
  aborted : error_code;
  aborted_is_error : is_error aborted = true;
  wait_law l w : wp (steady_async_wait timer l) (λ _ w',
    outstanding_waits w' = outstanding_waits w ++ [l] ∧ due w' = due w) w;
  cancel_law w : wp (steady_cancel timer) (λ _ w',
    outstanding_waits w' = [] ∧
    due w' = due w ++ map (λ l, (l, aborted)) (outstanding_waits w)) w;
  expires_after_law d w : wp (steady_expires_after timer d) (λ _ w',
    outstanding_waits w' = [] ∧
    due w' = due w ++ map (λ l, (l, aborted)) (outstanding_waits w)) w;
  expires_at_law t w : wp (steady_expires_at timer t) (λ _ w',
    (outstanding_waits w' = [] ∧
     due w' = due w ++ map (λ l, (l, aborted)) (outstanding_waits w)) ∧
    wp steady_expiry (λ t' w'', t' = t ∧ w'' = w') w') w;
  elapse_law w : wp elapse (λ _ w',
    outstanding_waits w' = [] ∧
    due w' = due w ++ map (λ l, (l, no_error)) (outstanding_waits w)) w;
}.

Section laws.
Context {W H : Type} (timer : SteadyTimer W H) `{!SteadyTimerLaws timer}.

(** The calls of user handlers that the due completions stand for. *)
Definition due_calls (w : W) : list (H * error_code) :=
  omap (λ d, (λ h, (h, snd d)) <$> wait_handler (fst d)) (due w).

Lemma due_calls_complete ec w w' :
  due w' = due w ++ map (λ l, (l, ec)) (outstanding_waits w) →
  due_calls w' = due_calls w ++ map (λ h, (h, ec)) (omap wait_handler (outstanding_waits w)).
Proof.
  intros E. unfold due_calls. rewrite E, omap_app. f_equal.
  generalize (outstanding_waits w). clear E. intros ls.
  induction ls as [|[[h|]] ls IH]; [done| |exact IH].
  change ((h, ec) :: omap (λ d, (λ h, (h, snd d)) <$> wait_handler (fst d))
    (map (λ l, (l, ec)) ls) = (h, ec) :: map (λ h, (h, ec)) (omap wait_handler ls)).
  by rewrite IH.
Qed.

(** Running the completions that are due makes those calls. *)
Lemma run_due (call : H → error_code → M W unit) ds :
  for_each (λ d, run_wait call (fst d) (snd d)) ds ≡
  for_each (λ c, call (fst c) (snd c)) (omap (λ d, (λ h, (h, snd d)) <$> wait_handler (fst d)) ds).
Proof.
  induction ds as [|[[[h|]] ec] ds IH]; intros w; simpl; [done|..]; unfold run_wait at 1, bind; simpl.
  - destruct (call h ec w) as [[[] w']|]; [apply IH|done].
  - apply IH.
Qed.

(** Waiting with any list of handlers and then destroying the timer, or
    cancelling it, makes exactly the calls of the handlers that are not empty,
    in the order of the waits, each with [operation_aborted]; an earlier wait is
    aborted by a new [expires_after] likewise. *)
Theorem destroy_aborts_every_wait hs d w :
  outstanding_waits w = [] →
  wp (expires_after timer d ;;; for_each (async_wait timer) hs ;;; destroy timer) (λ _ w',
    outstanding_waits w' = [] ∧
    due_calls w' = due_calls w ++ map (λ h, (h, aborted)) (omap id hs)) w.
Proof.
  intros Hw. apply wp_bind. eapply wp_mono; [apply expires_after_law|].
  intros [] w1 [H1 D1]. apply wp_bind.
  apply (wp_mono _ (λ _ w', outstanding_waits w' = map Wait hs ∧ due w' = due w)).
  - rewrite Hw in D1. simpl in D1. rewrite app_nil_r in D1.
    assert (∀ ls w', outstanding_waits w' = map Wait ls → due w' = due w →
      wp (for_each (async_wait timer) hs) (λ _ w'',
        outstanding_waits w'' = map Wait (ls ++ hs) ∧ due w'' = due w) w') as Hloop.
    { clear. induction hs as [|h hs IH]; intros ls w' Ho Hd; simpl.
      - by rewrite app_nil_r.
      - apply wp_bind. eapply wp_mono; [apply wait_law|]. intros [] w'' [Ho' Hd'].
        replace (ls ++ h :: hs) with ((ls ++ [h]) ++ hs) by (by rewrite <- app_assoc).
        apply IH; [|congruence]. by rewrite Ho', Ho, map_app. }
    apply (Hloop []); [done|congruence].
  - intros [] w2 [H2 D2]. unfold destroy. apply wp_bind.
    eapply wp_mono; [apply cancel_law|]. intros ec w3 [H3 D3]. apply wp_ret.
    split; [done|]. rewrite (due_calls_complete aborted w2) by done. f_equal.
    + unfold due_calls. by rewrite D2.
    + rewrite H2. f_equal. clear. induction hs as [|[h|] hs IH]; [done| |exact IH].
      exact (f_equal (cons h) IH).
Qed.

(** ** Any use of a timer *)

(** A call of the timer's owner, or the clock reaching the expiry. *)
Inductive timer_step :=
  | Step_expires_after (duration : Z)
  | Step_expires_at (time_point : Z)
  | Step_async_wait (handler : option H)
  | Step_cancel
  | Step_elapse.

Definition run_step (s : timer_step) : M W unit :=
  match s with
  | Step_expires_after d => expires_after timer d
  | Step_expires_at t => expires_at timer t
  | Step_async_wait h => async_wait timer h
  | Step_cancel => cancel timer
  | Step_elapse => elapse
  end.

(** The handlers given to [async_wait], and what ends a wait, with which error. *)
Definition given : list timer_step → list H :=
  omap (λ s, match s with Step_async_wait h => h | _ => None end).
Definition ends (s : timer_step) : option error_code :=
  match s with
  | Step_async_wait _ => None
  | Step_elapse => Some no_error
  | _ => Some aborted
  end.

(** The error of a wait: that of the first step after it that ends one, or that
    of the destructor. *)
Fixpoint error_after (ss : list timer_step) : error_code :=
  match ss with
  | [] => aborted
  | s :: ss => default (error_after ss) (ends s)
  end.
Fixpoint answers (ss : list timer_step) : list (H * error_code) :=
  match ss with
  | [] => []
  | Step_async_wait (Some h) :: ss => (h, error_after ss) :: answers ss
  | _ :: ss => answers ss
  end.

Lemma answers_given ss : map fst (answers ss) = given ss.
Proof. induction ss as [|[| |[h|]| |] ss IH]; simpl; [done..| |done|done|done]. by f_equal. Qed.

(** A step that ends the waits. *)
Lemma run_step_ends s ec w : ends s = Some ec →
  wp (run_step s) (λ _ w', outstanding_waits w' = [] ∧
    due_calls w' = due_calls w ++ map (λ h, (h, ec)) (omap wait_handler (outstanding_waits w))) w.
Proof.
  assert (∀ ec w', outstanding_waits w' = [] ∧ due w' = due w ++ map (λ l, (l, ec)) (outstanding_waits w) →
    outstanding_waits w' = [] ∧
    due_calls w' = due_calls w ++ map (λ h, (h, ec)) (omap wait_handler (outstanding_waits w))) as Hup.
  { intros ec' w' [? ?]. split; [done|by apply due_calls_complete]. }
  intros Hs. destruct s as [d|t|h| |]; try done; injection Hs as <-.
  - eapply wp_mono; [apply expires_after_law|]. intros [] w'. apply Hup.
  - eapply wp_mono; [apply expires_at_law|]. intros [] w' [? _]. by apply Hup.
  - apply wp_bind. eapply wp_mono; [apply cancel_law|]. intros ec w'. apply Hup.
  - eapply wp_mono; [apply elapse_law|]. intros [] w'. apply Hup.
Qed.

(** C40: however a timer is used, every handler that is given to [async_wait] and
    is not empty is called exactly once, in the order of the waits, by the time
    that the timer is destroyed and the due completions have run: without an
    error if the clock reached the expiry before the wait was cancelled, given a
    new expiry or destroyed, and with [operation_aborted] otherwise; an empty one
    is never called.  The expiry is the last that was set. *)
Theorem every_wait_is_answered_once ss w :
  outstanding_waits w = [] → due w = [] →
  wp (for_each run_step ss ;;; destroy timer) (λ _ w',
    outstanding_waits w' = [] ∧ map fst (answers ss) = given ss ∧
    ∀ call : H → error_code → M W unit,
      for_each (λ d, run_wait call (fst d) (snd d)) (due w') ≡
      for_each (λ a, call (fst a) (snd a)) (answers ss)) w ∧
  ∀ t, wp (expires_at timer t ;;; expiry steady_expiry) (λ t' _, t' = t) w.
Proof.
  intros Hw Hd. split.
  2: { intros t. apply wp_bind. eapply wp_mono; [apply expires_at_law|]. intros [] w' [_ He].
       eapply wp_mono; [exact He|]. by intros t' w'' [? _]. }
  assert (∀ w, wp (for_each run_step ss ;;; destroy timer) (λ _ w',
    outstanding_waits w' = [] ∧ due_calls w' = due_calls w ++
      map (λ h, (h, error_after ss)) (omap wait_handler (outstanding_waits w)) ++ answers ss) w) as Hgen.
  { clear w Hw Hd. induction ss as [|s ss IH]; intros w; apply wp_bind.
    - apply wp_ret. eapply wp_mono; [by apply (run_step_ends Step_cancel)|]. intros [] w' [? E].
      by rewrite app_nil_r.
    - apply wp_bind. destruct (ends s) as [ec|] eqn:Hs.
      + eapply wp_mono; [by apply run_step_ends|]. intros [] w1 [O1 E1]. apply wp_bind.
        eapply wp_mono; [apply IH|]. intros [] w2 [O2 E2]. split; [done|].
        rewrite E2, O1, E1, <- app_assoc. simpl. rewrite Hs. by destruct s as [| |[]| |].
      + destruct s as [| |h| |]; try done. eapply wp_mono; [apply wait_law|]. intros [] w1 [O1 D1].
        apply wp_bind. eapply wp_mono; [apply IH|]. intros [] w2 [O2 E2]. split; [done|].
        rewrite E2, O1. unfold due_calls at 1. rewrite D1. fold (due_calls w).
        rewrite omap_app, map_app, <- app_assoc. simpl. by destruct h. }
  eapply wp_mono; [apply Hgen|]. intros [] w' [O E]. split; [done|]. split; [apply answers_given|].
  intros call. rewrite Hw in E. unfold due_calls in E. rewrite Hd in E. simpl in E.
  by rewrite (run_due call (due w')), E.
Qed.
End laws.

(** * Witness *)

Module Demo.
(** A world that is just one timer. *)
Record world := {
  waits : list (wait_lambda nat);
  done_ : list (wait_lambda nat * error_code);
  at_ : Z;
}.

Definition complete (ec : error_code) (w : world) : world :=
  {| waits := []; done_ := done_ w ++ map (λ l, (l, ec)) (waits w); at_ := at_ w |}.
Definition abort : world → world := complete (make_error_code operation_canceled).

Definition steady : SteadyTimer world nat := {|
  steady_expires_after _ := modify abort;
  steady_expires_at t := modify (λ w, {| waits := waits (abort w); done_ := done_ (abort w); at_ := t |});
  steady_async_wait l := modify (λ w, {| waits := waits w ++ [l]; done_ := done_ w; at_ := at_ w |});
  steady_cancel := modify abort ;;; ret no_error;
|}.

#[export] Instance steady_laws : SteadyTimerLaws steady.
Proof.
  refine {| outstanding_waits := waits; due := done_; steady_expiry := gets at_;
            elapse := modify (complete no_error); aborted := make_error_code operation_canceled |}; by try intros.
Defined.
End Demo.

Lemma destroy_aborts_every_wait_witness :
  let w := {| Demo.waits := []; Demo.done_ := []; Demo.at_ := 0 |} in
  wp (expires_after Demo.steady 5 ;;;
      for_each (async_wait Demo.steady) [Some 1%nat; None; Some 2%nat] ;;; destroy Demo.steady)
    (λ _ w', Demo.waits w' = [] ∧
      @due_calls _ _ Demo.steady Demo.steady_laws w' =
        [] ++ map (λ h, (h, make_error_code operation_canceled)) [1%nat; 2%nat]) w.
Proof.
  intros w.
  apply (@destroy_aborts_every_wait _ _ Demo.steady Demo.steady_laws [Some 1%nat; None; Some 2%nat] 5 w).
  reflexivity.
Defined.

(** The first wait elapses; the last one is interrupted by a new expiry. *)
Definition demo_steps : list (timer_step (H := nat)) :=
  [Step_expires_after 5; Step_async_wait (Some 1%nat); Step_elapse; Step_async_wait None;
   Step_async_wait (Some 2%nat); Step_expires_at 9].

Lemma every_wait_is_answered_once_witness :
  let w := {| Demo.waits := []; Demo.done_ := []; Demo.at_ := 0 |} in
  @answers _ _ Demo.steady Demo.steady_laws demo_steps =
    [(1%nat, no_error); (2%nat, make_error_code operation_canceled)] ∧
  wp (for_each (@run_step _ _ Demo.steady Demo.steady_laws) demo_steps ;;; destroy Demo.steady)
    (λ _ w', Demo.waits w' = [] ∧ [1%nat; 2%nat] = [1%nat; 2%nat] ∧
      ∀ call : nat → error_code → M Demo.world unit,
        for_each (λ d, run_wait call (fst d) (snd d)) (Demo.done_ w') ≡
        for_each (λ a, call (fst a) (snd a)) (@answers _ _ Demo.steady Demo.steady_laws demo_steps)) w.
Proof.
  intros w. split; [reflexivity|].
  apply (@every_wait_is_answered_once _ _ Demo.steady Demo.steady_laws demo_steps w); reflexivity.
Defined.
