(* ===== verification/SecureWebSocketClient.v ===== *)
(** The WebSocket client of
    [cpp_components/secure_websocket_client/secure_websocket_client.cpp].

    As in the HTTPS client, a member function is a computation on the [World]:
    the client's fields, the posted tasks, the pending asynchronous operations
    and waits, and the trace of library calls and callbacks.  The executor may
    run tasks, and the libraries complete operations, in any order and with any
    error.  A user's callback may call any API function, [write_now] included,
    which queues at once.

    The write queue is any [FifoQueue] of [WriteSlot]s (the ring of
    [RingBuffer] is one); the size of a slot is the parameter
    [write_slot_size].  A class derived from this one adds its own state,
    tasks, waits and callbacks through [Extension], what its user calls through
    [User], and its overrides through [Virtual]; what these must keep to are
    the classes [ExtensionInvariant], [StableUser] and [StableVirtual] of the
    safety proof. *)

From Stdlib Require Export Init.Byte.
From S2P Require Import Prelude RingBuffer Timer.

(** * Data *)

Definition handler := nat.

Module ConnectionState.
Inductive t := disconnected | connecting | connected | closing.
End ConnectionState.

#[export] Instance connection_state_eq_dec : EqDecision ConnectionState.t.
Proof. solve_decision. Defined.

Module WriteType.
Inductive t := message | ping.
End WriteType.

#[export] Instance write_type_eq_dec : EqDecision WriteType.t.
Proof. solve_decision. Defined.

(** A queued write, stored in place. *)
Record WriteSlot := {
  slot_type : WriteType.t;
  slot_data : list byte;
  slot_filled : nat;                    (* size *)
  slot_handler : option handler;
}.

#[export] Instance slot_settable : Settable WriteSlot := λ s,
  Build_WriteSlot (slot_type s) (slot_data s) (slot_filled s) (slot_handler s).

(** The size of the array of a slot. *)
Class WriteConfig := write_slot_size : nat.

(** What the program uses: 2048 slots of 8 KiB, and a read buffer of 64 KiB. *)
Definition get_write_slot_size : nat := 8 * 1024.
Definition get_write_slot_count : Z := 2048.
Definition get_read_buffer_size : Z := 64 * 1024.
Definition get_read_padding : Z := 64.

Definition empty_slot `{WriteConfig} : WriteSlot := {|
  slot_type := WriteType.message; slot_data := replicate write_slot_size x00;
  slot_filled := 0; slot_handler := None |}.

(** Durations and time points are nanosecond counts of [int64_t]. *)
Definition nanoseconds (s : Z) : Z := s * 1000000000.
Definition connect_timeout : Z := nanoseconds 30.
Definition ping_retry_delay : Z := 100 * 1000000.

(** The two timers, and those of a derived class. *)
Inductive timer_id := Ping_timer | Read_timer | Ext_timer.

(** What a derived class adds. *)
Class Extension := {
  ext_state : Type;
  ext_task : Type;
  ext_wait : Type;
  ext_callback : Type;
  ext_api : Type;
  connect_lambda : Type;        (* what a ConnectHandler can hold *)
}.

Section data.
Context `{Extension} {Q : Type}.

Definition ConnectHandler := option connect_lambda.

(** The handlers that wait on a timer. *)
Inductive timer_callback :=
  | On_ping_timer
  | On_read_timeout
  | On_ext_timer (x : ext_wait).

(** A call of user code. *)
Inductive callback :=
  | Call_connect (h : handler) (ec : error_code)
  | Call_write (h : handler) (ec : error_code)
  | Call_close (h : handler)
  | Call_message (h : handler) (data : list byte)
  | Call_disconnect (h : handler) (ec : error_code)
  | Call_generate (h : handler)
  | Call_ext (c : ext_callback).

(** Library calls; [s] is the stream object. *)
Inductive lib_call :=
  | L_async_resolve (host port : string)
  | L_async_connect (s : nat)
  | L_async_ssl_handshake (s : nat)
  | L_async_websocket_handshake (s : nat) (host resource : string)
  | L_async_read (s : nat)
  | L_async_write (s : nat) (data : list byte)
  | L_async_ping (s : nat)
  | L_resolver_cancel
  | L_stream_cancel (s : nat)
  | L_socket_close (s : nat)
  | L_expires_after (s : nat) (d : Z)
  | L_expires_never (s : nat)
  | L_set_no_delay (s : nat)
  | L_set_sni (s : nat) (host : string)
  | L_set_verify (s : nat) (host : string)
  | L_set_suggested_timeouts (s : nat)
  | L_disable_timeouts (s : nat)
  | L_read_message_max (s : nat) (n : Z)
  | L_timer_expires_after (t : timer_id) (d : Z)
  | L_timer_expires_at (t : timer_id) (tp : Z)
  | L_timer_cancel (t : timer_id).

Inductive event :=
  | Ev_write_call (h : option handler)                  (* write() posted its task *)
  | Ev_connect_call (h : ConnectHandler)
  | Ev_close_call (h : option handler)
  | Ev_write_now (message : list byte) (ec : error_code)
  | Ev_queued (s : nat) (type : WriteType.t) (message : list byte)  (* queue_write took it *)
  | Ev_connect_result (h : connect_lambda) (ec : error_code)
  | Ev_call (c : callback)
  | Ev_lib (c : lib_call).

(** The lambdas posted to the executor. *)
Inductive task :=
  | Task_connect (h : ConnectHandler)
  | Task_write (message : list byte) (h : option handler)
  | Task_close (h : option handler)
  | Task_set_message_handler (h : option handler)
  | Task_set_disconnect_handler (h : option handler)
  | Task_set_ping_message_generator (h : option handler)
  | Task_set_ping_interval (seconds : Z)
  | Task_set_read_timeout (seconds : Z)
  | Task_ext (t : ext_task).

(** Pending operations, by the handler that completes them. *)
Inductive operation :=
  | Op_resolve (h : ConnectHandler)
  | Op_connect (h : ConnectHandler) (s : nat)
  | Op_ssl_handshake (h : ConnectHandler) (s : nat)
  | Op_websocket_handshake (h : ConnectHandler) (s : nat)
  | Op_read (s : nat)
  | Op_write (generation : Z) (s : nat)
  | Op_wait (t : timer_id) (l : wait_lambda timer_callback).

Record Client := {
  host : string;
  port : string;
  resource : string;
  ws : option nat;                      (* which stream object the unique_ptr owns *)
  read_buffer : list byte;
  write_slots : Q;
  write_generation : Z;
  write_in_progress : bool;
  state : ConnectionState.t;
  message_handler : option handler;
  disconnect_handler : option handler;
  ping_message_generator : option handler;
  ping_interval : Z;                    (* seconds *)
  read_timeout : Z;                     (* seconds *)
  last_read_time : Z;
}.

(** What the calls of one executor event find: the clock, the calling thread,
    and the results of the synchronous library calls. *)
Record environment := {
  now : Z;
  running_in_this_thread : bool;
  no_delay_ec : error_code;
  sni_ok : bool;
  sni_error : Z;
  verify_ec : error_code;
}.

Record World := {
  client : Client;
  ext : ext_state;
  expired : bool;                       (* no shared_ptr owns the client *)
  next_stream : nat;
  posted : list task;
  pending : list operation;
  trace : list event;
  env : environment;
}.

(** The functions that user code may call. *)
Inductive api_call :=
  | Api_write (message : list byte) (h : option handler)
  | Api_write_now (message : list byte)
  | Api_set_message_handler (h : option handler)
  | Api_set_disconnect_handler (h : option handler)
  | Api_set_ping_message_generator (h : option handler)
  | Api_set_ping_interval (seconds : Z)
  | Api_set_read_timeout (seconds : Z)
  | Api_ext (a : ext_api).
End data.

Arguments Client Q : clear implicits.
Arguments World {_} Q.

#[export] Instance client_settable Q : Settable (Client Q) := λ c,
  Build_Client (host c) (port c) (resource c) (ws c) (read_buffer c) (write_slots c)
    (write_generation c) (write_in_progress c) (state c) (message_handler c)
    (disconnect_handler c) (ping_message_generator c) (ping_interval c) (read_timeout c)
    (last_read_time c).
#[export] Instance world_settable `{Extension} Q : Settable (World Q) := λ w,
  Build_World (client w) (ext w) (expired w) (next_stream w) (posted w) (pending w) (trace w)
    (env w).

#[export] Instance environment_settable : Settable environment := λ e,
  Build_environment (now e) (running_in_this_thread e) (no_delay_ec e) (sni_ok e) (sni_error e)
    (verify_ec e).

(** The user: what a callback calls, and what a ping generator returns; and how
    the API functions of the derived class (for the base class, [connect] and
    [close]) run. *)
Class User `{Extension} (Q : Type) := {
  react : list event → callback → list api_call;
  generate : list event → handler → list byte;
  run_ext_api : ext_api → M (World Q) unit;
}.

(** * Helpers, and the API that any thread may call *)

Section base.
Context `{Extension} {Q : Type} `{!FifoQueue WriteSlot Q} `{WriteConfig}.
Notation W := (World Q).

Definition Client_init : Client Q := {|
  host := ""; port := ""; resource := ""; ws := None; read_buffer := [];
  write_slots := fq_empty; write_generation := 0; write_in_progress := false;
  state := ConnectionState.disconnected; message_handler := None; disconnect_handler := None;
  ping_message_generator := None; ping_interval := 0; read_timeout := 0; last_read_time := 0;
|}.

Definition World_init (x : ext_state) (e : environment) : W := {|
  client := Client_init; ext := x; expired := false; next_stream := 0; posted := [];
  pending := []; trace := []; env := e;
|}.

Definition log (e : event) : M W unit := modify (λ w, w <| trace ::= λ l, l ++ [e] |>).
Definition lib (c : lib_call) : M W unit := log (Ev_lib c).
Definition getc {A} (f : Client Q → A) : M W A := gets (λ w, f (client w)).
Definition modc (f : Client Q → Client Q) : M W unit := modify (λ w, w <| client ::= f |>).
Definition gete {A} (f : environment → A) : M W A := gets (λ w, f (env w)).

Definition shared_from_this : M W unit :=
  let! gone := gets expired in
  if (gone : bool) then throw BadWeakPtr else ret tt.

Definition executor_post (t : task) : M W unit := modify (λ w, w <| posted ::= λ l, l ++ [t] |>).
Definition start_operation (op : operation) : M W unit :=
  modify (λ w, w <| pending ::= λ l, l ++ [op] |>).

(** [*ws] *)
Definition deref_ws : M W nat :=
  let! s := getc ws in
  require NullDeref s.

(** A signed computation whose result must fit. *)
Definition checked (z : Z) : M W Z := if in_int64 z then ret z else throw SignedOverflow.

(** [std::chrono::seconds] to the clock's [duration]. *)
Definition to_duration (seconds : Z) : M W Z := checked (nanoseconds seconds).

(** The Asio timer under a [Timer] member. *)
Definition asio_timer (t : timer_id) : SteadyTimer W timer_callback := {|
  steady_expires_after d := lib (L_timer_expires_after t d);
  steady_expires_at tp := lib (L_timer_expires_at t tp);
  steady_async_wait l := start_operation (Op_wait t l);
  steady_cancel := lib (L_timer_cancel t) ;;; ret no_error;
|}.

Definition set_state (new_state : ConnectionState.t) : M W unit :=
  modc (λ c, c <| state := new_state |>).
Definition is_connected : M W bool :=
  let! st := getc state in
  ret (bool_decide (st = ConnectionState.connected)).
Definition is_connecting : M W bool :=
  let! st := getc state in
  ret (bool_decide (st = ConnectionState.connecting)).

Definition start_write : M W unit :=
  let! busy := getc write_in_progress in
  let! q := getc write_slots in
  let! s := getc ws in
  if busy || fq_is_empty q || bool_decide (s = None) then ret tt else
  modc (λ c, c <| write_in_progress := true |>) ;;;
  shared_from_this ;;;
  let! slot := require AssertFailed (fq_get_front q) in
  let! generation := getc write_generation in
  let! s := deref_ws in
  if bool_decide (slot_type slot = WriteType.ping) then
    lib (L_async_ping s) ;;;
    start_operation (Op_write generation s)
  else
    lib (L_async_write s (take (slot_filled slot) (slot_data slot))) ;;;
    start_operation (Op_write generation s).

(** [std::copy(message.begin(), message.end(), slot.data.begin())] *)
Definition copy_into (message data : list byte) : list byte :=
  message ++ drop (length message) data.

Definition queue_write (type : WriteType.t) (message : list byte) (handler : option handler) :
    M W error_code :=
  let! st := getc state in
  let! s := getc ws in
  if negb (bool_decide (st = ConnectionState.connected)) || bool_decide (s = None)
  then ret (make_error_code not_connected) else
  if bool_decide (write_slot_size < length message)%nat then ret (make_error_code message_size) else
  let! q := getc write_slots in
  if fq_is_full q then ret (make_error_code no_buffer_space) else
  let! slot := require AssertFailed (fq_get_back_slot q) in
  modc (λ c, c <| write_slots ::= fq_set_back_slot (slot
    <| slot_type := type |> <| slot_data ::= copy_into message |>
    <| slot_filled := length message |> <| slot_handler := handler |>) |>) ;;;
  let! q := getc write_slots in
  let! q' := require AssertFailed (fq_push_back q) in
  modc (λ c, c <| write_slots := q' |>) ;;;
  let! s := deref_ws in
  log (Ev_queued s type message) ;;;
  start_write ;;;
  ret no_error.

Definition write_now (message : list byte) : M W error_code :=
  let! here := gete running_in_this_thread in
  if negb here then ret (make_error_code operation_not_permitted)
  else queue_write WriteType.message message None.

Definition write (message : list byte) (h : option handler) : M W unit :=
  shared_from_this ;;;
  log (Ev_write_call h) ;;;
  executor_post (Task_write message h).

Definition connect (host_ port_ resource_ : string) (h : ConnectHandler) : M W unit :=
  modc (λ c, c <| host := host_ |>) ;;;
  modc (λ c, c <| port := port_ |>) ;;;
  modc (λ c, c <| resource := resource_ |>) ;;;
  shared_from_this ;;;
  log (Ev_connect_call h) ;;;
  executor_post (Task_connect h).

Definition close (h : option handler) : M W unit :=
  shared_from_this ;;;
  log (Ev_close_call h) ;;;
  executor_post (Task_close h).

Definition set_message_handler (h : option handler) : M W unit :=
  shared_from_this ;;; executor_post (Task_set_message_handler h).
Definition set_disconnect_handler (h : option handler) : M W unit :=
  shared_from_this ;;; executor_post (Task_set_disconnect_handler h).
Definition set_ping_message_generator (h : option handler) : M W unit :=
  shared_from_this ;;; executor_post (Task_set_ping_message_generator h).
Definition set_ping_interval (interval : Z) : M W unit :=
  shared_from_this ;;; executor_post (Task_set_ping_interval interval).
Definition set_read_timeout (timeout : Z) : M W unit :=
  shared_from_this ;;; executor_post (Task_set_read_timeout timeout).

Definition create_stream : M W unit :=
  modc (λ c, c <| read_buffer := [] |>) ;;;
  let! s := gets next_stream in
  modify (λ w, w <| next_stream := S s |>) ;;;
  modc (λ c, c <| ws := Some s |>) ;;;
  lib (L_read_message_max s get_read_buffer_size).

Definition stop_ping_timer : M W unit := Timer.cancel (asio_timer Ping_timer).
Definition stop_read_timer : M W unit := Timer.cancel (asio_timer Read_timer).

Definition cancel_pending_operations : M W unit :=
  stop_ping_timer ;;;
  stop_read_timer ;;;
  lib L_resolver_cancel ;;;
  let! s := getc ws in
  match s with
  | Some s => lib (L_stream_cancel s)
  | None => ret tt
  end.

Definition close_socket : M W unit :=
  let! s := getc ws in
  match s with
  | Some s => lib (L_socket_close s)
  | None => ret tt
  end.

(** ** Callbacks *)

Context `{!User Q}.

Definition run_api (a : api_call) : M W unit :=
  match a with
  | Api_write message h => write message h
  | Api_write_now message =>
      let! ec := write_now message in
      log (Ev_write_now message ec)
  | Api_set_message_handler h => set_message_handler h
  | Api_set_disconnect_handler h => set_disconnect_handler h
  | Api_set_ping_message_generator h => set_ping_message_generator h
  | Api_set_ping_interval seconds => set_ping_interval seconds
  | Api_set_read_timeout seconds => set_read_timeout seconds
  | Api_ext a => run_ext_api a
  end.

(** What the user does in the callback just logged. *)
Definition user_reacts (c : callback) : M W unit :=
  let! t := gets trace in
  for_each run_api (react t c).

Definition call (c : callback) : M W unit := log (Ev_call c) ;;; user_reacts c.

(** [if (handler) handler(...)] *)
Definition call_if (c : handler → callback) (h : option handler) : M W unit :=
  match h with
  | Some h => call (c h)
  | None => ret tt
  end.

(** ** Writing and closing *)

Definition do_write (message : list byte) (h : option handler) : M W error_code :=
  let! ec := queue_write WriteType.message message h in
  when (is_error ec) (call_if (λ h, Call_write h ec) h) ;;;
  ret ec.

Definition do_protocol_ping : M W error_code := queue_write WriteType.ping [] None.

(** The loop of [fail_pending_writes]; it runs once for every queued slot. *)
Fixpoint fail_writes (fuel : nat) : M W unit :=
  match fuel with
  | O => throw OutOfFuel
  | S fuel =>
      let! q := getc write_slots in
      if fq_is_empty q then ret tt else
      let! slot := require AssertFailed (fq_get_front q) in
      modc (λ c, c <| write_slots ::= fq_set_front (slot <| slot_handler := None |>) |>) ;;;
      let! q := getc write_slots in
      let! q' := require AssertFailed (fq_pop_front q) in
      modc (λ c, c <| write_slots := q' |>) ;;;
      call_if (λ h, Call_write h (make_error_code operation_canceled)) (slot_handler slot) ;;;
      fail_writes fuel
  end.

Definition fail_pending_writes : M W unit :=
  modc (λ c, c <| write_generation ::= u64_succ |>) ;;;
  modc (λ c, c <| write_in_progress := false |>) ;;;
  fail_writes (S (Z.to_nat fq_capacity)).

(** [if (ws) { ... ws->set_option(timeout_option); }] *)
Definition disable_timeouts : M W unit :=
  let! s := getc ws in
  match s with
  | Some s => lib (L_disable_timeouts s)
  | None => ret tt
  end.

Definition do_close (h : option handler) : M W unit :=
  let! current_state := getc state in
  match current_state with
  | ConnectionState.closing => call_if Call_close h
  | ConnectionState.disconnected => call_if Call_close h
  | _ =>
      set_state ConnectionState.closing ;;;
      disable_timeouts ;;;
      cancel_pending_operations ;;;
      fail_pending_writes ;;;
      close_socket ;;;
      set_state ConnectionState.disconnected ;;;
      call_if Call_close h
  end.

(** The base class's [on_unexpected_disconnect]. *)
Definition base_on_unexpected_disconnect (ec : error_code) : M W unit :=
  let! h := getc disconnect_handler in
  call_if (λ h, Call_disconnect h ec) h.

End base.

(** What a derived class overrides: the call of the lambda in a
    [ConnectHandler], and the virtual [on_unexpected_disconnect]. *)
Class Virtual `{Extension} (Q : Type) := {
  call_connect : connect_lambda → error_code → M (World Q) unit;
  on_unexpected_disconnect : error_code → M (World Q) unit;
}.

(** How a pending operation completes: its error, the message a read appends to
    the buffer, and the environment of its handler. *)
Record completion := {
  c_ec : error_code;
  c_data : list byte;
  c_env : environment;
}.

(** * The handlers of the executor thread *)

Section client.
Context `{Extension} {Q : Type} `{!FifoQueue WriteSlot Q} `{WriteConfig} `{!User Q} `{!Virtual Q}.
Notation W := (World Q).

Definition connect_result (h : ConnectHandler) (ec : error_code) : M W unit :=
  match h with
  | Some l => log (Ev_connect_result l ec) ;;; call_connect l ec
  | None => ret tt
  end.

Definition fail_connection (ec : error_code) (h : ConnectHandler) : M W unit :=
  do_close None ;;;
  connect_result h ec.

Definition handle_unexpected_disconnect (ec : error_code) : M W unit :=
  let! st := getc state in
  if negb (bool_decide (st = ConnectionState.connected)) then ret tt else
  do_close None ;;;
  on_unexpected_disconnect ec.

(** ** Timers *)

(** [start_ping_timer(duration)] *)
Definition start_ping_timer_after (delay : Z) : M W unit :=
  let! interval := getc ping_interval in
  let! up := is_connected in
  if (interval <=? 0) || negb up then ret tt else
  Timer.expires_after (asio_timer Ping_timer) delay ;;;
  shared_from_this ;;;
  Timer.async_wait (asio_timer Ping_timer) (Some On_ping_timer).

Definition start_ping_timer : M W unit :=
  let! interval := getc ping_interval in
  let! delay := to_duration interval in
  start_ping_timer_after delay.

(** [last_read_time + read_timeout] *)
Definition read_deadline : M W Z :=
  let! last := getc last_read_time in
  let! timeout := getc read_timeout in
  let! timeout := to_duration timeout in
  checked (last + timeout).

Definition start_read_timer : M W unit :=
  let! timeout := getc read_timeout in
  let! up := is_connected in
  if (timeout <=? 0) || negb up then ret tt else
  let! deadline := read_deadline in
  Timer.expires_at (asio_timer Read_timer) deadline ;;;
  shared_from_this ;;;
  Timer.async_wait (asio_timer Read_timer) (Some On_read_timeout).

Definition handle_ping_timer (ec : error_code) : M W unit :=
  let! up := is_connected in
  let! interval := getc ping_interval in
  if is_error ec || negb up || (interval <=? 0) then ret tt else
  let! generator := getc ping_message_generator in
  let! ping_ec :=
    match generator with
    | Some g =>
        call (Call_generate g) ;;;
        let! t := gets trace in
        do_write (generate t g) None
    | None => do_protocol_ping
    end in
  if bool_decide (ping_ec = make_error_code no_buffer_space)
  then start_ping_timer_after ping_retry_delay
  else
    let! interval := getc ping_interval in
    let! delay := to_duration interval in
    start_ping_timer_after delay.

Definition handle_read_timeout (ec : error_code) : M W unit :=
  let! up := is_connected in
  let! timeout := getc read_timeout in
  if is_error ec || negb up || (timeout <=? 0) then ret tt else
  let! t := gete now in
  let! deadline := read_deadline in
  if t <? deadline then start_read_timer
  else handle_unexpected_disconnect (make_error_code timed_out).

(** ** Reading *)

Definition start_read : M W unit :=
  let! s := getc ws in
  let! up := is_connected in
  if bool_decide (s = None) || negb up then ret tt else
  shared_from_this ;;;
  let! s := deref_ws in
  lib (L_async_read s) ;;;
  start_operation (Op_read s).

Definition handle_read (ec : error_code) : M W unit :=
  let! up := is_connected in
  if negb up then ret tt else
  if is_error ec then handle_unexpected_disconnect ec else
  let! t := gete now in
  modc (λ c, c <| last_read_time := t |>) ;;;
  let! h := getc message_handler in
  let! buffer := getc read_buffer in
  call_if (λ h, Call_message h buffer) h ;;;
  modc (λ c, c <| read_buffer := [] |>) ;;;
  start_read.

(** ** Writing *)

Definition handle_write (generation : Z) (ec : error_code) : M W unit :=
  let! g := getc write_generation in
  let! up := is_connected in
  if negb (generation =? g) || negb up then ret tt else
  let! q := getc write_slots in
  let! slot := require AssertFailed (fq_get_front q) in
  modc (λ c, c <| write_slots ::= fq_set_front (slot <| slot_handler := None |>) |>) ;;;
  let! q := getc write_slots in
  let! q' := require AssertFailed (fq_pop_front q) in
  modc (λ c, c <| write_slots := q' |>) ;;;
  modc (λ c, c <| write_in_progress := false |>) ;;;
  call_if (λ h, Call_write h ec) (slot_handler slot) ;;;
  if is_error ec then handle_unexpected_disconnect ec else start_write.

(** ** Connecting *)

Definition do_connect (h : ConnectHandler) : M W unit :=
  let! st := getc state in
  if negb (bool_decide (st = ConnectionState.disconnected)) then
    connect_result h (make_error_code already_connected)
  else
    set_state ConnectionState.connecting ;;;
    create_stream ;;;
    shared_from_this ;;;
    let! host := getc host in
    let! port := getc port in
    lib (L_async_resolve host port) ;;;
    start_operation (Op_resolve h).

(** The guard of the handlers of the connect phase. *)
Definition not_connecting : M W bool :=
  let! up := is_connecting in
  let! s := getc ws in
  ret (negb up || bool_decide (s = None)).

Definition handle_resolve (h : ConnectHandler) (ec : error_code) : M W unit :=
  let! skip := not_connecting in
  if (skip : bool) then ret tt else
  if is_error ec then fail_connection ec h else
  shared_from_this ;;;
  let! s := deref_ws in
  lib (L_expires_after s connect_timeout) ;;;
  lib (L_async_connect s) ;;;
  start_operation (Op_connect h s).

Definition handle_connect (h : ConnectHandler) (ec : error_code) : M W unit :=
  let! skip := not_connecting in
  if (skip : bool) then ret tt else
  if is_error ec then fail_connection ec h else
  let! s := deref_ws in
  let! option_ec := gete no_delay_ec in
  lib (L_set_no_delay s) ;;;
  if is_error option_ec then fail_connection option_ec h else
  lib (L_expires_after s connect_timeout) ;;;
  let! host := getc host in
  let! ok := gete sni_ok in
  let! err := gete sni_error in
  lib (L_set_sni s host) ;;;
  if negb ok then fail_connection (ErrorCode err ssl_category) h else
  let! verify := gete verify_ec in
  lib (L_set_verify s host) ;;;
  if is_error verify then fail_connection verify h else
  shared_from_this ;;;
  lib (L_async_ssl_handshake s) ;;;
  start_operation (Op_ssl_handshake h s).

Definition handle_ssl_handshake (h : ConnectHandler) (ec : error_code) : M W unit :=
  let! skip := not_connecting in
  if (skip : bool) then ret tt else
  if is_error ec then fail_connection ec h else
  let! s := deref_ws in
  lib (L_expires_never s) ;;;
  lib (L_set_suggested_timeouts s) ;;;
  shared_from_this ;;;
  let! host := getc host in
  let! resource := getc resource in
  lib (L_async_websocket_handshake s host resource) ;;;
  start_operation (Op_websocket_handshake h s).

Definition handle_websocket_handshake (h : ConnectHandler) (ec : error_code) : M W unit :=
  let! skip := not_connecting in
  if (skip : bool) then ret tt else
  if is_error ec then fail_connection ec h else
  set_state ConnectionState.connected ;;;
  connect_result h no_error ;;;
  let! t := gete now in
  modc (λ c, c <| last_read_time := t |>) ;;;
  start_read_timer ;;;
  start_read ;;;
  start_ping_timer.

(** ** The lambdas *)

Context (run_ext_task : ext_task → M W unit).
Context (run_ext_wait : ext_wait → error_code → M W unit).

Definition run_task (t : task) : M W unit :=
  match t with
  | Task_connect h => do_connect h
  | Task_write message h => let! ec := do_write message h in ret tt
  | Task_close h => do_close h
  | Task_set_message_handler h => modc (λ c, c <| message_handler := h |>)
  | Task_set_disconnect_handler h => modc (λ c, c <| disconnect_handler := h |>)
  | Task_set_ping_message_generator h => modc (λ c, c <| ping_message_generator := h |>)
  | Task_set_ping_interval interval =>
      modc (λ c, c <| ping_interval := interval |>) ;;;
      let! up := is_connected in
      if negb up then ret tt else
      stop_ping_timer ;;;
      start_ping_timer
  | Task_set_read_timeout timeout =>
      modc (λ c, c <| read_timeout := timeout |>) ;;;
      let! up := is_connected in
      if negb up then ret tt else
      let! t := gete now in
      modc (λ c, c <| last_read_time := t |>) ;;;
      stop_read_timer ;;;
      start_read_timer
  | Task_ext t => run_ext_task t
  end.

Definition run_timer_callback (c : timer_callback) (ec : error_code) : M W unit :=
  match c with
  | On_ping_timer => handle_ping_timer ec
  | On_read_timeout => handle_read_timeout ec
  | On_ext_timer x => run_ext_wait x ec
  end.

Definition complete_operation (op : operation) (c : completion) : M W unit :=
  match op with
  | Op_resolve h => handle_resolve h (c_ec c)
  | Op_connect h _ => handle_connect h (c_ec c)
  | Op_ssl_handshake h _ => handle_ssl_handshake h (c_ec c)
  | Op_websocket_handshake h _ => handle_websocket_handshake h (c_ec c)
  | Op_read _ =>
      modc (λ cl, cl <| read_buffer ::= λ b, b ++ c_data c |>) ;;;
      handle_read (c_ec c)
  | Op_write generation _ => handle_write generation (c_ec c)
  | Op_wait _ l => Timer.run_wait run_timer_callback l (c_ec c)
  end.

(** [~SecureWebSocketClient()]: the last [shared_ptr] is gone. *)
Definition destroy : M W unit :=
  modify (λ w, w <| expired := true |>) ;;;
  do_close None.

(** ** Events *)

Inductive action :=
  | Act_api (a : api_call) (here : bool)          (* user code outside of a callback *)
  | Act_task (i : nat) (e : environment)          (* the executor runs a posted task *)
  | Act_complete (i : nat) (c : completion).      (* a pending operation completes *)

(** Within an event of the executor the calling thread is the executor's. *)
Definition set_env (e : environment) : M W unit :=
  modify (λ w, w <| env := e <| running_in_this_thread := true |> |>).

Definition step (a : action) : M W unit :=
  match a with
  | Act_api a here =>
      modify (λ w, w <| env ::= λ e, e <| running_in_this_thread := here |> |>) ;;;
      run_api a
  | Act_task i e =>
      set_env e ;;;
      let! ts := gets posted in
      match ts !! i with
      | None => ret tt
      | Some t => modify (λ w, w <| posted ::= delete i |>) ;;; run_task t
      end
  | Act_complete i c =>
      set_env (c_env c) ;;;
      let! ops := gets pending in
      match ops !! i with
      | None => ret tt
      | Some op => modify (λ w, w <| pending ::= delete i |>) ;;; complete_operation op c
      end
  end.

End client.
