(* ===== verification/WriteQueue.v ===== *)
(** The write queue of the WebSocket client: what [queue_write] and
    [start_write] of [SecureWebSocketClient] compute, and the invariants of the
    queue that hold at every point of an event, also inside the user's
    callbacks.

    [WInv] ties the queue, the flag [write_in_progress], the generation and the
    pending writes together; [Wire] the order of what goes on the wire to what
    was accepted; [Acc] the calls of the write and connect handlers to the
    requests for them.  [frame] and [queued] are what user code may do to the
    world in a callback; a predicate they keep is [Closed]. *)

From S2P Require Import Prelude RingBuffer Timer SecureWebSocketClient.

(** A [callback] that is not the answer to a write. *)
Definition is_answer `{Extension} (c : callback) : bool :=
  match c with Call_write _ _ => true | _ => false end.

Section observations.
Context `{Extension} {Q : Type}.
Notation W := (World Q).

(** ** What is counted *)

Definition write_call_of (h : handler) (e : event) : bool :=
  match e with Ev_write_call (Some h') => bool_decide (h = h') | _ => false end.
Definition answer_of (h : handler) (e : event) : bool :=
  match e with Ev_call (Call_write h' _) => bool_decide (h = h') | _ => false end.
Definition write_task_of (h : handler) (t : task) : bool :=
  match t with Task_write _ (Some h') => bool_decide (h = h') | _ => false end.
Definition slot_of (h : handler) (s : WriteSlot) : bool := bool_decide (slot_handler s = Some h).

(** Connect handlers are told apart by a predicate on their lambdas. *)
Definition lambda_is (P : connect_lambda → bool) (h : ConnectHandler) : bool :=
  match h with Some l => P l | None => false end.
Definition connect_call_of (P : connect_lambda → bool) (e : event) : bool :=
  match e with Ev_connect_call h => lambda_is P h | _ => false end.
Definition result_of (P : connect_lambda → bool) (e : event) : bool :=
  match e with Ev_connect_result l _ => P l | _ => false end.
Definition connect_task_of (P : connect_lambda → bool) (t : task) : bool :=
  match t with Task_connect h => lambda_is P h | _ => false end.
Definition connect_op_of (P : connect_lambda → bool) (op : operation) : bool :=
  match op with
  | Op_resolve h | Op_connect h _ | Op_ssl_handshake h _ | Op_websocket_handshake h _ =>
      lambda_is P h
  | _ => false
  end.

(** Messages accepted for, and put on, the stream [s]; a ping carries nothing. *)
Definition accepted (s : nat) : list event → list (WriteType.t * list byte) :=
  omap (λ e, match e with
    | Ev_queued s' t m => if decide (s = s') then Some (t, m) else None
    | _ => None
    end).
Definition wire (s : nat) : list event → list (WriteType.t * list byte) :=
  omap (λ e, match e with
    | Ev_lib (L_async_write s' m) => if decide (s = s') then Some (WriteType.message, m) else None
    | Ev_lib (L_async_ping s') => if decide (s = s') then Some (WriteType.ping, []) else None
    | _ => None
    end).

Definition write_on (s : nat) (op : operation) : bool :=
  match op with Op_write _ s' => bool_decide (s = s') | _ => false end.
Definition write_of (g : Z) (op : operation) : bool :=
  match op with Op_write g' _ => g' =? g | _ => false end.
Definition is_write (op : operation) : bool := match op with Op_write _ _ => true | _ => false end.

(** Neither a queued or sent message, nor an answer, nor a result. *)
Definition plain (e : event) : bool :=
  match e with
  | Ev_queued _ _ _ | Ev_connect_result _ _ | Ev_call (Call_write _ _)
  | Ev_lib (L_async_write _ _) | Ev_lib (L_async_ping _) => false
  | _ => true
  end.

(** What a slot puts on the wire. *)
Definition payload (s : WriteSlot) : WriteType.t * list byte :=
  match slot_type s with
  | WriteType.ping => (WriteType.ping, [])
  | WriteType.message => (WriteType.message, take (slot_filled s) (slot_data s))
  end.
Definition wire_call (s : nat) (slot : WriteSlot) : lib_call :=
  match slot_type slot with
  | WriteType.ping => L_async_ping s
  | WriteType.message => L_async_write s (take (slot_filled slot) (slot_data slot))
  end.

Lemma plain_accepted s e : plain e = true → accepted s [e] = [].
Proof. by destruct e. Qed.

Lemma plain_wire s e : plain e = true → wire s [e] = [].
Proof. destruct e as [| | | | | |[]|[]]; done. Qed.

Lemma accepted_app s l l' : accepted s (l ++ l') = accepted s l ++ accepted s l'.
Proof. apply omap_app. Qed.

Lemma wire_app s l l' : wire s (l ++ l') = wire s l ++ wire s l'.
Proof. apply omap_app. Qed.

Lemma plain_all s es : Forall (λ e, plain e = true) es → accepted s es = [] ∧ wire s es = [].
Proof.
  induction 1 as [|e es He _ [IHa IHw]]; [done|].
  change (e :: es) with ([e] ++ es). rewrite accepted_app, wire_app, IHa, IHw.
  by rewrite plain_accepted, plain_wire.
Qed.

Lemma wire_of_call s s' slot :
  wire s [Ev_lib (wire_call s' slot)] = if decide (s = s') then [payload slot] else [].
Proof.
  unfold wire_call, payload. destruct (slot_type slot); simpl; by case_decide.
Qed.
End observations.

(** * The invariants *)

(** Bounds under which no clock arithmetic overflows: time-outs of at most 10^9
    seconds, and a clock below 2^62 nanoseconds. *)
Definition sane_seconds (z : Z) : Prop := - 10 ^ 9 ≤ z ≤ 10 ^ 9.
Definition sane_time (z : Z) : Prop := 0 ≤ z < 2 ^ 62.

(** What a derived class keeps of its own state, and asks of its tasks and API. *)
Class ExtensionInvariant `{Extension} := {
  ext_ok : ext_state → Prop;
  ext_task_ok : ext_task → Prop;
  ext_api_ok : ext_api → Prop;
}.

Definition sane_task `{ExtensionInvariant} (t : task) : Prop :=
  match t with
  | Task_set_ping_interval s | Task_set_read_timeout s => sane_seconds s
  | Task_ext t => ext_task_ok t
  | _ => True
  end.

Definition sane_api `{ExtensionInvariant} (a : api_call) : Prop :=
  match a with
  | Api_set_ping_interval s | Api_set_read_timeout s => sane_seconds s
  | Api_ext a => ext_api_ok a
  | _ => True
  end.

Section invariants.
Context `{Extension} {Q : Type} `{!FifoQueue WriteSlot Q} `{!ExtensionInvariant}.
Notation W := (World Q).

Definition slots (w : W) : list WriteSlot := fq_contents (write_slots (client w)).

(** The queue, the flag, the generation and the pending writes. *)
Record WInv (n : nat) (w : W) : Prop := {
  wi_alive : expired w = false;
  wi_ext : ext_ok (ext w);
  wi_valid : fq_valid (write_slots (client w));
  wi_up : state (client w) = ConnectionState.connecting ∨
          state (client w) = ConnectionState.connected → is_Some (ws (client w));
  wi_next : ∀ s, ws (client w) = Some s → (s < next_stream w)%nat;
  wi_generation : 0 ≤ write_generation (client w) ≤ Z.of_nat n;
  wi_ops : ∀ g s, Op_write g s ∈ pending w →
    g ≤ write_generation (client w) ∧ (s < next_stream w)%nat;
  wi_one : count (write_of (write_generation (client w))) (pending w) =
    if write_in_progress (client w) then 1%nat else 0%nat;
  wi_own : state (client w) = ConnectionState.connecting ∨
           state (client w) = ConnectionState.connected →
    ∀ g s, Op_write g s ∈ pending w → ws (client w) = Some s →
    g = write_generation (client w);
  wi_single : ∀ s, (count (write_on s) (pending w) ≤ 1)%nat;
  wi_busy : write_in_progress (client w) = true → slots w ≠ [];
  wi_posted : Forall sane_task (posted w);
  wi_ping_interval : sane_seconds (ping_interval (client w));
  wi_read_timeout : sane_seconds (read_timeout (client w));
  wi_last_read : sane_time (last_read_time (client w));
  wi_now : sane_time (now (env w));
}.

(** Accepted and not yet on the wire. *)
Definition unsent (w : W) : list (WriteType.t * list byte) :=
  map payload (if write_in_progress (client w) then tl (slots w) else slots w).

(** What is on the wire of a stream is what was accepted for it, in that order;
    what remains of it, for the stream in use, is in the queue. *)
Record Wire (w : W) : Prop := {
  wire_prefix : ∀ s, wire s (trace w) `prefix_of` accepted s (trace w);
  wire_rest : ∀ s, ws (client w) = Some s →
    state (client w) = ConnectionState.connecting ∨
    state (client w) = ConnectionState.connected →
    accepted s (trace w) = wire s (trace w) ++ unsent w;
  wire_fresh : ∀ s, (next_stream w ≤ s)%nat → accepted s (trace w) = [];
}.

(** Every write is a queued task, in the queue, or answered, but for the
    [owed] one; no connect handler is called more often than it was given. *)
Record Acc (ow : option handler) (oc : ConnectHandler) (w : W) : Prop := {
  acc_write : ∀ h, count (write_call_of h) (trace w) =
    (count (write_task_of h) (posted w) + count (slot_of h) (slots w) +
     count (answer_of h) (trace w) + if bool_decide (ow = Some h) then 1 else 0)%nat;
  acc_connect : ∀ P, (count (result_of P) (trace w) + count (connect_task_of P) (posted w) +
     count (connect_op_of P) (pending w) + (if lambda_is P oc then 1 else 0) ≤
     count (connect_call_of P) (trace w))%nat;
}.

(** ** What happens to the world in user code *)

(** Anything but queueing a write: tasks are posted, timers of the derived
    class started, the connection's address changed, and events logged. *)
Record frame (w w' : W) : Prop := {
  fr_client : ∃ h p r, client w' =
    (client w) <| host := h |> <| port := p |> <| resource := r |>;
  fr_ext : ext_ok (ext w) → ext_ok (ext w');
  fr_expired : expired w' = expired w;
  fr_next : next_stream w' = next_stream w;
  fr_env : env w' = env w;
  fr_posted : ∃ ts, posted w' = posted w ++ ts ∧ Forall sane_task ts ∧
    ∃ es, trace w' = trace w ++ es ∧ Forall (λ e, plain e = true) es ∧
      (∀ h, count (write_call_of h) es = count (write_task_of h) ts) ∧
      (∀ P, count (connect_call_of P) es = count (connect_task_of P) ts);
  fr_pending : ∃ ops, pending w' = pending w ++ ops ∧
    Forall (λ op, ∃ t l, op = Op_wait t l) ops;
}.

(** A write was accepted for the stream [s] into a slot with the handler [h],
    and started when none was in progress. *)
Record queued (s : nat) (t : WriteType.t) (m : list byte) (h : option handler) (w w' : W) : Prop := {
  qd_connected : state (client w) = ConnectionState.connected;
  qd_ws : ws (client w) = Some s;
  qd_client : ∃ q, client w' =
    (client w) <| write_slots := q |> <| write_in_progress := true |>;
  qd_valid : fq_valid (write_slots (client w'));
  qd_slots : ∃ slot, slots w' = slots w ++ [slot] ∧ payload slot = (t, m) ∧ slot_handler slot = h;
  qd_ext : ext w' = ext w;
  qd_expired : expired w' = expired w;
  qd_next : next_stream w' = next_stream w;
  qd_env : env w' = env w;
  qd_posted : posted w' = posted w;
  qd_pending : pending w' = pending w ++
    if write_in_progress (client w) then [] else [Op_write (write_generation (client w)) s];
  qd_trace : ∃ es, trace w' = trace w ++ Ev_queued s t m :: es ∧
    es = if write_in_progress (client w) then []
         else match slots w' with [] => [] | front :: _ => [Ev_lib (wire_call s front)] end;
}.

(** A predicate that user code keeps. *)
Class Closed (P : W → Prop) : Prop := {
  closed_frame w w' : frame w w' → P w → P w';
  closed_queued s m w w' : queued s WriteType.message m None w w' → P w → P w';
}.

#[export] Instance frame_preorder : PreOrder frame.
Proof.
  split.
  - intros w. split; try done.
    + exists (host (client w)), (port (client w)), (resource (client w)). by destruct w as [[]].
    + exists []. rewrite app_nil_r. split; [done|]. split; [by constructor|].
      exists []. rewrite app_nil_r. split; [done|]. by split; [constructor|].
    + exists []. rewrite app_nil_r. by split; [|constructor].
  - intros w1 w2 w3 [(h1 & p1 & r1 & C1) X1 E1 N1 V1 (ts1 & P1 & S1 & es1 & T1 & L1 & A1 & B1)
      (o1 & O1 & F1)] [(h2 & p2 & r2 & C2) X2 E2 N2 V2
      (ts2 & P2 & S2 & es2 & T2 & L2 & A2 & B2) (o2 & O2 & F2)].
    split; try congruence; auto.
    + exists h2, p2, r2. by rewrite C2, C1.
    + exists (ts1 ++ ts2). rewrite P2, P1, <- app_assoc. split; [done|].
      split; [by apply Forall_app|]. exists (es1 ++ es2). rewrite T2, T1, <- app_assoc.
      split; [done|]. split; [by apply Forall_app|].
      split; intros; autorewrite with model_rw; by rewrite ?A1, ?A2, ?B1, ?B2.
    + exists (o1 ++ o2). rewrite O2, O1, <- app_assoc. split; [done|]. by apply Forall_app.
Qed.

#[export] Instance closed_and P P' : Closed P → Closed P' → Closed (λ w, P w ∧ P' w).
Proof.
  intros HP HP'. split.
  - intros w w' Hf [??]. split; by eapply closed_frame.
  - intros s m w w' Hq [??]. split; by eapply closed_queued.
Qed.

#[export] Instance closed_state P : Closed (λ w : W, P (state (client w))).
Proof.
  split.
  - intros w w' [(? & ? & ? & ->) _ _ _ _ _ _]. done.
  - intros s m w w' [_ _ (q & ->) _ _ _ _ _ _ _ _ _]. done.
Qed.

(** An operation that is pending stays so. *)
#[export] Instance closed_pending P : Closed (λ w, ∃ op, op ∈ pending w ∧ P op).
Proof.
  split.
  - intros w w' [_ _ _ _ _ _ (ops & -> & _)] (op & ? & ?). exists op. rewrite elem_of_app. auto.
  - intros s m w w' [_ _ _ _ _ _ _ _ _ _ -> _] (op & ? & ?). exists op. rewrite elem_of_app. auto.
Qed.

(** A connected client with something queued is writing. *)
Definition Busy (w : W) : Prop :=
  state (client w) = ConnectionState.connected → slots w ≠ [] →
  write_in_progress (client w) = true.

#[export] Instance closed_busy : Closed Busy.
Proof.
  split.
  - intros w w' [(? & ? & ? & C) _ _ _ _ _ _]. unfold Busy, slots. by rewrite C.
  - intros s m w w' [_ _ (q & C) _ _ _ _ _ _ _ _ _] _ _ _. by rewrite C.
Qed.

(** A client that is not connected has an empty queue. *)
Definition Quiet (w : W) : Prop :=
  state (client w) ≠ ConnectionState.connected → slots w = [].

#[export] Instance closed_quiet : Closed Quiet.
Proof.
  split.
  - intros w w' [(? & ? & ? & C) _ _ _ _ _ _]. unfold Quiet, slots. by rewrite C.
  - intros s m w w' [Hc _ (q & C) _ _ _ _ _ _ _ _ _] _ Hn. rewrite C in Hn. done.
Qed.
End invariants.

Section closed.
Context `{Extension} {Q : Type} `{!FifoQueue WriteSlot Q} `{!ExtensionInvariant}.
Notation W := (World Q).

Lemma waits_not_counted p (ops : list operation) :
  (∀ t l, p (Op_wait t l) = false) → Forall (λ op, ∃ t l, op = Op_wait t l) ops →
  count p ops = 0%nat.
Proof.
  intros Hp Hops. apply count_zero. intros op Hop.
  rewrite Forall_forall in Hops. destruct (Hops op Hop) as (t & l & ->). apply Hp.
Qed.

Lemma waits_no_write g s (ops : list operation) :
  Forall (λ op, ∃ t l, op = Op_wait t l) ops → Op_write g s ∉ ops.
Proof.
  intros Hops Hop. rewrite Forall_forall in Hops. by destruct (Hops _ Hop) as (t & l & ?).
Qed.

Lemma winv_queued n s t m h (w w' : W) : queued s t m h w w' → WInv n w → WInv n w'.
Proof.
  intros [Hst Hs (q & C) Hv (slot & Hsl & Hpl & Hh) X E N V P O (es & T & _)] [].
  assert (slots w' ≠ []) as Hne by (rewrite Hsl; by destruct (slots w)).
  split; unfold slots in *; rewrite ?C, ?X, ?E, ?N, ?V, ?P, ?O; simpl; auto; clear Hsl.
  - by rewrite C in Hv.
  - intros g s' [Hin|Hin]%elem_of_app; [by apply wi_ops0|].
    destruct (write_in_progress (client w)); [by apply elem_of_nil in Hin|].
    apply list_elem_of_singleton in Hin as [= -> ->]. split; [lia|by apply wi_next0].
  - autorewrite with model_rw. rewrite wi_one0.
    destruct (write_in_progress (client w)); [done|]. autorewrite with model_rw. simpl.
    by rewrite Z.eqb_refl.
  - intros Hup g s' [Hin|Hin]%elem_of_app Hs'; [by eapply wi_own0|].
    destruct (write_in_progress (client w)); [by apply elem_of_nil in Hin|].
    by apply list_elem_of_singleton in Hin as [= -> ->].
  - intros s'. autorewrite with model_rw. specialize (wi_single0 s').
    destruct (write_in_progress (client w)) eqn:Hb; autorewrite with model_rw; [lia|]. simpl.
    case_bool_decide as Es; [|lia]. subst s'. rewrite count_zero; [lia|].
    intros op Hop. destruct op as [| | | | |g s''|]; try done. simpl.
    case_bool_decide; [|done]. subst s''. exfalso.
    assert (g = write_generation (client w)) as -> by (apply (wi_own0 (or_intror Hst) g s); done).
    apply list_elem_of_lookup in Hop as [i Hi].
    assert (Hc := count_delete (write_of (write_generation (client w))) _ _ _ Hi).
    rewrite wi_one0 in Hc. simpl in Hc. rewrite Z.eqb_refl in Hc. lia.
  - by rewrite C in Hne.
Qed.

#[export] Instance closed_winv n : Closed (WInv (Q := Q) n).
Proof.
  split.
  - intros w w' [(h & p & r & C) X E N V (ts & P & S & _) (ops & O & F)] [].
    split; unfold slots in *; rewrite ?C, ?E, ?N, ?V, ?P, ?O; simpl; auto.
    + intros g s [Hin|Hin]%elem_of_app; [by apply wi_ops0|by destruct (waits_no_write g s ops)].
    + autorewrite with model_rw. rewrite (waits_not_counted _ ops) by done. lia.
    + intros Hup g s [Hin|Hin]%elem_of_app; [by apply wi_own0|by destruct (waits_no_write g s ops)].
    + intros s. autorewrite with model_rw. rewrite (waits_not_counted _ ops) by done.
      specialize (wi_single0 s). lia.
    + by apply Forall_app.
  - intros s m w w' Hq Hw. by eapply winv_queued.
Qed.

(** The queue and the wire together. *)
Definition Queue (n : nat) (w : W) : Prop := WInv n w ∧ Wire w.

Lemma wire_frame w w' : frame w w' → Wire w → Wire w'.
Proof.
  intros [(h & p & r & C) X E N V (ts & P & S & es & T & L & _) (ops & O & F)] [].
  assert (∀ s, accepted s (trace w') = accepted s (trace w) ∧
               wire s (trace w') = wire s (trace w)) as Hsame.
  { intros s. rewrite T, accepted_app, wire_app. destruct (plain_all s es L) as [-> ->].
    by rewrite !app_nil_r. }
  split; unfold unsent, slots in *.
  - intros s. destruct (Hsame s) as [-> ->]. done.
  - intros s. destruct (Hsame s) as [-> ->]. rewrite C. simpl. auto.
  - intros s. destruct (Hsame s) as [-> _]. rewrite N. auto.
Qed.

(** What queueing does to the stream's messages. *)
Lemma queued_messages s t m h w w' s' : queued s t m h w w' →
  accepted s' (trace w') = accepted s' (trace w) ++ (if decide (s' = s) then [(t, m)] else []) ∧
  wire s' (trace w') = wire s' (trace w) ++
    (if decide (s' = s) then
       if write_in_progress (client w) then [] else take 1 (map payload (slots w'))
     else []).
Proof.
  intros [_ _ _ _ _ _ _ _ _ _ _ (es & T & Hes)].
  rewrite T, accepted_app, wire_app. split; f_equal.
  - subst es. simpl. destruct (write_in_progress (client w)); [by case_decide|].
    destruct (slots w') as [|front ?]; [by case_decide|]. unfold wire_call.
    by destruct (slot_type front); case_decide.
  - change (Ev_queued s t m :: es) with ([Ev_queued s t m] ++ es). rewrite wire_app. simpl.
    subst es. destruct (write_in_progress (client w)); [by case_decide|].
    destruct (slots w') as [|front ?]; [by case_decide|]. rewrite wire_of_call. by case_decide.
Qed.

Lemma wire_queued s t m h w w' :
  queued s t m h w w' → (write_in_progress (client w) = true → slots w ≠ []) →
  (s < next_stream w)%nat → Wire w → Wire w'.
Proof.
  intros Hq Hbusy Hnext [Hpre Hrest Hfresh].
  assert (Hm := λ s', queued_messages s t m h w w' s' Hq).
  destruct Hq as [Hst Hs (q & C) Hv (slot & Hsl & Hpl & Hh) X E N V P O _].
  assert (accepted s (trace w') = wire s (trace w') ++ unsent w') as Hin.
  { destruct (Hm s) as [-> ->]. rewrite !decide_True by done.
    rewrite (Hrest s Hs (or_intror Hst)). unfold unsent. rewrite C, Hsl, map_app. simpl.
    destruct (write_in_progress (client w)) eqn:Hb.
    - specialize (Hbusy eq_refl). destruct (slots w) as [|front l]; [done|].
      simpl. by rewrite app_nil_r, map_app, <- app_assoc, <- Hpl.
    - destruct (slots w) as [|front l]; simpl; rewrite <- !app_assoc; simpl; rewrite <- Hpl; [done|].
      by rewrite map_app. }
  split.
  - intros s'. destruct (decide (s' = s)) as [->|Hne].
    + rewrite Hin. by apply prefix_app_r.
    + destruct (Hm s') as [-> ->]. rewrite !decide_False, !app_nil_r by done. done.
  - intros s'. rewrite C. simpl. intros Hs' _. rewrite Hs in Hs'. by injection Hs' as <-.
  - intros s'. rewrite N. intros Hle. destruct (Hm s') as [-> _].
    rewrite decide_False, app_nil_r by lia. auto.
Qed.

#[export] Instance closed_queue n : Closed (Queue n).
Proof.
  split.
  - intros w w' Hf [Hw Hwire]. split; [by eapply closed_frame|by eapply wire_frame].
  - intros s m w w' Hq [Hw Hwire]. split; [by eapply closed_queued|].
    eapply wire_queued; [done|apply Hw|by apply (wi_next _ _ Hw), (qd_ws _ _ _ _ _ _ Hq)|done].
Qed.

Lemma queue_queued n s t m h w w' : queued s t m h w w' → Queue n w → Queue n w'.
Proof.
  intros Hq [Hw Hwire]. split; [by eapply winv_queued|].
  eapply wire_queued; [done|apply Hw|by apply (wi_next _ _ Hw), (qd_ws _ _ _ _ _ _ Hq)|done].
Qed.

(** A queued write is no longer owed. *)
Lemma acc_queued s t m h oc (w w' : W) : queued s t m h w w' → Acc h oc w → Acc None oc w'.
Proof.
  intros [Hst Hs (q & C) Hv (slot & Hsl & Hpl & Hh) X E N V P O (es & T & Hes)] [Hw Hc].
  assert (∀ p : event → bool, (∀ l, p (Ev_lib l) = false) → count p es = 0%nat) as Hz.
  { intros p Hp. rewrite Hes. destruct (write_in_progress (client w)); [done|].
    destruct (slots w'); [done|]. by rewrite count_cons, Hp. }
  split; rewrite ?Hsl, ?P, ?T, ?O.
  - intros h'. specialize (Hw h'). autorewrite with model_rw. rewrite !Hz by done.
    unfold slot_of at 2. rewrite Hh. simpl. lia.
  - intros P'. specialize (Hc P'). autorewrite with model_rw. rewrite !Hz by done.
    simpl. destruct (write_in_progress (client w)); autorewrite with model_rw; simpl; lia.
Qed.

#[export] Instance closed_acc ow oc : Closed (Acc (Q := Q) ow oc).
Proof.
  split.
  - intros w w' [(h & p & r & C) X E N V (ts & P & S & es & T & L & A & B) (ops & O & F)] [Hw Hc].
    assert (∀ h, count (answer_of h) es = 0%nat) as Ha.
    { intros h'. apply count_zero. intros e He. rewrite Forall_forall in L. specialize (L e He).
      by destruct e as [| | | | | |[]|]. }
    assert (∀ P, count (result_of P) es = 0%nat) as Hr.
    { intros P'. apply count_zero. intros e He. rewrite Forall_forall in L. specialize (L e He).
      by destruct e. }
    split; unfold slots in *; rewrite ?C, ?P, ?T, ?O; simpl.
    + intros h'. specialize (Hw h'). autorewrite with model_rw. rewrite Hw, (A h'), Ha. lia.
    + intros P'. specialize (Hc P'). autorewrite with model_rw.
      rewrite (waits_not_counted _ ops), (B P'), Hr by done. lia.
  - intros s m w w' [Hst Hs (q & C) Hv (slot & Hsl & Hpl & Hh) X E N V P O (es & T & Hes)] [Hw Hc].
    assert (∀ p : event → bool, (∀ l, p (Ev_lib l) = false) → count p es = 0%nat) as Hz.
    { intros p Hp. rewrite Hes. destruct (write_in_progress (client w)); [done|].
      destruct (slots w'); [done|]. by rewrite count_cons, Hp. }
    split; rewrite ?Hsl, ?P, ?T, ?O.
    + intros h. specialize (Hw h). autorewrite with model_rw. rewrite !Hz by done.
      unfold slot_of at 2. rewrite Hh. rewrite (bool_decide_false (None = Some h)) by done.
      simpl. lia.
    + intros P'. specialize (Hc P'). autorewrite with model_rw. rewrite !Hz by done.
      simpl. destruct (write_in_progress (client w)); autorewrite with model_rw; simpl; lia.
Qed.
End closed.

(** * What the operations of the queue compute *)

Section operations.
Context `{Extension} {Q : Type} `{!FifoQueue WriteSlot Q} `{!FifoQueueLaws WriteSlot Q}
  `{WriteConfig} `{!ExtensionInvariant}.
Notation W := (World Q).

Lemma wp_log e Post (w : W) : wp (log e) Post w ↔ Post tt (w <| trace ::= λ l, l ++ [e] |>).
Proof. done. Qed.

(** The world once the write of [slot] on [s] is started. *)
Definition write_started (s : nat) (slot : WriteSlot) (w : W) : W :=
  w <| client ::= λ c, c <| write_in_progress := true |> |>
    <| trace ::= λ l, l ++ [Ev_lib (wire_call s slot)] |>
    <| pending ::= λ l, l ++ [Op_write (write_generation (client w)) s] |>.

Lemma start_write_eq s (w : W) :
  expired w = false → fq_valid (write_slots (client w)) → ws (client w) = Some s →
  start_write w = Ok (tt,
    if write_in_progress (client w) then w else
    match slots w with [] => w | slot :: _ => write_started s slot w end).
Proof.
  intros He Hv Hs. unfold start_write, bind, getc, gets. rewrite Hs.
  rewrite (bool_decide_false (Some s = None)) by done. rewrite orb_false_r.
  destruct (write_in_progress (client w)) eqn:Hb; [done|]. simpl.
  assert (Hspec := fq_is_empty_spec _ Hv).
  unfold slots. destruct (fq_contents (write_slots (client w))) as [|slot l] eqn:Hc.
  - by rewrite (proj2 Hspec).
  - destruct (fq_is_empty (write_slots (client w))) eqn:Hemp.
    { discriminate (proj1 Hspec eq_refl). }
    destruct w as [[] ? ? ? ? ? ? ?]. simpl in *. subst. simpl.
    rewrite (fq_front _ _ _ Hv Hc). simpl. unfold write_started, wire_call.
    destruct (slot_type slot); reflexivity.
Qed.

Lemma start_write_wp n Post (w : W) :
  Queue n w → is_Some (ws (client w)) →
  (write_in_progress (client w) = true ∨ slots w = [] → Post tt w) →
  (∀ s slot l, ws (client w) = Some s → write_in_progress (client w) = false →
     slots w = slot :: l → Post tt (write_started s slot w)) →
  wp start_write Post w.
Proof.
  intros [Hw _] [s Hs] Hno Hyes. unfold wp.
  rewrite (start_write_eq s) by (try done; apply Hw).
  destruct (write_in_progress (client w)); [auto|].
  destruct (slots w) as [|slot l]; [auto|by eapply Hyes].
Qed.

Lemma copy_into_payload m data : take (length m) (copy_into m data) = m.
Proof. unfold copy_into. by rewrite take_app_length. Qed.

(** The code that [queue_write] returns, by the state of the client. *)
Definition queue_write_code (m : list byte) (w : W) : error_code :=
  if bool_decide (state (client w) ≠ ConnectionState.connected) then make_error_code not_connected
  else if bool_decide (write_slot_size < length m)%nat then make_error_code message_size
  else if bool_decide (Z.of_nat (length (slots w)) = fq_capacity) then make_error_code no_buffer_space
  else no_error.

(** [queue_write] returns that code; it queues when the code is no error, and
    does nothing otherwise. *)
Lemma queue_write_spec n t m h (w : W) :
  Queue n w → (t = WriteType.ping → m = []) →
  wp (queue_write t m h) (λ ec w', ec = queue_write_code m w ∧
    if is_error ec then w' = w else ∃ s, queued s t m h w w') w.
Proof.
  intros [Hw Hwire] Hping. unfold queue_write, queue_write_code. autorewrite with wpdb.
  unfold getc. autorewrite with wpdb.
  destruct (decide (state (client w) = ConnectionState.connected)) as [Hst|Hst].
  2:{ rewrite (bool_decide_false (state (client w) = _)) by done.
      by rewrite (bool_decide_true (state (client w) ≠ _)). }
  rewrite (bool_decide_true (state (client w) = _)) by done.
  rewrite (bool_decide_false (state (client w) ≠ _)) by (intros Hne; by apply Hne).
  destruct (wi_up _ _ Hw (or_intror Hst)) as [s Hs]. rewrite Hs. simpl.
  case_bool_decide; [done|]. autorewrite with wpdb.
  assert (Hv := wi_valid _ _ Hw). assert (Hfs := fq_is_full_spec _ Hv). fold (slots w) in Hfs.
  destruct (fq_is_full (write_slots (client w))) eqn:Hfull.
  { rewrite bool_decide_true by (by apply Hfs). done. }
  rewrite bool_decide_false by (intros E%Hfs; congruence).
  destruct (fq_back_slot _ Hv Hfull) as [slot0 Hback].
  set (slot := slot0 <| slot_type := t |> <| slot_data ::= copy_into m |>
    <| slot_filled := length m |> <| slot_handler := h |>).
  assert (payload slot = (t, m)) as Hpl.
  { unfold payload, slot. simpl. rewrite copy_into_payload. destruct t; [done|].
    by rewrite Hping. }
  destruct (fq_push _ slot Hv Hfull) as (q & Hpush & Hv' & Hc).
  apply wp_bind, wp_require. exists slot0. split; [done|].
  unfold modc. autorewrite with wpdb. simpl. apply wp_require. exists q. split; [exact Hpush|].
  autorewrite with wpdb. unfold deref_ws, getc. autorewrite with wpdb. apply wp_require.
  exists s. split; [done|]. apply wp_bind, wp_log, wp_bind. simpl.
  unfold wp at 1. rewrite (start_write_eq s) by (try done; apply Hw).
  split; [done|]. exists s. fold slot. unfold slots at 1. simpl.
  destruct (write_in_progress (client w)) eqn:Hb.
  - split; unfold slots; simpl; try done.
    + exists q. destruct w as [[] ? ? ? ? ? ? ?]. simpl in *. by subst.
    + exists slot. rewrite Hc. done.
    + by rewrite Hb, app_nil_r.
    + exists []. by rewrite Hb.
  - destruct (fq_contents q) as [|front l] eqn:Hq; [by destruct (fq_contents _) in Hc|].
    split; unfold slots; simpl; try done.
    + exists q. by destruct w as [[] ? ? ? ? ? ? ?].
    + exists slot. by rewrite Hq.
    + by rewrite Hb.
    + exists [Ev_lib (wire_call s front)]. rewrite Hb, Hq. by rewrite <- app_assoc.
Qed.

(** [queue_write] refuses with an error and does nothing, or queues. *)
Lemma queue_write_wp n t m h Post (w : W) :
  Queue n w → (t = WriteType.ping → m = []) →
  (∀ e, e ∈ [not_connected; message_size; no_buffer_space] → Post (make_error_code e) w) →
  (∀ s w', queued s t m h w w' → Post no_error w') →
  wp (queue_write t m h) Post w.
Proof.
  intros Hq Hping Herr Hok. eapply wp_mono; [by apply (queue_write_spec n)|].
  intros ec w' [-> Hw']. revert Hw'. unfold queue_write_code.
  repeat case_bool_decide; simpl; [intros ->; apply Herr; set_solver..|].
  intros [s Hqd]. by eapply Hok.
Qed.

(** ** User code *)

Context `{!User Q}.

(** What a user and a derived class must keep to: time-outs are sane, and the
    API of the derived class only posts. *)
Class StableUser : Prop := {
  sane_react t c : Forall sane_api (react t c);
  stable_ext_api a (w : W) : ext_api_ok a → expired w = false → wp (run_ext_api a) (λ _, frame w) w;
}.

Context `{!StableUser}.

(** Logging a plain event, and posting a task without one. *)
Lemma frame_log e (w : W) :
  plain e = true → (∀ h, write_call_of h e = false) → (∀ P, connect_call_of P e = false) →
  frame w (w <| trace ::= λ l, l ++ [e] |>).
Proof.
  intros He Hw Hc. split; simpl; try done.
  - exists (host (client w)), (port (client w)), (resource (client w)). by destruct w as [[]].
  - exists []. rewrite app_nil_r. split; [done|]. split; [constructor|].
    exists [e]. split; [done|]. split; [by constructor|].
    split; intros; by rewrite count_cons, ?Hw, ?Hc.
  - exists []. rewrite app_nil_r. by split; [|constructor].
Qed.

Lemma frame_post t (w : W) :
  sane_task t → (∀ h, write_task_of h t = false) → (∀ P, connect_task_of P t = false) →
  frame w (w <| posted ::= λ l, l ++ [t] |>).
Proof.
  intros Ht Hw Hc. split; simpl; try done.
  - exists (host (client w)), (port (client w)), (resource (client w)). by destruct w as [[]].
  - exists [t]. split; [done|]. split; [by constructor|].
    exists []. rewrite app_nil_r. split; [done|]. split; [constructor|].
    split; intros; by rewrite count_cons, ?Hw, ?Hc.
  - exists []. rewrite app_nil_r. by split; [|constructor].
Qed.

(** Logging a call and posting its task. *)
Lemma frame_post_log t e (w : W) :
  plain e = true → sane_task t →
  (∀ h, write_call_of h e = write_task_of h t) →
  (∀ P, connect_call_of P e = connect_task_of P t) →
  frame w (w <| trace ::= λ l, l ++ [e] |> <| posted ::= λ l, l ++ [t] |>).
Proof.
  intros He Ht Hw Hc. split; simpl; try done.
  - exists (host (client w)), (port (client w)), (resource (client w)). by destruct w as [[]].
  - exists [t]. split; [done|]. split; [by constructor|].
    exists [e]. split; [done|]. split; [by constructor|].
    split; intros; by rewrite !count_cons, ?Hw, ?Hc.
  - exists []. rewrite app_nil_r. by split; [|constructor].
Qed.

Lemma shared_wp Post (w : W) : expired w = false → Post tt w → wp shared_from_this Post w.
Proof. intros He Hp. unfold shared_from_this. wp_simpl. by rewrite He. Qed.

(** Queueing a message without a handler keeps closed predicates. *)
Lemma queue_write_closed n P m (w : W) :
  Closed P → Queue n w → P w →
  wp (queue_write WriteType.message m None) (λ _ w', Queue n w' ∧ P w') w.
Proof.
  intros HP Hq Hp. eapply queue_write_wp; [done|done|auto|].
  intros s w' Hqd. split; by eapply closed_queued.
Qed.

Lemma run_api_closed n P a (w : W) :
  sane_api a → Closed P → Queue n w → P w →
  wp (run_api a) (λ _ w', Queue n w' ∧ P w') w.
Proof.
  intros Ha HP Hq Hp. assert (He := wi_alive _ _ (proj1 Hq)).
  assert (∀ w', frame w w' → Queue n w' ∧ P w') as Hframe.
  { intros w' Hf. split; by eapply closed_frame. }
  destruct a; simpl in Ha |- *;
    try (apply wp_bind; apply shared_wp; [done|]; apply Hframe, frame_post; done).
  - apply wp_bind, shared_wp; [done|]. apply Hframe.
    exact (frame_post_log (Task_write message h) (Ev_write_call h) w eq_refl I
      (λ _, eq_refl) (λ _, eq_refl)).
  - apply wp_bind. eapply wp_mono.
    + unfold write_now, gete. wp_simpl. destruct (running_in_this_thread (env w)); simpl.
      * by apply (queue_write_closed n P).
      * by apply wp_ret.
    + intros ec w' [Hq' Hp']. apply wp_log. assert (frame w' (w' <| trace ::= λ l,
        l ++ [Ev_write_now message ec] |>)) by by apply frame_log.
      split; by eapply closed_frame.
  - eapply wp_mono; [by apply stable_ext_api|]. intros [] w' Hf. by apply Hframe.
Qed.

Lemma user_reacts_closed n P c (w : W) :
  Closed P → Queue n w → P w → wp (user_reacts c) (λ _ w', Queue n w' ∧ P w') w.
Proof.
  intros HP Hq Hp. unfold user_reacts. wp_simpl.
  assert (Hs := sane_react (trace w) c). rewrite Forall_forall in Hs.
  apply (wp_for_each (λ w', Queue n w' ∧ P w')); [done|].
  intros a w' Ha [??]. apply run_api_closed; auto.
Qed.

(** A call of user code other than the answer to a write. *)
Lemma call_closed n P c (w : W) :
  is_answer c = false → Closed P → Queue n w → P w →
  wp (call c) (λ _ w', Queue n w' ∧ P w') w.
Proof.
  intros Hc HP Hq Hp. unfold call. apply wp_bind, wp_log.
  assert (frame w (w <| trace ::= λ l, l ++ [Ev_call c] |>)) as Hf by (by apply frame_log; destruct c).
  apply user_reacts_closed; [done|by eapply closed_frame..].
Qed.

Lemma call_if_closed n P c h (w : W) :
  (∀ h, is_answer (c h) = false) → Closed P → Queue n w → P w →
  wp (call_if c h) (λ _ w', Queue n w' ∧ P w') w.
Proof. intros Hc HP Hq Hp. destruct h as [h|]; [by apply call_closed|done]. Qed.
End operations.
