(* ===== verification/WebSocketSafety.v ===== *)
(** Safety of the WebSocket client: the invariant of [SecureWebSocketClient]
    between two events of the executor, that every event keeps it and faults
    never, and what follows for its users.

    The class is taken with any user ([StableUser]) and any derived class that
    keeps to [StableVirtual] and [StableTasks]; the base class on its own is an
    instance in [WebSocketProperties]. *)

From S2P Require Import Prelude RingBuffer Timer SecureWebSocketClient WriteQueue.

Section safety.
Context `{Extension} {Q : Type} `{!FifoQueue WriteSlot Q} `{!FifoQueueLaws WriteSlot Q}
  `{WriteConfig} `{!ExtensionInvariant} `{!User Q} `{!StableUser} `{!Virtual Q}.
Notation W := (World Q).

(** What a derived class's overrides may do: what user code may. *)
Class StableVirtual : Prop := {
  stable_connect l ec n P (w : W) : Closed P → Queue n w → P w →
    wp (call_connect l ec) (λ _ w', Queue n w' ∧ P w') w;
  stable_disconnect ec n P (w : W) : Closed P → Queue n w → P w →
    wp (on_unexpected_disconnect ec) (λ _ w', Queue n w' ∧ P w') w;
}.

Context `{!StableVirtual}.

Definition is_connect_op (op : operation) : bool :=
  match op with
  | Op_resolve _ | Op_connect _ _ | Op_ssl_handshake _ _ | Op_websocket_handshake _ _ => true
  | _ => false
  end.
Definition is_read_op (op : operation) : bool := match op with Op_read _ => true | _ => false end.

(** A connecting client has an operation of the connect phase pending, a
    connected one a read. *)
Definition HasConnect (w : W) : Prop :=
  state (client w) = ConnectionState.connecting → (1 ≤ count is_connect_op (pending w))%nat.
Definition HasRead (w : W) : Prop :=
  state (client w) = ConnectionState.connected → (1 ≤ count is_read_op (pending w))%nat.

(** The shape of the client between two events. *)
Record Shape (w : W) : Prop := {
  sh_settled : state (client w) ≠ ConnectionState.closing;
  sh_quiet : Quiet w;
  sh_busy : Busy w;
  sh_connect : HasConnect w;
  sh_read : HasRead w;
}.

Definition Inv (n : nat) (w : W) : Prop := Queue n w ∧ Acc None None w ∧ Shape w.

(** ** Predicates that user code keeps, and that do not look at the trace *)

Class Untraced (P : W → Prop) : Prop :=
  untraced e w : P w → P (w <| trace ::= λ l, l ++ [e] |>).

#[export] Instance untraced_and P P' : Untraced P → Untraced P' → Untraced (λ w, P w ∧ P' w).
Proof. intros HP HP' e w [??]. split; by apply untraced. Qed.
#[export] Instance untraced_state P : Untraced (λ w : W, P (state (client w))).
Proof. by intros e w. Qed.
#[export] Instance untraced_shape : Untraced Shape.
Proof. intros e w []. by split. Qed.

Lemma frame_state (w w' : W) : frame w w' → state (client w') = state (client w).
Proof. by intros [(? & ? & ? & ->)]. Qed.
Lemma queued_state s t m h (w w' : W) : queued s t m h w w' → state (client w') = state (client w).
Proof. by intros [_ _ (q & ->)]. Qed.

(** What a count of pending operations is at least. *)
#[export] Instance closed_count st p k :
  Closed (λ w : W, state (client w) = st → (k ≤ count p (pending w))%nat).
Proof.
  split.
  - intros w w' Hf. rewrite (frame_state _ _ Hf). destruct Hf as [_ _ _ _ _ _ (ops & -> & _)].
    intros Hp Hst. autorewrite with model_rw. specialize (Hp Hst). lia.
  - intros s m w w' Hq. rewrite (queued_state _ _ _ _ _ _ Hq).
    destruct Hq as [_ _ _ _ _ _ _ _ _ _ -> _].
    intros Hp Hst. autorewrite with model_rw. specialize (Hp Hst). lia.
Qed.

#[export] Instance closed_shape : Closed Shape.
Proof.
  split.
  - intros w w' Hf []. split; try (by eapply closed_frame).
    by rewrite (frame_state _ _ Hf).
  - intros s m w w' Hq []. split; try (by eapply closed_queued).
    by rewrite (queued_state _ _ _ _ _ _ Hq).
Qed.

(** A queue that cannot grow: the client is not connected. *)
Definition Frozen (st : ConnectionState.t) (l : list WriteSlot) (w : W) : Prop :=
  state (client w) = st ∧ write_in_progress (client w) = false ∧ slots w = l.

Lemma closed_frozen st l : st ≠ ConnectionState.connected → Closed (Frozen st l).
Proof.
  intros Hst. split.
  - intros w w' [(? & ? & ? & C) _ _ _ _ _ _]. unfold Frozen, slots. by rewrite C.
  - intros s m w w' [Hc _ _ _ _ _ _ _ _ _ _ _] (? & _ & _). congruence.
Qed.

#[export] Instance untraced_frozen st l : Untraced (Frozen st l).
Proof. by intros e w. Qed.

(** ** Changes that the invariants do not notice *)

Record same_core (w w' : W) : Prop := {
  sc_slots : write_slots (client w') = write_slots (client w);
  sc_ws : ws (client w') = ws (client w);
  sc_generation : write_generation (client w') = write_generation (client w);
  sc_in_progress : write_in_progress (client w') = write_in_progress (client w);
  sc_state : state (client w') = state (client w);
  sc_expired : expired w' = expired w;
  sc_ext : ext w' = ext w;
  sc_next : next_stream w' = next_stream w;
  sc_posted : posted w' = posted w;
  sc_pending : pending w' = pending w;
  sc_trace : trace w' = trace w;
  sc_sane : sane_seconds (ping_interval (client w')) ∧ sane_seconds (read_timeout (client w')) ∧
    sane_time (last_read_time (client w')) ∧ sane_time (now (env w'));
}.

Lemma queue_same n w w' : same_core w w' → Queue n w → Queue n w'.
Proof.
  intros [E1 E2 E3 E4 E5 E6 E7 E8 E9 E10 E11 (?&?&?&?)] [[] []].
  split; split; unfold unsent, slots in *;
    rewrite ?E1, ?E2, ?E3, ?E4, ?E5, ?E6, ?E7, ?E8, ?E9, ?E10, ?E11; auto.
Qed.

Lemma acc_same ow oc w w' : same_core w w' → Acc ow oc w → Acc ow oc w'.
Proof.
  intros [E1 E2 E3 E4 E5 E6 E7 E8 E9 E10 E11 _] []. split; unfold slots in *; by rewrite ?E1, ?E9, ?E10, ?E11.
Qed.

Lemma shape_same w w' : same_core w w' → Shape w → Shape w'.
Proof.
  intros [E1 E2 E3 E4 E5 E6 E7 E8 E9 E10 E11 _] [].
  split; unfold Quiet, Busy, HasConnect, HasRead, slots in *; by rewrite ?E1, ?E4, ?E5, ?E10.
Qed.

Lemma queue_mono n n' w : (n ≤ n')%nat → Queue n w → Queue n' w.
Proof. intros ? [[] ?]. split; [split; auto; lia|done]. Qed.

(** An event that is about no message. *)
Lemma queue_log n e w : (∀ s, accepted s [e] = [] ∧ wire s [e] = []) →
  Queue n w → Queue n (w <| trace ::= λ l, l ++ [e] |>).
Proof.
  intros He [[] []]. split; [by split|].
  split; intros s; simpl; rewrite ?accepted_app, ?wire_app; destruct (He s) as [Ha Hw];
    rewrite ?Ha, ?Hw, ?app_nil_r; auto.
Qed.

Lemma acc_log_result n l ec w : Acc None (Some l) w →
  Queue n w → Queue n (w <| trace ::= λ t, t ++ [Ev_connect_result l ec] |>) ∧
  Acc None None (w <| trace ::= λ t, t ++ [Ev_connect_result l ec] |>).
Proof.
  intros [Hw Hc] Hq. split; [by apply queue_log|].
  split.
  - intros h. specialize (Hw h). unfold slots in *. simpl in *. autorewrite with model_rw. simpl. lia.
  - intros P. specialize (Hc P). simpl in *. autorewrite with model_rw. simpl.
    destruct (P l); lia.
Qed.

(** ** Calls of user code *)

(** The answer to a write. *)
Lemma answer_wp n P oc h ec w :
  Closed P → Untraced P → Queue n w → Acc h oc w → P w →
  wp (call_if (λ h, Call_write h ec) h) (λ _ w', Queue n w' ∧ Acc None oc w' ∧ P w') w.
Proof.
  intros HP HU Hq Ha Hp. destruct h as [h|]; [|done]. simpl. unfold call. apply wp_bind, wp_log.
  apply (user_reacts_closed n (λ w', Acc None oc w' ∧ P w')).
  - apply closed_and; [apply closed_acc|done].
  - by apply queue_log.
  - split; [|by apply untraced]. destruct Ha as [Hw Hc].
    split.
    + intros h'. specialize (Hw h'). unfold slots in *. simpl in *. autorewrite with model_rw. simpl.
      repeat case_bool_decide; simplify_eq; lia.
    + intros P'. specialize (Hc P'). simpl in *. autorewrite with model_rw. simpl. lia.
Qed.

Lemma connect_result_wp n P h ec w :
  Closed P → Untraced P → Queue n w → Acc None h w → P w →
  wp (connect_result h ec) (λ _ w', Queue n w' ∧ Acc None None w' ∧ P w') w.
Proof.
  intros HP HU Hq Ha Hp. destruct h as [l|]; [|done]. simpl. apply wp_bind, wp_log.
  destruct (acc_log_result n l ec w Ha Hq) as [Hq' Ha'].
  apply (stable_connect l ec n (λ w', Acc None None w' ∧ P w')); [|done|].
  - apply closed_and; [apply closed_acc|done].
  - split; [done|by apply untraced].
Qed.
(** ** Closing *)

(** [wp_frame]: a step that is a [frame] keeps closed predicates. *)
Lemma lib_wp n P c w :
  plain (Ev_lib c) = true → Closed P → Queue n w → P w →
  wp (lib c) (λ _ w', Queue n w' ∧ P w') w.
Proof.
  intros Hc HP Hq Hp. apply wp_log.
  assert (frame w (w <| trace ::= λ l, l ++ [Ev_lib c] |>)) by by apply frame_log.
  split; by eapply closed_frame.
Qed.

Lemma cancel_timer_wp n P t w : Closed P → Queue n w → P w →
  wp (Timer.cancel (asio_timer t)) (λ _ w', Queue n w' ∧ P w') w.
Proof.
  intros HP Hq Hp. unfold Timer.cancel. simpl. apply wp_bind, wp_bind.
  eapply wp_mono; [by apply (lib_wp n P)|]. by intros [] w' ?.
Qed.

Lemma cancel_pending_operations_wp n P w : Closed P → Queue n w → P w →
  wp cancel_pending_operations (λ _ w', Queue n w' ∧ P w') w.
Proof.
  intros HP Hq Hp. unfold cancel_pending_operations, stop_ping_timer, stop_read_timer.
  apply wp_bind. eapply wp_mono; [by apply (cancel_timer_wp n P)|]. intros [] w1 [Hq1 Hp1].
  apply wp_bind. eapply wp_mono; [by apply (cancel_timer_wp n P)|]. intros [] w2 [Hq2 Hp2].
  apply wp_bind. eapply wp_mono; [by apply (lib_wp n P)|]. intros [] w3 [Hq3 Hp3].
  unfold getc. wp_simpl. destruct (ws (client w3)); [by apply lib_wp|done].
Qed.

Lemma close_socket_wp n P w : Closed P → Queue n w → P w →
  wp close_socket (λ _ w', Queue n w' ∧ P w') w.
Proof.
  intros HP Hq Hp. unfold close_socket, getc. wp_simpl.
  destruct (ws (client w)); [by apply lib_wp|done].
Qed.

(** Out of the connected and connecting states nothing ties the queue to the stream. *)
Lemma queue_down n st w :
  st ≠ ConnectionState.connecting → st ≠ ConnectionState.connected →
  Queue n w → Queue n (w <| client ::= λ c, c <| state := st |> |>).
Proof.
  intros Hn1 Hn2 [[] []]. split; split; unfold slots in *; simpl; auto;
    try (by intros [?|?]); by intros ? ? [?|?].
Qed.

(** Taking the front of the queue out, with no write in progress after it. *)
Lemma queue_pop n (w w' : W) q :
  Queue n w → fq_valid q →
  (state (client w) = ConnectionState.connecting ∨ state (client w) = ConnectionState.connected →
    map payload (fq_contents q) = unsent w) →
  client w' = (client w) <| write_slots := q |> <| write_in_progress := false |> →
  expired w' = expired w → ext w' = ext w → next_stream w' = next_stream w →
  posted w' = posted w → trace w' = trace w → env w' = env w →
  (∀ op, op ∈ pending w' → op ∈ pending w) →
  (∀ s, (count (write_on s) (pending w') ≤ 1)%nat) →
  count (write_of (write_generation (client w))) (pending w') = 0%nat →
  Queue n w'.
Proof.
  intros [[] []] Hv Hun C E X N P T V Hsub Hone Hzero.
  split; split; unfold unsent, slots in *; rewrite ?C, ?E, ?X, ?N, ?P, ?T, ?V; simpl; auto.
  - intros Hup g s Hin. apply wi_own; auto.
  - intros s Hs Hup. rewrite (wire_rest s Hs Hup). by rewrite Hun.
Qed.

(** Popping [slot] leaves its answer owed. *)
Lemma acc_pop oc (w w' : W) slot l :
  Acc None oc w → slots w = slot :: l → slots w' = l →
  trace w' = trace w → posted w' = posted w → 
  (∀ P, (count (connect_op_of P) (pending w') ≤ count (connect_op_of P) (pending w))%nat) →
  Acc (slot_handler slot) oc w'.
Proof.
  intros [Hw Hc] Hs Hs' T P O. split.
  - intros h. specialize (Hw h). rewrite T, P, Hs'. rewrite Hs in Hw. revert Hw.
    autorewrite with model_rw. unfold slot_of at 1. simpl. intros ->.
    repeat case_bool_decide; simplify_eq; lia.
  - intros P'. specialize (Hc P'). rewrite T, P. specialize (O P'). lia.
Qed.

(** The loop of [fail_pending_writes] empties the queue and answers every write. *)
Lemma fail_writes_wp n oc fuel w :
  (length (slots w) < fuel)%nat → Queue n w → Acc None oc w →
  Frozen ConnectionState.closing (slots w) w →
  wp (fail_writes fuel) (λ _ w', Queue n w' ∧ Acc None oc w' ∧
    Frozen ConnectionState.closing [] w') w.
Proof.
  revert w. induction fuel as [|fuel IH]; intros w Hlen Hq Ha Hf; [lia|].
  assert (Hv := wi_valid _ _ (proj1 Hq)). simpl. unfold getc. wp_simpl.
  assert (Hemp := fq_is_empty_spec _ Hv). fold (slots w) in Hemp.
  destruct (slots w) as [|slot l] eqn:Hsl.
  { by rewrite (proj2 Hemp eq_refl). }
  destruct (fq_is_empty (write_slots (client w))) eqn:He; [discriminate (proj1 Hemp eq_refl)|].
  apply wp_bind, wp_require. exists slot. split; [by eapply fq_front|].
  unfold modc. wp_simpl.
  destruct (fq_write_front _ _ (slot <| slot_handler := None |>) _ Hv Hsl) as [Hv1 Hc1].
  destruct (fq_pop _ _ _ Hv1 Hc1) as (q & Hpop & Hv2 & Hc2).
  apply wp_require. exists q. split; [exact Hpop|]. wp_simpl.
  destruct Hf as (Hst & Hb & _).
  eapply wp_mono.
  - apply (answer_wp n (Frozen ConnectionState.closing l) oc).
    + by apply closed_frozen.
    + apply untraced_frozen.
    + eapply (queue_pop n w); [done|exact Hv2|rewrite Hst; by intros [?|?]|..]; simpl; auto.
      * destruct w as [[] ? ? ? ? ? ? ?]. simpl in *. by rewrite Hb.
      * apply Hq.
      * rewrite (wi_one _ _ (proj1 Hq)). by rewrite Hb.
    + by eapply (acc_pop oc w).
    + done.
  - intros [] w' (Hq' & Ha' & Hst' & Hb' & Hsl'). apply IH; [rewrite Hsl'; simpl in Hlen; lia|done..|].
    by rewrite Hsl'.
Qed.

(** A new generation: no pending write is of it. *)
Lemma queue_new_generation n w :
  Z.of_nat n < two64 - 1 → state (client w) = ConnectionState.closing → Queue n w →
  Queue (S n) (w <| client ::= λ c, c <| write_generation ::= u64_succ |>
                                      <| write_in_progress := false |> |>).
Proof.
  intros Hn Hst [[] []].
  assert (u64_succ (write_generation (client w)) = write_generation (client w) + 1) as Hs.
  { unfold u64_succ, u64. apply Z.mod_small. unfold two64 in *. lia. }
  split; split; unfold unsent, slots in *; simpl; rewrite ?Hst, ?Hs; auto; try (by intros [?|?]).
  - lia.
  - intros g s Hin. destruct (wi_ops g s Hin). split; [lia|done].
  - apply count_zero. intros op Hop. destruct op; try done. simpl.
    destruct (wi_ops _ _ Hop). apply Z.eqb_neq. lia.
  - intros s Hs' [?|?]; done.
Qed.

Lemma fail_pending_writes_wp n oc w :
  Z.of_nat n < two64 - 1 → Queue n w → Acc None oc w →
  state (client w) = ConnectionState.closing →
  wp fail_pending_writes (λ _ w', Queue (S n) w' ∧ Acc None oc w' ∧
    Frozen ConnectionState.closing [] w') w.
Proof.
  intros Hn Hq Ha Hst. unfold fail_pending_writes, modc.
  apply wp_bind, wp_modify, wp_bind, wp_modify.
  apply fail_writes_wp; [|exact (queue_new_generation n w Hn Hst Hq)|by destruct Ha|done].
  assert (Hb := fq_bounded _ (wi_valid _ _ (proj1 Hq))). unfold slots. simpl. lia.
Qed.

(** The teardown of [do_close], before its last call [k]. *)
Lemma teardown_wp n oc (k : M W unit) Post w :
  Z.of_nat n < two64 - 1 → Queue n w → Acc None oc w →
  (∀ w', Queue (S n) w' → Acc None oc w' → Frozen ConnectionState.disconnected [] w' →
    wp k Post w') →
  wp (set_state ConnectionState.closing ;;; disable_timeouts ;;; cancel_pending_operations ;;;
      fail_pending_writes ;;; close_socket ;;; set_state ConnectionState.disconnected ;;; k)
    Post w.
Proof.
  intros Hn Hq Ha Hk. unfold set_state at 1. unfold modc at 1. apply wp_bind, wp_modify.
  set (P := λ w' : W, Acc None oc w' ∧ state (client w') = ConnectionState.closing).
  assert (Closed P) as HP by (apply closed_and; [apply closed_acc|apply (closed_state (λ s, s = _))]).
  assert (Queue n (w <| client ::= λ c, c <| state := ConnectionState.closing |> |>)) as Hq1
    by by apply queue_down.
  assert (P (w <| client ::= λ c, c <| state := ConnectionState.closing |> |>)) as Hp1
    by (split; [by destruct Ha|done]).
  apply wp_bind. eapply (wp_mono _ (λ _ w', Queue n w' ∧ P w')).
  { unfold disable_timeouts, getc. apply wp_bind, wp_gets.
    destruct (ws _); [by apply (lib_wp n P)|by apply wp_ret]. }
  intros [] w2 [Hq2 Hp2]. apply wp_bind.
  eapply wp_mono; [by apply (cancel_pending_operations_wp n P)|]. intros [] w3 [Hq3 [Ha3 Hst3]].
  apply wp_bind. eapply wp_mono; [by apply (fail_pending_writes_wp n oc)|].
  intros [] w4 (Hq4 & Ha4 & Hf4). apply wp_bind.
  eapply wp_mono; [apply (close_socket_wp (S n) (λ w', Acc None oc w' ∧
    Frozen ConnectionState.closing [] w')); [|done|done]|].
  { apply closed_and; [apply closed_acc|by apply closed_frozen]. }
  intros [] w5 (Hq5 & Ha5 & _ & Hb5 & Hs5). unfold set_state, modc. apply wp_bind, wp_modify.
  apply Hk; [by apply queue_down|by destruct Ha5|done].
Qed.

Lemma do_close_wp n oc h w :
  Z.of_nat n < two64 - 1 → Queue n w → Acc None oc w → Quiet w →
  state (client w) ≠ ConnectionState.closing →
  wp (do_close h) (λ _ w', Queue (S n) w' ∧ Acc None oc w' ∧
    Frozen ConnectionState.disconnected [] w') w.
Proof.
  intros Hn Hq Ha Hquiet Hst. unfold do_close, getc. apply wp_bind, wp_gets.
  assert (∀ w', Queue (S n) w' → Acc None oc w' → Frozen ConnectionState.disconnected [] w' →
    wp (call_if Call_close h) (λ _ w', Queue (S n) w' ∧ Acc None oc w' ∧
      Frozen ConnectionState.disconnected [] w') w') as Hlast.
  { intros w' Hq' Ha' Hf'. apply (call_if_closed (S n) (λ w', Acc None oc w' ∧
      Frozen ConnectionState.disconnected [] w')); [done| |done|done].
    apply closed_and; [apply closed_acc|by apply closed_frozen]. }
  destruct (state (client w)) eqn:Hs; [|by apply (teardown_wp n oc)..|done].
  apply Hlast; [by eapply queue_mono; [|done]; lia|done|].
  assert (slots w = []) as Hsl by (apply Hquiet; congruence).
  split; [done|split; [|done]]. destruct (write_in_progress (client w)) eqn:Hb; [|done].
  by destruct (wi_busy _ _ (proj1 Hq) Hb).
Qed.

(** ** Disconnecting *)

Lemma shape_frozen w : Frozen ConnectionState.disconnected [] w → Shape w.
Proof.
  intros (Hst & Hb & Hs). split; unfold Quiet, Busy, HasConnect, HasRead; rewrite ?Hst, ?Hs; done.
Qed.

Lemma inv_mono n n' w : (n ≤ n')%nat → Inv n w → Inv n' w.
Proof. intros Hle [? ?]. split; [by eapply queue_mono|done]. Qed.

Lemma fail_connection_wp n h ec w :
  Z.of_nat n < two64 - 1 → Queue n w → Acc None h w → Quiet w →
  state (client w) ≠ ConnectionState.closing →
  wp (fail_connection ec h) (λ _, Inv (S n)) w.
Proof.
  intros Hn Hq Ha Hqu Hst. unfold fail_connection. apply wp_bind.
  eapply wp_mono; [by apply (do_close_wp n h)|]. intros [] w' (Hq' & Ha' & Hf').
  eapply wp_mono; [apply (connect_result_wp (S n) Shape h); try done; try apply _; by apply shape_frozen|].
  intros [] w'' (? & ? & ?). by split.
Qed.

Lemma handle_unexpected_disconnect_wp n ec w :
  Z.of_nat n < two64 - 1 → Queue n w → Acc None None w →
  state (client w) = ConnectionState.connected →
  wp (handle_unexpected_disconnect ec) (λ _, Inv (S n)) w.
Proof.
  intros Hn Hq Ha Hst. unfold handle_unexpected_disconnect, getc. apply wp_bind, wp_gets.
  rewrite Hst. simpl. apply wp_bind.
  eapply wp_mono; [apply (do_close_wp n None); try done; intros ?; congruence|].
  intros [] w' (Hq' & Ha' & Hf').
  eapply wp_mono; [apply (stable_disconnect ec (S n) (λ w, Acc None None w ∧ Shape w)); try apply _; try done|].
  - split; [done|by apply shape_frozen].
  - intros [] w'' (? & ? & ?). by split.
Qed.

(** ** Timers *)

Lemma is_connected_wp Post (w : W) :
  Post (bool_decide (state (client w) = ConnectionState.connected)) w →
  wp is_connected Post w.
Proof. done. Qed.

Lemma async_wait_wp n P t c w : Closed P → Queue n w → P w →
  wp (Timer.async_wait (asio_timer t) (Some c)) (λ _ w', Queue n w' ∧ P w') w.
Proof.
  intros HP Hq Hp. unfold Timer.async_wait. simpl. unfold start_operation. apply wp_modify.
  set (op := Op_wait _ _). assert (frame w (w <| pending ::= λ l, l ++ [op] |>)) as Hf.
  { split; simpl; try done.
    - exists (host (client w)), (port (client w)), (resource (client w)). by destruct w as [[]].
    - exists []. rewrite app_nil_r. split; [done|]. split; [constructor|].
      exists []. rewrite app_nil_r. split; [done|]. by split; [constructor|].
    - exists [op]. split; [done|]. constructor; [|constructor]. unfold op. eauto. }
  split; by eapply closed_frame.
Qed.

Lemma to_duration_wp z Post (w : W) : sane_seconds z → Post (nanoseconds z) w → wp (to_duration z) Post w.
Proof.
  intros Hz Hp. unfold to_duration, checked, in_int64, nanoseconds, sane_seconds in *.
  rewrite (proj2 (andb_true_iff _ _)); [done|].
  split; [apply Z.leb_le|apply Z.ltb_lt]; lia.
Qed.

Lemma start_ping_timer_after_wp n P delay w : Closed P → Queue n w → P w →
  wp (start_ping_timer_after delay) (λ _ w', Queue n w' ∧ P w') w.
Proof.
  intros HP Hq Hp. unfold start_ping_timer_after, getc. apply wp_bind, wp_gets, wp_bind, is_connected_wp.
  destruct (_ || _); [done|]. apply wp_bind.
  eapply wp_mono; [by apply (lib_wp n P)|]. intros [] w1 [Hq1 Hp1].
  apply wp_bind, shared_wp; [apply Hq1|]. by apply (async_wait_wp n P).
Qed.

Lemma start_ping_timer_wp n P w : Closed P → Queue n w → P w →
  wp start_ping_timer (λ _ w', Queue n w' ∧ P w') w.
Proof.
  intros HP Hq Hp. unfold start_ping_timer, getc. apply wp_bind, wp_gets, wp_bind.
  apply to_duration_wp; [apply Hq|]. by apply start_ping_timer_after_wp.
Qed.

(** The deadline of the read timer. *)
Definition deadline (w : W) : Z := last_read_time (client w) + nanoseconds (read_timeout (client w)).

Lemma read_deadline_wp n Post w : Queue n w → Post (deadline w) w → wp read_deadline Post w.
Proof.
  intros [Hw _] Hp. unfold read_deadline, getc. apply wp_bind, wp_gets, wp_bind, wp_gets, wp_bind.
  apply to_duration_wp; [apply Hw|]. unfold checked.
  assert (Ht := wi_read_timeout _ _ Hw). assert (Hl := wi_last_read _ _ Hw).
  unfold in_int64, nanoseconds, sane_seconds, sane_time in *.
  rewrite (proj2 (andb_true_iff _ _)); [done|]. split; [apply Z.leb_le|apply Z.ltb_lt]; lia.
Qed.

Lemma start_read_timer_wp n P w : Closed P → Queue n w → P w →
  wp start_read_timer (λ _ w', Queue n w' ∧ P w') w.
Proof.
  intros HP Hq Hp. unfold start_read_timer, getc. apply wp_bind, wp_gets, wp_bind, is_connected_wp.
  destruct (_ || _); [done|]. apply wp_bind. eapply read_deadline_wp; [done|]. apply wp_bind.
  eapply wp_mono; [by apply (lib_wp n P)|]. intros [] w1 [Hq1 Hp1].
  apply wp_bind, shared_wp; [apply Hq1|]. by apply (async_wait_wp n P).
Qed.

(** ** Operations that are not writes *)

Lemma queue_add_op n op w : is_write op = false → Queue n w →
  Queue n (w <| pending ::= λ l, l ++ [op] |>).
Proof.
  intros Hop [[] []]. split; split; unfold unsent, slots in *; simpl; auto.
  - intros g s [Hin|Hin%list_elem_of_singleton]%elem_of_app; [by apply wi_ops|by subst op].
  - autorewrite with model_rw. rewrite wi_one. by destruct op; simpl; try lia.
  - intros Hup g s [Hin|Hin%list_elem_of_singleton]%elem_of_app; [by apply wi_own|by subst op].
  - intros s. autorewrite with model_rw. specialize (wi_single s). by destruct op; simpl; try lia.
Qed.

Lemma acc_add_op oc op w : (∀ P, connect_op_of P op = lambda_is P oc) → Acc None oc w →
  Acc None None (w <| pending ::= λ l, l ++ [op] |>).
Proof.
  intros Hop [Hw Hc]. split; unfold slots in *; simpl; [done|].
  intros P. specialize (Hc P). autorewrite with model_rw. rewrite Hop. lia.
Qed.

Lemma start_read_wp n w :
  Queue n w → Acc None None w → Quiet w → Busy w → state (client w) = ConnectionState.connected →
  wp start_read (λ _, Inv n) w.
Proof.
  intros Hq Ha Hqu Hb Hst. unfold start_read, getc. apply wp_bind, wp_gets, wp_bind, is_connected_wp.
  destruct (wi_up _ _ (proj1 Hq) (or_intror Hst)) as [s Hs]. rewrite Hs, Hst. simpl.
  apply wp_bind, shared_wp; [apply Hq|]. apply wp_bind. unfold deref_ws, getc.
  apply wp_bind, wp_gets, wp_require. exists s. split; [done|]. apply wp_bind.
  set (P := λ w : W, (Acc None None w ∧ Quiet w) ∧ (Busy w ∧ state (client w) = ConnectionState.connected)).
  assert (Closed P) as HP.
  { apply closed_and; apply closed_and; try apply _. apply (closed_state (λ s, s = _)). }
  eapply wp_mono; [by apply (lib_wp n P)|]. intros [] w1 (Hq1 & (Ha1 & Hqu1) & Hb1 & Hst1).
  unfold start_operation. apply wp_modify. split; [by apply queue_add_op|].
  split; [by apply (acc_add_op None)|].
  split; unfold HasConnect, HasRead; simpl; rewrite ?Hst1; try done.
  intros _. autorewrite with model_rw. simpl. lia.
Qed.

(** ** Connecting *)

#[export] Instance untraced_busy : Untraced Busy.
Proof. by intros e w. Qed.
#[export] Instance untraced_quiet : Untraced Quiet.
Proof. by intros e w. Qed.

(** A client in the connect phase, whose operation with handler [h] is off the
    list of the pending ones. *)
Definition Connecting (h : ConnectHandler) (w : W) : Prop :=
  (Acc None h w ∧ Quiet w) ∧ state (client w) = ConnectionState.connecting.

#[export] Instance closed_connecting h : Closed (Connecting h).
Proof. apply closed_and; [apply _|apply (closed_state (λ s, s = _))]. Qed.

(** A connected client that keeps writing. *)
Definition Connected (w : W) : Prop :=
  (Busy w ∧ Quiet w) ∧ state (client w) = ConnectionState.connected.

#[export] Instance closed_connected : Closed Connected.
Proof. apply closed_and; [apply _|apply (closed_state (λ s, s = _))]. Qed.
#[export] Instance untraced_connected : Untraced Connected.
Proof. by intros e w. Qed.

Lemma acc_drop oc w : Acc None oc w → Acc None None w.
Proof. intros [Hw Hc]. split; [done|]. intros P. specialize (Hc P). simpl. lia. Qed.

Lemma add_connect_op n h op w :
  is_connect_op op = true → (∀ P, connect_op_of P op = lambda_is P h) →
  Queue n w → Connecting h w → Inv n (w <| pending ::= λ l, l ++ [op] |>).
Proof.
  intros Hop HP Hq [[Ha Hqu] Hst]. split; [|split].
  - apply queue_add_op; [by destruct op|done].
  - by apply (acc_add_op h).
  - split; unfold HasConnect, HasRead, Quiet, Busy, slots in *; simpl; rewrite ?Hst in *; try done.
    intros _. autorewrite with model_rw. rewrite Hop. lia.
Qed.

(** A stage of the connect phase: its calls, and the operation it starts. *)
Lemma deref_ws_wp n h Post w :
  Queue n w → Connecting h w → (∀ s, ws (client w) = Some s → Post s w) → wp deref_ws Post w.
Proof.
  intros [Hw _] [_ Hst] Hp. unfold deref_ws, getc. apply wp_bind, wp_gets, wp_require.
  destruct (wi_up _ _ Hw (or_introl Hst)) as [s Hs]. eauto.
Qed.

Lemma lib_then_wp n h c (k : M W unit) Post w :
  plain (Ev_lib c) = true → Queue n w → Connecting h w →
  (∀ w', Queue n w' → Connecting h w' → w' = w <| trace ::= λ l, l ++ [Ev_lib c] |> → wp k Post w') →
  wp (lib c ;;; k) Post w.
Proof.
  intros Hc Hq Hp Hk. apply wp_bind, wp_log.
  assert (frame w (w <| trace ::= λ l, l ++ [Ev_lib c] |>)) by by apply frame_log.
  apply Hk; [by eapply closed_frame..|done].
Qed.

Lemma start_connect_op_wp n h op w :
  is_connect_op op = true → (∀ P, connect_op_of P op = lambda_is P h) →
  Queue n w → Connecting h w → wp (start_operation op) (λ _, Inv (S n)) w.
Proof.
  intros. unfold start_operation. apply wp_modify.
  apply (inv_mono n); [lia|]. by apply (add_connect_op n h).
Qed.

Lemma fail_connecting_wp n h ec w :
  Z.of_nat n < two64 - 1 → Queue n w → Connecting h w →
  wp (fail_connection ec h) (λ _, Inv (S n)) w.
Proof. intros Hn Hq [[Ha Hqu] Hst]. apply fail_connection_wp; try done. congruence. Qed.

(** What the handlers of the connect phase have in common. *)
Lemma phase_wp n h ec (k : M W unit) w :
  Z.of_nat n < two64 - 1 → Queue n w → Acc None h w →
  state (client w) ≠ ConnectionState.closing → Quiet w → Busy w → HasRead w →
  (Connecting h w → wp k (λ _, Inv (S n)) w) →
  wp (let! skip := not_connecting in
      if (skip : bool) then ret tt else if is_error ec then fail_connection ec h else k)
    (λ _, Inv (S n)) w.
Proof.
  intros Hn Hq Ha Hset Hqu Hb Hr Hk. unfold not_connecting, is_connecting, getc.
  apply wp_bind, wp_bind, wp_bind, wp_gets, wp_ret, wp_bind, wp_gets, wp_ret.
  case_bool_decide as Hst; simpl.
  - destruct (wi_up _ _ (proj1 Hq) (or_introl Hst)) as [s Hs]. rewrite Hs. simpl.
    assert (Connecting h w) by done. destruct (is_error ec); [by apply fail_connecting_wp|auto].
  - apply (inv_mono n); [lia|]. split; [done|]. split; [by eapply acc_drop|].
    split; try done; by intros ?.
Qed.

Lemma queue_alive n (w : W) : Queue n w → expired w = false.
Proof. intros [[] _]. done. Qed.

(** What holds of the world when a handler of the connect phase starts. *)
Record Taken (n : nat) (h : ConnectHandler) (w : W) : Prop := {
  tk_queue : Queue n w;
  tk_acc : Acc None h w;
  tk_settled : state (client w) ≠ ConnectionState.closing;
  tk_quiet : Quiet w;
  tk_busy : Busy w;
  tk_read : HasRead w;
}.

Lemma handle_resolve_wp n h ec w :
  Z.of_nat n < two64 - 1 → Taken n h w → wp (handle_resolve h ec) (λ _, Inv (S n)) w.
Proof.
  intros Hn []. apply phase_wp; try done. intros Hc.
  apply wp_bind, shared_wp; [by eapply queue_alive|].
  apply wp_bind. eapply deref_ws_wp; [done..|]. intros s Hs.
  eapply lib_then_wp; [done..|]. intros w1 Hq1 Hc1 _.
  eapply lib_then_wp; [done..|]. intros w2 Hq2 Hc2 _.
  by apply (start_connect_op_wp n h).
Qed.

Lemma handle_connect_wp n h ec w :
  Z.of_nat n < two64 - 1 → Taken n h w → wp (handle_connect h ec) (λ _, Inv (S n)) w.
Proof.
  intros Hn []. apply phase_wp; try done. intros Hc.
  apply wp_bind. eapply deref_ws_wp; [done..|]. intros s Hs.
  unfold gete. apply wp_bind, wp_gets. eapply lib_then_wp; [done..|]. intros w1 Hq1 Hc1 _.
  destruct (is_error (no_delay_ec (env w))); [by apply fail_connecting_wp|].
  eapply lib_then_wp; [done..|]. intros w2 Hq2 Hc2 _.
  unfold getc. apply wp_bind, wp_gets, wp_bind, wp_gets, wp_bind, wp_gets.
  eapply lib_then_wp; [done..|]. intros w3 Hq3 Hc3 _.
  destruct (sni_ok (env w2)); simpl; [|by apply fail_connecting_wp].
  apply wp_bind, wp_gets. eapply lib_then_wp; [done..|]. intros w4 Hq4 Hc4 _.
  destruct (is_error (verify_ec (env w3))); [by apply fail_connecting_wp|].
  apply wp_bind, shared_wp; [by eapply queue_alive|].
  eapply lib_then_wp; [done..|]. intros w5 Hq5 Hc5 _. by apply (start_connect_op_wp n h).
Qed.

Lemma handle_ssl_handshake_wp n h ec w :
  Z.of_nat n < two64 - 1 → Taken n h w → wp (handle_ssl_handshake h ec) (λ _, Inv (S n)) w.
Proof.
  intros Hn []. apply phase_wp; try done. intros Hc.
  apply wp_bind. eapply deref_ws_wp; [done..|]. intros s Hs.
  eapply lib_then_wp; [done..|]. intros w1 Hq1 Hc1 _.
  eapply lib_then_wp; [done..|]. intros w2 Hq2 Hc2 _.
  apply wp_bind, shared_wp; [by eapply queue_alive|].
  unfold getc. apply wp_bind, wp_gets, wp_bind, wp_gets.
  eapply lib_then_wp; [done..|]. intros w3 Hq3 Hc3 _. by apply (start_connect_op_wp n h).
Qed.

(** Going from connecting to connected. *)
Lemma queue_connected n h w : Queue n w → Connecting h w →
  let w' := w <| client ::= λ c, c <| state := ConnectionState.connected |> |> in
  Queue n w' ∧ Acc None h w' ∧ Connected w'.
Proof.
  intros [[] []] [[[Hw Hc] Hqu] Hst] w'. assert (slots w = []) as Hsl by (apply Hqu; congruence).
  split; [|split].
  - split; split; unfold unsent, slots in *; simpl; auto.
    intros _. apply wi_own. by left.
  - by split.
  - split; [|done]. split; [by unfold Busy; intros _ ?|by intros ?].
Qed.

(** Reading the clock. *)
Lemma queue_touch n w : Queue n w →
  same_core w (w <| client ::= λ c, c <| last_read_time := now (env w) |> |>).
Proof. intros [[] _]. by split. Qed.

Lemma connected_same w w' : same_core w w' → Connected w → Connected w'.
Proof.
  intros [E1 E2 E3 E4 E5 E6 E7 E8 E9 E10 E11 _] [[Hb Hq] Hst].
  unfold Connected, Busy, Quiet, slots in *. by rewrite E1, E4, E5.
Qed.

Lemma handle_websocket_handshake_wp n h ec w :
  Z.of_nat n < two64 - 1 → Taken n h w → wp (handle_websocket_handshake h ec) (λ _, Inv (S n)) w.
Proof.
  intros Hn []. apply phase_wp; try done. intros Hc.
  unfold set_state, modc. apply wp_bind, wp_modify.
  destruct (queue_connected n h w tk_queue0 Hc) as (Hq1 & Ha1 & Hc1).
  apply wp_bind. eapply wp_mono; [by apply (connect_result_wp n Connected h); try apply _|].
  intros [] w2 (Hq2 & Ha2 & Hc2). unfold gete. apply wp_bind, wp_gets, wp_bind, wp_modify.
  assert (Hs := queue_touch n w2 Hq2).
  set (w3 := w2 <| client ::= _ |>) in *.
  apply wp_bind. eapply wp_mono.
  { apply (start_read_timer_wp n (λ w, Acc None None w ∧ Connected w)); [apply _|by eapply queue_same|].
    split; [by eapply acc_same|by eapply connected_same]. }
  intros [] w4 (Hq4 & Ha4 & [[Hb4 Hqu4] Hst4]). apply wp_bind.
  eapply wp_mono; [by apply (start_read_wp n)|]. intros [] w5 (Hq5 & Ha5 & Hsh5).
  eapply wp_mono; [by apply (start_ping_timer_wp n (λ w, Acc None None w ∧ Shape w)); try apply _|].
  intros [] w6 ?. by apply (inv_mono n); [lia|].
Qed.

(** A new stream, on which nothing was accepted. *)
Lemma queue_new_stream n h w :
  Queue n w → Acc None h w → slots w = [] →
  let w' := w <| next_stream := S (next_stream w) |>
    <| client ::= λ c, c <| state := ConnectionState.connecting |> <| read_buffer := [] |>
                         <| ws := Some (next_stream w) |> |> in
  Queue n w' ∧ Connecting h w'.
Proof.
  intros [Hw Hwi] [Ha Hc] Hsl w'.
  assert (write_in_progress (client w) = false) as Hb.
  { destruct (write_in_progress (client w)) eqn:Hb; [|done]. by destruct (wi_busy _ _ Hw Hb). }
  destruct Hw, Hwi. split; [split|].
  - split; simpl; auto.
    + intros s [= <-]. lia.
    + intros g s Hin. destruct (wi_ops g s Hin). split; [done|lia].
    + intros _ g s Hin [= <-]. destruct (wi_ops g _ Hin). lia.
  - split; unfold unsent, slots in *; simpl; auto.
    + intros s [= <-] _. rewrite Hb, Hsl. specialize (wire_fresh _ (Nat.le_refl _)).
      specialize (wire_prefix (next_stream w)). rewrite wire_fresh in *.
      by rewrite (prefix_nil_inv _ wire_prefix).
    + intros s Hle. apply wire_fresh. lia.
  - split; [|done]. split; [by split|]. by intros _.
Qed.

Lemma do_connect_wp n h w :
  Queue n w → Acc None h w → Shape w → wp (do_connect h) (λ _, Inv n) w.
Proof.
  intros Hq Ha Hsh. unfold do_connect, getc. apply wp_bind, wp_gets.
  case_bool_decide as Hst; simpl.
  - assert (slots w = []) as Hsl by (apply (sh_quiet _ Hsh); congruence).
    destruct (queue_new_stream n h w Hq Ha Hsl) as [Hq1 Hc1].
    set (w1 := w <| next_stream := _ |> <| client ::= _ |>) in *.
    assert (frame w1 (w1 <| trace ::= λ l, l ++
      [Ev_lib (L_read_message_max (next_stream w) get_read_buffer_size)] |>)) as Hf by by apply frame_log.
    assert (Hq2 := closed_frame _ _ Hf Hq1). assert (Hc2 := closed_frame _ _ Hf Hc1).
    unfold set_state, modc, create_stream. apply wp_bind, wp_modify, wp_bind, wp_bind, wp_modify.
    apply wp_bind, wp_gets, wp_bind, wp_modify, wp_bind, wp_modify, wp_log.
    apply wp_bind, shared_wp; [exact (queue_alive n _ Hq2)|].
    apply wp_bind, wp_gets, wp_bind, wp_gets.
    eapply lib_then_wp; [done|exact Hq2|exact Hc2|]. intros w2 Hq3 Hc3 _.
    unfold start_operation. apply wp_modify. by apply (add_connect_op n h).
  - eapply wp_mono; [apply (connect_result_wp n Shape h); [apply _|apply _|done..]|].
    intros [] w' (?&?&?). by split.
Qed.

(** ** Writing *)

Lemma shape_queued s t m h w w' : queued s t m h w w' → Shape w → Shape w'.
Proof.
  intros [Hst Hs (q & C) Hv _ X E N V P O _] [].
  split; unfold Quiet, Busy, HasConnect, HasRead; rewrite ?C, ?O; simpl; try (by rewrite ?Hst).
  intros _. autorewrite with model_rw. specialize (sh_read0 Hst). lia.
Qed.

(** [queue_write] in a settled client, whatever it is given. *)
Lemma queue_write_shape n t m h w :
  Queue n w → Acc h None w → Shape w → (t = WriteType.ping → m = []) →
  wp (queue_write t m h) (λ ec w', Queue n w' ∧ Shape w' ∧
    Acc (if is_error ec then h else None) None w') w.
Proof.
  intros Hq Ha Hsh Hp. eapply queue_write_wp; [done|done| |].
  - intros e _. by rewrite is_error_make.
  - intros s w' Hqd. split; [by eapply queue_queued|]. split; [by eapply shape_queued|].
    by eapply acc_queued.
Qed.

Lemma do_write_wp n m h w :
  Queue n w → Acc h None w → Shape w →
  wp (do_write m h) (λ _, Inv n) w.
Proof.
  intros Hq Ha Hsh. unfold do_write. apply wp_bind.
  eapply wp_mono; [by apply (queue_write_shape n WriteType.message m h)|].
  intros ec w1 (Hq1 & Hsh1 & Ha1). apply wp_bind, wp_when.
  destruct (is_error ec); [|by split].
  eapply wp_mono; [by apply (answer_wp n Shape None h); try apply _|].
  intros [] w2 (?&?&?). by split.
Qed.

Lemma do_protocol_ping_wp n w : Inv n w → wp do_protocol_ping (λ _, Inv n) w.
Proof.
  intros (Hq & Ha & Hsh). unfold do_protocol_ping.
  eapply wp_mono; [by apply (queue_write_shape n WriteType.ping [] None)|].
  intros ec w1 (Hq1 & Hsh1 & Ha1). split; [done|]. split; [|done]. by destruct (is_error ec).
Qed.

(** Starting the write of the front. *)
Lemma queue_started n s slot l w :
  Queue n w → state (client w) = ConnectionState.connected → ws (client w) = Some s →
  write_in_progress (client w) = false → slots w = slot :: l →
  Queue n (write_started s slot w).
Proof.
  intros [[] []] Hst Hs Hb Hsl. split; split; unfold unsent, slots in *; simpl in *; auto.
  - intros g s' [Hin|[= -> ->]%list_elem_of_singleton]%elem_of_app; [by apply wi_ops|].
    split; [lia|by apply wi_next].
  - autorewrite with model_rw. rewrite wi_one, Hb. simpl. by rewrite Z.eqb_refl.
  - intros Hup g s' [Hin|[= -> ->]%list_elem_of_singleton]%elem_of_app; [by apply wi_own|done].
  - intros s'. autorewrite with model_rw. specialize (wi_single s'). simpl.
    case_bool_decide as Es; [|lia]. subst s'. rewrite count_zero; [lia|].
    intros op Hop. destruct op as [| | | | |g s'|]; try done. simpl.
    case_bool_decide; [|done]. subst s'. exfalso.
    rewrite (wi_own (or_intror Hst) g s Hop Hs) in Hop.
    apply list_elem_of_lookup in Hop as [i Hi].
    assert (Hc := count_delete (write_of (write_generation (client w))) _ _ _ Hi).
    rewrite wi_one, Hb in Hc. simpl in Hc. rewrite Z.eqb_refl in Hc. lia.
  - congruence.
  - intros s'. rewrite accepted_app, wire_app, wire_of_call. case_decide; simpl; [subst s'|].
    + rewrite app_nil_r, (wire_rest s Hs (or_intror Hst)), Hb, Hsl. simpl.
      rewrite (app_assoc _ [payload slot] (map payload l)). by apply prefix_app_r.
    + by rewrite !app_nil_r.
  - intros s' Hs' _. rewrite accepted_app, wire_app, wire_of_call, (wire_rest s' Hs' (or_intror Hst)).
    rewrite Hs in Hs'. injection Hs' as <-. rewrite decide_True, Hb, Hsl by done. simpl.
    by rewrite app_nil_r, <- app_assoc.
  - intros s' Hle. rewrite accepted_app. simpl. rewrite app_nil_r. auto.
Qed.

Lemma start_write_inv n w :
  Queue n w → Acc None None w → state (client w) = ConnectionState.connected → HasRead w →
  wp start_write (λ _, Inv n) w.
Proof.
  intros Hq Ha Hst Hr. eapply start_write_wp; [done|apply (wi_up _ _ (proj1 Hq)); by right| |].
  - intros Hno. split; [done|]. split; [done|].
    split; unfold Quiet, HasConnect; rewrite ?Hst; try done. intros _ Hne. by destruct Hno.
  - intros s slot l Hs Hb Hsl. split; [by eapply queue_started|]. split.
    + destruct Ha as [Hw Hc]. split; unfold slots in *; simpl.
      * intros h. specialize (Hw h). autorewrite with model_rw. simpl in *. lia.
      * intros P. specialize (Hc P). autorewrite with model_rw. simpl in *. lia.
    + split; unfold Quiet, Busy, HasConnect, HasRead; simpl; rewrite ?Hst; try done.
      intros _. autorewrite with model_rw. specialize (Hr Hst). lia.
Qed.

(** Taking an operation off the pending ones. *)
Lemma queue_delete n i op w :
  Queue n w → pending w !! i = Some op → write_of (write_generation (client w)) op = false →
  Queue n (w <| pending ::= delete i |>).
Proof.
  intros [[] []] Hi Hop. split; split; unfold unsent, slots in *; simpl; auto.
  - intros g s Hin%elem_of_delete. by apply wi_ops.
  - rewrite (count_delete _ _ _ _ Hi), Hop in wi_one. by rewrite <- wi_one.
  - intros Hup g s Hin%elem_of_delete. by apply wi_own.
  - intros s. specialize (wi_single s). rewrite (count_delete _ _ _ _ Hi) in wi_single. lia.
Qed.

(** The handler of an operation taken off: its connect handler is owed. *)
Definition op_handler (op : operation) : ConnectHandler :=
  match op with
  | Op_resolve h | Op_connect h _ | Op_ssl_handshake h _ | Op_websocket_handshake h _ => h
  | _ => None
  end.

Lemma acc_delete i op w :
  Acc None None w → pending w !! i = Some op →
  Acc None (op_handler op) (w <| pending ::= delete i |>).
Proof.
  intros [Hw Hc] Hi. split; unfold slots in *; simpl; [done|].
  intros P. specialize (Hc P). rewrite (count_delete _ _ _ _ Hi) in Hc. simpl in Hc.
  replace (lambda_is P (op_handler op)) with (connect_op_of P op) by by destruct op. lia.
Qed.

(** A write is finished: its message [slot] is off the queue, its answer is owed,
    and no write is in progress. *)
Record Popped (n : nat) (slot : WriteSlot) (l : list WriteSlot) (w w1 : W) : Prop := {
  pp_queue : Queue n w1;
  pp_acc : Acc (slot_handler slot) None w1;
  pp_read : HasRead w1;
  pp_state : state (client w1) = ConnectionState.connected;
  pp_ws : ws (client w1) = ws (client w);
  pp_slots : slots w1 = l;
  pp_trace : trace w1 = trace w;
}.

Lemma handle_write_pops n i g s slot l ec w Post :
  Inv n w → pending w !! i = Some (Op_write g s) → g = write_generation (client w) →
  slots w = slot :: l →
  (∀ w1, Popped n slot l w w1 → wp (call_if (λ h, Call_write h ec) (slot_handler slot) ;;;
    if is_error ec then handle_unexpected_disconnect ec else start_write) Post w1) →
  wp (handle_write g ec) Post (w <| pending ::= delete i |>).
Proof.
  intros (Hq & Ha & Hsh) Hi -> Hsl Hk. assert (Ha0 := acc_delete _ _ _ Ha Hi). simpl in Ha0.
  assert (∀ p, p (Op_write (write_generation (client w)) s) = false →
    count p (pending w) = count p (delete i (pending w))) as Hcount.
  { intros p Hp. by rewrite (count_delete _ _ _ _ Hi), Hp. }
  unfold handle_write, getc. apply wp_bind, wp_gets, wp_bind, is_connected_wp. simpl.
  rewrite Z.eqb_refl. simpl.
  assert (write_in_progress (client w) = true) as Hb.
  { assert (Hone := wi_one _ _ (proj1 Hq)). rewrite (count_delete _ _ _ _ Hi) in Hone. simpl in Hone.
    rewrite Z.eqb_refl in Hone. by destruct (write_in_progress (client w)). }
  assert (state (client w) = ConnectionState.connected) as Hst.
  { destruct (decide (state (client w) = ConnectionState.connected)) as [|Hnc]; [done|].
    rewrite (sh_quiet _ Hsh Hnc) in Hsl. done. }
  rewrite Hst. simpl. assert (Hv := wi_valid _ _ (proj1 Hq)).
  destruct (fq_write_front _ _ (slot <| slot_handler := None |>) _ Hv Hsl) as [Hv1 Hc1].
  destruct (fq_pop _ _ _ Hv1 Hc1) as (q & Hpop & Hv2 & Hc2).
  apply wp_bind, wp_gets, wp_bind, wp_require. exists slot. split; [by eapply fq_front|].
  unfold modc. apply wp_bind, wp_modify, wp_bind, wp_gets, wp_bind, wp_require.
  exists q. split; [exact Hpop|]. apply wp_bind, wp_modify, wp_bind, wp_modify, Hk.
  split; [| | |exact Hst|done|exact Hc2|done].
  - eapply (queue_pop n w); [done|exact Hv2| |..]; simpl; auto.
    + intros _. unfold unsent. by rewrite Hc2, Hb, Hsl.
    + intros op. apply elem_of_delete.
    + intros s'. assert (Hs := wi_single _ _ (proj1 Hq) s').
      rewrite (count_delete _ _ _ _ Hi) in Hs. lia.
    + assert (Hone := wi_one _ _ (proj1 Hq)). rewrite (count_delete _ _ _ _ Hi) in Hone.
      simpl in Hone. rewrite Z.eqb_refl, Hb in Hone. lia.
  - eapply (acc_pop None w); simpl; [done|done|exact Hc2|done|done|].
    intros P'. by rewrite (Hcount (connect_op_of P')).
  - unfold HasRead. simpl. rewrite <- (Hcount is_read_op) by done. by apply Hsh.
Qed.

Lemma handle_write_wp n i g s ec w :
  Z.of_nat n < two64 - 1 → Inv n w → pending w !! i = Some (Op_write g s) →
  wp (handle_write g ec) (λ _, Inv (S n)) (w <| pending ::= delete i |>).
Proof.
  intros Hn HI Hi. destruct (decide (g = write_generation (client w))) as [->|Hg].
  2:{ destruct HI as (Hq & Ha & Hsh). assert (Ha0 := acc_delete _ _ _ Ha Hi). simpl in Ha0.
      assert (∀ p, p (Op_write g s) = false → count p (pending w) = count p (delete i (pending w))) as Hcount.
      { intros p Hp. by rewrite (count_delete _ _ _ _ Hi), Hp. }
      unfold handle_write, getc. apply wp_bind, wp_gets, wp_bind, is_connected_wp. simpl.
      assert ((g =? write_generation (client w)) = false) as Hg1 by (by apply Z.eqb_neq). rewrite Hg1. simpl.
      apply (inv_mono n); [lia|]. split; [by eapply queue_delete|]. split; [done|].
      destruct Hsh. split; unfold HasConnect, HasRead in *; simpl; rewrite <- ?Hcount; done. }
  assert (slots w ≠ []) as Hne.
  { assert (Hone := wi_one _ _ (proj1 (proj1 HI))). rewrite (count_delete _ _ _ _ Hi) in Hone.
    simpl in Hone. rewrite Z.eqb_refl in Hone. apply (wi_busy _ _ (proj1 (proj1 HI))).
    by destruct (write_in_progress (client w)). }
  destruct (slots w) as [|slot l] eqn:Hsl; [done|].
  eapply handle_write_pops; [done..|]. intros w1 [Hq Ha Hr Hst _ _ _].
  set (P := λ w : W, HasRead w ∧ state (client w) = ConnectionState.connected).
  assert (Closed P) as HP by (apply closed_and; [apply closed_count|apply (closed_state (λ s, s = _))]).
  apply wp_bind. eapply wp_mono; [by apply (answer_wp n P None); [done|by intros e ? []|done..]|].
  intros [] w' (Hq' & Ha' & Hr' & Hst').
  destruct (is_error ec); [by apply handle_unexpected_disconnect_wp|].
  eapply wp_mono; [by apply (start_write_inv n)|]. intros [] w'' ?. by apply (inv_mono n); [lia|].
Qed.

(** ** Reading and timers *)

Lemma handle_read_wp n ec w :
  Z.of_nat n < two64 - 1 → Queue n w → Acc None None w →
  state (client w) ≠ ConnectionState.closing → Quiet w → Busy w → HasConnect w →
  wp (handle_read ec) (λ _, Inv (S n)) w.
Proof.
  intros Hn Hq Ha Hset Hqu Hb Hc. unfold handle_read. apply wp_bind, is_connected_wp.
  case_bool_decide as Hst; simpl.
  2:{ apply (inv_mono n); [lia|]. split; [done|]. split; [done|]. split; try done. by intros ?. }
  destruct (is_error ec); [by apply handle_unexpected_disconnect_wp|].
  unfold gete, getc, modc. apply wp_bind, wp_gets, wp_bind, wp_modify.
  assert (Hs := queue_touch n w Hq). set (w1 := w <| client ::= _ |>) in *.
  apply wp_bind, wp_gets, wp_bind, wp_gets, wp_bind.
  eapply wp_mono.
  { apply (call_if_closed n (λ w, Acc None None w ∧ Connected w)); [done|apply _|by eapply queue_same|].
    split; [by eapply acc_same|by eapply connected_same]. }
  intros [] w2 (Hq2 & Ha2 & Hc2). apply wp_bind, wp_modify.
  assert (same_core w2 (w2 <| client ::= λ c, c <| read_buffer := [] |> |>)) as Hs2.
  { destruct Hq2 as [[] _]. by split. }
  destruct (connected_same _ _ Hs2 Hc2) as [[Hb3 Hqu3] Hst3].
  eapply wp_mono; [apply (start_read_wp n); try done; [by eapply queue_same|by eapply acc_same]|].
  intros [] w3 ?. by apply (inv_mono n); [lia|].
Qed.

Lemma handle_ping_timer_wp n ec w : Inv n w → wp (handle_ping_timer ec) (λ _, Inv n) w.
Proof.
  intros (Hq & Ha & Hsh). unfold handle_ping_timer, getc.
  apply wp_bind, is_connected_wp, wp_bind, wp_gets.
  destruct (_ || _); [by split|]. apply wp_bind, wp_gets, wp_bind.
  eapply (wp_mono _ (λ _, Inv n)).
  - destruct (ping_message_generator (client w)) as [g|]; [|by apply do_protocol_ping_wp].
    apply wp_bind. eapply wp_mono.
    { apply (call_closed n (λ w, Acc None None w ∧ Shape w)); try done; apply _. }
    intros [] w1 (Hq1 & Ha1 & Hsh1). apply wp_bind, wp_gets. by apply do_write_wp.
  - intros ping_ec w1 (Hq1 & Ha1 & Hsh1). case_bool_decide.
    + apply (start_ping_timer_after_wp n (λ w, Acc None None w ∧ Shape w)); try done; apply _.
    + apply wp_bind, wp_gets, wp_bind, to_duration_wp; [apply Hq1|].
      apply (start_ping_timer_after_wp n (λ w, Acc None None w ∧ Shape w)); try done; apply _.
Qed.

Lemma handle_read_timeout_wp n ec w :
  Z.of_nat n < two64 - 1 → Inv n w → wp (handle_read_timeout ec) (λ _, Inv (S n)) w.
Proof.
  intros Hn (Hq & Ha & Hsh). unfold handle_read_timeout, getc, gete.
  apply wp_bind, is_connected_wp, wp_bind, wp_gets.
  case_bool_decide as Hst; simpl; [|rewrite orb_true_r; simpl; by apply (inv_mono n); [lia|split]].
  destruct (_ || _); [by apply (inv_mono n); [lia|split]|].
  apply wp_bind, wp_gets, wp_bind. eapply read_deadline_wp; [done|].
  destruct (_ <? _); [|by apply handle_unexpected_disconnect_wp].
  eapply wp_mono; [apply (start_read_timer_wp n (λ w, Acc None None w ∧ Shape w)); try done; apply _|].
  intros [] w1 ?. by apply (inv_mono n); [lia|].
Qed.

(** ** Events *)

Definition task_writer (t : task) : option handler :=
  match t with Task_write _ h => h | _ => None end.
Definition task_connector (t : task) : ConnectHandler :=
  match t with Task_connect h => h | _ => None end.

Lemma acc_take i t w :
  Acc None None w → posted w !! i = Some t →
  Acc (task_writer t) (task_connector t) (w <| posted ::= delete i |>).
Proof.
  intros [Hw Hc] Hi. split; unfold slots in *; simpl.
  - intros h. specialize (Hw h). rewrite (count_delete _ _ _ _ Hi) in Hw. revert Hw.
    destruct t as [|m [h'|]| | | | | | |]; simpl; repeat case_bool_decide; simplify_eq; lia.
  - intros P. specialize (Hc P). rewrite (count_delete _ _ _ _ Hi) in Hc. simpl in Hc.
    destruct t as [h'| | | | | | | |]; simpl in *; try destruct (lambda_is P h'); lia.
Qed.

Lemma queue_take n i t w :
  Queue n w → posted w !! i = Some t → sane_task t ∧ Queue n (w <| posted ::= delete i |>).
Proof.
  intros [[] []] Hi. split.
  - rewrite Forall_forall in wi_posted. by eapply wi_posted, list_elem_of_lookup_2.
  - split; split; unfold unsent, slots in *; simpl; auto.
    rewrite Forall_forall in *. intros t' Hin%elem_of_delete. auto.
Qed.

(** A run is sane if its clock and the users' time-outs are. *)
Definition sane_action (a : action) : Prop :=
  match a with
  | Act_api a _ => sane_api a
  | Act_task _ e => sane_time (now e)
  | Act_complete _ c => sane_time (now (c_env c))
  end.

Context (run_ext_task : ext_task → M W unit) (run_ext_wait : ext_wait → error_code → M W unit).

(** What the tasks and timers of a derived class must keep. *)
Class StableTasks : Prop := {
  stable_task t n w : ext_task_ok t → Z.of_nat n < two64 - 1 → Inv n w → wp (run_ext_task t) (λ _, Inv (S n)) w;
  stable_wait x ec n w :
    Z.of_nat n < two64 - 1 → Inv n w → wp (run_ext_wait x ec) (λ _, Inv (S n)) w;
}.

Context `{!StableTasks}.

(** Setting a field that the invariant does not mention. *)
Lemma inv_same n w w' : same_core w w' → Inv n w → Inv n w'.
Proof.
  intros Hs (?&?&?). split; [by eapply queue_same|]. split; [by eapply acc_same|by eapply shape_same].
Qed.

Lemma cancel_timer_inv n t w : Inv n w → wp (Timer.cancel (asio_timer t)) (λ _, Inv n) w.
Proof.
  intros (?&?&?). apply (cancel_timer_wp n (λ w, Acc None None w ∧ Shape w)); try done; apply _.
Qed.

(** A setter of the executor thread. *)
Lemma set_client_wp n f (k : M W unit) w :
  Inv n w → (Inv n w → same_core w (w <| client ::= f |>)) →
  (∀ w', Inv n w' → wp k (λ _, Inv n) w') → wp (modc f ;;; k) (λ _, Inv n) w.
Proof.
  intros Hi Hs Hk. unfold modc. apply wp_bind, wp_modify, Hk. eapply inv_same; [by apply Hs|done].
Qed.

Lemma set_ping_interval_wp n interval w :
  sane_seconds interval → Inv n w →
  wp (run_task run_ext_task (Task_set_ping_interval interval)) (λ _, Inv n) w.
Proof.
  intros Ht Hi. simpl. apply set_client_wp; [done| |].
  - intros (([] & _) & _). by split.
  - intros w' Hi'. apply wp_bind, is_connected_wp. destruct (negb _); [done|].
    apply wp_bind. eapply wp_mono; [by apply (cancel_timer_inv n)|].
    intros [] w2 (?&?&?). apply (start_ping_timer_wp n (λ w, Acc None None w ∧ Shape w)); try done; apply _.
Qed.

Lemma set_read_timeout_wp n timeout w :
  sane_seconds timeout → Inv n w →
  wp (run_task run_ext_task (Task_set_read_timeout timeout)) (λ _, Inv n) w.
Proof.
  intros Ht Hi. simpl. apply set_client_wp; [done| |].
  - intros (([] & _) & _). by split.
  - intros w' Hi'. apply wp_bind, is_connected_wp. destruct (negb _); [done|].
    unfold gete. apply wp_bind, wp_gets. apply set_client_wp; [done| |].
    + intros (Hq & _). by eapply queue_touch.
    + intros w2 Hi2. apply wp_bind. eapply wp_mono; [by apply (cancel_timer_inv n)|].
      intros [] w3 (?&?&?). apply (start_read_timer_wp n (λ w, Acc None None w ∧ Shape w)); try done; apply _.
Qed.

Lemma set_handler_wp n f w :
  Inv n w → (Inv n w → same_core w (w <| client ::= f |>)) → wp (modc f) (λ _, Inv n) w.
Proof. intros Hi Hs. unfold modc. apply wp_modify. eapply inv_same; [by apply Hs|done]. Qed.

Lemma run_task_wp n t w :
  Z.of_nat n < two64 - 1 → sane_task t → Queue n w → Acc (task_writer t) (task_connector t) w → Shape w →
  wp (run_task run_ext_task t) (λ _, Inv (S n)) w.
Proof.
  intros Hn Ht Hq Ha Hsh.
  assert (∀ m : M W unit, wp m (λ _, Inv n) w → wp m (λ _, Inv (S n)) w) as Hup.
  { intros m Hm. eapply wp_mono; [exact Hm|]. intros [] w' ?. by apply (inv_mono n); [lia|]. }
  destruct t as [h|m h|h|h|h|h|interval|timeout|t]; simpl in Ha.
  - by apply Hup, do_connect_wp.
  - apply Hup. simpl. apply wp_bind. eapply wp_mono; [by apply (do_write_wp n)|]. by intros ec w' ?.
  - eapply wp_mono; [by apply (do_close_wp n None h); try done; apply Hsh|].
    intros [] w' (?&?&?). split; [done|]. split; [done|by apply shape_frozen].
  - apply Hup, set_handler_wp; [by split|]. intros (([] & _) & _). by split.
  - apply Hup, set_handler_wp; [by split|]. intros (([] & _) & _). by split.
  - apply Hup, set_handler_wp; [by split|]. intros (([] & _) & _). by split.
  - by apply Hup, set_ping_interval_wp.
  - by apply Hup, set_read_timeout_wp.
  - by apply stable_task.
Qed.

Lemma shape_delete i op w :
  pending w !! i = Some op → is_connect_op op = false → is_read_op op = false →
  Shape w → Shape (w <| pending ::= delete i |>).
Proof.
  intros Hi Hc Hr []. split; try done.
  - intros Hst. specialize (sh_connect0 Hst). simpl. by rewrite (count_delete _ _ _ _ Hi), Hc in sh_connect0.
  - intros Hst. specialize (sh_read0 Hst). simpl. by rewrite (count_delete _ _ _ _ Hi), Hr in sh_read0.
Qed.

Lemma taken_delete n i op w :
  Inv n w → pending w !! i = Some op → is_connect_op op = true →
  Taken n (op_handler op) (w <| pending ::= delete i |>).
Proof.
  intros (Hq & Ha & []) Hi Hop. split; try done.
  - eapply queue_delete; [done..|]. by destruct op.
  - by eapply acc_delete.
  - intros Hst. specialize (sh_read0 Hst). simpl. rewrite (count_delete _ _ _ _ Hi) in sh_read0.
    by destruct op.
Qed.

Lemma complete_operation_wp n i op c w :
  Z.of_nat n < two64 - 1 → Inv n w → pending w !! i = Some op →
  wp (complete_operation run_ext_wait op c) (λ _, Inv (S n)) (w <| pending ::= delete i |>).
Proof.
  intros Hn HI Hi. assert (HI' := HI). destruct HI' as (Hq & Ha & Hsh).
  destruct op as [h|h s|h s|h s|s|g s|t l]; simpl.
  - apply handle_resolve_wp; [done|]. exact (taken_delete _ _ _ _ HI Hi eq_refl).
  - apply handle_connect_wp; [done|]. exact (taken_delete _ _ _ _ HI Hi eq_refl).
  - apply handle_ssl_handshake_wp; [done|]. exact (taken_delete _ _ _ _ HI Hi eq_refl).
  - apply handle_websocket_handshake_wp; [done|]. exact (taken_delete _ _ _ _ HI Hi eq_refl).
  - assert (Hq1 := queue_delete _ _ _ _ Hq Hi eq_refl). assert (Ha1 := acc_delete _ _ _ Ha Hi).
    simpl in Ha1. set (w1 := w <| pending ::= delete i |>) in *.
    assert (same_core w1 (w1 <| client ::= λ cl, cl <| read_buffer ::= λ b, b ++ c_data c |> |>)) as Hs.
    { destruct Hq1 as [[] _]. by split. }
    unfold modc. apply wp_bind, wp_modify. destruct Hsh.
    apply handle_read_wp; try done; [by eapply queue_same|by eapply acc_same|].
    intros Hst. specialize (sh_connect0 Hst). simpl. by rewrite (count_delete _ _ _ _ Hi) in sh_connect0.
  - by eapply handle_write_wp.
  - assert (Inv n (w <| pending ::= delete i |>)) as HI1.
    { split; [by eapply queue_delete|]. split; [exact (acc_delete _ _ _ Ha Hi)|by eapply shape_delete]. }
    unfold Timer.run_wait. destruct (wait_handler l) as [[| |x]|]; simpl.
    + eapply wp_mono; [by apply handle_ping_timer_wp|]. intros [] w' ?. by apply (inv_mono n); [lia|].
    + by apply handle_read_timeout_wp.
    + by apply stable_wait.
    + apply (inv_mono n); [lia|done].
Qed.

Lemma set_env_inv n e w : sane_time (now e) → Inv n w → Inv n (w <| env := e |>).
Proof. intros He HI. eapply inv_same; [|done]. destruct HI as (([] & _) & _). by split. Qed.

(** What a completion of the connect phase starts with. *)
Lemma complete_wp n w i op c Post :
  Inv n w → pending w !! i = Some op → is_connect_op op = true → sane_time (now (c_env c)) →
  (let w1 := w <| env := (c_env c) <| running_in_this_thread := true |> |> <| pending ::= delete i |> in
   Taken n (op_handler op) w1 → wp (complete_operation run_ext_wait op c) Post w1) →
  wp (step run_ext_task run_ext_wait (Act_complete i c)) Post w.
Proof.
  intros HI Hi Hop Hnow Hk. simpl. unfold set_env.
  apply wp_bind, wp_modify, wp_bind, wp_gets. simpl. rewrite Hi. apply wp_bind, wp_modify, Hk.
  apply (taken_delete n i op); [by apply set_env_inv|done..].
Qed.

Lemma step_inv n a w :
  Z.of_nat n < two64 - 1 → sane_action a → Inv n w →
  wp (step run_ext_task run_ext_wait a) (λ _, Inv (S n)) w.
Proof.
  intros Hn Hsane HI. destruct a as [a here|i e|i c]; simpl in *.
  - apply wp_bind, wp_modify.
    assert (Inv n (w <| env ::= λ e, e <| running_in_this_thread := here |> |>)) as (Hq & Ha & Hsh).
    { apply set_env_inv; [|done]. apply HI. }
    eapply wp_mono; [apply (run_api_closed n (λ w, Acc None None w ∧ Shape w)); try done; apply _|].
    intros [] w' ?. by apply (inv_mono n); [lia|].
  - unfold set_env. apply wp_bind, wp_modify, wp_bind, wp_gets. simpl.
    assert (Inv n (w <| env := e <| running_in_this_thread := true |> |>)) as HI1
      by by apply set_env_inv.
    set (w1 := w <| env := _ |>) in *. change (posted w) with (posted w1).
    destruct (posted w1 !! i) as [t|] eqn:Hi; [|by apply (inv_mono n); [lia|]].
    apply wp_bind, wp_modify. destruct HI1 as (Hq & Ha & Hsh).
    destruct (queue_take _ _ _ _ Hq Hi) as [Ht Hq'].
    apply run_task_wp; try done; [by apply acc_take|by destruct Hsh].
  - unfold set_env. apply wp_bind, wp_modify, wp_bind, wp_gets. simpl.
    assert (Inv n (w <| env := (c_env c) <| running_in_this_thread := true |> |>)) as HI1
      by by apply set_env_inv.
    set (w1 := w <| env := _ |>) in *. change (pending w) with (pending w1).
    destruct (pending w1 !! i) as [op|] eqn:Hi; [|by apply (inv_mono n); [lia|]].
    apply wp_bind, wp_modify. by apply complete_operation_wp.
Qed.

Definition steps : list action → M W unit := run (step run_ext_task run_ext_wait).

Lemma steps_inv_from n acts w :
  Z.of_nat (n + length acts) < two64 → Forall sane_action acts → Inv n w →
  wp (steps acts) (λ _, Inv (n + length acts)) w.
Proof.
  intros Hlen Hsane. revert n w Hlen. unfold steps.
  induction Hsane as [|a acts Ha Hsane IH]; intros n w Hlen HI; simpl in *.
  - unfold run. simpl. apply wp_ret. by rewrite Nat.add_0_r.
  - unfold run. simpl. apply wp_bind. eapply wp_mono; [apply (step_inv n); try done; lia|].
    intros [] w' HI'. replace (n + S (length acts))%nat with (S n + length acts)%nat by lia.
    apply IH; [lia|done].
Qed.

Lemma steps_inv acts w :
  Z.of_nat (length acts) < two64 → Forall sane_action acts → Inv 0 w →
  wp (steps acts) (λ _, Inv (length acts)) w.
Proof. apply (steps_inv_from 0). Qed.
End safety.
