(* ===== verification/WebSocketProperties.v ===== *)
(** The base class as an instance, and the properties of the WebSocket client.

    [base_extension], [base_user] and [base_virtual] close the parameters of
    [SecureWebSocketClient] for a client that is not derived from; the
    properties are stated for every derived class that keeps to the contracts
    of [WebSocketSafety], and witnessed on the base class. *)

From S2P Require Import Prelude RingBuffer Timer SecureWebSocketClient WriteQueue WebSocketSafety.

(** * The base class *)

(** The API of the base class that a derived class replaces. *)
Inductive base_api :=
  | Api_connect (host port resource : string) (h : option handler)
  | Api_close (h : option handler).

#[export] Instance base_extension : Extension := {|
  ext_state := unit;
  ext_task := Empty_set;
  ext_wait := Empty_set;
  ext_callback := Empty_set;
  ext_api := base_api;
  connect_lambda := handler;
|}.

#[export] Instance base_ok : ExtensionInvariant :=
  {| ext_ok _ := True; ext_task_ok _ := True; ext_api_ok _ := True |}.

Section base.
Context {Q : Type} `{!FifoQueue WriteSlot Q} `{!FifoQueueLaws WriteSlot Q} `{WriteConfig}.
Context (user_react : list event → callback → list api_call).
Context (user_generate : list event → handler → list byte).

Definition run_base_api (a : base_api) : M (World Q) unit :=
  match a with
  | Api_connect host port resource h => connect host port resource h
  | Api_close h => close h
  end.

Definition base_user : User Q := {|
  react := user_react; generate := user_generate; run_ext_api := run_base_api |}.

Definition base_virtual : Virtual Q :=
  let u := base_user in
  @Build_Virtual base_extension Q (λ (h : handler) ec, call (Call_connect h ec))
    base_on_unexpected_disconnect.

Context (Hsane : ∀ t c, Forall sane_api (user_react t c)).

Lemma base_stable_user : @StableUser _ Q base_ok base_user.
Proof.
  split; [exact Hsane|]. intros [host port resource h|h] w _ He; simpl.
  - unfold connect, modc. apply wp_bind, wp_modify, wp_bind, wp_modify, wp_bind, wp_modify.
    apply wp_bind, shared_wp; [done|]. apply wp_bind, wp_log. unfold executor_post. apply wp_modify.
    split; simpl; try done.
    + by exists host, port, resource.
    + exists [Task_connect (h : @ConnectHandler base_extension)]. split; [done|]. split; [by repeat constructor|].
      exists [Ev_connect_call (h : @ConnectHandler base_extension)]. split; [done|]. split; [by repeat constructor|].
      split; [done|]. intros P. autorewrite with model_rw. done.
    + exists []. by rewrite app_nil_r.
  - unfold close. apply wp_bind, shared_wp; [done|]. apply wp_bind, wp_log.
    exact (frame_post_log (Task_close h) (Ev_close_call h) w eq_refl I (λ _, eq_refl) (λ _, eq_refl)).
Qed.

Lemma base_stable_virtual : @StableVirtual _ Q _ base_ok base_virtual.
Proof.
  assert (Hu := base_stable_user).
  split.
  - intros l ec n P w HP Hq Hp. simpl. by apply (call_closed (H2 := Hu) n P).
  - intros ec n P w HP Hq Hp. simpl. unfold base_on_unexpected_disconnect, getc. apply wp_bind, wp_gets.
    by apply (call_if_closed (H2 := Hu) n P).
Qed.

Definition no_ext_task (t : @ext_task base_extension) : M (World Q) unit := match t with end.
Definition no_ext_wait (x : @ext_wait base_extension) (ec : error_code) : M (World Q) unit :=
  match x with end.

Lemma base_stable_tasks : @StableTasks _ Q _ base_ok no_ext_task no_ext_wait.
Proof. split; intros []. Qed.
End base.

(** * Properties *)

Section properties.
Context `{Extension} {Q : Type} `{!FifoQueue WriteSlot Q} `{!FifoQueueLaws WriteSlot Q}
  `{WriteConfig} `{!ExtensionInvariant} `{!User Q} `{!Virtual Q}.
Context (run_ext_task : ext_task → M (World Q) unit).
Context (run_ext_wait : ext_wait → error_code → M (World Q) unit).
Context `{!StableUser} `{!StableVirtual} `{!StableTasks run_ext_task run_ext_wait}.
Notation W := (World Q).
Notation steps := (steps run_ext_task run_ext_wait).

Lemma client_init_inv x e : ext_ok x → sane_time (now e) → Inv 0 (World_init x e : W).
Proof.
  intros Hx He. assert (Hc := fq_contents_empty (T := WriteSlot) (Q := Q)).
  split; [|split].
  - split; split; simpl; try done; try (by intros ? []%elem_of_nil).
    + apply fq_valid_empty.
    + by intros [|].
    + by intros g s []%elem_of_nil.
    + intros s. rewrite count_nil; auto.
  - split; unfold slots; simpl; rewrite ?Hc; done.
  - split; try done. intros _. unfold slots. by rewrite <- Hc.
Qed.

Lemma run_from_init acts x e :
  ext_ok x → sane_time (now e) → Z.of_nat (length acts) < two64 → Forall sane_action acts →
  wp (steps acts) (λ _, Inv (length acts)) (World_init x e).
Proof. intros Hx He Hlen Hsane. apply steps_inv; try done. by apply client_init_inv. Qed.

(** C4: whatever the users, the executor and the libraries do (fewer than 2^64
    events, sane clocks and time-outs), the client never faults: no assertion
    of the ring fails, no null stream is dereferenced, the loop of
    [fail_pending_writes] ends.  Between events it is never closing; when it is
    not connected its queue is empty; when it is connected it has a stream and a
    pending read, and is writing if anything is queued; when it is connecting an
    operation of the connect phase is pending. *)
Theorem client_never_faults acts x e :
  ext_ok x → sane_time (now e) → Z.of_nat (length acts) < two64 → Forall sane_action acts →
  wp (steps acts) (λ _ w,
    fq_valid (write_slots (client w)) ∧
    match state (client w) with
    | ConnectionState.disconnected => slots w = []
    | ConnectionState.connecting =>
        slots w = [] ∧ is_Some (ws (client w)) ∧ (1 ≤ count is_connect_op (pending w))%nat
    | ConnectionState.connected =>
        is_Some (ws (client w)) ∧ (1 ≤ count is_read_op (pending w))%nat ∧
        (write_in_progress (client w) = true ↔ slots w ≠ [])
    | ConnectionState.closing => False
    end) (World_init x e).
Proof.
  intros Hx He Hlen Hsane. eapply wp_mono; [by apply run_from_init|].
  intros [] w ([Hw _] & _ & []). split; [apply Hw|].
  destruct (state (client w)) eqn:Hst.
  - apply sh_quiet. congruence.
  - split; [apply sh_quiet; congruence|]. split; [apply Hw; by left|by apply sh_connect].
  - split; [apply Hw; by right|]. split; [by apply sh_read|]. split; [apply Hw|by apply sh_busy].
  - done.
Qed.

(** Handlers given to [write], and answers to them. *)
Definition write_calls (h : handler) (w : W) : nat := count (write_call_of h) (trace w).
Definition answers (h : handler) (w : W) : nat := count (answer_of h) (trace w).
Definition waiting (h : handler) (w : W) : nat :=
  (count (write_task_of h) (posted w) + count (slot_of h) (slots w))%nat.

(** C5: every handler given to [write] is called exactly once: as often as it
    was given, less the writes that are still posted or in the queue.  In
    particular a client that is not connected owes an answer only to writes
    whose task has not run. *)
Theorem writes_are_answered_once acts x e h :
  ext_ok x → sane_time (now e) → Z.of_nat (length acts) < two64 → Forall sane_action acts →
  wp (steps acts) (λ _ w,
    write_calls h w = (answers h w + waiting h w)%nat ∧
    (state (client w) ≠ ConnectionState.connected →
     write_calls h w = (answers h w + count (write_task_of h) (posted w))%nat)) (World_init x e).
Proof.
  intros Hx He Hlen Hsane. eapply wp_mono; [by apply run_from_init|].
  intros [] w (_ & [Ha _] & []). specialize (Ha h). unfold write_calls, answers, waiting.
  simpl in Ha. split; [lia|]. intros Hst. rewrite (sh_quiet Hst) in Ha. rewrite count_nil in Ha. lia.
Qed.

(** C6: on every stream the messages go out in the order in which they were
    accepted, each once and with the bytes that were passed: what is on the wire
    is a prefix of what was accepted, and on the stream of a connected client
    the rest is exactly what the queue holds beyond the write in progress. *)
Theorem wire_is_fifo acts x e :
  ext_ok x → sane_time (now e) → Z.of_nat (length acts) < two64 → Forall sane_action acts →
  wp (steps acts) (λ _ w,
    (∀ s, wire s (trace w) `prefix_of` accepted s (trace w)) ∧
    (∀ s, ws (client w) = Some s → state (client w) = ConnectionState.connected →
      accepted s (trace w) = wire s (trace w) ++ map payload (tl (slots w)))) (World_init x e).
Proof.
  intros Hx He Hlen Hsane. eapply wp_mono; [by apply run_from_init|].
  intros [] w ([_ Hwi] & _ & []). split; [apply Hwi|]. intros s Hs Hst.
  rewrite (wire_rest _ Hwi s Hs (or_intror Hst)). f_equal. unfold unsent.
  destruct (write_in_progress (client w)) eqn:Hb; [done|].
  destruct (slots w) as [|slot l] eqn:Hsl; [done|].
  assert (Hbusy := sh_busy Hst). rewrite Hsl, Hb in Hbusy. by specialize (Hbusy (ltac:(done))).
Qed.

(** C27: there is never more than one write outstanding on a stream, as Beast
    requires; a connected client with a non-empty queue has exactly one pending
    write of its generation, on its stream, and no pending write of an earlier
    connection is taken for it. *)
Theorem one_write_at_a_time acts x e :
  ext_ok x → sane_time (now e) → Z.of_nat (length acts) < two64 → Forall sane_action acts →
  wp (steps acts) (λ _ w,
    (∀ s, (count (write_on s) (pending w) ≤ 1)%nat) ∧
    count (write_of (write_generation (client w))) (pending w) =
      (if bool_decide (slots w = []) then 0%nat else 1%nat) ∧
    (state (client w) = ConnectionState.connected → ∀ g s,
      Op_write g s ∈ pending w → ws (client w) = Some s → g = write_generation (client w)))
    (World_init x e).
Proof.
  intros Hx He Hlen Hsane. eapply wp_mono; [by apply run_from_init|].
  intros [] w ([[] _] & _ & []). split; [done|]. split; [|by intros Hst; apply wi_own; right].
  rewrite wi_one. case_bool_decide as Hsl.
  - destruct (write_in_progress (client w)) eqn:Hb; [|done]. by destruct (wi_busy eq_refl).
  - destruct (decide (state (client w) = ConnectionState.connected)) as [Hst|Hst].
    + by rewrite (sh_busy Hst Hsl).
    + by destruct Hsl, (sh_quiet Hst).
Qed.

(** No connect handler is called more often than it was given to [connect]:
    each attempt reports at most one result. *)
Theorem connect_results_at_most_once acts x e P :
  ext_ok x → sane_time (now e) → Z.of_nat (length acts) < two64 → Forall sane_action acts →
  wp (steps acts) (λ _ w,
    (count (result_of P) (trace w) + count (connect_task_of P) (posted w) +
     count (connect_op_of P) (pending w) ≤ count (connect_call_of P) (trace w))%nat)
    (World_init x e).
Proof.
  intros Hx He Hlen Hsane. eapply wp_mono; [by apply run_from_init|].
  intros [] w (_ & [_ Hc] & _). specialize (Hc P). simpl in Hc. lia.
Qed.
(** ** Single operations *)

(** C30: [write_now] returns [operation_not_permitted] off the executor thread,
    else [not_connected], [message_size] or [no_buffer_space] in that order of
    precedence, and then nothing has happened; otherwise the message is the new
    last one of the queue, unaltered, and is being written if nothing else was. *)
Theorem write_now_outcome n m w :
  Inv n w →
  wp (write_now m) (λ ec w',
    ec = (if running_in_this_thread (env w) then queue_write_code m w
          else make_error_code operation_not_permitted) ∧
    if is_error ec then w' = w else ∃ s, queued s WriteType.message m None w w') w.
Proof.
  intros (Hq & _). unfold write_now, gete. apply wp_bind, wp_gets.
  destruct (running_in_this_thread (env w)); simpl; [|by apply wp_ret].
  by apply (queue_write_spec n).
Qed.

(** C29: closing, in any state, ends disconnected with an empty queue, no write
    of the new generation, and every write that was queued answered; the loop
    that answers them ends whatever the callbacks do. *)
Theorem close_answers_everything n h w :
  Z.of_nat n < two64 - 1 → Inv n w →
  wp (do_close h) (λ _ w',
    state (client w') = ConnectionState.disconnected ∧ slots w' = [] ∧
    write_in_progress (client w') = false ∧
    count (write_of (write_generation (client w'))) (pending w') = 0%nat ∧
    ∀ h', write_calls h' w' = (answers h' w' + count (write_task_of h') (posted w'))%nat) w.
Proof.
  intros Hn (Hq & Ha & []). eapply wp_mono; [by apply (do_close_wp n None)|].
  intros [] w' ([Hw' _] & [Ha' _] & Hst & Hb & Hsl). split; [done|]. split; [done|]. split; [done|].
  split; [by rewrite (wi_one _ _ Hw'), Hb|]. intros h'. specialize (Ha' h').
  unfold write_calls, answers. rewrite Hsl, count_nil in Ha'. simpl in Ha'. lia.
Qed.

(** C31: when the read timer of a connected client fires before the deadline
    [last_read_time + read_timeout], all that happens is that the timer is set
    to that deadline; at the deadline or later the client is disconnected. *)
Theorem read_timeout_outcome n w :
  Z.of_nat n < two64 - 1 → Inv n w → state (client w) = ConnectionState.connected →
  0 < read_timeout (client w) →
  wp (handle_read_timeout no_error) (λ _ w',
    if bool_decide (now (env w) < deadline w) then
      w' = w <| trace ::= λ l, l ++ [Ev_lib (L_timer_expires_at Read_timer (deadline w))] |>
             <| pending ::= λ l, l ++ [Op_wait Read_timer (Wait (Some On_read_timeout))] |>
    else state (client w') = ConnectionState.disconnected ∧ slots w' = []) w.
Proof.
  intros Hn (Hq & Ha & Hsh) Hst Ht. unfold handle_read_timeout, getc, gete.
  apply wp_bind, is_connected_wp, wp_bind, wp_gets. rewrite Hst. simpl.
  destruct (Z.leb_spec (read_timeout (client w)) 0); [lia|].
  apply wp_bind, wp_gets, wp_bind. eapply read_deadline_wp; [done|].
  destruct (Z.ltb_spec (now (env w)) (deadline w)).
  - rewrite bool_decide_true by done. unfold start_read_timer, getc.
    apply wp_bind, wp_gets, wp_bind, is_connected_wp. rewrite Hst. simpl.
    destruct (Z.leb_spec (read_timeout (client w)) 0); [lia|]. simpl.
    apply wp_bind. eapply read_deadline_wp; [done|]. apply wp_bind. unfold Timer.expires_at. simpl.
    apply wp_log, wp_bind, shared_wp; [exact (queue_alive n w Hq)|]. done.
  - rewrite bool_decide_false by lia. unfold handle_unexpected_disconnect, getc.
    apply wp_bind, wp_gets. rewrite Hst. simpl. apply wp_bind.
    eapply wp_mono; [apply (do_close_wp n None); try done; intros ?; congruence|].
    intros [] w' (Hq' & _ & Hf').
    eapply wp_mono; [apply (stable_disconnect _ (S n) (Frozen ConnectionState.disconnected [])); try done|].
    + by apply closed_frozen.
    + by intros [] w'' (_ & ? & _ & ?).
Qed.

(** When the ping timer of a connected client without a generator fires and
    the queue is full, no ping is queued and the timer is set to 100 ms;
    otherwise a ping is queued and the timer set to the full interval. *)
Theorem ping_is_retried_when_full n w :
  Inv n w → state (client w) = ConnectionState.connected →
  0 < ping_interval (client w) → ping_message_generator (client w) = None →
  wp (handle_ping_timer no_error) (λ _ w', ∃ w1,
    (if bool_decide (Z.of_nat (length (slots w)) = fq_capacity) then w1 = w
     else ∃ s, queued s WriteType.ping [] None w w1) ∧
    w' = w1
      <| trace ::= λ l, l ++ [Ev_lib (L_timer_expires_after Ping_timer
           (if bool_decide (Z.of_nat (length (slots w)) = fq_capacity) then ping_retry_delay
            else nanoseconds (ping_interval (client w))))] |>
      <| pending ::= λ l, l ++ [Op_wait Ping_timer (Wait (Some On_ping_timer))] |>) w.
Proof.
  intros (Hq & Ha & Hsh) Hst Hi Hg. unfold handle_ping_timer, getc.
  apply wp_bind, is_connected_wp, wp_bind, wp_gets. rewrite Hst. simpl.
  destruct (Z.leb_spec (ping_interval (client w)) 0); [lia|].
  apply wp_bind, wp_gets. rewrite Hg. apply wp_bind.
  eapply wp_mono; [by apply (queue_write_spec n)|].
  intros ec w1 [-> Hw1]. revert Hw1. unfold queue_write_code. rewrite Hst.
  rewrite (bool_decide_false (_ ≠ _)) by (intros Hne; by apply Hne).
  rewrite (bool_decide_false (_ < _)%nat) by (simpl; lia).
  assert (∀ w1 delay (Post : unit → W → Prop), Queue n w1 → state (client w1) = ConnectionState.connected →
    ping_interval (client w1) = ping_interval (client w) →
    Post tt (w1 <| trace ::= λ l, l ++ [Ev_lib (L_timer_expires_after Ping_timer delay)] |>
        <| pending ::= λ l, l ++ [Op_wait Ping_timer (Wait (Some On_ping_timer))] |>) →
    wp (start_ping_timer_after delay) Post w1) as Harm.
  { intros w2 delay Post Hq2 Hst2 Hi2 HPost. unfold start_ping_timer_after, getc.
    apply wp_bind, wp_gets, wp_bind, is_connected_wp. rewrite Hst2, Hi2. simpl.
    destruct (Z.leb_spec (ping_interval (client w)) 0); [lia|]. simpl.
    apply wp_bind, wp_log, wp_bind, shared_wp; [exact (queue_alive n w2 Hq2)|exact HPost]. }
  destruct (bool_decide (Z.of_nat (length (slots w)) = fq_capacity)); simpl.
  - intros ->. apply Harm; [done..|]. by exists w.
  - intros [s Hqd]. apply wp_bind, wp_gets, wp_bind.
    assert (Hq1 := queue_queued _ _ _ _ _ _ _ Hqd Hq).
    assert (ping_interval (client w1) = ping_interval (client w)) as Hi1.
    { destruct Hqd as [_ _ (q & ->)]. done. }
    apply to_duration_wp; [apply Hq1|]. rewrite Hi1.
    apply Harm; [done|by rewrite (queued_state _ _ _ _ _ _ Hqd)|done|].
    exists w1. split; [by exists s|done].
Qed.

(** ** Attempts to connect are not told apart *)

(** While a connection is being made, the failure of the resolve operation
    of any attempt, also of one that was closed before, closes the client: it
    ends disconnected, with the current attempt abandoned. *)
Theorem stale_failure_ends_the_attempt n w i h c :
  Z.of_nat n < two64 - 1 → Inv n w → state (client w) = ConnectionState.connecting →
  pending w !! i = Some (Op_resolve h) → is_error (c_ec c) = true → sane_time (now (c_env c)) →
  wp (step run_ext_task run_ext_wait (Act_complete i c)) (λ _ w',
    state (client w') = ConnectionState.disconnected ∧ slots w' = []) w.
Proof.
  intros Hn HI Hst Hi Hec Hnow. eapply complete_wp; [done..|]. intros w1 []. simpl.
  unfold handle_resolve, not_connecting, is_connecting, getc.
  apply wp_bind, wp_bind, wp_bind, wp_gets, wp_ret, wp_bind, wp_gets, wp_ret. simpl.
  rewrite Hst. simpl. destruct (wi_up _ _ (proj1 tk_queue) (or_introl Hst)) as [s Hs].
  simpl in Hs. rewrite Hs. simpl. rewrite Hec. unfold fail_connection. apply wp_bind.
  eapply wp_mono; [apply (do_close_wp n h); [done|exact tk_queue|exact tk_acc|done|done]|].
  intros [] w' (Hq' & Ha' & Hf').
  eapply wp_mono; [apply (connect_result_wp (S n) (Frozen ConnectionState.disconnected []) h); try done|].
  - by apply closed_frozen.
  - apply _.
  - by intros [] w'' (_ & _ & ? & _ & ?).
Qed.

(** ** The queue drains *)

Definition no_write_now (a : api_call) : Prop :=
  match a with Api_write_now _ => False | _ => True end.

(** A user who does not write from a callback only frames the world. *)
Lemma user_reacts_frame c w :
  (∀ t, Forall no_write_now (react t c)) → expired w = false →
  wp (user_reacts c) (λ _ w', frame w w') w.
Proof.
  intros Hno He. unfold user_reacts. apply wp_bind, wp_gets.
  assert (Hs := sane_react (trace w) c). specialize (Hno (trace w)). rewrite Forall_forall in Hs, Hno.
  apply (wp_for_each (λ w', frame w w')); [done|]. intros a w' Ha Hf.
  assert (expired w' = false) as He' by (by rewrite (fr_expired _ _ Hf)).
  specialize (Hs a Ha). specialize (Hno a Ha).
  assert (∀ w'', frame w' w'' → frame w w'') as Hgo by (intros w'' ?; by transitivity w').
  destruct a; simpl in *; try done;
    try (apply wp_bind, shared_wp; [done|]; apply Hgo, frame_post; done).
  - apply wp_bind, shared_wp; [done|]. apply Hgo.
    exact (frame_post_log (Task_write message h) (Ev_write_call h) w' eq_refl I
      (λ _, eq_refl) (λ _, eq_refl)).
  - eapply wp_mono; [by apply stable_ext_api|]. intros [] w'' ?. by apply Hgo.
Qed.

(** The callbacks do not write. *)
Definition no_writes_from_callbacks : Prop := ∀ t c, Forall no_write_now (react t c).

(** Connected on the stream [s], with the messages [l] and then those that
    callbacks wrote meanwhile in the queue; [acc] is what was accepted before
    them, and [a] the answers so far. *)
Definition Draining (s : nat) (l : list WriteSlot) (acc : list (WriteType.t * list byte))
    (a : handler → nat) (w : W) : Prop :=
  state (client w) = ConnectionState.connected ∧ ws (client w) = Some s ∧
  (∀ h, answers h w = a h) ∧
  ∃ added, slots w = l ++ added ∧ accepted s (trace w) = acc ++ map payload added.

#[local] Instance closed_draining s l acc a : Closed (Draining s l acc a).
Proof.
  split.
  - intros w w' [(h & p & r & C) _ _ _ _ (ts & _ & _ & es & T & L & _) _]
      (Hst & Hs & Ha & added & Hsl & Hacc).
    unfold Draining, slots, answers. rewrite C, T. split; [done|]. split; [done|]. split.
    + intros h'. rewrite count_app, (count_zero _ es), Nat.add_0_r; [apply Ha|].
      intros e He. rewrite Forall_forall in L. specialize (L e He). by destruct e as [| | | | | |[]|].
    + exists added. split; [done|]. rewrite accepted_app, (proj1 (plain_all s es L)). by rewrite app_nil_r.
  - intros s' m w w' Hq (Hst & Hs & Ha & added & Hsl & Hacc).
    destruct (queued_messages _ _ _ _ _ _ s Hq) as [Hm _].
    destruct Hq as [_ Hs' (q & C) _ (slot & Hsl' & Hpl & _) _ _ _ _ _ _ (es & T & Hes)].
    rewrite Hs in Hs'. injection Hs' as <-. rewrite decide_True in Hm by done.
    unfold Draining. rewrite C. split; [done|]. split; [done|]. split.
    + intros h'. rewrite <- Ha. unfold answers. rewrite T, count_app, count_cons. simpl.
      rewrite (count_zero _ es); [lia|]. intros e He. subst es.
      destruct (write_in_progress (client w)); [by apply elem_of_nil in He|].
      destruct (slots w'); [by apply elem_of_nil in He|]. by apply list_elem_of_singleton in He as ->.
    + exists (added ++ [slot]). rewrite Hsl', Hsl, Hm, Hacc, map_app. simpl. by rewrite Hpl, <- !app_assoc.
Qed.

(** Answering the write of [slot]. *)
Lemma answer_drains n s slot l acc a ec w :
  Queue n w → Draining s l acc a w →
  wp (call_if (λ h, Call_write h ec) (slot_handler slot)) (λ _ w', (Queue n w' ∧
    Draining s l acc (λ h, (a h + if slot_of h slot then 1 else 0)%nat) w') ∧
    (no_writes_from_callbacks → slots w' = slots w)) w.
Proof.
  intros Hq (Hst & Hs & Ha & added & Hsl & Hacc). apply wp_and_if.
  - unfold slot_of. destruct (slot_handler slot) as [h|]; simpl.
    + apply wp_bind, wp_log. apply user_reacts_closed; [apply _|by apply queue_log|].
      split; [done|]. split; [done|]. split.
      * intros h'. unfold answers in *. simpl. rewrite count_app, count_cons, count_nil, Ha. simpl.
        case_bool_decide as E1; case_bool_decide as E2; simpl; try lia; congruence.
      * exists added. split; [done|]. rewrite <- Hacc. simpl. rewrite accepted_app. apply app_nil_r.
    + split; [done|]. split; [done|]. split; [done|]. split; [|by exists added]. intros h. rewrite Ha. lia.
  - intros Hno. destruct (slot_handler slot) as [h|]; simpl; [|done]. apply wp_bind, wp_log.
    eapply wp_mono; [apply user_reacts_frame; [intros t; apply Hno|apply Hq]|].
    intros [] w' [(? & ? & ? & C) _ _ _ _ _ _]. unfold slots. by rewrite C.
Qed.

(** Starting the next write leaves the queue as it is. *)
Lemma start_write_drains n s l acc a w :
  Queue n w → Draining s l acc a w →
  wp start_write (λ _ w', Draining s l acc a w' ∧ slots w' = slots w) w.
Proof.
  intros Hq (Hst & Hs & Ha & added & Hsl & Hacc). eapply start_write_wp; [done|by exists s| |].
  - intros _. split; [|done]. split; [done|]. split; [done|]. split; [done|]. by exists added.
  - intros s' slot l' Hs' _ _. split; [|done]. split; [done|]. split; [done|]. split.
    + intros h. unfold answers in *. simpl. by rewrite count_app, Ha, Nat.add_0_r.
    + exists added. split; [done|]. rewrite <- Hacc. simpl. rewrite accepted_app. unfold wire_call.
      destruct (slot_type slot); apply app_nil_r.
Qed.

(** A write that completes without an error takes its message out of the queue. *)
Lemma write_completes n j s s' slot l acc a c w :
  Z.of_nat n < two64 - 1 → sane_time (now (c_env c)) → Inv n w →
  pending w !! j = Some (Op_write (write_generation (client w)) s') →
  is_error (c_ec c) = false → Draining s (slot :: l) acc a w →
  wp (step run_ext_task run_ext_wait (Act_complete j c)) (λ _ w', Inv (S n) w' ∧
    Draining s l acc (λ h, (a h + if slot_of h slot then 1 else 0)%nat) w' ∧
    (no_writes_from_callbacks → slots w' = tl (slots w))) w.
Proof.
  intros Hn Hc HI Hj Hec Hd. apply wp_and; [by apply step_inv|].
  destruct Hd as (Hst & Hs & Ha & added & Hsl & Hacc).
  simpl. unfold set_env. apply wp_bind, wp_modify, wp_bind, wp_gets.
  assert (Inv n (w <| env := (c_env c) <| running_in_this_thread := true |> |>)) as HI0 by (by apply set_env_inv).
  set (w0 := w <| env := _ |>) in *. change (pending w0) with (pending w). rewrite Hj.
  apply wp_bind, wp_modify. cbn [complete_operation].
  eapply (handle_write_pops n j _ s' slot (l ++ added)); [done..|].
  intros w1 [Hq1 _ _ Hst1 Hs1 Hsl1 Ht1]. rewrite Hec. apply wp_bind.
  eapply wp_mono; [apply (answer_drains n s slot l acc a); [done|]|].
  - split; [done|]. split; [by rewrite Hs1|]. unfold answers. rewrite Ht1. split; [done|]. by exists added.
  - intros [] w2 [[Hq2 Hd2] Hno]. eapply wp_mono; [by eapply start_write_drains|].
    intros [] w3 [Hd3 Hsl3]. split; [done|]. intros Hq. by rewrite Hsl3, Hno, Hsl1, Hsl.
Qed.

(** A connected client with a message in its queue waits for a write. *)
Lemma writing_operation n w : Inv n w → state (client w) = ConnectionState.connected → slots w ≠ [] →
  ∃ j s, pending w !! j = Some (Op_write (write_generation (client w)) s).
Proof.
  intros ([Hw _] & _ & Hsh) Hst Hne. assert (Hone := wi_one _ _ Hw). rewrite (sh_busy _ Hsh Hst Hne) in Hone.
  unfold count in Hone. destruct (filter _ (pending w)) as [|op ops] eqn:Hf; [done|].
  assert (op ∈ filter (λ x, write_of (write_generation (client w)) x = true) (pending w)) as Hop
    by (rewrite Hf; apply list_elem_of_here).
  apply list_elem_of_filter in Hop as [Hg [j Hj]%list_elem_of_lookup].
  destruct op as [| | | | |g s|]; try done. simpl in Hg. apply Z.eqb_eq in Hg as ->. eauto.
Qed.

Lemma writes_complete l c : is_error (c_ec c) = false → sane_time (now (c_env c)) → ∀ n s acc a w,
  Inv n w → Z.of_nat (n + length l) < two64 → Draining s l acc a w →
  ∃ js, length js = length l ∧
    wp (steps (map (λ j, Act_complete j c) js)) (λ _ w', Inv (n + length l) w' ∧
      Draining s [] acc (λ h, (a h + count (slot_of h) l)%nat) w' ∧
      (no_writes_from_callbacks → slots w = l → slots w' = [])) w.
Proof.
  intros Hec Hnow. induction l as [|slot l IH]; intros n s acc a w HI Hn Hd; simpl in Hn.
  - exists []. split; [done|]. apply wp_ret. rewrite Nat.add_0_r. split; [done|]. split; [|done].
    destruct Hd as (? & ? & Ha & ?). split; [done|]. split; [done|]. split; [|done].
    intros h. rewrite Ha, count_nil. lia.
  - assert (Hd' := Hd). destruct Hd' as (Hst & _ & _ & added & Hsl & _).
    destruct (writing_operation n w HI Hst) as (j & s' & Hj); [by rewrite Hsl|].
    destruct (wp_ok _ _ _ (write_completes n j s s' slot l acc a c w ltac:(lia) Hnow HI Hj Hec Hd))
      as ([] & w1 & Hw1 & HI1 & Hd1 & Hno1).
    destruct (IH (S n) s _ _ w1 HI1 ltac:(lia) Hd1) as (js & Hjs & Hwp).
    exists (j :: js). split; [simpl; by rewrite Hjs|].
    unfold WebSocketSafety.steps, run in *. cbn [map for_each]. apply wp_bind. unfold wp at 1.
    rewrite Hw1. eapply wp_mono; [exact Hwp|]. intros [] w' (HI' & Hd2 & Hno2).
    split; [by replace (n + length (slot :: l))%nat with (S n + length l)%nat by (simpl; lia)|]. split.
    + destruct Hd2 as (? & ? & Ha & ?). split; [done|]. split; [done|]. split; [|done].
      intros h. rewrite Ha, count_cons. lia.
    + intros Hno E. apply Hno2; [done|]. by rewrite Hno1, E.
Qed.

(** C28: while the connection holds, the queue drains, whatever the callbacks do
    (they may write more): from every reachable connected state, completing the
    pending write without an error as many times as there are messages in the
    queue leaves the client connected, with every write that was queued answered
    exactly once and all that had been accepted on the wire, in order; if the
    callbacks do not write, the queue is empty. *)
Theorem queue_drains n c w :
  Inv n w → Z.of_nat (n + length (slots w)) < two64 →
  state (client w) = ConnectionState.connected →
  is_error (c_ec c) = false → sane_time (now (c_env c)) →
  ∃ js, length js = length (slots w) ∧
    wp (steps (map (λ j, Act_complete j c) js)) (λ _ w',
      state (client w') = ConnectionState.connected ∧
      (∀ h, answers h w' = (answers h w + count (slot_of h) (slots w))%nat) ∧
      (∀ s, ws (client w) = Some s → ws (client w') = Some s ∧
        accepted s (trace w) `prefix_of` wire s (trace w')) ∧
      (no_writes_from_callbacks → slots w' = [] ∧ write_in_progress (client w') = false ∧
        ∀ s, ws (client w') = Some s → wire s (trace w') = accepted s (trace w'))) w.
Proof.
  intros HI Hn Hst Hec Hnow.
  destruct (wi_up _ _ (proj1 (proj1 HI)) (or_intror Hst)) as [s Hs].
  assert (Draining s (slots w) (accepted s (trace w)) (λ h, answers h w) w) as Hd.
  { split; [done|]. split; [done|]. split; [done|]. exists []. by rewrite !app_nil_r. }
  destruct (writes_complete _ c Hec Hnow n s _ _ w HI Hn Hd) as (js & Hjs & Hwp).
  exists js. split; [done|]. eapply wp_mono; [exact Hwp|]. clear Hwp.
  intros [] w' (([Hw Hwi] & _ & _) & (Hst' & Hs' & Ha & added & Hsl & Hacc) & Hno). simpl in Hsl.
  assert (Hrest := wire_rest _ Hwi s Hs' (or_intror Hst')).
  split; [done|]. split; [exact Ha|]. split.
  - intros s0 E. rewrite Hs in E. injection E as <-. split; [done|].
    rewrite Hacc in Hrest. unfold unsent in Hrest. rewrite Hsl in Hrest.
    destruct (write_in_progress (client w')).
    + destruct added as [|m added]; [|cbn [map tl] in Hrest; rewrite cons_middle, app_assoc in Hrest];
        apply app_inv_tail in Hrest || simpl in Hrest; rewrite ?app_nil_r in Hrest; rewrite <- Hrest;
        [done|by exists [payload m]].
    + apply app_inv_tail in Hrest. by rewrite Hrest.
  - intros Hq. specialize (Hno Hq eq_refl). split; [done|].
    assert (write_in_progress (client w') = false) as Hb.
    { destruct (write_in_progress (client w')) eqn:Hb; [|done]. by destruct (wi_busy _ _ Hw Hb). }
    split; [done|]. intros s0 E. rewrite Hs' in E. injection E as <-.
    rewrite Hrest. unfold unsent. by rewrite Hb, Hno, app_nil_r.
Qed.

End properties.

(** * Witnesses *)

#[export] Instance ring_capacity_2048 : RingCapacity get_write_slot_count.
Proof. by split; vm_compute. Qed.

(** The client of the program: 2048 slots of 8 KiB, and a user whose write
    handler writes again. *)
Module Program.
#[export] Instance config : WriteConfig := get_write_slot_size.
#[export] Instance queue : FifoQueue WriteSlot (FixedRingBuffer WriteSlot) :=
  ring_queue get_write_slot_count empty_slot.
#[export] Instance queue_laws : FifoQueueLaws WriteSlot (FixedRingBuffer WriteSlot) :=
  ring_queue_laws get_write_slot_count empty_slot.

Definition user_react (_ : list event) (c : callback) : list api_call :=
  match c with
  | Call_write _ _ => [Api_write [x61] None]
  | _ => []
  end.
Definition user_generate (_ : list event) (_ : handler) : list byte := [].
#[export] Instance user : User (FixedRingBuffer WriteSlot) := base_user user_react user_generate.
#[export] Instance virtual : Virtual (FixedRingBuffer WriteSlot) := base_virtual user_react user_generate.
#[export] Instance stable_user : StableUser.
Proof. apply base_stable_user. by intros t [] ; repeat constructor. Defined.
#[export] Instance stable_virtual : StableVirtual.
Proof. apply base_stable_virtual. by intros t [] ; repeat constructor. Defined.
#[export] Instance stable_tasks : StableTasks no_ext_task no_ext_wait := base_stable_tasks.

Definition env0 : environment := {|
  now := 5; running_in_this_thread := false; no_delay_ec := no_error; sni_ok := true;
  sni_error := 0; verify_ec := no_error |}.
Definition done_ (data : list byte) : completion := {| c_ec := no_error; c_data := data; c_env := env0 |}.
Definition failed (e : errc) : completion := {| c_ec := make_error_code e; c_data := []; c_env := env0 |}.

(** Connect, write twice, complete the first write. *)
Definition writing : list action := [
  Act_api (Api_ext (Api_connect "example.com" "443" "/" (Some 1%nat))) false;
  Act_task 0 env0;
  Act_complete 0 (done_ []); Act_complete 0 (done_ []); Act_complete 0 (done_ []);
  Act_complete 0 (done_ []);
  Act_api (Api_write [x68; x69] (Some 7%nat)) false;
  Act_api (Api_write [x6a] (Some 7%nat)) false;
  Act_task 0 env0; Act_task 0 env0;
  Act_complete 1 (done_ [])].

(** A connected client with a ping interval, a read timeout, and three
    messages in the queue. *)
Definition connected : list action := [
  Act_api (Api_set_ping_interval 10) false; Act_api (Api_set_read_timeout 20) false;
  Act_task 0 env0; Act_task 0 env0;
  Act_api (Api_ext (Api_connect "example.com" "443" "/" (Some 1%nat))) false;
  Act_task 0 env0;
  Act_complete 0 (done_ []); Act_complete 0 (done_ []); Act_complete 0 (done_ []);
  Act_complete 0 (done_ []);
  Act_api (Api_write_now [x68; x69]) true;
  Act_api (Api_write_now [x6a]) true; Act_api (Api_write_now [x6b]) true].

Definition world0 : World (FixedRingBuffer WriteSlot) := World_init (tt : @ext_state base_extension) env0.
Definition world (acts : list action) : World (FixedRingBuffer WriteSlot) :=
  match steps no_ext_task no_ext_wait acts world0 with Ok (_, w) => w | Fault _ => world0 end.

Lemma sane : Forall sane_action writing.
Proof. repeat constructor; simpl; try done; unfold sane_time; lia. Qed.
Lemma sane_env0 : sane_time (now env0).
Proof. unfold sane_time, env0. simpl. lia. Qed.
Lemma sane_connected : Forall sane_action connected.
Proof.
  repeat constructor; simpl; try done; unfold sane_time, sane_seconds; simpl; lia.
Qed.

Lemma program_world_inv acts :
  Z.of_nat (length acts) < two64 → Forall sane_action acts → Inv (length acts) (world acts).
Proof.
  intros Hlen Hs.
  destruct (wp_ok _ _ _ (run_from_init no_ext_task no_ext_wait acts (tt : @ext_state base_extension)
    env0 (I : @ext_ok _ base_ok tt) sane_env0 Hlen Hs)) as ([] & w & Hw & HI).
  unfold world, world0. by rewrite Hw.
Qed.

Lemma connected_Inv : Inv 13 (world connected).
Proof. exact (program_world_inv connected eq_refl sane_connected). Qed.

(** A first attempt, closed while it resolves, and a second one at once. *)
Definition two_attempts : list action := [
  Act_api (Api_ext (Api_connect "a.example" "443" "/" (Some 1%nat))) false;
  Act_task 0 env0;
  Act_api (Api_ext (Api_close None)) false;
  Act_api (Api_ext (Api_connect "b.example" "443" "/" (Some 2%nat))) false;
  Act_task 0 env0; Act_task 0 env0].

Lemma sane_two_attempts : Forall sane_action two_attempts.
Proof. repeat constructor; simpl; try done; unfold sane_time; simpl; lia. Qed.
End Program.

Section program_witnesses.
Import Program.

Lemma client_never_faults_witness :
  wp (steps no_ext_task no_ext_wait writing) (λ _ w,
    fq_valid (write_slots (client w)) ∧
    match state (client w) with
    | ConnectionState.disconnected => slots w = []
    | ConnectionState.connecting =>
        slots w = [] ∧ is_Some (ws (client w)) ∧ (1 ≤ count is_connect_op (pending w))%nat
    | ConnectionState.connected =>
        is_Some (ws (client w)) ∧ (1 ≤ count is_read_op (pending w))%nat ∧
        (write_in_progress (client w) = true ↔ slots w ≠ [])
    | ConnectionState.closing => False
    end) (World_init (tt : @ext_state base_extension) env0).
Proof.
  apply (client_never_faults no_ext_task no_ext_wait writing tt env0);
    [exact I|exact sane_env0|reflexivity|exact sane].
Defined.

Lemma writes_are_answered_once_witness :
  wp (steps no_ext_task no_ext_wait writing) (λ _ w,
    write_calls 7%nat w = (answers 7%nat w + waiting 7%nat w)%nat ∧
    (state (client w) ≠ ConnectionState.connected →
     write_calls 7%nat w = (answers 7%nat w + count (write_task_of 7%nat) (posted w))%nat)) (World_init (tt : @ext_state base_extension) env0).
Proof.
  apply (writes_are_answered_once no_ext_task no_ext_wait writing tt env0 7%nat);
    [exact I|exact sane_env0|reflexivity|exact sane].
Defined.

Lemma wire_is_fifo_witness :
  wp (steps no_ext_task no_ext_wait writing) (λ _ w,
    (∀ s, wire s (trace w) `prefix_of` accepted s (trace w)) ∧
    (∀ s, ws (client w) = Some s → state (client w) = ConnectionState.connected →
      accepted s (trace w) = wire s (trace w) ++ map payload (tl (slots w)))) (World_init (tt : @ext_state base_extension) env0).
Proof.
  apply (wire_is_fifo no_ext_task no_ext_wait writing tt env0);
    [exact I|exact sane_env0|reflexivity|exact sane].
Defined.

Lemma one_write_at_a_time_witness :
  wp (steps no_ext_task no_ext_wait writing) (λ _ w,
    (∀ s, (count (write_on s) (pending w) ≤ 1)%nat) ∧
    count (write_of (write_generation (client w))) (pending w) =
      (if bool_decide (slots w = []) then 0%nat else 1%nat) ∧
    (state (client w) = ConnectionState.connected → ∀ g s,
      Op_write g s ∈ pending w → ws (client w) = Some s → g = write_generation (client w)))
    (World_init (tt : @ext_state base_extension) env0).
Proof.
  apply (one_write_at_a_time no_ext_task no_ext_wait writing tt env0);
    [exact I|exact sane_env0|reflexivity|exact sane].
Defined.

Lemma connect_results_at_most_once_witness :
  wp (steps no_ext_task no_ext_wait writing) (λ _ w,
    (count (result_of (Nat.eqb 1)) (trace w) + count (connect_task_of (Nat.eqb 1)) (posted w) +
     count (connect_op_of (Nat.eqb 1)) (pending w) ≤
     count (connect_call_of (Nat.eqb 1)) (trace w))%nat) (World_init (tt : @ext_state base_extension) env0).
Proof.
  apply (connect_results_at_most_once no_ext_task no_ext_wait writing tt env0 (Nat.eqb 1));
    [exact I|exact sane_env0|reflexivity|exact sane].
Defined.
Lemma write_now_outcome_witness :
  wp (write_now [x78]) (λ ec w',
    ec = (if running_in_this_thread (env (world connected)) then queue_write_code [x78] (world connected)
          else make_error_code operation_not_permitted) ∧
    if is_error ec then w' = world connected
    else ∃ s, queued s WriteType.message [x78] None (world connected) w') (world connected).
Proof. apply (write_now_outcome 13 [x78] (world connected)). exact connected_Inv. Defined.

Lemma close_answers_everything_witness :
  wp (do_close (Some 3%nat)) (λ _ w',
    state (client w') = ConnectionState.disconnected ∧ slots w' = [] ∧
    write_in_progress (client w') = false ∧
    count (write_of (write_generation (client w'))) (pending w') = 0%nat ∧
    ∀ h', write_calls h' w' = (answers h' w' + count (write_task_of h') (posted w'))%nat)
    (world connected).
Proof.
  apply (close_answers_everything 13 (Some 3%nat) (world connected)); [reflexivity|exact connected_Inv].
Defined.

Lemma read_timeout_outcome_witness :
  wp (handle_read_timeout no_error) (λ _ w',
    if bool_decide (now (env (world connected)) < deadline (world connected)) then
      w' = (world connected)
        <| trace ::= λ l, l ++ [Ev_lib (L_timer_expires_at Read_timer (deadline (world connected)))] |>
        <| pending ::= λ l, l ++ [Op_wait Read_timer (Wait (Some On_read_timeout))] |>
    else state (client w') = ConnectionState.disconnected ∧ slots w' = []) (world connected).
Proof.
  apply (read_timeout_outcome 13 (world connected));
    [reflexivity|exact connected_Inv|vm_compute; reflexivity|vm_compute; reflexivity].
Defined.

Lemma ping_is_retried_when_full_witness :
  wp (handle_ping_timer no_error) (λ _ w', ∃ w1,
    (if bool_decide (Z.of_nat (length (slots (world connected))) = fq_capacity) then w1 = world connected
     else ∃ s, queued s WriteType.ping [] None (world connected) w1) ∧
    w' = w1
      <| trace ::= λ l, l ++ [Ev_lib (L_timer_expires_after Ping_timer
           (if bool_decide (Z.of_nat (length (slots (world connected))) = fq_capacity)
            then ping_retry_delay else nanoseconds (ping_interval (client (world connected)))))] |>
      <| pending ::= λ l, l ++ [Op_wait Ping_timer (Wait (Some On_ping_timer))] |>) (world connected).
Proof.
  apply (ping_is_retried_when_full 13 (world connected));
    [exact connected_Inv|vm_compute; reflexivity..].
Defined.
Lemma queue_drains_witness :
  ∃ js, length js = length (slots (world connected)) ∧
    wp (steps no_ext_task no_ext_wait (map (λ j, Act_complete j (done_ [])) js)) (λ _ w',
      state (client w') = ConnectionState.connected ∧
      (∀ h, answers h w' = (answers h (world connected) + count (slot_of h) (slots (world connected)))%nat) ∧
      (∀ s, ws (client (world connected)) = Some s → ws (client w') = Some s ∧
        accepted s (trace (world connected)) `prefix_of` wire s (trace w')) ∧
      (no_writes_from_callbacks → slots w' = [] ∧ write_in_progress (client w') = false ∧
        ∀ s, ws (client w') = Some s → wire s (trace w') = accepted s (trace w'))) (world connected).
Proof.
  apply (queue_drains no_ext_task no_ext_wait 13);
    [exact connected_Inv|vm_compute; reflexivity
    |vm_compute; reflexivity|reflexivity|exact sane_env0].
Defined.

Lemma stale_failure_ends_the_attempt_witness :
  let w := world two_attempts in
  pending w = [Op_resolve (Some 1%nat : @ConnectHandler base_extension);
               Op_resolve (Some 2%nat : @ConnectHandler base_extension)] ∧
  wp (step no_ext_task no_ext_wait (Act_complete 0 (failed operation_canceled))) (λ _ w',
    state (client w') = ConnectionState.disconnected ∧ slots w' = []) w.
Proof.
  intros w. split; [vm_compute; reflexivity|].
  apply (stale_failure_ends_the_attempt no_ext_task no_ext_wait 6 w 0 (Some 1%nat));
    [reflexivity|exact (program_world_inv two_attempts eq_refl sane_two_attempts)|vm_compute; reflexivity..
    |exact sane_env0].
Defined.

(** A connect handler can be lost: after [close] and a new [connect], the
    cancelled operation of the first attempt ends the second one, whose
    operation then completes unnoticed; nothing is posted or pending any more,
    the client is disconnected, and the second handler has not been called. *)
Theorem connect_handler_is_lost :
  let w := world (two_attempts ++ [Act_complete 0 (failed operation_canceled);
                                   Act_complete 0 (failed operation_canceled)]) in
  state (client w) = ConnectionState.disconnected ∧ posted w = [] ∧ pending w = [] ∧
  count (connect_call_of (Nat.eqb 2)) (trace w) = 1%nat ∧
  count (result_of (Nat.eqb 2)) (trace w) = 0%nat ∧
  count (result_of (Nat.eqb 1)) (trace w) = 1%nat.
Proof. vm_compute. auto 10. Qed.
End program_witnesses.
