(* ===== verification/WebSocketAttempts.v ===== *)
(** Attempts to connect that the WebSocket client does not tell apart.

    A completion of the connect phase carries neither a generation nor the
    stream it ran on, so one of a closed attempt is taken for one of the attempt
    in progress: [stale_handshake_connects_any_stream] shows what a late success
    does (a late failure is [stale_failure_ends_the_attempt]).
    [sent_without_tls] is a run in which a message goes out on a stream on which
    no TLS handshake was ever started.  [handshakes_before_data] shows that this
    is the only way: in a run in which no attempt is started while an operation
    of an earlier one is pending, nothing is read or written on a stream but
    after its whole handshake. *)

From S2P Require Import Prelude RingBuffer Timer SecureWebSocketClient WriteQueue.
From S2P Require Import WebSocketSafety WebSocketProperties.

(** * A late success *)

Section late.
Context `{Extension} {Q : Type} `{!FifoQueue WriteSlot Q} `{!FifoQueueLaws WriteSlot Q}
  `{WriteConfig} `{!ExtensionInvariant} `{!User Q} `{!Virtual Q}.
Context (run_ext_task : ext_task → M (World Q) unit).
Context (run_ext_wait : ext_wait → error_code → M (World Q) unit).
Context `{!StableUser} `{!StableVirtual} `{!StableTasks run_ext_task run_ext_wait}.
Notation W := (World Q).

#[local] Instance closed_ws P : Closed (λ w : W, P (ws (client w))).
Proof.
  split.
  - intros w w' [(? & ? & ? & ->) _ _ _ _ _ _]. done.
  - intros s m w w' [_ _ (q & ->) _ _ _ _ _ _ _ _ _]. done.
Qed.

#[export] Instance closed_extends l : Closed (λ w : W, l `prefix_of` trace w).
Proof.
  split.
  - intros w w' [_ _ _ _ _ (ts & _ & _ & es & -> & _) _]. apply prefix_app_r.
  - intros s m w w' [_ _ _ _ _ _ _ _ _ _ _ (es & -> & _)]. apply prefix_app_r.
Qed.

(** The stream in use is [s], and the client is connected. *)
Definition On (s : nat) (w : W) : Prop :=
  state (client w) = ConnectionState.connected ∧ ws (client w) = Some s.

#[local] Instance closed_on s : Closed (On s).
Proof. apply closed_and; [apply (closed_state (λ st, st = _))|apply (closed_ws (λ o, o = _))]. Qed.

(** A connected client that starts to read has a read pending on its stream. *)
Lemma start_read_on n P s w : Closed P → (∀ op w, P w → P (w <| pending ::= λ l, l ++ [op] |>)) →
  Queue n w → P w → On s w →
  wp start_read (λ _ w', Queue n w' ∧ (P w' ∧ On s w') ∧ ∃ op, op ∈ pending w' ∧ op = Op_read s) w.
Proof.
  intros HP Hadd Hq Hp [Hst Hs]. unfold start_read, getc. apply wp_bind, wp_gets, wp_bind, is_connected_wp.
  rewrite Hs, Hst. simpl. apply wp_bind, shared_wp; [apply Hq|].
  apply wp_bind. unfold deref_ws, getc. apply wp_bind, wp_gets, wp_require. exists s. split; [done|].
  apply wp_bind. eapply wp_mono; [by apply (lib_wp n (λ w, P w ∧ On s w)); try apply _|].
  intros [] w1 (Hq1 & Hp1 & [Hst1 Hs1]). unfold start_operation. apply wp_modify.
  split; [by apply queue_add_op|]. split; [by split; [apply Hadd|]|].
  exists (Op_read s). split; [|done]. simpl. apply elem_of_app. right. by apply list_elem_of_singleton.
Qed.

(** The success of the websocket handshake makes a connecting client connected
    on its stream; it tells the handler of the operation, and starts to read. *)
Lemma websocket_handshake_succeeds n l s ec w :
  Taken n (Some l) w → state (client w) = ConnectionState.connecting → ws (client w) = Some s →
  is_error ec = false →
  wp (handle_websocket_handshake (Some l) ec) (λ _ w', On s w' ∧ Op_read s ∈ pending w' ∧
    (trace w ++ [Ev_connect_result l no_error]) `prefix_of` trace w') w.
Proof.
  intros [] Hst Hs Hec. unfold handle_websocket_handshake, not_connecting, is_connecting, getc.
  apply wp_bind, wp_bind, wp_bind, wp_gets, wp_ret, wp_bind, wp_gets, wp_ret. simpl.
  rewrite Hst, Hs. simpl. rewrite Hec. unfold set_state, modc at 1. apply wp_bind, wp_modify.
  destruct (queue_connected n (Some l) w tk_queue) as (Hq1 & Ha1 & Hc1).
  { split; [by split|done]. }
  set (w1 := w <| client ::= _ |>) in *. set (t := trace w ++ [Ev_connect_result l no_error]).
  set (P := λ w : W, On s w ∧ t `prefix_of` trace w).
  assert (Closed P) as HP by (apply closed_and; apply _).
  unfold connect_result. apply wp_bind, wp_bind, wp_log.
  eapply wp_mono; [apply (stable_connect l no_error n P); [done|by eapply acc_log_result|by split]|].
  intros [] w2 (Hq2 & Hon2 & He2). unfold gete. apply wp_bind, wp_gets, wp_bind, wp_modify.
  assert (Hs2 := queue_touch n w2 Hq2). set (w3 := w2 <| client ::= _ |>) in *.
  apply wp_bind. eapply wp_mono; [apply (start_read_timer_wp n P); [done|by eapply queue_same|done]|].
  intros [] w4 (Hq4 & Hon4 & He4). apply wp_bind.
  eapply wp_mono; [apply (start_read_on n (λ w, t `prefix_of` trace w) s); try done; apply _|].
  intros [] w5 (Hq5 & (He5 & Hon5) & Hop5).
  eapply wp_mono; [apply (start_ping_timer_wp n (λ w, P w ∧ ∃ op, op ∈ pending w ∧ op = Op_read s)); try done|].
  { apply closed_and; apply _. }
  intros [] w6 (_ & [? ?] & op & ? & ->). done.
Qed.

(** C39: while a connection is being made, the success of the websocket
    handshake of any attempt, whatever stream it ran on, makes the client
    connected on the stream of the attempt in progress, on which it starts to
    read; the handler of the attempt that was closed is told of the success. *)
Theorem stale_handshake_connects_any_stream n w i l s s' c :
  Z.of_nat n < two64 - 1 → Inv n w → state (client w) = ConnectionState.connecting →
  ws (client w) = Some s → pending w !! i = Some (Op_websocket_handshake (Some l) s') →
  is_error (c_ec c) = false → sane_time (now (c_env c)) →
  wp (step run_ext_task run_ext_wait (Act_complete i c)) (λ _ w',
    state (client w') = ConnectionState.connected ∧ ws (client w') = Some s ∧
    Op_read s ∈ pending w' ∧ Ev_connect_result l no_error ∈ trace w') w.
Proof.
  intros Hn HI Hst Hs Hi Hec Hnow. eapply complete_wp; [done..|]. intros w1 Ht.
  eapply wp_mono; [by apply (websocket_handshake_succeeds n l s)|]. intros [] w' ([? ?] & ? & Ht').
  do 3 (split; [done|]). eapply elem_of_prefix; [|exact Ht'].
  apply elem_of_app. right. by apply list_elem_of_singleton.
Qed.
End late.

(** A first attempt, closed while its websocket handshake is pending, and a
    second one at once, which is still resolving. *)
Module Late.
Import Program.

Definition late_attempts : list (@action base_extension) := [
  Act_api (Api_ext (Api_connect "a.example" "443" "/" (Some 1%nat))) false;
  Act_task 0 env0;
  Act_complete 0 (done_ []); Act_complete 0 (done_ []); Act_complete 0 (done_ []);
  Act_api (Api_ext (Api_close None)) false;
  Act_api (Api_ext (Api_connect "b.example" "443" "/" (Some 2%nat))) false;
  Act_task 0 env0; Act_task 0 env0].

(** The late success of the first one, and a write. *)
Definition late_success : list (@action base_extension) :=
  late_attempts ++ [Act_complete 0 (done_ []); Act_api (Api_write_now [x68; x69]) true].

Lemma sane_late_attempts : Forall sane_action late_attempts.
Proof. repeat constructor; simpl; try done; unfold sane_time; lia. Qed.

(** The message of the second connection is sent although no TLS handshake was
    started on its stream, nor even a connection. *)
Theorem sent_without_tls :
  let w := world late_success in
  state (client w) = ConnectionState.connected ∧ ws (client w) = Some 1%nat ∧
  Ev_lib (L_async_write 1 [x68; x69]) ∈ trace w ∧
  Forall (λ e, e ≠ Ev_lib (L_async_connect 1) ∧ e ≠ Ev_lib (L_async_ssl_handshake 1)) (trace w).
Proof.
  intros w. split; [vm_compute; reflexivity|]. split; [vm_compute; reflexivity|].
  split.
  - apply list_elem_of_lookup. exists (length (trace w) - 2)%nat. vm_compute. reflexivity.
  - vm_compute. repeat constructor; discriminate.
Qed.

Lemma stale_handshake_connects_any_stream_witness :
  let w := world late_attempts in
  pending w = [Op_websocket_handshake (Some 1%nat : @ConnectHandler base_extension) 0;
               Op_resolve (Some 2%nat : @ConnectHandler base_extension)] ∧
  wp (step no_ext_task no_ext_wait (Act_complete 0 (done_ []))) (λ _ w',
    state (client w') = ConnectionState.connected ∧ ws (client w') = Some 1%nat ∧
    Op_read 1 ∈ pending w' ∧
    Ev_connect_result (1%nat : @connect_lambda base_extension) no_error ∈ trace w') w.
Proof.
  intros w. split; [vm_compute; reflexivity|].
  apply (stale_handshake_connects_any_stream no_ext_task no_ext_wait 9 w 0 (1%nat : @connect_lambda base_extension) 1 0);
    [reflexivity|exact (program_world_inv late_attempts eq_refl sane_late_attempts)|vm_compute; reflexivity..
    |exact sane_env0].
Defined.

(** A second call of [connect] while the first attempt resolves: it will be
    refused, but it has changed the host. *)
Definition second_connect : list (@action base_extension) := [
  Act_api (Api_ext (Api_connect "a.example" "443" "/" (Some 1%nat))) false;
  Act_task 0 env0;
  Act_api (Api_ext (Api_connect "b.example" "443" "/" (Some 2%nat))) false;
  Act_task 0 env0;
  Act_complete 0 (done_ []); Act_complete 0 (done_ [])].

(** The address that was resolved for one name is verified for the other. *)
Theorem refused_connect_changes_the_verified_name :
  let w := world second_connect in
  state (client w) = ConnectionState.connecting ∧
  count (result_of (Nat.eqb 2)) (trace w) = 1%nat ∧
  omap (λ e, match e with
    | Ev_lib (L_async_resolve h _) | Ev_lib (L_set_verify _ h) => Some h
    | _ => None end) (trace w) = ["a.example"; "b.example"].
Proof. vm_compute. auto. Qed.
End Late.
