(* ===== verification/WebSocketConnect.v ===== *)
(** How an attempt to connect ends, when its operations complete one after the
    other.

    [stages] is the sequence of the operations of an attempt, [stage_failure] the
    error that ends it at a stage, the operation's own or one of the options that
    [handle_connect] sets, and [connect_script] what an attempt that succeeds asks
    of its stream.  [attempt_ends_as_its_stages_do] runs the attempt from
    [do_connect] to its last handler. *)

From S2P Require Import Prelude RingBuffer Timer SecureWebSocketClient WriteQueue.
From S2P Require Import WebSocketSafety WebSocketProperties WebSocketAttempts.

(** * The stages of an attempt *)

Section stages.
Context `{Extension}.

Definition stages (h : ConnectHandler) (s : nat) : list operation :=
  [Op_resolve h; Op_connect h s; Op_ssl_handshake h s; Op_websocket_handshake h s].

Definition failed_with (ec : error_code) : option error_code :=
  if is_error ec then Some ec else None.

Definition or_else (o o' : option error_code) : option error_code :=
  match o with Some _ => o | None => o' end.

(** The first error of the stage.  OpenSSL's refusal of a host name is one
    whatever the value of its error. *)
Definition stage_failure (op : operation) (c : completion) : option error_code :=
  or_else (failed_with (c_ec c))
  match op with
  | Op_connect _ _ =>
      or_else (failed_with (no_delay_ec (c_env c)))
        (or_else (if sni_ok (c_env c) then None else Some (ErrorCode (sni_error (c_env c)) ssl_category))
          (failed_with (verify_ec (c_env c))))
  | _ => None
  end.

(** The completions up to the first failure, and that failure. *)
Fixpoint until_failure (ops : list operation) (cs : list completion) : list completion :=
  match ops, cs with
  | op :: ops, c :: cs => c :: if stage_failure op c then [] else until_failure ops cs
  | _, _ => []
  end.
Fixpoint attempt_failure (ops : list operation) (cs : list completion) : option error_code :=
  match ops, cs with
  | op :: ops, c :: cs => or_else (stage_failure op c) (attempt_failure ops cs)
  | _, _ => None
  end.

(** What the handler of a successful operation asks for. *)
Definition stage_script (op : operation) (s : nat) (host resource : string) : list event :=
  match op with
  | Op_resolve _ => [Ev_lib (L_expires_after s connect_timeout); Ev_lib (L_async_connect s)]
  | Op_connect _ _ => [
      Ev_lib (L_set_no_delay s); Ev_lib (L_expires_after s connect_timeout);
      Ev_lib (L_set_sni s host); Ev_lib (L_set_verify s host); Ev_lib (L_async_ssl_handshake s)]
  | Op_ssl_handshake _ _ => [
      Ev_lib (L_expires_never s); Ev_lib (L_set_suggested_timeouts s);
      Ev_lib (L_async_websocket_handshake s host resource)]
  | _ => []
  end.

Definition scripts (ops : list operation) (s : nat) (host resource : string) : list event :=
  op ← ops; stage_script op s host resource.

Definition connect_script (h : ConnectHandler) (s : nat) (host port resource : string) : list event :=
  [Ev_lib (L_read_message_max s get_read_buffer_size); Ev_lib (L_async_resolve host port)] ++
  scripts (stages h s) s host resource.

Definition next_stage (op : operation) (s : nat) : option operation :=
  match op with
  | Op_resolve h => Some (Op_connect h s)
  | Op_connect h _ => Some (Op_ssl_handshake h s)
  | Op_ssl_handshake h _ => Some (Op_websocket_handshake h s)
  | _ => None
  end.

(** What is known of a stage, by its place. *)
Lemma stages_split done op rest h s host resource : done ++ op :: rest = stages h s →
  is_connect_op op = true ∧ op_handler op = h ∧
  match rest with [] => op = Op_websocket_handshake h s | op' :: _ => next_stage op s = Some op' end ∧
  scripts (stages h s) s host resource =
    scripts done s host resource ++ stage_script op s host resource ++ scripts rest s host resource.
Proof.
  intros E. split; [|split; [|split]].
  1-3: unfold stages in E; destruct done as [|? [|? [|? [|? []]]]]; simplify_eq/=; done.
  rewrite <- E. unfold scripts. by rewrite bind_app.
Qed.

(** Whether an attempt fails, and with what, does not depend on its stream. *)
Lemma attempt_failure_any h s h' s' cs :
  attempt_failure (stages h s) cs = attempt_failure (stages h' s') cs.
Proof. by destruct cs as [|? [|? [|? []]]]. Qed.
End stages.

(** * One stage *)

(** Step through a computation, at a state of which equations are known. *)
Ltac walk :=
  repeat (match goal with
  | |- wlp (bind _ _) _ _ => apply wlp_bind
  | |- wlp (gets _) _ _ => apply wlp_gets
  | |- wlp (modify _) _ _ => apply wlp_modify
  | |- wlp (ret _) _ _ => apply wlp_ret
  | |- wlp (require _ (Some ?a)) ?P ?w => change (P a w)
  | E : ?x = _ |- wlp ?m _ _ => match m with context [x] => rewrite E end
  end; simpl).

Section attempt.
Context `{Extension} {Q : Type} `{!FifoQueue WriteSlot Q} `{!FifoQueueLaws WriteSlot Q}
  `{WriteConfig} `{!ExtensionInvariant} `{!User Q} `{!Virtual Q}.
Context (run_ext_task : ext_task → M (World Q) unit).
Context (run_ext_wait : ext_wait → error_code → M (World Q) unit).
Context `{!StableUser} `{!StableVirtual} `{!StableTasks run_ext_task run_ext_wait}.
Notation W := (World Q).
Notation step := (step run_ext_task run_ext_wait).

(** An attempt on the stream [s] goes on: the operations [ops] are pending, the
    trace is [t], and [x] is the state of the derived class. *)
Record Attempt (x : ext_state) (s : nat) (host0 resource0 : string) (ops : list operation)
    (t : list event) (w : W) : Prop := {
  at_state : state (client w) = ConnectionState.connecting;
  at_ws : ws (client w) = Some s;
  at_host : host (client w) = host0;
  at_resource : resource (client w) = resource0;
  at_pending : pending w = ops;
  at_trace : trace w = t;
  at_ext : ext w = x;
  at_alive : expired w = false;
}.

(** The start of an attempt. *)
Lemma do_connect_starts h w :
  state (client w) = ConnectionState.disconnected → expired w = false →
  wlp (do_connect h) (λ _,
    Attempt (ext w) (next_stream w) (host (client w)) (resource (client w)) (pending w ++ [Op_resolve h])
      (trace w ++ [Ev_lib (L_read_message_max (next_stream w) get_read_buffer_size);
                   Ev_lib (L_async_resolve (host (client w)) (port (client w)))])) w.
Proof.
  intros Hst He.
  unfold do_connect, create_stream, set_state, modc, shared_from_this, getc, start_operation, lib, log.
  walk. split; simpl; rewrite <- ?app_assoc; auto.
Qed.

(** A completion of an attempt finds it as it was. *)
Lemma attempt_taken x s host0 resource0 ops op t e w :
  Attempt x s host0 resource0 (ops ++ [op]) t w →
  Attempt x s host0 resource0 ops t (w <| env := e |> <| pending ::= delete (length ops) |>).
Proof. intros []. split; simpl; try done. by rewrite at_pending0, delete_middle, app_nil_r. Qed.

Lemma attempt_pending x s host0 resource0 ops op t w :
  Attempt x s host0 resource0 (ops ++ [op]) t w → pending w !! length ops = Some op.
Proof. intros []. rewrite at_pending0. by apply list_lookup_middle. Qed.

(** The guards of a handler of the phase. *)
Lemma handler_wp n l ec (k : M W unit) Post w :
  Taken n (Some l) w → state (client w) = ConnectionState.connecting →
  (Connecting (Some l) w → wp (if is_error ec then fail_connection ec (Some l) else k) Post w) →
  wp (let! skip := not_connecting in
      if (skip : bool) then ret tt else if is_error ec then fail_connection ec (Some l) else k) Post w.
Proof.
  intros [] Hst Hk. unfold not_connecting, is_connecting, getc.
  apply wp_bind, wp_bind, wp_bind, wp_gets, wp_ret, wp_bind, wp_gets, wp_ret.
  destruct (wi_up _ _ (proj1 tk_queue) (or_introl Hst)) as [s Hs]. rewrite Hst, Hs. simpl.
  by apply Hk.
Qed.

Lemma handle_connect_fails n w c s s0 host0 resource0 l ec Post :
  Taken n (Some l) w → state (client w) = ConnectionState.connecting → ws (client w) = Some s →
  host (client w) = host0 → env w = (c_env c) <| running_in_this_thread := true |> →
  stage_failure (Op_connect (Some l) s0) c = Some ec →
  (∀ es k w', Queue n w' → Connecting (Some l) w' → ext w' = ext w → trace w' = trace w ++ es →
    es ++ k = stage_script (Op_connect (Some l) s0) s host0 resource0 → wp (fail_connection ec (Some l)) Post w') →
  wp (handle_connect (Some l) (c_ec c)) Post w.
Proof.
  intros Ht Hst Hs Hh Henv Hf Hgo. assert (Hq := tk_queue _ _ _ Ht).
  unfold stage_failure, failed_with in Hf. eapply handler_wp; [exact Ht|done|]. intros Hc.
  destruct (is_error (c_ec c)); simpl in Hf.
  { injection Hf as <-. eapply (Hgo []); [done|done|done|by rewrite app_nil_r|done]. }
  apply wp_bind. eapply deref_ws_wp; [exact Hq|exact Hc|]. intros s' Hs'.
  assert (s' = s) as -> by congruence. unfold gete, getc. apply wp_bind, wp_gets. rewrite Henv. simpl.
  eapply lib_then_wp; [done..|]. intros w2 Hq2 Hc2 E2.
  destruct (is_error (no_delay_ec (c_env c))).
  { injection Hf as <-. by eapply (Hgo [Ev_lib (L_set_no_delay s)]); [..|subst w2|subst w2|]. }
  eapply lib_then_wp; [done..|]. intros w3 Hq3 Hc3 E3. do 3 apply wp_bind, wp_gets.
  eapply lib_then_wp; [done..|]. intros w4 Hq4 Hc4 E4.
  assert (env w4 = (c_env c) <| running_in_this_thread := true |>) as Henv4 by by subst.
  assert (sni_ok (env w3) = sni_ok (c_env c) ∧ sni_error (env w3) = sni_error (c_env c) ∧
    SecureWebSocketClient.host (client w3) = host0) as (-> & -> & Eh)
    by (subst w3 w2; simpl; by rewrite Henv).
  rewrite Eh in E4. destruct (sni_ok (c_env c)); simpl in Hf |- *.
  2: { injection Hf as <-. eapply (Hgo [Ev_lib (L_set_no_delay s); Ev_lib (L_expires_after s connect_timeout);
        Ev_lib (L_set_sni s host0)]);
      [done|done|by subst w4 w3 w2|subst w4 w3 w2; simpl; by rewrite <- !app_assoc|done]. }
  apply wp_bind, wp_gets. eapply lib_then_wp; [done..|]. intros w5 Hq5 Hc5 E5. rewrite Henv4. simpl. rewrite Eh in E5.
  destruct (is_error (verify_ec (c_env c))); [|done]. injection Hf as <-.
  eapply (Hgo [Ev_lib (L_set_no_delay s); Ev_lib (L_expires_after s connect_timeout); Ev_lib (L_set_sni s host0);
                Ev_lib (L_set_verify s host0)]);
    [done|done|by subst w5 w4 w3 w2|subst w5 w4 w3 w2; simpl; by rewrite <- !app_assoc|done].
Qed.

(** A stage that fails, having asked for a part of its script. *)
Lemma stage_fails n w x s host0 resource0 ops op l t c ec Post :
  Inv n w → Attempt x s host0 resource0 (ops ++ [op]) t w →
  is_connect_op op = true → op_handler op = Some l →
  sane_time (now (c_env c)) → stage_failure op c = Some ec →
  (∀ es w', Queue n w' → Connecting (Some l) w' → ext w' = x → trace w' = t ++ es →
    es `prefix_of` stage_script op s host0 resource0 → wp (fail_connection ec (Some l)) Post w') →
  wp (step (Act_complete (length ops) c)) Post w.
Proof.
  intros HI Hat Hop Hl Hnow Hf Hk.
  eapply complete_wp; [done|by eapply attempt_pending|done..|]. rewrite Hl. intros w1 Ht.
  assert (Attempt x s host0 resource0 ops t w1) as Hat1 by by apply (attempt_taken _ _ _ _ _ op).
  assert (env w1 = (c_env c) <| running_in_this_thread := true |>) as Henv by done.
  clearbody w1. clear Hat HI. destruct Hat1.
  assert (∀ es k w', Queue n w' → Connecting (Some l) w' → ext w' = ext w1 →
    trace w' = trace w1 ++ es → es ++ k = stage_script op s host0 resource0 →
    wp (fail_connection ec (Some l)) Post w') as Hgo.
  { intros es k w' Hq' Hc' Ex Et E. apply (Hk es); try done; [congruence..|by exists k]. }
  destruct op as [h|h s0|h s0|h s0| | |]; try done; simpl in Hl; subst h; simpl;
    [|by eapply (handle_connect_fails n w1 c s)|..];
    unfold stage_failure, failed_with in Hf;
    (eapply handler_wp; [exact Ht|done|]; intros Hc);
    destruct (is_error (c_ec c)); simpl in Hf; try done;
    injection Hf as <-; eapply (Hgo []); [apply Ht|done|done|by rewrite app_nil_r|done
      |apply Ht|done|done|by rewrite app_nil_r|done|apply Ht|done|done|by rewrite app_nil_r|done].
Qed.

(** A stage that succeeds, and is not the last. *)
Lemma stage_succeeds op op' c x s host0 resource0 ops t w :
  Attempt x s host0 resource0 ops t w → env w = (c_env c) <| running_in_this_thread := true |> →
  next_stage op s = Some op' → stage_failure op c = None →
  wlp (complete_operation run_ext_wait op c)
    (λ _, Attempt x s host0 resource0 (ops ++ [op']) (t ++ stage_script op s host0 resource0)) w.
Proof.
  intros [Hst Hs Hh Hr Hp Ht Hx He] Henv Hnext Hf. unfold stage_failure, failed_with in Hf.
  destruct (is_error (c_ec c)) eqn:Hec; [done|]. simpl in Hf.
  destruct op as [h|h s0|h s0|h s0| | |]; try done; injection Hnext as <-; simpl;
    unfold handle_resolve, handle_connect, handle_ssl_handshake, not_connecting, is_connecting,
      shared_from_this, deref_ws, getc, gete, start_operation, lib, log; rewrite Hec;
    walk; subst.
  - split; simpl; rewrite <- ?app_assoc; auto.
  - destruct (is_error (no_delay_ec _)); [done|].
    walk.
    simpl in Hf. destruct (sni_ok _); [|done]. simpl in Hf |- *.
    walk.
    destruct (is_error (verify_ec _)); [done|].
    walk.
    split; simpl; rewrite <- ?app_assoc; auto.
  - split; simpl; rewrite <- ?app_assoc; auto.
Qed.

Lemma stage_goes_on n w x s host resource ops op op' t c :
  Z.of_nat n < two64 - 1 → Inv n w → Attempt x s host resource (ops ++ [op]) t w →
  next_stage op s = Some op' → sane_time (now (c_env c)) → stage_failure op c = None →
  wp (step (Act_complete (length ops) c)) (λ _ w', Inv (S n) w' ∧
    Attempt x s host resource (ops ++ [op']) (t ++ stage_script op s host resource) w') w.
Proof.
  intros Hn HI Hat Hnext Hnow Hf. apply wp_wlp; [by apply step_inv|].
  simpl. unfold set_env. apply wlp_bind, wlp_modify, wlp_bind, wlp_gets. simpl.
  rewrite (attempt_pending _ _ _ _ _ _ _ _ Hat). apply wlp_bind, wlp_modify.
  apply (stage_succeeds op); [|done..]. by apply (attempt_taken _ _ _ _ _ op).
Qed.

Lemma steps_cons a (acts : list action) Post w :
  wp (step a) (λ _, wp (steps run_ext_task run_ext_wait acts) Post) w →
  wp (steps run_ext_task run_ext_wait (a :: acts)) Post w.
Proof. intros Hs. by apply wp_bind. Qed.
End attempt.

(** * A whole attempt *)

Section whole_attempt.
Context `{Extension} {Q : Type} `{!FifoQueue WriteSlot Q} `{!FifoQueueLaws WriteSlot Q}
  `{WriteConfig} `{!ExtensionInvariant} `{!User Q} `{!Virtual Q}.
Context (run_ext_task : ext_task → M (World Q) unit).
Context (run_ext_wait : ext_wait → error_code → M (World Q) unit).
Context `{!StableUser} `{!StableVirtual} `{!StableTasks run_ext_task run_ext_wait}.
Notation W := (World Q).
Notation steps := (steps run_ext_task run_ext_wait).

(** The attempt of the handler [l] on [s], from the trace [t0] on; [Post] is what
    its end establishes: [Hfail] for a failure at some stage, [Hdone] for the
    handler of the last operation. *)
Context (x : ext_state) (l : connect_lambda) (s : nat) (host0 resource0 : string).
Context (ops : list operation) (t0 : list event) (Post : option error_code → W → Prop).
Notation script := (scripts (stages (Some l) s) s host0 resource0).
Context (Hfail : ∀ n ec es w, Z.of_nat n < two64 - 1 → Queue n w → Connecting (Some l) w →
  ext w = x → trace w = t0 ++ es → es `prefix_of` script →
  wp (fail_connection ec (Some l)) (λ _, Post (Some ec)) w).
Context (Hdone : ∀ n ec w, Z.of_nat n < two64 - 1 → Taken n (Some l) w →
  Attempt x s host0 resource0 ops (t0 ++ script) w → is_error ec = false →
  wp (handle_websocket_handshake (Some l) ec) (λ _, Post None) w).

Lemma attempt_runs_from rest : ∀ past op n cs w,
  past ++ op :: rest = stages (Some l) s → length cs = S (length rest) →
  Z.of_nat (n + length rest) < two64 - 1 → Inv n w →
  Attempt x s host0 resource0 (ops ++ [op]) (t0 ++ scripts past s host0 resource0) w →
  Forall (λ c, sane_time (now (c_env c))) cs →
  wp (steps (Act_complete (length ops) <$> until_failure (op :: rest) cs))
    (λ _, Post (attempt_failure (op :: rest) cs)) w.
Proof.
  induction rest as [|op' rest IH]; intros past op n [|c cs] w Hst Hlen Hn HI Hat Hcs; [done| |done|];
    apply Forall_cons in Hcs as [Hnow Hcs]; simpl in Hlen, Hn;
    destruct (stages_split _ _ _ _ _ host0 resource0 Hst) as (Hop & Hl & Hnext & Hs);
    cbn [until_failure attempt_failure]; destruct (stage_failure op c) as [ec|] eqn:Hf;
    apply steps_cons; cbn [or_else].
  1, 3: apply (wp_mono _ (λ _, Post (Some ec))); [eapply stage_fails; [done..|]|by intros []]; intros es w' Hq' Hc' Hx' Ht' Hes;
    eapply (Hfail n _ (scripts past s host0 resource0 ++ es)); [lia|done..|by rewrite Ht', <- app_assoc|];
    rewrite Hs; apply prefix_app; by apply prefix_app_r.
  - destruct cs; [|done]. subst op.
    eapply complete_wp; [done|by eapply attempt_pending|done..|]. intros w1 Ht.
    apply (wp_mono _ (λ _, Post None)); [eapply (Hdone n); [lia|done|..]|by intros []].
    + replace script with (scripts past s host0 resource0) by (by rewrite Hs, app_nil_r).
      by apply (attempt_taken _ _ _ _ _ (Op_websocket_handshake (Some l) s)).
    + unfold stage_failure, failed_with in Hf. by destruct (is_error (c_ec c)).
  - eapply wp_mono; [eapply (stage_goes_on _ _ n); [lia|done..]|]. intros [] w' [HI' Hat'].
    apply (IH (past ++ [op]) op' (S n)); [by rewrite <- app_assoc|lia..|done| |done].
    unfold scripts. rewrite bind_app. simpl. by rewrite app_nil_r, app_assoc.
Qed.

Lemma attempt_runs n cs w :
  Z.of_nat (n + 3) < two64 - 1 → Inv n w →
  Attempt x s host0 resource0 (ops ++ [Op_resolve (Some l)]) t0 w →
  length cs = 4%nat → Forall (λ c, sane_time (now (c_env c))) cs →
  wp (steps (Act_complete (length ops) <$> until_failure (stages (Some l) s) cs))
    (λ _, Post (attempt_failure (stages (Some l) s) cs)) w.
Proof.
  intros Hn HI Hat Hlen Hcs. apply (attempt_runs_from _ [] _ n); try done. by rewrite app_nil_r.
Qed.
End whole_attempt.

(** * Property *)

Section properties.
Context `{Extension} {Q : Type} `{!FifoQueue WriteSlot Q} `{!FifoQueueLaws WriteSlot Q}
  `{WriteConfig} `{!ExtensionInvariant} `{!User Q} `{!Virtual Q}.
Context (run_ext_task : ext_task → M (World Q) unit).
Context (run_ext_wait : ext_wait → error_code → M (World Q) unit).
Context `{!StableUser} `{!StableVirtual} `{!StableTasks run_ext_task run_ext_wait}.

(** What a failed attempt leaves. *)
Lemma fail_connection_refused n l ec (w : World Q) :
  Z.of_nat n < two64 - 1 → Queue n w → Connecting (Some l) w →
  wp (fail_connection ec (Some l)) (λ _ w', state (client w') = ConnectionState.disconnected ∧
    slots w' = [] ∧ Ev_connect_result l ec ∈ trace w') w.
Proof.
  intros Hn Hq [[Ha Hqu] Hst]. unfold fail_connection. apply wp_bind.
  eapply wp_mono; [apply (do_close_wp n (Some l)); try done; congruence|].
  intros [] w1 (Hq1 & Ha1 & Hf1). unfold connect_result. apply wp_bind, wp_log.
  set (P := λ w' : World Q, Frozen ConnectionState.disconnected [] w' ∧
    (trace w1 ++ [Ev_connect_result l ec]) `prefix_of` trace w').
  eapply wp_mono; [apply (stable_connect l ec (S n) P)|].
  - apply closed_and; [by apply closed_frozen|apply _].
  - by eapply acc_log_result.
  - split; [exact Hf1|done].
  - intros [] w2 (_ & (? & _ & ?) & Ht). split; [done|]. split; [done|].
    eapply elem_of_prefix; [|exact Ht]. apply elem_of_app. right. by apply list_elem_of_singleton.
Qed.

Lemma attempt_starts n (w : World Q) i h e :
  Z.of_nat n < two64 - 1 → Inv n w → state (client w) = ConnectionState.disconnected →
  posted w !! i = Some (Task_connect h) → sane_time (now e) →
  wp (step run_ext_task run_ext_wait (Act_task i e)) (λ _ w', Inv (S n) w' ∧
    Attempt (ext w) (next_stream w) (host (client w)) (resource (client w)) (pending w ++ [Op_resolve h])
      (trace w ++ [Ev_lib (L_read_message_max (next_stream w) get_read_buffer_size);
                   Ev_lib (L_async_resolve (host (client w)) (port (client w)))]) w') w.
Proof.
  intros Hn HI Hst Hi Hnow. apply wp_wlp; [by apply step_inv|].
  simpl. unfold set_env. apply wlp_bind, wlp_modify, wlp_bind, wlp_gets. simpl.
  rewrite Hi. apply wlp_bind, wlp_modify.
  match goal with |- wlp _ _ ?w1 => exact (do_connect_starts h w1 Hst (queue_alive _ _ (proj1 HI))) end.
Qed.

(** C10: an attempt to connect, run from [do_connect] on a disconnected client,
    whatever the results of its operations and options: it stops at the first
    failure, with the client disconnected and its handler told of that error;
    without a failure, the client is connected on a new stream, of which the
    code has asked exactly [connect_script], in that order, its handler is told
    of the success, and a read is pending. *)
Theorem attempt_ends_as_its_stages_do n (w : World Q) i l e cs :
  let h := Some l in let s := next_stream w in
  Z.of_nat n + 4 < two64 - 1 → Inv n w → state (client w) = ConnectionState.disconnected →
  posted w !! i = Some (Task_connect h) → sane_time (now e) →
  length cs = 4%nat → Forall (λ c, sane_time (now (c_env c))) cs →
  wp (steps run_ext_task run_ext_wait
       (Act_task i e :: (Act_complete (length (pending w)) <$> until_failure (stages h s) cs)))
    (λ _ w', match attempt_failure (stages h s) cs with
      | Some ec => state (client w') = ConnectionState.disconnected ∧ slots w' = [] ∧
          Ev_connect_result l ec ∈ trace w'
      | None => state (client w') = ConnectionState.connected ∧ ws (client w') = Some s ∧
          Op_read s ∈ pending w' ∧
          (trace w ++ connect_script h s (host (client w)) (port (client w)) (resource (client w)) ++
            [Ev_connect_result l no_error]) `prefix_of` trace w'
      end) w.
Proof.
  intros h s Hn HI Hst Hi Hnow Hlen Hcs. apply steps_cons.
  eapply wp_mono; [apply (attempt_starts n w i h e); try done; lia|]. intros [] w0 [HI0 Hat0].
  set (Post := λ (o : option error_code) (w' : World Q), match o with
    | Some ec => state (client w') = ConnectionState.disconnected ∧ slots w' = [] ∧
        Ev_connect_result l ec ∈ trace w'
    | None => state (client w') = ConnectionState.connected ∧ ws (client w') = Some s ∧
        Op_read s ∈ pending w' ∧
        (trace w ++ connect_script h s (host (client w)) (port (client w)) (resource (client w)) ++
          [Ev_connect_result l no_error]) `prefix_of` trace w'
    end).
  apply (attempt_runs run_ext_task run_ext_wait (ext w) l s (host (client w)) (resource (client w)) (pending w)
    (trace w ++ [Ev_lib (L_read_message_max s get_read_buffer_size);
                 Ev_lib (L_async_resolve (host (client w)) (port (client w)))]) Post) with (n := S n);
    [..|lia|exact HI0|exact Hat0|done|done].
  - intros n' ec es w1 Hn' Hq' Hc' _ _ _. by apply (fail_connection_refused n').
  - intros n' ec w1 Hn' Ht Hat Hec. eapply wp_mono; [by apply (websocket_handshake_succeeds n' l s); destruct Hat|].
    intros [] w' ([? ?] & ? & Ht'). rewrite (at_trace _ _ _ _ _ _ _ Hat), <- !app_assoc in Ht'.
    do 3 (split; [done|]). unfold connect_script. by rewrite <- app_assoc.
Qed.
End properties.

(** * A connection that is made, and one whose host name is not verified *)

Module Connects.
Import Program.

Definition asked : list (@action base_extension) := [
  Act_api (Api_ext (Api_connect "example.com" "443" "/" (Some 1%nat))) false].

Lemma sane_asked : Forall sane_action asked.
Proof. repeat constructor. Qed.

Definition unverified : completion := {|
  c_ec := no_error; c_data := []; c_env := {|
    now := 5; running_in_this_thread := false; no_delay_ec := no_error; sni_ok := true;
    sni_error := 0; verify_ec := ErrorCode 1 ssl_category |} |}.

Definition good : list completion := replicate 4 (done_ []).
Definition bad : list completion := [done_ []; unverified; done_ []; done_ []].
Definition ops : list operation := stages (Some 1%nat : @ConnectHandler base_extension) 0.

Lemma sane_good : Forall (λ c, sane_time (now (c_env c))) good.
Proof. repeat (apply Forall_cons; split; [exact sane_env0|]). by apply Forall_nil. Qed.
Lemma sane_bad : Forall (λ c, sane_time (now (c_env c))) bad.
Proof. repeat (apply Forall_cons; split; [exact sane_env0|]). by apply Forall_nil. Qed.

(** The handler is told [ec], or of the success. *)
Definition told (cs : list completion) (w w' : World (FixedRingBuffer WriteSlot)) : Prop :=
  let l : connect_lambda := 1%nat in
  match attempt_failure ops cs with
  | Some ec => state (client w') = ConnectionState.disconnected ∧ slots w' = [] ∧
      Ev_connect_result l ec ∈ trace w'
  | None => state (client w') = ConnectionState.connected ∧ ws (client w') = Some 0%nat ∧
      Op_read 0 ∈ pending w' ∧
      (trace w ++ connect_script (Some l) 0 "example.com" "443" "/" ++
        [Ev_connect_result l no_error]) `prefix_of` trace w'
  end.

Lemma attempt_ends_as_its_stages_do_witness :
  let w := world asked in
  attempt_failure ops good = None ∧ length (until_failure ops good) = 4%nat ∧
  attempt_failure ops bad = Some (ErrorCode 1 ssl_category) ∧ length (until_failure ops bad) = 2%nat ∧
  wp (steps no_ext_task no_ext_wait (Act_task 0 env0 :: (Act_complete 0 <$> until_failure ops good)))
    (λ _, told good w) w ∧
  wp (steps no_ext_task no_ext_wait (Act_task 0 env0 :: (Act_complete 0 <$> until_failure ops bad)))
    (λ _, told bad w) w.
Proof.
  intros w. do 4 (split; [reflexivity|]).
  split; apply (attempt_ends_as_its_stages_do no_ext_task no_ext_wait 1 w 0 1%nat env0);
    [reflexivity|exact (program_world_inv asked eq_refl sane_asked)|vm_compute; reflexivity
    |vm_compute; reflexivity|exact sane_env0|reflexivity|exact sane_good
    |reflexivity|exact (program_world_inv asked eq_refl sane_asked)|vm_compute; reflexivity
    |vm_compute; reflexivity|exact sane_env0|reflexivity|exact sane_bad].
Defined.
End Connects.
