(* ===== verification/ReconnectingClient.v ===== *)
(** The reconnecting WebSocket client of
    [cpp_components/secure_websocket_client/reconnecting_secure_websocket_client.cpp].

    It is the derived class of [SecureWebSocketClient]: its state is the
    [ext_state] of the world, its posted lambdas are the [Task_ext] tasks, its
    reconnect timer is an [Ext_timer] wait, and its override and its connect
    handler are the instance of [Virtual].  Its [connect] and [close] hide those
    of the base class, so its users call [reconnecting_api]. *)

From S2P Require Import Prelude RingBuffer Timer SecureWebSocketClient.
From S2P Require Import WriteQueue WebSocketSafety WebSocketProperties.

(** * Data *)

Module State.
Inductive t := idle | connecting | connected | waiting_reconnect.
End State.

#[export] Instance reconnect_state_eq_dec : EqDecision State.t.
Proof. solve_decision. Defined.

Record Reconnecting := {
  connect_handler : option handler;
  prepare_connection : option handler;
  initial_reconnect_delay : Z;
  max_reconnect_delay : Z;
  current_reconnect_delay : Z;
  reconnect_state : State.t;
  connection_generation : Z;
}.

#[export] Instance reconnecting_settable : Settable Reconnecting := λ r,
  Build_Reconnecting (connect_handler r) (prepare_connection r) (initial_reconnect_delay r)
    (max_reconnect_delay r) (current_reconnect_delay r) (reconnect_state r)
    (connection_generation r).

(** The lambdas that are posted; [Task_ready] is the one that the
    [ConnectionReadyHandler] of an attempt posts. *)
Inductive reconnecting_task :=
  | Task_start (prepare : option handler) (h : option handler)
  | Task_stop (h : option handler)
  | Task_set_initial_reconnect_delay (d : Z)
  | Task_set_max_reconnect_delay (d : Z)
  | Task_ready (generation : Z) (host port resource : string).

(** The API, and the call of a [ConnectionReadyHandler] that the user was given. *)
Inductive reconnecting_api :=
  | Rapi_connect (prepare : option handler) (h : option handler)
  | Rapi_close (h : option handler)
  | Rapi_set_initial_reconnect_delay (d : Z)
  | Rapi_set_max_reconnect_delay (d : Z)
  | Rapi_ready (generation : Z) (host port resource : string).

(** The wait of the reconnect timer, and the lambda given to [do_connect], by
    the generation they capture. *)
Record reconnect_wait := On_reconnect_timer { rw_generation : Z }.
Record connect_result_lambda := On_connect_result { cr_generation : Z }.

(** The call of [prepare_connection], which is given the ready handler of [generation]. *)
Record prepare_call := Call_prepare { pc_handler : handler; pc_generation : Z }.

#[export] Instance reconnecting_extension : Extension := {|
  ext_state := Reconnecting;
  ext_task := reconnecting_task;
  ext_wait := reconnect_wait;
  ext_callback := prepare_call;
  ext_api := reconnecting_api;
  connect_lambda := connect_result_lambda;
|}.

Definition Reconnecting_init : Reconnecting := {|
  connect_handler := None; prepare_connection := None;
  initial_reconnect_delay := nanoseconds 1; max_reconnect_delay := nanoseconds 60;
  current_reconnect_delay := nanoseconds 1; reconnect_state := State.idle;
  connection_generation := 0;
|}.

Notation R := reconnecting_extension.

Section reconnecting.
Context {Q : Type} `{!FifoQueue WriteSlot Q} `{WriteConfig}.
Context (user_react : list (@event R) → @callback R → list (@api_call R)).
Context (user_generate : list (@event R) → handler → list byte).
Notation W := (@World R Q).

Definition getr {A} (f : Reconnecting → A) : M W A := gets (λ w, f (ext w)).
Definition modr (f : Reconnecting → Reconnecting) : M W unit := modify (λ w, w <| ext ::= f |>).

(** [get_self()] *)
Definition get_self : M W unit := shared_from_this.

(** ** The API *)

Definition post_ext (t : reconnecting_task) : M W unit :=
  executor_post (Task_ext (t : @ext_task R)).

Definition run_reconnecting_api (a : reconnecting_api) : M W unit :=
  match a with
  | Rapi_connect prepare h => get_self ;;; post_ext (Task_start prepare h)
  | Rapi_close h => get_self ;;; post_ext (Task_stop h)
  | Rapi_set_initial_reconnect_delay d => get_self ;;; post_ext (Task_set_initial_reconnect_delay d)
  | Rapi_set_max_reconnect_delay d => get_self ;;; post_ext (Task_set_max_reconnect_delay d)
  | Rapi_ready generation host port resource => post_ext (Task_ready generation host port resource)
  end.

Definition reconnecting_user : User Q :=
  @Build_User R Q user_react user_generate run_reconnecting_api.
#[local] Existing Instance reconnecting_user.

(** ** Helpers *)

Definition set_reconnect_state (new_state : State.t) : M W unit :=
  modr (λ r, r <| reconnect_state := new_state |>).

Definition is_reconnect_active : M W bool :=
  let! st := getr reconnect_state in
  ret (match st with
       | State.connecting | State.connected | State.waiting_reconnect => true
       | State.idle => false
       end).

Definition schedule_reconnect : M W unit :=
  let! active := is_reconnect_active in
  if negb active then ret tt else
  set_reconnect_state State.waiting_reconnect ;;;
  let! delay := getr current_reconnect_delay in
  let! current := getr current_reconnect_delay in
  let! twice := checked (current * 2) in
  let! max := getr max_reconnect_delay in
  modr (λ r, r <| current_reconnect_delay := Z.min twice max |>) ;;;
  let! generation := getr connection_generation in
  Timer.expires_after (asio_timer Ext_timer) delay ;;;
  get_self ;;;
  Timer.async_wait (asio_timer Ext_timer)
    (Some (On_ext_timer (On_reconnect_timer generation : @ext_wait R))).

Definition start_connect_attempt : M W unit :=
  set_reconnect_state State.connecting ;;;
  modr (λ r, r <| connection_generation ::= u64_succ |>) ;;;
  let! generation := getr connection_generation in
  get_self ;;;
  let! prepare := getr prepare_connection in
  call_if (λ p, Call_ext (Call_prepare p generation : @ext_callback R)) prepare.

(** The guard of the handlers of an attempt. *)
Definition not_this_attempt (generation : Z) (expected : State.t) : M W bool :=
  let! g := getr connection_generation in
  let! st := getr reconnect_state in
  ret (negb (generation =? g) || negb (bool_decide (st = expected))).

Definition handle_connect_result (generation : Z) (ec : error_code) : M W unit :=
  let! skip := not_this_attempt generation State.connecting in
  if (skip : bool) then ret tt else
  let! h := getr connect_handler in
  if is_error ec then
    call_if (λ h, Call_connect h ec) h ;;;
    schedule_reconnect
  else
    let! initial := getr initial_reconnect_delay in
    modr (λ r, r <| current_reconnect_delay := initial |>) ;;;
    set_reconnect_state State.connected ;;;
    call_if (λ h, Call_connect h no_error) h.

Definition reconnecting_on_unexpected_disconnect (ec : error_code) : M W unit :=
  let! st := getr reconnect_state in
  let should_reconnect := bool_decide (st = State.connected) in
  base_on_unexpected_disconnect ec ;;;
  when should_reconnect schedule_reconnect.

Definition reconnecting_virtual : Virtual Q :=
  @Build_Virtual R Q (λ l ec, handle_connect_result (cr_generation l) ec)
    reconnecting_on_unexpected_disconnect.
#[local] Existing Instance reconnecting_virtual.

(** [do_connect] is handed the lambda of the attempt ([Ev_connect_call]). *)
Definition handle_connection_ready (generation : Z) (host_ port_ resource_ : string) : M W unit :=
  let! skip := not_this_attempt generation State.connecting in
  if (skip : bool) then ret tt else
  modc (λ c, c <| host := host_ |>) ;;;
  modc (λ c, c <| port := port_ |>) ;;;
  modc (λ c, c <| resource := resource_ |>) ;;;
  get_self ;;;
  log (Ev_connect_call (Some (On_connect_result generation) : @ConnectHandler R)) ;;;
  do_connect (Some (On_connect_result generation) : @ConnectHandler R).

Definition handle_reconnect_timer (generation : Z) (ec : error_code) : M W unit :=
  let! skip := not_this_attempt generation State.waiting_reconnect in
  if is_error ec || skip then ret tt else
  start_connect_attempt.

Definition stop_reconnecting : M W unit :=
  modr (λ r, r <| connection_generation ::= u64_succ |>) ;;;
  set_reconnect_state State.idle ;;;
  Timer.cancel (asio_timer Ext_timer) ;;;
  modr (λ r, r <| connect_handler := None |>) ;;;
  modr (λ r, r <| prepare_connection := None |>) ;;;
  let! initial := getr initial_reconnect_delay in
  modr (λ r, r <| current_reconnect_delay := initial |>).

(** ** The posted lambdas *)

Definition start (prepare h : option handler) : M W unit :=
  let! st := getr reconnect_state in
  if negb (bool_decide (st = State.idle)) then
    call_if (λ h, Call_connect h (make_error_code already_connected)) h
  else
    modr (λ r, r <| prepare_connection := prepare |>) ;;;
    modr (λ r, r <| connect_handler := h |>) ;;;
    let! initial := getr initial_reconnect_delay in
    let! max := getr max_reconnect_delay in
    modr (λ r, r <| current_reconnect_delay := Z.min initial max |>) ;;;
    start_connect_attempt.

Definition set_initial (d : Z) : M W unit :=
  modr (λ r, r <| initial_reconnect_delay := d |>) ;;;
  let! st := getr reconnect_state in
  when (bool_decide (st = State.idle)) (modr (λ r, r <| current_reconnect_delay := d |>)).

Definition set_max (d : Z) : M W unit :=
  modr (λ r, r <| max_reconnect_delay := d |>) ;;;
  modr (λ r, r <| current_reconnect_delay ::= λ c, Z.min c d |>).

Definition run_reconnecting_task (t : @ext_task R) : M W unit :=
  match t with
  | Task_start prepare h => start prepare h
  | Task_stop h => stop_reconnecting ;;; do_close h
  | Task_set_initial_reconnect_delay d => set_initial d
  | Task_set_max_reconnect_delay d => set_max d
  | Task_ready generation host port resource => handle_connection_ready generation host port resource
  end.

Definition run_reconnecting_wait (x : @ext_wait R) (ec : error_code) : M W unit :=
  handle_reconnect_timer (rw_generation x) ec.

(** [~ReconnectingSecureWebSocketClient()], then the base class's destructor. *)
Definition destroy_reconnecting : M W unit :=
  modify (λ w, w <| expired := true |>) ;;;
  stop_reconnecting ;;;
  destroy.
End reconnecting.

(** * It keeps to the contracts of the base class *)

(** Delays of at most 2^61 ns (73 years), which can be doubled. *)
Definition sane_delay (d : Z) : Prop := 0 ≤ d ≤ 2 ^ 61.

#[export] Instance reconnecting_ok : ExtensionInvariant := @Build_ExtensionInvariant R
  (λ r : Reconnecting, sane_delay (initial_reconnect_delay r) ∧ sane_delay (max_reconnect_delay r) ∧
    sane_delay (current_reconnect_delay r))
  (λ t : reconnecting_task, match t with
    | Task_set_initial_reconnect_delay d | Task_set_max_reconnect_delay d => sane_delay d
    | _ => True
    end)
  (λ a : reconnecting_api, match a with
    | Rapi_set_initial_reconnect_delay d | Rapi_set_max_reconnect_delay d => sane_delay d
    | _ => True
    end).

Section stability.
Context {Q : Type} `{!FifoQueue WriteSlot Q} `{!FifoQueueLaws WriteSlot Q} `{WriteConfig}.
Context (user_react : list (@event R) → @callback R → list (@api_call R)).
Context (user_generate : list (@event R) → handler → list byte).
Context (Hsane : ∀ t c, Forall sane_api (user_react t c)).
Notation W := (@World R Q).
#[local] Instance the_user : User Q := reconnecting_user user_react user_generate.
#[local] Instance the_virtual : Virtual Q := reconnecting_virtual user_react user_generate.

Lemma frame_ext f (w : W) : (ext_ok (ext w) → ext_ok (f (ext w))) → frame w (w <| ext ::= f |>).
Proof.
  intros Hf. split; simpl; try done.
  - exists (host (client w)), (port (client w)), (resource (client w)). by destruct w as [[]].
  - exists []. rewrite app_nil_r. split; [done|]. split; [constructor|].
    exists []. rewrite app_nil_r. split; [done|]. by split; [constructor|].
  - exists []. rewrite app_nil_r. by split; [|constructor].
Qed.

Lemma frame_ext_to (w w' : W) :
  w' = w <| ext := ext w' |> → (ext_ok (ext w) → ext_ok (ext w')) → frame w w'.
Proof. intros E Hf. rewrite E. by apply (frame_ext (λ _, ext w')). Qed.

#[export] Instance reconnecting_stable_user : StableUser.
Proof.
  split; [exact Hsane|]. intros a w Ha He.
  destruct a; simpl in *; unfold post_ext, executor_post;
    try (apply wp_bind, shared_wp; [done|]); apply wp_modify, frame_post; done.
Qed.

Lemma modr_wp n P f (w : W) :
  (∀ r, ext_ok r → ext_ok (f r)) → Closed P → Queue n w → P w →
  wp (modr f) (λ _ w', (Queue n w' ∧ P w') ∧ ext w' = f (ext w)) w.
Proof.
  intros Hf HP Hq Hp. unfold modr. apply wp_modify. split; [|done].
  assert (frame w (w <| ext ::= f |>)) by (apply frame_ext; auto).
  split; by eapply closed_frame.
Qed.

(** A change of the derived class's state, then [k]. *)
Lemma modr_then_wp n P f (k : M W unit) Post (w : W) :
  (∀ r, ext_ok r → ext_ok (f r)) → Closed P → Queue n w → P w →
  (∀ w', Queue n w' → P w' → ext w' = f (ext w) → wp k Post w') →
  wp (modr f ;;; k) Post w.
Proof.
  intros Hf HP Hq Hp Hk. apply wp_bind. eapply wp_mono; [by apply (modr_wp n P)|].
  intros [] w' [[??] ?]. by apply Hk.
Qed.

Lemma queue_ext_ok n (w : W) : Queue n w → ext_ok (ext w).
Proof. intros [[] _]. done. Qed.

Lemma schedule_reconnect_wp n P (w : W) : Closed P → Queue n w → P w →
  wp schedule_reconnect (λ _ w', Queue n w' ∧ P w') w.
Proof.
  intros HP Hq Hp. unfold schedule_reconnect, is_reconnect_active, getr.
  apply wp_bind, wp_bind, wp_gets, wp_ret.
  destruct (negb _); [done|]. unfold set_reconnect_state.
  apply (modr_then_wp n P); [done|done|done|done|]. intros w1 Hq1 Hp1 He1.
  destruct (queue_ext_ok _ _ Hq1) as (Hi & Hm & Hc).
  apply wp_bind, wp_gets, wp_bind, wp_gets, wp_bind. unfold checked.
  assert (in_int64 (current_reconnect_delay (ext w1) * 2) = true) as ->.
  { unfold in_int64, sane_delay in *. apply andb_true_iff. split; [apply Z.leb_le|apply Z.ltb_lt]; lia. }
  apply wp_ret, wp_bind, wp_gets. apply (modr_then_wp n P); [|done|done|done|].
  { intros r (? & ? & ?). unfold sane_delay in *. simpl. repeat split; try done; lia. }
  intros w2 Hq2 Hp2 He2. apply wp_bind, wp_gets, wp_bind.
  eapply wp_mono; [by apply (lib_wp n P)|]. intros [] w3 [Hq3 Hp3].
  apply wp_bind, shared_wp; [by eapply queue_alive|]. by apply (async_wait_wp n P).
Qed.

Lemma start_connect_attempt_wp n P (w : W) : Closed P → Queue n w → P w →
  wp (start_connect_attempt user_react user_generate) (λ _ w', Queue n w' ∧ P w') w.
Proof.
  intros HP Hq Hp. unfold start_connect_attempt, set_reconnect_state, getr.
  apply (modr_then_wp n P); [done|done|done|done|]. intros w1 Hq1 Hp1 _.
  apply (modr_then_wp n P); [done|done|done|done|]. intros w2 Hq2 Hp2 _.
  apply wp_bind, wp_gets, wp_bind, shared_wp; [by eapply queue_alive|].
  apply wp_bind, wp_gets. by apply (call_if_closed n P).
Qed.

Lemma not_this_attempt_wp g st Post (w : W) :
  Post (negb (g =? connection_generation (ext w)) || negb (bool_decide (reconnect_state (ext w) = st))) w →
  wp (not_this_attempt g st) Post w.
Proof. done. Qed.

Lemma handle_connect_result_wp n P g ec (w : W) : Closed P → Queue n w → P w →
  wp (handle_connect_result user_react user_generate g ec) (λ _ w', Queue n w' ∧ P w') w.
Proof.
  intros HP Hq Hp. unfold handle_connect_result, getr. apply wp_bind, not_this_attempt_wp.
  destruct (_ || _); [done|]. apply wp_bind, wp_gets. destruct (is_error ec).
  - apply wp_bind. eapply wp_mono; [by apply (call_if_closed n P)|].
    intros [] w1 [Hq1 Hp1]. by apply schedule_reconnect_wp.
  - destruct (queue_ext_ok _ _ Hq) as (Hi & Hm & Hc). apply wp_bind, wp_gets.
    apply (modr_then_wp n P); [|done|done|done|].
    { intros r (? & ? & ?). done. }
    intros w1 Hq1 Hp1 _. unfold set_reconnect_state.
    apply (modr_then_wp n P); [done|done|done|done|]. intros w2 Hq2 Hp2 _.
    by apply (call_if_closed n P).
Qed.

#[export] Instance reconnecting_stable_virtual : StableVirtual.
Proof.
  split.
  - intros l ec n P w HP Hq Hp. by apply handle_connect_result_wp.
  - intros ec n P w HP Hq Hp. simpl. unfold reconnecting_on_unexpected_disconnect, getr.
    apply wp_bind, wp_gets, wp_bind. unfold base_on_unexpected_disconnect, getc.
    apply wp_bind, wp_gets. eapply wp_mono; [by apply (call_if_closed n P)|].
    intros [] w1 [Hq1 Hp1]. apply wp_when. case_bool_decide; [by apply schedule_reconnect_wp|done].
Qed.

Lemma stop_reconnecting_wp n P (w : W) : Closed P → Queue n w → P w →
  wp stop_reconnecting (λ _ w', Queue n w' ∧ P w') w.
Proof.
  intros HP Hq Hp. unfold stop_reconnecting, set_reconnect_state.
  apply (modr_then_wp n P); [done|done|done|done|]. intros w1 Hq1 Hp1 _.
  apply (modr_then_wp n P); [done|done|done|done|]. intros w2 Hq2 Hp2 _.
  apply wp_bind. eapply wp_mono; [by apply (cancel_timer_wp n P)|]. intros [] w3 [Hq3 Hp3].
  apply (modr_then_wp n P); [done|done|done|done|]. intros w4 Hq4 Hp4 _.
  apply (modr_then_wp n P); [done|done|done|done|]. intros w5 Hq5 Hp5 _.
  destruct (queue_ext_ok _ _ Hq5) as (Hi & Hm & Hc). unfold getr. apply wp_bind, wp_gets.
  eapply wp_mono; [apply (modr_wp n P); [|done..]|by intros [] w6 [? _]].
  intros r (? & ? & ?). done.
Qed.

Lemma start_wp n P prepare h (w : W) : Closed P → Queue n w → P w →
  wp (start user_react user_generate prepare h) (λ _ w', Queue n w' ∧ P w') w.
Proof.
  intros HP Hq Hp. unfold start, getr. apply wp_bind, wp_gets.
  destruct (negb _); [by apply (call_if_closed n P)|].
  apply (modr_then_wp n P); [done|done|done|done|]. intros w1 Hq1 Hp1 _.
  apply (modr_then_wp n P); [done|done|done|done|]. intros w2 Hq2 Hp2 _.
  destruct (queue_ext_ok _ _ Hq2) as (Hi & Hm & Hc). apply wp_bind, wp_gets, wp_bind, wp_gets.
  apply (modr_then_wp n P); [|done|done|done|].
  { intros r (? & ? & ?). unfold sane_delay in *. simpl. repeat split; try done; lia. }
  intros w3 Hq3 Hp3 _. by apply start_connect_attempt_wp.
Qed.

Lemma set_delay_wp n P (w : W) d : Closed P → Queue n w → P w → sane_delay d →
  wp (set_initial d) (λ _ w', Queue n w' ∧ P w') w ∧ wp (set_max d) (λ _ w', Queue n w' ∧ P w') w.
Proof.
  intros HP Hq Hp Hd. split.
  - unfold set_initial, getr. apply (modr_then_wp n P); [|done|done|done|].
    { by intros r (? & ? & ?). }
    intros w1 Hq1 Hp1 _. apply wp_bind, wp_gets, wp_when. destruct (bool_decide _); [|done].
    eapply wp_mono; [apply (modr_wp n P); [|done..]|by intros [] w6 [? _]]. by intros r (? & ? & ?).
  - unfold set_max. apply (modr_then_wp n P); [|done|done|done|].
    { by intros r (? & ? & ?). }
    intros w1 Hq1 Hp1 _.
    eapply wp_mono; [apply (modr_wp n P); [|done..]|by intros [] w6 [? _]].
    intros r (? & ? & ?). unfold sane_delay in *. simpl. repeat split; try done; lia.
Qed.

(** Handing a lambda to [do_connect]. *)
Lemma inv_connect_call n h (w : W) : Inv n w →
  let w' := w <| trace ::= λ l, l ++ [Ev_connect_call h] |> in
  Queue n w' ∧ Acc None h w' ∧ Shape w'.
Proof.
  intros (Hq & [Hw Hc] & Hsh) w'. split; [by apply queue_log|]. split; [|by apply untraced_shape].
  split.
  - intros h'. specialize (Hw h'). unfold slots in *. simpl in *. autorewrite with model_rw. simpl. lia.
  - intros P. specialize (Hc P). simpl in *. autorewrite with model_rw. simpl. lia.
Qed.

Lemma handle_connection_ready_wp n g host_ port_ resource_ (w : W) : Inv n w →
  wp (handle_connection_ready user_react user_generate g host_ port_ resource_) (λ _, Inv n) w.
Proof.
  intros HI. unfold handle_connection_ready, modc. apply wp_bind, not_this_attempt_wp.
  destruct (_ || _); [done|]. apply wp_bind, wp_modify, wp_bind, wp_modify, wp_bind, wp_modify.
  match goal with |- wp _ _ ?w1 => assert (Inv n w1) as HI1 end.
  { eapply inv_same; [|exact HI]. destruct HI as (([] & _) & _). by split. }
  apply wp_bind, shared_wp; [apply HI1|]. apply wp_bind, wp_log.
  destruct (inv_connect_call n (Some (On_connect_result g)) _ HI1) as (Hq & Ha & Hsh).
  by apply do_connect_wp.
Qed.

#[export] Instance reconnecting_stable_tasks :
  StableTasks (run_reconnecting_task user_react user_generate)
              (run_reconnecting_wait user_react user_generate).
Proof.
  set (P := λ w : W, Acc None None w ∧ Shape w).
  assert (Closed P) as HP by (apply closed_and; apply _).
  assert (∀ n (m : M W unit) w, wp m (λ _ w', Queue n w' ∧ P w') w → wp m (λ _, Inv (S n)) w) as Hup.
  { intros n m w Hm. eapply wp_mono; [exact Hm|]. intros [] w' [? [??]]. by apply (inv_mono n); [lia|]. }
  split.
  - intros t n w Ht Hn (Hq & Ha & Hsh). assert (P w) as Hp by done.
    destruct t as [prepare h|h|d|d|g h p r]; simpl in *.
    + by apply Hup, start_wp.
    + apply wp_bind. eapply wp_mono; [by apply (stop_reconnecting_wp n P)|].
      intros [] w1 (Hq1 & Ha1 & Hsh1).
      eapply wp_mono; [by apply (do_close_wp n None h); try done; apply Hsh1|].
      intros [] w' (?&?&?). split; [done|]. split; [done|by apply shape_frozen].
    + by apply Hup, (set_delay_wp n P w d).
    + by apply Hup, (set_delay_wp n P w d).
    + eapply wp_mono; [by apply (handle_connection_ready_wp n)|]. intros [] w' ?. by apply (inv_mono n); [lia|].
  - intros x ec n w Hn (Hq & Ha & Hsh). apply Hup. unfold run_reconnecting_wait, handle_reconnect_timer.
    apply wp_bind, not_this_attempt_wp. destruct (is_error ec || _); [done|].
    by apply start_connect_attempt_wp.
Qed.
End stability.

(** * Properties *)

(** The delays that the reconnect timer was given. *)
Definition reconnect_delays : list (@event R) → list Z :=
  omap (λ e, match e with Ev_lib (L_timer_expires_after Ext_timer d) => Some d | _ => None end).

Section properties.
Context {Q : Type} `{!FifoQueue WriteSlot Q} `{!FifoQueueLaws WriteSlot Q} `{WriteConfig}.
Context (user_react : list (@event R) → @callback R → list (@api_call R)).
Context (user_generate : list (@event R) → handler → list byte).
Context (Hsane : ∀ t c, Forall sane_api (user_react t c)).
Notation W := (@World R Q).
#[local] Instance user_inst : User Q := reconnecting_user user_react user_generate.
#[local] Instance virtual_inst : Virtual Q := reconnecting_virtual user_react user_generate.
#[local] Instance stable_user_inst : StableUser := reconnecting_stable_user _ _ Hsane.
#[local] Instance stable_virtual_inst : StableVirtual := reconnecting_stable_virtual _ _ Hsane.
#[local] Instance stable_tasks_inst :
  StableTasks (run_reconnecting_task user_react user_generate)
              (run_reconnecting_wait user_react user_generate) := reconnecting_stable_tasks _ _ Hsane.
Notation steps := (steps (run_reconnecting_task user_react user_generate)
                         (run_reconnecting_wait user_react user_generate)).

(** C18: the reconnecting client keeps to what the base class asks of a derived
    class, so it inherits its guarantees: no run of fewer than 2^64 sane events
    faults (no delay overflows when it is doubled), the delays stay in range,
    what is on the wire is a prefix of what was accepted, and every write is
    answered once, across any number of reconnections. *)
Theorem reconnecting_client_inherits acts e :
  sane_time (now e) → Z.of_nat (length acts) < two64 → Forall sane_action acts →
  wp (steps acts) (λ _ w,
    sane_delay (current_reconnect_delay (ext w)) ∧
    (∀ s, wire s (trace w) `prefix_of` accepted s (trace w)) ∧
    (∀ h, write_calls h w = (answers h w + waiting h w)%nat) ∧
    (state (client w) ≠ ConnectionState.connected → slots w = []))
    (World_init (Reconnecting_init : @ext_state R) e).
Proof.
  intros He Hlen Hact. eapply wp_mono; [apply run_from_init; [exact stable_user_inst|exact stable_virtual_inst|exact stable_tasks_inst| |done..]|].
  { repeat split; vm_compute; by intros ?. }
  intros [] w (([] & []) & [Ha _] & []). split; [apply wi_ext|]. split; [done|]. split; [|done].
  intros h. specialize (Ha h). unfold write_calls, answers, waiting. simpl in Ha. lia.
Qed.

(** ** User code leaves the derived class alone *)

Lemma reconnect_delays_app l l' : reconnect_delays (l ++ l') = reconnect_delays l ++ reconnect_delays l'.
Proof. apply omap_app. Qed.

Definition Calm (x : Reconnecting) (ds : list Z) (w : W) : Prop :=
  ext w = x ∧ reconnect_delays (trace w) = ds.

Lemma calm_log x ds e w : reconnect_delays [e] = [] → Calm x ds w →
  Calm x ds (w <| trace ::= λ l, l ++ [e] |>).
Proof. intros He [? ?]. split; [done|]. simpl. by rewrite reconnect_delays_app, He, app_nil_r. Qed.

Lemma run_api_calm n x ds a w :
  sane_api a → Queue n w → Calm x ds w →
  wp (run_api a) (λ _ w', Queue n w' ∧ Calm x ds w') w.
Proof.
  intros Ha Hq Hc. apply wp_and.
  { eapply wp_mono; [by apply (run_api_closed n (Queue n)); try apply _|]. by intros [] w' [? _]. }
  assert (He := queue_alive _ _ Hq).
  destruct a as [m h|m|h|h|h|z|z|a]; simpl;
    try (apply wp_bind, shared_wp; [done|]; unfold executor_post; apply wp_modify; exact Hc).
  - apply wp_bind, shared_wp; [done|]. apply wp_bind, wp_log. unfold executor_post. apply wp_modify.
    exact (calm_log x ds (Ev_write_call h) w eq_refl Hc).
  - apply wp_bind. unfold write_now, gete. apply wp_bind, wp_gets.
    destruct (negb _); [apply wp_ret, wp_log; by apply calm_log|].
    eapply wp_mono; [by apply (queue_write_spec n)|]. intros ec w' [_ Hw']. apply wp_log, calm_log; [done|].
    destruct (is_error ec); [by subst w'|]. destruct Hw' as [s [_ _ _ _ _ X _ _ _ _ _ (es & T & Hes)]].
    destruct Hc as [Hx Hd]. split; [by rewrite X|]. rewrite T, reconnect_delays_app, Hd.
    change (Ev_queued s WriteType.message m :: es) with ([Ev_queued s WriteType.message m] ++ es).
    rewrite reconnect_delays_app. subst es. destruct (write_in_progress (client w)); simpl; [by rewrite app_nil_r|].
    destruct (slots w') as [|front ?]; simpl; [by rewrite app_nil_r|]. unfold wire_call.
    destruct (slot_type front); simpl; by rewrite app_nil_r.
  - destruct a; simpl; try (apply wp_bind, shared_wp; [done|]); exact Hc.
Qed.

Lemma call_if_calm n x ds c h w :
  Queue n w → Calm x ds w → (∀ h, is_answer (c h) = false) →
  wp (call_if c h) (λ _ w', Queue n w' ∧ Calm x ds w') w.
Proof.
  intros Hq Hc Ha. destruct h as [h|]; [|done]. simpl. unfold call, user_reacts.
  apply wp_bind, wp_log, wp_bind, wp_gets.
  apply (wp_for_each (λ w', Queue n w' ∧ Calm x ds w')).
  - split; [|by apply calm_log].
    assert (frame w (w <| trace ::= λ l, l ++ [Ev_call (c h)] |>)) as Hf.
    { specialize (Ha h). apply frame_log; by destruct (c h). }
    by eapply closed_frame.
  - intros a w' Hin [??]. apply run_api_calm; [|done|done].
    simpl in Hin. assert (Hall := Hsane (trace w ++ [Ev_call (c h)]) (c h)).
    rewrite Forall_forall in Hall. by apply Hall.
Qed.

(** ** Backoff *)

(** The [k]-th delay after a start: doubled each time, up to the maximum. *)
Definition backoff (initial max : Z) (k : nat) : Z := Z.min (initial * 2 ^ Z.of_nat k) max.

Lemma backoff_next initial max k : 0 ≤ initial → 0 ≤ max →
  Z.min (backoff initial max k * 2) max = backoff initial max (S k).
Proof.
  intros Hi Hm. unfold backoff. rewrite Nat2Z.inj_succ, Z.pow_succ_r by lia.
  assert (0 ≤ initial * 2 ^ Z.of_nat k) by (apply Z.mul_nonneg_nonneg; lia).
  replace (initial * (2 * 2 ^ Z.of_nat k)) with (initial * 2 ^ Z.of_nat k * 2) by ring. lia.
Qed.

(** [schedule_reconnect], exactly. *)
Lemma schedule_reconnect_spec n w :
  Queue n w → reconnect_state (ext w) ≠ State.idle →
  wp schedule_reconnect (λ _ w', Queue n w' ∧ Calm
    ((ext w) <| reconnect_state := State.waiting_reconnect |>
       <| current_reconnect_delay := Z.min (current_reconnect_delay (ext w) * 2) (max_reconnect_delay (ext w)) |>)
    (reconnect_delays (trace w) ++ [current_reconnect_delay (ext w)]) w') w.
Proof.
  intros Hq Hst. apply wp_and.
  { eapply wp_mono; [by apply (schedule_reconnect_wp n (Queue n)); try apply _|]. by intros [] w' [? _]. }
  destruct (queue_ext_ok _ _ Hq) as (Hi & Hm & Hc).
  unfold schedule_reconnect, is_reconnect_active, getr, set_reconnect_state, modr.
  apply wp_bind, wp_bind, wp_gets, wp_ret.
  destruct (reconnect_state (ext w)) eqn:Hs; [done|..]; simpl;
    (apply wp_bind, wp_modify, wp_bind, wp_gets, wp_bind, wp_gets, wp_bind; unfold checked; simpl;
     assert (in_int64 (current_reconnect_delay (ext w) * 2) = true) as ->
       by (unfold in_int64, sane_delay in *; apply andb_true_iff;
           split; [apply Z.leb_le|apply Z.ltb_lt]; lia);
     apply wp_ret, wp_bind, wp_gets, wp_bind, wp_modify, wp_bind, wp_gets, wp_bind, wp_log;
     apply wp_bind, shared_wp; [exact (queue_alive _ _ Hq)|];
     split; [done|]; simpl; by rewrite reconnect_delays_app).
Qed.

(** An attempt fails with [ec], and the reconnect timer fires. *)
Definition failed_round (ec : error_code) : M W unit :=
  let! g := getr connection_generation in
  handle_connect_result user_react user_generate g ec ;;;
  handle_reconnect_timer user_react user_generate g no_error.

Lemma failed_round_wp n ec w :
  Queue n w → reconnect_state (ext w) = State.connecting → is_error ec = true →
  wp (failed_round ec) (λ _ w', Queue n w' ∧
    reconnect_state (ext w') = State.connecting ∧
    max_reconnect_delay (ext w') = max_reconnect_delay (ext w) ∧
    current_reconnect_delay (ext w') =
      Z.min (current_reconnect_delay (ext w) * 2) (max_reconnect_delay (ext w)) ∧
    reconnect_delays (trace w') = reconnect_delays (trace w) ++ [current_reconnect_delay (ext w)]) w.
Proof.
  intros Hq Hst Hec. unfold failed_round, getr. apply wp_bind, wp_gets, wp_bind.
  unfold handle_connect_result, getr. apply wp_bind, not_this_attempt_wp. rewrite Hst, Z.eqb_refl. simpl.
  apply wp_bind, wp_gets. rewrite Hec. apply wp_bind.
  eapply wp_mono; [by apply (call_if_calm n (ext w) (reconnect_delays (trace w)))|].
  intros [] w1 (Hq1 & Hx1 & Hd1).
  eapply wp_mono; [apply (schedule_reconnect_spec n); [done|by rewrite Hx1, Hst]|].
  intros [] w2 (Hq2 & Hx2 & Hd2). rewrite Hd1, Hx1 in *.
  unfold handle_reconnect_timer. apply wp_bind, not_this_attempt_wp.
  rewrite Hx2. simpl. rewrite Z.eqb_refl. simpl.
  unfold start_connect_attempt, set_reconnect_state, modr, getr.
  apply wp_bind, wp_modify, wp_bind, wp_modify, wp_bind, wp_gets, wp_bind, shared_wp;
    [exact (queue_alive _ _ Hq2)|].
  apply wp_bind, wp_gets. simpl.
  match goal with |- wp _ _ ?w3 => assert (Queue n w3) as Hq3 end.
  { eapply closed_frame; [by apply (frame_ext_to w2)|exact Hq2]. }
  eapply wp_mono; [by apply (call_if_calm n _ _ _ _ _ Hq3 (conj eq_refl eq_refl))|].
  intros [] w4 (Hq4 & Hx4 & Hd4). rewrite Hx4. simpl. rewrite Hx2. simpl. by rewrite Hd4.
Qed.

(** After a start with delays [initial] and [max], the reconnect timer of
    consecutive failing attempts is given [initial], [2 initial], [4 initial]
    and so on, each up to [max], whatever the errors and the users' callbacks. *)
Theorem backoff_doubles_up_to_max n initial ecs w :
  Queue n w → reconnect_state (ext w) = State.connecting → 0 ≤ initial →
  current_reconnect_delay (ext w) = Z.min initial (max_reconnect_delay (ext w)) →
  Forall (λ ec, is_error ec = true) ecs →
  wp (for_each failed_round ecs) (λ _ w',
    reconnect_state (ext w') = State.connecting ∧
    reconnect_delays (trace w') = reconnect_delays (trace w) ++
      map (backoff initial (max_reconnect_delay (ext w))) (seq 0 (length ecs))) w.
Proof.
  intros Hq Hst Hi Hcur Hecs.
  assert (∀ k w, Queue n w → reconnect_state (ext w) = State.connecting →
    current_reconnect_delay (ext w) = backoff initial (max_reconnect_delay (ext w)) k →
    wp (for_each failed_round ecs) (λ _ w',
      reconnect_state (ext w') = State.connecting ∧
      reconnect_delays (trace w') = reconnect_delays (trace w) ++
        map (backoff initial (max_reconnect_delay (ext w))) (seq k (length ecs))) w) as Hgen.
  { clear w Hq Hst Hcur. induction Hecs as [|ec ecs Hec Hecs IH]; intros k w Hq Hst Hcur; simpl.
    - apply wp_ret. by rewrite app_nil_r.
    - apply wp_bind. eapply wp_mono; [by apply (failed_round_wp n)|].
      intros [] w1 (Hq1 & Hst1 & Hm1 & Hc1 & Hd1).
      destruct (queue_ext_ok _ _ Hq) as (_ & Hm & _).
      eapply wp_mono; [apply (IH (S k)); [done|done|]|].
      + rewrite Hc1, Hm1, Hcur. apply backoff_next; [done|]. apply Hm.
      + intros [] w2 [Hst2 Hd2]. split; [done|]. rewrite Hd2, Hd1, Hm1, Hcur, <- app_assoc. done. }
  apply Hgen; [done|done|]. unfold backoff. simpl. by rewrite Z.mul_1_r.
Qed.

(** A successful attempt resets the delay to [initial_reconnect_delay], not
    to its minimum with [max_reconnect_delay]: the first reconnection after an
    unexpected disconnect waits [initial_reconnect_delay] even when that is
    longer than the maximum. *)
Theorem delay_after_success_ignores_max n w :
  Queue n w → reconnect_state (ext w) = State.connecting →
  wp (handle_connect_result user_react user_generate (connection_generation (ext w)) no_error ;;;
      schedule_reconnect) (λ _ w',
    reconnect_state (ext w') = State.waiting_reconnect ∧
    reconnect_delays (trace w') = reconnect_delays (trace w) ++ [initial_reconnect_delay (ext w)]) w.
Proof.
  intros Hq Hst. unfold handle_connect_result, getr. apply wp_bind, wp_bind, not_this_attempt_wp.
  rewrite Hst, Z.eqb_refl. simpl. apply wp_bind, wp_gets, wp_bind, wp_gets.
  unfold set_reconnect_state, modr. apply wp_bind, wp_modify, wp_bind, wp_modify.
  match goal with |- wp _ _ ?w3 => assert (Queue n w3) as Hq3 end.
  { eapply closed_frame; [apply (frame_ext_to w); [done|by intros (? & ? & ?)]|exact Hq]. }
  eapply wp_mono; [by apply (call_if_calm n _ _ _ _ _ Hq3 (conj eq_refl eq_refl))|].
  intros [] w1 (Hq1 & Hx1 & Hd1).
  eapply wp_mono; [apply (schedule_reconnect_spec n); [done|by rewrite Hx1]|].
  intros [] w2 (_ & Hx2 & Hd2). rewrite Hx2, Hd2, Hd1, Hx1. done.
Qed.

(** Once stopped, the client is idle, and nothing left over from an earlier
    attempt has any effect: not its ready handler, not its connect result, not
    its reconnect timer, whatever the generation they captured. *)
Theorem stopping_is_final n w :
  Queue n w →
  wp stop_reconnecting (λ _ w',
    reconnect_state (ext w') = State.idle ∧ client w' = client w ∧
    ∀ w'', reconnect_state (ext w'') = State.idle → ∀ g ec host_ port_ resource_,
      handle_connection_ready user_react user_generate g host_ port_ resource_ w'' = Ok (tt, w'') ∧
      handle_connect_result user_react user_generate g ec w'' = Ok (tt, w'') ∧
      handle_reconnect_timer user_react user_generate g ec w'' = Ok (tt, w'') ∧
      schedule_reconnect w'' = Ok (tt, w'')) w.
Proof.
  intros Hq. unfold stop_reconnecting, set_reconnect_state, modr, getr.
  apply wp_bind, wp_modify, wp_bind, wp_modify, wp_bind. unfold Timer.cancel. simpl.
  apply wp_bind, wp_bind, wp_log, wp_ret, wp_ret, wp_bind, wp_modify, wp_bind, wp_modify, wp_bind, wp_gets, wp_modify.
  split; [done|]. split; [done|]. intros w'' Hidle g ec host_ port_ resource_.
  unfold handle_connection_ready, handle_connect_result, handle_reconnect_timer, schedule_reconnect,
    not_this_attempt, is_reconnect_active, bind, getr, gets, ret.
  rewrite Hidle, !(bool_decide_false (State.idle = _)) by done. simpl.
  rewrite ?orb_true_r. simpl. by rewrite ?orb_true_r.
Qed.
End properties.

(** * Witnesses *)

(** A user who answers [prepare_connection] at once. *)
Module ReconnectingProgram.
#[export] Existing Instances Program.config Program.queue Program.queue_laws.

Definition user_react (_ : list (@event R)) (c : @callback R) : list (@api_call R) :=
  match c with
  | Call_ext c => [Api_ext (Rapi_ready (pc_generation c) "example.com" "443" "/" : @ext_api R)]
  | _ => []
  end.
Definition user_generate (_ : list (@event R)) (_ : handler) : list byte := [].

Lemma user_sane t c : Forall sane_api (user_react t c).
Proof. destruct c; repeat constructor. Qed.

Notation Q := (FixedRingBuffer WriteSlot).
#[export] Instance user : @User R Q := reconnecting_user user_react user_generate.
#[export] Instance virtual : @Virtual R Q := reconnecting_virtual user_react user_generate.
#[export] Instance stable_user : StableUser := reconnecting_stable_user _ _ user_sane.
#[export] Instance stable_virtual : StableVirtual := reconnecting_stable_virtual _ _ user_sane.
#[export] Instance stable_tasks : StableTasks (run_reconnecting_task user_react user_generate)
  (run_reconnecting_wait user_react user_generate) := reconnecting_stable_tasks _ _ user_sane.

Definition api (a : reconnecting_api) : @action R := Act_api (Api_ext (a : @ext_api R)) false.

(** A start with an initial delay of 60 s and a maximum of 10 s. *)
Definition starting : list (@action R) := [
  api (Rapi_set_initial_reconnect_delay (nanoseconds 60));
  api (Rapi_set_max_reconnect_delay (nanoseconds 10));
  api (Rapi_connect (Some 1%nat) (Some 2%nat));
  Act_task 0 Program.env0; Act_task 0 Program.env0; Act_task 0 Program.env0].

(** A start, closed while it resolves, and a second start at once; then the
    cancelled operations of both attempts complete, the first one first. *)
Definition restarting : list (@action R) := [
  api (Rapi_connect (Some 1%nat) (Some 2%nat));
  Act_task 0 Program.env0; Act_task 0 Program.env0;
  api (Rapi_close None); api (Rapi_connect (Some 1%nat) (Some 2%nat));
  Act_task 0 Program.env0; Act_task 0 Program.env0; Act_task 0 Program.env0;
  Act_complete 0 (Program.failed operation_canceled);
  Act_complete 0 (Program.failed operation_canceled)].

Definition world0 : @World R Q := World_init (Reconnecting_init : @ext_state R) Program.env0.
Definition world (acts : list (@action R)) : @World R Q :=
  match steps (run_reconnecting_task user_react user_generate)
          (run_reconnecting_wait user_react user_generate) acts world0 with
  | Ok (_, w) => w | Fault _ => world0 end.

Lemma sane_starting : Forall sane_action starting.
Proof.
  repeat constructor; simpl; try done; unfold sane_time, sane_delay, nanoseconds; simpl; lia.
Qed.

Lemma init_ok : @ext_ok R _ Reconnecting_init.
Proof. repeat split; vm_compute; by intros ?. Qed.

Lemma starting_queue : Queue 6 (world starting).
Proof.
  destruct (wp_ok _ _ _ (run_from_init (run_reconnecting_task user_react user_generate)
    (run_reconnecting_wait user_react user_generate) starting (Reconnecting_init : @ext_state R)
    Program.env0 init_ok Program.sane_env0 eq_refl sane_starting)) as ([] & w & Hw & HI & _).
  unfold world, world0. by rewrite Hw.
Qed.
End ReconnectingProgram.

Section reconnecting_witnesses.
Import ReconnectingProgram.

Lemma reconnecting_client_inherits_witness :
  wp (steps (run_reconnecting_task user_react user_generate)
       (run_reconnecting_wait user_react user_generate) starting) (λ _ w,
    sane_delay (current_reconnect_delay (ext w)) ∧
    (∀ s, wire s (trace w) `prefix_of` accepted s (trace w)) ∧
    (∀ h, write_calls h w = (answers h w + waiting h w)%nat) ∧
    (state (client w) ≠ ConnectionState.connected → slots w = [])) world0.
Proof.
  apply (reconnecting_client_inherits user_react user_generate user_sane starting Program.env0);
    [exact Program.sane_env0|reflexivity|exact sane_starting].
Defined.

Lemma backoff_doubles_up_to_max_witness :
  wp (for_each (failed_round user_react user_generate)
       [make_error_code timed_out; make_error_code connection_refused]) (λ _ w',
    reconnect_state (ext w') = State.connecting ∧
    reconnect_delays (trace w') = reconnect_delays (trace (world starting)) ++
      map (backoff (nanoseconds 60) (max_reconnect_delay (ext (world starting)))) (seq 0 2))
    (world starting).
Proof.
  apply (backoff_doubles_up_to_max user_react user_generate user_sane 6 (nanoseconds 60)
    [make_error_code timed_out; make_error_code connection_refused] (world starting));
    [exact starting_queue|vm_compute; reflexivity|unfold nanoseconds; lia|vm_compute; reflexivity
    |repeat constructor].
Defined.

Lemma delay_after_success_ignores_max_witness :
  max_reconnect_delay (ext (world starting)) < initial_reconnect_delay (ext (world starting)) ∧
  wp (handle_connect_result user_react user_generate
        (connection_generation (ext (world starting))) no_error ;;; schedule_reconnect) (λ _ w',
    reconnect_state (ext w') = State.waiting_reconnect ∧
    reconnect_delays (trace w') = reconnect_delays (trace (world starting)) ++
      [initial_reconnect_delay (ext (world starting))]) (world starting).
Proof.
  split; [vm_compute; reflexivity|].
  apply (delay_after_success_ignores_max user_react user_generate user_sane 6 (world starting));
    [exact starting_queue|vm_compute; reflexivity].
Defined.

Lemma stopping_is_final_witness :
  wp stop_reconnecting (λ _ w',
    reconnect_state (ext w') = State.idle ∧ client w' = client (world starting) ∧
    ∀ w'', reconnect_state (ext w'') = State.idle → ∀ g ec host_ port_ resource_,
      handle_connection_ready user_react user_generate g host_ port_ resource_ w'' = Ok (tt, w'') ∧
      handle_connect_result user_react user_generate g ec w'' = Ok (tt, w'') ∧
      handle_reconnect_timer user_react user_generate g ec w'' = Ok (tt, w'') ∧
      schedule_reconnect w'' = Ok (tt, w'')) (world starting).
Proof. apply (stopping_is_final user_react user_generate 6 (world starting)). exact starting_queue. Defined.

(** Closing and starting again while the first attempt resolves can leave
    the client stuck: the cancelled operation of the first attempt ends the
    second one in the base class, its result is dropped as one of an earlier
    generation, and the client is left connecting with nothing posted, pending
    or waiting that could ever take it further. *)
Theorem restarted_client_gets_stuck :
  let w := world restarting in
  reconnect_state (ext w) = State.connecting ∧ state (client w) = ConnectionState.disconnected ∧
  posted w = [] ∧ pending w = [].
Proof. vm_compute. auto 10. Qed.
End reconnecting_witnesses.
