(* ===== verification/ReconnectingSafety.v ===== *)
(** How the reconnecting client and its base class stay in step.

    [silent] is what an operation may change without a word to the derived
    class; [Agree] ties the two state machines together: the reconnecting client
    is connected only when its base class is, and idle only when that is
    disconnected.  Every event keeps it.  What follows is that an unexpected
    disconnect is always answered by an attempt to reconnect, and that a closed
    client does nothing until it is started again. *)

From S2P Require Import Prelude RingBuffer Timer SecureWebSocketClient.
From S2P Require Import WriteQueue WebSocketSafety WebSocketProperties ReconnectingClient.

(** * Silent operations *)

(** What the derived class does about reconnecting, as the trace shows it: it
    resolves the host, asks for the address of a new attempt, tells the result
    of one, or arms its timer. *)
Definition is_reconnect_event (e : @event R) : bool :=
  match e with
  | Ev_lib (L_async_resolve _ _) | Ev_call (Call_ext _) | Ev_call (Call_connect _ _)
  | Ev_lib (L_timer_expires_after Ext_timer _) => true
  | _ => false
  end.
Definition reconnect_events (l : list (@event R)) : list event :=
  filter (λ e, is_reconnect_event e = true) l.

Lemma reconnect_events_app l l' : reconnect_events (l ++ l') = reconnect_events l ++ reconnect_events l'.
Proof. apply filter_app. Qed.

(** A task of a client of the derived class: [connect] and [close] of the base
    class are hidden.  A start counts only where [may_start]. *)
Definition own_task (may_start : Prop) (t : @task R) : Prop :=
  match t with
  | Task_connect _ | Task_close _ => False
  | Task_ext (Task_start _ _) => may_start
  | _ => True
  end.
Definition own_api (may_start : Prop) (a : @api_call R) : Prop :=
  match a with
  | Api_ext (Rapi_connect _ _) => may_start
  | _ => True
  end.

Section silent.
Context {Q : Type} (may_start : Prop).
Notation W := (@World R Q).

Record silent (w w' : W) : Prop := {
  si_ext : ext w' = ext w;
  si_state : state (client w') = state (client w);
  si_env : env w' = env w;
  si_posted : Forall (own_task may_start) (posted w) → Forall (own_task may_start) (posted w');
  si_events : reconnect_events (trace w') = reconnect_events (trace w);
}.

#[export] Instance silent_preorder : PreOrder silent.
Proof.
  split; [by split|]. intros w1 w2 w3 [] []. split; try congruence. auto.
Qed.

Definition Silent {A} (m : M W A) : Prop := ∀ w, wlp m (λ _, silent w) w.

Lemma silent_ret {A} (a : A) : Silent (ret a).
Proof. by intros w. Qed.
Lemma silent_gets {A} (f : W → A) : Silent (gets f).
Proof. by intros w. Qed.
Lemma silent_throw {A} f : Silent (A := A) (throw f).
Proof. by intros w. Qed.
Lemma silent_require {A} f (o : option A) : Silent (require f o).
Proof. by destruct o. Qed.
Lemma silent_bind {A B} (m : M W A) (k : A → M W B) : Silent m → (∀ a, Silent (k a)) → Silent (bind m k).
Proof.
  intros Hm Hk w. apply wlp_bind. eapply wlp_mono; [apply Hm|]. intros a w1 H1.
  eapply wlp_mono; [apply Hk|]. intros b w2 H2. by trans w1.
Qed.
Lemma silent_for_each {A} (f : A → M W unit) xs : (∀ x, x ∈ xs → Silent (f x)) → Silent (for_each f xs).
Proof.
  intros Hf w. apply (wlp_for_each (silent w)); [done|]. intros x w1 Hx H1.
  eapply wlp_mono; [by apply Hf|]. intros [] w2 H2. by trans w1.
Qed.

Lemma silent_modc f : (∀ c, state (f c) = state c) → Silent (modc f).
Proof. intros Hf w. unfold wlp. simpl. split; simpl; auto. Qed.
Lemma silent_log e : is_reconnect_event e = false → Silent (log e).
Proof.
  intros He w. split; try done. simpl. rewrite reconnect_events_app. unfold reconnect_events at 2.
  rewrite filter_cons, He. apply app_nil_r.
Qed.
Lemma silent_start_operation op : Silent (start_operation op).
Proof. by intros w. Qed.
Lemma silent_post t : own_task may_start t → Silent (executor_post t).
Proof. intros Ht w. split; try done. simpl. intros ?. apply Forall_app. auto. Qed.
Lemma silent_next_stream s : Silent (modify (λ w : W, w <| next_stream := s |>)).
Proof. by intros w. Qed.
End silent.

Create HintDb silent.
#[export] Hint Resolve silent_ret silent_gets silent_throw silent_require silent_start_operation
  silent_next_stream : silent.
#[export] Hint Extern 1 (Silent _ (log _)) => (apply silent_log; reflexivity) : silent.
#[export] Hint Extern 1 (Silent _ (modc _)) => (apply silent_modc; reflexivity) : silent.
#[export] Hint Extern 1 (Silent _ (executor_post _)) => (apply silent_post; done) : silent.

(** Proves [Silent m] by the shape of [m], unfolding what it is told to. *)
Ltac silent_step :=
  match goal with
  | |- Silent _ (bind _ _) => apply silent_bind; [|intros ?]
  | |- Silent _ (when ?b _) => unfold when
  | |- Silent _ (if ?b then _ else _) => destruct b
  | |- Silent _ (match ?x with _ => _ end) => destruct x
  | |- Silent _ _ => solve [auto with silent nocore]
  end.
Ltac silent := repeat silent_step.

(** A user who starts the client only where [may_start]. *)
Definition own_user {Q} (may_start : Prop) (U : @User R Q) : Prop :=
  (∀ t c, Forall (own_api may_start) (react t c)) ∧
  (∀ a, own_api may_start (Api_ext a) → Silent may_start (run_ext_api a)).

(** * What is silent in the base class *)

Section base_silent.
Context {Q : Type} `{!FifoQueue WriteSlot Q} `{WriteConfig}.
Notation W := (@World R Q).
Context `{U : !@User R Q} (may_start : Prop) (Hown : own_user may_start U).
Notation Silent := (Silent may_start).

Lemma shared_silent : Silent (shared_from_this : M W unit).
Proof. unfold shared_from_this. silent. Qed.
#[local] Hint Resolve shared_silent : silent.

Lemma deref_ws_silent : Silent (deref_ws : M W nat).
Proof. unfold deref_ws, getc. silent. Qed.
#[local] Hint Resolve deref_ws_silent : silent.

Lemma start_write_silent : Silent (start_write : M W unit).
Proof. unfold start_write, getc, lib. silent. Qed.
#[local] Hint Resolve start_write_silent : silent.

Lemma queue_write_silent t m h : Silent (queue_write t m h : M W error_code).
Proof. unfold queue_write, getc. silent. Qed.
#[local] Hint Resolve queue_write_silent : silent.

Lemma run_api_silent a : own_api may_start a → Silent (run_api a).
Proof.
  intros Ha. destruct a; simpl in *; [unfold write, write_now, gete, set_message_handler, set_disconnect_handler,
      set_ping_message_generator, set_ping_interval, set_read_timeout; silent..|].
  by apply Hown.
Qed.

Lemma user_reacts_silent c : Silent (user_reacts c).
Proof.
  unfold user_reacts. apply silent_bind; [silent|]. intros t. apply silent_for_each.
  intros a Ha. apply run_api_silent. destruct Hown as [Ho _]. specialize (Ho t c). rewrite Forall_forall in Ho. by apply Ho.
Qed.

Lemma call_silent c : is_reconnect_event (Ev_call c) = false → Silent (call c).
Proof. intros Hc. unfold call. apply silent_bind; [by apply silent_log|]. intros _. apply user_reacts_silent. Qed.

Lemma call_if_silent (c : handler → @callback R) h :
  (∀ h, is_reconnect_event (Ev_call (c h)) = false) → Silent (call_if c h).
Proof. intros Hc. destruct h as [h|]; simpl; [by apply call_silent|silent]. Qed.
#[local] Hint Extern 1 (ReconnectingSafety.Silent _ (call_if _ _)) => (apply call_if_silent; done) : silent.

Lemma do_write_silent m h : Silent (do_write m h).
Proof. unfold do_write. silent. Qed.
#[local] Hint Resolve do_write_silent : silent.

Lemma cancel_timer_silent t : Silent (Timer.cancel (asio_timer t) : M W unit).
Proof. unfold Timer.cancel. simpl. unfold lib. silent. Qed.
#[local] Hint Resolve cancel_timer_silent : silent.

Lemma cancel_pending_operations_silent : Silent (cancel_pending_operations : M W unit).
Proof. unfold cancel_pending_operations, stop_ping_timer, stop_read_timer, getc, lib. silent. Qed.
Lemma close_socket_silent : Silent (close_socket : M W unit).
Proof. unfold close_socket, getc, lib. silent. Qed.
Lemma disable_timeouts_silent : Silent (disable_timeouts : M W unit).
Proof. unfold disable_timeouts, getc, lib. silent. Qed.

Lemma fail_writes_silent fuel : Silent (fail_writes fuel).
Proof. induction fuel as [|fuel IH]; simpl; unfold getc; silent. Qed.
Lemma fail_pending_writes_silent : Silent fail_pending_writes.
Proof. unfold fail_pending_writes. silent. apply fail_writes_silent. Qed.
#[local] Hint Resolve cancel_pending_operations_silent close_socket_silent disable_timeouts_silent
  fail_pending_writes_silent : silent.

Lemma start_ping_timer_after_silent d : Silent (start_ping_timer_after d : M W unit).
Proof.
  unfold start_ping_timer_after, is_connected, getc, Timer.expires_after, Timer.async_wait, lib.
  simpl. unfold lib. silent.
Qed.
#[local] Hint Resolve start_ping_timer_after_silent : silent.

Lemma to_duration_silent s : Silent (to_duration s : M W Z).
Proof. unfold to_duration, checked. silent. Qed.
#[local] Hint Resolve to_duration_silent : silent.

Lemma start_ping_timer_silent : Silent (start_ping_timer : M W unit).
Proof. unfold start_ping_timer, getc. silent. Qed.

Lemma read_deadline_silent : Silent (read_deadline : M W Z).
Proof. unfold read_deadline, getc, checked. silent. Qed.
#[local] Hint Resolve read_deadline_silent : silent.

Lemma start_read_timer_silent : Silent (start_read_timer : M W unit).
Proof.
  unfold start_read_timer, is_connected, getc, Timer.expires_at, Timer.async_wait. simpl. unfold lib.
  silent.
Qed.

Lemma handle_ping_timer_silent ec : Silent (handle_ping_timer ec).
Proof.
  unfold handle_ping_timer, is_connected, getc, do_protocol_ping. silent. by apply call_silent.
Qed.

Lemma start_read_silent : Silent (start_read : M W unit).
Proof. unfold start_read, is_connected, getc, lib. silent. Qed.

Lemma create_stream_silent : Silent (create_stream : M W unit).
Proof. unfold create_stream, lib. silent. Qed.
End base_silent.

Lemma reconnecting_own_user {Q : Type} may_start user_react user_generate :
  (∀ t c, Forall (own_api may_start) (user_react t c)) →
  own_user may_start (reconnecting_user (Q := Q) user_react user_generate).
Proof.
  intros Hr. split; [exact Hr|]. intros a Ha.
  destruct a; simpl in *; unfold get_self, post_ext; silent; by apply shared_silent.
Qed.

#[export] Hint Resolve shared_silent deref_ws_silent start_write_silent queue_write_silent
  do_write_silent cancel_timer_silent cancel_pending_operations_silent close_socket_silent
  disable_timeouts_silent fail_pending_writes_silent start_ping_timer_after_silent
  to_duration_silent start_ping_timer_silent read_deadline_silent start_read_timer_silent
  handle_ping_timer_silent start_read_silent create_stream_silent : silent.
#[export] Hint Extern 1 (Silent _ (call_if _ _)) => (apply call_if_silent; [auto with silent nocore|done]) : silent.

(** * The two state machines agree *)

Section agree.
Context {Q : Type} `{!FifoQueue WriteSlot Q} `{WriteConfig}.
Context (user_react : list (@event R) → @callback R → list (@api_call R)).
Context (user_generate : list (@event R) → handler → list byte).
Notation W := (@World R Q).
#[local] Instance agree_user : User Q := reconnecting_user user_react user_generate.
#[local] Instance agree_virtual : Virtual Q := reconnecting_virtual user_react user_generate.
Notation silent := (silent True).
Notation Silent := (Silent True).

(** Not inside a close, and idle only when there is no connection. *)
Definition Settled (w : W) : Prop :=
  state (client w) ≠ ConnectionState.closing ∧
  (reconnect_state (ext w) = State.idle → state (client w) = ConnectionState.disconnected) ∧
  Forall (own_task True) (posted w).

(** ... and the derived class is connected only if the base class is. *)
Definition Agree (w : W) : Prop :=
  Settled w ∧
  (reconnect_state (ext w) = State.connected → state (client w) = ConnectionState.connected).

Lemma any_user : own_user True agree_user.
Proof. apply reconnecting_own_user. intros t c. apply Forall_forall. by intros [| | | | | | |[]] _. Qed.
#[local] Hint Resolve any_user : silent.

Lemma settled_silent w w' : silent w w' → Settled w → Settled w'.
Proof. intros [X S _ P _] (?&?&?). split; [by rewrite S|]. split; [by rewrite X, S|auto]. Qed.
Lemma agree_silent w w' : silent w w' → Agree w → Agree w'.
Proof. intros Hs [? ?]. split; [by eapply settled_silent|]. destruct Hs as [X S _ _ _]. by rewrite X, S. Qed.

Lemma wlp_silent {A} (m : M W A) Post w :
  Silent m → (∀ a w', silent w w' → Post a w') → wlp m Post w.
Proof. intros Hm HP. eapply wlp_mono; [apply Hm|]. auto. Qed.
Lemma wlp_silent_bind {A B} (m : M W A) (k : A → M W B) Post w :
  Silent m → (∀ a w', silent w w' → wlp (k a) Post w') → wlp (bind m k) Post w.
Proof. intros Hm Hk. apply wlp_bind. by apply wlp_silent. Qed.

Lemma silent_agrees {A} (m : M W A) w : Silent m → Agree w → wlp m (λ _, Agree) w.
Proof. intros Hm Ha. apply wlp_silent; [done|]. intros a w' Hs. by eapply agree_silent. Qed.
Lemma silent_then_agrees {A B} (m : M W A) (k : A → M W B) w :
  Silent m → Agree w → (∀ a w', Agree w' → wlp (k a) (λ _, Agree) w') → wlp (bind m k) (λ _, Agree) w.
Proof. intros Hm Ha Hk. apply wlp_silent_bind; [done|]. intros a w' Hs. apply Hk. by eapply agree_silent. Qed.

(** Calling a handler of the user, whatever it is. *)
Lemma call_if_logs (c : handler → @callback R) h w :
  wlp (call_if c h) (λ _, silent (w <| trace ::= λ l, l ++
    match h with Some h => [Ev_call (c h)] | None => [] end |>)) w.
Proof.
  destruct h as [h|]; simpl.
  - unfold call, log. apply wlp_bind, wlp_modify, user_reacts_silent, any_user.
  - apply wlp_ret. split; simpl; try done. by rewrite app_nil_r.
Qed.

Lemma call_if_agrees (c : handler → @callback R) h w : Agree w → wlp (call_if c h) (λ _, Agree) w.
Proof.
  intros Ha. eapply wlp_mono; [apply call_if_logs|]. intros [] w' Hs.
  eapply agree_silent; [exact Hs|]. exact Ha.
Qed.

(** ** The base class's closing *)

(** [do_close] leaves a client that is not closing disconnected, and is silent otherwise. *)
Definition closes (w w' : W) : Prop :=
  state (client w') = ConnectionState.disconnected ∧
  silent w (w' <| client ::= λ c, c <| state := state (client w) |> |>).

Lemma do_close_closes h w :
  state (client w) ≠ ConnectionState.closing → wlp (do_close h) (λ _, closes w) w.
Proof.
  intros Hst. unfold do_close, getc. apply wlp_bind, wlp_gets.
  assert (∀ m : M W unit, Silent m → state (client w) = ConnectionState.disconnected →
    wlp m (λ _, closes w) w) as Hdown.
  { intros m Hm Hd. apply wlp_silent; [done|]. intros [] w' Hs. split; [by rewrite (si_state _ _ _ Hs)|].
    destruct Hs. split; simpl; by rewrite ?Hd. }
  assert (wlp (set_state ConnectionState.closing ;;; disable_timeouts ;;; cancel_pending_operations ;;;
    fail_pending_writes ;;; close_socket ;;; set_state ConnectionState.disconnected ;;;
    call_if Call_close h) (λ _, closes w) w) as Hup.
  { unfold set_state, modc. apply wlp_bind, wlp_modify.
    apply wlp_silent_bind; [by silent|]. intros _ w1 H1.
    apply wlp_silent_bind; [by silent|]. intros _ w2 H2.
    apply wlp_silent_bind; [by silent|]. intros _ w3 H3.
    apply wlp_silent_bind; [by silent|]. intros _ w4 H4.
    apply wlp_bind, wlp_modify, wlp_silent; [by silent|]. intros [] w5 H5.
    assert (silent (w <| client ::= λ c, c <| state := ConnectionState.closing |> |>) w4) as [X _ V P E]
      by (trans w3; [trans w2; [by trans w1|done]|done]).
    destruct H5 as [X5 S5 V5 P5 E5]. split; [done|]. simpl in *.
    split; simpl; [congruence|done|congruence|auto|congruence]. }
  destruct (state (client w)) eqn:Hs; [apply Hdown; [by silent|done]|exact Hup|exact Hup|done].
Qed.

Lemma closes_settled w w' : closes w w' → Settled w → Settled w'.
Proof. intros [S [X _ _ P _]] (? & Hi & ?). split; [by rewrite S|]. split; [by intros _|]. auto. Qed.
Lemma closes_agree w w' :
  closes w w' → Settled w → reconnect_state (ext w) ≠ State.connected → Agree w'.
Proof.
  intros Hc Hs Hn. split; [by eapply closes_settled|]. destruct Hc as [_ [X _ _ _ _]]. simpl in X.
  intros Hcon. by rewrite X in Hcon.
Qed.

(** ** The derived class's operations *)

Lemma agree_trying w w' :
  client w' = client w → posted w' = posted w →
  reconnect_state (ext w') = State.connecting ∨ reconnect_state (ext w') = State.waiting_reconnect →
  Settled w → Agree w'.
Proof.
  intros C P Hf (? & ? & ?). unfold Agree, Settled. rewrite C, P.
  destruct Hf as [-> | ->]; repeat split; try done.
Qed.

Lemma agree_same w w' :
  client w' = client w → posted w' = posted w → reconnect_state (ext w') = reconnect_state (ext w) →
  Agree w → Agree w'.
Proof. intros C P X. unfold Agree, Settled. by rewrite C, P, X. Qed.

(** Arming the reconnect timer is no business of the base class. *)
Lemma arm_agrees d g w : Agree w →
  wlp (Timer.expires_after (asio_timer Ext_timer) d ;;; get_self ;;;
       Timer.async_wait (asio_timer Ext_timer) (Some (On_ext_timer (On_reconnect_timer g : @ext_wait R))))
      (λ _, Agree) w.
Proof.
  intros Ha. unfold Timer.expires_after, get_self. simpl. unfold lib, log.
  apply wlp_bind, wlp_modify. apply silent_then_agrees; [by silent|by destruct Ha|].
  intros _ w' Ha'. apply silent_agrees; [by silent|done].
Qed.

Lemma schedule_reconnect_agrees w : Settled w →
  (reconnect_state (ext w) = State.idle → Agree w) → wlp schedule_reconnect (λ _, Agree) w.
Proof.
  intros Hs Hidle. unfold schedule_reconnect, is_reconnect_active, getr, set_reconnect_state, modr.
  apply wlp_bind, wlp_bind, wlp_gets.
  destruct (reconnect_state (ext w)) eqn:Hst; simpl; [by apply Hidle|..];
    (apply wlp_bind, wlp_modify, wlp_bind, wlp_gets, wlp_bind, wlp_gets, silent_then_agrees;
      [unfold checked; by silent|by apply (agree_trying w); auto|];
     intros twice w1 H1; apply wlp_bind, wlp_gets, wlp_bind, wlp_modify, wlp_bind, wlp_gets, arm_agrees;
     by apply (agree_same w1)).
Qed.

Lemma agree_idle w : Settled w → reconnect_state (ext w) = State.idle → Agree w.
Proof. intros Hs Hi. split; [done|]. by rewrite Hi. Qed.

Lemma start_connect_attempt_agrees w :
  Settled w → wlp (start_connect_attempt user_react user_generate) (λ _, Agree) w.
Proof.
  intros Hs. unfold start_connect_attempt, set_reconnect_state, modr, getr, get_self.
  apply wlp_bind, wlp_modify, wlp_bind, wlp_modify, wlp_bind, wlp_gets.
  apply silent_then_agrees; [by silent|by apply (agree_trying w); auto|].
  intros _ w1 H1. apply wlp_bind, wlp_gets. by apply call_if_agrees.
Qed.

(** The result of an attempt that failed. *)
Lemma failed_attempt_agrees g ec w : is_error ec = true → Agree w →
  wlp (handle_connect_result user_react user_generate g ec) (λ _, Agree) w.
Proof.
  intros Hec Ha. unfold handle_connect_result, not_this_attempt, getr.
  apply silent_then_agrees; [by silent|done|]. intros [] w1 H1; [done|].
  apply wlp_bind, wlp_gets. rewrite Hec. apply wlp_bind.
  eapply wlp_mono; [by apply call_if_agrees|].
  intros [] w2 H2. apply schedule_reconnect_agrees; [apply H2|by intros _].
Qed.

Lemma connect_result_agrees h ec w : is_error ec = true → Agree w →
  wlp (connect_result h ec) (λ _, Agree) w.
Proof.
  intros Hec Ha. destruct h as [l|]; [|done]. simpl. apply silent_then_agrees; [by silent|done|].
  intros _ w1 H1. by apply failed_attempt_agrees.
Qed.

(** The result of an attempt that succeeded, once the base class is connected. *)
Lemma connected_agrees h w :
  Agree w → state (client w) = ConnectionState.connected →
  wlp (connect_result h no_error) (λ _, Agree) w.
Proof.
  intros Ha Hst. destruct h as [l|]; [|done]. simpl. apply wlp_silent_bind; [by silent|].
  intros _ w1 H1. unfold handle_connect_result, not_this_attempt, getr.
  apply wlp_silent_bind; [by silent|]. intros skip w2 H2. assert (H12 : silent w w2) by by trans w1.
  destruct skip; [by eapply agree_silent|]. simpl.
  unfold set_reconnect_state, modr. apply wlp_bind, wlp_gets, wlp_bind, wlp_gets, wlp_bind, wlp_modify,
    wlp_bind, wlp_modify, call_if_agrees.
  destruct (agree_silent _ _ H12 Ha) as [(? & Hi & ?) _]. assert (S := si_state _ _ _ H12). rewrite Hst in S.
  split; [split; [done|split; [done|done]]|]. by intros _.
Qed.

Lemma fail_connection_agrees h ec w : is_error ec = true → Settled w →
  reconnect_state (ext w) ≠ State.connected → wlp (fail_connection ec h) (λ _, Agree) w.
Proof.
  intros Hec Hs Hn. unfold fail_connection. apply wlp_bind.
  eapply wlp_mono; [by apply do_close_closes; apply Hs|]. intros [] w1 H1.
  apply connect_result_agrees; [done|]. by eapply closes_agree.
Qed.

Lemma handle_unexpected_disconnect_agrees ec w : Agree w →
  wlp (handle_unexpected_disconnect ec) (λ _, Agree) w.
Proof.
  intros Ha. unfold handle_unexpected_disconnect, getc. apply wlp_bind, wlp_gets.
  destruct (negb _); [done|]. apply wlp_bind.
  eapply wlp_mono; [by apply do_close_closes; apply Ha|]. intros [] w1 H1.
  simpl. unfold reconnecting_on_unexpected_disconnect, base_on_unexpected_disconnect, getr, getc.
  apply wlp_bind, wlp_gets. apply wlp_silent_bind; [by silent|]. intros _ w2 H2.
  assert (Settled w2) as Hs2. { eapply settled_silent; [done|]. eapply closes_settled; [done|apply Ha]. }
  assert (X := si_ext _ _ _ H2). unfold when. case_bool_decide as Hc.
  - apply schedule_reconnect_agrees; [done|]. by rewrite X, Hc.
  - split; [done|]. by rewrite X.
Qed.

(** ** The handlers of the executor thread *)

Lemma set_state_agrees st w :
  Agree w → reconnect_state (ext w) ≠ State.idle → st ≠ ConnectionState.closing →
  (reconnect_state (ext w) = State.connected → st = ConnectionState.connected) →
  Agree (w <| client ::= λ c, c <| state := st |> |>).
Proof. intros [(? & ? & ?) ?] Hi Hc Hst. by split; [split; [|split]|]. Qed.

(** A client that has a connection, or is getting one, is not idle. *)
Lemma agree_not_idle w : Agree w → state (client w) ≠ ConnectionState.disconnected →
  reconnect_state (ext w) ≠ State.idle.
Proof. intros [(_ & Hi & _) _] Hst Hidle. by apply Hst, Hi. Qed.

Lemma agree_connecting w : Agree w → state (client w) = ConnectionState.connecting →
  reconnect_state (ext w) ≠ State.connected.
Proof. intros [_ Hc] Hst Hcon. by rewrite Hc in Hst. Qed.

Lemma do_connect_agrees h w : Agree w → reconnect_state (ext w) = State.connecting →
  wlp (do_connect h) (λ _, Agree) w.
Proof.
  intros Ha Hst. unfold do_connect, getc. apply wlp_bind, wlp_gets.
  destruct (negb _); [by apply connect_result_agrees; [apply is_error_make|]|].
  unfold set_state, modc, lib, log. apply wlp_bind, wlp_modify.
  apply silent_then_agrees; [by silent|by apply set_state_agrees; rewrite ?Hst|]. intros _ w1 H1.
  apply silent_then_agrees; [by silent|done|]. intros _ w2 H2.
  apply wlp_bind, wlp_gets, wlp_bind, wlp_gets, wlp_bind, wlp_modify.
  apply silent_agrees; [by silent|by destruct H2].
Qed.

Lemma handle_connection_ready_agrees g host_ port_ resource_ w : Agree w →
  wlp (handle_connection_ready user_react user_generate g host_ port_ resource_) (λ _, Agree) w.
Proof.
  intros Ha. unfold handle_connection_ready, not_this_attempt, getr, get_self.
  apply wlp_bind, wlp_bind, wlp_gets, wlp_bind, wlp_gets.
  case_bool_decide as Hst; [|by rewrite orb_true_r]. destruct (negb _); [done|]. simpl.
  apply wlp_silent_bind; [by silent|]. intros _ w1 H1.
  apply wlp_silent_bind; [by silent|]. intros _ w2 H2.
  apply wlp_silent_bind; [by silent|]. intros _ w3 H3.
  apply wlp_silent_bind; [by silent|]. intros _ w4 H4.
  apply wlp_silent_bind; [by silent|]. intros _ w5 H5.
  assert (silent w w5) as Hs by (trans w4; [trans w3; [trans w2; [by trans w1|]|]|]; done).
  apply do_connect_agrees; [by eapply agree_silent|by rewrite (si_ext _ _ _ Hs)].
Qed.

(** A handler of the connect phase: skip, fail, or go on as a connecting client. *)
Lemma phase_agrees h ec (k : M W unit) w :
  Agree w →
  (state (client w) = ConnectionState.connecting → wlp k (λ _, Agree) w) →
  wlp (let! skip := not_connecting in
       if (skip : bool) then ret tt else if is_error ec then fail_connection ec h else k) (λ _, Agree) w.
Proof.
  intros Ha Hk. unfold not_connecting, is_connecting, getc.
  apply wlp_bind, wlp_bind, wlp_bind, wlp_gets, wlp_bind, wlp_gets.
  case_bool_decide as Hst; simpl; [|done]. destruct (bool_decide _); [done|].
  destruct (is_error ec) eqn:Hec; [|by apply Hk].
  apply fail_connection_agrees; [done|apply Ha|by apply agree_connecting].
Qed.

Lemma handle_resolve_agrees h ec w : Agree w → wlp (handle_resolve h ec) (λ _, Agree) w.
Proof.
  intros Ha. apply phase_agrees; [done|]. intros _. apply silent_agrees; [|done]. unfold lib. by silent.
Qed.

(** [ERR_get_error()] reports the error of an OpenSSL call that failed. *)
Definition reports_errors (e : environment) : Prop := sni_ok e = false → sni_error e ≠ 0.

Lemma handle_connect_agrees h ec w : Agree w → reports_errors (env w) →
  wlp (handle_connect h ec) (λ _, Agree) w.
Proof.
  intros Ha Hrep. apply phase_agrees; [done|]. intros Hst.
  assert (Hfail : ∀ ec w', silent w w' → is_error ec = true → wlp (fail_connection ec h) (λ _, Agree) w').
  { intros ec' w' Hs Hec. assert (Ha' := agree_silent _ _ Hs Ha).
    apply fail_connection_agrees; [done|apply Ha'|apply agree_connecting; [done|]].
    by rewrite (si_state _ _ _ Hs). }
  unfold lib, gete. apply wlp_silent_bind; [by silent|]. intros s w1 H1.
  apply wlp_bind, wlp_gets. apply wlp_silent_bind; [by silent|]. intros _ w2 H2.
  assert (silent w w2) as H02 by by trans w1.
  destruct (is_error (no_delay_ec _)) eqn:Hnd; [by apply Hfail|].
  apply wlp_silent_bind; [by silent|]. intros _ w3 H3. assert (silent w w3) as H03 by by trans w2.
  apply wlp_silent_bind; [unfold getc; by silent|]. intros hst w3' H3'.
  assert (silent w w3') as H03' by by trans w3.
  apply wlp_bind, wlp_gets, wlp_bind, wlp_gets. apply wlp_silent_bind; [by silent|]. intros _ w4 H4.
  assert (silent w w4) as H04 by by trans w3'.
  destruct (sni_ok _) eqn:Hok; simpl.
  - apply wlp_bind, wlp_gets. apply wlp_silent_bind; [by silent|]. intros _ w5 H5.
    assert (silent w w5) as H05 by by trans w4.
    destruct (is_error (verify_ec _)) eqn:Hv; [by apply Hfail|].
    apply silent_agrees; [by silent|by eapply agree_silent].
  - apply Hfail; [done|]. unfold is_error. simpl. rewrite (si_env _ _ _ H03') in Hok |- *.
    apply negb_true_iff, Z.eqb_neq. by apply Hrep.
Qed.

Lemma handle_ssl_handshake_agrees h ec w : Agree w → wlp (handle_ssl_handshake h ec) (λ _, Agree) w.
Proof.
  intros Ha. apply phase_agrees; [done|]. intros _. apply silent_agrees; [|done].
  unfold lib, getc. by silent.
Qed.

Lemma handle_websocket_handshake_agrees h ec w : Agree w →
  wlp (handle_websocket_handshake h ec) (λ _, Agree) w.
Proof.
  intros Ha. apply phase_agrees; [done|]. intros Hst. unfold set_state, modc at 1.
  apply wlp_bind, wlp_modify, wlp_bind.
  eapply wlp_mono.
  { apply connected_agrees; [|done]. apply set_state_agrees; [done| |done|done].
    by apply agree_not_idle; rewrite ?Hst. }
  intros [] w1 H1. apply silent_agrees; [|done]. unfold gete. by silent.
Qed.

Lemma handle_write_agrees g ec w : Agree w → wlp (handle_write g ec) (λ _, Agree) w.
Proof.
  intros Ha. unfold handle_write, is_connected, getc.
  apply silent_then_agrees; [by silent|done|]. intros g' w1 H1.
  apply silent_then_agrees; [by silent|done|]. intros up w2 H2. destruct (_ || _); [done|].
  apply silent_then_agrees; [by silent|done|]. intros q w3 H3.
  apply silent_then_agrees; [by silent|done|]. intros slot w4 H4.
  apply silent_then_agrees; [by silent|done|]. intros _ w5 H5.
  apply silent_then_agrees; [by silent|done|]. intros q2 w6 H6.
  apply silent_then_agrees; [by silent|done|]. intros q3 w7 H7.
  apply silent_then_agrees; [by silent|done|]. intros _ w8 H8.
  apply silent_then_agrees; [by silent|done|]. intros _ w9 H9.
  apply silent_then_agrees; [by silent|done|]. intros _ w10 H10.
  destruct (is_error ec); [by apply handle_unexpected_disconnect_agrees|by apply silent_agrees; [silent|]].
Qed.

Lemma handle_read_agrees ec w : Agree w → wlp (handle_read ec) (λ _, Agree) w.
Proof.
  intros Ha. unfold handle_read, is_connected, getc, gete.
  apply silent_then_agrees; [by silent|done|]. intros up w1 H1. destruct (negb _); [done|].
  destruct (is_error ec); [by apply handle_unexpected_disconnect_agrees|by apply silent_agrees; [silent|]].
Qed.

Lemma handle_read_timeout_agrees ec w : Agree w → wlp (handle_read_timeout ec) (λ _, Agree) w.
Proof.
  intros Ha. unfold handle_read_timeout, is_connected, getc, gete.
  apply silent_then_agrees; [by silent|done|]. intros up w1 H1.
  apply silent_then_agrees; [by silent|done|]. intros timeout w2 H2. destruct (_ || _); [done|].
  apply silent_then_agrees; [by silent|done|]. intros t w3 H3.
  apply silent_then_agrees; [by silent|done|]. intros d w4 H4.
  destruct (_ <? _); [by apply silent_agrees; [silent|]|by apply handle_unexpected_disconnect_agrees].
Qed.

(** ** The derived class's tasks, and events *)

Lemma stop_reconnecting_settled w : Settled w →
  wlp stop_reconnecting (λ _ w', state (client w') = state (client w) ∧
    reconnect_state (ext w') = State.idle ∧ Forall (own_task True) (posted w')) w.
Proof.
  intros (_ & _ & Hp). unfold stop_reconnecting, set_reconnect_state, modr, getr.
  apply wlp_bind, wlp_modify, wlp_bind, wlp_modify, wlp_silent_bind; [by silent|]. intros _ w1 [X S _ P _].
  apply wlp_bind, wlp_modify, wlp_bind, wlp_modify, wlp_bind, wlp_gets, wlp_modify. simpl.
  split; [exact S|]. rewrite X. auto.
Qed.

Lemma closed_agrees h w :
  state (client w) ≠ ConnectionState.closing → reconnect_state (ext w) = State.idle →
  Forall (own_task True) (posted w) → wlp (do_close h) (λ _, Agree) w.
Proof.
  intros Hc Hi Hp. eapply wlp_mono; [by apply do_close_closes|]. intros [] w' [S [X _ _ P _]].
  simpl in *. split; [split; [by rewrite S|split; [by rewrite S|auto]]|]. by rewrite X, Hi.
Qed.

Lemma start_agrees prepare h w : Agree w → wlp (start user_react user_generate prepare h) (λ _, Agree) w.
Proof.
  intros Ha. unfold start, modr, getr. apply wlp_bind, wlp_gets.
  destruct (negb _); [by apply call_if_agrees|].
  do 2 apply wlp_bind, wlp_modify. do 2 apply wlp_bind, wlp_gets. apply wlp_bind, wlp_modify.
  apply start_connect_attempt_agrees. apply (agree_same w); [done..|]. exact Ha.
Qed.

Lemma run_reconnecting_task_agrees t w : Agree w →
  wlp (run_reconnecting_task user_react user_generate t) (λ _, Agree) w.
Proof.
  intros Ha. destruct t as [p h|h|d|d|g h p r]; simpl.
  - by apply start_agrees.
  - apply wlp_bind. eapply wlp_mono; [apply stop_reconnecting_settled, Ha|].
    intros [] w1 (S & X & P). apply closed_agrees; [|done|done]. rewrite S. apply Ha.
  - unfold set_initial, modr, getr. apply wlp_bind, wlp_modify, wlp_bind, wlp_gets. simpl.
    unfold when. destruct (bool_decide _); by apply (agree_same w).
  - unfold set_max, modr. apply wlp_bind, wlp_modify, wlp_modify. by apply (agree_same w).
  - by apply handle_connection_ready_agrees.
Qed.

Lemma run_reconnecting_wait_agrees x ec w : Agree w →
  wlp (run_reconnecting_wait user_react user_generate x ec) (λ _, Agree) w.
Proof.
  intros Ha. unfold run_reconnecting_wait, handle_reconnect_timer, not_this_attempt, getr.
  apply wlp_bind, wlp_bind, wlp_gets, wlp_bind, wlp_gets, wlp_ret.
  destruct (_ || _); [done|]. apply start_connect_attempt_agrees, Ha.
Qed.

Notation run_task := (run_task (run_reconnecting_task user_react user_generate)).
Notation step := (step (run_reconnecting_task user_react user_generate)
                       (run_reconnecting_wait user_react user_generate)).

Lemma run_task_agrees t w : own_task True t → Agree w → wlp (run_task t) (λ _, Agree) w.
Proof.
  intros Ht Ha. destruct t as [h|m h|h|h|h|h|s|s|t]; simpl in *; try done;
    try (by apply silent_agrees; [unfold is_connected, getc, gete, stop_ping_timer, stop_read_timer; silent|]).
  by apply run_reconnecting_task_agrees.
Qed.

Lemma complete_operation_agrees op c w : Agree w → reports_errors (env w) →
  wlp (complete_operation (run_reconnecting_wait user_react user_generate) op c) (λ _, Agree) w.
Proof.
  intros Ha Hr. destruct op as [h|h s|h s|h s|s|g s|t l]; simpl.
  - by apply handle_resolve_agrees.
  - by apply handle_connect_agrees.
  - by apply handle_ssl_handshake_agrees.
  - by apply handle_websocket_handshake_agrees.
  - apply silent_then_agrees; [by silent|done|]. intros _ w1 H1. by apply handle_read_agrees.
  - by apply handle_write_agrees.
  - unfold Timer.run_wait. destruct (wait_handler l) as [[| |x]|]; simpl; [|..|done].
    + by apply silent_agrees; [silent|].
    + by apply handle_read_timeout_agrees.
    + by apply run_reconnecting_wait_agrees.
Qed.

Definition reporting_action (a : @action R) : Prop :=
  match a with
  | Act_complete _ c => reports_errors (c_env c)
  | _ => True
  end.

Lemma step_agrees a w : reporting_action a → Agree w → wlp (step a) (λ _, Agree) w.
Proof.
  intros Hr Ha. destruct a as [a here|i e|i c]; simpl in *; unfold set_env.
  - apply wlp_bind, wlp_modify, silent_agrees; [|exact Ha].
    apply run_api_silent; [exact any_user|by destruct a as [| | | | | | |[]]].
  - apply wlp_bind, wlp_modify, wlp_bind, wlp_gets. simpl.
    destruct (posted w !! i) as [t|] eqn:Hi; [|exact Ha]. apply wlp_bind, wlp_modify.
    destruct Ha as [(Hc & Hid & Hp) Hcon]. apply run_task_agrees.
    + rewrite Forall_forall in Hp. apply Hp. by eapply list_elem_of_lookup_2.
    + split; [split; [exact Hc|split; [exact Hid|]]|exact Hcon]. simpl.
      rewrite Forall_forall in *. intros t' Hin%elem_of_delete. auto.
  - apply wlp_bind, wlp_modify, wlp_bind, wlp_gets. simpl.
    destruct (pending w !! i) as [op|] eqn:Hi; [|exact Ha]. apply wlp_bind, wlp_modify.
    by apply complete_operation_agrees.
Qed.

Lemma steps_agree acts w : Forall reporting_action acts → Agree w → wlp (run step acts) (λ _, Agree) w.
Proof.
  intros Hacts Ha. apply wlp_for_each; [done|]. intros a w' Hin Ha'.
  apply step_agrees; [|done]. rewrite Forall_forall in Hacts. by apply Hacts.
Qed.
End agree.

(** * A closed client *)

Section off.
Context {Q : Type} `{!FifoQueue WriteSlot Q} `{WriteConfig}.
Context (user_react : list (@event R) → @callback R → list (@api_call R)).
Context (user_generate : list (@event R) → handler → list byte).
Context (Hnever : ∀ t c, Forall (own_api False) (user_react t c)).
Notation W := (@World R Q).
#[local] Instance off_user : User Q := reconnecting_user user_react user_generate.
#[local] Instance off_virtual : Virtual Q := reconnecting_virtual user_react user_generate.
Notation silent := (silent False).
Notation Silent := (Silent False).

Lemma never_user : own_user False off_user.
Proof. by apply reconnecting_own_user. Qed.
#[local] Hint Resolve never_user : silent.

(** Idle, disconnected, with no start posted; [l] is all it did about reconnecting. *)
Record Off (l : list (@event R)) (w : W) : Prop := {
  off_reconnect : reconnect_state (ext w) = State.idle;
  off_state : state (client w) = ConnectionState.disconnected;
  off_posted : Forall (own_task False) (posted w);
  off_events : reconnect_events (trace w) = l;
}.

Lemma silent_off {A} (m : M W A) l w : Silent m → Off l w → wlp m (λ _, Off l) w.
Proof.
  intros Hm []. eapply wlp_mono; [apply Hm|]. intros a w' [X S _ P E].
  split; [by rewrite X|by rewrite S|auto|by rewrite E].
Qed.

(** The handlers of the executor thread stop at their guard. *)
Lemma off_not_connected l w Post : Off l w → Post false w → wlp is_connected Post w.
Proof.
  intros [_ S _ _] HP. unfold is_connected, getc. apply wlp_bind, wlp_gets, wlp_ret.
  by rewrite bool_decide_false by (by rewrite S).
Qed.

Lemma off_phase {A} l (k : M W A) (a : A) w : Off l w →
  wlp (let! skip := not_connecting in if (skip : bool) then ret a else k) (λ _, Off l) w.
Proof.
  intros Ho. unfold not_connecting, is_connecting, getc.
  apply wlp_bind, wlp_bind, wlp_bind, wlp_gets, wlp_ret, wlp_bind, wlp_gets, wlp_ret.
  by rewrite bool_decide_false by (by rewrite (off_state _ _ Ho)).
Qed.

Lemma off_not_this_attempt g st Post (w : W) : reconnect_state (ext w) ≠ st → Post true w →
  wlp (not_this_attempt g st) Post w.
Proof.
  intros Hst HP. unfold not_this_attempt, getr. apply wlp_bind, wlp_gets, wlp_bind, wlp_gets, wlp_ret.
  by rewrite (bool_decide_false (_ = st)), orb_true_r by done.
Qed.

Lemma off_timer l t w ec : Off l w →
  wlp (run_timer_callback (run_reconnecting_wait user_react user_generate) t ec) (λ _, Off l) w.
Proof.
  intros Ho. destruct t as [| |x]; simpl.
  - by apply silent_off; [silent|].
  - unfold handle_read_timeout, getc. apply wlp_bind. apply (off_not_connected l); [done|].
    apply wlp_bind, wlp_gets. by rewrite orb_true_r.
  - unfold run_reconnecting_wait, handle_reconnect_timer. apply wlp_bind.
    apply off_not_this_attempt; [by rewrite (off_reconnect _ _ Ho)|]. by rewrite orb_true_r.
Qed.

Lemma off_operation l op c w : Off l w →
  wlp (complete_operation (run_reconnecting_wait user_react user_generate) op c) (λ _, Off l) w.
Proof.
  intros Ho. destruct op as [h|h s|h s|h s|s|g s|t wl]; simpl; try by apply off_phase.
  - apply wlp_bind. eapply wlp_mono; [by apply (silent_off _ l); [by silent|]|].
    intros [] w1 H1. unfold handle_read. apply wlp_bind. by apply (off_not_connected l).
  - unfold handle_write, getc. apply wlp_bind, wlp_gets, wlp_bind. apply (off_not_connected l); [done|].
    by rewrite orb_true_r.
  - unfold Timer.run_wait. destruct (wait_handler wl); [by apply off_timer|done].
Qed.

Lemma off_ext l f w :
  reconnect_state (f (ext w)) = reconnect_state (ext w) → Off l w → Off l (w <| ext ::= f |>).
Proof. intros Hf []. split; simpl; by rewrite ?Hf. Qed.

Lemma off_do_close l h w : Off l w → wlp (do_close h) (λ _, Off l) w.
Proof.
  intros Ho. unfold do_close, getc. apply wlp_bind, wlp_gets. rewrite (off_state _ _ Ho).
  by apply silent_off; [silent|].
Qed.

Lemma off_task l t w : own_task False t → Off l w →
  wlp (run_task (run_reconnecting_task user_react user_generate) t) (λ _, Off l) w.
Proof.
  intros Ht Ho. destruct t as [h|m h|h|h|h|h|s|s|t]; simpl in *; try done;
    try (by apply silent_off; [unfold is_connected, getc, gete, stop_ping_timer, stop_read_timer; silent|]).
  destruct t as [p h|h|d|d|g hs p r]; simpl in *; [done|..].
  - unfold stop_reconnecting, set_reconnect_state, modr, getr.
    apply wlp_bind, wlp_bind, wlp_modify, wlp_bind, wlp_modify, wlp_bind.
    eapply wlp_mono; [apply (silent_off _ l); [by silent|by destruct Ho]|]. intros [] w1 H1.
    apply wlp_bind, wlp_modify, wlp_bind, wlp_modify, wlp_bind, wlp_gets, wlp_modify.
    apply off_do_close. do 3 (apply off_ext; [done|]). done.
  - unfold set_initial, modr, getr. apply wlp_bind, wlp_modify, wlp_bind, wlp_gets. unfold when.
    destruct (bool_decide _); repeat (apply off_ext; [done|]); done.
  - unfold set_max, modr. apply wlp_bind, wlp_modify, wlp_modify. by repeat (apply off_ext; [done|]).
  - unfold handle_connection_ready. apply wlp_bind.
    apply off_not_this_attempt; [by rewrite (off_reconnect _ _ Ho)|done].
Qed.

(** The user's own calls do not start the client either. *)
Definition never_starts (a : @action R) : Prop :=
  match a with
  | Act_api a _ => own_api False a
  | _ => True
  end.

Lemma step_off l a w : never_starts a → Off l w →
  wlp (step (run_reconnecting_task user_react user_generate)
            (run_reconnecting_wait user_react user_generate) a) (λ _, Off l) w.
Proof.
  intros Ha Ho. destruct a as [a here|i e|i c]; simpl in *; unfold set_env.
  - apply wlp_bind, wlp_modify, silent_off; [|by destruct Ho]. apply run_api_silent; [exact never_user|exact Ha].
  - apply wlp_bind, wlp_modify, wlp_bind, wlp_gets. simpl. destruct Ho.
    destruct (posted w !! i) as [t|] eqn:Hi; [|by split]. apply wlp_bind, wlp_modify, off_task.
    + rewrite Forall_forall in *. by eapply off_posted0, list_elem_of_lookup_2.
    + split; try done. simpl. rewrite Forall_forall in *. intros t' Hin%elem_of_delete. auto.
  - apply wlp_bind, wlp_modify, wlp_bind, wlp_gets. simpl. destruct Ho.
    destruct (pending w !! i) as [op|] eqn:Hi; [|by split]. apply wlp_bind, wlp_modify, off_operation. by split.
Qed.

Lemma steps_off l acts w : Forall never_starts acts → Off l w →
  wlp (run (step (run_reconnecting_task user_react user_generate)
                 (run_reconnecting_wait user_react user_generate)) acts) (λ _, Off l) w.
Proof.
  intros Hacts Ho. apply wlp_for_each; [done|]. intros a w' Hin Ho'.
  apply step_off; [|done]. rewrite Forall_forall in Hacts. by apply Hacts.
Qed.
End off.

(** * Properties *)

Section properties.
Context {Q : Type} `{!FifoQueue WriteSlot Q} `{!FifoQueueLaws WriteSlot Q} `{WriteConfig}.
Context (user_react : list (@event R) → @callback R → list (@api_call R)).
Context (user_generate : list (@event R) → handler → list byte).
Context (Hsane : ∀ t c, Forall sane_api (user_react t c)).
Notation W := (@World R Q).
#[local] Instance prop_user : User Q := reconnecting_user user_react user_generate.
#[local] Instance prop_virtual : Virtual Q := reconnecting_virtual user_react user_generate.
#[local] Instance prop_stable_user : StableUser := reconnecting_stable_user _ _ Hsane.
#[local] Instance prop_stable_virtual : StableVirtual := reconnecting_stable_virtual _ _ Hsane.
#[local] Instance prop_stable_tasks :
  StableTasks (run_reconnecting_task user_react user_generate)
              (run_reconnecting_wait user_react user_generate) := reconnecting_stable_tasks _ _ Hsane.
Notation steps := (steps (run_reconnecting_task user_react user_generate)
                         (run_reconnecting_wait user_react user_generate)).

Definition initial (e : environment) : W := World_init (Reconnecting_init : @ext_state R) e.

Lemma reconnecting_init_ok : @ext_ok R _ Reconnecting_init.
Proof. repeat split; vm_compute; by intros ?. Qed.

Lemma initial_agrees e : Agree (initial e).
Proof. by split; [split; [|split]|]. Qed.

(** A run keeps the base class's invariant, and the agreement. *)
Lemma run_agrees acts e :
  sane_time (now e) → Z.of_nat (length acts) < two64 → Forall sane_action acts →
  Forall reporting_action acts →
  wp (steps acts) (λ _ w, Inv (length acts) w ∧ Agree w) (initial e).
Proof.
  intros He Hlen Hs Hr. apply wp_wlp.
  - apply run_from_init; [exact prop_stable_user|exact prop_stable_virtual|exact prop_stable_tasks
      |exact reconnecting_init_ok|done..].
  - by apply steps_agree; [|apply initial_agrees].
Qed.

(** What a wait of the reconnect timer holds. *)
Definition reconnect_timer_wait (g : Z) : @operation R :=
  Op_wait Ext_timer (Wait (Some (On_ext_timer (On_reconnect_timer g : @ext_wait R)))).

Lemma schedule_reconnect_exact (w : W) :
  reconnect_state (ext w) ≠ State.idle →
  wlp schedule_reconnect (λ _ w', client w' = client w ∧
    ext w' = (ext w) <| reconnect_state := State.waiting_reconnect |>
      <| current_reconnect_delay := Z.min (current_reconnect_delay (ext w) * 2) (max_reconnect_delay (ext w)) |> ∧
    pending w' = pending w ++ [reconnect_timer_wait (connection_generation (ext w))] ∧
    reconnect_events (trace w') = reconnect_events (trace w) ++
      [Ev_lib (L_timer_expires_after Ext_timer (current_reconnect_delay (ext w)))]) w.
Proof.
  intros Hst. unfold schedule_reconnect, is_reconnect_active, getr, set_reconnect_state, modr, checked,
    Timer.expires_after, get_self, shared_from_this, Timer.async_wait.
  apply wlp_bind, wlp_bind, wlp_gets, wlp_ret.
  destruct (reconnect_state (ext w)) eqn:Hs; [done|..]; simpl;
    (apply wlp_bind, wlp_modify, wlp_bind, wlp_gets, wlp_bind, wlp_gets, wlp_bind;
     destruct (in_int64 _); [|done];
     apply wlp_ret, wlp_bind, wlp_gets, wlp_bind, wlp_modify, wlp_bind, wlp_gets, wlp_bind, wlp_modify,
       wlp_bind, wlp_bind, wlp_gets; simpl; destruct (expired w); [done|];
     apply wlp_ret, wlp_modify; simpl; by rewrite reconnect_events_app).
Qed.

(** The lambda of the reconnect timer, when it is the next event. *)
Lemma reconnect_timer_exact (w : W) :
  reconnect_state (ext w) = State.waiting_reconnect →
  wlp (run_reconnecting_wait user_react user_generate
        (On_reconnect_timer (connection_generation (ext w)) : @ext_wait R) no_error) (λ _ w',
    ext w' = (ext w) <| reconnect_state := State.connecting |> <| connection_generation ::= u64_succ |> ∧
    state (client w') = state (client w) ∧
    reconnect_events (trace w') = reconnect_events (trace w) ++
      match prepare_connection (ext w) with
      | Some p => [Ev_call (Call_ext (Call_prepare p (u64_succ (connection_generation (ext w))) : @ext_callback R))]
      | None => []
      end) w.
Proof.
  intros Hst. unfold run_reconnecting_wait, handle_reconnect_timer, not_this_attempt, getr.
  apply wlp_bind, wlp_bind, wlp_gets, wlp_bind, wlp_gets, wlp_ret. simpl. rewrite Z.eqb_refl, Hst. simpl.
  unfold start_connect_attempt, set_reconnect_state, modr, getr, get_self, shared_from_this.
  apply wlp_bind, wlp_modify, wlp_bind, wlp_modify, wlp_bind, wlp_gets, wlp_bind, wlp_bind, wlp_gets.
  simpl. destruct (expired w); [done|]. apply wlp_ret, wlp_bind, wlp_gets. simpl.
  destruct (prepare_connection (ext w)) as [p|]; simpl; [|by rewrite app_nil_r].
  unfold call, log. apply wlp_bind, wlp_modify.
  eapply wlp_mono; [apply (user_reacts_silent True), any_user|].
  intros [] w' [X S _ _ E]. rewrite X, S, E. simpl. by rewrite reconnect_events_app.
Qed.

Lemma reconnecting_wait_total n x ec (w : W) : Queue n w →
  wp (run_reconnecting_wait user_react user_generate x ec) (λ _ _, True) w.
Proof.
  intros Hq. unfold run_reconnecting_wait, handle_reconnect_timer.
  apply wp_bind, not_this_attempt_wp. destruct (_ || _); [done|].
  eapply wp_mono; [by apply (start_connect_attempt_wp _ _ Hsane n (Queue n)); try apply _|done].
Qed.

(** An unexpected disconnect, exactly. *)
Lemma unexpected_disconnect_exact ec w :
  Agree w → reconnect_state (ext w) = State.connected →
  wlp (handle_unexpected_disconnect ec) (λ _ w',
    state (client w') = ConnectionState.disconnected ∧
    ext w' = (ext w) <| reconnect_state := State.waiting_reconnect |>
      <| current_reconnect_delay := Z.min (current_reconnect_delay (ext w) * 2) (max_reconnect_delay (ext w)) |> ∧
    reconnect_timer_wait (connection_generation (ext w)) ∈ pending w' ∧
    reconnect_events (trace w') = reconnect_events (trace w) ++
      [Ev_lib (L_timer_expires_after Ext_timer (current_reconnect_delay (ext w)))]) w.
Proof.
  intros Ha Hr. assert (Hst := proj2 Ha Hr). unfold handle_unexpected_disconnect, getc.
  apply wlp_bind, wlp_gets. rewrite Hst. simpl. apply wlp_bind.
  eapply wlp_mono; [by apply do_close_closes; rewrite Hst|]. intros [] w1 [S1 [X1 _ _ _ E1]].
  simpl in *. unfold reconnecting_on_unexpected_disconnect, base_on_unexpected_disconnect, getr, getc.
  apply wlp_bind, wlp_gets. apply wlp_bind, wlp_bind, wlp_gets.
  eapply wlp_mono; [apply (call_if_silent True (any_user _ _)); done|].
  intros [] w2 [X2 S2 _ _ E2]. rewrite X1, Hr. simpl.
  eapply wlp_mono; [apply schedule_reconnect_exact; by rewrite X2, X1, Hr|].
  intros [] w3 (C3 & X3 & P3 & E3). rewrite C3, X3, P3, E3, S2, S1, E2, E1, X2, X1.
  split; [done|]. split; [done|]. split; [|done]. apply elem_of_app. right. apply list_elem_of_here.
Qed.
(** Losing the connection of [w] with any error, and the reconnect timer firing
    next: the timer is armed for the current delay, which is doubled up to the
    maximum, and a new attempt of a new generation asks for its address. *)
Definition retries (w : W) : Prop := ∀ ec,
  wp (handle_unexpected_disconnect ec) (λ _ w',
    state (client w') = ConnectionState.disconnected ∧
    reconnect_state (ext w') = State.waiting_reconnect ∧
    current_reconnect_delay (ext w') =
      Z.min (current_reconnect_delay (ext w) * 2) (max_reconnect_delay (ext w)) ∧
    reconnect_timer_wait (connection_generation (ext w')) ∈ pending w' ∧
    reconnect_events (trace w') = reconnect_events (trace w) ++
      [Ev_lib (L_timer_expires_after Ext_timer (current_reconnect_delay (ext w)))] ∧
    wp (run_reconnecting_wait user_react user_generate
         (On_reconnect_timer (connection_generation (ext w')) : @ext_wait R) no_error) (λ _ w'',
      reconnect_state (ext w'') = State.connecting ∧
      connection_generation (ext w'') = u64_succ (connection_generation (ext w')) ∧
      reconnect_events (trace w'') = reconnect_events (trace w') ++
        match prepare_connection (ext w') with
        | Some p => [Ev_call (Call_ext
            (Call_prepare p (u64_succ (connection_generation (ext w'))) : @ext_callback R))]
        | None => []
        end) w') w.

(** C32: in every run the two state machines agree, and an unexpected disconnect
    is always retried: from the end of any run with the reconnecting client
    connected, losing the connection leaves it disconnected with the reconnect
    timer armed for the current delay and that delay doubled up to the maximum;
    and if the timer's wait comes next, the user is asked for the address of a
    new attempt, of a new generation. *)
Theorem unexpected_disconnect_is_retried acts e :
  sane_time (now e) → Z.of_nat (length acts) < two64 - 1 → Forall sane_action acts →
  Forall reporting_action acts →
  wp (steps acts) (λ _ w,
    (reconnect_state (ext w) = State.connected → state (client w) = ConnectionState.connected) ∧
    (reconnect_state (ext w) = State.idle → state (client w) = ConnectionState.disconnected) ∧
    (reconnect_state (ext w) = State.connected → retries w)) (initial e).
Proof.
  intros He Hlen Hs Hr. eapply wp_mono; [apply run_agrees; try done; lia|].
  intros [] w [HI Ha]. split; [apply Ha|]. split; [apply Ha|]. intros Hcon ec.
  destruct HI as (Hq & Hacc & Hsh).
  eapply wp_mono.
  { apply wp_wlp; [|by apply unexpected_disconnect_exact].
    apply (handle_unexpected_disconnect_wp (length acts)); try done; by apply Ha. }
  intros [] w' [(Hq' & Hacc' & Hsh') (St & X & P & E)]. rewrite X. simpl.
  repeat (split; [done|]).
  eapply wp_mono.
  { apply wp_wlp; [apply (reconnecting_wait_total (S (length acts))); done|].
    assert (Hx := reconnect_timer_exact w'). rewrite X in Hx. by apply Hx. }
  intros [] w'' (_ & X'' & _ & E''). by rewrite X''.
Qed.

(** C33: a closed client stays closed: once a run has left the reconnecting
    client idle with no start posted, and the callbacks never start it, no
    continuation resolves a host, asks for an address, tells the result of an
    attempt or arms the reconnect timer, whatever handlers, completions and timers of earlier attempts are
    still to come; the connection stays down and the queue empty. *)
Theorem closed_client_stays_closed acts e :
  (∀ t c, Forall (own_api False) (user_react t c)) →
  sane_time (now e) → Z.of_nat (length acts) < two64 → Forall sane_action acts →
  Forall reporting_action acts →
  wp (steps acts) (λ _ w,
    reconnect_state (ext w) = State.idle → Forall (own_task False) (posted w) →
    ∀ acts', Z.of_nat (length (acts ++ acts')) < two64 → Forall sane_action acts' →
      Forall never_starts acts' →
      wp (steps acts') (λ _ w',
        reconnect_state (ext w') = State.idle ∧
        state (client w') = ConnectionState.disconnected ∧ slots w' = [] ∧
        reconnect_events (trace w') = reconnect_events (trace w)) w) (initial e).
Proof.
  intros Hnever He Hlen Hs Hr.
  destruct (wp_ok _ _ _ (run_agrees acts e He Hlen Hs Hr)) as ([] & w & Hw & _ & Ha).
  unfold wp at 1. rewrite Hw. intros Hidle Hposted acts' Hlen' Hs' Hns.
  assert (Off (reconnect_events (trace w)) w) as Hoff by (split; [done|by apply Ha|done|done]).
  eapply wp_mono.
  { apply wp_wlp; [|by apply (steps_off user_react user_generate Hnever)].
    assert (wp (run (step (run_reconnecting_task user_react user_generate)
        (run_reconnecting_wait user_react user_generate)) (acts ++ acts'))
      (λ _, Inv (length (acts ++ acts'))) (initial e)) as Hall.
    { apply run_from_init; [exact prop_stable_user|exact prop_stable_virtual|exact prop_stable_tasks
        |exact reconnecting_init_ok|done|done|by apply Forall_app]. }
    rewrite run_app in Hall. apply wp_bind in Hall. exact (wp_result _ _ _ _ _ Hall Hw). }
  intros [] w' [(_ & _ & Hsh) [X S _ E]]. split; [done|]. split; [done|]. split; [|done].
  apply (sh_quiet _ Hsh). by rewrite S.
Qed.
End properties.

(** * Witnesses *)

Module Established.
Import ReconnectingProgram.

(** A client that connects, and one that is closed after that. *)
Definition established : list (@action R) := [
  api (Rapi_connect (Some 1%nat) (Some 2%nat));
  Act_task 0 Program.env0; Act_task 0 Program.env0;
  Act_complete 0 (Program.done_ []); Act_complete 0 (Program.done_ []);
  Act_complete 0 (Program.done_ []); Act_complete 0 (Program.done_ [])].
Definition closed : list (@action R) := established ++ [
  api (Rapi_close (Some 3%nat)); Act_task 0 Program.env0].
Definition leftovers : list (@action R) := [
  Act_complete 0 (Program.failed operation_canceled); api (Rapi_ready 1 "example.com" "443" "/");
  Act_task 0 Program.env0].

Lemma world_run acts w :
  steps (run_reconnecting_task user_react user_generate)
    (run_reconnecting_wait user_react user_generate) acts world0 = Ok (tt, w) → world acts = w.
Proof. unfold world. by intros ->. Qed.

Lemma never_starts_again t c : Forall (own_api False) (user_react t c).
Proof. by destruct c; repeat constructor. Qed.
Lemma sane_closed : Forall sane_action closed.
Proof. repeat constructor; simpl; try done; unfold sane_time; simpl; lia. Qed.
Lemma sane_leftovers : Forall sane_action leftovers.
Proof. repeat constructor; simpl; try done; unfold sane_time; simpl; lia. Qed.
Lemma reporting_closed : Forall reporting_action closed.
Proof. by repeat constructor. Qed.
End Established.

Section established_witnesses.
Import ReconnectingProgram Established.

Lemma unexpected_disconnect_is_retried_witness :
  reconnect_state (ext (world established)) = State.connected ∧
  retries user_react user_generate (world established).
Proof.
  split; [vm_compute; reflexivity|].
  assert (Hw := unexpected_disconnect_is_retried user_react user_generate user_sane established Program.env0
    Program.sane_env0 eq_refl (proj1 (proj1 (Forall_app _ _ _) sane_closed))
    (proj1 (proj1 (Forall_app _ _ _) reporting_closed))).
  destruct (wp_ok _ _ _ Hw) as ([] & w & Hrun & _ & _ & Hr).
  assert (world established = w) as E by exact (world_run established w Hrun).
  rewrite E. apply Hr. rewrite <- E. vm_compute. reflexivity.
Defined.

Lemma closed_client_stays_closed_witness :
  wp (steps (run_reconnecting_task user_react user_generate)
       (run_reconnecting_wait user_react user_generate) leftovers) (λ _ w',
    reconnect_state (ext w') = State.idle ∧
    state (client w') = ConnectionState.disconnected ∧ slots w' = [] ∧
    reconnect_events (trace w') = reconnect_events (trace (world closed))) (world closed).
Proof.
  assert (Hw := closed_client_stays_closed user_react user_generate user_sane closed Program.env0
    never_starts_again Program.sane_env0 eq_refl sane_closed reporting_closed).
  destruct (wp_ok _ _ _ Hw) as ([] & w & Hrun & Hstay).
  assert (world closed = w) as E by exact (world_run closed w Hrun).
  rewrite <- E in Hstay. apply Hstay.
  - vm_compute. reflexivity.
  - vm_compute. repeat constructor.
  - vm_compute. reflexivity.
  - exact sane_leftovers.
  - by repeat constructor.
Defined.
(** The user calls the ready handler of an attempt twice: the second call fails
    the attempt that the first one started, whose connection then belongs to
    nobody; when the reconnect timer fires, the next attempt fails as well. *)
Definition ready_twice : list (@action R) := [
  api (Rapi_connect (Some 1%nat) (Some 2%nat)); Act_task 0 Program.env0;
  api (Rapi_ready 1 "example.com" "443" "/");
  Act_task 0 Program.env0; Act_task 0 Program.env0;
  Act_complete 0 (Program.done_ []); Act_complete 1 (Program.done_ []);
  Act_complete 1 (Program.done_ []); Act_complete 1 (Program.done_ [])].

Theorem second_ready_call_disowns_the_connection :
  let w := world ready_twice in
  state (client w) = ConnectionState.connected ∧
  reconnect_state (ext w) = State.waiting_reconnect ∧
  let w' := world (ready_twice ++ [Act_complete 0 (Program.done_ []); Act_task 0 Program.env0]) in
  state (client w') = ConnectionState.connected ∧
  reconnect_state (ext w') = State.waiting_reconnect ∧ connection_generation (ext w') = 2.
Proof. vm_compute. auto 10. Qed.
End established_witnesses.
