(* ===== verification/ReconnectingLiveness.v ===== *)
(** How the reconnecting client gets a lost connection back.

    A [try] is what the user, the network and the clock contribute to one round:
    the address that the user's ready handler is given, the time, and how the
    operations of the attempt complete.  [rounds] is the schedule of a sequence
    of tries: the reconnect timer fires, the user calls the ready handler, its
    task runs, and the operations complete up to the first failure.
    [lost_connection_comes_back] runs any number of failing rounds and a
    successful one, after a read that fails. *)

From S2P Require Import Prelude RingBuffer Timer SecureWebSocketClient WriteQueue.
From S2P Require Import WebSocketSafety WebSocketProperties WebSocketAttempts WebSocketConnect.
From S2P Require Import ReconnectingClient ReconnectingSafety.

(** * Rounds *)

Record try := {
  t_host : string;
  t_port : string;
  t_resource : string;
  t_env : environment;
  t_completions : list completion;
}.

Definition sane_try (t : try) : Prop :=
  sane_time (now (t_env t)) ∧ length (t_completions t) = 4%nat ∧
  Forall (λ c, sane_time (now (c_env c)) ∧ reports_errors (c_env c)) (t_completions t).

(** How the attempt of the round ends. *)
Definition try_failure (t : try) : option error_code :=
  attempt_failure (stages (None : @ConnectHandler R) 0) (t_completions t).

(** The events of a round whose attempt has the generation [g]; the indices are
    those of the timer's wait, of the task and of the attempt's operation. *)
Definition round_of (g : Z) (t : try) (acts : list (@action R)) : Prop :=
  ∃ j i k, acts =
    Act_complete j {| c_ec := no_error; c_data := []; c_env := t_env t |} ::
    Act_api (Api_ext (Rapi_ready g (t_host t) (t_port t) (t_resource t) : @ext_api R)) true ::
    Act_task i (t_env t) ::
    (Act_complete k <$> until_failure (stages (None : @ConnectHandler R) 0) (t_completions t)).

Fixpoint rounds (g : Z) (ts : list try) (acts : list (@action R)) : Prop :=
  match ts with
  | [] => acts = []
  | t :: ts => ∃ acts1 acts2, acts = acts1 ++ acts2 ∧
      round_of (u64_succ g) t acts1 ∧ rounds (u64_succ g) ts acts2
  end.

(** What is seen of a round: the user is asked for an address, and the host is
    resolved. *)
Definition asks (p : handler) (g : Z) (t : try) : list (@event R) :=
  [Ev_call (Call_ext (Call_prepare p g : @ext_callback R)); Ev_lib (L_async_resolve (t_host t) (t_port t))].
(** ... and the user's handler is told how the attempt ended. *)
Definition told (x : Reconnecting) (ec : error_code) : list (@event R) :=
  match connect_handler x with Some h => [Ev_call (Call_connect h ec)] | None => [] end.
Definition armed (d : Z) : @event R := Ev_lib (L_timer_expires_after Ext_timer d).

(** The state of the derived class while a round waits for its timer, and in
    the round. *)
Definition retried (x : Reconnecting) : Reconnecting :=
  x <| reconnect_state := State.waiting_reconnect |>
    <| current_reconnect_delay := Z.min (current_reconnect_delay x * 2) (max_reconnect_delay x) |>.
Definition tried (x : Reconnecting) : Reconnecting :=
  x <| reconnect_state := State.connecting |> <| connection_generation ::= u64_succ |>.
Definition made (x : Reconnecting) : Reconnecting :=
  x <| current_reconnect_delay := initial_reconnect_delay x |> <| reconnect_state := State.connected |>.

(** What is seen of a round from [x] on. *)
Definition round_events (p : handler) (x : Reconnecting) (t : try) : list (@event R) :=
  asks p (connection_generation (tried x)) t ++ told x (default no_error (try_failure t)).

(** ... and of a sequence of failing rounds. *)
Fixpoint failing_events (p : handler) (x : Reconnecting) (ts : list try) : list (@event R) :=
  match ts with
  | [] => []
  | t :: ts => round_events p x t ++ [armed (current_reconnect_delay x)] ++
      failing_events p (retried (tried x)) ts
  end.

Definition after_failures (n : nat) (x : Reconnecting) : Reconnecting :=
  Nat.iter n (λ x, retried (tried x)) x.

Lemma after_failures_S n x : after_failures (S n) x = after_failures n (retried (tried x)).
Proof. exact (Nat.iter_succ_r n (λ x, retried (tried x)) x). Qed.

(** Failing changes the delay and the generation. *)
Lemma after_failures_same n x :
  reconnect_state x = State.waiting_reconnect →
  let x' := after_failures n x in
  reconnect_state x' = State.waiting_reconnect ∧ prepare_connection x' = prepare_connection x ∧
  initial_reconnect_delay x' = initial_reconnect_delay x ∧
  connection_generation x' = Nat.iter n u64_succ (connection_generation x).
Proof. intros Hx. induction n as [|n (? & ? & ? & Hg)]; [done|]. simpl. by rewrite <- Hg. Qed.

Lemma rounds_snoc t acts' : ∀ ts g acts,
  rounds g ts acts → round_of (u64_succ (Nat.iter (length ts) u64_succ g)) t acts' →
  rounds g (ts ++ [t]) (acts ++ acts').
Proof.
  induction ts as [|t' ts IH]; intros g acts Hr Ht.
  - simpl in *. subst. exists acts', []. by rewrite app_nil_r.
  - destruct Hr as (a1 & a2 & -> & H1 & H2). exists a1, (a2 ++ acts').
    split; [by rewrite app_assoc|]. split; [done|]. apply IH; [done|].
    by rewrite <- (Nat.iter_succ_r (length ts) u64_succ g).
Qed.

Lemma reconnect_events_scripts h s host resource es :
  es `prefix_of` scripts (stages h s) s host resource → reconnect_events es = [].
Proof.
  intros [k E]. assert (reconnect_events (scripts (stages h s) s host resource) = []) as Hs by done.
  rewrite E, reconnect_events_app in Hs. by apply app_eq_nil in Hs as [? _].
Qed.

Lemma until_failure_any h s h' s' cs :
  @until_failure R (stages h s) cs = until_failure (stages h' s') cs.
Proof. by destruct cs as [|? [|? [|? [|? []]]]]. Qed.

(** An attempt fails with an error, when OpenSSL reports those of its failures. *)
Lemma attempt_failure_is_error (ops : list (@operation R)) cs ec :
  Forall (λ c, reports_errors (c_env c)) cs → attempt_failure ops cs = Some ec → is_error ec = true.
Proof.
  revert ops. induction cs as [|c cs IH]; intros [|op ops] Hcs Hf; try done.
  apply Forall_cons in Hcs as [Hc Hcs]. simpl in Hf.
  destruct (stage_failure op c) as [ec'|] eqn:Hs; [|by eapply IH]. injection Hf as ->.
  unfold stage_failure, failed_with, reports_errors in *.
  destruct (is_error (c_ec c)) eqn:E1; simpl in Hs; [congruence|].
  destruct op; try done. destruct (is_error (no_delay_ec _)) eqn:E2; simpl in Hs; [congruence|].
  destruct (sni_ok _); simpl in Hs.
  - destruct (is_error (verify_ec _)) eqn:E3; [congruence|done].
  - injection Hs as <-. unfold is_error. simpl. by apply negb_true_iff, Z.eqb_neq, Hc.
Qed.

(** * The steps of a round *)

Section rounds.
Context {Q : Type} `{!FifoQueue WriteSlot Q} `{!FifoQueueLaws WriteSlot Q} `{WriteConfig}.
Context (user_react : list (@event R) → @callback R → list (@api_call R)).
Context (user_generate : list (@event R) → handler → list byte).
Context (Hsane : ∀ t c, Forall sane_api (user_react t c)).
Notation W := (@World R Q).
#[local] Instance live_user : User Q := reconnecting_user user_react user_generate.
#[local] Instance live_virtual : Virtual Q := reconnecting_virtual user_react user_generate.
#[local] Instance live_stable_user : StableUser := reconnecting_stable_user _ _ Hsane.
#[local] Instance live_stable_virtual : StableVirtual := reconnecting_stable_virtual _ _ Hsane.
#[local] Instance live_stable_tasks :
  StableTasks (run_reconnecting_task user_react user_generate)
              (run_reconnecting_wait user_react user_generate) := reconnecting_stable_tasks _ _ Hsane.
Notation step := (step (run_reconnecting_task user_react user_generate)
                       (run_reconnecting_wait user_react user_generate)).
Notation steps := (steps (run_reconnecting_task user_react user_generate)
                         (run_reconnecting_wait user_react user_generate)).
Notation any_user := (any_user user_react user_generate).

(** The client is disconnected, its derived class is in the state [x], and [es]
    is what it did about reconnecting. *)
Record Down (x : Reconnecting) (es : list (@event R)) (w : W) : Prop := {
  dn_state : state (client w) = ConnectionState.disconnected;
  dn_ext : ext w = x;
  dn_events : reconnect_events (trace w) = es;
}.

(** ... and its timer runs. *)
Definition Armed (x : Reconnecting) (es : list (@event R)) (w : W) : Prop :=
  Down x es w ∧ reconnect_timer_wait (connection_generation x) ∈ pending w.

Definition attempt_lambda (x : Reconnecting) : @connect_lambda R := On_connect_result (connection_generation x).

(** The timer fires. *)
Lemma timer_fires n w x es j e p :
  Z.of_nat n < two64 - 1 → Inv n w → Down x es w → reconnect_state x = State.waiting_reconnect →
  prepare_connection x = Some p → sane_time (now e) →
  pending w !! j = Some (reconnect_timer_wait (connection_generation x)) →
  wp (step (Act_complete j {| c_ec := no_error; c_data := []; c_env := e |})) (λ _ w', Inv (S n) w' ∧
    Down (tried x) (es ++ [Ev_call (Call_ext
      (Call_prepare p (connection_generation (tried x)) : @ext_callback R))]) w') w.
Proof.
  intros Hn HI [Hst <- <-] Hx Hp Hnow Hj. apply wp_wlp; [by apply (step_inv _ _ n)|].
  simpl. unfold set_env. apply wlp_bind, wlp_modify, wlp_bind, wlp_gets. simpl.
  rewrite Hj. apply wlp_bind, wlp_modify. unfold reconnect_timer_wait, Timer.run_wait. simpl.
  match goal with |- wlp _ _ ?w1 => eapply wlp_mono; [exact (reconnect_timer_exact user_react user_generate w1 Hx)|] end.
  intros [] w' (X & S & E). split; [by rewrite S|by rewrite X|]. rewrite E. simpl. by rewrite Hp.
Qed.

(** The user calls the ready handler. *)
Lemma ready_is_posted n w x es g host0 port0 resource0 :
  Z.of_nat n < two64 - 1 → Inv n w → Down x es w →
  wp (step (Act_api (Api_ext (Rapi_ready g host0 port0 resource0 : @ext_api R)) true)) (λ _ w', Inv (S n) w' ∧
    Down x es w' ∧
    posted w' = posted w ++ [Task_ext (Task_ready g host0 port0 resource0 : @ext_task R)]) w.
Proof.
  intros Hn HI [Hst Hx He]. apply wp_wlp; [by apply (step_inv _ _ n)|].
  simpl. unfold post_ext, executor_post. apply wlp_bind, wlp_modify, wlp_modify. by split; [split|].
Qed.

(** Its task starts the attempt. *)
Lemma ready_starts n w x es i e host0 port0 resource0 :
  Z.of_nat n < two64 - 1 → Inv n w → Down x es w → reconnect_state x = State.connecting →
  sane_time (now e) →
  posted w !! i = Some (Task_ext (Task_ready (connection_generation x) host0 port0 resource0 : @ext_task R)) →
  wp (step (Act_task i e)) (λ _ w', Inv (S n) w' ∧ ∃ t,
    Attempt x (next_stream w) host0 resource0 (pending w ++ [Op_resolve (Some (attempt_lambda x))]) t w' ∧
    reconnect_events t = es ++ [Ev_lib (L_async_resolve host0 port0)]) w.
Proof.
  intros Hn HI [Hst <- <-] Hx Hnow Hi. apply wp_wlp; [by apply (step_inv _ _ n)|].
  assert (expired w = false) as He by (eapply queue_alive, HI).
  simpl. unfold set_env. apply wlp_bind, wlp_modify, wlp_bind, wlp_gets. simpl.
  rewrite Hi. apply wlp_bind, wlp_modify. simpl.
  unfold handle_connection_ready, not_this_attempt, getr, modc, get_self, shared_from_this, log. walk.
  rewrite Z.eqb_refl. simpl. walk.
  match goal with |- wlp _ _ ?w1 => eapply wlp_mono; [exact (do_connect_starts _ w1 Hst eq_refl)|] end.
  intros [] w' Hat. eexists. split; [exact Hat|]. simpl. by rewrite !reconnect_events_app, app_nil_r.
Qed.

(** The end of an attempt that fails: the timer is armed again. *)
Lemma fail_connection_exact x ec w :
  state (client w) = ConnectionState.connecting → ext w = x → reconnect_state x = State.connecting →
  is_error ec = true →
  wlp (fail_connection ec (Some (attempt_lambda x))) (λ _,
    Armed (retried x) (reconnect_events (trace w) ++ told x ec ++ [armed (current_reconnect_delay x)])) w.
Proof.
  intros Hst Hx Hr Hec. unfold fail_connection. apply wlp_bind.
  eapply wlp_mono; [apply do_close_closes; by rewrite Hst|]. intros [] w1 [S1 [X1 _ _ _ E1]]. simpl in *.
  apply wlp_bind. eapply wlp_mono; [by apply (silent_log True (Ev_connect_result (attempt_lambda x) ec))|].
  intros [] w2 [X2 S2 _ _ E2]. simpl. unfold handle_connect_result, not_this_attempt, getr.
  apply wlp_bind, wlp_bind, wlp_gets, wlp_bind, wlp_gets, wlp_ret. rewrite X2, X1, Hx, Hr, Z.eqb_refl. simpl.
  apply wlp_bind, wlp_gets. rewrite Hec. apply wlp_bind.
  eapply wlp_mono; [apply call_if_logs|]. intros [] w3 [X3 S3 _ _ E3]. simpl in *.
  rewrite X2, X1, Hx, reconnect_events_app in E3.
  assert (reconnect_events (told x ec) = told x ec) as Et by (unfold told; by destruct (connect_handler x)).
  assert (ext w3 = x) as X by congruence.
  eapply wlp_mono; [apply schedule_reconnect_exact; by rewrite X, Hr|].
  intros [] w4 (C4 & X4 & P4 & E4). rewrite X in *. split; [split|].
  - by rewrite C4, S3, S2, S1.
  - exact X4.
  - rewrite E4, E3, E2, E1. unfold told in Et. by rewrite Et, <- app_assoc.
  - rewrite P4. apply elem_of_app. right. by apply list_elem_of_singleton.
Qed.

(** What a client does first on a connection. *)
Lemma connected_silent : Silent True (let! t := gete now in modc (λ c, c <| last_read_time := t |>) ;;;
  start_read_timer ;;; start_read ;;; start_ping_timer : M W unit).
Proof. unfold gete. silent. Qed.

(** ... and of one that succeeds: the derived class is connected, and its delay
    starts afresh. *)
Lemma handshake_exact x s ec w :
  state (client w) = ConnectionState.connecting → ws (client w) = Some s → ext w = x →
  reconnect_state x = State.connecting → is_error ec = false →
  wlp (handle_websocket_handshake (Some (attempt_lambda x)) ec) (λ _ w',
    state (client w') = ConnectionState.connected ∧ ext w' = made x ∧
    reconnect_events (trace w') = reconnect_events (trace w) ++ told x no_error) w.
Proof.
  intros Hst Hs Hx Hr Hec. unfold handle_websocket_handshake, not_connecting, is_connecting, getc.
  apply wlp_bind, wlp_bind, wlp_bind, wlp_gets, wlp_ret, wlp_bind, wlp_gets, wlp_ret.
  rewrite Hst, Hs. simpl. rewrite Hec. unfold set_state, modc at 1. apply wlp_bind, wlp_modify. simpl.
  apply wlp_bind, wlp_bind.
  eapply wlp_mono; [by apply (silent_log True (Ev_connect_result (attempt_lambda x) no_error))|].
  intros [] w1 [X1 S1 _ _ E1]. simpl in *. unfold handle_connect_result, not_this_attempt, getr.
  apply wlp_bind, wlp_bind, wlp_gets, wlp_bind, wlp_gets, wlp_ret. rewrite X1, Hx, Hr, Z.eqb_refl. simpl.
  apply wlp_bind, wlp_gets, wlp_bind, wlp_gets. unfold set_reconnect_state, modr.
  apply wlp_bind, wlp_modify, wlp_bind, wlp_modify.
  eapply wlp_mono; [apply call_if_logs|]. intros [] w3 [X3 S3 _ _ E3]. simpl in *.
  eapply wlp_mono; [apply connected_silent|]. intros [] w4 [X4 S4 _ _ E4].
  rewrite X4, X3, S4, S3, E4, E3. simpl. rewrite reconnect_events_app, S1, X1, E1, Hx.
  split; [done|]. split; [done|]. unfold told. by destruct (connect_handler x).
Qed.

(** The client is connected and reads from its stream, and its derived class is
    connected, in the state [x]. *)
Definition Reading (w : W) : Prop := ∃ s, ws (client w) = Some s ∧ Op_read s ∈ pending w.
Definition Up (x : Reconnecting) (es : list (@event R)) (w : W) : Prop :=
  state (client w) = ConnectionState.connected ∧ ext w = x ∧ reconnect_events (trace w) = es ∧ Reading w.

(** How a round in the state [x] ends. *)
Definition Ended (x : Reconnecting) (es : list (@event R)) (failure : option error_code) (w : W) : Prop :=
  match failure with
  | Some ec => Armed (retried x) (es ++ told x ec ++ [armed (current_reconnect_delay x)]) w
  | None => Up (made x) (es ++ told x no_error) w
  end.

Lemma until_failure_length (os : list (@operation R)) cs :
  (length (until_failure os cs) ≤ length cs)%nat.
Proof.
  revert os. induction cs as [|c cs IH]; intros [|op os]; simpl; try lia.
  destruct (stage_failure op c); simpl; [lia|]. specialize (IH os). lia.
Qed.

Lemma until_failure_Forall (P : completion → Prop) (os : list (@operation R)) cs :
  Forall P cs → Forall P (until_failure os cs).
Proof.
  intros Hcs. revert os. induction Hcs as [|c cs Hc Hcs IH]; intros [|op os]; simpl; try by constructor.
  constructor; [done|]. by destruct (stage_failure op c).
Qed.

Lemma attempt_round n x s host0 resource0 ops t0 cs w :
  Z.of_nat (n + 4) < two64 - 1 → Inv n w →
  Attempt x s host0 resource0 (ops ++ [Op_resolve (Some (attempt_lambda x))]) t0 w →
  reconnect_state x = State.connecting → length cs = 4%nat →
  Forall (λ c, sane_time (now (c_env c)) ∧ reports_errors (c_env c)) cs →
  wp (steps (Act_complete (length ops) <$> until_failure (stages (None : @ConnectHandler R) 0) cs)) (λ _ w',
    Inv (n + 4) w' ∧
    Ended x (reconnect_events t0) (attempt_failure (stages (None : @ConnectHandler R) 0) cs) w') w.
Proof.
  intros Hn HI Hat Hx Hlen Hcs. apply Forall_and in Hcs as [Hnow Hrep].
  set (l := attempt_lambda x) in *. set (es := reconnect_events t0).
  rewrite (until_failure_any None 0 (Some l) s), (attempt_failure_any None 0 (Some l) s). apply wp_and.
  { assert (Hl := until_failure_length (stages (Some l) s) cs).
    eapply wp_mono; [apply (steps_inv_from _ _ n); [rewrite length_fmap; lia| |done]|].
    - apply Forall_fmap. eapply Forall_impl; [by apply until_failure_Forall, Hnow|done].
    - intros [] w'. rewrite length_fmap. apply inv_mono. lia. }
  set (Post := λ o (w' : W), match o with
    | Some ec => is_error ec = true →
        Armed (retried x) (es ++ told x ec ++ [armed (current_reconnect_delay x)]) w'
    | None => Up (made x) (es ++ told x no_error) w' end).
  apply (wp_mono _ (λ _, Post (attempt_failure (stages (Some l) s) cs))).
  - apply (attempt_runs _ _ x l s host0 resource0 ops t0 Post) with (n := n); try done; [..|lia].
    + intros n' ec es' w' Hn' Hq Hc Hx' Ht Hes. eapply wp_mono.
      { apply (wp_wlp _ (λ _, Inv (S n')) (λ _ w'', is_error ec = true →
          Armed (retried x) (es ++ told x ec ++ [armed (current_reconnect_delay x)]) w''));
          [by apply fail_connecting_wp|].
        destruct (is_error ec) eqn:Hec; [|unfold wlp; by destruct (fail_connection _ _ _) as [[]|]].
        eapply wlp_mono; [by apply (fail_connection_exact x); [apply Hc|..]|]. intros [] w'' Ha _.
        by rewrite Ht, reconnect_events_app, (reconnect_events_scripts _ _ _ _ _ Hes), app_nil_r in Ha. }
      by intros [] w'' [_ ?].
    + intros n' ec w' Hn' Ht [] Hec. eapply wp_mono.
      { apply wp_wlp; [by apply (websocket_handshake_succeeds n' l s)|by apply (handshake_exact x s)]. }
      intros [] w'' (([_ ?] & ? & _) & ? & ? & E). do 2 (split; [done|]). split; [|by exists s].
      rewrite E, at_trace, reconnect_events_app.
      by rewrite (reconnect_events_scripts _ _ _ _ _ (reflexivity _)), app_nil_r.
  - intros [] w'. unfold Ended, Post. destruct (attempt_failure _ _) as [ec|] eqn:Hf; [|done].
    intros Ha. by eapply Ha, attempt_failure_is_error.
Qed.

(** A round, from the timer to the end of its attempt. *)
Lemma round_runs n w x es p t :
  Z.of_nat (n + 7) < two64 - 1 → Inv n w → Armed x es w → reconnect_state x = State.waiting_reconnect →
  prepare_connection x = Some p → sane_try t →
  ∃ acts, round_of (u64_succ (connection_generation x)) t acts ∧
    wp (steps acts) (λ _ w', Inv (n + 7) w' ∧
      Ended (tried x) (es ++ asks p (connection_generation (tried x)) t) (try_failure t) w') w.
Proof.
  intros Hn HI [Hd [j Hj]%list_elem_of_lookup] Hx Hp (Hnow & Hlen & Hcs).
  destruct (wp_ok _ _ _ (timer_fires n w x es j (t_env t) p ltac:(lia) HI Hd Hx Hp Hnow Hj))
    as ([] & w1 & H1 & HI1 & Hd1).
  destruct (wp_ok _ _ _ (ready_is_posted (S n) w1 _ _ (u64_succ (connection_generation x)) (t_host t) (t_port t)
    (t_resource t) ltac:(lia) HI1 Hd1)) as ([] & w2 & H2 & HI2 & Hd2 & Hp2).
  assert (posted w2 !! length (posted w1) = Some (Task_ext
    (Task_ready (connection_generation (tried x)) (t_host t) (t_port t) (t_resource t) : @ext_task R))) as Hi
    by (rewrite Hp2; by apply list_lookup_middle).
  destruct (wp_ok _ _ _ (ready_starts (S (S n)) w2 (tried x) _ _ (t_env t) _ _ _ ltac:(lia) HI2 Hd2 eq_refl Hnow Hi))
    as ([] & w3 & H3 & HI3 & t3 & Hat & Et).
  eexists. split; [by exists j, (length (posted w1)), (length (pending w2))|].
  apply steps_cons. unfold wp at 1. rewrite H1. apply steps_cons. unfold wp at 1. rewrite H2.
  apply steps_cons. unfold wp at 1. rewrite H3.
  eapply wp_mono; [apply (attempt_round (S (S (S n))) (tried x) (next_stream w2) (t_host t) (t_resource t) (pending w2) t3); try done; lia|].
  intros [] w' [HI' He]. split; [by replace (n + 7)%nat with (S (S (S n)) + 4)%nat by lia|].
  by rewrite Et, <- app_assoc in He.
Qed.

(** Failing rounds. *)
Lemma failing_rounds ts : ∀ n w x es p,
  Z.of_nat (n + 7 * length ts) < two64 - 1 → Inv n w → Armed x es w →
  reconnect_state x = State.waiting_reconnect → prepare_connection x = Some p →
  Forall sane_try ts → Forall (λ t, try_failure t ≠ None) ts →
  ∃ acts, rounds (connection_generation x) ts acts ∧
    wp (steps acts) (λ _ w', Inv (n + 7 * length ts) w' ∧
      Armed (after_failures (length ts) x) (es ++ failing_events p x ts) w') w.
Proof.
  induction ts as [|t ts IH]; intros n w x es p Hn HI Ha Hx Hp Hs Hf; simpl in Hn.
  { exists []. split; [done|]. apply wp_ret. by rewrite Nat.add_0_r, app_nil_r. }
  apply Forall_cons in Hs as [Ht Hs]. apply Forall_cons in Hf as [Hft Hf].
  destruct (round_runs n w x es p t ltac:(lia) HI Ha Hx Hp Ht) as (acts1 & Hr1 & Hw1).
  destruct (wp_ok _ _ _ Hw1) as ([] & w1 & H1 & HI1 & He1).
  destruct (try_failure t) as [ec|] eqn:Htf; [|done].
  destruct (IH (n + 7)%nat w1 (retried (tried x)) _ p ltac:(lia) HI1 He1 eq_refl Hp Hs Hf) as (acts2 & Hr2 & Hw2).
  exists (acts1 ++ acts2). split; [by exists acts1, acts2|].
  unfold steps, WebSocketSafety.steps. rewrite run_app. apply wp_bind. unfold wp at 1.
  change (run step acts1 w) with (steps acts1 w). rewrite H1. eapply wp_mono; [exact Hw2|].
  intros [] w' [HI' Ha']. split; [by replace (n + 7 * length (t :: ts))%nat with (n + 7 + 7 * length ts)%nat by (simpl; lia)|].
  cbn [length failing_events]. rewrite after_failures_S. unfold round_events. rewrite Htf.
  by rewrite <- !app_assoc in *.
Qed.

(** A read fails on a connected client. *)
Lemma read_fails n w i s c :
  Z.of_nat n < two64 - 1 → Inv n w → Agree w → reconnect_state (ext w) = State.connected →
  pending w !! i = Some (Op_read s) → is_error (c_ec c) = true → sane_time (now (c_env c)) →
  wp (step (Act_complete i c)) (λ _ w', Inv (S n) w' ∧
    Armed (retried (ext w)) (reconnect_events (trace w) ++ [armed (current_reconnect_delay (ext w))]) w') w.
Proof.
  intros Hn HI Ha Hr Hi Hec Hnow. apply wp_wlp; [by apply (step_inv _ _ n)|].
  simpl. unfold set_env. apply wlp_bind, wlp_modify, wlp_bind, wlp_gets. simpl.
  rewrite Hi. apply wlp_bind, wlp_modify. simpl. unfold modc. apply wlp_bind, wlp_modify.
  match goal with |- wlp _ _ ?w1 => assert (Agree w1) as Ha1 by exact Ha; assert (Hst := proj2 Ha1 Hr) end.
  unfold handle_read, is_connected, getc. apply wlp_bind, wlp_bind, wlp_gets, wlp_ret.
  rewrite Hst. simpl. rewrite Hec.
  eapply wlp_mono; [by apply unexpected_disconnect_exact|]. intros [] w' (S & X & P & E). by split.
Qed.
(** * Property *)

(** The connection of [w] is lost to a read that fails, the tries [failing] fail
    and [last] does not: there is a schedule of these rounds, and it ends with a
    connection. *)
Definition comes_back (n : nat) (w : W) : Prop := ∀ i s c p failing last,
  let x := retried (ext w) in
  prepare_connection (ext w) = Some p → pending w !! i = Some (Op_read s) →
  is_error (c_ec c) = true → sane_time (now (c_env c)) →
  Forall sane_try failing → Forall (λ t, try_failure t ≠ None) failing →
  sane_try last → try_failure last = None →
  Z.of_nat (n + 7 * length failing + 8) < two64 - 1 →
  ∃ acts', rounds (connection_generation (ext w)) (failing ++ [last]) acts' ∧
    wp (steps (Act_complete i c :: acts')) (λ _ w',
      state (client w') = ConnectionState.connected ∧
      reconnect_state (ext w') = State.connected ∧
      current_reconnect_delay (ext w') = initial_reconnect_delay (ext w) ∧
      Reading w' ∧
      reconnect_events (trace w') = reconnect_events (trace w) ++
        [armed (current_reconnect_delay (ext w))] ++ failing_events p x failing ++
        round_events p (after_failures (length failing) x) last) w.

(** C11: a lost connection comes back: at the end of any run with the reconnecting
    client connected, if a read fails, then any number of tries fail, at any of
    their stages, and one succeeds, both state machines are connected again
    and the delay starts afresh, and a read is pending on the new stream;
    meanwhile, for each try in turn, the user was asked for an address, with a
    new generation, that address was resolved, the user's connect handler was
    told once how the attempt ended, with the error of the stage that failed,
    and the timer was armed with the delays from the current one on, doubled up
    to the maximum. *)
Theorem lost_connection_comes_back acts e :
  sane_time (now e) → Forall sane_action acts → Forall reporting_action acts →
  Z.of_nat (length acts) < two64 →
  wp (steps acts) (λ _ w, reconnect_state (ext w) = State.connected → comes_back (length acts) w) (initial e).
Proof.
  intros He Hs Hr Hlen. eapply wp_mono; [by apply run_agrees|].
  intros [] w [HI Ha] Hcon i s c p failing last x Hp Hi Hec Hnow Hfs Hff Hls Hlf Hn.
  destruct (wp_ok _ _ _ (read_fails (length acts) w i s c ltac:(lia) HI Ha Hcon Hi Hec Hnow))
    as ([] & w1 & H1 & HI1 & Ha1).
  destruct (failing_rounds failing (S (length acts)) w1 x _ p ltac:(lia) HI1 Ha1 eq_refl Hp Hfs Hff)
    as (acts1 & Hr1 & Hw1).
  destruct (wp_ok _ _ _ Hw1) as ([] & w2 & H2 & HI2 & Ha2).
  destruct (after_failures_same (length failing) x eq_refl) as (Hx & Hxp & Hxi & Hxg).
  destruct (round_runs (S (length acts) + 7 * length failing) w2 _ _ p last ltac:(lia) HI2 Ha2 Hx
    (eq_trans Hxp Hp) Hls) as (acts2 & Hr2 & Hw2).
  rewrite Hlf in Hw2. exists (acts1 ++ acts2). split.
  - apply (rounds_snoc last acts2 failing); [exact Hr1|]. by rewrite Hxg in Hr2.
  - apply steps_cons. unfold wp at 1. rewrite H1. unfold steps. rewrite run_app. apply wp_bind.
    unfold wp at 1. unfold steps in H2. rewrite H2. eapply wp_mono; [exact Hw2|].
    intros [] w' (_ & S & X & E & Hread). rewrite X. split; [done|]. split; [done|].
    split; [exact Hxi|]. split; [exact Hread|]. unfold round_events. rewrite Hlf, E, <- !app_assoc.
    unfold told at 1. simpl. done.
Qed.
End rounds.

(** * A connection that is lost, a host name that is not verified, and a
    connection *)

Module Lost.
Import ReconnectingProgram Established.

Definition unverified : try := {|
  t_host := "a.example"; t_port := "443"; t_resource := "/"; t_env := Program.env0;
  t_completions := Connects.bad |}.
Definition verified : try := {|
  t_host := "b.example"; t_port := "443"; t_resource := "/"; t_env := Program.env0;
  t_completions := Connects.good |}.

Lemma sane_unverified : sane_try unverified.
Proof.
  split; [exact Program.sane_env0|]. split; [done|].
  repeat (apply Forall_cons; split; [by split; [exact Program.sane_env0|]|]). by apply Forall_nil.
Qed.
Lemma sane_verified : sane_try verified.
Proof.
  split; [exact Program.sane_env0|]. split; [done|].
  repeat (apply Forall_cons; split; [by split; [exact Program.sane_env0|]|]). by apply Forall_nil.
Qed.

Lemma reporting_established : Forall reporting_action established.
Proof. by repeat constructor. Qed.
Lemma sane_established : Forall sane_action established.
Proof. exact (proj1 (proj1 (Forall_app _ _ _) sane_closed)). Qed.

(** The timer is armed for one second, then for two; the user's handler is told
    that the name could not be verified, then that it is connected. *)
Lemma lost_connection_comes_back_witness :
  let w := world established in
  reconnect_state (ext w) = State.connected ∧
  ∃ acts, rounds 1 [unverified; verified] acts ∧
    wp (steps (run_reconnecting_task user_react user_generate)
         (run_reconnecting_wait user_react user_generate)
         (Act_complete 0 (Program.failed connection_refused) :: acts)) (λ _ w',
      state (client w') = ConnectionState.connected ∧
      reconnect_state (ext w') = State.connected ∧
      current_reconnect_delay (ext w') = nanoseconds 1 ∧ Reading w' ∧
      reconnect_events (trace w') = reconnect_events (trace w) ++
        [armed (nanoseconds 1)] ++
        asks 1%nat 2 unverified ++ [Ev_call (Call_connect 2%nat (ErrorCode 1 ssl_category));
          armed (nanoseconds 2)] ++
        asks 1%nat 3 verified ++ [Ev_call (Call_connect 2%nat no_error)]) w.
Proof.
  intros w. split; [vm_compute; reflexivity|].
  assert (Hw := lost_connection_comes_back user_react user_generate user_sane established Program.env0
    Program.sane_env0 sane_established reporting_established eq_refl).
  destruct (wp_ok _ _ _ Hw) as ([] & w' & Hrun & Hback).
  assert (w = w') as E by exact (world_run established w' Hrun). subst w'. clear Hw Hrun.
  assert (reconnect_state (ext w) = State.connected) as Hcon by (vm_compute; reflexivity).
  destruct (Hback Hcon 0%nat 0%nat (Program.failed connection_refused) 1%nat [unverified] verified)
    as (acts & Hr & Hend);
    [vm_compute; reflexivity|vm_compute; reflexivity|reflexivity|exact Program.sane_env0
    |by apply Forall_cons; split; [exact sane_unverified|apply Forall_nil]
    |by apply Forall_cons; split; [|apply Forall_nil]|exact sane_verified|reflexivity|reflexivity|].
  exists acts. split.
  - assert (connection_generation (ext w) = 1) as E by (vm_compute; reflexivity). by rewrite E in Hr.
  - eapply wp_mono; [exact Hend|]. intros [] w' (? & ? & Hd & ? & He). do 2 (split; [done|]).
    split; [rewrite Hd; vm_compute; reflexivity|]. split; [done|]. rewrite He. by f_equal.
Defined.
End Lost.
