(* ===== verification/SlotTyping.v ===== *)
(** The array of every slot of the WebSocket client's write queue keeps its
    size, and a slot says no more than that of it is filled.

    [slot_ok] is the type of a slot of the C++ program: an array of exactly
    [write_slot_size] bytes and a size within it, which the model's lists do not
    have by themselves.  [keeps m]: the computation [m] keeps it for all the slots
    that the queue owns, free or queued, and puts nothing longer than a slot on
    the wire.  Every operation keeps it, from whatever state, so the copy of a
    message into a slot never runs over the end of the array. *)

From S2P Require Import Prelude RingBuffer Timer SecureWebSocketClient WriteQueue.
From S2P Require Import WebSocketSafety WebSocketProperties ReconnectingClient.

Section typing.
Context `{Extension} {Q : Type} `{!FifoQueue WriteSlot Q} `{!FifoQueueSlots WriteSlot Q} `{WriteConfig}.
Notation W := (World Q).

Definition slot_ok (s : WriteSlot) : Prop :=
  length (slot_data s) = write_slot_size ∧ (slot_filled s ≤ write_slot_size)%nat.

(** A message that was accepted or sent fits a slot. *)
Definition fits (e : event) : Prop :=
  match e with
  | Ev_queued _ _ m | Ev_lib (L_async_write _ m) => (length m ≤ write_slot_size)%nat
  | _ => True
  end.

Definition Typed (w : W) : Prop :=
  fq_all slot_ok (write_slots (client w)) ∧ Forall fits (trace w).

Lemma typed_modc f : (∀ c, write_slots (f c) = write_slots c) → moves Typed (modc f : M W unit) Typed.
Proof. intros Hf. apply moves_modify. intros w [Hw Ht]. split; [simpl; by rewrite Hf|done]. Qed.

Lemma typed_modify f : (∀ w, write_slots (client (f w)) = write_slots (client w)) →
  (∀ w, trace (f w) = trace w) → moves Typed (modify f) Typed.
Proof. intros Hq Ht. apply moves_modify. intros w [Hw Hf]. split; [by rewrite Hq|by rewrite Ht]. Qed.

Lemma typed_log e : fits e → moves Typed (log e : M W unit) Typed.
Proof.
  intros He. apply moves_modify. intros w [Hw Hf]. split; [done|].
  apply Forall_app. by split; [|constructor].
Qed.
End typing.
Notation keeps m := (moves Typed m Typed).

(** One step: as in the prelude, or a change of another field, or an event. *)
Ltac typed_one :=
  match goal with
  | |- _ => keep_step
  | |- keeps (getc _) => apply moves_gets
  | |- keeps (gete _) => apply moves_gets
  | |- keeps (modc _) => apply typed_modc; reflexivity
  | |- keeps (modify _) => apply typed_modify; reflexivity
  | |- keeps (log _) => apply typed_log; exact I
  | |- keeps (lib _) => apply typed_log; exact I
  end.
Ltac keep := repeat typed_one.

(** * The base class *)

Section base.
Context `{Extension} {Q : Type} `{!FifoQueue WriteSlot Q} `{!FifoQueueSlots WriteSlot Q} `{WriteConfig}.
Notation W := (World Q).

Lemma typed_shared_from_this : keeps shared_from_this.
Proof. unfold shared_from_this. keep. Qed.

Lemma typed_post t : keeps (executor_post t).
Proof. unfold executor_post. keep. Qed.

Lemma typed_start_operation op : keeps (start_operation op).
Proof. unfold start_operation. keep. Qed.

Lemma typed_deref_ws : keeps deref_ws.
Proof. unfold deref_ws. keep. Qed.

Lemma typed_is_connected : keeps is_connected.
Proof. unfold is_connected. keep. Qed.

Lemma typed_checked z : keeps (checked z).
Proof. unfold checked. keep. Qed.
End base.
#[export] Hint Resolve typed_shared_from_this typed_post typed_start_operation typed_deref_ws
  typed_is_connected typed_checked : keeps.

Section writing.
Context `{Extension} {Q : Type} `{!FifoQueue WriteSlot Q} `{!FifoQueueSlots WriteSlot Q} `{WriteConfig}.
Notation W := (World Q).

(** The contents of a slot that is written to the wire fit a slot. *)
Lemma slot_payload_fits (slot : WriteSlot) s :
  slot_ok slot → fits (Ev_lib (L_async_write s (take (slot_filled slot) (slot_data slot)))).
Proof. intros [Hl Hf]. simpl. rewrite length_take. lia. Qed.

Lemma typed_start_write : keeps start_write.
Proof.
  intros w Hw. unfold start_write, getc. apply wlp_bind, wlp_gets, wlp_bind, wlp_gets, wlp_bind, wlp_gets.
  destruct (_ || _); [done|].
  destruct (fq_get_front (write_slots (client w))) as [slot|] eqn:Hfront; simpl.
  - assert (slot_ok slot) as Hok by (eapply fq_all_get_front; [apply Hw|done]).
    cut (keeps (modc (λ c, c <| write_in_progress := true |>) ;;; shared_from_this ;;;
      let! generation := getc write_generation in
      let! s := deref_ws in
      if bool_decide (slot_type slot = WriteType.ping)
      then lib (L_async_ping s) ;;; start_operation (Op_write generation s)
      else lib (L_async_write s (take (slot_filled slot) (slot_data slot))) ;;;
           start_operation (Op_write generation s))); [by intros Hk; apply Hk|].
    keep. by apply typed_log, slot_payload_fits.
  - revert w Hw Hfront. cut (keeps (modc (λ c, c <| write_in_progress := true |>) ;;;
      shared_from_this ;;; (throw AssertFailed : M W unit))); [|keep]. auto.
Qed.

(** The copy stays within the array. *)
Lemma copy_into_length message data : (length message ≤ length data)%nat →
  length (copy_into message data) = length data.
Proof. intros Hm. unfold copy_into. rewrite length_app, length_drop. lia. Qed.

Lemma slot_filled_in slot type message h : (length message ≤ write_slot_size)%nat → slot_ok slot →
  slot_ok (slot <| slot_type := type |> <| slot_data ::= copy_into message |>
    <| slot_filled := length message |> <| slot_handler := h |>).
Proof. intros Hm [Hl _]. split; simpl; [rewrite copy_into_length; lia|done]. Qed.

Lemma typed_queue_write type message h : keeps (queue_write type message h).
Proof.
  intros w Hw. unfold queue_write, getc. apply wlp_bind, wlp_gets, wlp_bind, wlp_gets.
  destruct (_ || _); [done|]. case_bool_decide as Hm; [done|].
  assert (length message ≤ write_slot_size)%nat as Hfit by lia.
  apply wlp_bind, wlp_gets. destruct (fq_is_full _); [done|].
  destruct (fq_get_back_slot (write_slots (client w))) as [slot|] eqn:Hback; [|done].
  apply wlp_bind, wlp_ret. unfold modc at 1. apply wlp_bind, wlp_modify, wlp_bind, wlp_gets. simpl.
  assert (Hok := slot_filled_in slot type message h Hfit (fq_all_get_back _ _ _ (proj1 Hw) Hback)).
  destruct (fq_push_back _) as [q'|] eqn:Hpush; [|done].
  apply wlp_bind, wlp_ret. unfold modc at 1. apply wlp_bind, wlp_modify.
  assert (fq_all slot_ok q') as Hq' by (eapply fq_all_push; [by apply fq_all_set_back; [apply Hw|exact Hok]|done]).
  match goal with |- wlp _ _ ?w' => assert (Typed w') as Hw' by (split; [exact Hq'|apply Hw]) end.
  cut (keeps (let! s := deref_ws in log (Ev_queued s type message) ;;; start_write ;;; ret no_error));
    [intros Hk; by apply Hk|].
  apply (moves_bind Typed Typed); [apply typed_deref_ws|]. intros s.
  apply (moves_bind Typed Typed); [by apply typed_log|]. intros _. apply (moves_bind Typed Typed); [apply typed_start_write|intros _; apply moves_ret].
Qed.

(** The front is released, its handler reset first. *)
Lemma typed_release_front (k : WriteSlot → M W unit) w : (∀ slot, keeps (k slot)) → Typed w →
  wlp (let! q := getc write_slots in
    let! slot := require AssertFailed (fq_get_front q) in
    modc (λ c, c <| write_slots ::= fq_set_front (slot <| slot_handler := None |>) |>) ;;;
    let! q := getc write_slots in
    let! q' := require AssertFailed (fq_pop_front q) in
    modc (λ c, c <| write_slots := q' |>) ;;;
    k slot) (λ _, Typed) w.
Proof.
  intros Hk Hw. apply wlp_bind, wlp_gets.
  destruct (fq_get_front (write_slots (client w))) as [slot|] eqn:Hfront; [|done].
  assert (slot_ok slot) as Hok by (eapply fq_all_get_front; [apply Hw|done]).
  apply wlp_bind, wlp_ret, wlp_bind, wlp_modify, wlp_bind, wlp_gets. simpl.
  destruct (fq_pop_front _) as [q'|] eqn:Hpop; [|done].
  apply wlp_bind, wlp_ret, wlp_bind, wlp_modify. apply Hk. split; [|apply Hw].
  simpl. eapply fq_all_pop; [|done]. by apply fq_all_set_front; [apply Hw|].
Qed.
End writing.
#[export] Hint Resolve typed_start_write typed_queue_write : keeps.

(** * User code and derived classes *)

Section user.
Context `{Extension} {Q : Type} `{!FifoQueue WriteSlot Q} `{!FifoQueueSlots WriteSlot Q} `{WriteConfig}.
Context `{!User Q} `{!Virtual Q}.

Class TypedUser : Prop := typed_ext_api a : keeps (run_ext_api a : M (World Q) unit).
Class TypedVirtual : Prop := {
  typed_call_connect l ec : keeps (call_connect l ec : M (World Q) unit);
  typed_on_unexpected_disconnect ec : keeps (on_unexpected_disconnect ec : M (World Q) unit);
}.
Class TypedTasks (run_ext_task : ext_task → M (World Q) unit)
    (run_ext_wait : ext_wait → error_code → M (World Q) unit) : Prop := {
  typed_ext_task t : keeps (run_ext_task t);
  typed_ext_wait x ec : keeps (run_ext_wait x ec);
}.
End user.
#[export] Hint Resolve typed_ext_api typed_call_connect typed_on_unexpected_disconnect typed_ext_task
  typed_ext_wait : keeps.

Section callbacks.
Context `{Extension} {Q : Type} `{!FifoQueue WriteSlot Q} `{!FifoQueueSlots WriteSlot Q} `{WriteConfig}.
Context `{!User Q} `{!TypedUser}.

Lemma typed_run_api a : keeps (run_api a).
Proof.
  destruct a; simpl;
    unfold write, write_now, set_message_handler, set_disconnect_handler, set_ping_message_generator,
      set_ping_interval, set_read_timeout; keep.
Qed.

Lemma typed_user_reacts c : keeps (user_reacts c).
Proof.
  unfold user_reacts. apply (moves_bind Typed Typed); [keep|]. intros t. apply moves_for_each.
  intros a _. apply typed_run_api.
Qed.

Lemma typed_call c : keeps (call c).
Proof. unfold call. apply (moves_bind Typed Typed); [keep|]. intros _. apply typed_user_reacts. Qed.

Lemma typed_call_if c h : keeps (call_if c h).
Proof. destruct h; simpl; [apply typed_call|keep]. Qed.

Lemma typed_cancel_timer t : keeps (Timer.cancel (asio_timer t)).
Proof. unfold Timer.cancel. simpl. keep. Qed.

Lemma typed_async_wait t c : keeps (Timer.async_wait (asio_timer t) c).
Proof. unfold Timer.async_wait. simpl. keep. Qed.

Lemma typed_expires_after t d : keeps (Timer.expires_after (asio_timer t) d).
Proof. unfold Timer.expires_after. simpl. keep. Qed.

Lemma typed_expires_at t d : keeps (Timer.expires_at (asio_timer t) d).
Proof. unfold Timer.expires_at. simpl. keep. Qed.
End callbacks.
#[export] Hint Resolve typed_run_api typed_call typed_call_if typed_cancel_timer typed_async_wait
  typed_expires_after typed_expires_at : keeps.

Section handlers.
Context `{Extension} {Q : Type} `{!FifoQueue WriteSlot Q} `{!FifoQueueSlots WriteSlot Q} `{WriteConfig}.
Context `{!User Q} `{!Virtual Q} `{!TypedUser} `{!TypedVirtual}.

Lemma typed_do_write m h : keeps (do_write m h).
Proof. unfold do_write. keep. Qed.

Lemma typed_fail_writes fuel : keeps (fail_writes fuel).
Proof.
  induction fuel as [|fuel IH]; simpl; [keep|]. intros w Hw. apply wlp_bind, wlp_gets.
  destruct (fq_is_empty _); [done|].
  apply (typed_release_front (λ slot,
    call_if (λ h, Call_write h (make_error_code operation_canceled)) (slot_handler slot) ;;;
    fail_writes fuel)); [|done].
  intros slot. apply (moves_bind Typed Typed); [keep|]. by intros _.
Qed.

Lemma typed_do_close h : keeps (do_close h).
Proof.
  unfold do_close, set_state, disable_timeouts, cancel_pending_operations, stop_ping_timer, stop_read_timer,
    fail_pending_writes, close_socket.
  assert (Hf := typed_fail_writes (S (Z.to_nat fq_capacity))). keep.
Qed.

Lemma typed_connect_result h ec : keeps (connect_result h ec).
Proof. unfold connect_result. keep. Qed.

Lemma typed_fail_connection ec h : keeps (fail_connection ec h).
Proof. assert (Hc := typed_connect_result h ec). unfold fail_connection. assert (H' := typed_do_close None). keep. Qed.

Lemma typed_handle_unexpected_disconnect ec : keeps (handle_unexpected_disconnect ec).
Proof. assert (Hc := typed_do_close None). unfold handle_unexpected_disconnect. keep. Qed.

Lemma typed_start_ping_timer_after d : keeps (start_ping_timer_after d).
Proof. unfold start_ping_timer_after. keep. Qed.

Lemma typed_start_ping_timer : keeps start_ping_timer.
Proof. unfold start_ping_timer, to_duration. assert (Hp := typed_start_ping_timer_after). keep. Qed.

Lemma typed_read_deadline : keeps read_deadline.
Proof. unfold read_deadline, to_duration. keep. Qed.

Lemma typed_start_read_timer : keeps start_read_timer.
Proof. unfold start_read_timer. assert (Hd := typed_read_deadline). keep. Qed.

Lemma typed_start_read : keeps start_read.
Proof. unfold start_read. keep. Qed.
End handlers.
#[export] Hint Resolve typed_do_write typed_do_close typed_connect_result typed_fail_connection
  typed_handle_unexpected_disconnect typed_start_ping_timer_after typed_start_ping_timer
  typed_read_deadline typed_start_read_timer typed_start_read : keeps.

Section events.
Context `{Extension} {Q : Type} `{!FifoQueue WriteSlot Q} `{!FifoQueueSlots WriteSlot Q} `{WriteConfig}.
Context `{!User Q} `{!Virtual Q} `{!TypedUser} `{!TypedVirtual}.
Context (run_ext_task : ext_task → M (World Q) unit).
Context (run_ext_wait : ext_wait → error_code → M (World Q) unit).
Context `{!TypedTasks run_ext_task run_ext_wait}.

Lemma typed_handle_ping_timer ec : keeps (handle_ping_timer ec).
Proof. unfold handle_ping_timer, to_duration, do_protocol_ping. keep. Qed.

Lemma typed_handle_read_timeout ec : keeps (handle_read_timeout ec).
Proof. unfold handle_read_timeout. keep. Qed.

Lemma typed_handle_read ec : keeps (handle_read ec).
Proof. unfold handle_read. keep. Qed.

Lemma typed_handle_write g ec : keeps (handle_write g ec).
Proof.
  intros w Hw. unfold handle_write. apply wlp_bind, wlp_gets, wlp_bind. unfold is_connected.
  apply wlp_bind, wlp_gets, wlp_ret. destruct (_ || _); [done|].
  apply (typed_release_front (λ slot, modc (λ c, c <| write_in_progress := false |>) ;;;
    call_if (λ h, Call_write h ec) (slot_handler slot) ;;;
    if is_error ec then handle_unexpected_disconnect ec else start_write)); [|done].
  intros slot. keep.
Qed.

Lemma typed_do_connect h : keeps (do_connect h).
Proof. unfold do_connect, set_state, create_stream. keep. Qed.

Lemma typed_connect_phase : keeps not_connecting.
Proof. unfold not_connecting, is_connecting. keep. Qed.

Lemma typed_complete_operation op c : keeps (complete_operation run_ext_wait op c).
Proof.
  assert (Hn := typed_connect_phase). assert (Hw := typed_handle_write).
  assert (Hp := typed_handle_ping_timer). assert (Ht := typed_handle_read_timeout).
  assert (Hr := typed_handle_read).
  destruct op as [h|h s|h s|h s|s|g s|t l]; simpl.
  - unfold handle_resolve. keep.
  - unfold handle_connect. keep.
  - unfold handle_ssl_handshake. keep.
  - unfold handle_websocket_handshake, set_state. keep.
  - keep.
  - apply Hw.
  - unfold Timer.run_wait. destruct l as [cb]. simpl. destruct cb as [cb|]; [|keep].
    destruct cb; simpl; keep.
Qed.

Lemma typed_run_task t : keeps (run_task run_ext_task t).
Proof.
  assert (Hc := typed_do_connect). destruct t; simpl; unfold stop_ping_timer, stop_read_timer; keep.
Qed.

Lemma typed_step a : keeps (step run_ext_task run_ext_wait a).
Proof.
  assert (Ht := typed_run_task). assert (Hc := typed_complete_operation).
  destruct a; simpl; unfold set_env; keep.
Qed.

Lemma typed_steps acts : keeps (steps run_ext_task run_ext_wait acts).
Proof. apply moves_for_each. intros a _. apply typed_step. Qed.
End events.
#[export] Hint Resolve typed_do_connect : keeps.

(** * The base class and the reconnecting client keep the types *)

Section base_class.
Context {Q : Type} `{!FifoQueue WriteSlot Q} `{!FifoQueueSlots WriteSlot Q} `{WriteConfig}.
Context (user_react : list (@event base_extension) → @callback base_extension → list (@api_call base_extension)).
Context (user_generate : list (@event base_extension) → handler → list byte).
#[export] Instance base_typed_user : @TypedUser _ Q _ _ _ (base_user user_react user_generate).
Proof. intros [host port resource h|h]; simpl; unfold connect, close; keep. Qed.

#[export] Instance base_typed_virtual : @TypedVirtual _ Q _ _ _ (base_virtual user_react user_generate).
Proof. split; [intros l|]; intros ec; simpl; unfold base_on_unexpected_disconnect; keep. Qed.

#[export] Instance base_typed_tasks : TypedTasks (Q := Q) no_ext_task no_ext_wait.
Proof. split; intros []. Qed.
End base_class.

Section reconnecting_class.
Context {Q : Type} `{!FifoQueue WriteSlot Q} `{!FifoQueueSlots WriteSlot Q} `{WriteConfig}.
Context (user_react : list (@event R) → @callback R → list (@api_call R)).
Context (user_generate : list (@event R) → handler → list byte).

#[export] Instance reconnecting_typed_user :
  @TypedUser _ Q _ _ _ (reconnecting_user user_react user_generate).
Proof. intros []; simpl; unfold get_self, post_ext; keep. Qed.

Lemma typed_getr {A} (f : Reconnecting → A) : keeps (getr f).
Proof. unfold getr. keep. Qed.

Lemma typed_modr f : keeps (modr f).
Proof. unfold modr. keep. Qed.

Lemma typed_schedule_reconnect : keeps schedule_reconnect.
Proof.
  assert (Hg := @typed_getr). assert (Hm := typed_modr).
  unfold schedule_reconnect, is_reconnect_active, set_reconnect_state, get_self. keep.
Qed.

#[export] Instance reconnecting_typed_virtual :
  @TypedVirtual _ Q _ _ _ (reconnecting_virtual user_react user_generate).
Proof.
  assert (Hg := @typed_getr). assert (Hm := typed_modr). assert (Hs := typed_schedule_reconnect).
  split; [intros l|]; intros ec; simpl;
    unfold handle_connect_result, not_this_attempt, set_reconnect_state,
      reconnecting_on_unexpected_disconnect, base_on_unexpected_disconnect; keep.
Qed.

Lemma typed_start_connect_attempt : keeps (start_connect_attempt user_react user_generate).
Proof.
  assert (Hg := @typed_getr). assert (Hm := typed_modr).
  unfold start_connect_attempt, set_reconnect_state, get_self. keep.
Qed.

#[export] Instance reconnecting_typed_tasks : TypedTasks (Q := Q)
  (run_reconnecting_task user_react user_generate) (run_reconnecting_wait user_react user_generate).
Proof.
  assert (Hg := @typed_getr). assert (Hm := typed_modr). assert (Hs := typed_start_connect_attempt).
  split.
  - intros []; simpl; unfold start, stop_reconnecting, set_initial, set_max, handle_connection_ready,
      not_this_attempt, set_reconnect_state, get_self; keep.
  - intros x ec. unfold run_reconnecting_wait, handle_reconnect_timer, not_this_attempt. keep.
Qed.
End reconnecting_class.

(** * Property *)

Section properties.
Context `{Extension} {Q : Type} `{!FifoQueue WriteSlot Q} `{!FifoQueueLaws WriteSlot Q}
  `{!FifoQueueSlots WriteSlot Q} `{WriteConfig} `{!ExtensionInvariant} `{!User Q} `{!Virtual Q}.
Context (run_ext_task : ext_task → M (World Q) unit).
Context (run_ext_wait : ext_wait → error_code → M (World Q) unit).
Context `{!StableUser} `{!StableVirtual} `{!StableTasks run_ext_task run_ext_wait}.
Context `{!TypedUser} `{!TypedVirtual} `{!TypedTasks run_ext_task run_ext_wait}.

(** C12: in every run every slot of the write queue, in use or free, has an
    array of exactly [write_slot_size] bytes of which it says no more than that
    are filled, and no message that is accepted or handed to [async_write] is
    longer: the copy of a message into its slot never runs over the array, and
    a write never reads past it. *)
Theorem slots_keep_their_type acts x e :
  ext_ok x → sane_time (now e) → Z.of_nat (length acts) < two64 → Forall sane_action acts →
  slot_ok (fq_blank : WriteSlot) →
  wp (steps run_ext_task run_ext_wait acts) (λ _ w,
    fq_all slot_ok (write_slots (client w)) ∧
    ∀ s m, Ev_lib (L_async_write s m) ∈ trace w → (length m ≤ write_slot_size)%nat) (World_init x e).
Proof.
  intros Hx He Hlen Hsane Hblank.
  eapply wp_mono; [apply (wp_wlp _ (λ _ _, True) (λ _, Typed))|].
  - eapply wp_mono; [by apply run_from_init|]. done.
  - apply (typed_steps run_ext_task run_ext_wait). split; [exact (fq_all_empty slot_ok Hblank)|by constructor].
  - intros [] w [_ [Hw Ht]]. split; [done|]. intros s m Hm. rewrite Forall_forall in Ht.
    exact (Ht _ Hm).
Qed.
End properties.

(** On a base client that writes, and on a reconnecting one. *)
Section witnesses.
Import Program ReconnectingProgram.

Lemma blank_ok : slot_ok (fq_blank : WriteSlot).
Proof. split; [apply length_replicate|apply Nat.le_0_l]. Qed.

Lemma slots_keep_their_type_witness :
  wp (steps no_ext_task no_ext_wait writing) (λ _ w,
    fq_all slot_ok (write_slots (client w)) ∧
    ∀ s m, Ev_lib (L_async_write s m) ∈ trace w → (length m ≤ write_slot_size)%nat)
    (World_init (tt : @ext_state base_extension) env0) ∧
  wp (steps (run_reconnecting_task user_react user_generate)
       (run_reconnecting_wait user_react user_generate)
       starting) (λ _ w,
    fq_all slot_ok (write_slots (client w)) ∧
    ∀ s m, Ev_lib (L_async_write s m) ∈ trace w → (length m ≤ write_slot_size)%nat)
    world0.
Proof.
  assert (@TypedUser base_extension _ _ _ _ Program.user) as Hu by apply base_typed_user.
  assert (@TypedVirtual base_extension _ _ _ _ Program.virtual) as Hv by apply base_typed_virtual.
  assert (@TypedUser R _ _ _ _ ReconnectingProgram.user) as Hur by apply reconnecting_typed_user.
  assert (@TypedVirtual R _ _ _ _ ReconnectingProgram.virtual) as Hvr by apply reconnecting_typed_virtual.
  split.
  - apply (slots_keep_their_type no_ext_task no_ext_wait writing tt env0);
      [exact I|exact sane_env0|reflexivity|exact sane|exact blank_ok].
  - apply (slots_keep_their_type _ _ starting (Reconnecting_init : @ext_state R) env0);
      [exact init_ok|exact sane_env0|reflexivity
      |exact sane_starting|exact blank_ok].
Defined.
End witnesses.
