(* ===== verification/WebSocketProtocol.v ===== *)
(** What the WebSocket client does with a stream, when attempts to connect do
    not overlap.

    [marks s t] is what the trace [t] asks of the stream [s]: to connect, to name
    the host and verify it, the TLS and the websocket handshake ([opening]), and
    then reads, writes and pings.  The stages do not check which attempt they
    belong to ([WebSocketAttempts]), so the theorem is about [patient] runs, in
    which no attempt is started while an operation of an earlier one is pending:
    there, whatever else happens, nothing is read or written on a stream before
    its whole opening. *)

From S2P Require Import Prelude RingBuffer Timer SecureWebSocketClient WriteQueue.
From S2P Require Import WebSocketSafety WebSocketProperties WebSocketAttempts ReconnectingClient.

(** * Marks *)

Inductive mark :=
  | M_connect
  | M_sni (host : string)
  | M_verify (host : string)
  | M_tls
  | M_websocket
  | M_io.

Definition opening (host : string) : list mark :=
  [M_connect; M_sni host; M_verify host; M_tls; M_websocket].

(** A part of the opening, or all of it and then reads and writes. *)
Definition orderly (l : list mark) : Prop :=
  ∃ host k, l `prefix_of` opening host ++ replicate k M_io.
Definition opened (l : list mark) : Prop := ∃ host k, l = opening host ++ replicate k M_io.

Lemma opened_orderly l : opened l → orderly l.
Proof. intros (host & k & ->). by exists host, k. Qed.

Lemma opened_io l : opened l → opened (l ++ [M_io]).
Proof.
  intros (host & k & ->). exists host, (S k). rewrite <- app_assoc. f_equal.
  by rewrite replicate_S_end.
Qed.

Lemma orderly_prefix l host : l `prefix_of` opening host → orderly l.
Proof. intros Hl. exists host, 0%nat. by apply prefix_app_r. Qed.

Section marks.
Context `{Extension}.

Definition mark_of (e : event) : option (nat * mark) :=
  match e with
  | Ev_lib (L_async_connect s) => Some (s, M_connect)
  | Ev_lib (L_set_sni s host) => Some (s, M_sni host)
  | Ev_lib (L_set_verify s host) => Some (s, M_verify host)
  | Ev_lib (L_async_ssl_handshake s) => Some (s, M_tls)
  | Ev_lib (L_async_websocket_handshake s _ _) => Some (s, M_websocket)
  | Ev_lib (L_async_read s) | Ev_lib (L_async_write s _) | Ev_lib (L_async_ping s) => Some (s, M_io)
  | _ => None
  end.

Definition marks (s : nat) : list event → list mark :=
  omap (λ e, '(s', m) ← mark_of e; if decide (s = s') then Some m else None).

(** What was asked of a stream when an operation of the connect phase is pending. *)
Definition marks_before (op : operation) (host : string) : list mark :=
  match op with
  | Op_connect _ _ => [M_connect]
  | Op_ssl_handshake _ _ => [M_connect; M_sni host; M_verify host; M_tls]
  | Op_websocket_handshake _ _ => opening host
  | _ => []
  end.

Definition connects (op : operation) : bool :=
  match op with
  | Op_resolve _ | Op_connect _ _ | Op_ssl_handshake _ _ | Op_websocket_handshake _ _ => true
  | _ => false
  end.

Lemma marks_app s t t' : marks s (t ++ t') = marks s t ++ marks s t'.
Proof. apply omap_app. Qed.

Lemma marks_none s e : mark_of e = None → marks s [e] = [].
Proof. unfold marks. simpl. by intros ->. Qed.

Lemma marks_some s e s' m : mark_of e = Some (s', m) →
  marks s [e] = if decide (s = s') then [m] else [].
Proof. unfold marks. simpl. intros ->. simpl. by case_decide. Qed.
End marks.

(** * The invariant *)

Section orderly.
Context `{Extension} {Q : Type}.
Notation W := (World Q).

Record Orderly (w : W) : Prop := {
  or_streams s : orderly (marks s (trace w));
  or_fresh s : (next_stream w ≤ s)%nat → marks s (trace w) = [];
  or_own s : ws (client w) = Some s → (s < next_stream w)%nat;
  or_connecting : state (client w) = ConnectionState.connecting → ∃ s, ws (client w) = Some s ∧
    (count connects (pending w) ≤ 1)%nat ∧
    ∀ op, op ∈ pending w → connects op = true → ∃ host, marks s (trace w) = marks_before op host;
  or_connected : state (client w) = ConnectionState.connected → ∃ s, ws (client w) = Some s ∧
    opened (marks s (trace w));
}.

(** The invariant, at a known state. *)
Definition At (st : ConnectionState.t) (w : W) : Prop := Orderly w ∧ state (client w) = st.

Lemma moves_at {A} (m : M W A) : (∀ st, moves (At st) m (At st)) → moves Orderly m Orderly.
Proof. intros Hm w Hw. eapply wlp_mono; [by apply (Hm (state (client w)))|]. by intros a w' [? _]. Qed.

(** A change of nothing that the invariant is about, and one more operation. *)
Lemma Orderly_same (w w' : W) :
  trace w' = trace w → next_stream w' = next_stream w → ws (client w') = ws (client w) →
  state (client w') = state (client w) →
  (∃ ops, pending w' = pending w ++ ops ∧ Forall (λ op, connects op = false) ops) →
  Orderly w → Orderly w'.
Proof.
  intros Et En Ews Est (ops & Ep & Hops) []. split; rewrite ?Et, ?En, ?Ews, ?Est, ?Ep; auto.
  intros Hst. destruct (or_connecting0 Hst) as (s & Hs & Hone & Hm). exists s. split; [done|]. split.
  - rewrite count_app, (count_zero _ ops); [lia|]. by apply Forall_forall.
  - intros op [Hop|Hop]%elem_of_app Hc; [by apply Hm|].
    rewrite Forall_forall in Hops. apply Hops in Hop. congruence.
Qed.

Lemma Orderly_event (w : W) e : mark_of e = None → Orderly w →
  Orderly (w <| trace ::= λ l, l ++ [e] |>).
Proof.
  intros He []. assert (∀ s, marks s (trace w ++ [e]) = marks s (trace w)) as Hm.
  { intros s. by rewrite marks_app, (marks_none s e), app_nil_r. }
  split; simpl; try (intros s; rewrite Hm; auto); auto.
  - intros Hst. destruct (or_connecting0 Hst) as (s & Hs & Hone & Hops). exists s.
    split; [done|]. split; [done|]. intros op. rewrite Hm. apply Hops.
  - intros Hst. destruct (or_connected0 Hst) as (s & Hs & Ho). exists s. by rewrite Hm.
Qed.

(** Neither connecting nor connected. *)
Lemma Orderly_down (w w' : W) :
  trace w' = trace w → next_stream w' = next_stream w → ws (client w') = ws (client w) →
  state (client w') = ConnectionState.closing ∨ state (client w') = ConnectionState.disconnected →
  Orderly w → Orderly w'.
Proof.
  intros Et En Ews Hst []. split; rewrite ?Et, ?En, ?Ews; auto; intros Hc; destruct Hst; congruence.
Qed.

Lemma calm_modify st f :
  (∀ w : W, trace (f w) = trace w) → (∀ w, next_stream (f w) = next_stream w) →
  (∀ w, ws (client (f w)) = ws (client w)) → (∀ w, state (client (f w)) = state (client w)) →
  (∀ w, pending (f w) = pending w) → moves (At st) (modify f) (At st).
Proof.
  intros Et En Ews Est Ep. apply moves_modify. intros w [Hw Hst]. split; [|by rewrite Est].
  apply (Orderly_same w); auto. exists []. by rewrite app_nil_r.
Qed.

Lemma calm_modc st f :
  (∀ c : Client Q, ws (f c) = ws c) → (∀ c, state (f c) = state c) → moves (At st) (modc f) (At st).
Proof. intros Hw Hs. by apply calm_modify; try done; intros w; simpl. Qed.

Lemma calm_event st e : mark_of e = None → moves (At st) (log e : M W unit) (At st).
Proof. intros He. apply moves_modify. intros w [Hw Hst]. split; [by apply Orderly_event|done]. Qed.

Lemma calm_start_operation st op : connects op = false →
  moves (At st) (start_operation op : M W unit) (At st).
Proof.
  intros Hop. apply moves_modify. intros w [Hw Hst]. split; [|done].
  apply (Orderly_same w); try done. exists [op]. by split; [|constructor].
Qed.

(** What is asked of the stream of a connected client. *)
Lemma Orderly_io (w : W) e s : mark_of e = Some (s, M_io) → ws (client w) = Some s →
  At ConnectionState.connected w → At ConnectionState.connected (w <| trace ::= λ l, l ++ [e] |>).
Proof.
  intros He Hs [[] Hst]. split; [|done]. destruct (or_connected0 Hst) as (s0 & Hs0 & Ho).
  rewrite Hs in Hs0. injection Hs0 as <-. split; simpl; auto.
  - intros s'. rewrite marks_app, (marks_some s' e s M_io) by done. case_decide as E; [|by rewrite app_nil_r].
    subst. by apply opened_orderly, opened_io.
  - intros s' Hs'. specialize (or_own0 s Hs).
    rewrite marks_app, (marks_some s' e s M_io), decide_False, app_nil_r by (done || lia). auto.
  - congruence.
  - intros _. exists s. split; [done|]. rewrite marks_app, (marks_some s e s M_io), decide_True by done.
    by apply opened_io.
Qed.
End orderly.

(** One step: as in the prelude, a change of another field, a neutral event or
    operation. *)
Ltac orderly_step :=
  match goal with
  | |- _ => keep_step
  | |- moves _ (getc _) _ => apply moves_gets
  | |- moves _ (gete _) _ => apply moves_gets
  | |- moves (At _) (modc _) _ => apply calm_modc; reflexivity
  | |- moves (At _) (modify _) _ => apply calm_modify; reflexivity
  | |- moves (At _) (log _) _ => apply calm_event; reflexivity
  | |- moves (At _) (lib _) _ => apply calm_event; reflexivity
  | |- moves (At _) (start_operation _) _ => apply calm_start_operation; reflexivity
  end.
Ltac keep := repeat orderly_step.

(** * User code and derived classes *)

Section user.
Context `{Extension} {Q : Type} `{!User Q} `{!Virtual Q}.
Notation W := (World Q).

Class OrderlyUser : Prop := orderly_ext_api a st : moves (At st) (run_ext_api a : M W unit) (At st).
Class OrderlyVirtual : Prop := {
  orderly_call_connect l ec st : moves (At st) (call_connect l ec : M W unit) (At st);
  orderly_disconnect ec st : moves (At st) (on_unexpected_disconnect ec : M W unit) (At st);
}.

(** No attempt is pending when a new one may start. *)
Definition Free (w : W) : Prop :=
  Orderly w ∧ (state (client w) = ConnectionState.disconnected → count connects (pending w) = 0%nat).

(** [attempts t]: the derived class's task [t] may start an attempt. *)
Class OrderlyTasks (attempts : ext_task → bool) (run_ext_task : ext_task → M W unit)
    (run_ext_wait : ext_wait → error_code → M W unit) : Prop := {
  orderly_ext_task t :
    if attempts t then moves Free (run_ext_task t) Orderly else moves Orderly (run_ext_task t) Orderly;
  orderly_ext_wait x ec : moves Orderly (run_ext_wait x ec) Orderly;
}.
End user.
#[export] Hint Resolve orderly_ext_api orderly_call_connect orderly_disconnect : keeps.

(** * What keeps the state *)

Section calm.
Context `{Extension} {Q : Type} `{!FifoQueue WriteSlot Q} `{WriteConfig}.
Notation W := (World Q).

Lemma calm_shared_from_this st : moves (At (Q := Q) st) shared_from_this (At st).
Proof. unfold shared_from_this. keep. Qed.

Lemma calm_post st t : moves (At (Q := Q) st) (executor_post t) (At st).
Proof. unfold executor_post. keep. Qed.

Lemma calm_is_connected st : moves (At (Q := Q) st) is_connected (At st).
Proof. unfold is_connected. keep. Qed.

Lemma calm_deref_ws st : moves (At (Q := Q) st) deref_ws (At st).
Proof. unfold deref_ws. keep. Qed.

Lemma calm_checked st z : moves (At (Q := Q) st) (checked z) (At st).
Proof. unfold checked. keep. Qed.

Lemma calm_cancel_timer st t : moves (At (Q := Q) st) (Timer.cancel (asio_timer t)) (At st).
Proof. unfold Timer.cancel. simpl. keep. Qed.

Lemma calm_async_wait st t c : moves (At (Q := Q) st) (Timer.async_wait (asio_timer t) c) (At st).
Proof. unfold Timer.async_wait. simpl. keep. Qed.

Lemma calm_expires_after st t d : moves (At (Q := Q) st) (Timer.expires_after (asio_timer t) d) (At st).
Proof. unfold Timer.expires_after. simpl. keep. Qed.

Lemma calm_expires_at st t d : moves (At (Q := Q) st) (Timer.expires_at (asio_timer t) d) (At st).
Proof. unfold Timer.expires_at. simpl. keep. Qed.

(** Then something on the stream in use. *)
Lemma moves_on_stream {A} (k : nat → M W A) (P R : W → Prop) :
  (∀ s, moves (λ w, P w ∧ ws (client w) = Some s) (k s) R) → moves P (bind deref_ws k) R.
Proof.
  intros Hk w Hw. unfold deref_ws, getc. apply wlp_bind, wlp_bind, wlp_gets.
  destruct (ws (client w)) as [s|] eqn:Hs; [|exact I]. apply wlp_ret. by apply Hk.
Qed.

(** An operation on the stream of a connected client. *)
Lemma moves_io e op s : mark_of e = Some (s, M_io) → connects op = false →
  moves (λ w : W, At ConnectionState.connected w ∧ ws (client w) = Some s)
    (log e ;;; start_operation op) (At ConnectionState.connected).
Proof.
  intros He Hop. apply (moves_bind _ (At ConnectionState.connected)).
  - apply moves_modify. intros w [Hw Hs]. by apply (Orderly_io w e s).
  - intros _. by apply calm_start_operation.
Qed.

Lemma calm_start_write : moves (At (Q := Q) ConnectionState.connected) start_write (At ConnectionState.connected).
Proof.
  assert (Hf := calm_shared_from_this ConnectionState.connected). unfold start_write.
  do 3 (eapply moves_bind; [apply moves_gets|intros ?]). destruct (_ || _); [keep|].
  do 4 (eapply moves_bind; [keep|intros ?]). apply moves_on_stream. intros s.
  by case_bool_decide; apply moves_io.
Qed.
End calm.
#[export] Hint Resolve calm_shared_from_this calm_post calm_is_connected calm_deref_ws calm_checked
  calm_cancel_timer calm_async_wait calm_expires_after calm_expires_at calm_start_write : keeps.

Section callbacks.
Context `{Extension} {Q : Type} `{!FifoQueue WriteSlot Q} `{WriteConfig} `{!User Q} `{!OrderlyUser}.
Notation W := (World Q).
#[local] Notation At := (At (Q := Q)).

Lemma calm_queue_write st t m h : moves (At st) (queue_write t m h) (At st).
Proof.
  destruct (decide (st = ConnectionState.connected)) as [->|Hne].
  - unfold queue_write. keep.
  - intros w [Hw Hst]. unfold queue_write, getc. apply wlp_bind, wlp_gets, wlp_bind, wlp_gets.
    rewrite Hst, bool_decide_false by done. simpl. by split.
Qed.

Lemma calm_run_api st a : moves (At st) (run_api a) (At st).
Proof.
  assert (Hq := calm_queue_write st). destruct a; simpl;
    unfold write, write_now, set_message_handler, set_disconnect_handler, set_ping_message_generator,
      set_ping_interval, set_read_timeout; keep.
Qed.

Lemma calm_call st c : moves (At st) (call c) (At st).
Proof.
  unfold call, user_reacts. apply (moves_bind _ (At st)); [keep|]. intros _.
  apply (moves_bind _ (At st)); [keep|]. intros t. apply moves_for_each. intros a _. apply calm_run_api.
Qed.

Lemma calm_call_if st c h : moves (At st) (call_if c h) (At st).
Proof. destruct h; simpl; [apply calm_call|keep]. Qed.

Lemma calm_do_write st m h : moves (At st) (do_write m h) (At st).
Proof. assert (Hq := calm_queue_write st). assert (Hc := calm_call_if st). unfold do_write. keep. Qed.

Lemma calm_fail_writes st fuel : moves (At st) (fail_writes fuel) (At st).
Proof. assert (Hc := calm_call_if st). induction fuel as [|fuel IH]; simpl; keep. Qed.
End callbacks.
#[export] Hint Resolve calm_queue_write calm_run_api calm_call calm_call_if calm_do_write calm_fail_writes : keeps.

(** * Closing, and the handlers of a connection *)

Section handlers.
Context `{Extension} {Q : Type} `{!FifoQueue WriteSlot Q} `{WriteConfig}.
Context `{!User Q} `{!Virtual Q} `{!OrderlyUser} `{!OrderlyVirtual}.
Notation W := (World Q).
#[local] Notation At := (At (Q := Q)).
#[local] Notation Orderly := (Orderly (Q := Q)).

Lemma at_orderly st w : At st w → Orderly w.
Proof. by intros [? _]. Qed.

(** A computation that keeps the state keeps the invariant. *)
Lemma moves_from_at {A} st (m : M W A) : moves (At st) m (At st) → moves (At st) m Orderly.
Proof. intros Hm. eapply moves_weaken; [exact Hm|done|apply at_orderly]. Qed.

Lemma set_state_down st st' :
  st' = ConnectionState.closing ∨ st' = ConnectionState.disconnected →
  moves (At st) (set_state st' : M W unit) (At st').
Proof.
  intros Hst'. apply moves_modify. intros w [Hw _]. split; [|done]. apply (Orderly_down w); [done..|exact Hst'|exact Hw].
Qed.

Lemma do_close_orderly st h : moves (At st) (do_close h) Orderly.
Proof.
  assert (∀ st', moves (At st') (call_if Call_close h) Orderly) as Hh.
  { intros st'. apply moves_from_at. keep. }
  unfold do_close. intros w Hw. unfold getc. apply wlp_bind, wlp_gets.
  destruct (state (client w)); try (by eapply Hh); revert w Hw;
    match goal with |- ∀ w, _ → wlp ?m _ _ => change (moves (At st) m Orderly) end;
    (eapply moves_bind; [apply set_state_down; by left|intros _]);
    unfold disable_timeouts, cancel_pending_operations, stop_ping_timer, stop_read_timer,
      fail_pending_writes, close_socket;
    do 4 (apply (moves_bind _ (At ConnectionState.closing)); [keep|intros _]);
    (eapply moves_bind; [apply set_state_down; by right|intros _]); apply Hh.
Qed.

Lemma keeps_do_close h : moves Orderly (do_close h) Orderly.
Proof. intros w Hw. by apply (do_close_orderly (state (client w))). Qed.

Lemma calm_connect_result st h ec : moves (At st) (connect_result h ec) (At st).
Proof. unfold connect_result. keep. Qed.

Lemma fail_connection_orderly ec h : moves Orderly (fail_connection ec h) Orderly.
Proof.
  unfold fail_connection. eapply moves_bind; [apply keeps_do_close|intros _].
  apply moves_at. intros st. apply calm_connect_result.
Qed.

Lemma keeps_handle_unexpected_disconnect ec : moves Orderly (handle_unexpected_disconnect ec) Orderly.
Proof.
  unfold handle_unexpected_disconnect, getc. eapply moves_bind; [apply moves_gets|intros st].
  destruct (negb _); [apply moves_ret|]. eapply moves_bind; [apply keeps_do_close|intros _].
  apply moves_at. intros st'. keep.
Qed.

Lemma calm_start_ping_timer_after st d : moves (At st) (start_ping_timer_after d) (At st).
Proof. unfold start_ping_timer_after. keep. Qed.

Lemma calm_start_ping_timer st : moves (At st) start_ping_timer (At st).
Proof. assert (Hp := calm_start_ping_timer_after st). unfold start_ping_timer, to_duration. keep. Qed.

Lemma calm_read_deadline st : moves (At st) read_deadline (At st).
Proof. unfold read_deadline, to_duration. keep. Qed.

Lemma calm_start_read_timer st : moves (At st) start_read_timer (At st).
Proof. assert (Hd := calm_read_deadline st). unfold start_read_timer. keep. Qed.

Lemma calm_start_read st : moves (At st) start_read (At st).
Proof.
  intros w [Hw Hst]. unfold start_read, getc, is_connected. apply wlp_bind, wlp_gets, wlp_bind, wlp_bind, wlp_gets, wlp_ret.
  rewrite Hst. destruct (decide (st = ConnectionState.connected)) as [->|Hne].
  - rewrite (bool_decide_true (ConnectionState.connected = _)) by done. simpl. rewrite orb_false_r. assert (At ConnectionState.connected w) as Hat by done.
    clear Hw Hst. destruct (bool_decide _); [done|]. revert w Hat.
    cut (moves (At ConnectionState.connected) (shared_from_this ;;; (let! s := deref_ws in
      lib (L_async_read s) ;;; start_operation (Op_read s))) (At ConnectionState.connected)); [done|].
    apply (moves_bind _ (At ConnectionState.connected)); [keep|intros _].
    apply moves_on_stream. intros s. by apply moves_io.
  - rewrite (bool_decide_false (st = _)) by done. simpl. rewrite orb_true_r. by split.
Qed.
End handlers.
#[export] Hint Resolve calm_connect_result calm_start_ping_timer_after calm_start_ping_timer
  calm_read_deadline calm_start_read_timer calm_start_read : keeps.
#[export] Hint Resolve fail_connection_orderly keeps_do_close keeps_handle_unexpected_disconnect : keeps.

Section connected.
Context `{Extension} {Q : Type} `{!FifoQueue WriteSlot Q} `{WriteConfig}.
Context `{!User Q} `{!Virtual Q} `{!OrderlyUser} `{!OrderlyVirtual}.
Notation W := (World Q).
#[local] Notation At := (At (Q := Q)).
#[local] Notation Orderly := (Orderly (Q := Q)).

(** The guard [is_connected] of a handler. *)
Lemma moves_if_connected {A} (k : bool → M W A) (R : W → Prop) :
  moves (At ConnectionState.connected) (k true) R → moves Orderly (k false) R →
  moves Orderly (bind is_connected k) R.
Proof.
  intros Ht Hf w Hw. unfold is_connected, getc. apply wlp_bind, wlp_bind, wlp_gets, wlp_ret.
  case_bool_decide as Hst; [by apply Ht|by apply Hf].
Qed.

Lemma keeps_handle_ping_timer ec : moves Orderly (handle_ping_timer ec) Orderly.
Proof. apply moves_at. intros st. unfold handle_ping_timer, do_protocol_ping, to_duration. keep. Qed.

Lemma keeps_handle_read_timeout ec : moves Orderly (handle_read_timeout ec) Orderly.
Proof.
  unfold handle_read_timeout, getc, gete.
  assert (∀ {A} (m : M W A), (∀ st, moves (At st) m (At st)) → moves Orderly m Orderly) as Hat by (intros; by apply moves_at).
  do 2 (apply (moves_bind _ Orderly); [apply Hat; intros; keep|intros ?]).
  destruct (_ || _); [apply moves_ret|].
  do 2 (apply (moves_bind _ Orderly); [apply Hat; intros; keep|intros ?]).
  destruct (_ <? _); [apply Hat; intros; keep|]. apply keeps_handle_unexpected_disconnect.
Qed.

Lemma keeps_handle_read ec : moves Orderly (handle_read ec) Orderly.
Proof.
  unfold handle_read. apply moves_if_connected; [|apply moves_ret]. simpl.
  destruct (is_error ec); [eapply moves_weaken; [apply keeps_handle_unexpected_disconnect|apply at_orderly|done]|].
  apply moves_from_at. keep.
Qed.

Lemma keeps_handle_write g ec : moves Orderly (handle_write g ec) Orderly.
Proof.
  unfold handle_write, getc at 1. eapply moves_bind; [apply moves_gets|intros g']. apply moves_if_connected.
  - destruct (_ || _); [apply moves_from_at; keep|].
    do 8 (apply (moves_bind _ (At ConnectionState.connected)); [keep|intros ?]).
    destruct (is_error ec); [|apply moves_from_at; keep].
    eapply moves_weaken; [apply keeps_handle_unexpected_disconnect|apply at_orderly|done].
  - destruct (_ || _) eqn:E; [apply moves_ret|]. by rewrite orb_true_r in E.
Qed.
End connected.

(** * The connect phase *)

Section phase.
Context `{Extension} {Q : Type} `{!FifoQueue WriteSlot Q} `{WriteConfig}.
Context `{!User Q} `{!Virtual Q} `{!OrderlyUser} `{!OrderlyVirtual}.
Notation W := (World Q).
#[local] Notation At := (At (Q := Q)).
#[local] Notation Orderly := (Orderly (Q := Q)).

(** A handler of the phase runs: its operation is off the list, and [l] was
    asked of its stream. *)
Record Phase (s : nat) (l : list mark) (w : W) : Prop := {
  ph_orderly : Orderly w;
  ph_state : state (client w) = ConnectionState.connecting;
  ph_ws : ws (client w) = Some s;
  ph_none : count connects (pending w) = 0%nat;
  ph_marks : marks s (trace w) = l;
}.

Lemma phase_event s l e : mark_of e = None → moves (Phase s l) (log e : M W unit) (Phase s l).
Proof.
  intros He. apply moves_modify. intros w []. split; simpl; try done; [by apply Orderly_event|].
  by rewrite marks_app, (marks_none s e), app_nil_r.
Qed.

Lemma phase_mark s l e m host : mark_of e = Some (s, m) → l ++ [m] `prefix_of` opening host →
  moves (Phase s l) (log e : M W unit) (Phase s (l ++ [m])).
Proof.
  intros He Hp. apply moves_modify. intros w [[] Hst Hs Hn Hm].
  assert (∀ s', marks s' (trace w ++ [e]) = marks s' (trace w) ++ (if decide (s' = s) then [m] else [])) as Hall.
  { intros s'. by rewrite marks_app, (marks_some s' e s m). }
  assert (∀ op, op ∈ pending w → connects op = false) as Hno.
  { intros op Hop. destruct (connects op) eqn:E; [|done]. exfalso.
    apply list_elem_of_lookup in Hop as [i Hi]. assert (Hc := count_delete connects _ _ _ Hi).
    rewrite E in Hc. lia. }
  split; simpl; try done; [split; simpl; auto|].
  - intros s'. rewrite Hall. case_decide as E; [|by rewrite app_nil_r]. subst s'. rewrite Hm.
    by eapply orderly_prefix.
  - intros s' Hs'. specialize (or_own0 s Hs). rewrite Hall, decide_False, app_nil_r by lia. auto.
  - intros _. exists s. split; [done|]. split; [lia|]. intros op Hop%Hno. congruence.
  - congruence.
  - by rewrite Hall, decide_True, Hm.
Qed.

Lemma phase_start s op host :
  connects op = true → moves (Phase s (marks_before op host)) (start_operation op : M W unit) Orderly.
Proof.
  intros Hop. apply moves_modify. intros w [[] Hst Hs Hn Hm].
  split; simpl; auto.
  - intros _. exists s. split; [done|]. split.
    + rewrite count_app, Hn. unfold count. rewrite filter_cons, filter_nil. by case_decide.
    + intros op' [Hin|Hin]%elem_of_app Hc; [|by apply list_elem_of_singleton in Hin as ->; exists host].
      exfalso. apply list_elem_of_lookup in Hin as [i Hi].
      assert (Hd := count_delete connects _ _ _ Hi). rewrite Hc in Hd. lia.
Qed.

Lemma phase_gets {A} s l (f : W → A) : moves (Phase s l) (gets f) (Phase s l).
Proof. apply moves_gets. Qed.

Lemma phase_shared s l : moves (Phase s l) shared_from_this (Phase s l).
Proof.
  unfold shared_from_this. apply (moves_bind _ (Phase s l)); [apply moves_gets|]. intros gone.
  destruct (gone : bool); [apply moves_throw|apply moves_ret].
Qed.

Lemma phase_stream {A} s l (k : nat → M W A) R :
  moves (Phase s l) (k s) R → moves (Phase s l) (bind deref_ws k) R.
Proof.
  intros Hk. apply moves_on_stream. intros s' w [Hp Hs']. destruct Hp. rewrite ph_ws0 in Hs'.
  injection Hs' as <-. by apply Hk.
Qed.

Lemma phase_fail s l ec h : moves (Phase s l) (fail_connection ec h) Orderly.
Proof. eapply moves_weaken; [apply fail_connection_orderly|apply ph_orderly|done]. Qed.

(** An operation of the connect phase completes. *)
Definition Taken (op : operation) (w : W) : Prop :=
  Orderly w ∧ (state (client w) = ConnectionState.connecting → ∃ s host, Phase s (marks_before op host) w).

Lemma Orderly_delete i op (w : W) : pending w !! i = Some op → Orderly w →
  Orderly (w <| pending ::= delete i |>).
Proof.
  intros Hi []. split; simpl; auto. intros Hst. destruct (or_connecting0 Hst) as (s & Hs & Hone & Hm).
  exists s. split; [done|]. split; [rewrite (count_delete _ _ _ _ Hi) in Hone; lia|].
  intros op' Hop. apply Hm. by eapply elem_of_delete.
Qed.

Lemma Taken_delete i op (w : W) : pending w !! i = Some op → connects op = true → Orderly w →
  Taken op (w <| pending ::= delete i |>).
Proof.
  intros Hi Hc Hw. split; [by eapply Orderly_delete|]. simpl. intros Hst.
  destruct (or_connecting w Hw Hst) as (s & Hs & Hone & Hm).
  destruct (Hm op) as [host Hhost]; [by eapply list_elem_of_lookup_2|done|]. exists s, host.
  split; [by eapply Orderly_delete|done|done| |done].
  simpl. rewrite (count_delete _ _ _ _ Hi), Hc in Hone. lia.
Qed.

(** The guard of the handlers of the phase. *)
Lemma moves_taken op (h : ConnectHandler) ec (k : M W unit) :
  (∀ s host, moves (Phase s (marks_before op host)) k Orderly) →
  moves (Taken op) (let! skip := not_connecting in
    if (skip : bool) then ret tt else if is_error ec then fail_connection ec h else k) Orderly.
Proof.
  intros Hk w [Hw Hphase]. unfold not_connecting, is_connecting, getc.
  apply wlp_bind, wlp_bind, wlp_bind, wlp_gets, wlp_ret, wlp_bind, wlp_gets, wlp_ret.
  case_bool_decide as Hst; simpl; [|done]. destruct (Hphase Hst) as (s & host & Hp).
  case_bool_decide; [done|]. destruct (is_error ec); [by eapply phase_fail|by eapply Hk].
Qed.

Lemma handle_resolve_orderly h ec : moves (Taken (Op_resolve h)) (handle_resolve h ec) Orderly.
Proof.
  apply moves_taken. intros s host. eapply moves_bind; [apply phase_shared|intros _].
  apply phase_stream. eapply moves_bind; [by apply phase_event|intros _].
  eapply moves_bind; [by apply (phase_mark s [] _ M_connect host); [|eexists]|intros _].
  by apply (phase_start s (Op_connect h s) host).
Qed.

Lemma handle_connect_orderly h s0 ec : moves (Taken (Op_connect h s0)) (handle_connect h ec) Orderly.
Proof.
  apply moves_taken. intros s host0. apply phase_stream. simpl.
  eapply moves_bind; [apply phase_gets|intros option_ec].
  eapply moves_bind; [by apply phase_event|intros _]. destruct (is_error option_ec); [apply phase_fail|].
  eapply moves_bind; [by apply phase_event|intros _].
  eapply moves_bind; [apply phase_gets|intros host].
  do 2 (eapply moves_bind; [apply phase_gets|intros ?]).
  eapply moves_bind; [by apply (phase_mark s [M_connect] _ (M_sni host) host); [|eexists]|intros _].
  destruct (negb _); [apply phase_fail|]. eapply moves_bind; [apply phase_gets|intros verify].
  eapply moves_bind; [by apply (phase_mark s _ _ (M_verify host) host); [|eexists]|intros _].
  destruct (is_error verify); [apply phase_fail|]. eapply moves_bind; [apply phase_shared|intros _].
  eapply moves_bind; [by apply (phase_mark s _ _ M_tls host); [|eexists]|intros _].
  by apply (phase_start s (Op_ssl_handshake h s) host).
Qed.

Lemma handle_ssl_handshake_orderly h s0 ec :
  moves (Taken (Op_ssl_handshake h s0)) (handle_ssl_handshake h ec) Orderly.
Proof.
  apply moves_taken. intros s host. apply phase_stream. simpl.
  do 2 (eapply moves_bind; [by apply phase_event|intros _]).
  eapply moves_bind; [apply phase_shared|intros _].
  do 2 (eapply moves_bind; [apply phase_gets|intros ?]).
  eapply moves_bind; [by apply (phase_mark s _ _ M_websocket host); [|exists []]|intros _].
  by apply (phase_start s (Op_websocket_handshake h s) host).
Qed.

(** The opening is complete. *)
Lemma phase_connected s host :
  moves (Phase s (opening host)) (set_state ConnectionState.connected : M W unit) (At ConnectionState.connected).
Proof.
  apply moves_modify. intros w [[] Hst Hs Hn Hm]. split; [|done]. split; simpl; auto; try done.
  intros _. exists s. split; [done|]. exists host, 0%nat. by rewrite Hm, app_nil_r.
Qed.

Lemma handle_websocket_handshake_orderly h s0 ec :
  moves (Taken (Op_websocket_handshake h s0)) (handle_websocket_handshake h ec) Orderly.
Proof.
  apply moves_taken. intros s host. eapply moves_bind; [apply phase_connected|intros _].
  apply moves_from_at. keep.
Qed.

(** A new stream. *)
Lemma do_connect_orderly h : moves Free (do_connect h) Orderly.
Proof.
  intros w [Hw Hfree]. unfold do_connect, getc at 1. apply wlp_bind, wlp_gets.
  case_bool_decide as Hst; simpl.
  2: { by apply (moves_at _ (λ st, calm_connect_result st h (make_error_code already_connected))). }
  apply wlp_bind, wlp_modify. unfold create_stream, modc. do 2 apply wlp_bind. apply wlp_modify.
  apply wlp_bind, wlp_gets, wlp_bind, wlp_modify, wlp_bind, wlp_modify, wlp_modify.
  set (s := next_stream _). assert (s = next_stream w) as Es by done.
  match goal with |- wlp _ _ ?w => assert (Phase s [] w) as Hp end.
  { specialize (Hfree Hst). destruct Hw.
    assert (∀ s', marks s' (trace w ++ [Ev_lib (L_read_message_max s get_read_buffer_size)]) = marks s' (trace w)) as Hm
      by (intros; rewrite marks_app; apply app_nil_r).
    split; simpl; [split; simpl|..]; try done.
    - intros s'. rewrite Hm. auto.
    - intros s' Hs'. rewrite Hm. apply or_fresh0. lia.
    - intros s' [= <-]. lia.
    - intros _. exists s. split; [done|]. split; [lia|]. intros op Hop Hc.
      apply list_elem_of_lookup in Hop as [i Hi]. rewrite (count_delete _ _ _ _ Hi), Hc in Hfree. lia.
    - rewrite Hm. apply or_fresh0. lia. }
  revert Hp.
  match goal with |- Phase _ _ ?w → wlp ?m _ ?w => generalize w; change (moves (Phase s []) m Orderly) end.
  eapply moves_bind; [apply phase_shared|intros _]. do 2 (eapply moves_bind; [apply phase_gets|intros ?]).
  eapply moves_bind; [by apply phase_event|intros _]. exact (phase_start s (Op_resolve h) "" eq_refl).
Qed.
End phase.

(** * Patient runs *)

Section runs.
Context `{Extension} {Q : Type} `{!FifoQueue WriteSlot Q} `{WriteConfig}.
Context `{!User Q} `{!Virtual Q} `{!OrderlyUser} `{!OrderlyVirtual}.
Context (attempts : ext_task → bool) (run_ext_task : ext_task → M (World Q) unit).
Context (run_ext_wait : ext_wait → error_code → M (World Q) unit).
Notation W := (World Q).

(** The task may start an attempt. *)
Definition may_attempt (t : task) : bool :=
  match t with Task_connect _ => true | Task_ext t => attempts t | _ => false end.

(** If the action runs such a task on a disconnected client, no operation of an
    earlier attempt is pending. *)
Definition patient (w : W) (a : action) : bool :=
  match a with
  | Act_task i _ =>
      match posted w !! i with
      | Some t => negb (may_attempt t) ||
          negb (bool_decide (state (client w) = ConnectionState.disconnected)) ||
          (count connects (pending w) =? 0)%nat
      | None => true
      end
  | _ => true
  end.

Fixpoint patient_run (acts : list action) (w : W) : bool :=
  match acts with
  | [] => true
  | a :: acts =>
      patient w a &&
      match step run_ext_task run_ext_wait a w with
      | Ok (_, w') => patient_run acts w'
      | Fault _ => true
      end
  end.

Context `{!OrderlyTasks attempts run_ext_task run_ext_wait}.
#[local] Notation Orderly := (Orderly (Q := Q)).

Lemma run_task_orderly t :
  if may_attempt t then moves Free (run_task run_ext_task t) Orderly
  else moves Orderly (run_task run_ext_task t) Orderly.
Proof.
  destruct t as [h|m h|h|h|h|h|i|i|t]; simpl; try (by apply moves_at; intros st; unfold stop_ping_timer, stop_read_timer; keep).
  - apply do_connect_orderly.
  - apply keeps_do_close.
  - apply orderly_ext_task.
Qed.

Lemma complete_operation_orderly op c (w : W) :
  Orderly w → (connects op = true → Taken op w) → wlp (complete_operation run_ext_wait op c) (λ _, Orderly) w.
Proof.
  intros Hw Ht. destruct op as [h|h s|h s|h s|s|g s|t l]; simpl in *.
  - by apply handle_resolve_orderly, Ht.
  - by apply (handle_connect_orderly h s), Ht.
  - by apply (handle_ssl_handshake_orderly h s), Ht.
  - by apply (handle_websocket_handshake_orderly h s), Ht.
  - apply wlp_bind, wlp_modify. apply keeps_handle_read.
    apply (Orderly_same w); try done. exists []. by rewrite app_nil_r.
  - by apply keeps_handle_write.
  - unfold Timer.run_wait. destruct (wait_handler l) as [[| |x]|]; simpl.
    + by apply keeps_handle_ping_timer.
    + by apply keeps_handle_read_timeout.
    + by apply orderly_ext_wait.
    + done.
Qed.

Lemma set_env_orderly e : moves Orderly (set_env e : M W unit) Orderly.
Proof. apply moves_at. intros st. unfold set_env. keep. Qed.

Lemma step_orderly a (w : W) : patient w a = true → Orderly w →
  wlp (step run_ext_task run_ext_wait a) (λ _, Orderly) w.
Proof.
  intros Hp Hw. destruct a as [a here|i e|i c]; simpl in *.
  - revert w Hw Hp. cut (∀ w, Orderly w → wlp (modify (λ w : W, w <| env ::= λ e, e <| running_in_this_thread := here |> |>) ;;;
      run_api a) (λ _, Orderly) w); [auto|]. apply moves_at. intros st. keep.
  - unfold set_env. apply wlp_bind, wlp_modify, wlp_bind, wlp_gets. simpl.
    destruct (posted w !! i) as [t|] eqn:Hi.
    + apply wlp_bind, wlp_modify. assert (Ht := run_task_orderly t).
      match goal with |- wlp _ _ ?w1 => assert (Orderly w1) as Hw1; [|set (w2 := w1) in *] end.
      { apply (Orderly_same w); try done. exists []. by rewrite app_nil_r. }
      destruct (may_attempt t); [|by apply Ht]. apply Ht. split; [done|]. intros Hst.
      change (state (client w) = ConnectionState.disconnected) in Hst.
      rewrite bool_decide_true in Hp by done. by apply Nat.eqb_eq in Hp.
    + by apply (set_env_orderly e w).
  - unfold set_env. apply wlp_bind, wlp_modify, wlp_bind, wlp_gets. simpl.
    assert (Orderly (w <| env := (c_env c) <| running_in_this_thread := true |> |>)) as Hw1.
    { apply (Orderly_same w); try done. exists []. by rewrite app_nil_r. }
    set (w1 := w <| env := _ |>) in *. destruct (pending w !! i) as [op|] eqn:Hi; [|done].
    apply wlp_bind, wlp_modify. apply complete_operation_orderly.
    + by apply (Orderly_delete i op).
    + intros Hc. by apply Taken_delete.
Qed.

Lemma steps_orderly acts (w : W) : patient_run acts w = true → Orderly w →
  wlp (steps run_ext_task run_ext_wait acts) (λ _, Orderly) w.
Proof.
  revert w. induction acts as [|a acts IH]; intros w Hp Hw; [done|].
  apply andb_true_iff in Hp as [Ha Hp]. assert (Hs := step_orderly a w Ha Hw).
  unfold steps, run. simpl. apply wlp_bind. unfold wlp at 1 in Hs. unfold wlp at 1.
  destruct (step run_ext_task run_ext_wait a w) as [[[] w']|]; [|done]. by apply IH.
Qed.

Lemma Orderly_init x e : Orderly (World_init x e).
Proof.
  split; simpl; try done. intros s. by apply (orderly_prefix [] ""), prefix_nil.
Qed.
End runs.

(** * The base class and the reconnecting client *)

Section base_class.
Context {Q : Type} `{!FifoQueue WriteSlot Q} `{WriteConfig}.
Context (user_react : list (@event base_extension) → @callback base_extension → list (@api_call base_extension)).
Context (user_generate : list (@event base_extension) → handler → list byte).

#[export] Instance base_orderly_user : @OrderlyUser _ Q (base_user user_react user_generate).
Proof. intros [host port resource h|h] st; simpl; unfold connect, close; keep. Qed.

#[export] Instance base_orderly_virtual : @OrderlyVirtual _ Q (base_virtual user_react user_generate).
Proof. split; [intros l|]; intros ec st; simpl; unfold base_on_unexpected_disconnect; keep. Qed.

#[export] Instance base_orderly_tasks : OrderlyTasks (Q := Q) (λ _, false) no_ext_task no_ext_wait.
Proof. split; intros []. Qed.
End base_class.

Section reconnecting_class.
Context {Q : Type} `{!FifoQueue WriteSlot Q} `{WriteConfig}.
Context (user_react : list (@event R) → @callback R → list (@api_call R)).
Context (user_generate : list (@event R) → handler → list byte).

#[export] Instance reconnecting_orderly_user :
  @OrderlyUser _ Q (reconnecting_user user_react user_generate).
Proof. intros [] st; simpl; unfold get_self, post_ext; keep. Qed.

Lemma calm_getr st {A} (f : Reconnecting → A) : moves (At (Q := Q) st) (getr f) (At st).
Proof. unfold getr. keep. Qed.

Lemma calm_modr st f : moves (At (Q := Q) st) (modr f) (At st).
Proof. unfold modr. keep. Qed.

Lemma calm_schedule_reconnect st : moves (At (Q := Q) st) schedule_reconnect (At st).
Proof.
  assert (Hg := @calm_getr st). assert (Hm := calm_modr st).
  unfold schedule_reconnect, is_reconnect_active, set_reconnect_state, get_self. keep.
Qed.

#[export] Instance reconnecting_orderly_virtual :
  @OrderlyVirtual _ Q (reconnecting_virtual user_react user_generate).
Proof.
  split; [intros l|]; intros ec st; simpl; assert (Hg := @calm_getr st); assert (Hm := calm_modr st);
    assert (Hs := calm_schedule_reconnect st);
    unfold handle_connect_result, not_this_attempt, set_reconnect_state,
      reconnecting_on_unexpected_disconnect, base_on_unexpected_disconnect; keep.
Qed.

Lemma calm_start_connect_attempt st :
  moves (At (Q := Q) st) (start_connect_attempt user_react user_generate) (At st).
Proof.
  assert (Hg := @calm_getr st). assert (Hm := calm_modr st).
  unfold start_connect_attempt, set_reconnect_state, get_self. keep.
Qed.

Lemma calm_stop_reconnecting st : moves (At (Q := Q) st) stop_reconnecting (At st).
Proof.
  assert (Hg := @calm_getr st). assert (Hm := calm_modr st).
  unfold stop_reconnecting, set_reconnect_state. keep.
Qed.

(** A change of the fields that [Orderly] is not about. *)
Lemma free_set_address f : (∀ c : Client Q, ws (f c) = ws c) → (∀ c, state (f c) = state c) →
  moves (Free (Q := Q)) (modc f) Free.
Proof.
  intros Hw Hs. apply moves_modify. intros w [Ho Hf]. split.
  - apply (Orderly_same w); simpl; auto. exists []. by rewrite app_nil_r.
  - simpl. rewrite Hs. exact Hf.
Qed.

(** The lambda of the ready handler is the one that starts an attempt. *)
Definition reconnecting_attempts (t : @ext_task R) : bool :=
  match t with Task_ready _ _ _ _ => true | _ => false end.

Lemma handle_connection_ready_orderly generation host port resource :
  moves (Free (Q := Q)) (handle_connection_ready user_react user_generate generation host port resource)
    Orderly.
Proof.
  unfold handle_connection_ready, not_this_attempt, getr.
  eapply moves_bind; [do 2 (eapply moves_bind; [apply moves_gets|intros ?]); apply moves_ret|intros skip].
  destruct (skip : bool); [eapply moves_weaken; [apply moves_ret|by intros w [? _]|done]|].
  do 3 (eapply moves_bind; [by apply free_set_address|intros _]).
  eapply moves_bind; [eapply moves_bind; [apply moves_gets|]; intros []; [apply moves_throw|apply moves_ret]|intros _].
  eapply moves_bind; [|intros _; apply do_connect_orderly].
  apply moves_modify. intros w [Ho Hf]. split; [by apply Orderly_event|exact Hf].
Qed.

#[export] Instance reconnecting_orderly_tasks : OrderlyTasks (Q := Q) reconnecting_attempts
  (run_reconnecting_task user_react user_generate) (run_reconnecting_wait user_react user_generate).
Proof.
  assert (Hg := @calm_getr). assert (Hm := calm_modr). assert (Hs := calm_start_connect_attempt).
  assert (Hst := calm_stop_reconnecting). split.
  - intros []; simpl.
    + apply moves_at. intros st. unfold start. keep.
    + eapply moves_bind; [apply moves_at; intros st; apply calm_stop_reconnecting|intros _]. apply keeps_do_close.
    + apply moves_at. intros st. unfold set_initial. keep.
    + apply moves_at. intros st. unfold set_max. keep.
    + apply handle_connection_ready_orderly.
  - intros x ec. apply moves_at. intros st.
    unfold run_reconnecting_wait, handle_reconnect_timer, not_this_attempt. keep.
Qed.
End reconnecting_class.

(** * Property *)

Section properties.
Context `{Extension} {Q : Type} `{!FifoQueue WriteSlot Q} `{!FifoQueueLaws WriteSlot Q}
  `{WriteConfig} `{!ExtensionInvariant} `{!User Q} `{!Virtual Q}.
Context (attempts : ext_task → bool) (run_ext_task : ext_task → M (World Q) unit).
Context (run_ext_wait : ext_wait → error_code → M (World Q) unit).
Context `{!StableUser} `{!StableVirtual} `{!StableTasks run_ext_task run_ext_wait}.
Context `{!OrderlyUser} `{!OrderlyVirtual} `{!OrderlyTasks attempts run_ext_task run_ext_wait}.

(** C9: in a run in which no attempt starts while an operation of an earlier
    one is pending, whatever the operations' order and results: what is asked of
    every stream is a part of the opening (connect, name the host, verify that
    same host, TLS handshake, websocket handshake), or the whole of it followed
    by reads, writes and pings only; and a connected client's stream is opened
    in full. *)
Theorem handshakes_before_data acts x e :
  ext_ok x → sane_time (now e) → Z.of_nat (length acts) < two64 → Forall sane_action acts →
  patient_run attempts run_ext_task run_ext_wait acts (World_init x e) = true →
  wp (steps run_ext_task run_ext_wait acts) (λ _ w,
    (∀ s, orderly (marks s (trace w))) ∧
    (state (client w) = ConnectionState.connected → ∃ s, ws (client w) = Some s ∧
      opened (marks s (trace w)))) (World_init x e).
Proof.
  intros Hx He Hlen Hsane Hp.
  eapply wp_mono; [apply (wp_wlp _ (λ _ _, True) (λ _, Orderly))|].
  - eapply wp_mono; [by apply run_from_init|]. done.
  - apply (steps_orderly attempts run_ext_task run_ext_wait); [done|apply Orderly_init].
  - by intros [] w [_ []].
Qed.
End properties.

(** A base client that writes; a reconnecting one that is closed and restarted. *)
Section witnesses.
Import Program ReconnectingProgram.

(** The run that sends a message without TLS is not patient. *)
Example late_success_is_impatient :
  patient_run (λ _ : @ext_task base_extension, false) no_ext_task no_ext_wait
    Late.late_success Program.world0 = false.
Proof. vm_compute. reflexivity. Qed.

Lemma handshakes_before_data_witness :
  marks 0 (trace (Program.world writing)) = opening "example.com" ++ replicate 3 M_io ∧
  wp (steps no_ext_task no_ext_wait writing) (λ _ w,
    (∀ s, orderly (marks s (trace w))) ∧
    (state (client w) = ConnectionState.connected → ∃ s, ws (client w) = Some s ∧
      opened (marks s (trace w)))) (World_init (tt : @ext_state base_extension) env0) ∧
  wp (steps (run_reconnecting_task user_react user_generate)
       (run_reconnecting_wait user_react user_generate) starting) (λ _ w,
    (∀ s, orderly (marks s (trace w))) ∧
    (state (client w) = ConnectionState.connected → ∃ s, ws (client w) = Some s ∧
      opened (marks s (trace w)))) world0.
Proof.
  assert (@OrderlyUser base_extension _ Program.user) as Hu by apply base_orderly_user.
  assert (@OrderlyVirtual base_extension _ Program.virtual) as Hv by apply base_orderly_virtual.
  assert (@OrderlyUser R _ ReconnectingProgram.user) as Hur by apply reconnecting_orderly_user.
  assert (@OrderlyVirtual R _ ReconnectingProgram.virtual) as Hvr by apply reconnecting_orderly_virtual.
  split; [vm_compute; reflexivity|]. split.
  - apply (handshakes_before_data (λ _, false) no_ext_task no_ext_wait writing tt env0);
      [exact I|exact sane_env0|reflexivity|exact sane|vm_compute; reflexivity].
  - apply (handshakes_before_data reconnecting_attempts _ _ starting (Reconnecting_init : @ext_state R) env0);
      [exact init_ok|exact sane_env0|reflexivity|exact sane_starting|vm_compute; reflexivity].
Defined.
End witnesses.
