(* ===== verification/HttpsMultiplexClient.v ===== *)
(** The many-requests-at-a-time HTTPS client of
    [cpp_components/https_multiplex_client/https_multiplex_client.cpp].

    libcurl does the transfers; the client drives it with Asio's sockets and
    timer, and libcurl calls the client back, from inside the client's own
    calls.  libcurl is the parameter [Curl]: how many callbacks a call makes,
    which one comes next, and what the call returns, each an arbitrary function
    of everything that happened before.  [CurlLaws] states what libcurl's
    documentation promises of them.

    The client hands libcurl raw pointers: to its [ConnContext]s (the user data
    of the write and header callbacks, and [CURLOPT_PRIVATE]) and to the [int]s
    it assigns to sockets.  Both live in stores of the [World], from which they
    disappear when their last [shared_ptr] does, so that an access through a
    dangling pointer is the fault [UseAfterFree].  A new object has an address
    never used before. *)

From Stdlib Require Import Ascii.
From S2P Require Import Prelude.

(** * Data *)

(** [HttpMethod]; an enumeration object can hold a value with no enumerator. *)
Module HttpMethod.
Inductive t :=
  | get | head | post | put | del | patch
  | other (n : Z).
End HttpMethod.

Record HttpHeader := { name : string; value : string }.

Record HttpResponse := {
  status_code : Z;
  body : string;
  headers : list HttpHeader;
}.

Definition empty_response : HttpResponse := {| status_code := 0; body := ""; headers := [] |}.

(** A user callback; an empty [std::function] is [None]. *)
Definition handler := nat.

Record ConnContext := {
  easy : option nat;
  curl_headers : option (list string);
  url : string;
  request_body : string;
  timeout : Z;
  response_body : string;
  response_headers : list HttpHeader;
  conn_handler : option handler;
}.

#[export] Instance conn_settable : Settable ConnContext := λ c,
  Build_ConnContext (easy c) (curl_headers c) (url c) (request_body c) (timeout c) (response_body c)
    (response_headers c) (conn_handler c).

(** ** libcurl's vocabulary *)

(** The codes that [from_curl_code] tells apart. *)
Inductive CURLcode :=
  | CURLE_OK | CURLE_COULDNT_RESOLVE_HOST | CURLE_COULDNT_CONNECT | CURLE_OPERATION_TIMEDOUT
  | CURLE_ABORTED_BY_CALLBACK | CURLE_other (n : Z).

Inductive CURLMcode := CURLM_OK | CURLM_error (n : Z).

#[export] Instance curlcode_eq_dec : EqDecision CURLcode.
Proof. solve_decision. Defined.
#[export] Instance curlmcode_eq_dec : EqDecision CURLMcode.
Proof. solve_decision. Defined.

Definition CURL_POLL_IN : Z := 1.
Definition CURL_POLL_OUT : Z := 2.
Definition CURL_POLL_INOUT : Z := 3.
Definition CURL_POLL_REMOVE : Z := 4.
Definition CURL_CSELECT_IN : Z := 1.
Definition CURL_CSELECT_OUT : Z := 2.
Definition CURL_SOCKET_BAD : Z := -1.
Definition CURL_SOCKET_TIMEOUT : Z := CURL_SOCKET_BAD.

(** [curl_easy_setopt], by option.  The callbacks and the handle they are
    registered for are constants of the class. *)
Inductive curl_option :=
  | CURLOPT_HTTPGET | CURLOPT_NOBODY | CURLOPT_POST
  | CURLOPT_CUSTOMREQUEST (verb : string)
  | CURLOPT_POSTFIELDS (body : string) | CURLOPT_POSTFIELDSIZE (size : Z)
  | CURLOPT_URL (url : string)
  | CURLOPT_WRITEFUNCTION | CURLOPT_WRITEDATA (conn : nat)
  | CURLOPT_HEADERFUNCTION | CURLOPT_HEADERDATA (conn : nat)
  | CURLOPT_VERBOSE (on : Z) | CURLOPT_ERRORBUFFER (conn : nat) | CURLOPT_PRIVATE (conn : nat)
  | CURLOPT_NOPROGRESS (on : Z) | CURLOPT_HTTP_VERSION_2_0 | CURLOPT_TCP_KEEPALIVE (on : Z)
  | CURLOPT_FOLLOWLOCATION (on : Z)
  | CURLOPT_TIMEOUT_MS (ms : Z) | CURLOPT_CONNECTTIMEOUT_MS (ms : Z)
  | CURLOPT_CAINFO (file : string) | CURLOPT_HTTPHEADER (lines : list string)
  | CURLOPT_OPENSOCKETFUNCTION | CURLOPT_CLOSESOCKETFUNCTION.

Inductive address_family := AF_INET | AF_INET6 | AF_other (n : Z).

(** The callbacks that libcurl makes.  Those of a transfer name its easy handle,
    whose options hold the user data.  [Cb_open] carries what Asio's calls in
    it return. *)
Inductive curl_callback :=
  | Cb_socket (socket : Z) (what : Z) (socketp : option nat)
  | Cb_timer (timeout_ms : Z)
  | Cb_open (is_ipcxn : bool) (family : address_family) (open_ec non_blocking_ec : error_code) (fd : Z)
  | Cb_close (item : Z)
  | Cb_write (easy : nat) (chunk : string)
  | Cb_header (easy : nat) (line : string).

(** The calls during which it makes them. *)
Inductive curl_call :=
  | Call_add_handle (easy : nat)
  | Call_remove_handle (easy : nat)
  | Call_socket_action (socket : Z) (ev_bitmask : Z)
  | Call_multi_cleanup.

(** [CURLMsg] *)
Record CURLMsg := { msg_done : bool; easy_handle : nat; msg_result : CURLcode }.

(** ** The client and its world *)

Record Client := {
  multi : bool;                         (* not null *)
  still_running : Z;
  ca_certificate_file : string;
  pending : Z;
  socket_map : gmap Z nat;
  socket_actions : gmap Z Z;
  connections : gset nat;               (* the keys; each maps to its own object *)
  actions : gset nat;                   (* likewise *)
}.

Record request_args := {
  ra_method : HttpMethod.t;
  ra_host : string;
  ra_port : string;
  ra_target : string;
  ra_body : string;
  ra_headers : list HttpHeader;
  ra_timeout : Z;
  ra_handler : option handler;
}.

(** The lambdas that the API posts. *)
Inductive task :=
  | Task_request (args : request_args)
  | Task_cancel
  | Task_set_ca_certificate (file : string).

(** The asynchronous operations; a wait on a socket shares its ownership. *)
Inductive operation :=
  | Op_timer
  | Op_socket (tcp_socket : nat) (action : Z).

Inductive event :=
  | Ev_request (h : option handler)
  | Ev_cancel
  | Ev_set_ca_certificate (file : string)
  | Ev_callback (h : handler) (ec : error_code) (r : HttpResponse)
  | Ev_easy_init (easy : option nat)
  | Ev_easy_cleanup (easy : nat)
  | Ev_curl_callback (cb : curl_callback)
  | Ev_add_handle (easy : nat) (code : CURLMcode)
  | Ev_remove_handle (easy : nat)
  | Ev_socket_action (socket ev_bitmask : Z) (code : CURLMcode)
  | Ev_assign (socket : Z) (p : nat) (code : CURLMcode)
  | Ev_multi_cleanup
  | Ev_timer_cancel
  | Ev_timer_expires_after (ms : Z)
  | Ev_timer_async_wait
  | Ev_socket_open (tcp_socket : nat) (family : address_family)
  | Ev_socket_cancel (tcp_socket : nat)
  | Ev_socket_close (tcp_socket : nat)
  | Ev_socket_async_wait (tcp_socket : nat) (action : Z).

Record World := {
  client : Client;
  expired : bool;                       (* no shared_ptr owns the client *)
  contexts : gmap nat ConnContext;      (* the live ConnContext objects *)
  ints : gmap nat Z;                    (* the live action objects *)
  sockets : gmap nat (option Z);        (* the TcpSocket objects: their descriptor when open *)
  options : gmap nat (list curl_option);  (* what libcurl was told of an easy handle *)
  next : nat;                           (* the next address *)
  posted : list task;
  operations : list operation;
  trace : list event;
}.

#[export] Instance client_settable : Settable Client := λ c,
  Build_Client (multi c) (still_running c) (ca_certificate_file c) (pending c) (socket_map c)
    (socket_actions c) (connections c) (actions c).
#[export] Instance world_settable : Settable World := λ w,
  Build_World (client w) (expired w) (contexts w) (ints w) (sockets w) (options w) (next w) (posted w)
    (operations w) (trace w).

Inductive api_call :=
  | Api_request (args : request_args)
  | Api_get (host port target : string) (timeout : Z) (h : option handler)
  | Api_post (host port target body : string) (timeout : Z) (h : option handler)
  | Api_cancel
  | Api_set_ca_certificate (file : string).

(** * libcurl *)

Class Curl := {
  curl_callbacks : list event → curl_call → nat;          (* how many callbacks the call makes *)
  curl_next : list event → curl_call → curl_callback;     (* the next one *)
  curl_code : list event → curl_call → CURLMcode;
  curl_running : list event → Z;                          (* [still_running] after a socket action *)
  curl_assign : list event → Z → nat → CURLMcode;
  curl_easy_ok : list event → bool;                       (* [curl_easy_init] is not null *)
  curl_messages : list event → list CURLMsg;              (* [curl_multi_info_read], until null *)
  curl_response_code : list event → nat → Z;
}.

(** The easy handles that are added to the multi handle. *)
Definition added_step (s : gset nat) (e : event) : gset nat :=
  match e with
  | Ev_add_handle e CURLM_OK => {[ e ]} ∪ s
  | Ev_remove_handle e => s ∖ {[ e ]}
  | _ => s
  end.
Definition added (t : list event) : gset nat := fold_left added_step t ∅.

(** The pointer that is assigned to a socket.  libcurl forgets it when it reports
    [CURL_POLL_REMOVE], and has forgotten all when no handle is added. *)
Definition assigned_step (s : gset nat * gmap Z nat) (e : event) : gset nat * gmap Z nat :=
  let a := added_step (fst s) e in
  match e with
  | Ev_assign socket p CURLM_OK => (a, <[socket := p]> (snd s))
  | Ev_curl_callback (Cb_socket socket what _) =>
      (a, if what =? CURL_POLL_REMOVE then delete socket (snd s) else snd s)
  | Ev_remove_handle _ => (a, if decide (a = ∅) then ∅ else snd s)
  | _ => (a, snd s)
  end.
Definition assigned (t : list event) : gmap Z nat := snd (fold_left assigned_step t (∅, ∅)).

(** A callback that libcurl may make: the callbacks of a transfer are made for a
    handle that is added, sockets are watched for added handles only, and the
    pointer passed with a socket is the assigned one. *)
Definition callback_allowed (t : list event) (cb : curl_callback) : Prop :=
  match cb with
  | Cb_write e _ | Cb_header e _ => e ∈ added t
  | Cb_socket socket what socketp =>
      (what ≠ CURL_POLL_REMOVE → added t ≠ ∅) ∧
      match socketp with Some p => assigned t !! socket = Some p | None => True end
  | _ => True
  end.

Class CurlLaws `{Curl} : Prop := {
  callbacks_allowed t c : callback_allowed t (curl_next t c);
  messages_added t m : m ∈ curl_messages t → easy_handle m ∈ added t;
  messages_distinct t : NoDup (map easy_handle (curl_messages t));
}.

(** The order in which an [unordered_map] is iterated is unspecified. *)
Class Iteration := {
  iterate {A} : list event → list A → list A;
  iterate_perm {A} t (l : list A) : iterate t l ≡ₚ l;
}.

(** * Strings *)

(** [std::string::c_str()] read as a C string: up to the first NUL. *)
Fixpoint c_str (s : string) : string :=
  match s with
  | EmptyString => EmptyString
  | String c s => if Ascii.eqb c Ascii.zero then EmptyString else String c (c_str s)
  end.

Definition is_blank (c : ascii) : bool := Ascii.eqb c " "%char || Ascii.eqb c (ascii_of_nat 9).
Definition is_trailing (c : ascii) : bool :=
  Ascii.eqb c (ascii_of_nat 13) || Ascii.eqb c (ascii_of_nat 10) || is_blank c.

(** The second loop of [trim_header_token], and [substr(start)]. *)
Fixpoint drop_blanks (s : string) : string :=
  match s with
  | String c s' => if is_blank c then drop_blanks s' else s
  | EmptyString => EmptyString
  end.

(** The first loop: [pop_back] while the last character is white space. *)
Fixpoint pop_trailing (s : string) : string :=
  match s with
  | EmptyString => EmptyString
  | String c s' =>
      match pop_trailing s' with
      | EmptyString => if is_trailing c then EmptyString else String c EmptyString
      | s'' => String c s''
      end
  end.

Definition trim_header_token (value : string) : string := drop_blanks (pop_trailing value).

(** [line.find(':')], with what is before and after the colon. *)
Fixpoint split_colon (line : string) : option (string * string) :=
  match line with
  | EmptyString => None
  | String c rest =>
      if Ascii.eqb c ":"%char then Some (EmptyString, rest)
      else '(a, b) ← split_colon rest; Some (String c a, b)
  end.

(** The header that [header_callback] takes from a line. *)
Definition parse_header (line : string) : option HttpHeader :=
  '(a, b) ← split_colon line;
  let h := {| name := trim_header_token a; value := trim_header_token b |} in
  if String.eqb (name h) "" then None else Some h.

(** * Codes *)

Definition from_curl_code (code : CURLcode) : error_code :=
  match code with
  | CURLE_OK => no_error
  | CURLE_OPERATION_TIMEDOUT => make_error_code timed_out
  | CURLE_COULDNT_RESOLVE_HOST => make_error_code host_unreachable
  | CURLE_COULDNT_CONNECT => make_error_code connection_refused
  | CURLE_ABORTED_BY_CALLBACK => make_error_code operation_canceled
  | CURLE_other _ => make_error_code io_error
  end.

Definition to_curl_method (m : HttpMethod.t) : option string :=
  match m with
  | HttpMethod.get => Some "GET"
  | HttpMethod.head => Some "HEAD"
  | HttpMethod.post => Some "POST"
  | HttpMethod.put => Some "PUT"
  | HttpMethod.del => Some "DELETE"
  | HttpMethod.patch => Some "PATCH"
  | HttpMethod.other _ => None
  end.

(** The value of a [long] converted to [unsigned]. *)
Definition to_unsigned (z : Z) : Z := z mod 2 ^ 32.

(** * The client *)

Section client.
Context `{Curl} `{Iteration}.
Context (react : list event → handler → error_code → HttpResponse → list api_call).

Definition Client_init (multi_ok : bool) : Client := {|
  multi := multi_ok; still_running := 0; ca_certificate_file := ""; pending := 0;
  socket_map := ∅; socket_actions := ∅; connections := ∅; actions := ∅;
|}.

Definition World_init (multi_ok : bool) : World := {|
  client := Client_init multi_ok; expired := false; contexts := ∅; ints := ∅; sockets := ∅;
  options := ∅; next := 0; posted := []; operations := []; trace := [];
|}.

Definition log (e : event) : M World unit := modify (λ w, w <| trace ::= λ l, l ++ [e] |>).
Definition getc {A} (f : Client → A) : M World A := gets (λ w, f (client w)).
Definition modc (f : Client → Client) : M World unit := modify (λ w, w <| client ::= f |>).

Definition shared_from_this : M World unit :=
  let! gone := gets expired in
  if (gone : bool) then throw BadWeakPtr else ret tt.

Definition executor_post (t : task) : M World unit := modify (λ w, w <| posted ::= λ l, l ++ [t] |>).

Definition start_operation (op : operation) : M World unit :=
  modify (λ w, w <| operations ::= λ l, l ++ [op] |>).

Definition new_address : M World nat :=
  let! p := gets next in
  modify (λ w, w <| next := S p |>) ;;;
  ret p.

(** [*conn] through a pointer. *)
Definition deref_conn (p : nat) : M World ConnContext :=
  let! cs := gets contexts in
  require UseAfterFree (cs !! p).

Definition modify_conn (p : nat) (f : ConnContext → ConnContext) : M World unit :=
  let! c := deref_conn p in
  modify (λ w, w <| contexts ::= <[p := f c]> |>).

(** The last [shared_ptr] to a [ConnContext] goes; it owns its easy handle. *)
Definition free_conn (p : nat) : M World unit :=
  let! c := deref_conn p in
  match easy c with
  | Some e =>
      log (Ev_easy_cleanup e) ;;;
      modify (λ w, w <| options ::= delete e |>)
  | None => ret tt
  end ;;;
  modify (λ w, w <| contexts ::= delete p |>).

Definition setopt (e : nat) (o : curl_option) : M World unit :=
  modify (λ w, w <| options ::= alter (λ l, l ++ [o]) e |>).

(** ** The API, callable from any thread *)

Definition request (args : request_args) : M World unit :=
  shared_from_this ;;;
  log (Ev_request (ra_handler args)) ;;;
  executor_post (Task_request args).

Definition get (host port target : string) (timeout : Z) (h : option handler) : M World unit :=
  request {| ra_method := HttpMethod.get; ra_host := host; ra_port := port; ra_target := target;
             ra_body := ""; ra_headers := []; ra_timeout := timeout; ra_handler := h |}.

Definition post (host port target body : string) (timeout : Z) (h : option handler) : M World unit :=
  request {| ra_method := HttpMethod.post; ra_host := host; ra_port := port; ra_target := target;
             ra_body := body; ra_headers := []; ra_timeout := timeout; ra_handler := h |}.

Definition cancel : M World unit :=
  shared_from_this ;;;
  log Ev_cancel ;;;
  executor_post Task_cancel.

Definition set_ca_certificate (file : string) : M World unit :=
  shared_from_this ;;;
  log (Ev_set_ca_certificate file) ;;;
  executor_post (Task_set_ca_certificate file).

Definition pending_count (w : World) : Z := pending (client w).
Definition is_busy (w : World) : bool := 0 <? pending_count w.

Definition run_api (a : api_call) : M World unit :=
  match a with
  | Api_request args => request args
  | Api_get host port target timeout h => get host port target timeout h
  | Api_post host port target body timeout h => post host port target body timeout h
  | Api_cancel => cancel
  | Api_set_ca_certificate file => set_ca_certificate file
  end.

(** [if (handler) handler(ec, response)] *)
Definition invoke (h : option handler) (ec : error_code) (r : HttpResponse) : M World unit :=
  match h with
  | None => ret tt
  | Some h =>
      log (Ev_callback h ec r) ;;;
      let! t := gets trace in
      for_each run_api (react t h ec r)
  end.

(** ** What libcurl calls back *)

Definition timer_cancel : M World unit := log Ev_timer_cancel.

Definition handle_timeout_event (timeout_ms : Z) : M World unit :=
  timer_cancel ;;;
  if timeout_ms <? 0 then ret tt else
  log (Ev_timer_expires_after timeout_ms) ;;;
  shared_from_this ;;;
  log Ev_timer_async_wait ;;;
  start_operation Op_timer.

Definition start_watch (tcp_socket : nat) (action : Z) : M World unit :=
  log (Ev_socket_async_wait tcp_socket action) ;;;
  start_operation (Op_socket tcp_socket action).

Definition arm_socket_watches (tcp_socket : nat) (action : Z) : M World unit :=
  shared_from_this ;;;
  when ((action =? CURL_POLL_IN) || (action =? CURL_POLL_INOUT))
    (start_watch tcp_socket CURL_CSELECT_IN) ;;;
  when ((action =? CURL_POLL_OUT) || (action =? CURL_POLL_INOUT))
    (start_watch tcp_socket CURL_CSELECT_OUT).

Definition handle_set_socket (socket action : Z) (actionp : nat) : M World unit :=
  let! sm := getc socket_map in
  match sm !! socket with
  | None => ret tt
  | Some tcp_socket =>
      let! store := gets ints in
      require UseAfterFree (store !! actionp) ;;;
      modify (λ w, w <| ints ::= <[actionp := action]> |>) ;;;
      modc (λ c, c <| socket_actions ::= <[socket := action]> |>) ;;;
      log (Ev_socket_cancel tcp_socket) ;;;
      arm_socket_watches tcp_socket action
  end.

(** [handle_set_socket] returns 0 whatever happens. *)
Definition handle_add_socket (socket what : Z) : M World unit :=
  let! action := new_address in
  modify (λ w, w <| ints ::= <[action := 0]> |>) ;;;
  handle_set_socket socket what action ;;;
  let! t := gets trace in
  let code := curl_assign t socket action in
  log (Ev_assign socket action code) ;;;
  if negb (bool_decide (code = CURLM_OK)) then modify (λ w, w <| ints ::= delete action |>)
  else modc (λ c, c <| actions ::= λ s, {[ action ]} ∪ s |>).

Definition handle_remove_socket (actionp : option nat) : M World unit :=
  match actionp with
  | Some p =>
      modc (λ c, c <| actions ::= λ s, s ∖ {[ p ]} |>) ;;;
      modify (λ w, w <| ints ::= delete p |>)
  | None => ret tt
  end.

Definition handle_socket_event (socket what : Z) (socketp : option nat) : M World unit :=
  if what =? CURL_POLL_REMOVE then
    modc (λ c, c <| socket_actions ::= delete socket |>) ;;;
    handle_remove_socket socketp
  else
  match socketp with
  | None => handle_add_socket socket what
  | Some actionp => handle_set_socket socket what actionp
  end.

Definition is_inet (family : address_family) : bool :=
  match family with AF_INET | AF_INET6 => true | AF_other _ => false end.

(** The socket object is closed again when it is dropped on an error. *)
Definition handle_open_socket (is_ipcxn : bool) (family : address_family)
    (open_ec non_blocking_ec : error_code) (fd : Z) : M World Z :=
  if negb is_ipcxn then ret CURL_SOCKET_BAD else
  let! tcp_socket := new_address in
  if negb (is_inet family) then ret CURL_SOCKET_BAD else
  log (Ev_socket_open tcp_socket family) ;;;
  if is_error open_ec then ret CURL_SOCKET_BAD else
  if is_error non_blocking_ec then log (Ev_socket_close tcp_socket) ;;; ret CURL_SOCKET_BAD else
  let! sm := getc socket_map in
  match sm !! fd with
  | Some _ => log (Ev_socket_close tcp_socket)   (* [insert] keeps the old one *)
  | None =>
      modify (λ w, w <| sockets ::= <[tcp_socket := Some fd]> |>) ;;;
      modc (λ c, c <| socket_map ::= <[fd := tcp_socket]> |>)
  end ;;;
  ret fd.

(** [cancel] and [close] of a [TcpSocket]. *)
Definition close_tcp_socket (tcp_socket : nat) : M World unit :=
  log (Ev_socket_cancel tcp_socket) ;;;
  log (Ev_socket_close tcp_socket) ;;;
  modify (λ w, w <| sockets ::= <[tcp_socket := None]> |>).

Definition handle_close_socket (item : Z) : M World unit :=
  modc (λ c, c <| socket_actions ::= delete item |>) ;;;
  let! sm := getc socket_map in
  match sm !! item with
  | None => ret tt
  | Some tcp_socket =>
      close_tcp_socket tcp_socket ;;;
      modc (λ c, c <| socket_map ::= delete item |>)
  end.

(** The user data that the options of a handle hold. *)
Definition write_data (l : list curl_option) : option nat :=
  last (omap (λ o, match o with CURLOPT_WRITEDATA p => Some p | _ => None end) l).
Definition header_data (l : list curl_option) : option nat :=
  last (omap (λ o, match o with CURLOPT_HEADERDATA p => Some p | _ => None end) l).
Definition private_data (l : list curl_option) : option nat :=
  last (omap (λ o, match o with CURLOPT_PRIVATE p => Some p | _ => None end) l).

Definition userdata (data : list curl_option → option nat) (e : nat) : M World nat :=
  let! os := gets options in
  require UseAfterFree (l ← os !! e; data l).

Definition write_callback (e : nat) (chunk : string) : M World unit :=
  let! conn := userdata write_data e in
  modify_conn conn (λ c, c <| response_body ::= λ b, (b +:+ chunk)%string |>).

Definition header_callback (e : nat) (line : string) : M World unit :=
  let! conn := userdata header_data e in
  match parse_header line with
  | None => ret tt
  | Some h => modify_conn conn (λ c, c <| response_headers ::= λ hs, hs ++ [h] |>)
  end.

Definition run_curl_callback (cb : curl_callback) : M World unit :=
  log (Ev_curl_callback cb) ;;;
  match cb with
  | Cb_socket socket what socketp => handle_socket_event socket what socketp
  | Cb_timer timeout_ms => handle_timeout_event timeout_ms
  | Cb_open is_ipcxn family open_ec non_blocking_ec fd =>
      handle_open_socket is_ipcxn family open_ec non_blocking_ec fd ;;; ret tt
  | Cb_close item => handle_close_socket item
  | Cb_write e chunk => write_callback e chunk
  | Cb_header e line => header_callback e line
  end.

(** The body of a call of libcurl: its callbacks, one after the other. *)
Fixpoint callbacks_of (n : nat) (c : curl_call) : M World unit :=
  match n with
  | O => ret tt
  | S n =>
      let! t := gets trace in
      run_curl_callback (curl_next t c) ;;;
      callbacks_of n c
  end.

Definition curl_body (c : curl_call) : M World CURLMcode :=
  let! t := gets trace in
  callbacks_of (curl_callbacks t c) c ;;;
  let! t := gets trace in
  ret (curl_code t c).

Definition curl_multi_add_handle (e : nat) : M World CURLMcode :=
  let! code := curl_body (Call_add_handle e) in
  log (Ev_add_handle e code) ;;;
  ret code.

(** The client never looks at its result. *)
Definition curl_multi_remove_handle (e : nat) : M World unit :=
  curl_body (Call_remove_handle e) ;;;
  log (Ev_remove_handle e).

Definition curl_multi_socket_action (socket ev_bitmask : Z) : M World CURLMcode :=
  let! code := curl_body (Call_socket_action socket ev_bitmask) in
  log (Ev_socket_action socket ev_bitmask code) ;;;
  let! t := gets trace in
  modc (λ c, c <| still_running := curl_running t |>) ;;;
  ret code.

Definition curl_easy_init : M World (option nat) :=
  let! t := gets trace in
  let! e := new_address in
  let r := if curl_easy_ok t then Some e else None in
  log (Ev_easy_init r) ;;;
  when (curl_easy_ok t) (modify (λ w, w <| options ::= <[e := []]> |>)) ;;;
  ret r.

(** ** Requests *)

(** libcurl keeps the pointer and reads as many bytes as it is told, also beyond
    a NUL. *)
Definition apply_method (e : nat) (method : HttpMethod.t) (body : string) : M World error_code :=
  let fields := setopt e (CURLOPT_POSTFIELDS body) ;;;
                setopt e (CURLOPT_POSTFIELDSIZE (Z.of_nat (String.length body))) in
  match method with
  | HttpMethod.get => setopt e CURLOPT_HTTPGET ;;; ret no_error
  | HttpMethod.head => setopt e CURLOPT_NOBODY ;;; ret no_error
  | HttpMethod.post => setopt e CURLOPT_POST ;;; fields ;;; ret no_error
  | HttpMethod.put => setopt e (CURLOPT_CUSTOMREQUEST "PUT") ;;; fields ;;; ret no_error
  | HttpMethod.del =>
      setopt e (CURLOPT_CUSTOMREQUEST "DELETE") ;;;
      when (negb (String.eqb body "")) fields ;;;
      ret no_error
  | HttpMethod.patch => setopt e (CURLOPT_CUSTOMREQUEST "PATCH") ;;; fields ;;; ret no_error
  | HttpMethod.other _ => ret (make_error_code invalid_argument)
  end.

Definition timeout_ms (timeout : Z) : Z := if 0 <? timeout then timeout else 0.
Definition connect_timeout_ms (timeout_ms : Z) : Z := if 0 <? timeout_ms then timeout_ms else 5000.

(** The options of [configure_easy_handle], in order. *)
Definition easy_configuration (ca_file : string) (p : nat) (c : ConnContext) : list curl_option :=
  [CURLOPT_URL (c_str (url c)); CURLOPT_WRITEFUNCTION; CURLOPT_WRITEDATA p;
   CURLOPT_HEADERFUNCTION; CURLOPT_HEADERDATA p; CURLOPT_VERBOSE 0; CURLOPT_ERRORBUFFER p;
   CURLOPT_PRIVATE p; CURLOPT_NOPROGRESS 1; CURLOPT_HTTP_VERSION_2_0; CURLOPT_TCP_KEEPALIVE 1;
   CURLOPT_FOLLOWLOCATION 1; CURLOPT_TIMEOUT_MS (timeout_ms (timeout c));
   CURLOPT_CONNECTTIMEOUT_MS (connect_timeout_ms (timeout_ms (timeout c)))] ++
  (if String.eqb ca_file "" then [] else [CURLOPT_CAINFO (c_str ca_file)]) ++
  match curl_headers c with Some lines => [CURLOPT_HTTPHEADER lines] | None => [] end ++
  [CURLOPT_OPENSOCKETFUNCTION; CURLOPT_CLOSESOCKETFUNCTION].

Definition configure_easy_handle (p e : nat) : M World error_code :=
  let! c := deref_conn p in
  let! ca_file := getc ca_certificate_file in
  for_each (setopt e) (easy_configuration ca_file p c) ;;;
  ret no_error.

(** [if (conn->handler) conn->handler(ec, {})] *)
Definition fail_conn (p : nat) (ec : error_code) : M World unit :=
  let! c := deref_conn p in
  invoke (conn_handler c) ec empty_response.

(** The handler is moved out of the context before it is called. *)
Definition answer_conn (p : nat) (ec : error_code) (r : HttpResponse) : M World unit :=
  let! c := deref_conn p in
  modify_conn p (λ c, c <| conn_handler := None |>) ;;;
  invoke (conn_handler c) ec r.

(** [curl_easy_getinfo(easy, CURLINFO_PRIVATE)]; null when it was never set. *)
Definition getinfo_private (e : nat) : M World (option nat) :=
  let! os := gets options in
  let! l := require UseAfterFree (os !! e) in
  ret (private_data l).

(** One round of the loop of [check_multi_info]. *)
Definition handle_message (m : CURLMsg) : M World unit :=
  if negb (msg_done m) then ret tt else
  let! raw_conn := getinfo_private (easy_handle m) in
  let! conns := getc connections in
  match raw_conn with
  | Some p =>
      if decide (p ∈ conns) then
        modc (λ c, c <| connections ::= λ s, s ∖ {[ p ]} |>) ;;;
        curl_multi_remove_handle (easy_handle m) ;;;
        modc (λ c, c <| pending ::= λ n, u64 (n - 1) |>) ;;;
        let! conn := deref_conn p in
        let! t := gets trace in
        let response :=
          if decide (msg_result m = CURLE_OK) then
            {| status_code := to_unsigned (curl_response_code t (easy_handle m));
               body := response_body conn; headers := response_headers conn |}
          else empty_response in
        answer_conn p (from_curl_code (msg_result m)) response ;;;
        free_conn p
      else curl_multi_remove_handle (easy_handle m)
  | None => curl_multi_remove_handle (easy_handle m)
  end.

Definition check_multi_info : M World unit :=
  let! t := gets trace in
  for_each handle_message (curl_messages t).

(** [start_request]; the caller's [shared_ptr] goes when it returns. *)
Definition start_request (p : nat) (method : HttpMethod.t) : M World unit :=
  let! multi_ok := getc multi in
  if negb multi_ok then fail_conn p (make_error_code operation_not_permitted) ;;; free_conn p else
  let! e := curl_easy_init in
  match e with
  | None => fail_conn p (make_error_code resource_unavailable_try_again) ;;; free_conn p
  | Some e =>
      modify_conn p (λ c, c <| easy := Some e |>) ;;;
      let! c := deref_conn p in
      let! ec := apply_method e method (request_body c) in
      if is_error ec then fail_conn p ec ;;; free_conn p else
      let! ec := configure_easy_handle p e in
      if is_error ec then fail_conn p ec ;;; free_conn p else
      let! code := curl_multi_add_handle e in
      if negb (bool_decide (code = CURLM_OK)) then
        fail_conn p (make_error_code io_error) ;;; free_conn p
      else
        modc (λ c, c <| pending ::= u64_succ |>) ;;;
        modc (λ c, c <| connections ::= λ s, {[ p ]} ∪ s |>) ;;;
        let! code := curl_multi_socket_action CURL_SOCKET_TIMEOUT 0 in
        when (bool_decide (code = CURLM_OK)) check_multi_info
  end.

Definition new_conn (args : request_args) : ConnContext := {|
  easy := None;
  curl_headers :=
    if decide (ra_headers args = []) then None
    else Some (map (λ h, c_str (name h +:+ ": " +:+ value h)%string) (ra_headers args));
  url := ("https://" +:+ ra_host args +:+ ":" +:+ ra_port args +:+ ra_target args)%string;
  request_body := ra_body args;
  timeout := ra_timeout args;
  response_body := "";
  response_headers := [];
  conn_handler := ra_handler args;
|}.

Definition do_request (args : request_args) : M World unit :=
  match to_curl_method (ra_method args) with
  | None => invoke (ra_handler args) (make_error_code invalid_argument) empty_response
  | Some _ =>
      let! p := new_address in
      modify (λ w, w <| contexts ::= <[p := new_conn args]> |>) ;;;
      start_request p (ra_method args)
  end.

Definition do_set_ca_certificate (file : string) : M World unit :=
  modc (λ c, c <| ca_certificate_file := file |>).

(** [if (multi && conn->easy) curl_multi_remove_handle(...)] *)
Definition remove_conn (p : nat) : M World unit :=
  let! conn := deref_conn p in
  let! multi_ok := getc multi in
  match easy conn with
  | Some e => when multi_ok (curl_multi_remove_handle e)
  | None => ret tt
  end.

(** The end of [do_cancel] and of the destructor: every socket is closed. *)
Definition close_sockets : M World unit :=
  let! t := gets trace in
  let! sm := getc socket_map in
  for_each (λ s, close_tcp_socket (snd s)) (iterate t (map_to_list sm)) ;;;
  modc (λ c, c <| socket_map := ∅ |>) ;;;
  modc (λ c, c <| socket_actions := ∅ |>) ;;;
  modc (λ c, c <| actions := ∅ |>) ;;;
  modify (λ w, w <| ints := ∅ |>) ;;;
  modc (λ c, c <| still_running := 0 |>).

(** One round of the loop of [do_cancel]. *)
Definition cancel_conn (p : nat) : M World unit :=
  remove_conn p ;;;
  answer_conn p (make_error_code operation_canceled) empty_response.

Definition do_cancel : M World unit :=
  timer_cancel ;;;
  let! outstanding := getc connections in
  modc (λ c, c <| connections := ∅ |>) ;;;
  let! t := gets trace in
  for_each cancel_conn (iterate t (elements outstanding)) ;;;
  modc (λ c, c <| pending := 0 |>) ;;;
  close_sockets ;;;
  for_each free_conn (elements outstanding).

(** ** What Asio calls back *)

Definition event_callback (tcp_socket : nat) (action : Z) : M World unit :=
  let! multi_ok := getc multi in
  let! ss := gets sockets in
  match ss !! tcp_socket with
  | Some (Some fd) =>
      if negb multi_ok then ret tt else
      let! code := curl_multi_socket_action fd action in
      if negb (bool_decide (code = CURLM_OK)) then ret tt else
      check_multi_info ;;;
      let! running := getc still_running in
      if running <=? 0 then timer_cancel else
      let! watches := getc socket_actions in
      match watches !! fd with
      | Some watch => arm_socket_watches tcp_socket watch
      | None => ret tt
      end
  | _ => ret tt
  end.

Definition asio_timer_callback (ec : error_code) : M World unit :=
  let! multi_ok := getc multi in
  if is_error ec || negb multi_ok then ret tt else
  let! code := curl_multi_socket_action CURL_SOCKET_TIMEOUT 0 in
  when (bool_decide (code = CURLM_OK)) check_multi_info.

(** ** The destructor *)

(** One round of its loop: the handler is dropped. *)
Definition drop_conn (p : nat) : M World unit :=
  remove_conn p ;;;
  modify_conn p (λ c, c <| conn_handler := None |>).

Definition destroy : M World unit :=
  modify (λ w, w <| expired := true |>) ;;;
  timer_cancel ;;;
  let! outstanding := getc connections in
  modc (λ c, c <| connections := ∅ |>) ;;;
  modc (λ c, c <| pending := 0 |>) ;;;
  let! t := gets trace in
  for_each drop_conn (iterate t (elements outstanding)) ;;;
  close_sockets ;;;
  let! multi_ok := getc multi in
  when multi_ok (
    curl_body Call_multi_cleanup ;;;
    log Ev_multi_cleanup ;;;
    modc (λ c, c <| multi := false |>)) ;;;
  for_each free_conn (elements outstanding).

(** ** Events of the executor *)

Definition run_task (t : task) : M World unit :=
  match t with
  | Task_request args => do_request args
  | Task_cancel => do_cancel
  | Task_set_ca_certificate file => do_set_ca_certificate file
  end.

(** The lambdas of [handle_timeout_event] and of [arm_socket_watches]. *)
Definition complete_operation (op : operation) (ec : error_code) : M World unit :=
  match op with
  | Op_timer => asio_timer_callback ec
  | Op_socket tcp_socket action =>
      if is_error ec then ret tt else event_callback tcp_socket action
  end.

Inductive action :=
  | Act_api (a : api_call)                        (* some thread calls the client *)
  | Act_task (i : nat)                            (* the executor runs a posted task *)
  | Act_complete (i : nat) (ec : error_code).     (* a pending operation completes *)

Definition step (a : action) : M World unit :=
  match a with
  | Act_api a => run_api a
  | Act_task i =>
      let! ts := gets posted in
      match ts !! i with
      | None => ret tt
      | Some t => modify (λ w, w <| posted ::= delete i |>) ;;; run_task t
      end
  | Act_complete i ec =>
      let! ops := gets operations in
      match ops !! i with
      | None => ret tt
      | Some op => modify (λ w, w <| operations ::= delete i |>) ;;; complete_operation op ec
      end
  end.

Definition steps : list action → M World unit := run step.
End client.
