(* ===== verification/HeaderLines.v ===== *)
(** The header lines of the multiplexing client: [trim_header_token] and the
    parser in [header_callback] of
    [cpp_components/https_multiplex_client/https_multiplex_client.cpp].

    [trim_spec] says what is cut off a token; [header_line_roundtrip] that a
    header printed on a line, with any white space around its value, is read
    back; [parsed_lines] what the lines are from which a header is read. *)

From Stdlib Require Import Ascii.
From S2P Require Import Prelude HttpsMultiplexClient.

(** * Strings *)

Fixpoint all_chars (P : ascii → bool) (s : string) : bool :=
  match s with
  | EmptyString => true
  | String c s => P c && all_chars P s
  end.

Definition starts_with (P : ascii → bool) (s : string) : bool :=
  match s with String c _ => P c | EmptyString => false end.

Fixpoint ends_with (P : ascii → bool) (s : string) : bool :=
  match s with
  | EmptyString => false
  | String c EmptyString => P c
  | String _ s => ends_with P s
  end.

(** A token with no white space around it. *)
Definition is_trimmed (s : string) : bool :=
  negb (starts_with is_blank s) && negb (ends_with is_trailing s).

#[local] Arguments String.append : simpl nomatch.

Lemma sapp_nil_r s : (s +:+ "" = s)%string.
Proof. induction s as [|c s IH]; [done|]. simpl. by rewrite IH. Qed.

Lemma sapp_assoc a b c : ((a +:+ b) +:+ c = a +:+ (b +:+ c))%string.
Proof. induction a as [|x a IH]; [done|]. simpl. by rewrite IH. Qed.

Lemma all_chars_app P a b : all_chars P (a +:+ b)%string = all_chars P a && all_chars P b.
Proof. induction a as [|c a IH]; [done|]. simpl. by rewrite IH, andb_assoc. Qed.

Lemma all_chars_impl (P P' : ascii → bool) s :
  (∀ c, P c = true → P' c = true) → all_chars P s = true → all_chars P' s = true.
Proof.
  intros HP. induction s as [|c s IH]; [done|]. simpl. rewrite !andb_true_iff. intros [Hc Hs]. split; auto.
Qed.

Lemma ends_with_app P a b : b ≠ ""%string → ends_with P (a +:+ b)%string = ends_with P b.
Proof.
  intros Hb. induction a as [|c a IH]; [done|]. simpl. rewrite IH.
  destruct a; [by destruct b|done].
Qed.

Lemma blank_trailing c : is_blank c = true → is_trailing c = true.
Proof. unfold is_trailing. intros ->. by rewrite !orb_true_r. Qed.

(** * Trimming *)

Lemma pop_trailing_all s : all_chars is_trailing s = true → pop_trailing s = ""%string.
Proof.
  induction s as [|c s IH]; [done|]. simpl. intros [Hc Hs]%andb_true_iff. by rewrite IH, Hc.
Qed.

Lemma pop_trailing_app a b :
  all_chars is_trailing b = true → pop_trailing (a +:+ b)%string = pop_trailing a.
Proof.
  intros Hb. induction a as [|c a IH]; simpl; [by apply pop_trailing_all|]. by rewrite IH.
Qed.

Lemma pop_trailing_id s : ends_with is_trailing s = false → pop_trailing s = s.
Proof.
  induction s as [|c s IH]; [done|]. destruct s as [|c' s]; intros He.
  - simpl in *. by rewrite He.
  - change (pop_trailing (String c (String c' s))) with
      (match pop_trailing (String c' s) with
       | EmptyString => if is_trailing c then EmptyString else String c EmptyString
       | s'' => String c s''
       end). by rewrite IH.
Qed.

(** [pop_trailing] cuts white space off the end, and nothing else. *)
Lemma pop_trailing_spec s : ∃ post, (s = pop_trailing s +:+ post)%string ∧
  all_chars is_trailing post = true ∧ ends_with is_trailing (pop_trailing s) = false.
Proof.
  induction s as [|c s (post & Hs & Hpost & Hend)]; simpl; [by exists ""%string|].
  destruct (pop_trailing s) as [|c' s'] eqn:Hpop.
  - simpl in Hs. subst s. destruct (is_trailing c) eqn:Hc.
    + exists (String c post). simpl. by rewrite Hc.
    + exists post. simpl. by rewrite Hc.
  - exists post. split; [simpl; by rewrite Hs at 1|]. done.
Qed.

Lemma drop_blanks_app a s : all_chars is_blank a = true → drop_blanks (a +:+ s)%string = drop_blanks s.
Proof.
  induction a as [|c a IH]; [done|]. simpl. intros [Hc Ha]%andb_true_iff. rewrite Hc. auto.
Qed.

Lemma drop_blanks_id s : starts_with is_blank s = false → drop_blanks s = s.
Proof. destruct s as [|c s]; [done|]. simpl. by intros ->. Qed.

Lemma drop_blanks_spec s : ∃ pre, (s = pre +:+ drop_blanks s)%string ∧
  all_chars is_blank pre = true ∧ starts_with is_blank (drop_blanks s) = false.
Proof.
  induction s as [|c s (pre & Hs & Hpre & Hst)]; [by exists ""%string|]. simpl.
  destruct (is_blank c) eqn:Hc; [|by exists ""%string].
  exists (String c pre). simpl. rewrite Hc, <- Hs. done.
Qed.

Lemma trim_id s : is_trimmed s = true → trim_header_token s = s.
Proof.
  unfold is_trimmed, trim_header_token. rewrite andb_true_iff, !negb_true_iff. intros [Hst Hend].
  rewrite pop_trailing_id by done. by apply drop_blanks_id.
Qed.

(** A value with white space around it. *)
Lemma trim_padded pre s post :
  all_chars is_blank pre = true → all_chars is_trailing post = true → is_trimmed s = true →
  trim_header_token (pre +:+ s +:+ post)%string = s.
Proof.
  intros Hpre Hpost Hs. unfold trim_header_token. rewrite <- sapp_assoc, pop_trailing_app by done.
  pose proof Hs as Htrim. unfold is_trimmed in Hs. rewrite andb_true_iff, !negb_true_iff in Hs.
  destruct Hs as [Hst Hend]. destruct s as [|c s].
  - rewrite sapp_nil_r, pop_trailing_all; [done|]. by eapply all_chars_impl; [apply blank_trailing|].
  - rewrite pop_trailing_id by (by rewrite ends_with_app). rewrite drop_blanks_app by done.
    by apply drop_blanks_id.
Qed.

(** [trim_header_token] cuts blanks off the front and white space off the end,
    and leaves a token with none around it. *)
Lemma trim_spec s : ∃ pre post, (s = pre +:+ trim_header_token s +:+ post)%string ∧
  all_chars is_blank pre = true ∧ all_chars is_trailing post = true ∧
  is_trimmed (trim_header_token s) = true.
Proof.
  destruct (pop_trailing_spec s) as (post & Hs & Hpost & Hend).
  destruct (drop_blanks_spec (pop_trailing s)) as (pre & Hp & Hpre & Hst).
  exists pre, post. unfold trim_header_token. rewrite <- sapp_assoc, <- Hp.
  split; [done|]. split; [done|]. split; [done|]. unfold is_trimmed. rewrite Hst. simpl.
  apply negb_true_iff. destruct (drop_blanks (pop_trailing s)) as [|c d] eqn:Hd; [done|].
  rewrite Hp in Hend. by rewrite ends_with_app in Hend.
Qed.

Lemma trim_is_trimmed s : is_trimmed (trim_header_token s) = true.
Proof. by destruct (trim_spec s) as (_ & _ & _ & _ & _ & Ht). Qed.

(** * Lines *)

Definition is_colon (c : ascii) : bool := Ascii.eqb c ":"%char.
Definition no_colon (s : string) : bool := all_chars (λ c, negb (is_colon c)) s.

Lemma split_colon_app a b : no_colon a = true → split_colon (a +:+ String ":" b)%string = Some (a, b).
Proof.
  induction a as [|c a IH]; [done|]. unfold no_colon. simpl. intros [Hc Ha]%andb_true_iff.
  unfold is_colon in Hc. apply negb_true_iff in Hc. rewrite Hc. by rewrite IH.
Qed.

Lemma split_colon_Some line a b : split_colon line = Some (a, b) →
  (line = a +:+ String ":" b)%string ∧ no_colon a = true.
Proof.
  revert a. induction line as [|c line IH]; intros a Hl; [done|]. simpl in Hl.
  destruct (Ascii.eqb c ":"%char) eqn:Hc.
  - injection Hl as <- <-. apply Ascii.eqb_eq in Hc as ->. done.
  - destruct (split_colon line) as [[a' b']|]; [|done]. simpl in Hl. injection Hl as <- <-.
    destruct (IH a' eq_refl) as [-> Ha]. split; [done|]. unfold no_colon, is_colon in *. simpl. by rewrite Hc.
Qed.

Lemma split_colon_None line : split_colon line = None ↔ no_colon line = true.
Proof.
  unfold no_colon. induction line as [|c line IH]; [done|]. simpl. unfold is_colon at 1.
  destruct (Ascii.eqb c ":"%char); simpl; [done|]. rewrite <- IH.
  by destruct (split_colon line) as [[]|].
Qed.

Lemma trailing_no_colon s : all_chars is_trailing s = true → no_colon s = true.
Proof.
  apply all_chars_impl. intros c. unfold is_colon. destruct (Ascii.eqb_spec c ":"%char) as [->|]; [|done].
  by vm_compute.
Qed.

(** A header on a line, with [ws] around the name and the value. *)
Record padding := { before_name : string; after_name : string; before_value : string; after_value : string }.

Definition print_header (h : HttpHeader) (ws : padding) : string :=
  (before_name ws +:+ name h +:+ after_name ws +:+ ":" +:+
   before_value ws +:+ value h +:+ after_value ws)%string.

Definition is_padding (ws : padding) : bool :=
  all_chars is_blank (before_name ws) && all_chars is_trailing (after_name ws) &&
  all_chars is_blank (before_value ws) && all_chars is_trailing (after_value ws).

Definition is_header (h : HttpHeader) : bool :=
  negb (String.eqb (name h) "") && no_colon (name h) && is_trimmed (name h) && is_trimmed (value h).

Lemma print_header_split h ws : print_header h ws =
  ((before_name ws +:+ name h +:+ after_name ws) +:+
   String ":" (before_value ws +:+ value h +:+ after_value ws))%string.
Proof. unfold print_header. by rewrite !sapp_assoc. Qed.

Lemma parse_print h ws : is_header h = true → is_padding ws = true →
  parse_header (print_header h ws) = Some h.
Proof.
  unfold is_header, is_padding. rewrite !andb_true_iff, negb_true_iff.
  intros [[[Hne Hcol] Hn] Hv] [[[H1 H2] H3] H4]. unfold parse_header.
  rewrite print_header_split, split_colon_app.
  - simpl. rewrite !trim_padded by done. rewrite Hne. by destruct h.
  - unfold no_colon in *. rewrite !all_chars_app, Hcol, andb_true_iff. simpl. split.
    + apply trailing_no_colon. by eapply all_chars_impl; [apply blank_trailing|].
    + by apply trailing_no_colon.
Qed.

Lemma parse_Some line h : parse_header line = Some h →
  is_header h = true ∧ ∃ ws, is_padding ws = true ∧ line = print_header h ws.
Proof.
  unfold parse_header. destruct (split_colon line) as [[a b]|] eqn:Hs; [|done]. simpl.
  apply split_colon_Some in Hs as [-> Ha]. destruct (String.eqb _ "") eqn:Hne; [done|]. intros [= <-].
  destruct (trim_spec a) as (p1 & p2 & Ea & H1 & H2 & Ht).
  destruct (trim_spec b) as (p3 & p4 & Eb & H3 & H4 & Ht'). split.
  - unfold is_header. simpl. rewrite Hne, Ht, Ht', !andb_true_r. simpl.
    unfold no_colon in *. rewrite Ea, !all_chars_app, !andb_true_iff in Ha. by destruct Ha as (_ & ? & _).
  - exists {| before_name := p1; after_name := p2; before_value := p3; after_value := p4 |}.
    unfold is_padding. simpl. rewrite H1, H2, H3, H4. split; [done|].
    rewrite print_header_split. simpl. by rewrite <- Ea, <- Eb.
Qed.

(** * Properties *)

(** C38: [header_callback] reads a header from exactly the lines on which it can
    have been printed: a name that is not empty and holds no colon, a colon and
    a value, each with any white space around it (before it spaces and tabs,
    after it line ends as well), the white space not being part of them. *)
Theorem header_line_roundtrip line h :
  parse_header line = Some h ↔
  is_header h = true ∧ ∃ ws, is_padding ws = true ∧ line = print_header h ws.
Proof.
  split; [apply parse_Some|]. intros (Hh & ws & Hws & ->). by apply parse_print.
Qed.
