(* ===== verification/MultiplexInvariant.v ===== *)
(** The invariant of the multiplexing client, and that libcurl's callbacks keep
    it, for every libcurl that keeps to [CurlLaws].

    [Own A] says which easy handles exist, which of them are added (those of
    the contexts in [A]) and that their user data points to their context;
    [Resp] that a context holds what libcurl wrote for its handle; [Ints] that
    what is assigned to a socket is alive.  [idle] is what most callbacks do,
    [quiet] what any of them may change, [calm] what adding and removing a
    handle leaves alone; [Acct] counts requests and answers. *)

From S2P Require Import Prelude HttpsMultiplexClient.

Lemma size_add (p : nat) (X : gset nat) : p ∉ X → size ({[ p ]} ∪ X) = S (size X).
Proof. intros Hp. rewrite size_union by set_solver. by rewrite size_singleton. Qed.

Lemma size_remove (p : nat) (X : gset nat) : p ∈ X → size X = S (size (X ∖ {[ p ]})).
Proof.
  intros Hp. rewrite <- (size_add p) by set_solver. f_equal. apply union_difference_L. set_solver.
Qed.

(** * What the trace says *)

Lemma added_snoc t e : added (t ++ [e]) = added_step (added t) e.
Proof. unfold added. by rewrite fold_left_app. Qed.

Lemma assigned_fst t : fst (fold_left assigned_step t (∅, ∅)) = added t.
Proof.
  unfold added. induction t as [|e t IH] using rev_ind; [done|].
  rewrite !fold_left_app, <- IH. destruct (fold_left assigned_step t (∅, ∅)) as [a m].
  simpl. destruct e; simpl; repeat case_match; done.
Qed.

Lemma assigned_snoc t e : assigned (t ++ [e]) = snd (assigned_step (added t, assigned t) e).
Proof.
  unfold assigned. rewrite fold_left_app. simpl. rewrite <- assigned_fst.
  by destruct (fold_left assigned_step t (∅, ∅)).
Qed.

Definition is_request_of (h : handler) (e : event) : bool :=
  match e with Ev_request (Some h') => bool_decide (h = h') | _ => false end.
Definition is_callback_of (h : handler) (e : event) : bool :=
  match e with Ev_callback h' _ _ => bool_decide (h = h') | _ => false end.
Definition is_init_of (e : nat) (ev : event) : bool :=
  match ev with Ev_easy_init (Some e') => bool_decide (e = e') | _ => false end.
Definition is_cleanup_of (e : nat) (ev : event) : bool :=
  match ev with Ev_easy_cleanup e' => bool_decide (e = e') | _ => false end.
Definition is_task_of (h : handler) (t : task) : bool :=
  match t with Task_request args => bool_decide (ra_handler args = Some h) | _ => false end.

(** What libcurl wrote for a handle: the body, and the header lines. *)
Definition written_step (e : nat) (b : string) (ev : event) : string :=
  match ev with
  | Ev_curl_callback (Cb_write e' chunk) => if decide (e = e') then (b +:+ chunk)%string else b
  | _ => b
  end.
Definition written (e : nat) (t : list event) : string := fold_left (written_step e) t "".
Definition header_lines (e : nat) : list event → list string :=
  omap (λ ev, match ev with
    | Ev_curl_callback (Cb_header e' line) => if decide (e = e') then Some line else None
    | _ => None
    end).

Lemma written_snoc e t ev : written e (t ++ [ev]) = written_step e (written e t) ev.
Proof. unfold written. by rewrite fold_left_app. Qed.

Lemma header_lines_snoc e t ev : header_lines e (t ++ [ev]) = header_lines e t ++ header_lines e [ev].
Proof. unfold header_lines. by rewrite omap_app. Qed.

(** The events of libcurl's callbacks. *)
Definition curl_event (e : event) : bool :=
  match e with
  | Ev_curl_callback _ | Ev_socket_action _ _ _ | Ev_assign _ _ _ | Ev_multi_cleanup
  | Ev_timer_cancel | Ev_timer_expires_after _ | Ev_timer_async_wait | Ev_socket_open _ _
  | Ev_socket_cancel _ | Ev_socket_close _ | Ev_socket_async_wait _ _ | Ev_easy_init None => true
  | _ => false
  end.

(** A cleaned-up handle is not added at the time. *)
Definition cleanups_safe (t : list event) : Prop :=
  ∀ t1 t2 e, t = t1 ++ Ev_easy_cleanup e :: t2 → e ∉ added t1.

Lemma cleanups_safe_snoc t ev :
  cleanups_safe t → (∀ e, ev = Ev_easy_cleanup e → e ∉ added t) → cleanups_safe (t ++ [ev]).
Proof.
  intros Ht Hev t1 t2 e Heq. destruct t2 as [|ev' t2 _] using rev_ind.
  - apply app_inj_tail in Heq as [-> ->]. by apply Hev.
  - rewrite app_comm_cons, app_assoc in Heq. apply app_inj_tail in Heq as [-> _]. by eapply Ht.
Qed.

(** * The invariant *)

Section invariant.
Context `{HC : Curl} `{HL : !CurlLaws}.

Definition owns (w : World) (p e : nat) : Prop := ∃ c, contexts w !! p = Some c ∧ easy c = Some e.

Definition points_to (p : nat) (l : list curl_option) : Prop :=
  write_data l = Some p ∧ header_data l = Some p ∧ private_data l = Some p.

Record Own (A : gset nat) (w : World) : Prop := {
  own_alive : expired w = false;
  own_next p c : contexts w !! p = Some c → (p < next w)%nat;
  own_easy p e : owns w p e → (e < next w)%nat ∧ is_Some (options w !! e);
  own_options e : is_Some (options w !! e) → ∃ p, owns w p e;
  own_inj p q e : owns w p e → owns w q e → p = q;
  own_added e : e ∈ added (trace w) ↔ ∃ p, p ∈ A ∧ owns w p e;
  own_data p : p ∈ A → ∃ e l, owns w p e ∧ options w !! e = Some l ∧ points_to p l;
  own_released e : count (is_init_of e) (trace w) =
    (count (is_cleanup_of e) (trace w) + if decide (is_Some (options w !! e)) then 1 else 0)%nat;
  own_cleanups : cleanups_safe (trace w);
}.

Record Resp (w : World) : Prop := {
  resp_context p c e : contexts w !! p = Some c → easy c = Some e →
    response_body c = written e (trace w) ∧
    response_headers c = omap parse_header (header_lines e (trace w));
  resp_fresh e : (next w ≤ e)%nat →
    written e (trace w) = "" ∧ header_lines e (trace w) = [] ∧
    count (is_init_of e) (trace w) = 0%nat;
}.

Record Ints (w : World) : Prop := {
  ints_assigned s p : assigned (trace w) !! s = Some p → p ∈ actions (client w);
  ints_inj s s' p : assigned (trace w) !! s = Some p → assigned (trace w) !! s' = Some p → s = s';
  ints_alive p : p ∈ actions (client w) → is_Some (ints w !! p);
  ints_next p : is_Some (ints w !! p) → (p < next w)%nat;
  ints_none : added (trace w) = ∅ → assigned (trace w) = ∅;
}.

Definition Mem (A : gset nat) (w : World) : Prop := Own A w ∧ Resp w ∧ Ints w.

(** Who owns a handle and waits for an answer. *)
Definition owner (c : ConnContext) : option nat * option handler := (easy c, conn_handler c).

Record quiet (w w' : World) : Prop := {
  q_expired : expired w' = expired w;
  q_options : options w' = options w;
  q_posted : posted w' = posted w;
  q_owners : owner <$> contexts w' = owner <$> contexts w;
  q_next : (next w ≤ next w')%nat;
  q_connections : connections (client w') = connections (client w);
  q_pending : pending (client w') = pending (client w);
  q_multi : multi (client w') = multi (client w);
  q_trace : ∃ es, trace w' = trace w ++ es ∧ Forall (λ e, curl_event e = true) es;
}.

#[export] Instance quiet_preorder : PreOrder quiet.
Proof.
  split.
  - intros w. split; try done. exists []. by rewrite app_nil_r.
  - intros w1 w2 w3 [] []. split; try (etrans; eassumption).
    destruct q_trace0 as (es & E1 & F1), q_trace1 as (es' & E2 & F2).
    exists (es ++ es'). rewrite E2, E1, app_assoc. split; [done|]. by apply Forall_app.
Qed.

(** ** What keeps the parts of the invariant *)

Lemma owners_owns w w' p e : owner <$> contexts w' = owner <$> contexts w → owns w' p e ↔ owns w p e.
Proof.
  intros Hq. unfold owns.
  assert (owner <$> (contexts w' !! p) = owner <$> (contexts w !! p)) as Hp
    by (by rewrite <- !lookup_fmap, Hq).
  destruct (contexts w' !! p) as [c'|], (contexts w !! p) as [c|]; try done.
  - simpl in Hp. assert (easy c' = easy c) as He by (unfold owner in Hp; congruence).
    split; intros (c0 & [= <-] & Hc0); eexists; (split; [done|]); congruence.
Qed.

(** ** Which events matter to what *)

(** What [Own] does not look at. *)
Definition unhandled (e : event) : bool :=
  match e with
  | Ev_easy_init (Some _) | Ev_easy_cleanup _ | Ev_add_handle _ _ | Ev_remove_handle _ => false
  | _ => true
  end.

(** What [Ints] does not look at. *)
Definition unassigning (e : event) : bool :=
  match e with
  | Ev_assign _ _ _ | Ev_add_handle _ _ | Ev_remove_handle _ => false
  | Ev_curl_callback (Cb_socket _ what _) => negb (what =? CURL_POLL_REMOVE)
  | _ => true
  end.

Lemma Forall_event (P P' : event → bool) es : (∀ e, P e = true → P' e = true) →
  Forall (λ e, P e = true) es → Forall (λ e, P' e = true) es.
Proof. intros HP Hes. eapply Forall_impl; [exact Hes|]. exact HP. Qed.

Lemma curl_unhandled e : curl_event e = true → unhandled e = true.
Proof. by destruct e. Qed.

(** Going through the events that were added to a trace. *)
Lemma snoc_events (P : event → bool) (R : list event → Prop) t es :
  R t → (∀ t e, P e = true → R t → R (t ++ [e])) → Forall (λ e, P e = true) es → R (t ++ es).
Proof.
  intros Ht Hstep Hes. induction es as [|e es IH] using rev_ind; [by rewrite app_nil_r|].
  apply Forall_app in Hes as [Hes He]. rewrite Forall_singleton in He.
  rewrite app_assoc. apply Hstep; [done|]. by apply IH.
Qed.

Lemma added_unhandled t es : Forall (λ e, unhandled e = true) es → added (t ++ es) = added t.
Proof.
  apply (snoc_events unhandled (λ t', added t' = added t)); [done|]. intros t' e He <-.
  rewrite added_snoc. by destruct e.
Qed.

Lemma added_unassigning t es : Forall (λ e, unassigning e = true) es → added (t ++ es) = added t.
Proof.
  apply (snoc_events unassigning (λ t', added t' = added t)); [done|]. intros t' e He <-.
  rewrite added_snoc. by destruct e.
Qed.

Lemma cleanups_unhandled t es :
  Forall (λ e, unhandled e = true) es → cleanups_safe t → cleanups_safe (t ++ es).
Proof.
  intros Hes Ht. revert Hes. apply (snoc_events unhandled cleanups_safe); [done|].
  intros t' e He Ht'. apply cleanups_safe_snoc; [done|]. by intros e' ->.
Qed.

Lemma count_events (P P' : event → bool) t es : (∀ e, P e = true → P' e = false) →
  Forall (λ e, P e = true) es → count P' (t ++ es) = count P' t.
Proof.
  intros HP Hes. rewrite count_app, (count_zero P' es); [lia|].
  intros e He. rewrite Forall_forall in Hes. auto.
Qed.

Lemma assigned_unassigning t es :
  Forall (λ e, unassigning e = true) es → assigned (t ++ es) = assigned t.
Proof.
  apply (snoc_events unassigning (λ t', assigned t' = assigned t)); [done|]. intros t' e He <-.
  rewrite assigned_snoc. destruct e as [| | | | | |[s what| | | | | ]| | | | | | | | | | | |]; try done.
  simpl in *. by destruct (what =? CURL_POLL_REMOVE).
Qed.

Lemma Own_frame A w w' es :
  expired w' = expired w → owner <$> contexts w' = owner <$> contexts w → options w' = options w →
  (next w ≤ next w')%nat → trace w' = trace w ++ es → Forall (λ e, unhandled e = true) es →
  Own A w → Own A w'.
Proof.
  intros Qe Qc Qo Qn Qt Qf [Hal Hn He Ho Hi Ha Hd Hr Hc].
  assert (∀ p e, owns w' p e ↔ owns w p e) as Hq by (intros; by apply owners_owns).
  split.
  - by rewrite Qe.
  - intros p c Hp. assert (is_Some ((owner <$> contexts w) !! p)) as [o Hop].
    { rewrite <- Qc, lookup_fmap, Hp. by eauto. }
    rewrite lookup_fmap in Hop. apply fmap_Some in Hop as (c' & Hc' & _). specialize (Hn _ _ Hc'). lia.
  - intros p e Hp. rewrite Qo. apply Hq in Hp. destruct (He _ _ Hp). split; [lia|done].
  - intros e Hs. rewrite Qo in Hs. destruct (Ho _ Hs) as [p Hp]. exists p. by apply Hq.
  - intros p q e Hp Hp'. apply Hq in Hp, Hp'. by eapply Hi.
  - intros e. rewrite Qt, added_unhandled, Ha by done.
    split; intros (p & Hp & Hp'); exists p; (split; [done|]); by apply Hq.
  - intros p Hp. destruct (Hd p Hp) as (e & l & H1 & H2 & H3). exists e, l. rewrite Qo.
    split; [by apply Hq|done].
  - intros e. rewrite Qo, Qt, !(count_events unhandled) by (done || by intros [| | | |[]| | | | | | | | | | | | | |]).
    apply Hr.
  - rewrite Qt. by apply cleanups_unhandled.
Qed.

(** What [Resp] does not look at. *)
Definition silent (ev : event) : bool :=
  match ev with
  | Ev_curl_callback (Cb_write _ _) | Ev_curl_callback (Cb_header _ _) | Ev_easy_init (Some _) => false
  | _ => true
  end.

Lemma written_silent e t es :
  Forall (λ ev, silent ev = true) es → written e (t ++ es) = written e t.
Proof.
  apply (snoc_events silent (λ t', written e t' = written e t)); [done|]. intros t' ev He <-.
  rewrite written_snoc. by destruct ev as [| | | | | |[]| | | | | | | | | | | |].
Qed.

Lemma lines_silent e t es :
  Forall (λ ev, silent ev = true) es → header_lines e (t ++ es) = header_lines e t.
Proof.
  apply (snoc_events silent (λ t', header_lines e t' = header_lines e t)); [done|].
  intros t' ev He <-. rewrite header_lines_snoc.
  destruct ev as [| | | | | |[]| | | | | | | | | | | |]; simpl; rewrite ?app_nil_r; done.
Qed.

Lemma Resp_frame w w' es :
  contexts w' = contexts w → (next w ≤ next w')%nat → trace w' = trace w ++ es →
  Forall (λ ev, silent ev = true) es → Resp w → Resp w'.
Proof.
  intros Hc Hn Ht Hes [Rc Rf]. split.
  - intros p c e. rewrite Hc, Ht, written_silent, lines_silent by done. apply Rc.
  - intros e He. rewrite Ht, written_silent, lines_silent, (count_events silent) by (done || by intros [| | | |[]| | | | | | | | | | | | | |]).
    apply Rf. lia.
Qed.

Lemma Ints_frame w w' es :
  actions (client w') = actions (client w) → dom (ints w') = dom (ints w) → (next w ≤ next w')%nat →
  trace w' = trace w ++ es → Forall (λ e, unassigning e = true) es → Ints w → Ints w'.
Proof.
  intros Ha Hd Hn Ht Hes [I1 I2 I3 I4 I5].
  assert (∀ p, is_Some (ints w' !! p) ↔ is_Some (ints w !! p)) as Hi.
  { intros p. by rewrite <- !elem_of_dom, Hd. }
  split.
  - intros s p. rewrite Ht, assigned_unassigning, Ha by done. apply I1.
  - intros s s' p. rewrite Ht, assigned_unassigning by done. apply I2.
  - intros p. rewrite Ha, Hi. apply I3.
  - intros p Hp%Hi%I4. lia.
  - rewrite Ht, assigned_unassigning, added_unassigning by done. exact I5.
Qed.

Lemma Own_quiet A w w' : quiet w w' → Own A w → Own A w'.
Proof.
  intros [? ? ? ? ? ? ? ? (es & ? & Hes)]. eapply Own_frame; [done..|].
  eapply Forall_event; [|exact Hes]. apply curl_unhandled.
Qed.

(** ** What most callbacks do: nothing to contexts, actions and assignments *)

Definition idle_event (e : event) : bool :=
  match e with
  | Ev_curl_callback (Cb_write _ _) | Ev_curl_callback (Cb_header _ _) | Ev_assign _ _ _ => false
  | Ev_curl_callback (Cb_socket _ what _) => negb (what =? CURL_POLL_REMOVE)
  | _ => curl_event e
  end.

Record idle (w w' : World) : Prop := {
  i_expired : expired w' = expired w;
  i_options : options w' = options w;
  i_posted : posted w' = posted w;
  i_contexts : contexts w' = contexts w;
  i_next : (next w ≤ next w')%nat;
  i_connections : connections (client w') = connections (client w);
  i_pending : pending (client w') = pending (client w);
  i_multi : multi (client w') = multi (client w);
  i_actions : actions (client w') = actions (client w);
  i_ints : dom (ints w') = dom (ints w);
  i_trace : ∃ es, trace w' = trace w ++ es ∧ Forall (λ e, idle_event e = true) es;
}.

#[export] Instance idle_preorder : PreOrder idle.
Proof.
  split.
  - intros w. split; try done. exists []. by rewrite app_nil_r.
  - intros w1 w2 w3 [] []. split; try (etrans; eassumption).
    destruct i_trace0 as (es & E1 & F1), i_trace1 as (es' & E2 & F2).
    exists (es ++ es'). rewrite E2, E1, app_assoc. split; [done|]. by apply Forall_app.
Qed.

Lemma idle_curl e : idle_event e = true → curl_event e = true.
Proof. by destruct e. Qed.
Lemma idle_silent e : idle_event e = true → silent e = true.
Proof. by destruct e as [| | | | | |[]| | | | | | | | | | | |]. Qed.
Lemma idle_unassigning e : idle_event e = true → unassigning e = true.
Proof. by destruct e as [| | | | | |[]| | | | | | | | | | | |]. Qed.

Lemma idle_quiet w w' : idle w w' → quiet w w'.
Proof.
  intros []. split; try done; [by rewrite i_contexts0|].
  destruct i_trace0 as (es & E & F). exists es. split; [done|].
  eapply Forall_event; [|exact F]. apply idle_curl.
Qed.

Lemma Mem_idle A w w' : idle w w' → Mem A w → Mem A w'.
Proof.
  intros Hi (HO & HR & HI'). pose proof (idle_quiet _ _ Hi) as Hq.
  destruct Hi as [_ _ _ Hc Hn _ _ _ Ha Hd (es & Ht & Hf)].
  split; [by eapply Own_quiet|split].
  - eapply Resp_frame; [done..| |done]. eapply Forall_event; [|exact Hf]. apply idle_silent.
  - eapply Ints_frame; [done..| |done]. eapply Forall_event; [|exact Hf]. apply idle_unassigning.
Qed.

Definition keeps {B} (m : M World B) (w : World) : Prop := wp m (λ _, idle w) w.

Lemma keeps_ret {B} (b : B) w : keeps (ret b) w.
Proof. by apply wp_ret. Qed.

Lemma keeps_bind {B C} (m : M World B) (k : B → M World C) w :
  keeps m w → (∀ b w', idle w w' → keeps (k b) w') → keeps (bind m k) w.
Proof.
  intros Hm Hk. apply wp_bind. eapply wp_mono; [exact Hm|]. intros b w' Hw'.
  eapply wp_mono; [exact (Hk _ _ Hw')|]. intros c w'' Hw''. by trans w'.
Qed.

Lemma keeps_gets {B C} (f : World → B) (k : B → M World C) w :
  keeps (k (f w)) w → keeps (bind (gets f) k) w.
Proof. intros Hk. by apply wp_bind, wp_gets. Qed.

Lemma keeps_modify f w : idle w (f w) → keeps (modify f) w.
Proof. intros Hf. by apply wp_modify. Qed.

Lemma idle_log e w : idle_event e = true → idle w (w <| trace ::= λ l, l ++ [e] |>).
Proof. intros He. split; try done. exists [e]. split; [done|]. by apply Forall_singleton. Qed.

Lemma keeps_log e w : idle_event e = true → keeps (log e) w.
Proof. intros He. by apply keeps_modify, idle_log. Qed.

Lemma keeps_shared w : expired w = false → keeps shared_from_this w.
Proof. intros Hw. apply keeps_gets. rewrite Hw. apply keeps_ret. Qed.

Lemma keeps_when b (m : M World unit) w : keeps m w → keeps (when b m) w.
Proof. destruct b; [done|]. intros _. apply keeps_ret. Qed.

End invariant.

(** A change of fields that the invariant does not mention. *)
Ltac unobserved := apply keeps_modify; split; try done; exists []; by rewrite app_nil_r.
Ltac keeps_step :=
  lazymatch goal with
  | |- keeps (bind (gets _) _) _ => apply keeps_gets
  | |- keeps (bind (getc _) _) _ => apply keeps_gets
  | |- keeps (bind _ _) _ => apply keeps_bind; [|intros ?b ?w' ?Hw']
  | |- keeps (log _) _ => by apply keeps_log
  | |- keeps (ret _) _ => apply keeps_ret
  | |- keeps (when _ _) _ => apply keeps_when
  | |- keeps (modify _) _ => unobserved
  | |- keeps (modc _) _ => unobserved
  end.

(** Proves that [Mem] ignores a change, from the [Mem] of the world before it. *)
Ltac mem_unseen H :=
  let H' := fresh in
  pose proof H as H'; destruct H' as ([] & [] & []); split; [|split]; split; done.

Section callbacks.
Context `{HC : Curl} `{HL : !CurlLaws}.

Lemma idle_int w w' p : idle w w' → is_Some (ints w !! p) → is_Some (ints w' !! p).
Proof. intros Hi. rewrite <- !elem_of_dom. by rewrite (i_ints _ _ Hi). Qed.

Lemma idle_alive w w' : idle w w' → expired w = false → expired w' = false.
Proof. intros Hi. by rewrite (i_expired _ _ Hi). Qed.

Lemma keeps_timeout ms w : expired w = false → keeps (handle_timeout_event ms) w.
Proof.
  intros Hw. unfold handle_timeout_event, timer_cancel, start_operation. keeps_step; [by keeps_step|].
  case_match; [keeps_step|]. repeat keeps_step.
  apply keeps_shared. eauto using idle_alive.
Qed.

Lemma keeps_watches s a w : expired w = false → keeps (arm_socket_watches s a) w.
Proof.
  intros Hw. unfold arm_socket_watches, start_watch, start_operation.
  keeps_step; [by apply keeps_shared|]. repeat keeps_step.
Qed.

Lemma keeps_set_socket socket a p w :
  expired w = false → is_Some (ints w !! p) → keeps (handle_set_socket socket a p) w.
Proof.
  intros Hw Hp. unfold handle_set_socket. keeps_step. case_match; [|keeps_step].
  keeps_step. keeps_step.
  { destruct Hp as [v ->]. apply keeps_ret. }
  keeps_step.
  { apply keeps_modify. split; try done; simpl; [|exists []; by rewrite app_nil_r].
    rewrite dom_insert_L. apply subseteq_union_1_L, singleton_subseteq_l, elem_of_dom.
    by eapply idle_int. }
  do 2 (keeps_step; [by keeps_step|]).
  apply keeps_watches. eauto using idle_alive.
Qed.

Lemma keeps_close_tcp_socket s w : keeps (close_tcp_socket s) w.
Proof. unfold close_tcp_socket. repeat keeps_step. Qed.

Lemma keeps_close_socket item w : keeps (handle_close_socket item) w.
Proof.
  unfold handle_close_socket. repeat keeps_step. case_match; [|keeps_step].
  keeps_step; [apply keeps_close_tcp_socket|keeps_step].
Qed.

Lemma keeps_new_address w : keeps new_address w.
Proof.
  unfold new_address. keeps_step. keeps_step; [|keeps_step].
  apply keeps_modify. split; try done; simpl; [lia|]. exists []. by rewrite app_nil_r.
Qed.

Lemma keeps_open_socket b f ec ec' fd w : keeps (handle_open_socket b f ec ec' fd) w.
Proof.
  unfold handle_open_socket. case_match; [keeps_step|]. keeps_step; [apply keeps_new_address|].
  case_match; [keeps_step|]. keeps_step; [keeps_step|]. case_match; [keeps_step|].
  case_match; [repeat keeps_step|]. keeps_step. keeps_step; [|keeps_step].
  case_match; repeat keeps_step.
Qed.

(** ** Every callback keeps the invariant *)

Definition hears A {B} (m : M World B) (w : World) : Prop :=
  wp m (λ _ w', Mem A w' ∧ quiet w w') w.

Lemma keeps_hears A {B} (m : M World B) w : Mem A w → keeps m w → hears A m w.
Proof.
  intros HM Hm. eapply wp_mono; [exact Hm|]. intros b w' Hw'.
  split; [exact (Mem_idle _ _ _ Hw' HM)|exact (idle_quiet _ _ Hw')].
Qed.

Lemma hears_bind A {B C} (m : M World B) (k : B → M World C) w :
  hears A m w → (∀ b w', Mem A w' → quiet w w' → hears A (k b) w') → hears A (bind m k) w.
Proof.
  intros Hm Hk. apply wp_bind. eapply wp_mono; [exact Hm|]. intros b w' [HM Hq].
  eapply wp_mono; [exact (Hk _ _ HM Hq)|]. intros c w'' [HM' Hq']. split; [done|]. by trans w'.
Qed.

Lemma mem_alive A w : Mem A w → expired w = false.
Proof. intros [[] _]. done. Qed.

(** libcurl reports that it is done with a socket. *)
Lemma remove_socket_wp A socket what p w :
  Mem A w → what = CURL_POLL_REMOVE →
  callback_allowed (trace w) (Cb_socket socket what p) →
  hears A (log (Ev_curl_callback (Cb_socket socket what p)) ;;; handle_socket_event socket what p) w.
Proof.
  intros (HO & HR & [I1 I2 I3 I4 I5]) -> [_ Hp].
  set (ev := Ev_curl_callback (Cb_socket socket CURL_POLL_REMOVE p)).
  set (w' := w <| trace ::= λ t, t ++ [ev] |>
               <| client ::= λ c, c <| socket_actions ::= delete socket |>
                    <| actions ::= λ s, match p with Some p => s ∖ {[ p ]} | None => s end |> |>
               <| ints ::= λ m, match p with Some p => delete p m | None => m end |>).
  assert (quiet w w') as Hq.
  { split; try done. exists [ev]. split; [done|]. by apply Forall_singleton. }
  assert (added (trace w') = added (trace w)) as Hadd by (simpl; by rewrite added_snoc).
  assert (assigned (trace w') = delete socket (assigned (trace w))) as Has
    by (simpl; by rewrite assigned_snoc).
  assert (Mem A w') as HM.
  { split; [by eapply Own_quiet|]. split; [|split].
    - eapply (Resp_frame w _ [ev]); [done|done|done|by apply Forall_singleton|done].
    - intros s q. rewrite Has, lookup_delete_Some. intros [Hs Hq'].
      specialize (I1 _ _ Hq'). simpl. destruct p as [p|]; [|done].
      apply elem_of_difference. split; [done|]. intros ->%elem_of_singleton. apply Hs.
      by eapply I2.
    - intros s s' q. rewrite Has, !lookup_delete_Some. intros [_ H1] [_ H2]. by eapply I2.
    - intros q. simpl. destruct p as [p|]; [|apply I3]. intros [Hq1 Hq2]%elem_of_difference.
      rewrite lookup_delete_ne by set_solver. by apply I3.
    - intros q. simpl. destruct p as [p|]; [|apply I4].
      rewrite lookup_delete_is_Some. intros [_ Hq1]. by apply I4.
    - rewrite Hadd, Has. intros Hn. rewrite I5 by done. apply delete_empty. }
  unfold hears, handle_socket_event, handle_remove_socket. apply wp_bind, wp_modify.
  rewrite Z.eqb_refl. apply wp_bind, wp_modify.
  destruct p as [p|]; [apply wp_bind, wp_modify, wp_modify|apply wp_ret].
  - by destruct w as [[]].
  - by destruct w as [[]].
Qed.

(** A world that differs in its actions and the assignments only. *)
Lemma Mem_ints A w w' es :
  quiet w w' → contexts w' = contexts w → trace w' = trace w ++ es →
  Forall (λ ev, silent ev = true) es → Ints w' → Mem A w → Mem A w'.
Proof.
  intros Hq Hc Ht Hes HI' (HO & HR & _). split; [by eapply Own_quiet|]. split; [|done].
  eapply Resp_frame; [done|apply Hq|done..].
Qed.

(** A new [int], not yet assigned. *)
Lemma new_int_wp A w : Mem A w →
  wp (let! p := new_address in modify (λ w, w <| ints ::= <[p := 0]> |>) ;;; ret p) (λ p w',
    Mem A w' ∧ quiet w w' ∧ trace w' = trace w ∧ is_Some (ints w' !! p) ∧
    p ∉ actions (client w')) w.
Proof.
  intros HM. pose proof HM as (_ & _ & [I1 I2 I3 I4 I5]).
  unfold new_address. apply wp_bind, wp_bind, wp_gets, wp_bind, wp_modify, wp_ret, wp_bind, wp_modify, wp_ret.
  match goal with |- Mem _ ?w2 ∧ _ => set (w' := w2) end.
  assert (next w ∉ actions (client w)) as Hfresh.
  { intros Hp%I3%I4. lia. }
  assert (quiet w w') as Hq.
  { split; try done; simpl; [lia|]. exists []. by rewrite app_nil_r. }
  split; [|split; [done|split; [done|split; [|done]]]].
  - apply (Mem_ints _ w _ []); try done; [by rewrite app_nil_r|]. split; try done; simpl.
    + intros p Hp. rewrite lookup_insert_ne by (by intros <-). by apply I3.
    + intros p. rewrite lookup_insert_is_Some. intros [->|[_ Hp%I4]]; lia.
  - simpl. rewrite lookup_insert_eq. by eauto.
Qed.

Lemma add_socket_wp A socket what w :
  Mem A w → added (trace w) ≠ ∅ → hears A (handle_add_socket socket what) w.
Proof.
  intros HM Hadd. unfold hears, handle_add_socket.
  assert (∀ (k : nat → M World unit) Q,
    wp (let! p := (let! p := new_address in modify (λ w, w <| ints ::= <[p := 0]> |>) ;;; ret p) in k p) Q w →
    wp (let! p := new_address in modify (λ w, w <| ints ::= <[p := 0]> |>) ;;; k p) Q w) as Hassoc.
  { intros k Q. unfold new_address. by autorewrite with wpdb. }
  apply Hassoc, wp_bind. eapply wp_mono; [by apply new_int_wp|].
  intros p w1 (HM1 & Hq1 & Ht1 & Hp1 & Ha1). apply wp_bind.
  eapply wp_mono; [apply keeps_set_socket; [by eapply mem_alive|exact Hp1]|].
  intros [] w2 Hi2. pose proof (Mem_idle _ _ _ Hi2 HM1) as HM2.
  pose proof (idle_int _ _ _ Hi2 Hp1) as Hp2. rewrite <- (i_actions _ _ Hi2) in Ha1.
  assert (quiet w w2) as Hq2 by (trans w1; [done|by apply idle_quiet]).
  assert (added (trace w2) ≠ ∅) as Hadd2.
  { destruct Hq2 as [_ _ _ _ _ _ _ _ (es & -> & Hes)]. rewrite added_unhandled; [done|].
    eapply Forall_event; [|exact Hes]. apply curl_unhandled. }
  pose proof HM2 as (_ & _ & [I1 I2 I3 I4 I5]).
  apply wp_bind, wp_gets, wp_bind, wp_modify.
  set (code := curl_assign (trace w2) socket p). set (ev := Ev_assign socket p code).
  assert (quiet w2 (w2 <| trace ::= λ t, t ++ [ev] |>)) as Hq3.
  { split; try done. exists [ev]. split; [done|]. by apply Forall_singleton. }
  assert (added (trace w2 ++ [ev]) = added (trace w2)) as Hadd3 by (by rewrite added_snoc).
  assert (assigned (trace w2 ++ [ev]) =
    if decide (code = CURLM_OK) then <[socket := p]> (assigned (trace w2)) else assigned (trace w2)) as Has.
  { rewrite assigned_snoc. unfold ev. by destruct code. }
  destruct (decide (code = CURLM_OK)) as [Hok|Hok].
  - rewrite bool_decide_true by done. apply wp_modify. split.
    + eapply (Mem_ints _ w2 _ [ev]); [by destruct Hq3|done|done|by apply Forall_singleton| |done].
      split; simpl; rewrite ?Hadd3, ?Has.
      * intros s q. rewrite lookup_insert_Some. intros [[_ <-]|[_ Hq]]; [by apply elem_of_union_l, elem_of_singleton|].
        apply elem_of_union_r. by eapply I1.
      * intros s s' q. rewrite !lookup_insert_Some.
        intros [[<- <-]|[Hs H1]] [[<- Heq]|[Hs' H2]]; [done|..].
        -- by apply I1 in H2.
        -- subst q. by apply I1 in H1.
        -- by eapply I2.
      * intros q [->%elem_of_singleton|Hq]%elem_of_union; [done|by apply I3].
      * done.
      * done.
    + trans w2; [done|]. by destruct Hq3.
  - rewrite bool_decide_false by done. apply wp_modify. split.
    + eapply (Mem_ints _ w2 _ [ev]); [by destruct Hq3|done|done|by apply Forall_singleton| |done].
      split; simpl; rewrite ?Hadd3, ?Has; try done.
      * intros q Hq. rewrite lookup_delete_ne by (by intros <-). by apply I3.
      * intros q. rewrite lookup_delete_is_Some. intros [_ Hq]. by apply I4.
    + trans w2; [done|]. by destruct Hq3.
Qed.

Lemma userdata_wp w e p l data :
  options w !! e = Some l → data l = Some p → wp (userdata data e) (λ q w', q = p ∧ w' = w) w.
Proof.
  intros Hl Hd. unfold userdata. apply wp_bind, wp_gets, wp_require. exists p. by rewrite Hl.
Qed.

(** libcurl adds to the response of the handle [e]. *)
Lemma respond_wp A w e cb (f : ConnContext → ConnContext) p c :
  Mem A w → contexts w !! p = Some c → easy c = Some e →
  let w' := w <| trace ::= λ t, t ++ [Ev_curl_callback cb] |> <| contexts ::= <[p := f c]> |> in
  (∃ b, cb = Cb_write e b ∧ f = λ c, c <| response_body ::= λ b', (b' +:+ b)%string |>) ∨
  (∃ l, cb = Cb_header e l ∧ f = λ c, match parse_header l with
    | Some h => c <| response_headers ::= λ hs, hs ++ [h] |>
    | None => c
    end) →
  Mem A w' ∧ quiet w w'.
Proof.
  intros (HO & [Rc Rf] & HI') Hp He w' Hcb.
  assert (owner (f c) = owner c) as Hown
    by (destruct Hcb as [(? & _ & ->)|(? & _ & ->)]; simpl; try case_match; by destruct c).
  assert (quiet w w') as Hq.
  { split; try done.
    - simpl. rewrite fmap_insert, Hown. apply insert_id. by rewrite lookup_fmap, Hp.
    - exists [Ev_curl_callback cb]. split; [done|]. by apply Forall_singleton. }
  assert (∀ e', e' ≠ e → written e' (trace w') = written e' (trace w) ∧
    header_lines e' (trace w') = header_lines e' (trace w)) as Hother.
  { intros e' Hne. simpl. rewrite written_snoc, header_lines_snoc.
    destruct Hcb as [(b & -> & _)|(l & -> & _)]; simpl; rewrite ?decide_False by done;
      by rewrite ?app_nil_r. }
  split; [|done]. split; [by eapply Own_quiet|]. split; [split|].
  - intros q d e' Hq' He'. simpl in Hq'. apply lookup_insert_Some in Hq' as [[<- <-]|[Hne Hq']].
    + assert (e' = e) as ->.
      { unfold owner in Hown. congruence. }
      destruct (Rc _ _ _ Hp He) as [Hb Hh]. simpl. rewrite written_snoc, header_lines_snoc, omap_app.
      destruct Hcb as [(b & -> & ->)|(l & -> & ->)]; simpl; rewrite decide_True by done; simpl.
      * by rewrite Hb, app_nil_r.
      * destruct (parse_header l); simpl; by rewrite ?app_nil_r, ?Hb, ?Hh.
    + destruct (Hother e') as [-> ->]; [|by apply Rc with q].
      intros ->. apply Hne. eapply (own_inj _ _ HO); [by exists c|by exists d].
  - intros e' He'. simpl in He'.
    assert (e < next w)%nat as Hlt by (by eapply (own_easy _ _ HO); exists c).
    destruct (Hother e') as [-> ->]; [lia|]. simpl. rewrite count_app. simpl.
    destruct (Rf _ He') as (-> & -> & ->). done.
  - destruct HI' as [I1 I2 I3 I4 I5].
    assert (added (trace w') = added (trace w)) as Hadd by (simpl; by rewrite added_snoc).
    assert (assigned (trace w') = assigned (trace w)) as Has.
    { simpl. rewrite assigned_snoc. by destruct Hcb as [(b & -> & _)|(l & -> & _)]. }
    split; rewrite ?Has, ?Hadd; done.
Qed.

Lemma transfer_wp A w e : Mem A w → e ∈ added (trace w) →
  ∃ p c l, contexts w !! p = Some c ∧ easy c = Some e ∧ options w !! e = Some l ∧ points_to p l ∧ p ∈ A.
Proof.
  intros (HO & _) He. apply (own_added _ _ HO) in He as (p & Hp & c & Hc & Hce).
  destruct (own_data _ _ HO _ Hp) as (e' & l & (c' & Hc' & He') & Hl & Hd).
  rewrite Hc in Hc'. injection Hc' as <-. rewrite Hce in He'. injection He' as <-. eauto 10.
Qed.

Lemma curl_callback_wp A w c : Mem A w → hears A (run_curl_callback (curl_next (trace w) c)) w.
Proof.
  intros HM. pose proof (callbacks_allowed (trace w) c) as Hall.
  unfold run_curl_callback. destruct (curl_next (trace w) c) as [s what sp|ms|b f ec ec' fd|item|e b|e l].
  - destruct (decide (what = CURL_POLL_REMOVE)) as [->|Hne]; [by apply remove_socket_wp|].
    assert (what =? CURL_POLL_REMOVE = false) as Hwhat by lia.
    destruct Hall as [Hadd Hp]. specialize (Hadd Hne).
    assert (idle_event (Ev_curl_callback (Cb_socket s what sp)) = true) as Hev by (simpl; by rewrite Hwhat).
    unfold hears. apply wp_bind, wp_modify. pose proof (idle_log _ w Hev) as Hi1.
    match type of Hi1 with idle _ ?w' => set (w1 := w') in * end.
    pose proof (Mem_idle _ _ _ Hi1 HM) as HM1.
    assert (hears A (handle_socket_event s what sp) w1) as Hk.
    { unfold handle_socket_event. rewrite Hwhat. destruct Hi1 as [_ _ _ _ _ _ _ _ _ _ (es & Ht & Hes)].
      destruct sp as [p|].
      - apply keeps_hears; [done|]. apply keeps_set_socket; [by eapply mem_alive|].
        destruct HM1 as (_ & _ & I). apply (ints_alive _ I), (ints_assigned _ I s).
        rewrite Ht, assigned_unassigning; [done|].
        eapply Forall_event; [|exact Hes]. apply idle_unassigning.
      - apply add_socket_wp; [done|]. rewrite Ht, added_unhandled; [done|].
        eapply Forall_event; [|exact Hes]. intros ev Hev'. by apply curl_unhandled, idle_curl. }
    eapply wp_mono; [exact Hk|]. intros [] w2 [HM2 Hq2]. split; [done|].
    trans w1; [by apply idle_quiet|done].
  - apply keeps_hears; [done|]. keeps_step; [by keeps_step|]. apply keeps_timeout.
    eapply idle_alive; [done|by eapply mem_alive].
  - apply keeps_hears; [done|]. keeps_step; [by keeps_step|]. keeps_step; [apply keeps_open_socket|keeps_step].
  - apply keeps_hears; [done|]. keeps_step; [by keeps_step|]. apply keeps_close_socket.
  - destruct (transfer_wp A w e HM Hall) as (p & c0 & l & Hp & He & Hl & (Hd & _ & _) & _).
    unfold hears, write_callback. apply wp_bind, wp_modify, wp_bind.
    eapply wp_mono; [by apply (userdata_wp _ _ p l)|]. intros ? w1 [-> ->].
    unfold modify_conn, deref_conn. apply wp_bind, wp_bind, wp_gets, wp_require. exists c0.
    split; [done|]. apply wp_modify. eapply respond_wp; [done..|]. left. eauto.
  - destruct (transfer_wp A w e HM Hall) as (p & c0 & os & Hp & He & Hl & (_ & Hd & _) & _).
    unfold hears, header_callback. apply wp_bind, wp_modify, wp_bind.
    eapply wp_mono; [by apply (userdata_wp _ _ p os)|]. intros ? w1 [-> ->].
    assert (Mem A (w <| trace ::= λ t, t ++ [Ev_curl_callback (Cb_header e l)] |>
                     <| contexts ::= <[p := match parse_header l with
                          | Some h => c0 <| response_headers ::= λ hs, hs ++ [h] |>
                          | None => c0 end]> |>) ∧ _) as Hw'
      by (eapply (respond_wp A w e _ (λ c, match parse_header l with
                          | Some h => c <| response_headers ::= λ hs, hs ++ [h] |>
                          | None => c end)); [done..|right; eauto]).
    destruct (parse_header l) as [h|].
    + unfold modify_conn, deref_conn. apply wp_bind, wp_bind, wp_gets, wp_require. exists c0.
      split; [done|]. by apply wp_modify.
    + apply wp_ret. simpl in Hw'. by rewrite (insert_id (contexts w)) in Hw' by done.
Qed.

Lemma callbacks_of_wp A n c w : Mem A w → hears A (callbacks_of n c) w.
Proof.
  revert w. induction n as [|n IH]; intros w HM; simpl.
  - by apply wp_ret.
  - unfold hears. apply wp_bind, wp_gets.
    apply (hears_bind A (run_curl_callback (curl_next (trace w) c))); [by apply curl_callback_wp|].
    intros _ w' HM' _. by apply IH.
Qed.

Lemma curl_body_wp A c w : Mem A w → hears A (curl_body c) w.
Proof.
  intros HM. unfold hears, curl_body. apply wp_bind, wp_gets.
  apply (hears_bind A (callbacks_of _ c)); [by apply callbacks_of_wp|].
  intros _ w' HM' _. apply wp_bind, wp_gets, wp_ret. by split.
Qed.

Lemma socket_action_wp A s m w : Mem A w → hears A (curl_multi_socket_action s m) w.
Proof.
  intros HM. apply hears_bind; [by apply curl_body_wp|]. intros code w1 HM1 _.
  apply keeps_hears; [done|]. repeat keeps_step.
Qed.

(** ** Requests and answers *)

Definition requests (h : handler) (w : World) : nat := count (is_request_of h) (trace w).
Definition callbacks (h : handler) (w : World) : nat := count (is_callback_of h) (trace w).
Definition queued (h : handler) (w : World) : nat := count (is_task_of h) (posted w).

Definition holds (h : handler) (o : nat * (option nat * option handler)) : bool :=
  bool_decide (snd (snd o) = Some h).
(** The contexts that still hold the handler [h]. *)
Definition outstanding (h : handler) (w : World) : nat :=
  count (holds h) (map_to_list (owner <$> contexts w)).

(** Every request is queued, outstanding or answered, but for [d] of them. *)
Definition Acct (d : handler → Z) (w : World) : Prop := ∀ h,
  Z.of_nat (requests h w) =
    Z.of_nat (queued h w) + Z.of_nat (outstanding h w) + Z.of_nat (callbacks h w) + d h.

Definition due (o : option handler) (h : handler) : Z := if bool_decide (o = Some h) then 1 else 0.
Definition settled : handler → Z := λ _, 0.

#[export] Instance Acct_proper : Proper (pointwise_relation handler eq ==> eq ==> iff) Acct.
Proof. intros d d' Hd w ? <-. unfold Acct. by setoid_rewrite Hd. Qed.

Lemma outstanding_split h w p c : contexts w !! p = Some c →
  Z.of_nat (outstanding h w) = due (conn_handler c) h +
    Z.of_nat (count (holds h) (map_to_list (delete p (owner <$> contexts w)))).
Proof.
  intros Hp. unfold outstanding.
  rewrite <- (insert_delete_id (owner <$> contexts w) p (owner c)) at 1
    by (by rewrite lookup_fmap, Hp).
  assert (∀ l l', l ≡ₚ l' → count (holds h) l = count (holds h) l') as Hperm.
  { intros l l' Hl. unfold count. by rewrite Hl. }
  rewrite (Hperm _ _ (map_to_list_insert _ _ _ (lookup_delete_eq _ _))), count_cons.
  unfold due. simpl. unfold holds at 1. simpl. case_bool_decide; lia.
Qed.

(** What libcurl leaves alone when a handle is added or removed. *)
Record calm (w w' : World) : Prop := {
  k_posted : posted w' = posted w;
  k_owners : owner <$> contexts w' = owner <$> contexts w;
  k_connections : connections (client w') = connections (client w);
  k_pending : pending (client w') = pending (client w);
  k_multi : multi (client w') = multi (client w);
  k_requests h : requests h w' = requests h w;
  k_callbacks h : callbacks h w' = callbacks h w;
}.

#[export] Instance calm_preorder : PreOrder calm.
Proof.
  split; [by intros w|]. intros w1 w2 w3 [] []. split; intros; etrans; eauto.
Qed.

Lemma quiet_calm w w' : quiet w w' → calm w w'.
Proof.
  intros [? ? ? ? ? ? ? ? (es & Ht & Hes)]. split; try done; intros h; unfold requests, callbacks;
    rewrite Ht; apply (count_events curl_event); (done || by intros []).
Qed.

Lemma Acct_calm d w w' : calm w w' → Acct d w → Acct d w'.
Proof.
  intros [Hp Ho _ _ _ Hr Hc] Ha h. specialize (Ha h). rewrite Hr, Hc.
  unfold queued, outstanding in *. by rewrite Hp, Ho.
Qed.

Lemma hears_calm A {B} (m : M World B) w : hears A m w → wp m (λ _ w', Mem A w' ∧ calm w w') w.
Proof. intros Hm. eapply wp_mono; [exact Hm|]. intros b w' [HM Hq]. split; [done|]. by apply quiet_calm. Qed.

(** ** Adding and removing a handle *)

Lemma remove_handle_wp A w p e : Mem A w → p ∈ A → owns w p e →
  wp (curl_multi_remove_handle e) (λ _ w', Mem (A ∖ {[ p ]}) w' ∧ calm w w' ∧
    added (trace w') = added (trace w) ∖ {[ e ]}) w.
Proof.
  intros HM Hp Ho. unfold curl_multi_remove_handle. apply wp_bind.
  eapply wp_mono; [by apply (curl_body_wp A)|]. intros _ w1 [HM1 Hq1]. pose proof Hq1 as Hq0.
  apply (owners_owns w1 w) in Ho; [|symmetry; apply Hq1].
  apply wp_modify. destruct HM1 as ([Hal Hn He Hop Hi Ha Hd Hr Hc] & HR & [I1 I2 I3 I4 I5]).
  assert (added (trace w1 ++ [Ev_remove_handle e]) = added (trace w1) ∖ {[ e ]}) as Hadd
    by by rewrite added_snoc.
  split; [split; [|split]|split].
  - split; try done; simpl.
    + intros e'. rewrite Hadd, elem_of_difference, Ha, elem_of_singleton. split.
      * intros [(q & Hq & Hqo) Hne]. exists q. split; [|done]. apply elem_of_difference.
        split; [done|]. intros ->%elem_of_singleton. apply Hne.
        destruct Ho as (? & H1 & H2), Hqo as (? & H3 & H4). congruence.
      * intros (q & [Hq Hne]%elem_of_difference & Hqo). split; [by exists q|]. intros ->.
        apply Hne, elem_of_singleton. by eapply Hi.
    + intros q [Hq _]%elem_of_difference. by apply Hd.
    + intros e'. rewrite !count_app. simpl. specialize (Hr e'). rewrite !count_cons, !count_nil. simpl. lia.
    + apply cleanups_safe_snoc; [done|]. by intros ? [=].
  - by eapply (Resp_frame w1 _ [Ev_remove_handle e]); [done|done|done|apply Forall_singleton|].
  - assert (∀ s q, assigned (trace w1 ++ [Ev_remove_handle e]) !! s = Some q →
      assigned (trace w1) !! s = Some q) as Has.
    { intros s q. rewrite assigned_snoc. simpl. by case_decide. }
    split; simpl.
    + intros s q Hs%Has. by eapply I1.
    + intros s s' q H1%Has H2%Has. by eapply I2.
    + done.
    + done.
    + rewrite assigned_snoc, Hadd. simpl. intros ->. by rewrite decide_True.
  - apply quiet_calm in Hq1. trans w1; [done|]. split; try done; intros h; unfold requests, callbacks;
      simpl; rewrite count_app, count_cons, count_nil; simpl; lia.
  - simpl. rewrite Hadd. f_equal. destruct Hq0 as [_ _ _ _ _ _ _ _ (es & -> & Hes)].
    apply added_unhandled. eapply Forall_event; [|exact Hes]. apply curl_unhandled.
Qed.

Lemma add_handle_wp A w p e l : Mem A w → p ∉ A → owns w p e → options w !! e = Some l → points_to p l →
  wp (curl_multi_add_handle e) (λ code w', calm w w' ∧
    Mem (if decide (code = CURLM_OK) then {[ p ]} ∪ A else A) w') w.
Proof.
  intros HM Hp Ho Hl Hpt. unfold curl_multi_add_handle. apply wp_bind.
  eapply wp_mono; [by apply (curl_body_wp A)|]. intros code w1 [HM1 Hq1].
  apply (owners_owns w1 w) in Ho; [|symmetry; apply Hq1]. rewrite <- (q_options _ _ Hq1) in Hl.
  apply wp_bind, wp_modify, wp_ret. set (ev := Ev_add_handle e code).
  destruct HM1 as ([Hal Hn He Hop Hi Ha Hd Hr Hc] & HR & HI').
  assert (added (trace w1 ++ [ev]) =
    if decide (code = CURLM_OK) then {[ e ]} ∪ added (trace w1) else added (trace w1)) as Hadd.
  { rewrite added_snoc. unfold ev. by destruct code. }
  split; [|split; [|split]].
  - apply quiet_calm in Hq1. trans w1; [done|]. split; try done; intros h; unfold requests, callbacks;
      simpl; rewrite count_app, count_cons, count_nil; simpl; lia.
  - split; try done; simpl.
    + intros e'. rewrite Hadd. destruct (decide (code = CURLM_OK)); [|apply Ha].
      rewrite elem_of_union, elem_of_singleton, Ha. split.
      * intros [->|(q & Hq & Hqo)]; [exists p|exists q]; (split; [|done]);
          by rewrite elem_of_union, elem_of_singleton; auto.
      * intros (q & [->%elem_of_singleton|Hq]%elem_of_union & Hqo); [|right; by exists q].
        left. destruct Ho as (? & H1 & H2), Hqo as (? & H3 & H4). simpl in H3. congruence.
    + intros q. destruct (decide (code = CURLM_OK)); [|apply Hd].
      intros [->%elem_of_singleton|Hq]%elem_of_union; [by exists e, l|by apply Hd].
    + intros e'. rewrite !count_app. specialize (Hr e'). rewrite !count_cons, !count_nil. simpl. lia.
    + apply cleanups_safe_snoc; [done|]. by intros ? [=].
  - by eapply (Resp_frame w1 _ [ev]); [done|done|done|apply Forall_singleton|].
  - destruct HI' as [I1 I2 I3 I4 I5].
    assert (assigned (trace w1 ++ [ev]) = assigned (trace w1)) as Has by by rewrite assigned_snoc.
    split; simpl; rewrite ?Has; try done. rewrite Hadd.
    destruct (decide (code = CURLM_OK)); [|done]. intros Hnone. exfalso.
    assert (e ∈ (∅ : gset nat)) as He0; [|by apply elem_of_empty in He0].
    rewrite <- Hnone. by apply elem_of_union_l, elem_of_singleton.
Qed.
End callbacks.
