(* ===== verification/MultiplexSafety.v ===== *)
(** Safety of the multiplexing client: every handler of [HttpsMultiplexClient]
    keeps the invariant of [MultiplexInvariant], and so does every run.

    [Calm] is the client between two events, [Sess] inside one; [told] is what
    answers to the user do, [delivered] what a finished transfer does,
    [cancelled] what [do_cancel] does. *)

From S2P Require Import Prelude HttpsMultiplexClient MultiplexInvariant.

Section safety.
Context `{HC : Curl} `{HL : !CurlLaws} `{HI : Iteration}.
Context (react : list event → handler → error_code → HttpResponse → list api_call).

(** ** Users *)

(** The events of the users' calls, and of the answers to them. *)
Definition api_event (e : event) : bool :=
  match e with Ev_request _ | Ev_cancel | Ev_set_ca_certificate _ => true | _ => false end.
Definition user_event (e : event) : bool :=
  match e with Ev_callback _ _ _ => true | _ => api_event e end.

Lemma Mem_user A w w' es :
  expired w' = expired w → contexts w' = contexts w → options w' = options w → ints w' = ints w →
  actions (client w') = actions (client w) → next w' = next w →
  trace w' = trace w ++ es → Forall (λ e, user_event e = true) es → Mem A w → Mem A w'.
Proof.
  intros He Hc Ho Hi Ha Hn Ht Hes (HO & HR & HI'). split; [|split].
  - eapply (Own_frame A w); [done|by rewrite Hc|done|by rewrite Hn|done| |done].
    eapply Forall_event; [|exact Hes]. by intros [].
  - eapply (Resp_frame w); [done|by rewrite Hn|done| |done]. eapply Forall_event; [|exact Hes]. by intros [].
  - eapply (Ints_frame w); [done|by rewrite Hi|by rewrite Hn|done| |done].
    eapply Forall_event; [|exact Hes]. by intros [].
Qed.

(** What answers to the user, and the user's calls from them, do. *)
Record told (answers : list event) (w w' : World) : Prop := {
  t_client : client w' = client w;
  t_contexts : contexts w' = contexts w;
  t_trace : ∃ es, trace w' = trace w ++ answers ++ es ∧ Forall (λ e, api_event e = true) es;
}.

Lemma mux_shared_wp (Q : unit → World → Prop) w : expired w = false → Q tt w → wp shared_from_this Q w.
Proof. intros Hw HQ. apply wp_bind, wp_gets. by rewrite Hw. Qed.

Lemma run_api_wp A d a w : Mem A w → Acct d w →
  wp (run_api a) (λ _ w', Mem A w' ∧ Acct d w' ∧ told [] w w') w.
Proof.
  intros HM Ha.
  assert (∀ e t, user_event e = true → api_event e = true →
    (∀ h, is_request_of h e = is_task_of h t) →
    wp (shared_from_this ;;; log e ;;; executor_post t) (λ _ w', Mem A w' ∧ Acct d w' ∧ told [] w w') w)
    as Hgen.
  { intros e t Hu He Hh. apply wp_bind, mux_shared_wp; [by eapply mem_alive|]. apply wp_bind, wp_modify, wp_modify. split; [|split].
    - eapply (Mem_user _ w _ [e]); try done. by apply Forall_singleton.
    - intros h. specialize (Ha h). specialize (Hh h).
      unfold requests, callbacks, queued, outstanding in *. simpl.
      rewrite !count_app, !count_cons, !count_nil, Hh.
      assert (is_callback_of h e = false) as -> by (by destruct e). lia.
    - split; [done|done|]. exists [e]. split; [done|]. by apply Forall_singleton. }
  assert (∀ h h', is_request_of h (Ev_request h') = bool_decide (h' = Some h)) as Hreq.
  { intros h [h'|]; simpl; [|done]. apply bool_decide_ext. naive_solver. }
  destruct a; apply Hgen; try done; intros h'; apply Hreq.
Qed.

Lemma told_trans l w w1 w2 : told l w w1 → told [] w1 w2 → told l w w2.
Proof.
  intros [C1 X1 (es1 & T1 & F1)] [C2 X2 (es2 & T2 & F2)]. split; [congruence|congruence|].
  exists (es1 ++ es2). rewrite T2, T1, <- !app_assoc. split; [done|]. by apply Forall_app.
Qed.

Lemma run_apis_wp A d l w : Mem A w → Acct d w →
  wp (for_each run_api l) (λ _ w', Mem A w' ∧ Acct d w' ∧ told [] w w') w.
Proof.
  intros HM Ha.
  eapply wp_mono; [apply (wp_for_each (λ w', Mem A w' ∧ Acct d w' ∧ told [] w w'))|].
  - split; [done|split; [done|]]. split; [done|done|]. exists []. by rewrite !app_nil_r.
  - intros a w1 _ (HM1 & Ha1 & Ht1). eapply wp_mono; [by apply run_api_wp|].
    intros _ w2 (HM2 & Ha2 & Ht2). split; [done|split; [done|]]. by eapply told_trans.
  - by intros [] w'.
Qed.

(** The event of an answer. *)
Definition answer (h : option handler) (ec : error_code) (r : HttpResponse) : list event :=
  match h with Some h => [Ev_callback h ec r] | None => [] end.

Lemma invoke_wp A h ec r d w : Mem A w → Acct d w →
  wp (invoke react h ec r) (λ _ w', Mem A w' ∧ Acct (λ h', d h' - due h h') w' ∧ told (answer h ec r) w w') w.
Proof.
  intros HM Ha. destruct h as [h|]; simpl.
  - apply wp_bind, wp_modify, wp_bind, wp_gets.
    match goal with |- wp _ _ ?w2 => set (w1 := w2) end.
    assert (Mem A w1) as HM1.
    { eapply (Mem_user _ w _ [Ev_callback h ec r]); try done. by apply Forall_singleton. }
    assert (Acct (λ h', d h' - due (Some h) h') w1) as Ha1.
    { intros h'. specialize (Ha h'). unfold requests, callbacks, queued, outstanding in *. simpl.
      rewrite !count_app, !count_cons, !count_nil. simpl.
      unfold due. rewrite (bool_decide_ext (h' = h) (Some h = Some h')) by naive_solver.
      case_bool_decide; lia. }
    eapply wp_mono; [by apply run_apis_wp|]. intros _ w2 (HM2 & Ha2 & Ht2).
    split; [done|split; [done|]]. eapply told_trans; [|done]. split; [done|done|].
    exists []. by rewrite app_nil_r.
  - apply wp_ret. split; [done|split].
    + intros h. specialize (Ha h). unfold due. simpl. lia.
    + split; [done|done|]. exists []. by rewrite !app_nil_r.
Qed.

(** ** Contexts *)

Lemma deref_wp p c (Q : ConnContext → World → Prop) w : contexts w !! p = Some c → Q c w → wp (deref_conn p) Q w.
Proof. intros Hp HQ. apply wp_bind, wp_gets, wp_require. by exists c. Qed.

(** A context changes, but neither its handle nor its response. *)
Lemma Mem_context A w p c c' : Mem A w → contexts w !! p = Some c → easy c' = easy c →
  response_body c' = response_body c → response_headers c' = response_headers c →
  Mem A (w <| contexts ::= <[p := c']> |>).
Proof.
  intros ([Hal Hn He Hop Hi Ha Hd Hr Hc] & [Rc Rf] & HI') Hp Hce Hb Hh.
  assert (∀ q e, owns (w <| contexts ::= <[p := c']> |>) q e ↔ owns w q e) as Ho.
  { intros q e. unfold owns. simpl. destruct (decide (q = p)) as [->|Hne].
    - rewrite lookup_insert_eq. split; intros (c0 & Hc0 & He0).
      + injection Hc0 as <-. exists c. split; [done|congruence].
      + exists c'. split; [done|congruence].
    - by rewrite lookup_insert_ne. }
  split; [split; try done; simpl|split; [split|by destruct HI']]; simpl.
  - intros q d. rewrite lookup_insert_Some. intros [[<- <-]|[_ Hq]]; by eapply Hn.
  - intros q e. rewrite Ho. apply He.
  - intros e Hs. destruct (Hop e Hs) as [q Hq]. exists q. by apply Ho.
  - intros q q' e. rewrite !Ho. apply Hi.
  - intros e. rewrite Ha. by setoid_rewrite Ho.
  - intros q Hq. destruct (Hd q Hq) as (e & l & H1 & H2). exists e, l. by rewrite Ho.
  - intros q d e. rewrite lookup_insert_Some. intros [[<- <-]|[_ Hq]] Hde; [|by eapply Rc].
    rewrite Hb, Hh. eapply Rc; [done|congruence].
  - done.
Qed.

(** The handler is taken out of a context. *)
Lemma Acct_take d w p c h : Acct d w → contexts w !! p = Some c →
  Acct (λ h', d h' + due (conn_handler c) h' - due h h') (w <| contexts ::= <[p := c <| conn_handler := h |>]> |>).
Proof.
  intros Ha Hp h'. specialize (Ha h'). rewrite (outstanding_split h' w p c) in Ha by done.
  rewrite (outstanding_split h' _ p (c <| conn_handler := h |>)) by (simpl; by rewrite lookup_insert_eq).
  unfold requests, queued, callbacks in *. simpl. rewrite fmap_insert, delete_insert_eq. lia.
Qed.

Lemma answer_conn_wp A p c ec r d w : Mem A w → Acct d w → contexts w !! p = Some c →
  wp (answer_conn react p ec r) (λ _ w', Mem A w' ∧ Acct d w' ∧
    told (answer (conn_handler c) ec r) (w <| contexts ::= <[p := c <| conn_handler := None |>]> |>) w') w.
Proof.
  intros HM Ha Hp. unfold answer_conn, modify_conn.
  apply wp_bind, (deref_wp p c), wp_bind, wp_bind, (deref_wp p c), wp_modify; [done..|].
  eapply wp_mono; [apply (invoke_wp A)|].
  - by apply (Mem_context A w p c).
  - by apply Acct_take.
  - intros _ w' (HM' & Ha' & Ht). split; [done|split; [|done]].
    intros h. specialize (Ha' h). unfold due in Ha'. simpl in Ha'. lia.
Qed.

(** A context goes, with its handle. *)
Lemma Mem_free A w p c e : Mem A w → contexts w !! p = Some c → easy c = Some e → p ∉ A →
  Mem A (w <| trace ::= λ t, t ++ [Ev_easy_cleanup e] |> <| options ::= delete e |>
           <| contexts ::= delete p |>).
Proof.
  intros ([Hal Hn He Hop Hi Ha Hd Hr Hc] & HR & [I1 I2 I3 I4 I5]) Hp Hce HA.
  match goal with |- Mem _ ?w2 => set (w' := w2) end.
  assert (owns w p e) as Hpe by by exists c.
  assert (∀ q e', owns w' q e' ↔ q ≠ p ∧ owns w q e') as Ho.
  { intros q e'. unfold owns. simpl. split.
    - intros (c' & [Hne Hq]%lookup_delete_Some & He'). split; [done|]. by exists c'.
    - intros (Hne & c' & Hq & He'). exists c'. by rewrite lookup_delete_ne. }
  assert (added (trace w') = added (trace w)) as Hadd by (simpl; by rewrite added_snoc).
  assert (e ∉ added (trace w)) as Hnot.
  { rewrite Ha. intros (q & Hq & Hqe). by rewrite (Hi _ _ _ Hqe Hpe) in Hq. }
  split; [split|split]; rewrite ?Hadd; try done.
  - intros q d. simpl. intros [_ Hq]%lookup_delete_Some. by eapply Hn.
  - intros q e' [Hne Hq]%Ho. destruct (He _ _ Hq) as [Hlt Hs]. split; [done|]. simpl.
    rewrite lookup_delete_ne; [done|]. intros <-. by apply Hne, (Hi q p e).
  - intros e'. simpl. rewrite lookup_delete_is_Some. intros [Hne Hs]. destruct (Hop _ Hs) as [q Hq].
    exists q. apply Ho. split; [|done]. intros ->. destruct Hq as (c' & Hp' & He'). congruence.
  - intros q q' e' [_ Hq]%Ho [_ Hq']%Ho. by eapply Hi.
  - intros e'. rewrite Ha. split; intros (q & Hq & Hqe); exists q; (split; [done|]).
    + apply Ho. split; [by intros ->|done].
    + by apply Ho in Hqe as [_ Hqe].
  - intros q Hq. destruct (Hd q Hq) as (e' & l & Hqe & Hl & Hpt). exists e', l.
    assert (q ≠ p) as Hne by by intros ->. split; [by apply Ho|]. split; [|done]. simpl.
    rewrite lookup_delete_ne; [done|]. intros <-. by apply Hne, (Hi q p e).
  - intros e'. simpl. rewrite !count_app, !count_cons, !count_nil, Hr. simpl.
    destruct (decide (e' = e)) as [->|Hne].
    + destruct (He _ _ Hpe) as [_ Hs]. rewrite bool_decide_true, decide_True, decide_False by
        (done || rewrite lookup_delete_eq; by intros [? [=]]). lia.
    + rewrite bool_decide_false, lookup_delete_ne by done. lia.
  - apply cleanups_safe_snoc; [done|]. by intros e' [= <-].
  - eapply (Resp_frame (w <| contexts ::= delete p |>) _ [Ev_easy_cleanup e]); [done|done|done|by apply Forall_singleton|].
    destruct HR as [Rc Rf]. split; [|done]. intros q d e'. simpl. intros [_ Hq]%lookup_delete_Some. by eapply Rc.
  - by apply (Ints_frame w _ [Ev_easy_cleanup e]); try done; apply Forall_singleton.
Qed.

(** A context goes that never got a handle. *)
Lemma Mem_dead A w p c : Mem A w → contexts w !! p = Some c → easy c = None →
  Mem A (w <| contexts ::= delete p |>).
Proof.
  intros ([Hal Hn He Hop Hi Ha Hd Hr Hc] & HR & [I1 I2 I3 I4 I5]) Hp Hce.
  assert (∀ q e, owns (w <| contexts ::= delete p |>) q e ↔ owns w q e) as Ho.
  { intros q e. unfold owns. simpl. split; intros (c' & Hq & He').
    - apply lookup_delete_Some in Hq as [_ Hq]. by exists c'.
    - exists c'. rewrite lookup_delete_ne; [done|]. intros ->. congruence. }
  split; [split|split]; try done.
  - intros q d. simpl. intros [_ Hq]%lookup_delete_Some. by eapply Hn.
  - intros q e. rewrite Ho. apply He.
  - intros e Hs. destruct (Hop _ Hs) as [q Hq]. exists q. by apply Ho.
  - intros q q' e. rewrite !Ho. apply Hi.
  - intros e. simpl. rewrite Ha. by setoid_rewrite Ho.
  - intros q Hq. destruct (Hd q Hq) as (e & l & H1 & H2). exists e, l. by rewrite Ho.
  - destruct HR as [Rc Rf]. split; [|done]. intros q d e. simpl.
    intros [_ Hq]%lookup_delete_Some. by eapply Rc.
Qed.

Lemma free_conn_wp A p c d w : Mem A w → Acct d w → contexts w !! p = Some c → p ∉ A →
  wp (free_conn p) (λ _ w', Mem A w' ∧ Acct (λ h, d h + due (conn_handler c) h) w' ∧
    client w' = client w ∧ contexts w' = delete p (contexts w) ∧
    trace w' = trace w ++ match easy c with Some e => [Ev_easy_cleanup e] | None => [] end) w.
Proof.
  intros HM Ha Hp HA. unfold free_conn.
  apply wp_bind, (deref_wp p c), wp_bind; [done|].
  set (ev := match easy c with Some e => [Ev_easy_cleanup e] | None => [] end).
  set (w' := w <| trace ::= λ t, t ++ ev |>
               <| options ::= λ m, match easy c with Some e => delete e m | None => m end |>
               <| contexts ::= delete p |>).
  assert (Acct (λ h, d h + due (conn_handler c) h) w') as Ha'.
  { intros h. specialize (Ha h). rewrite (outstanding_split h w p c) in Ha by done.
    unfold requests, callbacks, queued, outstanding, w' in *. simpl. rewrite fmap_delete, !count_app.
    assert (count (is_request_of h) ev = 0%nat ∧ count (is_callback_of h) ev = 0%nat) as [-> ->]
      by (unfold ev; by destruct (easy c)). lia. }
  unfold w', ev in *. destruct (easy c) as [e|] eqn:He.
  - apply wp_bind, wp_modify, wp_modify, wp_modify. split; [by apply (Mem_free A w p c)|].
    split; [done|]. done.
  - apply wp_ret, wp_modify. split; [by apply (Mem_dead A w p c)|]. simpl in *. rewrite app_nil_r in *.
    split; [|done]. by destruct w.
Qed.

(** ** Between and inside events

    [Sess D w]: the registered connections are those whose handles are added,
    the live contexts are those in [D], and the counter is right. *)

Record Sess (D : gset nat) (w : World) : Prop := {
  s_mem : Mem (connections (client w)) w;
  s_dom : dom (contexts w) = D;
  s_acct : Acct settled w;
  s_pending : pending (client w) = Z.of_nat (size (connections (client w)));
  s_multi : connections (client w) = ∅ ∨ multi (client w) = true;
}.

Lemma owners_dom w w' : owner <$> contexts w' = owner <$> contexts w → dom (contexts w') = dom (contexts w).
Proof. intros Ho. by rewrite <- (dom_fmap_L owner), Ho, dom_fmap_L. Qed.

Lemma Sess_quiet D w w' : quiet w w' → Mem (connections (client w)) w' → Sess D w → Sess D w'.
Proof.
  intros Hq HM [_ Hd Ha Hp Hm]. pose proof Hq as [_ _ _ Ho _ Hc Hpe Hmu _]. split.
  - by rewrite Hc.
  - by rewrite (owners_dom w).
  - eapply Acct_calm; [by apply quiet_calm|done].
  - by rewrite Hc, Hpe.
  - by rewrite Hc, Hmu.
Qed.

Lemma sess_hears D {B} (m : M World B) w :
  Sess D w → hears (connections (client w)) m w → wp m (λ _ w', Sess D w' ∧ quiet w w') w.
Proof.
  intros HS Hm. eapply wp_mono; [exact Hm|]. intros b w' [HM Hq]. split; [by eapply Sess_quiet|done].
Qed.

Lemma told_added l w w' : Forall (λ e, user_event e = true) l → told l w w' → added (trace w') = added (trace w).
Proof.
  intros Hl [_ _ (es & -> & Hes)]. rewrite added_unhandled; [done|]. apply Forall_app. split.
  - eapply Forall_event; [|exact Hl]. by intros [].
  - eapply Forall_event; [|exact Hes]. by intros [].
Qed.

Lemma answer_user h ec r : Forall (λ e, user_event e = true) (answer h ec r).
Proof. destruct h; simpl; [by apply Forall_singleton|done]. Qed.

Lemma owners_lookup w w' p c : owner <$> contexts w' = owner <$> contexts w → contexts w !! p = Some c →
  ∃ c', contexts w' !! p = Some c' ∧ owner c' = owner c.
Proof.
  intros Ho Hp. assert ((owner <$> contexts w') !! p = Some (owner c)) as Hl
    by (by rewrite Ho, lookup_fmap, Hp).
  rewrite lookup_fmap in Hl. apply fmap_Some in Hl as (c' & Hc' & Hoc). by exists c'.
Qed.

(** A request that could not be started. *)
Lemma fail_wp p c ec D w :
  Sess D w → contexts w !! p = Some c → p ∉ connections (client w) →
  wp (fail_conn react p ec ;;; free_conn p) (λ _ w',
    Sess (D ∖ {[ p ]}) w' ∧ connections (client w') = connections (client w)) w.
Proof.
  intros [HM Hd Ha Hpe Hmu] Hp Hn. unfold fail_conn. apply wp_bind, wp_bind, (deref_wp p c); [done|].
  eapply wp_mono; [by eapply invoke_wp|]. intros _ w1 (HM1 & Ha1 & [Tc Tx _]).
  eapply wp_mono; [apply (free_conn_wp _ p c _ w1 HM1 Ha1); [by rewrite Tx|done]|].
  intros _ w2 (HM2 & Ha2 & Hc2 & Hx2 & _). rewrite Hc2, Tc. split; [|done]. split.
  - by rewrite Hc2, Tc.
  - by rewrite Hx2, dom_delete_L, Tx, Hd.
  - intros h. specialize (Ha2 h). unfold settled in *. lia.
  - by rewrite Hc2, Tc.
  - by rewrite Hc2, Tc.
Qed.

(** The response of a transfer that is done, by what libcurl has said of it. *)
Definition response_of (t : list event) (m : CURLMsg) : HttpResponse :=
  if decide (msg_result m = CURLE_OK) then
    {| status_code := to_unsigned (curl_response_code t (easy_handle m));
       body := written (easy_handle m) t;
       headers := omap parse_header (header_lines (easy_handle m) t) |}
  else empty_response.

Definition answers_nobody (e : event) : bool := match e with Ev_callback _ _ _ => false | _ => true end.

Record delivered (m : CURLMsg) (p : nat) (c : ConnContext) (w w' : World) : Prop := {
  d_context : contexts w !! p = Some c;
  d_easy : easy c = Some (easy_handle m);
  d_member : p ∈ connections (client w);
  d_connections : connections (client w') = connections (client w) ∖ {[ p ]};
  d_contexts : owner <$> contexts w' = delete p (owner <$> contexts w);
  d_trace : ∃ t es, trace w' = t ++ answer (conn_handler c) (from_curl_code (msg_result m)) (response_of t m) ++ es ∧
    (∀ h, count (is_callback_of h) t = callbacks h w) ∧ Forall (λ e, answers_nobody e = true) es;
}.

Lemma handle_message_wp m w :
  Sess (connections (client w)) w → msg_done m = true → easy_handle m ∈ added (trace w) →
  Z.of_nat (size (connections (client w))) < two64 →
  wp (handle_message react m) (λ _ w', Sess (connections (client w')) w' ∧
    added (trace w') = added (trace w) ∖ {[ easy_handle m ]} ∧
    ∃ p c, delivered m p c w w') w.
Proof.
  intros HS Hdone He Hsize. pose proof HS as [HM Hd Ha Hpe Hmu].
  destruct (transfer_wp _ _ _ HM He) as (p & c & l & Hp & Hce & Hl & (_ & _ & Hpriv) & HA).
  unfold handle_message. rewrite Hdone. simpl.
  unfold getinfo_private. apply wp_bind, wp_bind, wp_gets, wp_bind, wp_require. exists l. split; [done|].
  apply wp_ret, wp_bind, wp_gets. rewrite Hpriv, decide_True by done.
  apply wp_bind, wp_modify. set (C := connections (client w)) in *.
  match goal with |- wp _ _ ?w2 => set (w1 := w2) end.
  assert (Mem C w1) as HM1 by mem_unseen HM.
  apply wp_bind. eapply wp_mono; [by apply (remove_handle_wp C w1 p); [..|exists c]|].
  intros _ w2 (HM2 & Hk2 & Hadd2).
  destruct Hk2 as [Kp Ko Kc Kpe Kmu Kr Kcb].
  destruct (owners_lookup w1 w2 p c Ko Hp) as (c2 & Hp2 & Hown).
  pose proof (resp_context _ (proj1 (proj2 HM2)) p c2 (easy_handle m) Hp2) as Hresp.
  rewrite (f_equal fst Hown : easy c2 = easy c) in Hresp. specialize (Hresp Hce) as [Hb Hh].
  assert (conn_handler c2 = conn_handler c) as Hhc by exact (f_equal snd Hown).
  apply wp_bind, wp_modify. match goal with |- wp _ _ ?w' => set (w3 := w') end.
  assert (Mem (C ∖ {[ p ]}) w3) as HM3 by mem_unseen HM2.
  assert (Acct settled w3) as Ha3.
  { intros h. specialize (Ha h). unfold outstanding, queued in *. specialize (Kr h). specialize (Kcb h).
    unfold requests, callbacks in *. simpl in *. rewrite Kr, Kcb, Kp, Ko. exact Ha. }
  apply wp_bind, (deref_wp p c2), wp_bind, wp_gets, wp_bind; [done|].
  set (r := if decide _ then _ else _).
  assert (r = response_of (trace w2) m) as Hr by (unfold r, response_of; by rewrite Hb, Hh).
  eapply wp_mono; [by apply (answer_conn_wp (C ∖ {[ p ]}) p c2 _ r settled w3)|].
  intros _ w4 (HM4 & Ha4 & Ht4). pose proof Ht4 as [Tc Tx (es & Tt & Tes)].
  eapply wp_mono; [apply (free_conn_wp _ p (c2 <| conn_handler := None |>) _ w4 HM4 Ha4)|].
  { rewrite Tx. simpl. by rewrite lookup_insert_eq. }
  { intros [_ Hn]%elem_of_difference. by apply Hn, elem_of_singleton. }
  intros _ w5 (HM5 & Ha5 & Hc5 & Hx5 & Ht5).
  assert (connections (client w5) = C ∖ {[ p ]}) as Hconn by (rewrite Hc5, Tc; simpl; by rewrite Kc).
  assert (trace w5 = trace w2 ++ answer (conn_handler c) (from_curl_code (msg_result m))
    (response_of (trace w2) m) ++ es ++ [Ev_easy_cleanup (easy_handle m)]) as Htr.
  { rewrite Ht5, Tt, Hr. simpl. rewrite Hhc, (f_equal fst Hown : easy c2 = easy c), Hce.
    by rewrite <- !app_assoc. }
  assert (Forall (λ e, unhandled e = true) (answer (conn_handler c) (from_curl_code (msg_result m))
    (response_of (trace w2) m) ++ es) ∧ Forall (λ e, answers_nobody e = true) es) as [Hun Hnob].
  { rewrite Forall_app. split; [split|]; (eapply Forall_event; [|first [apply answer_user|exact Tes]]); by intros []. }
  assert (owner <$> contexts w5 = delete p (owner <$> contexts w)) as Hctx.
  { rewrite Hx5, Tx. simpl. rewrite delete_insert_eq, fmap_delete. f_equal. exact Ko. }
  split; [split|split].
  - by rewrite Hconn.
  - rewrite <- (dom_fmap_L owner), Hctx, dom_delete_L, dom_fmap_L, Hd. by rewrite Hconn.
  - intros h. specialize (Ha5 h). unfold settled, due in *. simpl in Ha5. lia.
  - rewrite Hconn, Hc5, Tc. simpl. rewrite Kpe. simpl. rewrite Hpe.
    pose proof (size_remove p C HA). fold C. unfold u64. rewrite Z.mod_small by lia. lia.
  - right. rewrite Hc5, Tc. simpl. rewrite Kmu. destruct Hmu as [Hnone|Hmu]; [|done].
    fold C in Hnone. rewrite Hnone in HA. by apply elem_of_empty in HA.
  - rewrite Htr, app_assoc, app_assoc. rewrite added_snoc. simpl. rewrite <- app_assoc, added_unhandled by done.
    rewrite Hadd2. done.
  - exists p, c. split; try done. exists (trace w2), (es ++ [Ev_easy_cleanup (easy_handle m)]).
    split; [by rewrite Htr|]. split; [exact Kcb|]. apply Forall_app. split; [done|by apply Forall_singleton].
Qed.

(** ** The handlers *)

(** The client as it is between two events. *)
Definition Calm (w : World) : Prop := Sess (connections (client w)) w.

(** Fewer connections than before. *)
Definition fewer (w w' : World) : Prop := connections (client w') ⊆ connections (client w).

#[export] Instance fewer_preorder : PreOrder fewer.
Proof. unfold fewer. split; [by intros w|]. intros w1 w2 w3 H1 H2. by etrans. Qed.

Lemma count_answer o ec r h : Z.of_nat (count (is_callback_of h) (answer o ec r)) = due o h.
Proof.
  destruct o as [h'|]; unfold due; simpl; [|done]. rewrite count_cons, count_nil. simpl.
  rewrite (bool_decide_ext (h = h') (Some h' = Some h)) by naive_solver. case_bool_decide; lia.
Qed.

(** Who has been or will be answered does not change. *)
Definition same_answers (w w' : World) : Prop :=
  ∀ h, (callbacks h w' + outstanding h w' = callbacks h w + outstanding h w)%nat.

#[export] Instance same_answers_preorder : PreOrder same_answers.
Proof. split; [by intros w h|]. intros w1 w2 w3 H1 H2 h. by rewrite H2, H1. Qed.

Lemma quiet_same_answers w w' : quiet w w' → same_answers w w'.
Proof.
  intros Hq h. pose proof (k_callbacks _ _ (quiet_calm _ _ Hq) h) as ->. unfold outstanding.
  by rewrite (q_owners _ _ Hq).
Qed.

Lemma delivered_same_answers m p c w w' : delivered m p c w w' → same_answers w w'.
Proof.
  intros [Hp _ _ _ Hx (t & es & Ht & Hc & Hes)] h.
  pose proof (outstanding_split h w p c Hp) as Hout. rewrite <- Hx in Hout. fold (outstanding h w') in Hout.
  pose proof (count_answer (conn_handler c) (from_curl_code (msg_result m)) (response_of t m) h) as Hans.
  unfold callbacks at 1. rewrite Ht, !count_app, (count_zero _ es), Hc; [lia|].
  intros e He. rewrite Forall_forall in Hes. specialize (Hes _ He). by destruct e.
Qed.

(** What is left of the added handles after some messages. *)
Definition taken (ms : list CURLMsg) (w w' : World) : Prop := ∀ e,
  e ∈ added (trace w') → e ∈ added (trace w) ∧
    ∀ m, m ∈ ms → msg_done m = true → easy_handle m ≠ e.

Lemma messages_wp ms w :
  Calm w → Z.of_nat (size (connections (client w))) < two64 →
  Forall (λ m, easy_handle m ∈ added (trace w)) ms → NoDup (map easy_handle ms) →
  wp (for_each (handle_message react) ms) (λ _ w',
    Calm w' ∧ fewer w w' ∧ same_answers w w' ∧ taken ms w w') w.
Proof.
  revert w. induction ms as [|m ms IH]; intros w HS Hsize Hadd Hnd; simpl.
  - apply wp_ret. split_and!; try done. intros e He. split; [done|]. by intros m Hm%not_elem_of_nil.
  - apply Forall_cons in Hadd as [Hm Hms]. apply NoDup_cons in Hnd as [Hnm Hnd]. apply wp_bind.
    destruct (msg_done m) eqn:Hdone.
    + eapply wp_mono; [by apply handle_message_wp|].
      intros _ w1 (HS1 & Hadd1 & p & c & Hdel). pose proof (d_connections _ _ _ _ _ Hdel) as Hc1.
      assert (fewer w w1) as Hf by (unfold fewer; rewrite Hc1; apply subseteq_difference_l; done).
      eapply wp_mono; [apply IH; [done| |..|done]|].
      * unfold fewer in Hf. apply subseteq_size in Hf. lia.
      * rewrite Forall_forall in *. intros m' Hm'. rewrite Hadd1. apply elem_of_difference.
        split; [by apply Hms|]. intros Heq%elem_of_singleton. apply Hnm. rewrite <- Heq.
        by apply list_elem_of_fmap_2.
      * intros _ w2 (HS2 & Hf2 & Hsa2 & Ht2). split_and!; [done|by trans w1|..].
        -- trans w1; [by eapply delivered_same_answers|done].
        -- intros e He. destruct (Ht2 e He) as [He1 Hne]. rewrite Hadd1 in He1.
           apply elem_of_difference in He1 as [He0 Hne1]. split; [done|].
           intros m' [->|Hm']%elem_of_cons Hd; [|by apply Hne].
           intros <-. by apply Hne1, elem_of_singleton.
    + unfold handle_message. rewrite Hdone. simpl. apply wp_ret.
      eapply wp_mono; [by apply IH|]. intros _ w2 (HS2 & Hf2 & Hsa2 & Ht2). split_and!; try done.
      intros e He. destruct (Ht2 e He) as [He1 Hne]. split; [done|].
      intros m' [->|Hm']%elem_of_cons Hd; [congruence|by apply Hne].
Qed.

Lemma check_multi_info_full w : Calm w → Z.of_nat (size (connections (client w))) < two64 →
  wp (check_multi_info react) (λ _ w', Calm w' ∧ fewer w w' ∧ same_answers w w' ∧
    taken (curl_messages (trace w)) w w') w.
Proof.
  intros HS Hsize. unfold check_multi_info. apply wp_bind, wp_gets.
  apply messages_wp; [done|done| |apply messages_distinct].
  apply Forall_forall. intros m Hm. by apply messages_added.
Qed.

Lemma check_multi_info_wp w : Calm w → Z.of_nat (size (connections (client w))) < two64 →
  wp (check_multi_info react) (λ _ w', Calm w' ∧ fewer w w') w.
Proof.
  intros HS Hsize. eapply wp_mono; [by apply check_multi_info_full|]. by intros _ w' (? & ? & _).
Qed.

(** A socket action, and the messages it leaves. *)
Lemma action_wp s m w : Calm w → Z.of_nat (size (connections (client w))) < two64 →
  wp (let! code := curl_multi_socket_action s m in
      when (bool_decide (code = CURLM_OK)) (check_multi_info react)) (λ _ w', Calm w' ∧ fewer w w') w.
Proof.
  intros HS Hsize. apply wp_bind.
  eapply wp_mono; [eapply sess_hears; [exact HS|]; by apply socket_action_wp, HS|].
  intros code w1 [HS1 Hq1].
  assert (connections (client w1) = connections (client w)) as Hc1 by apply Hq1.
  assert (Calm w1) as HS1' by (unfold Calm; by rewrite Hc1).
  apply wp_when. destruct (bool_decide _); [|by unfold fewer; rewrite Hc1].
  unfold fewer. rewrite <- Hc1. apply check_multi_info_wp; [done|by rewrite Hc1].
Qed.

Lemma asio_timer_wp ec w : Calm w → Z.of_nat (size (connections (client w))) < two64 →
  wp (asio_timer_callback react ec) (λ _ w', Calm w' ∧ fewer w w') w.
Proof.
  intros HS Hsize. unfold asio_timer_callback. apply wp_bind, wp_gets.
  destruct (_ || _); [by apply wp_ret|]. by apply action_wp.
Qed.

Lemma calm_keeps {B} (m : M World B) w : Calm w → keeps m w → wp m (λ _ w', Calm w' ∧ fewer w w') w.
Proof.
  intros HS Hm. eapply wp_mono; [exact Hm|]. intros b w' Hi.
  assert (connections (client w') = connections (client w)) as Hc by apply Hi.
  unfold Calm, fewer. rewrite Hc. split; [|done].
  apply (Sess_quiet _ w); [by apply idle_quiet| |done]. apply (Mem_idle _ w); [done|apply HS].
Qed.

Lemma event_callback_wp s a w : Calm w → Z.of_nat (size (connections (client w))) < two64 →
  wp (event_callback react s a) (λ _ w', Calm w' ∧ fewer w w') w.
Proof.
  intros HS Hsize. unfold event_callback. apply wp_bind, wp_gets, wp_bind, wp_gets.
  destruct (sockets w !! s) as [[fd|]|]; [|by apply wp_ret..].
  destruct (multi (client w)); [|by apply wp_ret]. simpl. apply wp_bind.
  eapply wp_mono; [eapply sess_hears; [exact HS|]; by apply socket_action_wp, HS|].
  intros code w1 [HS1 Hq1].
  assert (connections (client w1) = connections (client w)) as Hc1 by apply Hq1.
  assert (Calm w1) as HS1' by (unfold Calm; by rewrite Hc1).
  assert (fewer w w1) as Hf1 by (unfold fewer; by rewrite Hc1).
  destruct (bool_decide _); simpl; [|by apply wp_ret]. apply wp_bind.
  eapply wp_mono; [apply check_multi_info_wp; [done|by rewrite Hc1]|].
  intros _ w2 [HS2 Hf2]. assert (fewer w w2) as Hf by by etrans.
  eapply wp_mono; [apply (calm_keeps _ w2 HS2)|].
  - keeps_step. case_match; [unfold timer_cancel; keeps_step|]. keeps_step.
    case_match; [|keeps_step]. apply keeps_watches. eapply mem_alive, HS2.
  - intros _ w3 [HS3 Hf3]. split; [done|]. by etrans.
Qed.

(** ** Starting a request *)

Lemma Mem_new A w c : Mem A w → easy c = None →
  Mem A (w <| next ::= S |> <| contexts ::= <[next w := c]> |>).
Proof.
  intros ([Hal Hn He Hop Hi Ha Hd Hr Hc] & [Rc Rf] & HI') Hce.
  match goal with |- Mem _ ?w2 => set (w' := w2) end.
  assert (contexts w !! next w = None) as Hnone.
  { apply eq_None_not_Some. intros [d Hd']. specialize (Hn _ _ Hd'). lia. }
  assert (∀ q e, owns w' q e ↔ owns w q e) as Ho.
  { intros q e. unfold owns. simpl. split; intros (c' & Hq & He').
    - apply lookup_insert_Some in Hq as [[_ <-]|[_ Hq]]; [congruence|by exists c'].
    - exists c'. rewrite lookup_insert_ne; [done|]. intros <-. congruence. }
  split; [split|split; [split|]]; try done.
  - intros q d. simpl. intros [[<- _]|[_ Hq]]%lookup_insert_Some; [lia|]. specialize (Hn _ _ Hq). lia.
  - intros q e Hq%Ho%He. split; [simpl; lia|apply Hq].
  - intros e Hs. destruct (Hop _ Hs) as [q Hq]. exists q. by apply Ho.
  - intros q q' e. rewrite !Ho. apply Hi.
  - intros e. simpl. rewrite Ha. by setoid_rewrite Ho.
  - intros q Hq. destruct (Hd q Hq) as (e & l & H1 & H2). exists e, l. by rewrite Ho.
  - intros q d e. simpl. intros [[_ <-]|[_ Hq]]%lookup_insert_Some; [congruence|]. by eapply Rc.
  - intros e He'. simpl in He'. apply Rf. lia.
  - apply (Ints_frame w _ []); simpl; try done; [lia|by rewrite app_nil_r].
Qed.

(** A context gets its handle. *)
Lemma Mem_handle A w p c : Mem A w → contexts w !! p = Some c → easy c = None → p ∉ A →
  response_body c = "" → response_headers c = [] →
  let e := next w in
  Mem A (w <| next ::= S |> <| trace ::= λ t, t ++ [Ev_easy_init (Some e)] |>
           <| options ::= <[e := []]> |> <| contexts ::= <[p := c <| easy := Some e |>]> |>).
Proof.
  intros ([Hal Hn He Hop Hi Ha Hd Hr Hc] & [Rc Rf] & HI') Hp Hce HA Hb Hh e.
  match goal with |- Mem _ ?w2 => set (w' := w2) end.
  assert (∀ q e', owns w' q e' ↔ owns w q e' ∨ (q = p ∧ e' = e)) as Ho.
  { intros q e'. unfold owns. simpl. destruct (decide (q = p)) as [->|Hne].
    - rewrite lookup_insert_eq. split.
      + intros (c' & [= <-] & [= <-]). by right.
      + intros [(c' & Hc' & He')|[_ ->]]; [congruence|eauto].
    - rewrite lookup_insert_ne by done. split; [by left|]. by intros [?|[? _]]. }
  assert (∀ q, ¬ owns w q e) as Hfresh.
  { intros q Hq. destruct (He _ _ Hq) as [Hlt _]. unfold e in Hlt. lia. }
  assert (options w !! e = None) as Hnone.
  { apply eq_None_not_Some. intros Hs. destruct (Hop _ Hs) as [q Hq]. by eapply Hfresh. }
  assert (added (trace w') = added (trace w)) as Hadd by (simpl; by rewrite added_snoc).
  destruct (Rf e (Nat.le_refl _)) as (Rw & Rl & Ri).
  split; [split|split; [split|]]; rewrite ?Hadd; try done.
  - intros q d. simpl. intros [[<- _]|[_ Hq]]%lookup_insert_Some; [specialize (Hn _ _ Hp)|specialize (Hn _ _ Hq)]; lia.
  - intros q e' [Hq|[-> ->]]%Ho; simpl.
    + destruct (He _ _ Hq) as [Hlt Hs]. split; [lia|]. rewrite lookup_insert_ne; [done|].
      intros <-. by eapply Hfresh.
    + split; [lia|]. rewrite lookup_insert_eq. eauto.
  - intros e'. simpl. rewrite lookup_insert_is_Some. intros [<-|[_ Hs]].
    + exists p. apply Ho. by right.
    + destruct (Hop _ Hs) as [q Hq]. exists q. apply Ho. by left.
  - intros q q' e' [Hq|[-> ->]]%Ho [Hq'|[-> Heq]]%Ho; [by eapply Hi|..].
    + subst e'. by apply Hfresh in Hq.
    + by apply Hfresh in Hq'.
    + done.
  - intros e'. rewrite Ha. split; intros (q & Hq & Hqe); exists q; (split; [done|]).
    + apply Ho. by left.
    + apply Ho in Hqe as [Hqe|[-> _]]; done.
  - intros q Hq. destruct (Hd q Hq) as (e' & l & H1 & H2 & H3). exists e', l.
    split; [apply Ho; by left|]. split; [|done]. simpl. rewrite lookup_insert_ne; [done|].
    intros <-. by eapply Hfresh.
  - intros e'. simpl. rewrite !count_app, !count_cons, !count_nil, Hr. simpl.
    destruct (decide (e' = e)) as [->|Hne].
    + rewrite bool_decide_true, lookup_insert_eq, Hnone by done.
      rewrite (decide_False (P := is_Some None)), decide_True by (by eauto || by intros [? [=]]). lia.
    + rewrite bool_decide_false, lookup_insert_ne by done. lia.
  - apply cleanups_safe_snoc; [done|]. by intros ? [=].
  - intros q d e'. simpl. rewrite written_snoc, header_lines_snoc. simpl. rewrite app_nil_r.
    intros [[_ <-]|[_ Hq]]%lookup_insert_Some; [|by eapply Rc].
    simpl. intros [= <-]. by rewrite Hb, Hh, Rw, Rl.
  - intros e'. simpl. intros Hlt. rewrite written_snoc, header_lines_snoc, count_app, count_cons, count_nil.
    simpl. rewrite app_nil_r. destruct (Rf e') as (-> & -> & ->); [lia|].
    rewrite bool_decide_false; [done|]. unfold e. lia.
  - apply (Ints_frame w _ [Ev_easy_init (Some e)]); simpl; try done; [lia|by apply Forall_singleton].
Qed.

(** The options of a handle that is not added change. *)
Lemma Mem_options A w p e f : Mem A w → owns w p e → p ∉ A → Mem A (w <| options ::= alter f e |>).
Proof.
  intros ([Hal Hn He Hop Hi Ha Hd Hr Hc] & HR & HI') Hp HA.
  assert (∀ e', is_Some ((alter f e (options w)) !! e') ↔ is_Some (options w !! e')) as Hs.
  { intros e'. destruct (decide (e' = e)) as [->|Hne].
    - rewrite lookup_alter_eq. by rewrite fmap_is_Some.
    - by rewrite lookup_alter_ne. }
  split; [split|split]; try done; simpl.
  - intros q e' Hq. rewrite Hs. by eapply He.
  - intros e'. rewrite Hs. apply Hop.
  - intros q Hq. destruct (Hd q Hq) as (e' & l & H1 & H2 & H3). exists e', l. split; [done|].
    rewrite lookup_alter_ne; [done|]. intros ->. apply HA. by rewrite (Hi _ _ _ Hp H1).
  - intros e'. rewrite Hr. by rewrite (decide_ext _ _ 1%nat 0%nat (Hs e')).
  - by destruct HR.
  - by destruct HI'.
Qed.

(** The options that [apply_method] sets. *)
Definition method_options (method : HttpMethod.t) (body : string) : list curl_option :=
  let fields := [CURLOPT_POSTFIELDS body; CURLOPT_POSTFIELDSIZE (Z.of_nat (String.length body))] in
  match method with
  | HttpMethod.get => [CURLOPT_HTTPGET]
  | HttpMethod.head => [CURLOPT_NOBODY]
  | HttpMethod.post => CURLOPT_POST :: fields
  | HttpMethod.put => CURLOPT_CUSTOMREQUEST "PUT" :: fields
  | HttpMethod.del => CURLOPT_CUSTOMREQUEST "DELETE" :: if String.eqb body "" then [] else fields
  | HttpMethod.patch => CURLOPT_CUSTOMREQUEST "PATCH" :: fields
  | HttpMethod.other _ => []
  end.

Definition set_options (e : nat) (os : list curl_option) (w : World) : World :=
  w <| options ::= alter (λ l, l ++ os) e |>.

Lemma set_options_app e os os' w : set_options e os' (set_options e os w) = set_options e (os ++ os') w.
Proof.
  destruct w. unfold set_options. simpl. f_equal. apply map_eq. intros i.
  destruct (decide (i = e)) as [->|Hne]; [|by rewrite !lookup_alter_ne].
  rewrite !lookup_alter_eq. destruct (_ !! e); simpl; [|done]. by rewrite app_assoc.
Qed.

Lemma set_options_nil e w : set_options e [] w = w.
Proof.
  destruct w. unfold set_options. simpl. f_equal. apply map_eq. intros i.
  destruct (decide (i = e)) as [->|Hne]; [|by rewrite !lookup_alter_ne].
  rewrite lookup_alter_eq. destruct (_ !! e); simpl; [|done]. by rewrite app_nil_r.
Qed.

Lemma setopts_eq e os w : for_each (setopt e) os w = Ok (tt, set_options e os w).
Proof.
  revert w. induction os as [|o os IH]; intros w; simpl.
  - by rewrite set_options_nil.
  - change (for_each (setopt e) os (set_options e [o] w) = Ok (tt, set_options e (o :: os) w)).
    by rewrite IH, (set_options_app e [o]).
Qed.

Lemma apply_method_eq e method body w :
  apply_method e method body w =
    Ok (match method with HttpMethod.other _ => make_error_code invalid_argument | _ => no_error end,
        set_options e (method_options method body) w).
Proof.
  set (code := match method with HttpMethod.other _ => _ | _ => _ end).
  assert (apply_method e method body w = (for_each (setopt e) (method_options method body) ;;; ret code) w)
    as ->.
  { destruct method; try reflexivity. simpl. unfold apply_method. by destruct (String.eqb body ""). }
  unfold bind. by rewrite setopts_eq.
Qed.

Lemma configuration_points_to ca p c l : points_to p (l ++ easy_configuration ca p c).
Proof.
  unfold points_to, write_data, header_data, private_data. rewrite !omap_app.
  assert (∀ (f : curl_option → option nat), omap f (easy_configuration ca p c) = [p] →
    last (omap f l ++ omap f (easy_configuration ca p c)) = Some p) as Hlast.
  { intros f ->. apply last_snoc. }
  split; [|split]; apply Hlast; unfold easy_configuration; rewrite !omap_app;
    by destruct (String.eqb ca ""), (curl_headers c).
Qed.

Lemma wp_eq {B} (m : M World B) b w' (Q : B → World → Prop) w : m w = Ok (b, w') → Q b w' → wp m Q w.
Proof. unfold wp. by intros ->. Qed.

(** A context that waits to be started. *)
Definition fresh_conn (c : ConnContext) : Prop :=
  easy c = None ∧ response_body c = "" ∧ response_headers c = [].

(** What a request leaves behind. *)
Definition started (C : gset nat) (w : World) : Prop :=
  Calm w ∧ (size (connections (client w)) ≤ S (size C))%nat.

Lemma fail_started p c ec C w :
  Sess ({[ p ]} ∪ C) w → connections (client w) = C → contexts w !! p = Some c → p ∉ C →
  wp (fail_conn react p ec ;;; free_conn p) (λ _ w', started C w') w.
Proof.
  intros HS Hcon Hp Hn. eapply wp_mono; [eapply fail_wp; [done|done|by rewrite Hcon]|].
  intros _ w' [HS' Hc']. unfold started, Calm. rewrite Hc', Hcon. split; [|lia].
  by replace C with (({[ p ]} ∪ C) ∖ {[ p ]}) by set_solver.
Qed.

(** The handle is set up but not yet added. *)
Lemma set_up_wp p c e m C w (k : M World unit) :
  Mem C w → contexts w !! p = Some c → easy c = Some e → p ∉ C →
  (∀ ca l, let w' := set_options e (method_options m (request_body c) ++ easy_configuration ca p c) w in
    Mem C w' → options w' !! e = Some l → points_to p l → wp k (λ _ w', started C w') w') →
  (∀ m', m ≠ HttpMethod.other m') →
  wp (let! c := deref_conn p in
      let! ec := apply_method e m (request_body c) in
      if is_error ec then fail_conn react p ec ;;; free_conn p else
      let! ec := configure_easy_handle p e in
      if is_error ec then fail_conn react p ec ;;; free_conn p else k) (λ _ w', started C w') w.
Proof.
  intros HM Hp Hce Hn Hk Hm. apply wp_bind, (deref_wp p c), wp_bind; [done|].
  eapply wp_eq; [apply apply_method_eq|].
  assert (∀ ec, (match m with HttpMethod.other _ => ec | _ => no_error end) = no_error) as ->
    by (intros; destruct m; try done; by destruct (Hm n)).
  simpl. apply wp_bind. unfold configure_easy_handle.
  apply wp_bind, (deref_wp p c), wp_bind, wp_gets, wp_bind; [done|].
  eapply wp_eq; [apply setopts_eq|]. apply wp_ret. simpl. rewrite set_options_app.
  assert (owns w p e) as Ho by by exists c.
  destruct (own_easy _ _ (proj1 HM) _ _ Ho) as [_ [l Hl]].
  eapply (Hk _ (l ++ method_options m (request_body c) ++ easy_configuration _ p c)).
  - by apply (Mem_options C w p).
  - simpl. by rewrite lookup_alter_eq, Hl.
  - rewrite app_assoc. apply configuration_points_to.
Qed.

(** The handle of [p] is added: the connection is registered, and libcurl started. *)
Lemma registered_wp p C w :
  Mem ({[ p ]} ∪ C) w → dom (contexts w) = {[ p ]} ∪ C → Acct settled w → p ∉ C →
  connections (client w) = C → pending (client w) = Z.of_nat (size C) → multi (client w) = true →
  Z.of_nat (S (size C)) < two64 →
  wp (modc (λ c, c <| pending ::= u64_succ |>) ;;;
      modc (λ c, c <| connections ::= λ s, {[ p ]} ∪ s |>) ;;;
      let! code := curl_multi_socket_action CURL_SOCKET_TIMEOUT 0 in
      when (bool_decide (code = CURLM_OK)) (check_multi_info react)) (λ _ w', started C w') w.
Proof.
  intros HM Hd Ha Hn Hc Hpe Hmu Hsize. apply wp_bind, wp_modify, wp_bind, wp_modify.
  match goal with |- wp _ _ ?w' => set (w1 := w') end.
  assert (connections (client w1) = {[ p ]} ∪ C) as Hc1 by (simpl; by rewrite Hc).
  assert (Calm w1) as HS1.
  { unfold Calm. rewrite Hc1. split; [rewrite Hc1; mem_unseen HM|done|exact Ha| |by right].
    rewrite Hc1, size_add by done. simpl. rewrite Hpe. unfold u64_succ, u64.
    rewrite Z.mod_small by lia. lia. }
  eapply wp_mono; [apply action_wp; [done|by rewrite Hc1, size_add]|].
  intros _ w2 [HS2 Hf2]. split; [done|]. unfold fewer in Hf2. apply subseteq_size in Hf2.
  by rewrite Hc1, size_add in Hf2.
Qed.

(** A context is given its handle. *)
Lemma acct_handle w p c : Acct settled w → contexts w !! p = Some c →
  Acct settled (w <| next ::= S |> <| trace ::= λ t, t ++ [Ev_easy_init (Some (next w))] |>
    <| options ::= <[next w := []]> |> <| contexts ::= <[p := c <| easy := Some (next w) |>]> |>).
Proof.
  intros Ha Hp h. specialize (Ha h). unfold requests, callbacks, queued in *.
  match goal with |- context [outstanding h ?w2] => set (w1 := w2) end.
  rewrite (outstanding_split h w p c) in Ha by done.
  rewrite (outstanding_split h w1 p (c <| easy := Some (next w) |>))
    by (simpl; by rewrite lookup_insert_eq).
  simpl. rewrite !count_app, !count_cons, !count_nil, fmap_insert, delete_insert_eq. simpl. lia.
Qed.

Lemma start_request_wp p c m C w :
  Sess ({[ p ]} ∪ C) w → connections (client w) = C → contexts w !! p = Some c → p ∉ C →
  fresh_conn c → Z.of_nat (S (size C)) < two64 → (∀ m', m ≠ HttpMethod.other m') →
  wp (start_request react p m) (λ _ w', started C w') w.
Proof.
  intros HS Hcon Hp Hn (Hce & Hcb & Hch) Hsize Hm. unfold start_request. apply wp_bind, wp_gets.
  destruct (multi (client w)) eqn:Hmul; simpl; [|by apply (fail_started p c)].
  unfold curl_easy_init, new_address.
  apply wp_bind, wp_bind, wp_gets, wp_bind, wp_bind, wp_gets, wp_bind, wp_modify, wp_ret, wp_bind, wp_modify, wp_bind.
  destruct (curl_easy_ok (trace w)); apply wp_when.
  2:{ apply wp_ret. match goal with |- wp _ _ ?w' => set (w1 := w') end.
      assert (idle w w1) as Hi.
      { split; try done; simpl; [lia|]. eexists. split; [done|by apply Forall_singleton]. }
      apply (fail_started p c); try done.
      apply (Sess_quiet _ w); [by apply idle_quiet| |done]. apply (Mem_idle _ w); [done|apply HS]. }
  apply wp_modify, wp_ret. unfold modify_conn.
  apply wp_bind, wp_bind, (deref_wp p c), wp_modify; [done|].
  match goal with |- wp _ _ ?w' => set (w1 := w') end. subst C.
  destruct HS as [HM Hd Ha Hpe Hmu]. set (C := connections (client w)) in *.
  pose proof (Mem_handle C w p c HM Hp Hce Hn Hcb Hch) as HM1.
  pose proof (acct_handle w p c Ha Hp) as Ha1.
  assert (contexts w1 !! p = Some (c <| easy := Some (next w) |>)) as Hp1
    by (simpl; by rewrite lookup_insert_eq).
  assert (dom (contexts w1) = {[ p ]} ∪ C) as Hd1.
  { simpl. rewrite dom_insert_L, Hd. set_solver. }
  apply (set_up_wp p (c <| easy := Some (next w) |>) (next w) m C w1); try done.
  intros ca l w2 HM2 Hl2 Hpt. apply wp_bind.
  eapply wp_mono; [apply (add_handle_wp C w2 p (next w) l HM2 Hn); [|done|done]|].
  { exists (c <| easy := Some (next w) |>). split; [exact Hp1|done]. }
  intros code w3 [Hk3 HM3]. pose proof Hk3 as [_ Ko Kc Kp Kmu _ _].
  destruct (owners_lookup w2 w3 p _ Ko Hp1) as (c3 & Hp3 & _).
  assert (dom (contexts w3) = {[ p ]} ∪ C) as Hd3 by (by rewrite (owners_dom w2)).
  assert (Acct settled w3) as Ha3 by (eapply Acct_calm; [exact Hk3|exact Ha1]).
  assert (connections (client w3) = C) as Hc3 by done.
  assert (pending (client w3) = Z.of_nat (size C)) as Hpe3 by (by rewrite Kp).
  destruct (decide (code = CURLM_OK)) as [Hok|Hok].
  - rewrite bool_decide_true by done. apply (registered_wp p C w3); try done. by rewrite Kmu.
  - rewrite bool_decide_false by done. simpl. apply (fail_started p c3); try done.
    split; [by rewrite Hc3|done|done|by rewrite Hc3|right; by rewrite Kmu].
Qed.

Lemma do_request_wp args w :
  let C := connections (client w) in
  Mem C w → dom (contexts w) = C → Acct (due (ra_handler args)) w →
  pending (client w) = Z.of_nat (size C) → C = ∅ ∨ multi (client w) = true →
  Z.of_nat (S (size C)) < two64 →
  wp (do_request react args) (λ _ w', started C w') w.
Proof.
  intros C HM Hd Ha Hpe Hmu Hsize. unfold do_request. destruct (to_curl_method _) eqn:Hm.
  - unfold new_address. apply wp_bind, wp_bind, wp_gets, wp_bind, wp_modify, wp_ret, wp_bind, wp_modify.
    match goal with |- wp _ _ ?w' => set (w1 := w') end.
    assert (contexts w !! next w = None) as Hnone.
    { apply eq_None_not_Some. intros [d Hd']. pose proof (own_next _ _ (proj1 HM) _ _ Hd'). lia. }
    apply (start_request_wp (next w) (new_conn args) _ C w1); try done.
    + split.
      * exact (Mem_new C w (new_conn args) HM eq_refl).
      * simpl. by rewrite dom_insert_L, Hd.
      * intros h. specialize (Ha h). unfold requests, callbacks, queued, settled in *.
        rewrite (outstanding_split h w1 (next w) (new_conn args)) by (simpl; by rewrite lookup_insert_eq).
        unfold outstanding in Ha. simpl. rewrite fmap_insert, delete_insert_eq, delete_id; [lia|].
        by rewrite lookup_fmap, Hnone.
      * done.
      * done.
    + simpl. by rewrite lookup_insert_eq.
    + rewrite <- Hd, not_elem_of_dom. done.
    + intros m' Heq. by rewrite Heq in Hm.
  - eapply wp_mono; [by eapply invoke_wp|]. intros _ w1 (HM1 & Ha1 & [Tc Tx _]).
    unfold started, Calm. rewrite Tc. fold C. split; [|lia]. split; rewrite ?Tc, ?Tx; try done.
    intros h. specialize (Ha1 h). unfold settled in *. lia.
Qed.

(** ** Cancelling *)

Definition cancellation (e : event) : Prop :=
  match e with
  | Ev_callback _ ec r => ec = make_error_code operation_canceled ∧ r = empty_response
  | _ => True
  end.

(** The loop of [do_cancel] has the contexts [ps] left. *)
Record Cancelling (w0 w : World) (ps : list nat) : Prop := {
  cc_mem : Mem (list_to_set ps) w;
  cc_acct : Acct settled w;
  cc_dom : dom (contexts w) = connections (client w0);
  cc_connections : connections (client w) = ∅;
  cc_multi : multi (client w) = multi (client w0);
  cc_done p c : contexts w !! p = Some c → p ∉ ps → conn_handler c = None;
  cc_calls h : (callbacks h w + outstanding h w = callbacks h w0 + outstanding h w0)%nat;
  cc_trace : ∃ es, trace w = trace w0 ++ es ∧ Forall cancellation es;
}.

Lemma curl_cancellation es : Forall (λ e, curl_event e = true) es → Forall cancellation es.
Proof. intros Hes. eapply Forall_impl; [exact Hes|]. by intros []. Qed.

Lemma told_callbacks l w w' h : told l w w' → callbacks h w' = (callbacks h w + count (is_callback_of h) l)%nat.
Proof.
  intros [_ _ (es & Ht & Hes)]. unfold callbacks. rewrite Ht, !count_app, (count_zero _ es); [lia|].
  intros e He. rewrite Forall_forall in Hes. specialize (Hes _ He). by destruct e.
Qed.

Lemma outstanding_take h w p c c' : contexts w !! p = Some c →
  Z.of_nat (outstanding h (w <| contexts ::= <[p := c']> |>)) =
    Z.of_nat (outstanding h w) - due (conn_handler c) h + due (conn_handler c') h.
Proof.
  intros Hp. rewrite (outstanding_split h w p c) by done.
  rewrite (outstanding_split h _ p c') by (simpl; by rewrite lookup_insert_eq).
  simpl. rewrite fmap_insert, delete_insert_eq. lia.
Qed.

Lemma remove_handle_trace A w p e : Mem A w → p ∈ A → owns w p e →
  wp (curl_multi_remove_handle e) (λ _ w', ∃ es, trace w' = trace w ++ es ∧ Forall cancellation es) w.
Proof.
  intros HM Hp Ho. unfold curl_multi_remove_handle. apply wp_bind.
  eapply wp_mono; [by apply (curl_body_wp A)|].
  intros _ w1 [_ [_ _ _ _ _ _ _ _ (es & Ht & Hes)]]. apply wp_modify. simpl.
  exists (es ++ [Ev_remove_handle e]). rewrite Ht, <- app_assoc. split; [done|].
  apply Forall_app. split; [by apply curl_cancellation|by apply Forall_singleton].
Qed.

Lemma cancel_conn_wp w0 w p ps :
  Cancelling w0 w (p :: ps) → p ∉ ps → multi (client w0) = true →
  wp (cancel_conn react p) (λ _ w', Cancelling w0 w' ps) w.
Proof.
  intros [HM Ha Hd Hc Hmu Hdone Hcalls (es & Ht & Hes)] Hn Hm0.
  assert (p ∈ (list_to_set (p :: ps) : gset nat)) as HA by set_solver.
  destruct (own_data _ _ (proj1 HM) p HA) as (e & l & Ho & _). pose proof Ho as (c & Hp & Hce).
  unfold cancel_conn, remove_conn. apply wp_bind, wp_bind, (deref_wp p c), wp_bind, wp_gets; [done|].
  rewrite Hce, Hmu, Hm0. apply wp_when.
  eapply wp_mono; [apply wp_and; [exact (remove_handle_wp _ w p e HM HA Ho)|exact (remove_handle_trace _ w p e HM HA Ho)]|].
  intros _ w1 [(HM1 & Hk1 & _) (es1 & Ht1 & Hes1)]. pose proof Hk1 as [_ Ko Kc _ Kmu _ Kcb].
  destruct (owners_lookup w w1 p c Ko Hp) as (c1 & Hp1 & Hown).
  assert (conn_handler c1 = conn_handler c) as Hhc by exact (f_equal snd Hown).
  eapply wp_mono; [apply (answer_conn_wp _ p c1 _ _ settled w1 HM1 (Acct_calm _ _ _ Hk1 Ha) Hp1)|].
  intros _ w2 (HM2 & Ha2 & Ht2). pose proof Ht2 as [Tc Tx (es2 & Tt & Tes)].
  assert ((list_to_set (p :: ps) : gset nat) ∖ {[ p ]} = list_to_set ps) as Hset.
  { simpl. rewrite difference_union_distr_l_L, difference_diag_L, union_empty_l_L.
    apply difference_disjoint_L, disjoint_singleton_r. by rewrite elem_of_list_to_set. }
  rewrite Hset in HM2. split; try done.
  - rewrite Tx. simpl. rewrite dom_insert_lookup_L by eauto. by rewrite (owners_dom w).
  - rewrite Tc. simpl. by rewrite Kc.
  - rewrite Tc. simpl. by rewrite Kmu.
  - intros q d. rewrite Tx. simpl. intros [[_ <-]|[Hne Hq]]%lookup_insert_Some Hnq; [done|].
    destruct (owners_lookup w1 w q d (eq_sym Ko) Hq) as (d' & Hq' & Hd').
    rewrite <- (f_equal snd Hd' : conn_handler d' = conn_handler d).
    apply (Hdone q d' Hq'). rewrite not_elem_of_cons. auto.
  - intros h. rewrite (told_callbacks _ _ _ h Ht2), <- (Hcalls h), <- (Kcb h).
    assert (outstanding h w2 = outstanding h (w1 <| contexts ::= <[p := c1 <| conn_handler := None |>]> |>)) as ->
      by (unfold outstanding; by rewrite Tx).
    assert (outstanding h w = outstanding h w1) as -> by (unfold outstanding; by rewrite Ko).
    pose proof (outstanding_take h w1 p c1 (c1 <| conn_handler := None |>) Hp1) as Htake.
    pose proof (count_answer (conn_handler c1) (make_error_code operation_canceled) empty_response h).
    unfold callbacks in *. simpl in *. unfold due at 2 in Htake. simpl in Htake. lia.
  - exists (es ++ es1 ++ answer (conn_handler c1) (make_error_code operation_canceled) empty_response ++ es2).
    split; [rewrite Tt; simpl; by rewrite Ht1, Ht, <- !app_assoc|].
    rewrite !Forall_app. split_and!; try done.
    + by destruct (conn_handler c1); repeat constructor.
    + eapply Forall_impl; [exact Tes|]. by intros [].
Qed.

Lemma cancel_conns_wp w0 w ps :
  Cancelling w0 w ps → NoDup ps → (ps = [] ∨ multi (client w0) = true) →
  wp (for_each (cancel_conn react) ps) (λ _ w', Cancelling w0 w' []) w.
Proof.
  revert w. induction ps as [|p ps IH]; intros w Hw Hnd Hm; simpl; [by apply wp_ret|].
  apply NoDup_cons in Hnd as [Hn Hnd]. destruct Hm as [|Hm]; [done|]. apply wp_bind.
  eapply wp_mono; [by apply (cancel_conn_wp w0 w p ps)|]. intros [] w1 Hw1. apply IH; auto.
Qed.

(** What is left of the client's tables. *)
Definition emptied (c : Client) : Client :=
  c <| socket_map := ∅ |> <| socket_actions := ∅ |> <| actions := ∅ |> <| still_running := 0 |>.

Lemma close_sockets_wp A w : Mem A w → added (trace w) = ∅ →
  wp close_sockets (λ _ w', Mem A w' ∧ client w' = emptied (client w) ∧ contexts w' = contexts w ∧
    posted w' = posted w ∧ ∃ es, trace w' = trace w ++ es ∧ Forall (λ e, curl_event e = true) es) w.
Proof.
  intros HM Hadd. unfold close_sockets. apply wp_bind, wp_gets, wp_bind, wp_gets, wp_bind.
  eapply wp_mono; [apply (wp_for_each (λ w', idle w w' ∧ client w' = client w))|].
  - done.
  - intros [fd s] w1 _ [Hi Hc]. unfold close_tcp_socket. simpl.
    eapply wp_mono; [apply wp_and; [apply (keeps_close_tcp_socket s)|]|].
    + instantiate (1 := λ _ w', client w' = client w1). by apply wp_bind, wp_modify, wp_bind, wp_modify, wp_modify.
    + intros _ w2 [Hi2 Hc2]. split; [by trans w1|congruence].
  - intros _ w1 [Hi Hc]. apply wp_bind, wp_modify, wp_bind, wp_modify, wp_bind, wp_modify, wp_bind, wp_modify, wp_modify.
    match goal with |- Mem _ ?w' ∧ _ => set (w2 := w') end.
    assert (client w2 = emptied (client w)) as Hc2 by (simpl; by rewrite Hc).
    pose proof Hi as [_ _ Hpo Hx _ _ _ _ _ _ (es & Ht & Hes)].
    assert (added (trace w1) = ∅) as Hadd1.
    { rewrite Ht, added_unhandled; [done|]. eapply Forall_event; [|exact Hes].
      intros e He. by apply curl_unhandled, idle_curl. }
    destruct (Mem_idle _ _ _ Hi HM) as (HO & HR & HI').
    split; [|split; [done|split; [done|split; [done|]]]].
    + split; [by destruct HO|split; [by destruct HR|]]. destruct HI' as [I1 I2 I3 I4 I5].
      assert (assigned (trace w2) = ∅) as Has by (by apply I5).
      split; try done.
      * intros s p. by rewrite Has, lookup_empty.
      * simpl. intros p [v Hv]. by rewrite lookup_empty in Hv.
    + exists es. split; [done|]. eapply Forall_event; [|exact Hes]. apply idle_curl.
Qed.

Definition cleanup_event (e : event) : bool := match e with Ev_easy_cleanup _ => true | _ => false end.

Lemma outstanding_none h w : (∀ p c, contexts w !! p = Some c → conn_handler c = None) → outstanding h w = 0%nat.
Proof.
  intros Hnone. apply count_zero. intros [p o] Hp%elem_of_map_to_list. rewrite lookup_fmap in Hp.
  apply fmap_Some in Hp as (c & Hc & ->). unfold holds. simpl. by rewrite (Hnone p c Hc).
Qed.

Lemma free_all_wp l d w : Mem ∅ w → Acct d w → dom (contexts w) = list_to_set l → NoDup l →
  (∀ p c, contexts w !! p = Some c → conn_handler c = None) →
  wp (for_each free_conn l) (λ _ w', Mem ∅ w' ∧ Acct d w' ∧ client w' = client w ∧
    contexts w' = ∅ ∧ ∃ es, trace w' = trace w ++ es ∧ Forall (λ e, cleanup_event e = true) es) w.
Proof.
  revert w. induction l as [|p l IH]; intros w HM Ha Hd Hnd Hh; simpl.
  - apply wp_ret. split_and!; try done.
    + by apply dom_empty_inv_L.
    + exists []. by rewrite app_nil_r.
  - apply NoDup_cons in Hnd as [Hn Hnd]. apply wp_bind.
    assert (is_Some (contexts w !! p)) as [c Hp].
    { apply elem_of_dom. rewrite Hd. simpl. by apply elem_of_union_l, elem_of_singleton. }
    eapply wp_mono; [apply (free_conn_wp ∅ p c d w HM Ha Hp), not_elem_of_empty|].
    intros [] w1 (HM1 & Ha1 & Hc1 & Hx1 & Ht1).
    eapply wp_mono; [apply IH|].
    + done.
    + intros h. specialize (Ha1 h). rewrite (Hh p c Hp) in Ha1. unfold due in Ha1. simpl in Ha1. lia.
    + rewrite Hx1, dom_delete_L, Hd. simpl. rewrite difference_union_distr_l_L, difference_diag_L, union_empty_l_L.
      apply difference_disjoint_L, disjoint_singleton_r. by rewrite elem_of_list_to_set.
    + done.
    + intros q c'. rewrite Hx1. intros [_ Hq]%lookup_delete_Some. by eapply Hh.
    + intros [] w2 (HM2 & Ha2 & Hc2 & Hx2 & es & Ht2 & Hes). split_and!; try done; [congruence|].
      eexists. split; [rewrite Ht2, Ht1, <- app_assoc; done|]. apply Forall_app. split; [|done].
      destruct (easy c); [by apply Forall_singleton|done].
Qed.

Record cancelled (w w' : World) : Prop := {
  x_calm : Calm w';
  x_contexts : contexts w' = ∅;
  x_connections : connections (client w') = ∅;
  x_pending : pending_count w' = 0;
  x_sockets : socket_map (client w') = ∅ ∧ socket_actions (client w') = ∅ ∧ actions (client w') = ∅;
  x_added : added (trace w') = ∅;
  x_calls h : callbacks h w' = (callbacks h w + outstanding h w)%nat;
  x_trace : ∃ es, trace w' = trace w ++ es ∧ Forall cancellation es;
}.

(** The connections, in the order in which a loop goes through them. *)
Lemma iterate_elements t (C : gset nat) :
  list_to_set (iterate t (elements C)) = C ∧ NoDup (iterate t (elements C)) ∧
  (C = ∅ → iterate t (elements C) = []).
Proof.
  assert (iterate t (elements C) ≡ₚ elements C) as Hps by apply iterate_perm.
  split; [rewrite Hps; apply list_to_set_elements_L|]. split; [rewrite Hps; apply NoDup_elements|].
  intros ->. apply Permutation_nil. by rewrite Hps, elements_empty.
Qed.

Lemma cancelling_start w ps : Calm w → list_to_set ps = connections (client w) →
  Cancelling w (w <| trace ::= λ t, t ++ [Ev_timer_cancel] |>
                  <| client ::= λ c, c <| connections := ∅ |> |>) ps.
Proof.
  intros [HM Hd Ha _ _] Hset.
  assert (idle w (w <| trace ::= λ l, l ++ [Ev_timer_cancel] |>)) as Hi by by apply idle_log.
  pose proof (Mem_idle _ _ _ Hi HM) as HM1. split; try done.
  - rewrite Hset. mem_unseen HM1.
  - intros h. specialize (Ha h). unfold requests, callbacks, queued, outstanding in *. simpl.
    rewrite !count_app, !count_cons, !count_nil. simpl. lia.
  - intros p c Hp Hn. exfalso. apply Hn. rewrite <- (elem_of_list_to_set (C := gset nat)), Hset, <- Hd.
    by eapply elem_of_dom_2.
  - intros h. unfold callbacks, outstanding. simpl. rewrite count_app, count_cons, count_nil. simpl. lia.
  - exists [Ev_timer_cancel]. split; [done|]. by apply Forall_singleton.
Qed.

Lemma do_cancel_wp w : Calm w → wp (do_cancel react) (λ _ w', cancelled w w') w.
Proof.
  intros HS. pose proof HS as [HM Hd Ha Hpe Hmu]. set (C := connections (client w)) in *.
  unfold do_cancel, timer_cancel. apply wp_bind, wp_modify, wp_bind, wp_gets, wp_bind, wp_modify, wp_bind, wp_gets, wp_bind.
  match goal with |- wp _ _ ?w' => set (w1 := w') end.
  set (ps := iterate _ _). destruct (iterate_elements (trace w1) C) as (Hset & Hnd & Hnil).
  pose proof (cancelling_start w ps HS Hset) as Hstart.
  eapply wp_mono; [apply (cancel_conns_wp w w1 ps Hstart Hnd); destruct Hmu; auto|].
  intros [] w2 [HM2 Ha2 Hd2 Hc2 Hm2 Hdone2 Hcalls2 (es2 & Ht2 & Hes2)].
  apply wp_bind, wp_modify, wp_bind. match goal with |- wp _ _ ?w' => set (w3 := w') end.
  assert (Mem ∅ w3) as HM3 by mem_unseen HM2.
  assert (added (trace w3) = ∅) as Hadd3.
  { apply set_eq. intros e. rewrite (own_added _ _ (proj1 HM3)). set_solver. }
  eapply wp_mono; [by apply (close_sockets_wp ∅)|].
  intros [] w4 (HM4 & Hc4 & Hx4 & Hp4 & es4 & Ht4 & Hes4).
  assert (calm w3 w4) as Hcalls4.
  { split; rewrite ?Hc4, ?Hx4; try done; intros h; unfold requests, callbacks; rewrite Ht4;
      apply (count_events curl_event); (done || by intros []). }
  eapply wp_mono; [apply (free_all_wp (elements C) settled w4 HM4)|].
  { by eapply Acct_calm. }
  { rewrite Hx4. simpl. by rewrite Hd2, list_to_set_elements_L. }
  { apply NoDup_elements. }
  { intros p c. rewrite Hx4. intros Hp. apply (Hdone2 p c Hp), not_elem_of_nil. }
  intros [] w5 (HM5 & Ha5 & Hc5 & Hx5 & es5 & Ht5 & Hes5).
  rewrite Hc4 in Hc5.
  assert (connections (client w5) = ∅) as Hcon5 by (rewrite Hc5; simpl; by rewrite Hc2).
  split; try done.
  - unfold Calm. rewrite Hcon5. split; rewrite ?Hcon5; [done|by rewrite Hx5, dom_empty_L|done| |by left].
    by rewrite Hc5.
  - unfold pending_count. by rewrite Hc5.
  - by rewrite Hc5.
  - rewrite Ht5, added_unassigning; [by rewrite Ht4, added_unhandled;
      [|eapply Forall_event; [|exact Hes4]; apply curl_unhandled]|].
    eapply Forall_event; [|exact Hes5]. by intros [].
  - intros h. rewrite <- (Nat.add_0_r (callbacks h w5)).
    specialize (Hcalls2 h). rewrite (outstanding_none h w2) in Hcalls2
      by (intros p c Hp; apply (Hdone2 p c Hp), not_elem_of_nil).
    rewrite <- Hcalls2. f_equal. unfold callbacks.
    rewrite Ht5, (count_events cleanup_event) by (done || by intros []).
    by rewrite Ht4, (count_events curl_event) by (done || by intros []).
  - exists (es2 ++ es4 ++ es5). split.
    + rewrite Ht5, Ht4. simpl. by rewrite Ht2, <- !app_assoc.
    + rewrite !Forall_app. split_and!; [done|by apply curl_cancellation|].
      eapply Forall_impl; [exact Hes5|]. by intros [].
Qed.

(** ** Runs *)

(** What holds between two events, after [n] of them. *)
Definition Inv (n : nat) (w : World) : Prop :=
  Calm w ∧ (size (connections (client w)) ≤ n)%nat.

(** A change that the invariant does not see. *)
Lemma Calm_unseen f w : idle w (f w) → Calm w → Calm (f w) ∧ fewer w (f w).
Proof.
  intros Hi HS. assert (connections (client (f w)) = connections (client w)) as Hc by apply Hi.
  unfold Calm, fewer. rewrite Hc. split; [|done].
  apply (Sess_quiet _ w); [by apply idle_quiet| |done]. apply (Mem_idle _ w); [done|apply HS].
Qed.

Lemma calm_told l w w' : Calm w → Mem (connections (client w)) w' → Acct settled w' → told l w w' → Calm w'.
Proof.
  intros [_ Hd _ Hp Hm] HM Ha [Tc Tx _]. unfold Calm. rewrite Tc. split; rewrite ?Tc, ?Tx; done.
Qed.

Lemma fewer_inv n w w' : Inv n w → Calm w' → fewer w w' → Inv (S n) w'.
Proof. intros [_ Hn] HS Hf. split; [done|]. unfold fewer in Hf. apply subseteq_size in Hf. lia. Qed.

Lemma mux_task_wp n t i w : Inv n w → Z.of_nat (S n) < two64 → posted w !! i = Some t →
  wp (run_task react t) (λ _ w', Inv (S n) w') (w <| posted ::= delete i |>).
Proof.
  intros [HS Hn] Hlt Hi. pose proof HS as [HM Hd Ha Hp Hm].
  assert (∀ d, (∀ h, Z.of_nat (count (is_task_of h) (posted w)) =
      Z.of_nat (count (is_task_of h) (delete i (posted w))) + d h) →
    Acct d (w <| posted ::= delete i |>)) as Hposted.
  { intros d Hdel h. specialize (Ha h). specialize (Hdel h). unfold settled in Ha.
    unfold requests, callbacks, queued, outstanding in *. simpl. lia. }
  assert (Mem (connections (client w)) (w <| posted ::= delete i |>)) as HM' by mem_unseen HM.
  assert (∀ h, count (is_task_of h) (posted w) =
    ((if is_task_of h t then 1 else 0) + count (is_task_of h) (delete i (posted w)))%nat) as Hdel
    by (intros; by apply count_delete).
  destruct t as [args| |file]; simpl.
  - eapply wp_mono; [apply do_request_wp|].
    + exact HM'.
    + exact Hd.
    + apply Hposted. intros h. rewrite Hdel. unfold due. simpl. case_bool_decide; lia.
    + exact Hp.
    + exact Hm.
    + simpl. lia.
    + intros [] w' [HS' Hsize]. split; [done|]. simpl in Hsize. lia.
  - eapply wp_mono; [apply do_cancel_wp|].
    + split; try done. apply Hposted. intros h. rewrite Hdel. unfold settled. simpl. lia.
    + intros [] w' Hx. split; [apply Hx|]. rewrite (x_connections _ _ Hx), size_empty. lia.
  - apply wp_modify. split; [|simpl; lia]. split; try done.
    + mem_unseen HM'.
    + apply Hposted. intros h. rewrite Hdel. unfold settled. simpl. lia.
Qed.

Lemma mux_step_inv n a w : Inv n w → Z.of_nat (S n) < two64 → wp (step react a) (λ _ w', Inv (S n) w') w.
Proof.
  intros HI' Hlt. pose proof HI' as [HS Hn]. pose proof HS as [HM Hd Ha Hp Hm].
  assert (Z.of_nat (size (connections (client w))) < two64) as Hsize by lia.
  destruct a as [a|i|i ec]; simpl.
  - eapply wp_mono; [by eapply run_api_wp|]. intros _ w' (HM' & Ha' & Ht').
    split; [by eapply calm_told|]. rewrite (t_client _ _ _ Ht'). lia.
  - apply wp_bind, wp_gets. destruct (posted w !! i) as [t|] eqn:Hi.
    + by apply wp_bind, wp_modify, mux_task_wp.
    + apply wp_ret. split; [done|lia].
  - apply wp_bind, wp_gets. destruct (operations w !! i) as [op|]; [|apply wp_ret; split; [done|lia]].
    apply wp_bind, wp_modify. set (w1 := w <| operations ::= delete i |>).
    destruct (Calm_unseen (λ w, w <| operations ::= delete i |>) w) as [HS1 _].
    { split; try done. exists []. by rewrite app_nil_r. }
    { done. }
    assert (wp (complete_operation react op ec) (λ _ w', Calm w' ∧ fewer w1 w') w1) as Hop.
    { destruct op as [|s act]; simpl; [by apply asio_timer_wp|].
      case_match; [by apply wp_ret|by apply event_callback_wp]. }
    eapply wp_mono; [exact Hop|]. intros [] w' [HS' Hf']. by apply (fewer_inv n w1).
Qed.

Lemma mux_init_inv b : Inv 0 (World_init b).
Proof.
  assert (∀ p e, ¬ owns (World_init b) p e) as Hno.
  { intros p e (c & Hc & _). simpl in Hc. by rewrite lookup_empty in Hc. }
  split; [|done]. split; [split; [|split]|done|done|done|by left].
  - split; try done.
    + intros p e Hp. by apply Hno in Hp.
    + intros e [l Hl]. simpl in Hl. by rewrite lookup_empty in Hl.
    + intros p q e Hp. by apply Hno in Hp.
    + intros e. split; [intros He; by apply elem_of_empty in He|by intros (p & Hp%elem_of_empty & _)].
    + intros t1 t2 e Heq. by destruct t1.
  - split; simpl; [|done]. intros p c e. by rewrite lookup_empty.
  - split; simpl; try done. intros p [v Hv]. by rewrite lookup_empty in Hv.
Qed.

Lemma mux_steps_inv acts b : Z.of_nat (length acts) < two64 →
  wp (steps react acts) (λ _ w', Inv (length acts) w') (World_init b).
Proof.
  intros Hlen. apply (run_invariant (step react) Inv (length acts) 0); [|apply mux_init_inv|lia].
  intros n w a Hn HI'. apply mux_step_inv; [done|lia].
Qed.
End safety.
