(* ===== verification/MultiplexProperties.v ===== *)
(** The properties of the multiplexing client, and their witnesses.

    [ScriptedCurl] is a libcurl that follows a script, as far as [CurlLaws]
    allows; the witnesses and the two concrete scenarios run on it. *)

From S2P Require Import Prelude HttpsMultiplexClient HeaderLines MultiplexInvariant MultiplexSafety.

Section properties.
Context `{HC : Curl} `{HL : !CurlLaws} `{HI : Iteration}.
Context (react : list event → handler → error_code → HttpResponse → list api_call).

(** C1: whatever libcurl (within its documentation), Asio and the users'
    callbacks do, no run of fewer than 2^64 events faults: no pointer that
    libcurl was given is used after its object is gone.  Every request made with
    a handler is answered at most once, exactly once when no connection is
    registered and no request posted, and [pending_count] is the number of
    registered connections. *)
Theorem multiplex_requests_are_answered_once acts ok h : Z.of_nat (length acts) < two64 →
  wp (steps react acts) (λ _ w,
    (callbacks h w ≤ requests h w)%nat ∧
    (connections (client w) = ∅ → queued h w = 0%nat → callbacks h w = requests h w) ∧
    pending_count w = Z.of_nat (size (connections (client w)))) (World_init ok).
Proof.
  intros Hlen. eapply wp_mono; [by apply mux_steps_inv|]. intros [] w [[HM Hd Ha Hp _] _].
  specialize (Ha h). unfold settled in Ha. split; [lia|]. split; [|done]. intros Hnone Hq.
  rewrite Hnone in Hd. apply dom_empty_inv_L in Hd.
  rewrite (outstanding_none h w), Hq in Ha; [lia|]. intros p c. by rewrite Hd, lookup_empty.
Qed.

(** C36: no easy handle is cleaned up while libcurl has it, or more often than it
    was created, in any run; when no connection is registered none is left. *)
Theorem easy_handles_are_released acts ok : Z.of_nat (length acts) < two64 →
  wp (steps react acts) (λ _ w,
    cleanups_safe (trace w) ∧
    ∀ e, (count (is_cleanup_of e) (trace w) ≤ count (is_init_of e) (trace w))%nat ∧
      (connections (client w) = ∅ →
        count (is_cleanup_of e) (trace w) = count (is_init_of e) (trace w))) (World_init ok).
Proof.
  intros Hlen. eapply wp_mono; [by apply mux_steps_inv|]. intros [] w [[([] & _) Hd _ _ _] _].
  split; [done|]. intros e. rewrite own_released. split; [lia|]. intros Hnone.
  rewrite decide_False; [lia|]. intros (p & c & Hc & _)%own_options.
  rewrite Hnone in Hd. apply dom_empty_inv_L in Hd. by rewrite Hd, lookup_empty in Hc.
Qed.

(** C16: when libcurl reports that a transfer is done, its request's handler is
    called once, with the error of the result code and, if that is [CURLE_OK],
    with the status, everything libcurl wrote for that handle and nothing else,
    and the headers of all its header lines, in order; the connection is
    unregistered, its handle removed, and no other request is touched. *)
Theorem done_transfer_is_delivered n m w :
  Inv n w → Z.of_nat n < two64 → msg_done m = true → easy_handle m ∈ added (trace w) →
  wp (handle_message react m) (λ _ w', ∃ p c,
    contexts w !! p = Some c ∧ easy c = Some (easy_handle m) ∧
    connections (client w') = connections (client w) ∖ {[ p ]} ∧
    added (trace w') = added (trace w) ∖ {[ easy_handle m ]} ∧
    pending_count w' = pending_count w - 1 ∧
    owner <$> contexts w' = delete p (owner <$> contexts w) ∧
    ∃ t es, trace w' = t ++ answer (conn_handler c) (from_curl_code (msg_result m)) (response_of t m) ++ es ∧
      (∀ h, count (is_callback_of h) t = callbacks h w) ∧ Forall (λ e, answers_nobody e = true) es) w.
Proof.
  intros [HS Hn] Hlt Hdone He. eapply wp_mono; [apply handle_message_wp; [done..|lia]|].
  intros [] w' (HS' & Hadd & p & c & []). exists p, c. split_and!; try done.
  unfold pending_count. rewrite (s_pending _ _ HS), (s_pending _ _ HS'), d_connections.
  rewrite (size_remove p (connections (client w))) by done. lia.
Qed.

(** C34: [do_cancel] calls every outstanding handler, exactly once and with
    [operation_canceled], takes every handle from libcurl, closes and forgets
    every socket, and leaves the client idle. *)
Theorem cancel_answers_every_request n w : Inv n w →
  wp (do_cancel react) (λ _ w',
    (∀ h, callbacks h w' = (callbacks h w + outstanding h w)%nat) ∧
    (∃ es, trace w' = trace w ++ es ∧ Forall cancellation es) ∧
    is_busy w' = false ∧ contexts w' = ∅ ∧ added (trace w') = ∅ ∧
    socket_map (client w') = ∅ ∧ socket_actions (client w') = ∅ ∧ actions (client w') = ∅) w.
Proof.
  intros [HS _]. eapply wp_mono; [by apply do_cancel_wp|]. intros [] w' []. split_and!; try done.
  - unfold is_busy. by rewrite x_pending.
  - apply x_sockets.
  - apply x_sockets.
  - apply x_sockets.
Qed.

(** C35: once libcurl has reported every transfer it has as done, one
    [check_multi_info] answers every outstanding request and leaves the client
    idle. *)
Theorem finished_transfers_are_answered n w :
  Inv n w → Z.of_nat n < two64 →
  (∀ e, e ∈ added (trace w) → ∃ m, m ∈ curl_messages (trace w) ∧ msg_done m = true ∧ easy_handle m = e) →
  wp (check_multi_info react) (λ _ w',
    is_busy w' = false ∧ connections (client w') = ∅ ∧ added (trace w') = ∅ ∧
    ∀ h, callbacks h w' = (callbacks h w + outstanding h w)%nat) w.
Proof.
  intros [HS Hn] Hlt Hall. eapply wp_mono; [apply check_multi_info_full; [done|lia]|].
  intros [] w' ([HM Hd _ Hp _] & _ & Hsa & Ht).
  assert (added (trace w') = ∅) as Hadd.
  { apply elem_of_equiv_empty_L. intros e He. destruct (Ht e He) as [He0 Hne].
    destruct (Hall e He0) as (m & Hm & Hdone & Heq). by apply (Hne m Hm Hdone). }
  assert (connections (client w') = ∅) as Hnone.
  { apply elem_of_equiv_empty_L. intros p Hpc. destruct (own_data _ _ (proj1 HM) p Hpc) as (e & l & Ho & _).
    assert (e ∈ added (trace w')) as He by (apply (own_added _ _ (proj1 HM)); by exists p).
    rewrite Hadd in He. by apply elem_of_empty in He. }
  rewrite Hnone in Hd, Hp. apply dom_empty_inv_L in Hd. split_and!; try done.
  - unfold is_busy, pending_count. by rewrite Hp.
  - intros h. rewrite <- Hsa, (outstanding_none h w'); [lia|]. intros p c. by rewrite Hd, lookup_empty.
Qed.

(** ** Watches *)

(** Every operation that is pending now completes without an error. *)
Definition fire_all : M World unit :=
  let! ops := gets operations in
  steps react (replicate (length ops) (Act_complete 0 no_error)).

(** The client watches an open socket, and nothing else, for both directions. *)
Record watching (s : nat) (fd : Z) (w : World) : Prop := {
  wa_alive : expired w = false;
  wa_multi : multi (client w) = true;
  wa_open : sockets w !! s = Some (Some fd);
  wa_interest : socket_actions (client w) !! fd = Some CURL_POLL_INOUT;
  wa_operations : Forall (λ op, ∃ a, op = Op_socket s a) (operations w);
}.

(** From the trace [t0] on, libcurl has transfers in progress but nothing to
    say: its interest in the sockets stays as it is. *)
Definition unchanging (t0 : list event) : Prop := ∀ t, t0 `prefix_of` t →
  (∀ s a, curl_callbacks t (Call_socket_action s a) = 0%nat ∧
    curl_code t (Call_socket_action s a) = CURLM_OK) ∧
  0 < curl_running t ∧ curl_messages t = [].

Lemma arm_both_eq s w : expired w = false →
  arm_socket_watches s CURL_POLL_INOUT w = Ok (tt,
    w <| trace ::= λ t, t ++ [Ev_socket_async_wait s CURL_CSELECT_IN; Ev_socket_async_wait s CURL_CSELECT_OUT] |>
      <| operations ::= λ l, l ++ [Op_socket s CURL_CSELECT_IN; Op_socket s CURL_CSELECT_OUT] |>).
Proof.
  intros He. destruct w as [? ex ? ? ? ? ? ? ? ?]. simpl in He. subst ex.
  unfold arm_socket_watches, start_watch, start_operation, bind. simpl. unfold modify. simpl. by rewrite <- !app_assoc.
Qed.

Lemma fire_one s fd w t0 : unchanging t0 → t0 `prefix_of` trace w → watching s fd w → operations w ≠ [] →
  wp (step react (Act_complete 0 no_error)) (λ _ w',
    watching s fd w' ∧ t0 `prefix_of` trace w' ∧ length (operations w') = S (length (operations w))) w.
Proof.
  intros Hun Ht0 [He Hm Ho Hint Hops] Hne. unfold step. apply wp_bind, wp_gets.
  destruct (operations w) as [|op ops] eqn:Hw; [done|]. simpl.
  apply Forall_cons in Hops as [[a ->] Hops]. apply wp_bind, wp_modify. simpl.
  unfold event_callback. apply wp_bind, wp_gets, wp_bind, wp_gets. simpl. rewrite Ho, Hm. simpl.
  unfold curl_multi_socket_action, curl_body.
  destruct (Hun (trace w) Ht0) as [Hc _]. destruct (Hc fd a) as [Hc0 Hok].
  apply wp_bind, wp_bind, wp_bind, wp_gets, wp_bind. simpl. rewrite Hc0. apply wp_ret, wp_bind, wp_gets, wp_ret.
  simpl. rewrite Hok.
  set (t1 := trace w ++ [Ev_socket_action fd a CURLM_OK]).
  assert (t0 `prefix_of` t1) as Ht1 by (by apply prefix_app_r).
  destruct (Hun t1 Ht1) as (_ & Hrun & Hmsg).
  apply wp_bind, wp_modify, wp_bind, wp_gets, wp_bind, wp_modify, wp_ret. simpl.
  apply wp_bind. unfold check_multi_info. apply wp_bind, wp_gets. simpl. fold t1. rewrite Hmsg. apply wp_ret.
  apply wp_bind, wp_gets. simpl. fold t1. rewrite (proj2 (Z.leb_gt _ _)) by done.
  apply wp_bind, wp_gets. simpl. rewrite Hint. eapply wp_eq; [by apply arm_both_eq|].
  simpl. fold t1. split; [|split].
  - split; try done. simpl. rewrite Hw. simpl. apply Forall_app. split; [done|].
    repeat constructor; by eexists.
  - by apply prefix_app_r.
  - rewrite Hw. simpl. rewrite !length_app. simpl. lia.
Qed.

(** A socket that libcurl watches for both directions collects waits: each
    time the pending ones have all completed, twice as many are pending, because
    each re-arms both directions while the other wait is still there. *)
Theorem two_way_watches_double s fd w k :
  unchanging (trace w) → watching s fd w → operations w ≠ [] →
  wp (for_each (λ _, fire_all) (seq 0 k)) (λ _ w',
    watching s fd w' ∧ length (operations w') = (2 ^ k * length (operations w))%nat) w.
Proof.
  intros Hun Hw Hne.
  assert (∀ n w1, watching s fd w1 → operations w1 ≠ [] → trace w `prefix_of` trace w1 →
    wp (steps react (replicate n (Act_complete 0 no_error))) (λ _ w2,
      watching s fd w2 ∧ trace w `prefix_of` trace w2 ∧
      length (operations w2) = (n + length (operations w1))%nat) w1) as Hfire.
  { induction n as [|n IH]; intros w1 Hw1 Hne1 Ht1; simpl; [by apply wp_ret|].
    apply wp_bind. eapply wp_mono; [by eapply fire_one|]. intros [] w2 (Hw2 & Ht2 & Hl2).
    eapply wp_mono; [apply IH; [done| |done]|]; [by intros Hnil; rewrite Hnil in Hl2|].
    intros [] w3 (Hw3 & Ht3 & Hl3). split_and!; [done|done|lia]. }
  assert (∀ i w1, watching s fd w1 → operations w1 ≠ [] → trace w `prefix_of` trace w1 →
    wp (for_each (λ _, fire_all) (seq i k)) (λ _ w2,
      watching s fd w2 ∧ length (operations w2) = (2 ^ k * length (operations w1))%nat) w1) as Hrounds.
  { induction k as [|k IH]; intros i w1 Hw1 Hne1 Ht1; simpl; [apply wp_ret; split; [done|lia]|].
    apply wp_bind. unfold fire_all. apply wp_bind, wp_gets.
    eapply wp_mono; [by apply Hfire|]. intros [] w2 (Hw2 & Ht2 & Hl2).
    eapply wp_mono; [apply IH; [done| |done]|].
    - intros Hnil. rewrite Hnil in Hl2. destruct (operations w1); [done|]. simpl in Hl2. lia.
    - intros [] w3 [Hw3 Hl3]. split; [done|]. rewrite Hl3, Hl2. lia. }
  by apply Hrounds.
Qed.
End properties.

(** * A libcurl that follows a script *)

#[export] Instance callback_allowed_dec t cb : Decision (callback_allowed t cb).
Proof. destruct cb as [? ? []| | | | |]; simpl; apply _. Defined.

Module ScriptedCurl.
(** How many callbacks each of its calls makes, the callbacks, and the messages
    that are there once each request was made. *)
Record script := {
  sc_counts : list nat;
  sc_callbacks : list curl_callback;
  sc_messages : list (list CURLMsg);
}.

Definition is_call (e : event) : bool :=
  match e with
  | Ev_add_handle _ _ | Ev_remove_handle _ | Ev_socket_action _ _ _ | Ev_multi_cleanup => true
  | _ => false
  end.
Definition is_callback (e : event) : bool := match e with Ev_curl_callback _ => true | _ => false end.
Definition is_request (e : event) : bool := match e with Ev_request _ => true | _ => false end.

(** What the script has next, or else a callback that is always allowed. *)
Definition next_callback (sc : script) (t : list event) : curl_callback :=
  match sc_callbacks sc !! count is_callback t with
  | Some cb => if decide (callback_allowed t cb) then cb else Cb_timer (-1)
  | None => Cb_timer (-1)
  end.

(** Messages for added handles, one for each. *)
Fixpoint proper_messages (a : gset nat) (ms : list CURLMsg) : list CURLMsg :=
  match ms with
  | [] => []
  | m :: ms =>
      if decide (easy_handle m ∈ a) then m :: proper_messages (a ∖ {[ easy_handle m ]}) ms
      else proper_messages a ms
  end.

Definition curl (sc : script) : Curl := {|
  curl_callbacks := λ t _, sc_counts sc !!! count is_call t;
  curl_next := λ t _, next_callback sc t;
  curl_code := λ _ _, CURLM_OK;
  curl_running := λ _, 1;
  curl_assign := λ _ _ _, CURLM_OK;
  curl_easy_ok := λ _, true;
  curl_messages := λ t, proper_messages (added t) (sc_messages sc !!! pred (count is_request t));
  curl_response_code := λ _ _, 200;
|}.

Lemma proper_added ms a m : m ∈ proper_messages a ms → easy_handle m ∈ a.
Proof.
  revert a. induction ms as [|m' ms IH]; intros a; simpl; [by intros Hm%not_elem_of_nil|].
  case_decide as Ha; [|apply IH]. intros [->|Hm]%elem_of_cons; [done|].
  by apply IH in Hm as [Hm _]%elem_of_difference.
Qed.

Lemma proper_distinct ms a : NoDup (map easy_handle (proper_messages a ms)).
Proof.
  revert a. induction ms as [|m ms IH]; intros a; simpl; [constructor|].
  case_decide as Ha; [|apply IH]. simpl. apply NoDup_cons. split; [|apply IH].
  intros (m' & Heq & Hm')%list_elem_of_fmap. apply proper_added in Hm'.
  rewrite <- Heq in Hm'. apply elem_of_difference in Hm' as [_ Hne]. by apply Hne, elem_of_singleton.
Qed.

#[export] Instance laws sc : @CurlLaws (curl sc).
Proof.
  split.
  - intros t c. simpl. unfold next_callback. case_match; [|done]. by case_decide.
  - intros t m. apply proper_added.
  - intros t. apply proper_distinct.
Qed.

#[export] Instance in_order : Iteration.
Proof. refine {| iterate := λ _ _ l, l |}. done. Defined.

(** A user whose callbacks do nothing, and one that asks again from them. *)
Definition quiet_user (_ : list event) (_ : handler) (_ : error_code) (_ : HttpResponse) : list api_call := [].
Definition get_from (host : string) (h : handler) : api_call := Api_get host "443" "/" 1000 (Some h).
Definition eager_user (_ : list event) (_ : handler) (_ : error_code) (_ : HttpResponse) : list api_call :=
  [get_from "b.example" 8%nat].

Definition world (sc : script) (acts : list action) : World :=
  match @steps (curl sc) in_order quiet_user acts (World_init true) with
  | Ok (_, w) => w | Fault _ => World_init true end.

Lemma scripted_inv sc acts : Z.of_nat (length acts) < two64 → Inv (length acts) (world sc acts).
Proof.
  intros Hlen. destruct (wp_ok _ _ _ (@mux_steps_inv (curl sc) _ in_order quiet_user acts true Hlen))
    as ([] & w & Hw & HI). unfold world. by rewrite Hw.
Qed.

(** A transfer from a.example that is started, watched both ways, and has sent a
    part of its response; then its timer is cancelled. *)
Definition crlf : string := String (Ascii.ascii_of_nat 13) (String (Ascii.ascii_of_nat 10) "").
Definition transfer_script (messages : list (list CURLMsg)) : script := {|
  sc_counts := [1; 6]%nat;
  sc_callbacks := [
    Cb_timer 0;
    Cb_open true AF_INET no_error no_error 5; Cb_socket 5 CURL_POLL_INOUT None;
    Cb_header 1 ("HTTP/1.1 200 OK" +:+ crlf); Cb_header 1 ("Content-Type: text/plain " +:+ crlf);
    Cb_write 1 "he"; Cb_write 1 "llo"];
  sc_messages := messages;
|}.
Definition transfer : script :=
  transfer_script [[]; [{| msg_done := true; easy_handle := 1; msg_result := CURLE_OK |}]].
(** The same transfer, of which libcurl never says more. *)
Definition stalled : script := transfer_script [].
Definition transferring : list action :=
  [Act_api (get_from "a.example" 7%nat); Act_task 0; Act_complete 0 (make_error_code operation_canceled)].
Definition w_transferring : World := world transfer transferring.

Lemma transferring_Inv : Inv 3 w_transferring.
Proof. by apply (scripted_inv transfer transferring). Qed.
End ScriptedCurl.

(** * Witnesses *)

Section witnesses.
Import ScriptedCurl.
#[local] Instance the_curl : Curl := curl transfer.
#[local] Instance the_laws : CurlLaws := laws transfer.
#[local] Existing Instance in_order.

Definition the_message : CURLMsg := {| msg_done := true; easy_handle := 1; msg_result := CURLE_OK |}.

(** The transfer, cancelled from another thread, with an eager user. *)
Definition cancelling : list action := transferring ++ [Act_api Api_cancel; Act_task 0; Act_task 0].

Lemma multiplex_requests_are_answered_once_witness :
  wp (steps eager_user cancelling) (λ _ w,
    (callbacks 7%nat w ≤ requests 7%nat w)%nat ∧
    (connections (client w) = ∅ → queued 7%nat w = 0%nat → callbacks 7%nat w = requests 7%nat w) ∧
    pending_count w = Z.of_nat (size (connections (client w)))) (World_init true).
Proof. apply (multiplex_requests_are_answered_once eager_user cancelling true 7%nat). reflexivity. Defined.

Lemma easy_handles_are_released_witness :
  wp (steps eager_user cancelling) (λ _ w,
    cleanups_safe (trace w) ∧
    ∀ e, (count (is_cleanup_of e) (trace w) ≤ count (is_init_of e) (trace w))%nat ∧
      (connections (client w) = ∅ →
        count (is_cleanup_of e) (trace w) = count (is_init_of e) (trace w))) (World_init true).
Proof. apply (easy_handles_are_released eager_user cancelling true). reflexivity. Defined.

Lemma the_message_added : easy_handle the_message ∈ added (trace w_transferring).
Proof. by vm_compute. Qed.

Lemma done_transfer_is_delivered_witness :
  response_of (trace w_transferring) the_message =
    {| status_code := 200; body := "hello";
       headers := [{| name := "Content-Type"; value := "text/plain" |}] |} ∧
  wp (handle_message quiet_user the_message) (λ _ w', ∃ p c,
    contexts w_transferring !! p = Some c ∧ easy c = Some (easy_handle the_message) ∧
    connections (client w') = connections (client w_transferring) ∖ {[ p ]} ∧
    added (trace w') = added (trace w_transferring) ∖ {[ easy_handle the_message ]} ∧
    pending_count w' = pending_count w_transferring - 1 ∧
    owner <$> contexts w' = delete p (owner <$> contexts w_transferring) ∧
    ∃ t es, trace w' = t ++ answer (conn_handler c) (from_curl_code (msg_result the_message))
        (response_of t the_message) ++ es ∧
      (∀ h, count (is_callback_of h) t = callbacks h w_transferring) ∧
      Forall (λ e, answers_nobody e = true) es) w_transferring.
Proof.
  split; [vm_compute; reflexivity|].
  apply (done_transfer_is_delivered quiet_user 3 the_message w_transferring);
    [exact transferring_Inv|reflexivity|reflexivity|exact the_message_added].
Defined.

Lemma cancel_answers_every_request_witness :
  outstanding 7%nat w_transferring = 1%nat ∧
  wp (do_cancel eager_user) (λ _ w',
    (∀ h, callbacks h w' = (callbacks h w_transferring + outstanding h w_transferring)%nat) ∧
    (∃ es, trace w' = trace w_transferring ++ es ∧ Forall cancellation es) ∧
    is_busy w' = false ∧ contexts w' = ∅ ∧ added (trace w') = ∅ ∧
    socket_map (client w') = ∅ ∧ socket_actions (client w') = ∅ ∧ actions (client w') = ∅)
    w_transferring.
Proof.
  split; [vm_compute; reflexivity|].
  apply (cancel_answers_every_request eager_user 3 w_transferring). exact transferring_Inv.
Defined.

(** A second request is posted; by then libcurl has finished the first. *)
Definition finished : list action := transferring ++ [Act_api (get_from "b.example" 8%nat)].

Lemma finished_reported : ∀ e, e ∈ added (trace (world transfer finished)) →
  ∃ m, m ∈ curl_messages (trace (world transfer finished)) ∧ msg_done m = true ∧ easy_handle m = e.
Proof.
  intros e He. exists the_message.
  assert (added (trace (world transfer finished)) = {[ 1%nat ]}) as Hadd by (vm_compute; reflexivity).
  rewrite Hadd in He. apply elem_of_singleton in He as ->.
  assert (curl_messages (trace (world transfer finished)) = [the_message]) as -> by (vm_compute; reflexivity).
  split; [apply list_elem_of_here|]. split; reflexivity.
Qed.

Lemma finished_transfers_are_answered_witness :
  is_busy (world transfer finished) = true ∧
  wp (check_multi_info quiet_user) (λ _ w',
    is_busy w' = false ∧ connections (client w') = ∅ ∧ added (trace w') = ∅ ∧
    ∀ h, callbacks h w' =
      (callbacks h (world transfer finished) + outstanding h (world transfer finished))%nat)
    (world transfer finished).
Proof.
  split; [vm_compute; reflexivity|].
  apply (finished_transfers_are_answered quiet_user 4 (world transfer finished));
    [exact (scripted_inv transfer finished eq_refl)|reflexivity|exact finished_reported].
Defined.

End witnesses.

Section watch_witness.
Import ScriptedCurl.
#[local] Instance stalled_curl : Curl := curl stalled.
#[local] Existing Instance in_order.

Definition w_stalled : World := world stalled transferring.

Lemma stalled_watching : watching 2 5 w_stalled.
Proof.
  split; [vm_compute; reflexivity..|].
  assert (operations w_stalled = [Op_socket 2 CURL_CSELECT_IN; Op_socket 2 CURL_CSELECT_OUT]) as ->
    by (vm_compute; reflexivity).
  repeat constructor; by eexists.
Qed.

Lemma stalled_unchanging : unchanging (trace w_stalled).
Proof.
  intros t [t' ->]. split; [|split; [done|]].
  - intros s a. split; [|done]. simpl. rewrite count_app.
    assert (count is_call (trace w_stalled) = 2%nat) as -> by (vm_compute; reflexivity). done.
  - done.
Qed.

Lemma two_way_watches_double_witness :
  wp (for_each (λ _, fire_all quiet_user) (seq 0 10)) (λ _ w',
    watching 2 5 w' ∧ length (operations w') = (2 ^ 10 * length (operations w_stalled))%nat) w_stalled.
Proof.
  apply (two_way_watches_double quiet_user 2 5 w_stalled 10);
    [exact stalled_unchanging|exact stalled_watching|vm_compute; discriminate].
Defined.
End watch_witness.

(** * Two scenarios *)

Section scenarios.
Import ScriptedCurl.

(** A first transfer is done and libcurl keeps its connection, with descriptor 5,
    for later; [cancel] closes the socket behind it; a second transfer, from
    another host, gets a socket that the system numbers 5 again; then libcurl
    closes the connection it kept. *)
Definition reuse : script := {|
  sc_counts := [0; 3; 0; 0; 3]%nat;
  sc_callbacks := [
    Cb_open true AF_INET no_error no_error 5; Cb_socket 5 CURL_POLL_IN None;
    Cb_socket 5 CURL_POLL_REMOVE (Some 3%nat);
    Cb_open true AF_INET no_error no_error 5; Cb_socket 5 CURL_POLL_OUT None; Cb_close 5];
  sc_messages := [[{| msg_done := true; easy_handle := 1; msg_result := CURLE_OK |}]; []];
|}.
Definition reusing : list action :=
  [Act_api (get_from "a.example" 7%nat); Act_task 0; Act_api Api_cancel; Act_task 0;
   Act_api (get_from "b.example" 8%nat); Act_task 0].

(** The second transfer is in progress, libcurl believes its socket to be open,
    but the client has closed it and will never watch it again. *)
Lemma stale_descriptor_closes_another_socket :
  let w := world reuse reusing in
  callbacks 7%nat w = 1%nat ∧ pending_count w = 1 ∧ outstanding 8%nat w = 1%nat ∧
  sockets w !! 6%nat = Some None ∧ socket_map (client w) = ∅ ∧
  count (λ e, match e with Ev_curl_callback (Cb_close _) => true | _ => false end) (trace w) = 1%nat.
Proof. vm_compute. auto 10. Qed.

(** Two transfers in progress when the client is destroyed: as libcurl removes
    the first it sets its timer for the second, and the callback asks for a
    [shared_ptr] to the client, which there is no more. *)
Definition two_transfers : script := {|
  sc_counts := [0; 0; 0; 0; 1]%nat; sc_callbacks := [Cb_timer 50]; sc_messages := [] |}.
Lemma destructor_throws :
  @destroy (curl two_transfers) in_order
    (world two_transfers [Act_api (get_from "a.example" 7%nat); Act_task 0;
                          Act_api (get_from "b.example" 8%nat); Act_task 0]) = Fault BadWeakPtr.
Proof. vm_compute. reflexivity. Qed.
End scenarios.
