(* ===== verification/MultiplexDestructor.v ===== *)
(** The destructor of the multiplexing client.

    While it runs no [shared_ptr] owns the client, so a callback of libcurl that
    asks for one throws [bad_weak_ptr] out of the destructor.  [Sim] says that
    this is all that distinguishes the expired client from a live one, for which
    the invariant of [MultiplexInvariant] holds; what the destructor does when it
    does not throw follows from that. *)

From S2P Require Import Prelude HttpsMultiplexClient MultiplexInvariant MultiplexSafety.
From S2P Require Import MultiplexProperties.

(** A callback that does not ask for a [shared_ptr] to the client. *)
Definition harmless (cb : curl_callback) : bool :=
  match cb with
  | Cb_timer timeout_ms => timeout_ms <? 0
  | Cb_socket _ what _ => what =? CURL_POLL_REMOVE
  | _ => true
  end.

(** * The expired client simulates the live one *)

(** The last [shared_ptr] goes. *)
Definition expire (w : World) : World := w <| expired := true |>.

(** [m] on the expired client throws, which takes [P], or does as on the live one. *)
Definition Sim (P : Prop) {A} (m : M World A) : Prop := ∀ w,
  (P ∧ m (expire w) = Fault BadWeakPtr) ∨
  m (expire w) = match m w with Ok (a, w') => Ok (a, expire w') | Fault f => Fault f end.

Section sim.
Context (P : Prop).

Lemma sim_ret {A} (a : A) : Sim P (ret a).
Proof. by right. Qed.
Lemma sim_bind {A B} (m : M World A) (k : A → M World B) :
  Sim P m → (∀ a, Sim P (k a)) → Sim P (bind m k).
Proof.
  intros Hm Hk w. unfold bind. destruct (Hm w) as [[HP ->]| ->]; [by left|].
  destruct (m w) as [[a w']|f]; [apply Hk|by right].
Qed.
Lemma sim_gets {A} (f : World → A) : (∀ w, f (expire w) = f w) → Sim P (gets f).
Proof. intros Hf w. right. unfold gets. by rewrite Hf. Qed.
Lemma sim_modify f : (∀ w, f (expire w) = expire (f w)) → Sim P (modify f).
Proof. intros Hf w. right. unfold modify. by rewrite Hf. Qed.
Lemma sim_require {A} f (o : option A) : Sim P (require f o).
Proof. right. by destruct o. Qed.
Lemma sim_when b (m : M World unit) : Sim P m → Sim P (when b m).
Proof. destruct b; [done|]. intros _. apply sim_ret. Qed.
Lemma sim_for_each {A} (f : A → M World unit) xs : (∀ x, Sim P (f x)) → Sim P (for_each f xs).
Proof. intros Hf. induction xs as [|x xs IH]; simpl; [apply sim_ret|]. by apply sim_bind. Qed.
Lemma sim_shared : P → Sim P shared_from_this.
Proof. intros HP w. by left. Qed.
End sim.

Create HintDb sim.
#[export] Hint Resolve sim_ret sim_require : sim.
#[export] Hint Extern 1 (Sim _ (gets _)) => (apply sim_gets; reflexivity) : sim.
#[export] Hint Extern 1 (Sim _ (modify _)) => (apply sim_modify; reflexivity) : sim.
#[export] Hint Extern 1 (Sim _ (getc _)) => (apply sim_gets; reflexivity) : sim.
#[export] Hint Extern 1 (Sim _ (modc _)) => (apply sim_modify; reflexivity) : sim.
#[export] Hint Extern 1 (Sim _ (log _)) => (apply sim_modify; reflexivity) : sim.
#[export] Hint Extern 1 (Sim _ (start_operation _)) => (apply sim_modify; reflexivity) : sim.

Ltac sim_step :=
  match goal with
  | |- Sim _ (bind _ _) => apply sim_bind; [|intros ?]
  | |- Sim _ (when _ _) => apply sim_when
  | |- Sim _ (for_each _ _) => apply sim_for_each; intros ?
  | |- Sim _ (if ?b then _ else _) => destruct b
  | |- Sim _ (match ?x with _ => _ end) => destruct x
  | |- Sim _ _ => solve [auto with sim nocore]
  end.
Ltac sim := repeat sim_step.

Section destructor.
Context `{HC : Curl} `{HL : !CurlLaws} `{HI : Iteration}.
Context (P : Prop) (Hharm : ∀ t c, harmless (curl_next t c) = true ∨ P).

Lemma sim_watches s a : P → Sim P (arm_socket_watches s a).
Proof. intros HP. assert (Sim P shared_from_this) by by apply sim_shared. unfold arm_socket_watches, start_watch. sim. Qed.

Lemma sim_set_socket s a p : P → Sim P (handle_set_socket s a p).
Proof. intros HP. assert (∀ s a, Sim P (arm_socket_watches s a)) by (by intros; apply sim_watches). unfold handle_set_socket. sim. Qed.

Lemma sim_modify_conn p f : Sim P (modify_conn p f).
Proof. unfold modify_conn, deref_conn. sim. Qed.

Lemma sim_new_address : Sim P new_address.
Proof. unfold new_address. sim. Qed.
#[local] Hint Resolve sim_new_address sim_modify_conn : sim.

Lemma sim_close_tcp_socket s : Sim P (close_tcp_socket s).
Proof. unfold close_tcp_socket. sim. Qed.
#[local] Hint Resolve sim_close_tcp_socket : sim.

Lemma sim_callback cb : harmless cb = true ∨ P → Sim P (run_curl_callback cb).
Proof.
  intros Hcb. unfold run_curl_callback. apply sim_bind; [sim|intros _].
  destruct cb as [s what sp|ms|b f ec ec' fd|item|e b|e l]; simpl in Hcb.
  - unfold handle_socket_event, handle_add_socket, handle_remove_socket.
    destruct Hcb as [->|HP]; [sim|].
    assert (∀ s a p, Sim P (handle_set_socket s a p)) by (by intros; apply sim_set_socket). sim.
  - unfold handle_timeout_event, timer_cancel. destruct Hcb as [->|HP]; [sim|].
    assert (Sim P shared_from_this) by by apply sim_shared. sim.
  - unfold handle_open_socket. sim.
  - unfold handle_close_socket. sim.
  - unfold write_callback, userdata. sim.
  - unfold header_callback, userdata. sim.
Qed.

Lemma sim_curl_body c : Sim P (curl_body c).
Proof.
  unfold curl_body. apply sim_bind; [sim|]. intros t. apply sim_bind; [|intros _; sim].
  generalize (curl_callbacks t c). intros n. induction n as [|n IH]; simpl; [sim|].
  apply sim_bind; [sim|]. intros t'. apply sim_bind; [apply sim_callback, Hharm|]. by intros _.
Qed.
#[local] Hint Resolve sim_curl_body : sim.

(** The destructor, but for its first step. *)
Definition destroy_body : M World unit :=
  timer_cancel ;;;
  let! outstanding := getc connections in
  modc (λ c, c <| connections := ∅ |>) ;;;
  modc (λ c, c <| pending := 0 |>) ;;;
  let! t := gets trace in
  for_each drop_conn (iterate t (elements outstanding)) ;;;
  close_sockets ;;;
  let! multi_ok := getc multi in
  when multi_ok (
    curl_body Call_multi_cleanup ;;;
    log Ev_multi_cleanup ;;;
    modc (λ c, c <| multi := false |>)) ;;;
  for_each free_conn (elements outstanding).

Lemma destroy_expires : destroy ≡ (modify expire ;;; destroy_body).
Proof. done. Qed.

Lemma sim_destroy : Sim P destroy_body.
Proof.
  unfold destroy_body, timer_cancel, drop_conn, remove_conn, curl_multi_remove_handle,
    close_sockets, free_conn, deref_conn. sim.
Qed.
End destructor.

(** * The destructor of a live client *)

Section live.
Context `{HC : Curl} `{HL : !CurlLaws} `{HI : Iteration}.

(** The loop of the destructor has the contexts [ps] left. *)
Record Dropping (w0 w : World) (ps : list nat) : Prop := {
  dr_mem : Mem (list_to_set ps) w;
  dr_dom : dom (contexts w) = connections (client w0);
  dr_connections : connections (client w) = ∅ ∧ pending (client w) = 0;
  dr_multi : multi (client w) = multi (client w0);
  dr_done p c : contexts w !! p = Some c → p ∉ ps → conn_handler c = None;
  dr_calls h : callbacks h w = callbacks h w0;
}.

Lemma drop_conn_wp w0 w p ps :
  Dropping w0 w (p :: ps) → p ∉ ps → multi (client w0) = true →
  wp (drop_conn p) (λ _ w', Dropping w0 w' ps) w.
Proof.
  intros [HM Hd Hc Hmu Hdone Hcalls] Hn Hm0.
  assert (p ∈ (list_to_set (p :: ps) : gset nat)) as HA by set_solver.
  destruct (own_data _ _ (proj1 HM) p HA) as (e & l & Ho & _). pose proof Ho as (c & Hp & Hce).
  unfold drop_conn, remove_conn. apply wp_bind, wp_bind, (deref_wp p c), wp_bind, wp_gets; [done|].
  rewrite Hce, Hmu, Hm0. apply wp_when.
  eapply wp_mono; [exact (remove_handle_wp _ w p e HM HA Ho)|].
  intros _ w1 (HM1 & [_ Ko Kc Kp Kmu _ Kcb] & _).
  destruct (owners_lookup w w1 p c Ko Hp) as (c1 & Hp1 & Hown).
  unfold modify_conn. apply wp_bind, (deref_wp p c1), wp_modify; [done|].
  assert ((list_to_set (p :: ps) : gset nat) ∖ {[ p ]} = list_to_set ps) as Hset.
  { simpl. rewrite difference_union_distr_l_L, difference_diag_L, union_empty_l_L.
    apply difference_disjoint_L, disjoint_singleton_r. by rewrite elem_of_list_to_set. }
  rewrite Hset in HM1. split; simpl; rewrite ?Kc, ?Kp, ?Kmu; try done.
  - by apply (Mem_context _ w1 p c1).
  - rewrite dom_insert_lookup_L by eauto. by rewrite (owners_dom w).
  - intros q d [[_ <-]|[Hne Hq]]%lookup_insert_Some Hnq; [done|].
    destruct (owners_lookup w1 w q d (eq_sym Ko) Hq) as (d' & Hq' & Hd').
    rewrite <- (f_equal snd Hd' : conn_handler d' = conn_handler d).
    apply (Hdone q d' Hq'). rewrite not_elem_of_cons. auto.
  - intros h. by rewrite <- (Hcalls h), <- (Kcb h).
Qed.

Lemma drop_conns_wp w0 w ps :
  Dropping w0 w ps → NoDup ps → (ps = [] ∨ multi (client w0) = true) →
  wp (for_each drop_conn ps) (λ _ w', Dropping w0 w' []) w.
Proof.
  revert w. induction ps as [|p ps IH]; intros w Hw Hnd Hm; simpl; [by apply wp_ret|].
  apply NoDup_cons in Hnd as [Hn Hnd]. destruct Hm as [|Hm]; [done|]. apply wp_bind.
  eapply wp_mono; [by apply (drop_conn_wp w0 w p ps)|]. intros [] w1 Hw1. apply IH; auto.
Qed.

(** What the destructor leaves: no connection, no handle, no socket, and the
    handlers of the transfers in progress dropped. *)
Record destroyed (w w' : World) : Prop := {
  de_contexts : contexts w' = ∅;
  de_client : multi (client w') = false ∧ connections (client w') = ∅ ∧ pending_count w' = 0;
  de_added : added (trace w') = ∅;
  de_released e : count (is_cleanup_of e) (trace w') = count (is_init_of e) (trace w');
  de_safe : cleanups_safe (trace w');
  de_calls h : callbacks h w' = callbacks h w;
}.

(** [curl_multi_cleanup], if there is a multi handle. *)
Lemma multi_cleanup_wp w : Mem ∅ w →
  wp (let! multi_ok := getc multi in
      when multi_ok (curl_body Call_multi_cleanup ;;; log Ev_multi_cleanup ;;; modc (λ c, c <| multi := false |>)))
     (λ _ w', Mem ∅ w' ∧ calm w (w' <| client ::= λ c, c <| multi := multi (client w) |> |>) ∧
       multi (client w') = false) w.
Proof.
  intros HM. apply wp_bind, wp_gets. destruct (multi (client w)) eqn:Hmu.
  - apply wp_when, wp_bind. eapply wp_mono; [by apply (curl_body_wp ∅)|]. intros _ w1 [HM1 Hq1].
    apply wp_bind, wp_modify, wp_modify.
    assert (idle w1 (w1 <| trace ::= λ l, l ++ [Ev_multi_cleanup] |>)) as Hi by by apply idle_log.
    pose proof (Mem_idle ∅ _ _ Hi HM1) as HM2.
    split; [mem_unseen HM2|]. split; [|done].
    apply quiet_calm in Hq1 as [K1 K2 K3 K4 K5 K6 K7]. split; try done; simpl.
    + intros h. rewrite <- K6. unfold requests. simpl. rewrite count_app, count_cons, count_nil. simpl. lia.
    + intros h. rewrite <- K7. unfold callbacks. simpl. rewrite count_app, count_cons, count_nil. simpl. lia.
  - apply wp_when. split; [done|]. split; [|done]. by split; simpl.
Qed.

Lemma dropping_start w ps : Calm w → list_to_set ps = connections (client w) →
  Dropping w (w <| trace ::= λ t, t ++ [Ev_timer_cancel] |>
                <| client ::= λ c, c <| connections := ∅ |> |> <| client ::= λ c, c <| pending := 0 |> |>) ps.
Proof.
  intros [HM Hd _ _ _] Hset.
  assert (idle w (w <| trace ::= λ l, l ++ [Ev_timer_cancel] |>)) as Hi by by apply idle_log.
  pose proof (Mem_idle _ _ _ Hi HM) as HM1. split; try done.
  - rewrite Hset. mem_unseen HM1.
  - intros p c Hp Hn. exfalso. apply Hn. rewrite <- (elem_of_list_to_set (C := gset nat)), Hset, <- Hd.
    by eapply elem_of_dom_2.
  - intros h. unfold callbacks. simpl. rewrite count_app, count_cons, count_nil. simpl. lia.
Qed.

Lemma destroy_body_wp w : Calm w → wp destroy_body (λ _ w', destroyed w w') w.
Proof.
  intros HS. pose proof HS as [HM Hd Ha Hpe Hmu]. set (C := connections (client w)) in *.
  unfold destroy_body, timer_cancel.
  apply wp_bind, wp_modify, wp_bind, wp_gets, wp_bind, wp_modify, wp_bind, wp_modify, wp_bind, wp_gets, wp_bind.
  match goal with |- wp _ _ ?w' => set (w1 := w') end.
  set (ps := iterate _ _). destruct (iterate_elements (trace w1) C) as (Hset & Hnd & Hnil).
  pose proof (dropping_start w ps HS Hset) as Hstart.
  eapply wp_mono; [apply (drop_conns_wp w w1 ps Hstart Hnd); destruct Hmu; auto|].
  intros [] w2 [HM2 Hd2 [Hc2 Hp2] Hm2 Hdone2 Hcalls2]. apply wp_bind.
  assert (added (trace w2) = ∅) as Hadd2.
  { apply set_eq. intros e. rewrite (own_added _ _ (proj1 HM2)). set_solver. }
  eapply wp_mono; [by apply (close_sockets_wp ∅)|].
  intros [] w3 (HM3 & Hc3 & Hx3 & Hp3 & es3 & Ht3 & Hes3).
  apply (proj1 (wp_equiv_proper _ _ _ _ (bind_assoc (getc multi) _ _) _ _ eq_refl _ _ eq_refl)), wp_bind.
  eapply wp_mono; [by apply multi_cleanup_wp|]. intros [] w4 (HM4 & K4 & Hm4).
  assert (owner <$> contexts w4 = owner <$> contexts w2) as Ko4 by (rewrite <- Hx3; apply K4).
  eapply wp_mono; [apply (free_all_wp (elements C) (λ h, Z.of_nat (requests h w4) -
    (Z.of_nat (queued h w4) + Z.of_nat (outstanding h w4) + Z.of_nat (callbacks h w4))) w4 HM4)|].
  { intros h. lia. }
  { by rewrite (owners_dom w2), Hd2, list_to_set_elements_L. }
  { apply NoDup_elements. }
  { intros p c Hp. destruct (owners_lookup w4 w2 p c (eq_sym Ko4) Hp) as (c' & Hp' & Ho).
    rewrite <- (f_equal snd Ho : conn_handler c' = conn_handler c).
    apply (Hdone2 p c' Hp'), not_elem_of_nil. }
  intros [] w5 (HM5 & _ & Hc5 & Hx5 & es5 & Ht5 & Hes5).
  assert (connections (client w4) = ∅ ∧ pending (client w4) = 0) as [Hcon4 Hpen4].
  { destruct K4 as [_ _ Kc Kp _ _ _]. simpl in Kc, Kp. rewrite Kc, Kp, Hc3. done. }
  pose proof HM5 as ([_ _ _ Hop5 _ Had5 _ Hrel5 Hsafe5] & _ & _).
  split; rewrite ?Hc5; try done.
  - unfold pending_count. by rewrite Hc5.
  - apply set_eq. intros e. rewrite Had5. set_solver.
  - intros e. rewrite Hrel5, decide_False; [lia|].
    intros (p & c & Hp & _)%Hop5. by rewrite Hx5, lookup_empty in Hp.
  - intros h. rewrite <- (Hcalls2 h). transitivity (callbacks h w4).
    + unfold callbacks. by rewrite Ht5, (count_events cleanup_event) by (done || by intros []).
    + transitivity (callbacks h w3); [exact (k_callbacks _ _ K4 h)|].
      unfold callbacks. by rewrite Ht3, (count_events curl_event) by (done || by intros []).
Qed.

(** C37: from every reachable state the destructor either throws [bad_weak_ptr],
    which takes a callback of libcurl that asks for a [shared_ptr] to the client,
    or ends with every easy handle cleaned up exactly once and none while libcurl
    had it, no connection left and the multi handle gone.  No dangling pointer is
    used, and the handlers of the requests in progress are dropped: none is called. *)
Theorem destructor_releases_everything n w : Inv n w →
  match destroy w with
  | Ok (_, w') => destroyed w w'
  | Fault f => f = BadWeakPtr ∧ ∃ t c, harmless (curl_next t c) = false
  end.
Proof.
  intros [HS _]. assert (∀ t c, harmless (curl_next t c) = true ∨ ∃ t c, harmless (curl_next t c) = false) as Hh.
  { intros t c. destruct (harmless (curl_next t c)) eqn:E; [by left|right; by eauto]. }
  destruct (wp_ok _ _ _ (destroy_body_wp w HS)) as ([] & w' & Hw & []).
  assert (destroy w = destroy_body (expire w)) as -> by done.
  destruct (sim_destroy _ Hh w) as [[HP ->]| ->]; [done|]. by rewrite Hw.
Qed.
End live.

(** * Witness *)

Section destructor_witness.
Import ScriptedCurl.
#[local] Instance dying_curl : Curl := curl transfer.
#[local] Existing Instance in_order.

Lemma destructor_releases_everything_witness :
  match destroy w_transferring with Ok _ => true | Fault _ => false end = true ∧
  outstanding 7%nat w_transferring = 1%nat ∧
  match destroy w_transferring with
  | Ok (_, w') => destroyed w_transferring w'
  | Fault f => f = BadWeakPtr ∧ ∃ t c, harmless (curl_next t c) = false
  end.
Proof.
  split; [vm_compute; reflexivity|]. split; [vm_compute; reflexivity|].
  apply (destructor_releases_everything 3 w_transferring). exact transferring_Inv.
Defined.
End destructor_witness.
